(* ===== verification/_CoqProject ===== *)
-Q . S2P
Prelude.v
Valkey.v
Models.v
QueueState.v
QueueScripts.v
QueueRefine.v
QueueInv.v
QueueTrace.v
QueueLife.v
QueueFlow.v
QueueTheorems.v
QueueLease.v
Fingerprint.v
Prog.v
Observability.v
JobQueue.v
ClientWorld.v
QueueClient.v
ClientDemo.v
ClientTheorems.v
Worker.v
WorkerTheorems.v
RunTheorems.v
Storage.v
Publication.v
StorageTheorems.v
ResultCache.v
CacheTheorems.v
Datasets.v
DatasetTheorems.v
FingerprintTheorems.v
Service.v
ServiceTheorems.v
AnswerTheorems.v
Spark.v
SparkTheorems.v
ViewTheorems.v
Node.v
NodeWorld.v
NodeTheorems.v
Metadata.v
MetadataTheorems.v
Migrations.v
MigrationTheorems.v
RecordTheorems.v
Sql.v
SqlSpec.v
SqlTheorems.v
Config.v
ConfigTheorems.v
Api.v
ApiTheorems.v
Wiring.v
WiringTheorems.v
