(* ===== verification/Prelude.v ===== *)
(** * Dalmatian: a verification development

    A model of the service under src/src/dalmatian/ (Spark SQL over files, with an
    asynchronous job queue on Valkey) and the theorems that make it correct.

    ** The program

    An HTTP request (api.py) is validated (models.py) and goes one of two ways.
    Synchronously, the query service (service.py) admits it, normalises its SQL
    (sql.py), resolves its sources (datasets.py, paths.py, storage.py), looks for
    its fingerprint (fingerprint.py) in the result cache (cache.py), and otherwise
    lets the Spark engine (spark.py) execute, store or stream it.  Asynchronously,
    the job queue (jobs.py) stores it as a job in Valkey, and workers (worker.py)
    reserve, execute and settle jobs under leases; a stored output is published
    under one key per destination (storage.py), fenced by the lease.  The metadata
    store (metadata.py) keeps a row per invocation and the locations an
    administrator adds (admin.py), in tables that its migrations create
    (migrations/).  Settings (config.py) configure every part, dependencies.py
    builds each part once and closes it, and observability.py counts and logs what
    they do.  The processes are the HTTP server (main.py), the worker ([run] of
    worker.py) and the administrator's commands.

    ** The files, in order

    - Prelude: scripts as a state monad with errors, outcomes ([result]), numerals,
      lists of ids, text functions, automation.  Valkey: the server as a class
      [Valkey] with its documented laws, and one in-memory instance.  Prog: Python
      code that calls services as trees of effects, with [run], [wp] and
      interleaved [execution].  Observability: observability.py.
    - Models: models.py and errors.py.
    - QueueState, QueueScripts: the job queue twice, as an abstract machine on typed
      data (one function per atomic call, Module [Spec]) and as the ten Lua scripts
      of jobs.py, statement by statement.  QueueRefine: the scripts implement the
      machine.  QueueInv, QueueTrace, QueueLife, QueueFlow, QueueTheorems: its
      invariant, traces, the life of one job, depth and recovery.  QueueLease: a
      lease renewed in time is kept.
    - JobQueue, ClientWorld, QueueClient, ClientDemo, ClientTheorems: the methods of
      [ValkeyJobQueue] as programs over those calls, among other clients.
    - Worker, WorkerTheorems: worker.py, one cycle and the process around it;
      RunTheorems: how the process ends.
    - Storage, Publication, StorageTheorems: storage.py.
    - Fingerprint, FingerprintTheorems: fingerprint.py.
    - ResultCache, CacheTheorems: cache.py.  Datasets, DatasetTheorems: datasets.py
      and paths.py.
    - Service, ServiceTheorems, AnswerTheorems: service.py and execution.py.
    - Spark, SparkTheorems: spark.py.  ViewTheorems: the dataset cache with the
      engine's loader and release.
    - Node, NodeWorld, NodeTheorems: the worker's cycle with the service and the
      engine it drives, each operation of one carried out by the next.
    - Metadata, MetadataTheorems: metadata.py and admin.py; RecordTheorems: the
      service over the metadata store.  Migrations, MigrationTheorems: the
      migrations, their environment (env.py), and the command line of admin.py.
    - Sql, SqlTheorems: sql.py; SqlSpec: what its regular expressions promise, said
      of the text itself.
    - Config, ConfigTheorems: config.py, and what dependencies.py and [run] of
      worker.py take from the settings.  Api, ApiTheorems: api.py over the service
      and over the queue client.  Wiring, WiringTheorems: the getters and the
      shutdown of dependencies.py, the lifespan and the probes of api.py, main.py.

    Definitions keep the names of the functions, methods and scripts they
    translate; a Lua or Python local that became a definition of its own is named
    after what it computes.

    ** What is shown

    - The queue: scripts refine the abstract machine on any server with the laws;
      no job is lost; attempts, depth and places are bounded; the status graph;
      fencing of lost workers; heartbeats that keep a lease; recovery; that a job
      is queued twice by a late reap only, and the race in which the source loses
      a cancellation.
    - The client and the worker: every method takes legal steps among any other
      clients and raises documented errors only; what enqueue, reserve, fail and
      reap_stale leave; how a worker settles each outcome, and that one that lost
      its job changes nothing; a worker process finishes the job it is on and closes what it opened.
    - Storage, fingerprints, cache, datasets: paths are confined to validated roots;
      the two publication registries agree; equal fingerprints mean equal requests
      unless SHA-256 collides; locks are exclusive, answers are stored values,
      waiting ends; loaded datasets are accounted for.
    - Service, Spark, metadata, SQL, API, settings: slots and locks are given back
      and bound the engine's load; every cached answer comes from an execution of
      the same query; inline limits, publication as the last step, streams as rows;
      rows of the metadata are well typed and tell how a request ended; accepted
      SQL names declared sources behind "from" and "join", as far as white space
      sets the names off, and its normal form is stable; HTTP answers tell
      their origin, refuse when full, and report the queue; valid settings satisfy
      what the components' theorems assume.
    - The parts together: a job is completed with a stored result only after this
      very attempt wrote its data, wrote its manifest and published it under its
      lease, through worker, service, engine and queue; the views of the datasets
      in the cache exist; a shutdown closes all that was built, each once, users
      before what they use; an upgraded database is one the commands accept.
    - Where the code does not do what it means to, the theorem or an [Example] next
      to it states what it does.

    ** Conventions, bounds and fuel

    Integers are [Z] (Python's are unbounded; Lua's are exact below 2^53, which the
    times and counters here stay under).  Queue times are milliseconds, metadata
    times microseconds; floating-point seconds are exact rationals [Q], so rounding
    is not modelled.  Texts are lists of bytes, read as ASCII by the text functions.
    A Python dict whose order can be seen is an association list, otherwise a
    [gmap].  Loops over lists and texts are structural.  Five take fuel: [poll] of
    ResultCache with [wait_fuel] turns ([waiting_ends] shows that they are enough
    for every clock); [findall] of Sql with the length of the text ([findall_fuel]:
    more changes nothing); [drop_references] of Migrations with the length of the
    text, which each of its steps shortens; the loop of a worker process, which is
    watched for a number of turns and reports [Unfinished] if it is still running;
    and the generators of Service and Spark, with the number of chunks their
    consumer asks for, which is part of the input.
    Other clients, other requests and other threads act between any two
    operations: as legal calls of the queue ([others]), as steps of a pool of
    programs (ServiceTheorems, AnswerTheorems), or as moves of threads (Datasets).
    A claim that a program changes nothing itself is stated for every relation the
    others' moves stay in ([exec_at], [worker_exec]): the world moves by that
    relation, so not at all when the others stand still; what depends on the time
    is stated for the times the clock shows, a predicate [C].

    ** Parameters

    Code that is not in the repository is a parameter: the Valkey server
    ([ValkeyLaws]), SHA-256 ([Sha256]), pydantic's and zlib's codecs
    ([QueueCodec], [CacheCodec]), the file system and pathlib ([Files]), sqlglot
    ([Sqlglot]), Alembic ([Alembic], [AlembicLaws]), the database driver's binding of
    values to text columns ([Driver], [DriverLaws]), csv.writer, PySpark, Hadoop, the
    Prometheus registry, uvicorn and the clock (operations that may answer
    anything).

    ** Not modelled

    What a class of a third-party package does when it is constructed and inside
    its calls; the contents of the Prometheus registry; HTTP routing and the
    serialisation of bodies (FastAPI, pydantic); errors of the connection to Valkey,
    which every method of jobs.py, the result cache's and the publication registry's
    can raise besides their own (a call of the queue always answers here, so the
    theorems on its methods and on the worker hold while the connection does; the
    service and the engine are modelled for whatever the cache and the registry
    raise), and errors of the connection to the metadata database; how pydantic reads the settings
    from the environment; the sites of the log calls, though not the formatter.
    The Protocol classes (the interfaces the components name in annotations) have
    no behaviour of their own.  Column lengths of the metadata tables, errors of
    urlsplit on malformed hosts, and non-ASCII letters in SQL keywords are not
    modelled either. *)

From stdpp Require Export base gmap strings list fin_maps relations.
From Stdlib Require Import Ascii ZArith DecimalString DecimalPos DecimalZ.
From Stdlib Require Export Lia.

#[global] Open Scope string_scope.
#[global] Open Scope list_scope.
#[global] Open Scope Z_scope.

(** ** Scripts: a state monad with run-time errors

    A Valkey Lua script and a chain of client calls both read and write a
    store; a failing primitive stops them and keeps the writes made so far,
    since Valkey does not roll a script back. *)

Definition script (S A : Type) : Type := S -> option A * S.

Definition s_ret {S A} (a : A) : script S A := fun s => (Some a, s).

Definition s_bind {S A B} (m : script S A) (f : A -> script S B) : script S B :=
  fun s => match m s with
           | (Some a, s') => f a s'
           | (None, s') => (None, s')
           end.

Definition s_fail {S A} : script S A := fun s => (None, s).

Definition s_read {S A} (f : S -> A) : script S A := fun s => (Some (f s), s).

Definition s_write {S} (f : S -> S) : script S unit := fun s => (Some tt, f s).

(** A value the script needs, an error when it is absent. *)
Definition s_opt {S A} (o : option A) : script S A := fun s => (o, s).

Declare Scope script_scope.
Delimit Scope script_scope with script.
Notation "x <- m ;; k" := (s_bind m (fun x => k))
  (at level 100, m at next level, right associativity) : script_scope.
Notation "m ;; k" := (s_bind m (fun _ => k))
  (at level 100, right associativity) : script_scope.

(** ** Outcomes of fallible code: a value, or the exception raised *)

Inductive result (E A : Type) : Type :=
| Ok (a : A)
| Err (e : E).
Arguments Ok {E A} a.
Arguments Err {E A} e.

Definition is_ok {E A} (r : result E A) : bool :=
  match r with Ok _ => true | Err _ => false end.

Definition r_bind {E A B} (r : result E A) (f : A -> result E B) : result E B :=
  match r with Ok a => f a | Err e => Err e end.

Declare Scope result_scope.
Delimit Scope result_scope with result.
Notation "'let?' x := r 'in' k" := (r_bind r (fun x => k))
  (at level 10, x name, r at level 100, k at level 200) : result_scope.

(** ** Decimal numerals, as Valkey stores integers *)

(** The text of an integer argument on the wire. *)
Definition str_of_Z (z : Z) : string := NilZero.string_of_int (Z.to_int z).

(** Lua [tonumber] / Python [int] on decimal integer text; [None] on any other
    text (the code only reads back the numerals it wrote). *)
Definition tonumber (s : string) : option Z := Z.of_int <$> NilZero.int_of_string s.

Lemma tonumber_str_of_Z z : tonumber (str_of_Z z) = Some z.
Proof.
  unfold tonumber, str_of_Z.
  assert (Hn : forall p, Pos.to_uint p <> Decimal.Nil)
    by apply DecimalPos.Unsigned.to_uint_nonnil.
  rewrite NilZero.isi;
    [ simpl; by rewrite DecimalZ.of_to
    | destruct z; simpl; try discriminate; intros [= H]; by eapply Hn .. ].
Qed.

#[export] Instance str_of_Z_inj : Inj (=) (=) str_of_Z.
Proof.
  intros x y H. apply (f_equal tonumber) in H.
  rewrite !tonumber_str_of_Z in H. congruence.
Qed.

Definition str_of_nat (n : nat) : string := str_of_Z (Z.of_nat n).

#[export] Instance str_of_nat_inj : Inj (=) (=) str_of_nat.
Proof. intros x y H%str_of_Z_inj. lia. Qed.

(** The code writes flags as '0' and '1'. *)
Definition str_of_flag (b : bool) : string := if b then "1" else "0".

(** ** Lists of job ids: occurrences, first-occurrence removal, pop at the tail *)

Section lists.
Context {A : Type} `{EqDecision A}.
Implicit Types (x y : A) (l : list A).

(** How many times [x] occurs in [l]. *)
Fixpoint count (x : A) (l : list A) : nat :=
  match l with
  | [] => 0
  | y :: l' => (if decide (x = y) then 1 else 0) + count x l'
  end%nat.

(** LREM key 1 x: drop the first occurrence, counted from the head. *)
Fixpoint remove_first (x : A) (l : list A) : list A :=
  match l with
  | [] => []
  | y :: l' => if decide (x = y) then l' else y :: remove_first x l'
  end.

(** RPOP: the last element and the rest. *)
Fixpoint rpop (l : list A) : option (A * list A) :=
  match l with
  | [] => None
  | y :: l' => match rpop l' with
               | None => Some (y, [])
               | Some (z, r) => Some (z, y :: r)
               end
  end.

Lemma count_app x l1 l2 : count x (l1 ++ l2) = (count x l1 + count x l2)%nat.
Proof. induction l1 as [|y l1 IH]; simpl; [done|]. rewrite IH. lia. Qed.

Lemma count_elem_of x l : x ∈ l <-> (1 <= count x l)%nat.
Proof.
  induction l as [|y l IH]; simpl.
  - split; [by intros ?%not_elem_of_nil | lia].
  - rewrite elem_of_cons, IH. case_decide; subst; [split; [lia|by left]|].
    split; [intros [?|?]; [done|lia] | right; lia].
Qed.

Lemma count_zero x l : x ∉ l <-> count x l = 0%nat.
Proof. rewrite count_elem_of. lia. Qed.

Lemma count_remove_first x y l :
  count y (remove_first x l)
  = if decide (x = y) then Nat.pred (count y l) else count y l.
Proof.
  induction l as [|z l IH]; simpl; [by case_decide|].
  repeat case_decide; subst; simpl; rewrite ?IH; repeat case_decide; done.
Qed.

Lemma remove_first_not_in x l : x ∉ l -> remove_first x l = l.
Proof.
  induction l as [|y l IH]; simpl; [done|].
  rewrite not_elem_of_cons. intros [??]. rewrite decide_False by done.
  by rewrite IH.
Qed.

Lemma length_remove_first x l :
  length (remove_first x l) = (length l - Nat.min 1 (count x l))%nat.
Proof.
  induction l as [|y l IH]; simpl; [done|].
  case_decide; simpl; [lia|]. rewrite IH.
  destruct (count x l) eqn:E; [lia|].
  assert (length l <> 0)%nat; [|lia]. by destruct l.
Qed.

Lemma rpop_None l : rpop l = None <-> l = [].
Proof. split; [|by intros ->]. destruct l; simpl; [done|]. by destruct (rpop l) as [[]|]. Qed.

Lemma rpop_Some l z r : rpop l = Some (z, r) <-> l = r ++ [z].
Proof.
  revert z r. induction l as [|y l IH]; intros z r; simpl.
  - split; [done|]. by destruct r.
  - destruct (rpop l) as [[z' r']|] eqn:E.
    + destruct (IH z' r') as [IH1 _]. specialize (IH1 eq_refl) as ->.
      split; [by intros [= <- <-]|].
      destruct r as [|y' r]; simpl; [by destruct r'|].
      intros [= <- H]. apply app_inj_2 in H as [-> [= ->]]; done.
    + apply rpop_None in E as ->. split; [by intros [= <- <-]|].
      destruct r as [|y' r]; simpl; [by intros [= <-]|].
      intros [= _ H]. by destruct r.
Qed.

Lemma count_rpop x l z r :
  rpop l = Some (z, r) ->
  count x l = (count x r + if decide (x = z) then 1 else 0)%nat.
Proof. intros ->%rpop_Some. rewrite count_app. simpl. lia. Qed.
End lists.

(** ** Hash fields *)

(** HSET key f1 v1 f2 v2 ...: the pairs are written from left to right. *)
Definition hset_fields (fvs : list (string * string)) (h : gmap string string)
  : gmap string string :=
  foldl (fun h fv => <[fv.1 := fv.2]> h) h fvs.

(** ** Python dicts with text keys, in insertion order *)

Section dicts.
Context {A : Type}.

(** [d[k] = v]: a key that is there keeps its place. *)
Fixpoint dict_set (k : string) (v : A) (d : list (string * A)) : list (string * A) :=
  match d with
  | [] => [(k, v)]
  | (k', v') :: d => if decide (k' = k) then (k, v) :: d else (k', v') :: dict_set k v d
  end.

(** [d.update(e)], [{**d, **e}]. *)
Definition dict_update (d e : list (string * A)) : list (string * A) :=
  foldl (fun d p => dict_set p.1 p.2 d) d e.

Fixpoint dict_get (k : string) (d : list (string * A)) : option A :=
  match d with
  | [] => None
  | (k', v) :: d => if decide (k' = k) then Some v else dict_get k d
  end.

Lemma dict_get_set k x v d :
  dict_get k (dict_set x v d) = if decide (x = k) then Some v else dict_get k d.
Proof.
  induction d as [|[y w] d IH]; cbn; [done|].
  destruct (decide (y = x)) as [->|Hy]; cbn; [by case_decide|].
  rewrite IH. repeat case_decide; congruence.
Qed.

Lemma dict_get_app k d e :
  dict_get k (d ++ e) = match dict_get k d with Some v => Some v | None => dict_get k e end.
Proof. induction d as [|[x v] d IH]; cbn; [done|]. by case_decide. Qed.

(** The last value written to a key is the one that is read. *)
Lemma dict_get_update k d e :
  dict_get k (dict_update d e)
  = match dict_get k (reverse e) with Some v => Some v | None => dict_get k d end.
Proof.
  unfold dict_update. induction e as [|[x v] e IH] using rev_ind; [done|].
  rewrite foldl_app, reverse_app. cbn. rewrite dict_get_set, IH. by case_decide.
Qed.

Lemma dict_get_absent k d : k ∉ map fst d -> dict_get k d = None.
Proof.
  induction d as [|[x v] d IH]; cbn; [done|]. intros [Hx Hd]%not_elem_of_cons.
  rewrite decide_False by done. by apply IH.
Qed.

Lemma dict_set_keys k v d : NoDup (map fst d) -> NoDup (map fst (dict_set k v d)).
Proof.
  assert (Hin : forall x, x ∈ map fst (dict_set k v d) -> x = k \/ x ∈ map fst d).
  { induction d as [|[y w] d IH]; cbn; intros x; [set_solver|]. case_decide; cbn; set_solver. }
  revert Hin. induction d as [|[y w] d IH]; cbn; intros Hin Hd; [apply NoDup_singleton|].
  apply NoDup_cons in Hd as [Hy Hd]. case_decide as E; cbn in *; [subst; by apply NoDup_cons|].
  apply NoDup_cons. assert (Hin' : forall x, x ∈ map fst (dict_set k v d) -> x = k \/ x ∈ map fst d).
  { clear -Hd. induction d as [|[z w] d IH]; cbn; intros x; [set_solver|].
    apply NoDup_cons in Hd as [_ Hd]. specialize (IH Hd). case_decide; cbn; set_solver. }
  split; [intros H%Hin'; set_solver|by apply IH].
Qed.

Lemma dict_update_keys d e : NoDup (map fst d) -> NoDup (map fst (dict_update d e)).
Proof.
  revert d. induction e as [|[x v] e IH]; intros d Hd; [done|]. by apply IH, dict_set_keys.
Qed.
End dicts.

(** ** Strings *)

Definition slash : Ascii.ascii := "/"%char.

(** [s.startswith(p)]. *)
Definition starts_with (p s : string) : bool := String.prefix p s.

Lemma starts_with_app p s : starts_with p (p +:+ s) = true.
Proof. induction p as [|c p IH]; simpl; [by destruct s|].
  by destruct (Ascii.ascii_dec c c). Qed.

Lemma string_app_cons a s t : String a s +:+ t = String a (s +:+ t).
Proof. done. Qed.

Lemma string_app_nil t : "" +:+ t = t.
Proof. done. Qed.

Lemma string_app_nil_r s : s +:+ "" = s.
Proof. induction s as [|a s IH]; [done|]. by rewrite string_app_cons, IH. Qed.

Lemma string_app_assoc s t u : s +:+ (t +:+ u) = (s +:+ t) +:+ u.
Proof. induction s as [|a s IH]; [done|]. by rewrite !string_app_cons, IH. Qed.

(** [s.lstrip(c)] and [s.rstrip(c)] for one character. *)
Fixpoint lstrip (c : Ascii.ascii) (s : string) : string :=
  match s with
  | EmptyString => EmptyString
  | String d s' => if decide (d = c) then lstrip c s' else s
  end.

Fixpoint rstrip (c : Ascii.ascii) (s : string) : string :=
  match s with
  | EmptyString => EmptyString
  | String d s' =>
      match rstrip c s' with
      | EmptyString => if decide (d = c) then EmptyString else String d EmptyString
      | r => String d r
      end
  end.

Definition strip (c : Ascii.ascii) (s : string) : string := rstrip c (lstrip c s).

(** [s.split(c)] for a one-character separator: never the empty list. *)
Fixpoint split_on (c : Ascii.ascii) (s : string) : list string :=
  match s with
  | EmptyString => [EmptyString]
  | String d s' =>
      let rest := split_on c s' in
      if decide (d = c) then EmptyString :: rest
      else match rest with
           | [] => [String d EmptyString]
           | w :: ws => String d w :: ws
           end
  end.

(** [text.lower()], on ASCII letters. *)
Definition lower_char (a : Ascii.ascii) : Ascii.ascii :=
  let n := Ascii.nat_of_ascii a in
  if ((65 <=? n) && (n <=? 90))%nat then Ascii.ascii_of_nat (n + 32) else a.

Fixpoint lower (s : string) : string :=
  match s with EmptyString => EmptyString | String a s => String (lower_char a) (lower s) end.

(** [needle in text]. *)
Fixpoint contains (needle text : string) : bool :=
  starts_with needle text || match text with
                             | EmptyString => false
                             | String _ rest => contains needle rest
                             end.

Lemma contains_app needle p s : contains needle s = true -> contains needle (p +:+ s) = true.
Proof.
  intros Hs. induction p as [|a p IH]; [done|]. rewrite string_app_cons. cbn [contains].
  by rewrite IH, orb_true_r.
Qed.

(** ** Automation shared by the components *)

(** The development's hint database: lemmas the components register for the
    common cases (frame facts, preserved invariants). *)
Create HintDb dalmatian discriminated.

(** Split every [if]/[match] on a decidable test in goal or hypotheses. *)
Ltac split_tests :=
  repeat (case_decide || case_match || case_bool_decide); simplify_eq/=.

(** Destruct a conjunction of hypotheses and goals. *)
Ltac split_and_all := repeat match goal with
  | H : _ /\ _ |- _ => destruct H
  | |- _ /\ _ => split
  end.
