(* ===== verification/Valkey.v ===== *)
(** * The Valkey server, as the code uses it

    Valkey is a service, not code of this repository: it enters the model as a
    class parameter, [Valkey store], over an abstract type [store] of server states.
    The class has four observations of a state (one per data type the code
    stores) and one method per writing command the code issues.  [ValkeyLaws]
    names what the command reference documents of them and the code relies on;
    the client's theorems are proved against these laws only.

    Every key the code builds is used at one data type, so WRONGTYPE replies do
    not arise and are not modelled.  Expiry is not a command: a key with a time
    to live disappears by itself, which is a [del] made by the environment.

    [MemValkey], at the end, is a concrete state that satisfies the laws: the
    witnesses run on it. *)

From stdpp Require Import sorting.
From S2P Require Import Prelude.

(** ** Sorted sets *)

(** Members in the order of a sorted set: by score, then by name. *)
Definition zset_le (p q : string * Z) : Prop :=
  p.2 < q.2 \/ (p.2 = q.2 /\ String.leb p.1 q.1 = true).

#[export] Instance zset_le_dec : RelDecision zset_le.
Proof. intros p q. unfold zset_le. apply _. Defined.

(** ZRANGEBYSCORE key lo hi LIMIT 0 n. *)
Definition zset_range (lo hi : Z) (n : nat) (z : gmap string Z) : list string :=
  take n (fst <$> merge_sort zset_le
            (filter (fun p => lo <= p.2 <= hi) (map_to_list z))).

Lemma zset_range_elem_of lo hi n z x :
  x ∈ zset_range lo hi n z -> exists k, z !! x = Some k /\ lo <= k <= hi.
Proof.
  unfold zset_range. intros Hx. apply (subseteq_take n) in Hx.
  apply list_elem_of_fmap in Hx as [[m k] [-> Hx]].
  rewrite (merge_sort_Permutation zset_le) in Hx.
  apply list_elem_of_filter in Hx as [Hk Hx%elem_of_map_to_list]. eauto.
Qed.

Lemma zset_range_length lo hi n z : (length (zset_range lo hi n z) <= n)%nat.
Proof. unfold zset_range. rewrite length_take. lia. Qed.

(** ** The interface *)

Class Valkey (store : Type) := {
  (* HGETALL; HGET and HMGET read fields of it *)
  hgetall : store -> string -> gmap string string;
  (* LRANGE key 0 -1, head first *)
  lrange : store -> string -> list string;
  (* the members of a sorted set with their scores *)
  zmembers : store -> string -> gmap string Z;
  (* GET *)
  sget : store -> string -> option string;

  hset : string -> list (string * string) -> store -> store;
  hincrby : string -> string -> Z -> store -> option Z * store;
  lpush : string -> string -> store -> store;
  lrem1 : string -> string -> store -> store;
  rpoplpush : string -> string -> store -> option string * store;
  zadd : string -> Z -> string -> store -> store;
  zrem : string -> string -> store -> Z * store;
  (* SETEX key ttl value, SET key value NX EX ttl *)
  setex : string -> Z -> string -> store -> store;
  set_nx_ex : string -> string -> Z -> store -> bool * store;
  expire : string -> Z -> store -> store;
  del : string -> store -> store;
}.

(** Two states that agree on all keys of one data type. *)
Definition same_hashes `{Valkey store} (s s' : store) : Prop := forall k, hgetall s' k = hgetall s k.
Definition same_lists `{Valkey store} (s s' : store) : Prop := forall k, lrange s' k = lrange s k.
Definition same_zsets `{Valkey store} (s s' : store) : Prop := forall k, zmembers s' k = zmembers s k.
Definition same_strings `{Valkey store} (s s' : store) : Prop := forall k, sget s' k = sget s k.

Definition only_hashes `{Valkey store} (s s' : store) : Prop :=
  same_lists s s' /\ same_zsets s s' /\ same_strings s s'.
Definition only_lists `{Valkey store} (s s' : store) : Prop :=
  same_hashes s s' /\ same_zsets s s' /\ same_strings s s'.
Definition only_zsets `{Valkey store} (s s' : store) : Prop :=
  same_hashes s s' /\ same_lists s s' /\ same_strings s s'.
Definition only_strings `{Valkey store} (s s' : store) : Prop :=
  same_hashes s s' /\ same_lists s s' /\ same_zsets s s'.

(** ** What the documentation says of the commands *)

Class ValkeyLaws (store : Type) `{Valkey store} : Prop := {
  hset_hash (s : store) k fvs k' :
    hgetall (hset k fvs s) k'
    = if decide (k = k') then hset_fields fvs (hgetall s k) else hgetall s k';
  hset_only (s : store) k fvs : only_hashes s (hset k fvs s);

  (* an absent field counts as 0; a field that is no integer is an error *)
  hincrby_hash (s : store) k f n v :
    tonumber (default "0" (hgetall s k !! f)) = Some v ->
    exists s', hincrby k f n s = (Some (v + n), s') /\ only_hashes s s' /\
      forall k', hgetall s' k'
        = if decide (k = k') then hset_fields [(f, str_of_Z (v + n))] (hgetall s k)
          else hgetall s k';

  lpush_list (s : store) k x k' :
    lrange (lpush k x s) k' = if decide (k = k') then x :: lrange s k else lrange s k';
  lpush_only (s : store) k x : only_lists s (lpush k x s);

  lrem1_list (s : store) k x k' :
    lrange (lrem1 k x s) k'
    = if decide (k = k') then remove_first x (lrange s k) else lrange s k';
  lrem1_only (s : store) k x : only_lists s (lrem1 k x s);

  rpoplpush_empty (s : store) src dst :
    rpop (lrange s src) = None -> rpoplpush src dst s = (None, s);
  rpoplpush_moves (s : store) src dst x r :
    src <> dst -> rpop (lrange s src) = Some (x, r) ->
    exists s', rpoplpush src dst s = (Some x, s') /\ only_lists s s' /\
      forall k, lrange s' k
        = if decide (k = src) then r
          else if decide (k = dst) then x :: lrange s dst else lrange s k;

  zadd_zset (s : store) k score x k' :
    zmembers (zadd k score x s) k'
    = if decide (k = k') then <[x := score]> (zmembers s k) else zmembers s k';
  zadd_only (s : store) k score x : only_zsets s (zadd k score x s);

  (* the reply counts the members removed *)
  zrem_reply (s : store) k x :
    fst (zrem k x s) = if decide (is_Some (zmembers s k !! x)) then 1 else 0;
  zrem_zset (s : store) k x k' :
    zmembers (snd (zrem k x s)) k'
    = if decide (k = k') then delete x (zmembers s k) else zmembers s k';
  zrem_only (s : store) k x : only_zsets s (snd (zrem k x s));

  setex_string (s : store) k ttl v k' :
    0 < ttl -> sget (setex k ttl v s) k' = if decide (k = k') then Some v else sget s k';
  setex_only (s : store) k ttl v : 0 < ttl -> only_strings s (setex k ttl v s);

  set_nx_ex_taken (s : store) k v ttl w :
    0 < ttl -> sget s k = Some w -> set_nx_ex k v ttl s = (false, s);
  set_nx_ex_free (s : store) k v ttl :
    0 < ttl -> sget s k = None -> set_nx_ex k v ttl s = (true, setex k ttl v s);

  (* a positive time to live only arms the clock *)
  expire_same (s : store) k ttl :
    0 < ttl -> same_hashes s (expire k ttl s) /\ only_hashes s (expire k ttl s);

  del_hash (s : store) k k' :
    hgetall (del k s) k' = if decide (k = k') then ∅ else hgetall s k';
  del_list (s : store) k k' :
    lrange (del k s) k' = if decide (k = k') then [] else lrange s k';
  del_zset (s : store) k k' :
    zmembers (del k s) k' = if decide (k = k') then ∅ else zmembers s k';
  del_string (s : store) k k' :
    sget (del k s) k' = if decide (k = k') then None else sget s k';
}.

(** EXISTS, on the hash keys the code asks about: a hash with no field is no key. *)
Definition key_exists `{Valkey store} (s : store) (k : string) : bool :=
  bool_decide (hgetall s k <> ∅).

Definition hget `{Valkey store} (s : store) (k f : string) : option string := hgetall s k !! f.
Definition llen `{Valkey store} (s : store) (k : string) : nat := length (lrange s k).
Definition zcard `{Valkey store} (s : store) (k : string) : nat := size (zmembers s k).
Definition zscore `{Valkey store} (s : store) (k x : string) : option Z := zmembers s k !! x.

(** ** A concrete server state *)

Module Mem.

Record mem := Memory {
  hashes : gmap string (gmap string string);
  lists : gmap string (list string);
  zsets : gmap string (gmap string Z);
  strs : gmap string string;
}.

Definition empty : mem := Memory ∅ ∅ ∅ ∅.

Definition m_hash (s : mem) k := default ∅ (hashes s !! k).
Definition m_list (s : mem) k := default [] (lists s !! k).
Definition m_zset (s : mem) k := default ∅ (zsets s !! k).
Definition put_hash k h (s : mem) := Memory (<[k := h]> (hashes s)) (lists s) (zsets s) (strs s).
Definition put_list k l (s : mem) := Memory (hashes s) (<[k := l]> (lists s)) (zsets s) (strs s).
Definition put_zset k z (s : mem) := Memory (hashes s) (lists s) (<[k := z]> (zsets s)) (strs s).
Definition put_str k v (s : mem) := Memory (hashes s) (lists s) (zsets s) (<[k := v]> (strs s)).

#[global] Instance valkey : Valkey mem := {
  hgetall := m_hash;
  lrange := m_list;
  zmembers := m_zset;
  sget s k := strs s !! k;
  hset k fvs s := put_hash k (hset_fields fvs (m_hash s k)) s;
  hincrby k f n s :=
    match tonumber (default "0" (m_hash s k !! f)) with
    | None => (None, s)
    | Some v => (Some (v + n), put_hash k (hset_fields [(f, str_of_Z (v + n))] (m_hash s k)) s)
    end;
  lpush k x s := put_list k (x :: m_list s k) s;
  lrem1 k x s := put_list k (remove_first x (m_list s k)) s;
  rpoplpush src dst s :=
    match rpop (m_list s src) with
    | None => (None, s)
    | Some (x, r) =>
        let s1 := put_list src r s in (Some x, put_list dst (x :: m_list s1 dst) s1)
    end;
  zadd k score x s := put_zset k (<[x := score]> (m_zset s k)) s;
  zrem k x s := (if decide (is_Some (m_zset s k !! x)) then 1 else 0,
                 put_zset k (delete x (m_zset s k)) s);
  setex k _ v s := put_str k v s;
  set_nx_ex k v _ s :=
    match strs s !! k with Some _ => (false, s) | None => (true, put_str k v s) end;
  expire _ _ s := s;
  del k s := Memory (delete k (hashes s)) (delete k (lists s)) (delete k (zsets s))
                    (delete k (strs s));
}.

Ltac mem_solve :=
  repeat (intro || split); repeat split; intros; cbn in *;
  unfold m_hash, m_list, m_zset in *; cbn;
  rewrite ?lookup_insert, ?lookup_delete; repeat case_decide; subst; done.

#[global] Instance valkey_laws : ValkeyLaws mem.
Proof.
  split; try mem_solve.
  - intros s k f n v Hv. cbn in *. rewrite Hv. eexists. split; [done|]. mem_solve.
  - intros s src dst Hr. cbn in *. by rewrite Hr.
  - intros s src dst x r Hne Hr. cbn in *. rewrite Hr. eexists. split; [done|].
    split; [mem_solve|]. intros k. unfold m_list. cbn.
    rewrite !lookup_insert. repeat case_decide; subst; try done.
  - intros s k v ttl w _ Hs. cbn in *. by rewrite Hs.
  - intros s k v ttl _ Hs. cbn in *. by rewrite Hs.
Qed.

End Mem.
