(* ===== verification/Models.v ===== *)
(** * Requests, results and exceptions

    The data of src/src/dalmatian/models.py (enumerations, pydantic models with
    their validators) and the exception classes of errors.py, paths.py and
    storage.py with Python's [isinstance].  A validator that raises returns [Err] with the exception; it
    never changes the model it validates. *)

From S2P Require Import Prelude.

(** ** Exceptions *)

(** The classes the code raises or catches.  [Derived n b] is any other class,
    named [n], with the single base [b]. *)
Inductive exn_class :=
| PyException
| PyValueError
| PyOSError
| PyFileExistsError
| PyConnectionError
| DalmatianError
| QueryRejected
| BusyError
| QueryCancelled
| QueryTimeout
| CommitFenced
| IdempotencyConflict
| MetadataSchemaError
| RetryableQueryError
| PathOutsideDataRoot
| NoFilesMatched
| UnknownStorageLocation
| Derived (name : string) (base : exn_class).

#[export] Instance exn_class_eq_dec : EqDecision exn_class.
Proof. solve_decision. Defined.

(** The class itself and its ancestors, in method resolution order. *)
Fixpoint mro (c : exn_class) : list exn_class :=
  match c with
  | PyException => [PyException]
  | PyValueError => [PyValueError; PyException]
  | PyOSError => [PyOSError; PyException]
  | PyFileExistsError => [PyFileExistsError; PyOSError; PyException]
  | PyConnectionError => [PyConnectionError; PyOSError; PyException]
  | DalmatianError => [DalmatianError; PyException]
  | QueryRejected => [QueryRejected; DalmatianError; PyValueError; PyException]
  | BusyError => [BusyError; DalmatianError; PyException]
  | QueryCancelled => [QueryCancelled; DalmatianError; PyException]
  | QueryTimeout => [QueryTimeout; QueryCancelled; DalmatianError; PyException]
  | CommitFenced => [CommitFenced; DalmatianError; PyException]
  | IdempotencyConflict => [IdempotencyConflict; DalmatianError; PyException]
  | MetadataSchemaError => [MetadataSchemaError; DalmatianError; PyException]
  | RetryableQueryError => [RetryableQueryError; DalmatianError; PyException]
  | PathOutsideDataRoot => [PathOutsideDataRoot; PyValueError; PyException]
  | NoFilesMatched => [NoFilesMatched; PyValueError; PyException]
  | UnknownStorageLocation => [UnknownStorageLocation; PyValueError; PyException]
  | Derived n b => Derived n b :: mro b
  end.

(** [type(exc).__name__]. *)
Definition class_name (c : exn_class) : string :=
  match c with
  | PyException => "Exception"
  | PyValueError => "ValueError"
  | PyOSError => "OSError"
  | PyFileExistsError => "FileExistsError"
  | PyConnectionError => "ConnectionError"
  | DalmatianError => "DalmatianError"
  | QueryRejected => "QueryRejected"
  | BusyError => "BusyError"
  | QueryCancelled => "QueryCancelled"
  | QueryTimeout => "QueryTimeout"
  | CommitFenced => "CommitFenced"
  | IdempotencyConflict => "IdempotencyConflict"
  | MetadataSchemaError => "MetadataSchemaError"
  | RetryableQueryError => "RetryableQueryError"
  | PathOutsideDataRoot => "PathOutsideDataRoot"
  | NoFilesMatched => "NoFilesMatched"
  | UnknownStorageLocation => "UnknownStorageLocation"
  | Derived n _ => n
  end.

Record exn := Exn { exn_cls : exn_class; exn_text : string }.

#[export] Instance exn_eq_dec : EqDecision exn.
Proof. solve_decision. Defined.

Definition isinstance (e : exn) (c : exn_class) : bool := bool_decide (c ∈ mro (exn_cls e)).

Definition isinstance_any (e : exn) (cs : list exn_class) : bool := existsb (isinstance e) cs.

Definition raise {A} (c : exn_class) (text : string) : result exn A := Err (Exn c text).

(** ** Enumerations *)

Inductive DataFormat := F_CSV | F_PARQUET | F_JSON.
Inductive DeliveryMode := INLINE | STREAM | STORE.
Inductive OutputFormat := O_JSON | O_CSV | O_JSONL | O_PARQUET.
Inductive WriteMode := W_ERROR | W_OVERWRITE | W_APPEND.
Inductive JobStatus := QUEUED | RUNNING | RETRYING | SUCCEEDED | FAILED | CANCELLED.

#[export] Instance DataFormat_eq_dec : EqDecision DataFormat.
Proof. solve_decision. Defined.
#[export] Instance DeliveryMode_eq_dec : EqDecision DeliveryMode.
Proof. solve_decision. Defined.
#[export] Instance OutputFormat_eq_dec : EqDecision OutputFormat.
Proof. solve_decision. Defined.
#[export] Instance WriteMode_eq_dec : EqDecision WriteMode.
Proof. solve_decision. Defined.
#[export] Instance JobStatus_eq_dec : EqDecision JobStatus.
Proof. solve_decision. Defined.

(** The [.value] of each member. *)
Definition data_format_value (f : DataFormat) : string :=
  match f with F_CSV => "csv" | F_PARQUET => "parquet" | F_JSON => "json" end.

Definition delivery_mode_value (m : DeliveryMode) : string :=
  match m with INLINE => "inline" | STREAM => "stream" | STORE => "store" end.

Definition output_format_value (f : OutputFormat) : string :=
  match f with O_JSON => "json" | O_CSV => "csv" | O_JSONL => "jsonl" | O_PARQUET => "parquet" end.

Definition write_mode_value (m : WriteMode) : string :=
  match m with W_ERROR => "error" | W_OVERWRITE => "overwrite" | W_APPEND => "append" end.

Definition job_status_value (s : JobStatus) : string :=
  match s with
  | QUEUED => "queued" | RUNNING => "running" | RETRYING => "retrying"
  | SUCCEEDED => "succeeded" | FAILED => "failed" | CANCELLED => "cancelled"
  end.

(** [JobStatus(text)]: a ValueError on an unknown text. *)
Definition job_status_of (s : string) : result exn JobStatus :=
  match list_find (fun st => job_status_value st = s)
          [QUEUED; RUNNING; RETRYING; SUCCEEDED; FAILED; CANCELLED] with
  | Some (_, st) => Ok st
  | None => raise PyValueError (s +:+ " is not a valid JobStatus")
  end.

Lemma job_status_of_value st : job_status_of (job_status_value st) = Ok st.
Proof. by destruct st. Qed.

#[export] Instance job_status_value_inj : Inj (=) (=) job_status_value.
Proof. intros [] []; done. Qed.

(** ** Identifiers and relative paths *)

Definition is_letter (c : Ascii.ascii) : bool :=
  let n := Ascii.nat_of_ascii c in
  ((65 <=? n) && (n <=? 90) || (97 <=? n) && (n <=? 122) || (n =? 95))%nat.

Definition is_digit (c : Ascii.ascii) : bool :=
  let n := Ascii.nat_of_ascii c in ((48 <=? n) && (n <=? 57))%nat.

Fixpoint string_forall (p : Ascii.ascii -> bool) (s : string) : bool :=
  match s with EmptyString => true | String c s' => p c && string_forall p s' end.

(** [name.isidentifier()] on ASCII text. *)
Definition isidentifier (s : string) : bool :=
  match s with
  | EmptyString => false
  | String c s' => is_letter c && string_forall (fun d => is_letter d || is_digit d) s'
  end.

(** [path.startswith("/") or ".." in path.split("/")]: the test the models, the
    storage registry and the source resolver all make. *)
Definition path_escapes (path : string) : bool :=
  starts_with "/" path || bool_decide (".." ∈ split_on slash path).

(** ** Sources, outputs, requests *)

Inductive SchemaDefinition :=
| SchemaText (ddl : string)
| SchemaFields (fields : list (string * string)).

Record SourceSpec := MkSource {
  src_path : string;
  src_format : DataFormat;
  src_location : option string;
  src_options : list (string * string);
  src_version : option string;
  src_schema : option SchemaDefinition;
  src_infer_schema : bool;
}.

(** [Field(min_length=1)] on an optional string. *)
Definition min_length_1 (o : option string) : bool :=
  match o with Some EmptyString => false | _ => true end.

Definition validate_source (s : SourceSpec) : result exn SourceSpec :=
  if negb (min_length_1 (Some (src_path s)) && min_length_1 (src_location s)
           && min_length_1 (src_version s))
  then raise PyValueError "String should have at least 1 character"
  else if src_infer_schema s && bool_decide (src_format s <> F_CSV)
  then raise PyValueError "infer_schema is only valid for csv sources"
  else Ok s.

Record OutputSpec := MkOutput {
  out_mode : DeliveryMode;
  out_format : OutputFormat;
  out_location : option string;
  out_path : option string;
  out_write_mode : WriteMode;
  out_options : list (string * string);
}.

(** The model's field defaults. *)
Definition default_output : OutputSpec := MkOutput INLINE O_JSON None None W_ERROR [].

Definition has_destination (o : OutputSpec) : bool :=
  bool_decide (is_Some (out_location o)) || bool_decide (is_Some (out_path o)).

Definition validate_delivery (o : OutputSpec) : result exn OutputSpec :=
  match out_mode o with
  | INLINE =>
      if bool_decide (out_format o <> O_JSON)
      then raise PyValueError "inline output format must be json"
      else if has_destination o
      then raise PyValueError "inline output does not accept a storage destination"
      else Ok o
  | STREAM =>
      if bool_decide (out_format o ∉ [O_CSV; O_JSONL])
      then raise PyValueError "stream output format must be csv or jsonl"
      else if has_destination o
      then raise PyValueError "stream output does not accept a storage destination"
      else Ok o
  | STORE =>
      match out_location o, out_path o with
      | Some _, Some path =>
          if bool_decide (out_format o = O_JSON)
          then raise PyValueError "stored output uses jsonl, csv, or parquet; json is inline only"
          else if path_escapes path
          then raise PyValueError "stored output path must be relative and cannot contain '..'"
          else Ok o
      | _, _ => raise PyValueError "stored output requires location and path"
      end
  end.

(** [None] is a field the caller left out: [model_fields_set] tells it from a
    field set to its default.  The cache ttl can also be set to null. *)
Record QueryRequest := MkRequest {
  q_sql : string;
  q_sources : list (string * SourceSpec);
  q_output : OutputSpec;
  q_max_rows_set : option Z;
  q_cache_ttl_set : option (option Z);
  q_timeout_seconds : option Z;
}.

Definition q_max_rows (r : QueryRequest) : Z := default 1000 (q_max_rows_set r).
Definition q_cache_ttl_seconds (r : QueryRequest) : option Z := default None (q_cache_ttl_set r).

(** The numeric and length bounds of the [Field] declarations. *)
Definition request_fields_ok (r : QueryRequest) : bool :=
  min_length_1 (Some (q_sql r)) && bool_decide (q_sources r <> [])
  && (1 <=? q_max_rows r)
  && match q_cache_ttl_seconds r with Some t => 0 <=? t | None => true end
  && match q_timeout_seconds r with Some t => 1 <=? t | None => true end.

Definition bad_source_name (r : QueryRequest) : option string :=
  fst <$> (snd <$> list_find (fun p : string * SourceSpec => isidentifier p.1 = false)
                             (q_sources r)).

Definition validate_request (r : QueryRequest) : result exn QueryRequest :=
  if negb (request_fields_ok r) then raise PyValueError "field out of range"
  else match bad_source_name r with
  | Some name => raise PyValueError ("source name must be a valid identifier: " +:+ name)
  | None =>
      if bool_decide (out_mode (q_output r) <> INLINE) && bool_decide (is_Some (q_max_rows_set r))
      then raise PyValueError "max_rows is only valid for inline output; use SQL LIMIT otherwise"
      else if bool_decide (out_mode (q_output r) <> INLINE)
              && bool_decide (is_Some (q_cache_ttl_set r))
      then raise PyValueError "cache_ttl_seconds is only valid for inline output"
      else Ok r
  end.

(** What pydantic runs when it builds a request: every source, the output, then
    the request's own validator. *)
Fixpoint validate_all (ss : list (string * SourceSpec)) : result exn unit :=
  match ss with
  | [] => Ok tt
  | (_, s) :: rest => match validate_source s with Ok _ => validate_all rest | Err e => Err e end
  end.

Definition build_request (r : QueryRequest) : result exn QueryRequest :=
  match validate_all (q_sources r), validate_delivery (q_output r) with
  | Ok _, Ok _ => validate_request r
  | Err e, _ => Err e
  | _, Err e => Err e
  end.

(** ** Results *)

(** [R] is the type of one result row, a decoded JSON object. *)
Record InlineResult (R : Type) := MkInline {
  in_query_id : option string;
  in_columns : list string;
  in_rows : list R;
  in_truncated : bool;
  in_cached : bool;
}.
Arguments MkInline {R} _ _ _ _ _.
Arguments in_query_id {R} _.
Arguments in_columns {R} _.
Arguments in_rows {R} _.
Arguments in_truncated {R} _.
Arguments in_cached {R} _.

Record StoredResult := MkStored {
  st_query_id : string;
  st_format : OutputFormat;
  st_location : string;
  st_path : string;
  st_manifest_uri : string;
  st_data_uri : string;
  st_partitions : Z;
  st_source_versions : list (string * string);
}.

Inductive QueryResult (R : Type) :=
| RInline (r : InlineResult R)
| RStored (r : StoredResult).
Arguments RInline {R} _.
Arguments RStored {R} _.

(** [model_copy(update={"cached": c, "query_id": q})]. *)
Definition with_cached {R} (c : bool) (q : string) (r : InlineResult R) : InlineResult R :=
  MkInline (Some q) (in_columns r) (in_rows r) (in_truncated r) c.

(** A job as [GET /v1/jobs/{id}] reports it; times in milliseconds. *)
Record JobRecord (QR : Type) := MkJobRecord {
  jr_id : string;
  jr_status : JobStatus;
  jr_attempts : Z;
  jr_result : option QR;
  jr_error : option string;
  jr_created_at : option Z;
  jr_updated_at : option Z;
  jr_next_attempt_at : option Z;
}.
Arguments MkJobRecord {QR} _ _ _ _ _ _ _ _.
Arguments jr_id {QR} _.
Arguments jr_status {QR} _.
Arguments jr_attempts {QR} _.
Arguments jr_result {QR} _.
Arguments jr_error {QR} _.
Arguments jr_created_at {QR} _.
Arguments jr_updated_at {QR} _.
Arguments jr_next_attempt_at {QR} _.
