(* ===== verification/QueueState.v ===== *)
(** * The job queue as an abstract state machine

    What src/src/dalmatian/jobs.py promises, on typed data: jobs as records
    rather than hashes of strings, the pending shards, the processing list, the
    retry set, the dead-letter list, the idempotency bindings and the published
    outputs.  One function per atomic call the client makes to the server (a
    Lua script, RPOPLPUSH, a read).  QueueScripts.v holds the scripts as the
    source has them and proves that they implement these functions. *)

From S2P Require Import Prelude Valkey Models.

(** ** Configuration ([ValkeyJobQueue.__init__]) *)

Record queue_cfg := QueueCfg {
  queue_name : string;
  job_ttl_seconds : Z;
  lease_seconds : Z;
  max_attempts : Z;
  affinity_shards : nat;
  max_queue_depth : Z;
  idempotency_ttl_seconds : Z;
}.

(** [idempotency_ttl_seconds or job_ttl_seconds]. *)
Definition make_queue_cfg (name : string) (ttl lease attempts : Z) (shards : nat)
    (depth : Z) (idem_ttl : option Z) : queue_cfg :=
  QueueCfg name ttl lease attempts shards depth
    (match idem_ttl with Some t => if decide (t = 0) then ttl else t | None => ttl end).

(** The bounds [Settings] declares for the values it passes. *)
Record queue_cfg_ok (c : queue_cfg) : Prop := {
  cfg_ttl : 60 <= job_ttl_seconds c;
  cfg_lease : 10 <= lease_seconds c;
  cfg_attempts : 1 <= max_attempts c;
  cfg_shards : (1 <= affinity_shards c)%nat;
  cfg_depth : 1 <= max_queue_depth c;
  cfg_idem_ttl : 60 <= idempotency_ttl_seconds c;
}.

(** ** Jobs *)

Record job := Job {
  j_status : JobStatus;
  j_request : string;
  j_error : string;
  j_result : string;
  j_attempts : Z;
  j_worker : string;
  j_lease : Z;
  j_cancel : bool;
  j_shard : nat;
  j_created : Z;
  j_updated : Z;
  j_next : Z;
}.

#[export] Instance job_eq_dec : EqDecision job.
Proof. solve_decision. Defined.

(** The hash a job is stored as. *)
Definition enc_job (j : job) : gmap string string :=
  hset_fields
    [("status", job_status_value (j_status j)); ("request", j_request j);
     ("error", j_error j); ("result", j_result j); ("attempts", str_of_Z (j_attempts j));
     ("worker_id", j_worker j); ("lease_expires_ms", str_of_Z (j_lease j));
     ("cancel_requested", str_of_flag (j_cancel j)); ("shard", str_of_nat (j_shard j));
     ("created_at_ms", str_of_Z (j_created j)); ("updated_at_ms", str_of_Z (j_updated j));
     ("next_attempt_ms", str_of_Z (j_next j))] ∅.

Definition enc_idem (b : string * string) : gmap string string :=
  hset_fields [("request_hash", b.1); ("job_id", b.2)] ∅.

Definition terminal (st : JobStatus) : bool :=
  match st with SUCCEEDED | FAILED | CANCELLED => true | _ => false end.

(** The fence of every script a worker calls: the job runs, this worker holds
    it, and its lease has not run out. *)
Definition owned (j : job) (w : string) (now : Z) : bool :=
  bool_decide (j_status j = RUNNING) && bool_decide (j_worker j = w) && (now <? j_lease j).

(** ** The state *)

Record qstate := QState {
  jobs : gmap string job;
  pending : gmap nat (list string);
  processing : list string;
  retry : gmap string Z;
  dead : list string;
  idem : gmap string (string * string);
  pubs : gmap string (gmap string string);
}.

Definition empty_queue : qstate := QState ∅ ∅ [] ∅ [] ∅ ∅.

Definition pend (q : qstate) (i : nat) : list string := default [] (pending q !! i).
Definition pub (q : qstate) (k : string) : gmap string string := default ∅ (pubs q !! k).

(** The primitive updates. *)
Definition set_job (id : string) (j : job) (q : qstate) : qstate :=
  QState (<[id := j]> (jobs q)) (pending q) (processing q) (retry q) (dead q) (idem q) (pubs q).
Definition set_pend (i : nat) (l : list string) (q : qstate) : qstate :=
  QState (jobs q) (<[i := l]> (pending q)) (processing q) (retry q) (dead q) (idem q) (pubs q).
Definition set_processing (l : list string) (q : qstate) : qstate :=
  QState (jobs q) (pending q) l (retry q) (dead q) (idem q) (pubs q).
Definition set_retry (z : gmap string Z) (q : qstate) : qstate :=
  QState (jobs q) (pending q) (processing q) z (dead q) (idem q) (pubs q).
Definition set_dead (l : list string) (q : qstate) : qstate :=
  QState (jobs q) (pending q) (processing q) (retry q) l (idem q) (pubs q).
Definition set_idem (d : string) (b : string * string) (q : qstate) : qstate :=
  QState (jobs q) (pending q) (processing q) (retry q) (dead q) (<[d := b]> (idem q)) (pubs q).
Definition set_pub (k : string) (h : gmap string string) (q : qstate) : qstate :=
  QState (jobs q) (pending q) (processing q) (retry q) (dead q) (idem q) (<[k := h]> (pubs q)).

Definition push_pend (i : nat) (id : string) (q : qstate) : qstate :=
  set_pend i (id :: pend q i) q.
Definition rem_pend (i : nat) (id : string) (q : qstate) : qstate :=
  set_pend i (remove_first id (pend q i)) q.
Definition rem_processing (id : string) (q : qstate) : qstate :=
  set_processing (remove_first id (processing q)) q.
Definition push_dead (id : string) (q : qstate) : qstate := set_dead (id :: dead q) q.
Definition add_retry (id : string) (at_ms : Z) (q : qstate) : qstate :=
  set_retry (<[id := at_ms]> (retry q)) q.
Definition rem_retry (id : string) (q : qstate) : qstate := set_retry (delete id (retry q)) q.

(** Expiry: the environment removes a job hash or an idempotency binding. *)
Definition expire_job (id : string) (q : qstate) : qstate :=
  QState (delete id (jobs q)) (pending q) (processing q) (retry q) (dead q) (idem q) (pubs q).
Definition expire_idem (d : string) (q : qstate) : qstate :=
  QState (jobs q) (pending q) (processing q) (retry q) (dead q) (delete d (idem q)) (pubs q).

(** Everything waiting, running or due for a retry. *)
Definition depth_of (shards : nat) (q : qstate) : Z :=
  Z.of_nat (length (processing q)) + Z.of_nat (size (retry q))
  + foldr Z.add 0 ((fun i => Z.of_nat (length (pend q i))) <$> seq 0 shards).

(** ** The calls *)

(** A job as [enqueue] creates it. *)
Definition new_job (request : string) (shard : nat) (now : Z) : job :=
  Job QUEUED request "" "" 0 "" 0 false shard now now 0.

Definition with_status (st : JobStatus) (error : string) (now : Z) (j : job) : job :=
  Job st (j_request j) error (j_result j) (j_attempts j) "" 0 (j_cancel j) (j_shard j)
      (j_created j) now (j_next j).

Definition with_next (next : Z) (j : job) : job :=
  Job (j_status j) (j_request j) (j_error j) (j_result j) (j_attempts j) (j_worker j)
      (j_lease j) (j_cancel j) (j_shard j) (j_created j) (j_updated j) next.

Definition claimed (w : string) (lease now : Z) (j : job) : job :=
  Job RUNNING (j_request j) (j_error j) (j_result j) (j_attempts j + 1) w lease false
      (j_shard j) (j_created j) now 0.

Definition renewed (lease now : Z) (j : job) : job :=
  Job (j_status j) (j_request j) (j_error j) (j_result j) (j_attempts j) (j_worker j)
      lease (j_cancel j) (j_shard j) (j_created j) now (j_next j).

Definition succeeded (res : string) (now : Z) (j : job) : job :=
  Job SUCCEEDED (j_request j) "" res (j_attempts j) "" 0 (j_cancel j) (j_shard j)
      (j_created j) now (j_next j).

(** Promotion and cancellation outside a worker touch only these fields. *)
Definition requeued (now : Z) (j : job) : job :=
  Job QUEUED (j_request j) (j_error j) (j_result j) (j_attempts j) (j_worker j)
      (j_lease j) (j_cancel j) (j_shard j) (j_created j) now 0.
Definition cancelled_now (now : Z) (j : job) : job :=
  Job CANCELLED (j_request j) (j_error j) (j_result j) (j_attempts j) (j_worker j)
      (j_lease j) (j_cancel j) (j_shard j) (j_created j) now (j_next j).
Definition cancel_flagged (now : Z) (j : job) : job :=
  Job (j_status j) (j_request j) (j_error j) (j_result j) (j_attempts j) (j_worker j)
      (j_lease j) true (j_shard j) (j_created j) now (j_next j).

Module Spec.

Definition enqueue (c : queue_cfg) (ikey : option string) (hash request : string)
    (shard : nat) (now : Z) (id : string) (q : qstate) : (string * string) * qstate :=
  match ikey ≫= fun d => idem q !! d with
  | Some (h, existing) =>
      if decide (h = hash) then (("existing", existing), q) else (("conflict", existing), q)
  | None =>
      if max_queue_depth c <=? depth_of (affinity_shards c) q then (("full", ""), q)
      else
        let q1 := push_pend shard id (set_job id (new_job request shard now) q) in
        (("created", id),
         match ikey with Some d => set_idem d (hash, id) q1 | None => q1 end)
  end.

Definition publish (key : string) (w : string) (attempt : Z) (mode id attempt_id uri : string)
    (now : Z) (q : qstate) : Z * qstate :=
  match jobs q !! id with
  | Some j =>
      if negb (owned j w now && (j_attempts j =? attempt) && negb (j_cancel j)) then (-1, q)
      else if decide (mode = "append") then
        (1, set_pub key (hset_fields
               [("exists", "1"); ("last_append_query_id", id);
                ("last_append_attempt_id", attempt_id); ("last_append_manifest_uri", uri);
                ("updated_at_ms", str_of_Z now)] (pub q key)) q)
      else if decide (mode = "error" /\ pub q key <> ∅
                      /\ default "" (pub q key !! "query_id") <> id) then (0, q)
      else
        (1, set_pub key (hset_fields
               [("exists", "1"); ("query_id", id); ("attempt_id", attempt_id);
                ("manifest_uri", uri); ("updated_at_ms", str_of_Z now)] (pub q key)) q)
  | None => (-1, q)
  end.

Definition claim (id w : string) (lease now : Z) (q : qstate)
  : option (string * Z * string * string) * qstate :=
  match jobs q !! id with
  | Some j =>
      if decide (id ∈ processing q /\ j_status j = QUEUED) then
        (Some (j_request j, j_attempts j + 1, str_of_nat (j_shard j), str_of_Z (j_created j)),
         set_job id (claimed w lease now j) q)
      else (None, q)
  | None => (None, q)
  end.

Definition heartbeat (id w : string) (lease now : Z) (q : qstate) : Z * qstate :=
  match jobs q !! id with
  | Some j => if owned j w now then (1, set_job id (renewed lease now j) q) else (0, q)
  | None => (0, q)
  end.

Definition complete (id w res : string) (now : Z) (q : qstate) : Z * qstate :=
  match jobs q !! id with
  | Some j =>
      if owned j w now && negb (j_cancel j)
      then (1, rem_processing id (set_job id (succeeded res now j) q))
      else (0, q)
  | None => (0, q)
  end.

(** [st] is FAILED or CANCELLED. *)
Definition finish (id w : string) (st : JobStatus) (error : string) (now : Z) (q : qstate)
  : Z * qstate :=
  match jobs q !! id with
  | Some j =>
      if owned j w now then
        let q1 := rem_processing id (set_job id (with_status st error now j) q) in
        (1, if decide (st = FAILED) then push_dead id q1 else q1)
      else (0, q)
  | None => (0, q)
  end.

Definition retry_later (max : Z) (id w error : string) (now next : Z) (q : qstate)
  : Z * qstate :=
  match jobs q !! id with
  | Some j =>
      if owned j w now then
        let q1 := rem_processing id q in
        (1, if max <=? j_attempts j
            then push_dead id (set_job id (with_status FAILED error now j) q1)
            else add_retry id next
                   (set_job id (with_next next (with_status RETRYING error now j)) q1))
      else (0, q)
  | None => (0, q)
  end.

Definition lease_expired_error : string := "worker lease expired".

Definition reap (max : Z) (id expected_lease : string) (now next : Z) (shard : nat)
    (q : qstate) : Z * qstate :=
  match jobs q !! id with
  | None => (1, rem_processing id q)
  | Some j =>
      if decide (j_status j = QUEUED) then (1, push_pend shard id (rem_processing id q))
      else if decide (j_status j <> RUNNING) then (1, rem_processing id q)
      else if decide (str_of_Z (j_lease j) <> expected_lease \/ now < j_lease j) then (0, q)
      else
        let q1 := rem_processing id q in
        (1, if j_cancel j
            then set_job id (with_next 0 (with_status CANCELLED "" now j)) q1
            else if max <=? j_attempts j
            then push_dead id (set_job id (with_status FAILED lease_expired_error now j) q1)
            else add_retry id next
                   (set_job id (with_next next (with_status RETRYING lease_expired_error now j))
                            q1))
  end.

Definition promote (id : string) (now : Z) (shard : nat) (q : qstate) : Z * qstate :=
  match jobs q !! id with
  | Some j =>
      if decide (j_status j <> RETRYING) then (0, rem_retry id q)
      else match retry q !! id with
           | None => (0, q)
           | Some score =>
               if now <? score then (0, q)
               else (1, push_pend shard id (set_job id (requeued now j) (rem_retry id q)))
           end
  | None => (0, rem_retry id q)
  end.

Definition cancel (id : string) (shard : nat) (now : Z) (q : qstate) : Z * qstate :=
  match jobs q !! id with
  | None => (-1, q)
  | Some j =>
      match j_status j with
      | QUEUED => (1, set_job id (cancelled_now now j) (rem_pend shard id q))
      | RETRYING => (1, set_job id (cancelled_now now j) (rem_retry id q))
      | RUNNING => (2, set_job id (cancel_flagged now j) q)
      | _ => (0, q)
      end
  end.

(** RPOPLPUSH from a pending shard to the processing list. *)
Definition pop (shard : nat) (q : qstate) : option string * qstate :=
  match rpop (pend q shard) with
  | None => (None, q)
  | Some (id, rest) =>
      (Some id, set_processing (id :: processing q) (set_pend shard rest q))
  end.

Definition job_hash (id : string) (q : qstate) : gmap string string :=
  match jobs q !! id with Some j => enc_job j | None => ∅ end.

Definition idem_hash (d : string) (q : qstate) : gmap string string :=
  match idem q !! d with Some b => enc_idem b | None => ∅ end.

Definition due (now : Z) (q : qstate) : list string := zset_range 0 now 100 (retry q).

End Spec.

(** One atomic call to the server, typed by its reply. *)
Inductive qcall : Type -> Type :=
| Enqueue (ikey : option string) (hash request : string) (shard : nat) (now : Z) (id : string)
  : qcall (string * string)
| Publish (key w : string) (attempt : Z) (mode id attempt_id uri : string) (now : Z) : qcall Z
| Claim (id w : string) (lease now : Z) : qcall (option (string * Z * string * string))
| Heartbeat (id w : string) (lease now : Z) : qcall Z
| Complete (id w res : string) (now : Z) : qcall Z
| Finish (id w : string) (st : JobStatus) (error : string) (now : Z) : qcall Z
| RetryLater (id w error : string) (now next : Z) : qcall Z
| Reap (id expected_lease : string) (now next : Z) (shard : nat) : qcall Z
| Promote (id : string) (now : Z) (shard : nat) : qcall Z
| Cancel (id : string) (shard : nat) (now : Z) : qcall Z
| Pop (shard : nat) : qcall (option string)
| JobHash (id : string) : qcall (gmap string string)
| IdemHash (d : string) : qcall (gmap string string)
| Processing : qcall (list string)
| Due (now : Z) : qcall (list string)
| PendingLen (shard : nat) : qcall Z
| ProcessingLen : qcall Z
| RetryLen : qcall Z.

Definition spec_call (c : queue_cfg) {X} (call : qcall X) (q : qstate) : X * qstate :=
  match call with
  | Enqueue ik h r sh now id => Spec.enqueue c ik h r sh now id q
  | Publish k w a m id aid uri now => Spec.publish k w a m id aid uri now q
  | Claim id w lease now => Spec.claim id w lease now q
  | Heartbeat id w lease now => Spec.heartbeat id w lease now q
  | Complete id w res now => Spec.complete id w res now q
  | Finish id w st e now => Spec.finish id w st e now q
  | RetryLater id w e now next => Spec.retry_later (max_attempts c) id w e now next q
  | Reap id l now next sh => Spec.reap (max_attempts c) id l now next sh q
  | Promote id now sh => Spec.promote id now sh q
  | Cancel id sh now => Spec.cancel id sh now q
  | Pop sh => Spec.pop sh q
  | JobHash id => (Spec.job_hash id q, q)
  | IdemHash d => (Spec.idem_hash d q, q)
  | Processing => (processing q, q)
  | Due now => (Spec.due now q, q)
  | PendingLen sh => (Z.of_nat (length (pend q sh)), q)
  | ProcessingLen => (Z.of_nat (length (processing q)), q)
  | RetryLen => (Z.of_nat (size (retry q)), q)
  end.
