(* ===== verification/QueueScripts.v ===== *)
(** * The queue's Lua scripts

    The ten scripts of [ValkeyJobQueue] (src/src/dalmatian/jobs.py), statement
    by statement, over any server that satisfies [ValkeyLaws]: keys and
    arguments are the strings the client sends, and the fields of a job are
    read back from its hash.  [refines] relates a server state to a state of
    QueueState.v; each script carries it to what the abstract call computes. *)

From S2P Require Import Prelude Valkey Models QueueState.

(** ** Keys *)

Section keys.
Context (c : queue_cfg).
Definition job_key (id : string) : string := queue_name c +:+ ":job:" +:+ id.
Definition pending_key (shard : nat) : string := queue_name c +:+ ":shard:" +:+ str_of_nat shard.
Definition idem_key (digest : string) : string := queue_name c +:+ ":idempotency:" +:+ digest.
Definition processing_key : string := queue_name c +:+ ":processing".
Definition retry_key : string := queue_name c +:+ ":retry".
Definition dead_key : string := queue_name c +:+ ":dead".

(** A key outside the queue's own hashes, such as a publication key. *)
Definition outside_key (k : string) : Prop :=
  (forall id, k <> job_key id) /\ (forall d, k <> idem_key d).
End keys.

#[export] Instance job_key_inj c : Inj (=) (=) (job_key c).
Proof. intros x y E. unfold job_key in E. by apply (inj _), (inj _) in E. Qed.
#[export] Instance idem_key_inj c : Inj (=) (=) (idem_key c).
Proof. intros x y E. unfold idem_key in E. by apply (inj _), (inj _) in E. Qed.
#[export] Instance pending_key_inj c : Inj (=) (=) (pending_key c).
Proof. intros x y E. unfold pending_key in E. by apply (inj _), (inj _), (inj _) in E. Qed.

(** Two keys of the queue that differ after the queue name. *)
Ltac key_ne :=
  intros Hkey; unfold job_key, idem_key, pending_key, processing_key, dead_key in Hkey;
  apply (inj _) in Hkey; discriminate Hkey.

Lemma job_idem_ne c id d : job_key c id <> idem_key c d.
Proof. key_ne. Qed.
Lemma pending_processing_ne c i : pending_key c i <> processing_key c.
Proof. key_ne. Qed.
Lemma pending_dead_ne c i : pending_key c i <> dead_key c.
Proof. key_ne. Qed.
Lemma processing_dead_ne c : processing_key c <> dead_key c.
Proof. key_ne. Qed.

#[export] Hint Resolve job_idem_ne pending_processing_ne pending_dead_ne processing_dead_ne
  : dalmatian.

(** ** The scripts *)

Section scripts.
Context {store : Type} `{Valkey store}.
Local Open Scope script_scope.

Notation script := (script store).

Definition HGET (k f : string) : script (option string) := s_read (fun s => hget s k f).
Definition HSET k fvs : script unit := s_write (hset k fvs).
Definition LPUSH k x : script unit := s_write (lpush k x).
Definition LREM k x : script unit := s_write (lrem1 k x).
Definition ZADD k score x : script unit := s_write (zadd k score x).
Definition ZREM k x : script Z := fun s => let '(n, s') := zrem k x s in (Some n, s').
Definition HINCRBY k f n : script Z := fun s => hincrby k f n s.
(** Arguments arrive as text. *)
Definition number (s : string) : script Z := s_opt (tonumber s).
Definition EXPIRE k (ttl : string) : script unit := t <- number ttl;; s_write (expire k t).

(** [tonumber(redis.call('HGET', k, f) or '0')]. *)
Definition HGET_number k f : script Z := v <- HGET k f;; number (default "0" v).

Fixpoint sum_llen (ks : list string) (s : store) : Z :=
  match ks with [] => 0 | k :: ks => Z.of_nat (llen s k) + sum_llen ks s end.

Definition enqueue_script (job pending idem processing retry : string) (shards : list string)
    (use_idem request_hash request shard now job_ttl job_id idem_ttl max_depth : string)
  : script (string * string) :=
  exists_ <- s_read (fun s => key_exists s idem);;
  if bool_decide (use_idem = "1") && exists_ then
    h <- HGET idem "request_hash";;
    existing <- HGET idem "job_id";;
    if decide (default "" h = request_hash)
    then s_ret ("existing", default "" existing)
    else s_ret ("conflict", default "" existing)
  else
    depth <- s_read (fun s =>
      Z.of_nat (llen s processing) + Z.of_nat (zcard s retry) + sum_llen shards s);;
    limit <- number max_depth;;
    if limit <=? depth then s_ret ("full", "")
    else
      HSET job
        [("status", "queued"); ("request", request); ("error", ""); ("result", "");
         ("attempts", "0"); ("worker_id", ""); ("lease_expires_ms", "0");
         ("cancel_requested", "0"); ("shard", shard); ("created_at_ms", now);
         ("updated_at_ms", now); ("next_attempt_ms", "0")];;
      EXPIRE job job_ttl;;
      LPUSH pending job_id;;
      (if decide (use_idem = "1") then
         HSET idem [("request_hash", request_hash); ("job_id", job_id)];;
         EXPIRE idem idem_ttl
       else s_ret tt);;
      s_ret ("created", job_id).

(** The second half of the publish script, once the lease is checked. *)
Definition publish_record (publication mode job_id attempt_id uri now : string) : script Z :=
  if decide (mode = "append") then
    HSET publication
      [("exists", "1"); ("last_append_query_id", job_id);
       ("last_append_attempt_id", attempt_id); ("last_append_manifest_uri", uri);
       ("updated_at_ms", now)];;
    s_ret 1
  else
    exists_ <- s_read (fun s => key_exists s publication);;
    existing <- HGET publication "query_id";;
    if decide (mode = "error" /\ exists_ = true /\ default "" existing <> job_id)
    then s_ret 0
    else
      HSET publication
        [("exists", "1"); ("query_id", job_id); ("attempt_id", attempt_id);
         ("manifest_uri", uri); ("updated_at_ms", now)];;
      s_ret 1.

Definition publish_script (job publication : string)
    (worker attempt mode job_id attempt_id uri now : string) : script Z :=
  status <- HGET job "status";;
  if decide (status <> Some "running") then s_ret (-1) else
  owner <- HGET job "worker_id";;
  if decide (owner <> Some worker) then s_ret (-1) else
  attempts <- HGET job "attempts";;
  if decide (tonumber (default "0" attempts) <> tonumber attempt) then s_ret (-1) else
  cancel <- HGET job "cancel_requested";;
  if decide (cancel = Some "1") then s_ret (-1) else
  lease <- HGET_number job "lease_expires_ms";;
  t <- number now;;
  if lease <=? t then s_ret (-1) else
  publish_record publication mode job_id attempt_id uri now.

Definition claim_script (key processing : string)
    (job_id worker lease now ttl : string)
  : script (option (string * Z * string * string)) :=
  listed <- s_read (fun s => bool_decide (job_id ∈ lrange s processing));;
  if negb listed then s_ret None else
  status <- HGET key "status";;
  if decide (status <> Some "queued") then s_ret None else
  request <- HGET key "request";;
  match request with
  | None => LREM processing job_id;; s_ret None
  | Some request =>
      attempts <- HINCRBY key "attempts" 1;;
      HSET key [("status", "running"); ("worker_id", worker); ("lease_expires_ms", lease);
                ("updated_at_ms", now); ("cancel_requested", "0"); ("next_attempt_ms", "0")];;
      EXPIRE key ttl;;
      shard <- HGET key "shard";;
      created <- HGET key "created_at_ms";;
      s_ret (Some (request, attempts, default "0" shard, default now created))
  end.

(** The fence shared by the scripts a worker calls, up to the lease test. *)
Definition fenced {A} (key worker now : string) (stale : A) (k : script A) : script A :=
  status <- HGET key "status";;
  if decide (status <> Some "running") then s_ret stale else
  owner <- HGET key "worker_id";;
  if decide (owner <> Some worker) then s_ret stale else
  lease <- HGET_number key "lease_expires_ms";;
  t <- number now;;
  if lease <=? t then s_ret stale else k.

Definition heartbeat_script (key : string) (worker lease now ttl : string) : script Z :=
  fenced key worker now 0 (
    HSET key [("lease_expires_ms", lease); ("updated_at_ms", now)];;
    EXPIRE key ttl;;
    s_ret 1).

Definition complete_script (key processing : string) (worker res now job_id ttl : string)
  : script Z :=
  status <- HGET key "status";;
  if decide (status <> Some "running") then s_ret 0 else
  owner <- HGET key "worker_id";;
  if decide (owner <> Some worker) then s_ret 0 else
  cancel <- HGET key "cancel_requested";;
  if decide (cancel = Some "1") then s_ret 0 else
  lease <- HGET_number key "lease_expires_ms";;
  t <- number now;;
  if lease <=? t then s_ret 0 else
  HSET key [("status", "succeeded"); ("result", res); ("error", ""); ("worker_id", "");
            ("lease_expires_ms", "0"); ("updated_at_ms", now)];;
  LREM processing job_id;;
  EXPIRE key ttl;;
  s_ret 1.

Definition terminal_script (key processing dead : string)
    (worker status error now job_id ttl : string) : script Z :=
  fenced key worker now 0 (
    HSET key [("status", status); ("error", error); ("worker_id", "");
              ("lease_expires_ms", "0"); ("updated_at_ms", now)];;
    LREM processing job_id;;
    (if decide (status = "failed") then LPUSH dead job_id else s_ret tt);;
    EXPIRE key ttl;;
    s_ret 1).

Definition retry_script (key processing retry dead : string)
    (worker job_id max error now next ttl : string) : script Z :=
  fenced key worker now 0 (
    attempts <- HGET_number key "attempts";;
    LREM processing job_id;;
    limit <- number max;;
    (if limit <=? attempts then
       HSET key [("status", "failed"); ("error", error); ("worker_id", "");
                 ("lease_expires_ms", "0"); ("updated_at_ms", now)];;
       LPUSH dead job_id
     else
       HSET key [("status", "retrying"); ("error", error); ("worker_id", "");
                 ("lease_expires_ms", "0"); ("updated_at_ms", now);
                 ("next_attempt_ms", next)];;
       score <- number next;;
       ZADD retry score job_id);;
    EXPIRE key ttl;;
    s_ret 1).

Definition reap_script (key processing retry dead pending : string)
    (job_id expected_lease now max next ttl : string) : script Z :=
  now_ms <- number now;;
  max_attempts <- number max;;
  exists_ <- s_read (fun s => key_exists s key);;
  if negb exists_ then LREM processing job_id;; s_ret 1 else
  status <- HGET key "status";;
  if decide (status = Some "queued") then
    LREM processing job_id;; LPUSH pending job_id;; s_ret 1
  else if decide (status <> Some "running") then LREM processing job_id;; s_ret 1 else
  lease <- HGET key "lease_expires_ms";;
  lease_ms <- number (default "0" lease);;
  if decide (default "0" lease <> expected_lease \/ now_ms < lease_ms) then s_ret 0 else
  attempts <- HGET_number key "attempts";;
  cancel <- HGET key "cancel_requested";;
  LREM processing job_id;;
  (if decide (default "0" cancel = "1") then
     HSET key [("status", "cancelled"); ("error", ""); ("worker_id", "");
               ("lease_expires_ms", "0"); ("updated_at_ms", now); ("next_attempt_ms", "0")]
   else if max_attempts <=? attempts then
     HSET key [("status", "failed"); ("error", "worker lease expired"); ("worker_id", "");
               ("lease_expires_ms", "0"); ("updated_at_ms", now)];;
     LPUSH dead job_id
   else
     HSET key [("status", "retrying"); ("error", "worker lease expired"); ("worker_id", "");
               ("lease_expires_ms", "0"); ("updated_at_ms", now); ("next_attempt_ms", next)];;
     score <- number next;;
     ZADD retry score job_id);;
  EXPIRE key ttl;;
  s_ret 1.

Definition promote_script (key retry pending : string) (job_id now : string) : script Z :=
  now_ms <- number now;;
  status <- HGET key "status";;
  if decide (status <> Some "retrying") then ZREM retry job_id;; s_ret 0 else
  score <- s_read (fun s => zscore s retry job_id);;
  match score with
  | None => s_ret 0
  | Some score =>
      if now_ms <? score then s_ret 0 else
      removed <- ZREM retry job_id;;
      if decide (removed = 0) then s_ret 0 else
      HSET key [("status", "queued"); ("next_attempt_ms", "0"); ("updated_at_ms", now)];;
      LPUSH pending job_id;;
      s_ret 1
  end.

Definition cancel_script (key pending retry : string) (job_id now : string) : script Z :=
  exists_ <- s_read (fun s => key_exists s key);;
  if negb exists_ then s_ret (-1) else
  status <- HGET key "status";;
  if decide (status = Some "queued") then
    LREM pending job_id;;
    HSET key [("status", "cancelled"); ("updated_at_ms", now)];; s_ret 1
  else if decide (status = Some "retrying") then
    ZREM retry job_id;;
    HSET key [("status", "cancelled"); ("updated_at_ms", now)];; s_ret 1
  else if decide (status = Some "running") then
    HSET key [("cancel_requested", "1"); ("updated_at_ms", now)];; s_ret 2
  else s_ret 0.

(** What one client call runs on the server. *)
Definition exec_call (c : queue_cfg) {X} (call : qcall X) : script X :=
  match call with
  | Enqueue ikey hash request shard now id =>
      enqueue_script (job_key c id) (pending_key c shard)
        (match ikey with
         | Some d => idem_key c d
         | None => queue_name c +:+ ":idempotency:none:" +:+ id
         end)
        (processing_key c) (retry_key c)
        (pending_key c <$> seq 0 (affinity_shards c))
        (if decide (is_Some ikey) then "1" else "0") hash request (str_of_nat shard)
        (str_of_Z now) (str_of_Z (job_ttl_seconds c)) id
        (str_of_Z (idempotency_ttl_seconds c)) (str_of_Z (max_queue_depth c))
  | Publish key w attempt mode id attempt_id uri now =>
      publish_script (job_key c id) key w (str_of_Z attempt) mode id attempt_id uri
        (str_of_Z now)
  | Claim id w lease now =>
      claim_script (job_key c id) (processing_key c) id w (str_of_Z lease) (str_of_Z now)
        (str_of_Z (job_ttl_seconds c))
  | Heartbeat id w lease now =>
      heartbeat_script (job_key c id) w (str_of_Z lease) (str_of_Z now)
        (str_of_Z (job_ttl_seconds c))
  | Complete id w res now =>
      complete_script (job_key c id) (processing_key c) w res (str_of_Z now) id
        (str_of_Z (job_ttl_seconds c))
  | Finish id w st error now =>
      terminal_script (job_key c id) (processing_key c) (dead_key c) w (job_status_value st)
        error (str_of_Z now) id (str_of_Z (job_ttl_seconds c))
  | RetryLater id w error now next =>
      retry_script (job_key c id) (processing_key c) (retry_key c) (dead_key c) w id
        (str_of_Z (max_attempts c)) error (str_of_Z now) (str_of_Z next)
        (str_of_Z (job_ttl_seconds c))
  | Reap id lease now next shard =>
      reap_script (job_key c id) (processing_key c) (retry_key c) (dead_key c)
        (pending_key c shard) id lease (str_of_Z now) (str_of_Z (max_attempts c))
        (str_of_Z next) (str_of_Z (job_ttl_seconds c))
  | Promote id now shard =>
      promote_script (job_key c id) (retry_key c) (pending_key c shard) id (str_of_Z now)
  | Cancel id shard now =>
      cancel_script (job_key c id) (pending_key c shard) (retry_key c) id (str_of_Z now)
  | Pop shard => fun s =>
      let '(x, s') := rpoplpush (pending_key c shard) (processing_key c) s in (Some x, s')
  | JobHash id => s_read (fun s => hgetall s (job_key c id))
  | IdemHash d => s_read (fun s => hgetall s (idem_key c d))
  | Processing => s_read (fun s => lrange s (processing_key c))
  | Due now => s_read (fun s => zset_range 0 now 100 (zmembers s (retry_key c)))
  | PendingLen shard => s_read (fun s => Z.of_nat (llen s (pending_key c shard)))
  | ProcessingLen => s_read (fun s => Z.of_nat (llen s (processing_key c)))
  | RetryLen => s_read (fun s => Z.of_nat (zcard s (retry_key c)))
  end.
End scripts.
