(* ===== verification/QueueRefine.v ===== *)
(** * The scripts implement the abstract queue

    [refines] relates a server state to a [qstate]; every client call carries
    related states to related states and gives the reply the abstract call
    gives.  No script stops on a run-time error on the way. *)

From S2P Require Import Prelude Valkey Models QueueState QueueScripts.

(** What a call needs from its arguments: a publication key outside the queue's
    own hashes, a terminal status for [Finish]. *)
Definition call_wf (c : queue_cfg) {X} (call : qcall X) : Prop :=
  match call with
  | Publish key _ _ _ _ _ _ _ => outside_key c key
  | Finish _ _ st _ _ => st = FAILED \/ st = CANCELLED
  | _ => True
  end.

Section refine.
Context {store : Type} `{ValkeyLaws store} (c : queue_cfg).

(** The server holds exactly the abstract state. *)
Record refines (s : store) (q : qstate) : Prop := {
  rf_job id : hgetall s (job_key c id) = Spec.job_hash id q;
  rf_idem d : hgetall s (idem_key c d) = Spec.idem_hash d q;
  rf_pub k : outside_key c k -> hgetall s k = pub q k;
  rf_pending i : lrange s (pending_key c i) = pend q i;
  rf_processing : lrange s (processing_key c) = processing q;
  rf_dead : lrange s (dead_key c) = dead q;
  rf_retry : zmembers s (retry_key c) = retry q;
}.

(** A script run and an abstract step end in related states, with one reply. *)
Definition sim {X} (out : option X * store) (spec : X * qstate) : Prop :=
  exists s', out = (Some spec.1, s') /\ refines s' spec.2.

Lemma sim_ret {X} (x : X) s q : refines s q -> sim (Some x, s) (x, q).
Proof. exists s. done. Qed.

(** ** Single writes *)

Lemma ref_hset_job s q id fvs j :
  refines s q -> hset_fields fvs (Spec.job_hash id q) = enc_job j ->
  refines (hset (job_key c id) fvs s) (set_job id j q).
Proof.
  intros R Hj. destruct (hset_only s (job_key c id) fvs) as (Hl & Hz & _).
  destruct R as [R1 R2 R3 R4 R5 R6 R7].
  split; intros; rewrite ?Hl, ?Hz, ?hset_hash; auto.
  - rewrite R1. unfold Spec.job_hash in *. simpl. rewrite lookup_insert.
    destruct (decide (id = id0)) as [->|Hne].
    + by rewrite decide_True by done.
    + rewrite decide_False by (by intros ?%(inj _)). apply R1.
  - rewrite decide_False by apply job_idem_ne. apply R2.
  - rewrite decide_False; [by apply R3|]. intros <-. by destruct H1 as [H1 _]; destruct (H1 id).
Qed.

Lemma ref_hset_idem s q d b fvs :
  refines s q -> hset_fields fvs (Spec.idem_hash d q) = enc_idem b ->
  refines (hset (idem_key c d) fvs s) (set_idem d b q).
Proof.
  intros R Hj. destruct (hset_only s (idem_key c d) fvs) as (Hl & Hz & _).
  destruct R as [R1 R2 R3 R4 R5 R6 R7].
  split; intros; rewrite ?Hl, ?Hz, ?hset_hash; auto.
  - rewrite decide_False by (intros E; by eapply job_idem_ne). apply R1.
  - rewrite R2. unfold Spec.idem_hash in *. simpl. rewrite lookup_insert.
    destruct (decide (d = d0)) as [->|Hne].
    + by rewrite decide_True by done.
    + rewrite decide_False by (by intros ?%(inj _)). apply R2.
  - rewrite decide_False; [by apply R3|]. intros <-. by destruct H1 as [_ H1]; destruct (H1 d).
Qed.

Lemma ref_hset_pub s q k fvs :
  refines s q -> outside_key c k ->
  refines (hset k fvs s) (set_pub k (hset_fields fvs (pub q k)) q).
Proof.
  intros R [Hk1 Hk2]. destruct (hset_only s k fvs) as (Hl & Hz & _).
  destruct R as [R1 R2 R3 R4 R5 R6 R7].
  split; intros; rewrite ?Hl, ?Hz, ?hset_hash; auto.
  - rewrite decide_False by auto. apply R1.
  - rewrite decide_False by auto. apply R2.
  - unfold pub. simpl. rewrite lookup_insert. case_decide; subst; simpl; [|by apply R3].
    by rewrite R3.
Qed.

Lemma ref_frame s s' q :
  refines s q -> same_hashes s s' -> same_lists s s' -> same_zsets s s' -> refines s' q.
Proof.
  intros [R1 R2 R3 R4 R5 R6 R7] Hh Hl Hz.
  split; intros; rewrite ?Hh, ?Hl, ?Hz; auto.
Qed.

Lemma ref_expire s q k ttl : refines s q -> 0 < ttl -> refines (expire k ttl s) q.
Proof.
  intros R Ht. destruct (expire_same s k ttl Ht) as (Hh & Hl & Hz & _).
  by eapply ref_frame.
Qed.

(** A write to one list: what the other lists need. *)
Lemma ref_lists s s' q q' :
  refines s q -> only_lists s s' ->
  jobs q' = jobs q -> idem q' = idem q -> pubs q' = pubs q -> retry q' = retry q ->
  (forall i, lrange s' (pending_key c i) = pend q' i) ->
  lrange s' (processing_key c) = processing q' ->
  lrange s' (dead_key c) = dead q' ->
  refines s' q'.
Proof.
  intros [R1 R2 R3 R4 R5 R6 R7] (Hh & Hz & _) E1 E2 E3 E4 Hp Hpr Hd.
  split; intros; rewrite ?Hh, ?Hz; auto;
    unfold Spec.job_hash, Spec.idem_hash, pub in *; rewrite ?E1, ?E2, ?E3, ?E4; auto.
Qed.

(** Lists that differ from the one written. *)
Ltac other_list :=
  rewrite ?decide_False by
    (first [ apply pending_processing_ne | apply pending_dead_ne | apply processing_dead_ne
           | apply not_eq_sym; apply pending_processing_ne
           | apply not_eq_sym; apply pending_dead_ne
           | apply not_eq_sym; apply processing_dead_ne ]).

Lemma ref_set_pend s s' q i l :
  refines s q -> only_lists s s' ->
  (forall k, lrange s' k = if decide (pending_key c i = k) then l else lrange s k) ->
  refines s' (set_pend i l q).
Proof.
  intros R Ho Hl. pose proof R as [R1 R2 R3 R4 R5 R6 R7].
  eapply ref_lists; eauto; simpl; [intros i'|..]; rewrite Hl; other_list; auto.
  unfold pend. simpl. rewrite lookup_insert.
  destruct (decide (i = i')) as [->|Hne]; [by rewrite decide_True|].
  rewrite decide_False by (by intros ?%(inj _)). apply R4.
Qed.

Lemma ref_set_processing s s' q l :
  refines s q -> only_lists s s' ->
  (forall k, lrange s' k = if decide (processing_key c = k) then l else lrange s k) ->
  refines s' (set_processing l q).
Proof.
  intros R Ho Hl. pose proof R as [R1 R2 R3 R4 R5 R6 R7].
  eapply ref_lists; eauto; simpl; [intros i'|..]; rewrite Hl; other_list; auto;
    by rewrite decide_True.
Qed.

Lemma ref_set_dead s s' q l :
  refines s q -> only_lists s s' ->
  (forall k, lrange s' k = if decide (dead_key c = k) then l else lrange s k) ->
  refines s' (set_dead l q).
Proof.
  intros R Ho Hl. pose proof R as [R1 R2 R3 R4 R5 R6 R7].
  eapply ref_lists; eauto; simpl; [intros i'|..]; rewrite Hl; other_list; auto;
    by rewrite decide_True.
Qed.

Lemma ref_lpush_pending s q i x :
  refines s q -> refines (lpush (pending_key c i) x s) (push_pend i x q).
Proof.
  intros R. eapply ref_set_pend; [done|apply lpush_only|].
  intros k. rewrite lpush_list, <-(rf_pending _ _ R). done.
Qed.

Lemma ref_lrem_pending s q i x :
  refines s q -> refines (lrem1 (pending_key c i) x s) (rem_pend i x q).
Proof.
  intros R. eapply ref_set_pend; [done|apply lrem1_only|].
  intros k. rewrite lrem1_list, <-(rf_pending _ _ R). done.
Qed.

Lemma ref_lrem_processing s q x :
  refines s q -> refines (lrem1 (processing_key c) x s) (rem_processing x q).
Proof.
  intros R. eapply ref_set_processing; [done|apply lrem1_only|].
  intros k. rewrite lrem1_list, <-(rf_processing _ _ R). done.
Qed.

Lemma ref_lpush_dead s q x :
  refines s q -> refines (lpush (dead_key c) x s) (push_dead x q).
Proof.
  intros R. eapply ref_set_dead; [done|apply lpush_only|].
  intros k. rewrite lpush_list, <-(rf_dead _ _ R). done.
Qed.

Lemma ref_set_retry s s' q z :
  refines s q -> only_zsets s s' -> zmembers s' (retry_key c) = z -> refines s' (set_retry z q).
Proof.
  intros [R1 R2 R3 R4 R5 R6 R7] (Hh & Hl & _) Hz.
  split; intros; rewrite ?Hh, ?Hl; auto.
Qed.

Lemma ref_zadd_retry s q score x :
  refines s q -> refines (zadd (retry_key c) score x s) (add_retry x score q).
Proof.
  intros R. eapply ref_set_retry; [done|apply zadd_only|].
  by rewrite zadd_zset, decide_True, (rf_retry _ _ R).
Qed.

Lemma ref_zrem_retry s q x :
  refines s q -> refines (snd (zrem (retry_key c) x s)) (rem_retry x q).
Proof.
  intros R. eapply ref_set_retry; [done|apply zrem_only|].
  by rewrite zrem_zset, decide_True, (rf_retry _ _ R).
Qed.

(** ** Reads *)

Lemma ref_hget s q id f :
  refines s q -> hget s (job_key c id) f = Spec.job_hash id q !! f.
Proof. intros R. unfold hget. by rewrite (rf_job _ _ R). Qed.

Lemma ref_key_exists s q id :
  refines s q -> key_exists s (job_key c id) = bool_decide (is_Some (jobs q !! id)).
Proof.
  intros R. unfold key_exists. rewrite (rf_job _ _ R). unfold Spec.job_hash.
  apply bool_decide_ext. by destruct (jobs q !! id) as [j|].
Qed.

Lemma job_hash_Some q id j : jobs q !! id = Some j -> Spec.job_hash id q = enc_job j.
Proof. unfold Spec.job_hash. by intros ->. Qed.

Lemma job_hash_None q id : jobs q !! id = None -> Spec.job_hash id q = ∅.
Proof. unfold Spec.job_hash. by intros ->. Qed.
End refine.

(** The status field of a stored job tells its status. *)
Lemma status_field j st :
  enc_job j !! "status" = Some (job_status_value st) <-> j_status j = st.
Proof.
  change (enc_job j !! "status") with (Some (job_status_value (j_status j))).
  split; [|by intros ->]. intros [= E]. by apply (inj job_status_value) in E.
Qed.

#[export] Hint Resolve ref_expire ref_lpush_pending ref_lrem_pending ref_lrem_processing
  ref_lpush_dead ref_zadd_retry ref_zrem_retry sim_ret : dalmatian.

Section fields.
Context (j : job).
Lemma enc_status : enc_job j !! "status" = Some (job_status_value (j_status j)).
Proof. reflexivity. Qed.
Lemma enc_request : enc_job j !! "request" = Some (j_request j).
Proof. reflexivity. Qed.
Lemma enc_attempts : enc_job j !! "attempts" = Some (str_of_Z (j_attempts j)).
Proof. reflexivity. Qed.
Lemma enc_worker : enc_job j !! "worker_id" = Some (j_worker j).
Proof. reflexivity. Qed.
Lemma enc_lease : enc_job j !! "lease_expires_ms" = Some (str_of_Z (j_lease j)).
Proof. reflexivity. Qed.
Lemma enc_cancel : enc_job j !! "cancel_requested" = Some (str_of_flag (j_cancel j)).
Proof. reflexivity. Qed.
Lemma enc_shard : enc_job j !! "shard" = Some (str_of_nat (j_shard j)).
Proof. reflexivity. Qed.
Lemma enc_created : enc_job j !! "created_at_ms" = Some (str_of_Z (j_created j)).
Proof. reflexivity. Qed.
End fields.

Create Rewrite HintDb enc_job.
#[export] Hint Rewrite enc_status enc_request enc_attempts enc_worker enc_lease enc_cancel
  enc_shard enc_created : enc_job.

Lemma cancel_field j : Some (str_of_flag (j_cancel j)) = Some "1" <-> j_cancel j = true.
Proof. by destruct (j_cancel j). Qed.

(** ** Scripts *)

Section scripts.
Context {store : Type} `{ValkeyLaws store} (c : queue_cfg) (Hc : queue_cfg_ok c).
Implicit Types (s : store) (q : qstate).

Lemma ttl_pos : 0 < job_ttl_seconds c.
Proof. destruct Hc. lia. Qed.
Lemma idem_ttl_pos : 0 < idempotency_ttl_seconds c.
Proof. destruct Hc. lia. Qed.
Hint Resolve ttl_pos idem_ttl_pos : dalmatian.

(** Unfold the script monad one layer and read numerals back. *)
Ltac run :=
  repeat (progress (
    cbv beta iota delta [s_bind s_ret s_read s_write s_opt HGET HSET LPUSH LREM ZADD
      EXPIRE HGET_number number negb];
    rewrite ?tonumber_str_of_Z)).

(** Read the fields of the job [Hj] says is stored. *)
Ltac fields R Hj :=
  run; rewrite ?(ref_hget _ _ _ _ _ R), ?(job_hash_Some _ _ _ Hj);
  autorewrite with enc_job; cbn [from_option Datatypes.id]; run.

(** Close [refines] after a chain of writes. *)
Ltac writes :=
  eexists; split; [reflexivity|]; cbn [snd fst];
  repeat first
    [ assumption
    | apply ref_expire; [|solve [auto with dalmatian]]
    | apply ref_lpush_dead | apply ref_lpush_pending | apply ref_lrem_processing
    | apply ref_lrem_pending | apply ref_zadd_retry | apply ref_zrem_retry
    | apply ref_hset_job;
      [|etrans; [apply f_equal, job_hash_Some; eassumption|reflexivity]] ].

Lemma fenced_spec {A} s q id w now (stale : A) (k : script store A) :
  refines c s q ->
  fenced (job_key c id) w (str_of_Z now) stale k s
  = match jobs q !! id with
    | Some j => if owned j w now then k s else (Some stale, s)
    | None => (Some stale, s)
    end.
Proof.
  intros R. unfold fenced. run. rewrite (ref_hget _ _ q) by done.
  destruct (jobs q !! id) as [j|] eqn:Hj; [|by rewrite (job_hash_None _ _ Hj)].
  rewrite (job_hash_Some _ _ _ Hj). unfold owned.
  destruct (decide (j_status j = RUNNING)) as [Hst|Hst].
  - rewrite decide_False by (intros E; apply E; by apply (status_field j RUNNING)).
    rewrite bool_decide_true by done. fields R Hj.
    destruct (decide (j_worker j = w)) as [->|Hw].
    + rewrite decide_False by (intros E; by apply E). rewrite bool_decide_true by done.
      fields R Hj.
      destruct (Z.leb_spec (j_lease j) now), (Z.ltb_spec now (j_lease j)); try lia; done.
    + rewrite decide_True by congruence. by rewrite bool_decide_false by done.
  - rewrite decide_True by (intros ?%(status_field _ RUNNING); done).
    by rewrite (bool_decide_false (j_status j = RUNNING)) by done.
Qed.

Lemma heartbeat_refines s q id w lease now :
  refines c s q ->
  sim c (exec_call c (Heartbeat id w lease now) s) (spec_call c (Heartbeat id w lease now) q).
Proof.
  intros R. unfold exec_call, heartbeat_script. rewrite (fenced_spec _ q) by done.
  unfold spec_call, Spec.heartbeat. destruct (jobs q !! id) as [j|] eqn:Hj; [|by apply sim_ret].
  destruct (owned j w now); [|by apply sim_ret]. run. writes.
Qed.

Lemma finish_refines s q id w st error now :
  refines c s q -> st = FAILED \/ st = CANCELLED ->
  sim c (exec_call c (Finish id w st error now) s)
      (spec_call c (Finish id w st error now) q).
Proof.
  intros R Hst. unfold exec_call, terminal_script. rewrite (fenced_spec _ q) by done.
  unfold spec_call, Spec.finish. destruct (jobs q !! id) as [j|] eqn:Hj; [|by apply sim_ret].
  destruct (owned j w now); [|by apply sim_ret].
  destruct Hst as [-> | ->]; simpl; run; writes.
Qed.

Lemma retry_refines s q id w error now next :
  refines c s q ->
  sim c (exec_call c (RetryLater id w error now next) s)
      (spec_call c (RetryLater id w error now next) q).
Proof.
  intros R. unfold exec_call, retry_script. rewrite (fenced_spec _ q) by done.
  unfold spec_call, Spec.retry_later.
  destruct (jobs q !! id) as [j|] eqn:Hj; [|by apply sim_ret].
  destruct (owned j w now); [|by apply sim_ret].
  fields R Hj. destruct (max_attempts c <=? j_attempts j); run; writes.
Qed.

Lemma complete_refines s q id w res now :
  refines c s q ->
  sim c (exec_call c (Complete id w res now) s) (spec_call c (Complete id w res now) q).
Proof.
  intros R. unfold exec_call, complete_script. run. rewrite (ref_hget _ _ q) by done.
  unfold spec_call, Spec.complete.
  destruct (jobs q !! id) as [j|] eqn:Hj; [|rewrite (job_hash_None _ _ Hj); by apply sim_ret].
  rewrite (job_hash_Some _ _ _ Hj). unfold owned.
  destruct (decide (j_status j = RUNNING)) as [Hst|Hst].
  2: { rewrite decide_True by (intros ?%(status_field _ RUNNING); done).
       rewrite (bool_decide_false (j_status j = RUNNING)) by done. by apply sim_ret. }
  rewrite decide_False by (intros E; apply E; by apply (status_field j RUNNING)).
  rewrite bool_decide_true by done. fields R Hj.
  destruct (decide (j_worker j = w)) as [->|Hw].
  2: { rewrite decide_True by congruence. rewrite bool_decide_false by done.
       by apply sim_ret. }
  rewrite decide_False by (intros E; by apply E). rewrite bool_decide_true by done.
  fields R Hj. destruct (j_cancel j); simpl; [rewrite andb_false_r; by apply sim_ret|].
  fields R Hj. rewrite andb_true_r.
  destruct (Z.leb_spec (j_lease j) now), (Z.ltb_spec now (j_lease j)); try lia;
    [by apply sim_ret|]. run. writes.
Qed.

(** The publish script checks the lease, the attempt and the flag first. *)
Lemma publish_guard s q key w attempt mode id attempt_id uri now :
  refines c s q ->
  publish_script (job_key c id) key w (str_of_Z attempt) mode id attempt_id uri (str_of_Z now) s
  = match jobs q !! id with
    | Some j =>
        if owned j w now && (j_attempts j =? attempt) && negb (j_cancel j)
        then publish_record key mode id attempt_id uri (str_of_Z now) s
        else (Some (-1), s)
    | None => (Some (-1), s)
    end.
Proof.
  intros R. unfold publish_script. run. rewrite (ref_hget _ _ q) by done.
  destruct (jobs q !! id) as [j|] eqn:Hj; [|by rewrite (job_hash_None _ _ Hj)].
  rewrite (job_hash_Some _ _ _ Hj). unfold owned.
  destruct (decide (j_status j = RUNNING)) as [Hst|Hst].
  2: { rewrite decide_True by (intros ?%(status_field _ RUNNING); done).
       by rewrite (bool_decide_false (j_status j = RUNNING)) by done. }
  rewrite decide_False by (intros E; apply E; by apply (status_field j RUNNING)).
  rewrite bool_decide_true by done. fields R Hj.
  destruct (decide (j_worker j = w)) as [->|Hw].
  2: { rewrite decide_True by congruence. by rewrite bool_decide_false by done. }
  rewrite decide_False by (intros E; by apply E). rewrite bool_decide_true by done.
  fields R Hj. rewrite !andb_true_l. destruct (Z.eqb_spec (j_attempts j) attempt) as [Ha|Ha].
  2: { rewrite decide_True by congruence. by rewrite andb_false_r. }
  rewrite decide_False by congruence. fields R Hj. rewrite andb_true_r.
  destruct (j_cancel j); simpl; [by rewrite andb_false_r|].
  fields R Hj. rewrite andb_true_r.
  by destruct (Z.leb_spec (j_lease j) now), (Z.ltb_spec now (j_lease j)); try lia.
Qed.

Lemma publish_refines s q key w attempt mode id attempt_id uri now :
  refines c s q -> outside_key c key ->
  sim c (exec_call c (Publish key w attempt mode id attempt_id uri now) s)
      (spec_call c (Publish key w attempt mode id attempt_id uri now) q).
Proof.
  intros R Hk. unfold exec_call. rewrite (publish_guard _ q) by done.
  unfold spec_call, Spec.publish.
  destruct (jobs q !! id) as [j|]; [|by apply sim_ret].
  destruct (owned j w now && (j_attempts j =? attempt) && negb (j_cancel j)); simpl negb;
    [|by apply sim_ret].
  unfold publish_record. pose proof (ref_hset_pub c s q key) as Hpub.
  destruct (decide (mode = "append")); [run; eexists; split; [reflexivity|]; by apply Hpub|].
  run. unfold key_exists, hget. rewrite (rf_pub _ _ _ R key Hk).
  destruct (decide (mode = "error" /\ pub q key <> ∅ /\ _)) as [Hd|Hd].
  - rewrite decide_True; [by apply sim_ret|]. by rewrite bool_decide_eq_true.
  - rewrite decide_False by (by rewrite bool_decide_eq_true).
    run. eexists; split; [reflexivity|]. by apply Hpub.
Qed.

Lemma ref_hincrby_attempts s q id j :
  refines c s q -> jobs q !! id = Some j ->
  exists s', hincrby (job_key c id) "attempts" 1 s = (Some (j_attempts j + 1), s') /\
    refines c s' (set_job id (Job (j_status j) (j_request j) (j_error j) (j_result j)
      (j_attempts j + 1) (j_worker j) (j_lease j) (j_cancel j) (j_shard j) (j_created j)
      (j_updated j) (j_next j)) q).
Proof.
  intros R Hj. pose proof (rf_job _ _ _ R id) as Hh. rewrite (job_hash_Some _ _ _ Hj) in Hh.
  destruct (hincrby_hash s (job_key c id) "attempts" 1 (j_attempts j)) as (s' & E & Ho & Hs').
  { rewrite Hh, enc_attempts. apply tonumber_str_of_Z. }
  exists s'. split; [done|]. eapply (ref_frame c (hset (job_key c id)
    [("attempts", str_of_Z (j_attempts j + 1))] s)).
  - apply ref_hset_job; [done|]. rewrite (job_hash_Some _ _ _ Hj). reflexivity.
  - intros k. by rewrite Hs', hset_hash.
  - intros k. destruct Ho as (Hl & _), (hset_only s (job_key c id)
      [("attempts", str_of_Z (j_attempts j + 1))]) as (Hl' & _). by rewrite Hl, Hl'.
  - intros k. destruct Ho as (_ & Hz & _), (hset_only s (job_key c id)
      [("attempts", str_of_Z (j_attempts j + 1))]) as (_ & Hz' & _). by rewrite Hz, Hz'.
Qed.

Lemma set_job_twice id j1 j2 q : set_job id j2 (set_job id j1 q) = set_job id j2 q.
Proof. unfold set_job. simpl. by rewrite insert_insert_eq. Qed.

Lemma claim_refines s q id w lease now :
  refines c s q ->
  sim c (exec_call c (Claim id w lease now) s) (spec_call c (Claim id w lease now) q).
Proof.
  intros R. unfold exec_call, claim_script. run. rewrite (rf_processing _ _ _ R).
  unfold spec_call, Spec.claim.
  destruct (decide (id ∈ processing q)) as [Hin|Hin].
  2: { rewrite bool_decide_false by done. simpl. destruct (jobs q !! id); [|by apply sim_ret].
       rewrite decide_False by (intros []; done). by apply sim_ret. }
  rewrite bool_decide_true by done. run.
  rewrite (ref_hget _ _ q) by done.
  destruct (jobs q !! id) as [j|] eqn:Hj; [|rewrite (job_hash_None _ _ Hj); by apply sim_ret].
  rewrite (job_hash_Some _ _ _ Hj).
  destruct (decide (j_status j = QUEUED)) as [Hst|Hst].
  2: { rewrite decide_True by (intros ?%(status_field _ QUEUED); done).
       rewrite decide_False by (intros []; done). by apply sim_ret. }
  rewrite decide_False by (intros E; apply E; by apply (status_field j QUEUED)).
  rewrite decide_True by done. fields R Hj.
  destruct (ref_hincrby_attempts s q id j R Hj) as (s1 & E1 & R1). unfold HINCRBY.
  run. rewrite E1. cbn beta iota. run.
  apply (ref_hset_job c _ _ id [("status", "running"); ("worker_id", w);
    ("lease_expires_ms", str_of_Z lease); ("updated_at_ms", str_of_Z now);
    ("cancel_requested", "0"); ("next_attempt_ms", "0")] (claimed w lease now j)) in R1.
  2: { etrans; [apply f_equal, job_hash_Some; apply lookup_insert_eq|reflexivity]. }
  rewrite set_job_twice in R1.
  apply (ref_expire c _ _ (job_key c id) (job_ttl_seconds c)) in R1; [|apply ttl_pos].
  rewrite !(ref_hget _ _ _ _ _ R1), (job_hash_Some _ id (claimed w lease now j))
    by apply lookup_insert_eq.
  autorewrite with enc_job. eexists. split; [reflexivity|done].
Qed.

Lemma status_field_ne j st : j_status j <> st ->
  Some (job_status_value (j_status j)) <> Some (job_status_value st).
Proof. intros Hne [= E]. by apply (inj job_status_value) in E. Qed.

Lemma reap_refines s q id l now next shard :
  refines c s q ->
  sim c (exec_call c (Reap id l now next shard) s) (spec_call c (Reap id l now next shard) q).
Proof.
  intros R. unfold exec_call, reap_script. run. rewrite (ref_key_exists _ _ q) by done.
  unfold spec_call, Spec.reap. destruct (jobs q !! id) as [j|] eqn:Hj.
  2: { rewrite bool_decide_false by (by intros []). run. writes. }
  rewrite bool_decide_true by done. fields R Hj.
  destruct (decide (j_status j = QUEUED)) as [Hq|Hq].
  { rewrite Hq, decide_True by done. run. writes. }
  rewrite decide_False by (by apply (status_field_ne j QUEUED)). fields R Hj.
  destruct (decide (j_status j = RUNNING)) as [Hr|Hr].
  2: { rewrite decide_True by (by apply (status_field_ne j RUNNING)).
       rewrite decide_True by done. run. writes. }
  rewrite Hr, !decide_False by (by intros []). fields R Hj.
  destruct (decide (str_of_Z (j_lease j) <> l \/ now < j_lease j)); [by apply sim_ret|].
  fields R Hj. change (str_of_flag (j_cancel j) = "1") with (str_of_flag (j_cancel j) = "1").
  destruct (j_cancel j); simpl.
  { run. writes. }
  destruct (max_attempts c <=? j_attempts j); run; writes.
Qed.

Lemma promote_refines s q id now shard :
  refines c s q ->
  sim c (exec_call c (Promote id now shard) s) (spec_call c (Promote id now shard) q).
Proof.
  intros R. unfold exec_call, promote_script. run. rewrite (ref_hget _ _ q) by done.
  unfold spec_call, Spec.promote.
  assert (Hz : forall (s : store) x, ZREM (retry_key c) x s
    = (Some (fst (zrem (retry_key c) x s)), snd (zrem (retry_key c) x s)))
    by (intros; unfold ZREM; by destruct (zrem _ _ _)).
  destruct (jobs q !! id) as [j|] eqn:Hj.
  2: { rewrite (job_hash_None _ _ Hj), lookup_empty, decide_True by done.
       run. rewrite Hz. writes. }
  rewrite (job_hash_Some _ _ _ Hj). autorewrite with enc_job.
  destruct (decide (j_status j = RETRYING)) as [Hr|Hr].
  2: { rewrite !decide_True by (done || by apply (status_field_ne j RETRYING)).
       run. rewrite Hz. writes. }
  rewrite Hr, !decide_False by (by intros []). run. unfold zscore.
  rewrite (rf_retry _ _ _ R). destruct (retry q !! id) as [k|] eqn:Hk; [|by apply sim_ret].
  assert (Hn : fst (zrem (retry_key c) id s) = 1)
    by (by rewrite zrem_reply, (rf_retry _ _ _ R), Hk, decide_True).
  destruct (now <? k); [by apply sim_ret|]. run. rewrite Hz, Hn.
  run. rewrite decide_False by done. run. writes.
Qed.

Lemma cancel_refines s q id shard now :
  refines c s q ->
  sim c (exec_call c (Cancel id shard now) s) (spec_call c (Cancel id shard now) q).
Proof.
  intros R. unfold exec_call, cancel_script. run. rewrite (ref_key_exists _ _ q) by done.
  unfold spec_call, Spec.cancel. destruct (jobs q !! id) as [j|] eqn:Hj.
  2: { rewrite bool_decide_false by (by intros []). run. by apply sim_ret. }
  rewrite bool_decide_true by done. fields R Hj.
  destruct (j_status j) eqn:Hst; simpl; run; try by apply sim_ret.
  - writes.
  - writes.
  - unfold ZREM. destruct (zrem (retry_key c) id s) as [n s1] eqn:Ez. run.
    assert (R1 : refines c s1 (rem_retry id q)).
    { replace s1 with (snd (zrem (retry_key c) id s)) by (by rewrite Ez).
      by apply ref_zrem_retry. }
    writes.
Qed.

Lemma pop_refines s q shard :
  refines c s q -> sim c (exec_call c (Pop shard) s) (spec_call c (Pop shard) q).
Proof.
  intros R. unfold exec_call, spec_call, Spec.pop.
  destruct (rpop (pend q shard)) as [[x rest]|] eqn:E; rewrite <-(rf_pending _ _ _ R) in E.
  2: { rewrite (rpoplpush_empty s _ (processing_key c) E). by apply sim_ret. }
  destruct (rpoplpush_moves s _ (processing_key c) x rest
    (pending_processing_ne c shard) E) as (s' & -> & Ho & Hl).
  eexists. split; [reflexivity|]. cbn [snd].
  pose proof R as [R1 R2 R3 R4 R5 R6 R7].
  eapply ref_lists; [exact R|done|done..| | |]; simpl; [intros i|..]; rewrite Hl.
  - unfold pend. simpl. rewrite lookup_insert.
    destruct (decide (i = shard)) as [->|Hne]; [by rewrite !decide_True|].
    rewrite decide_False by (by intros ?%(inj _)).
    rewrite !decide_False; [apply R4|done|apply pending_processing_ne].
  - rewrite decide_False by (apply not_eq_sym, pending_processing_ne).
    by rewrite decide_True, R5 by done.
  - rewrite !decide_False; [done|apply not_eq_sym, processing_dead_ne
      |apply not_eq_sym, pending_dead_ne].
Qed.

Lemma sum_llen_pending s q (l : list nat) :
  refines c s q ->
  sum_llen (pending_key c <$> l) s = foldr Z.add 0 ((fun i => Z.of_nat (length (pend q i))) <$> l).
Proof.
  intros R. induction l as [|i l IH]; [done|].
  rewrite !fmap_cons. cbn [sum_llen foldr]. unfold llen.
  by rewrite (rf_pending _ _ _ R), IH.
Qed.

Lemma ref_hset_job_new s q id request shard now :
  refines c s q ->
  refines c (hset (job_key c id)
    [("status", "queued"); ("request", request); ("error", ""); ("result", "");
     ("attempts", "0"); ("worker_id", ""); ("lease_expires_ms", "0");
     ("cancel_requested", "0"); ("shard", str_of_nat shard);
     ("created_at_ms", str_of_Z now); ("updated_at_ms", str_of_Z now);
     ("next_attempt_ms", "0")] s) (set_job id (new_job request shard now) q).
Proof.
  intros R. apply ref_hset_job; [done|]. unfold Spec.job_hash.
  by destruct (jobs q !! id).
Qed.

Lemma enqueue_refines s q ikey hash request shard now id :
  refines c s q ->
  sim c (exec_call c (Enqueue ikey hash request shard now id) s)
      (spec_call c (Enqueue ikey hash request shard now id) q).
Proof.
  intros R. unfold exec_call, enqueue_script, spec_call, Spec.enqueue.
  set (ik := match ikey with Some d => _ | None => _ end).
  assert (Hdepth : Z.of_nat (llen s (processing_key c)) + Z.of_nat (zcard s (retry_key c))
    + sum_llen (pending_key c <$> seq 0 (affinity_shards c)) s = depth_of (affinity_shards c) q).
  { unfold llen, zcard. by rewrite (rf_processing _ _ _ R), (rf_retry _ _ _ R),
      (sum_llen_pending s q) by done. }
  run. destruct ikey as [d|]; subst ik; cbn [mbind option_bind].
  - rewrite (decide_True (P := is_Some _)) by done.
    rewrite (bool_decide_true ("1" = "1")), andb_true_l by done.
    unfold key_exists. rewrite (rf_idem _ _ _ R). unfold Spec.idem_hash.
    destruct (idem q !! d) as [[h e]|] eqn:Hd.
    + rewrite bool_decide_true by done. run.
      unfold hget. rewrite (rf_idem _ _ _ R). unfold Spec.idem_hash. rewrite Hd.
      change (enc_idem (h, e) !! "request_hash") with (Some h).
      change (enc_idem (h, e) !! "job_id") with (Some e). cbn [from_option Datatypes.id].
      case_decide; by apply sim_ret.
    + rewrite bool_decide_false by (intros E; by apply E). run. rewrite Hdepth.
      destruct (max_queue_depth c <=? depth_of _ q); [by apply sim_ret|]. run.
      rewrite (decide_True (P := "1" = "1")) by done. run.
      eexists. split; [reflexivity|]. cbn [snd].
      apply ref_expire; [|apply idem_ttl_pos]. apply ref_hset_idem.
      * apply ref_lpush_pending, ref_expire; [|apply ttl_pos]. by apply ref_hset_job_new.
      * unfold Spec.idem_hash. cbn [idem push_pend set_pend set_job]. by rewrite Hd.
  - rewrite (decide_False (P := is_Some None)) by (by intros []).
    rewrite (bool_decide_false ("0" = "1")), andb_false_l by done.
    run. rewrite Hdepth.
    destruct (max_queue_depth c <=? depth_of _ q); [by apply sim_ret|]. run.
    rewrite (decide_False (P := "0" = "1")) by done. run.
    eexists. split; [reflexivity|]. cbn [snd].
    apply ref_lpush_pending, ref_expire; [|apply ttl_pos]. by apply ref_hset_job_new.
Qed.

(** Every client call implements its abstract counterpart. *)
Lemma call_refines {X} (call : qcall X) s q :
  refines c s q -> call_wf c call -> sim c (exec_call c call s) (spec_call c call q).
Proof.
  intros R Hwf. destruct call.
  - by apply enqueue_refines.
  - by apply publish_refines.
  - by apply claim_refines.
  - by apply heartbeat_refines.
  - by apply complete_refines.
  - by apply finish_refines.
  - by apply retry_refines.
  - by apply reap_refines.
  - by apply promote_refines.
  - by apply cancel_refines.
  - by apply pop_refines.
  - unfold exec_call, s_read. rewrite (rf_job _ _ _ R). by apply sim_ret.
  - unfold exec_call, s_read. rewrite (rf_idem _ _ _ R). by apply sim_ret.
  - unfold exec_call, s_read. rewrite (rf_processing _ _ _ R). by apply sim_ret.
  - unfold exec_call, s_read. rewrite (rf_retry _ _ _ R). by apply sim_ret.
  - unfold exec_call, s_read, llen. rewrite (rf_pending _ _ _ R). by apply sim_ret.
  - unfold exec_call, s_read, llen. rewrite (rf_processing _ _ _ R). by apply sim_ret.
  - unfold exec_call, s_read, zcard. rewrite (rf_retry _ _ _ R). by apply sim_ret.
Qed.
End scripts.
