(* ===== verification/QueueInv.v ===== *)
(** * The queue's invariant

    No job is lost: the id of a job that is not finished stands where its
    status says a worker or the reaper will look for it (its pending shard or
    the processing list, the processing list, the retry set).  Attempts stay
    within the limit, and the dead-letter list holds exactly the failed jobs,
    once each.  [Inv] holds in every interleaving of client calls and expiries.
    [once], that an id never stands in two places, needs more: the reaper must
    find a queued job still in the processing list when its script runs.  The
    source does not check that, and [only_late_reaps_duplicate] says what it costs.

    Both are stated per job id, so an operation owes them at the one id it
    touches and a frame for the others. *)

From S2P Require Import Prelude Valkey Models QueueState.

(** ** Where an id stands *)

Section places.
Context (c : queue_cfg).

Definition pend_count (q : qstate) (id : string) : nat :=
  foldr Nat.add 0%nat ((fun i => count id (pend q i)) <$> seq 0 (affinity_shards c)).

Definition retry_count (q : qstate) (id : string) : nat :=
  match retry q !! id with Some _ => 1 | None => 0 end.

Definition places (q : qstate) (id : string) : nat :=
  (pend_count q id + count id (processing q) + retry_count q id)%nat.

Definition status_ok (q : qstate) (id : string) (j : job) : Prop :=
  match j_status j with
  | QUEUED =>
      (1 <= count id (pend q (j_shard j)) + count id (processing q))%nat
      /\ j_attempts j < max_attempts c /\ retry q !! id = None
      /\ j_worker j = "" /\ j_lease j = 0
  | RUNNING =>
      (1 <= count id (processing q))%nat /\ 1 <= j_attempts j /\ retry q !! id = None
  | RETRYING =>
      retry q !! id = Some (j_next j) /\ j_attempts j < max_attempts c
      /\ j_worker j = "" /\ j_lease j = 0
  | _ => retry q !! id = None /\ j_worker j = "" /\ j_lease j = 0
  end.

(** How often the dead-letter list holds a job of this status. *)
Definition dead_count (st : JobStatus) : nat := match st with FAILED => 1 | _ => 0 end.

Definition job_ok (q : qstate) (id : string) (j : job) : Prop :=
  (j_shard j < affinity_shards c)%nat /\ 0 <= j_attempts j <= max_attempts c
  /\ status_ok q id j /\ count id (dead q) = dead_count (j_status j).

Definition local_inv (q : qstate) (id : string) : Prop :=
  (count id (dead q) <= 1)%nat
  /\ match jobs q !! id with Some j => job_ok q id j | None => True end.

Definition Inv (q : qstate) : Prop := forall id, local_inv q id.

(** The id stands in at most one place. *)
Definition once (q : qstate) (id : string) : Prop := (places q id <= 1)%nat.

(** An id no client has used yet, as uuid4 gives. *)
Definition fresh (q : qstate) (id : string) : Prop :=
  jobs q !! id = None /\ places q id = 0%nat /\ count id (dead q) = 0%nat.

(** What the client guarantees of the calls it makes: it picks shards below
    the shard count, fresh ids, and passes a job's own shard along with it. *)
Definition own_shard (q : qstate) (id : string) (shard : nat) : Prop :=
  forall j, jobs q !! id = Some j -> shard = j_shard j.

Definition call_ok (q : qstate) {X} (call : qcall X) : Prop :=
  match call with
  | Enqueue _ _ _ shard _ id => (shard < affinity_shards c)%nat /\ fresh q id
  | Finish _ _ st _ _ => st = FAILED \/ st = CANCELLED
  | Reap id _ _ _ shard | Promote id _ shard | Cancel id shard _ => own_shard q id shard
  | Pop shard => (shard < affinity_shards c)%nat
  | _ => True
  end.

(** The reaper's script runs while a queued job is still in the processing
    list: no other reaper has put it back in between. *)
Definition undisturbed (q : qstate) {X} (call : qcall X) : Prop :=
  match call with
  | Reap id _ _ _ _ =>
      match jobs q !! id with
      | Some j => j_status j = QUEUED -> id ∈ processing q
      | None => True
      end
  | _ => True
  end.

(** The call puts back a queued job that has left the processing list: another
    reaper did so first, or the job was popped, put back, and not popped again. *)
Definition late_reap (q : qstate) {X} (call : qcall X) (id : string) : Prop :=
  match call with
  | Reap x _ _ _ _ =>
      x = id /\ id ∉ processing q /\ exists j, jobs q !! id = Some j /\ j_status j = QUEUED
  | _ => False
  end.

(** One step of the system: a call by some client, or a lapse of a key's time
    to live.  [P] restricts the calls. *)
Inductive step_if (P : forall q X, qcall X -> Prop) (q : qstate) : qstate -> Prop :=
| step_call X (call : qcall X) :
    call_ok q call -> P q X call -> step_if P q (snd (spec_call c call q))
| step_expire_job id : step_if P q (expire_job id q)
| step_expire_idem d : step_if P q (expire_idem d q).

Definition step : qstate -> qstate -> Prop := step_if (fun _ _ _ => True).
Definition calm_step : qstate -> qstate -> Prop := step_if (@undisturbed).

(** Every state some interleaving of client calls and expiries leads to. *)
Definition reachable (q : qstate) : Prop := rtc step empty_queue q.
Definition calmly_reachable (q : qstate) : Prop := rtc calm_step empty_queue q.
End places.

(** ** Counting *)

Section counting.
Context (c : queue_cfg).
Implicit Types (q : qstate) (id : string).

Lemma pend_set_pend i l q i' :
  pend (set_pend i l q) i' = if decide (i = i') then l else pend q i'.
Proof. unfold pend. simpl. rewrite lookup_insert. by case_decide. Qed.

Lemma sum_other (f g : nat -> nat) (l : list nat) i :
  i ∉ l -> (forall k, k <> i -> g k = f k) ->
  foldr Nat.add 0%nat (g <$> l) = foldr Nat.add 0%nat (f <$> l).
Proof.
  intros Hi Hg. induction l as [|k l IH]; [done|].
  rewrite not_elem_of_cons in Hi. destruct Hi as [Hk Hl].
  rewrite !fmap_cons. cbn [foldr]. rewrite IH, Hg by auto. done.
Qed.

Lemma sum_update (f g : nat -> nat) (l : list nat) i :
  NoDup l -> i ∈ l -> (forall k, k <> i -> g k = f k) ->
  (foldr Nat.add 0%nat (g <$> l) + f i = foldr Nat.add 0%nat (f <$> l) + g i)%nat.
Proof.
  intros Hnd Hi Hg. induction Hnd as [|k l Hk Hnd IH]; [by apply not_elem_of_nil in Hi|].
  rewrite !fmap_cons. cbn [foldr]. apply elem_of_cons in Hi as [<-|Hi].
  - rewrite (sum_other f g l i) by done. lia.
  - rewrite Hg by (intros ->; done). specialize (IH Hi). lia.
Qed.

Lemma pend_count_set_pend i l q id :
  (i < affinity_shards c)%nat ->
  (pend_count c (set_pend i l q) id + count id (pend q i)
   = pend_count c q id + count id l)%nat.
Proof.
  intros Hi. unfold pend_count.
  replace (count id l) with (count id (pend (set_pend i l q) i))
    by (by rewrite pend_set_pend, decide_True).
  apply (sum_update (fun k => count id (pend q k))
                    (fun k => count id (pend (set_pend i l q) k))).
  - apply NoDup_seq.
  - apply elem_of_seq. lia.
  - intros k Hk. by rewrite pend_set_pend, decide_False.
Qed.

Lemma pend_count_same i l q id :
  count id l = count id (pend q i) -> pend_count c (set_pend i l q) id = pend_count c q id.
Proof.
  intros Hl. unfold pend_count. f_equal. apply list_fmap_ext.
  intros k x _. rewrite pend_set_pend. by case_decide; subst.
Qed.

Lemma pend_count_le i q id :
  (i < affinity_shards c)%nat -> (count id (pend q i) <= pend_count c q id)%nat.
Proof.
  intros Hi. unfold pend_count.
  assert (i ∈ seq 0 (affinity_shards c)) as Hin by (apply elem_of_seq; lia).
  induction (seq 0 (affinity_shards c)) as [|k l IH]; [by apply not_elem_of_nil in Hin|].
  rewrite fmap_cons. cbn [foldr].
  apply elem_of_cons in Hin as [<-|Hin]; [lia|]. specialize (IH Hin). lia.
Qed.

Lemma retry_count_None q id : retry q !! id = None <-> retry_count q id = 0%nat.
Proof. unfold retry_count. by destruct (retry q !! id). Qed.
End counting.

(** ** Views of an updated state *)

Create Rewrite HintDb qview.

Section views.
Context (c : queue_cfg).
Implicit Types (q : qstate) (id x : string).

Lemma jobs_set_pend i l q : jobs (set_pend i l q) = jobs q.
Proof. reflexivity. Qed.
Lemma jobs_rem_processing x q : jobs (rem_processing x q) = jobs q.
Proof. reflexivity. Qed.
Lemma jobs_push_dead x q : jobs (push_dead x q) = jobs q.
Proof. reflexivity. Qed.
Lemma jobs_add_retry x k q : jobs (add_retry x k q) = jobs q.
Proof. reflexivity. Qed.
Lemma jobs_rem_retry x q : jobs (rem_retry x q) = jobs q.
Proof. reflexivity. Qed.
Lemma jobs_set_processing l q : jobs (set_processing l q) = jobs q.
Proof. reflexivity. Qed.
Lemma jobs_push_pend i x q : jobs (push_pend i x q) = jobs q.
Proof. reflexivity. Qed.
Lemma jobs_rem_pend i x q : jobs (rem_pend i x q) = jobs q.
Proof. reflexivity. Qed.
Lemma jobs_set_job x j q : jobs (set_job x j q) = <[x := j]> (jobs q).
Proof. reflexivity. Qed.

Lemma pend_set_job x j q i : pend (set_job x j q) i = pend q i.
Proof. reflexivity. Qed.
Lemma pend_rem_processing x q i : pend (rem_processing x q) i = pend q i.
Proof. reflexivity. Qed.
Lemma pend_push_dead x q i : pend (push_dead x q) i = pend q i.
Proof. reflexivity. Qed.
Lemma pend_add_retry x k q i : pend (add_retry x k q) i = pend q i.
Proof. reflexivity. Qed.
Lemma pend_rem_retry x q i : pend (rem_retry x q) i = pend q i.
Proof. reflexivity. Qed.
Lemma pend_set_processing l q i : pend (set_processing l q) i = pend q i.
Proof. reflexivity. Qed.
Lemma pend_push_pend k x q i :
  pend (push_pend k x q) i = if decide (k = i) then x :: pend q k else pend q i.
Proof. apply pend_set_pend. Qed.
Lemma pend_rem_pend k x q i :
  pend (rem_pend k x q) i = if decide (k = i) then remove_first x (pend q k) else pend q i.
Proof. apply pend_set_pend. Qed.

Lemma pend_count_set_job x j q id : pend_count c (set_job x j q) id = pend_count c q id.
Proof. reflexivity. Qed.
Lemma pend_count_rem_processing x q id :
  pend_count c (rem_processing x q) id = pend_count c q id.
Proof. reflexivity. Qed.
Lemma pend_count_push_dead x q id : pend_count c (push_dead x q) id = pend_count c q id.
Proof. reflexivity. Qed.
Lemma pend_count_add_retry x k q id : pend_count c (add_retry x k q) id = pend_count c q id.
Proof. reflexivity. Qed.
Lemma pend_count_rem_retry x q id : pend_count c (rem_retry x q) id = pend_count c q id.
Proof. reflexivity. Qed.
Lemma pend_count_set_processing l q id :
  pend_count c (set_processing l q) id = pend_count c q id.
Proof. reflexivity. Qed.

Lemma pend_count_push k id q :
  (k < affinity_shards c)%nat -> pend_count c (push_pend k id q) id = S (pend_count c q id).
Proof.
  intros Hk. pose proof (pend_count_set_pend c k (id :: pend q k) q id Hk) as E.
  unfold push_pend. simpl in E. rewrite decide_True in E by done. lia.
Qed.

Lemma pend_count_rem k id q :
  (k < affinity_shards c)%nat ->
  (pend_count c (rem_pend k id q) id
   = pend_count c q id - Nat.min 1 (count id (pend q k)))%nat.
Proof.
  intros Hk. pose proof (pend_count_set_pend c k (remove_first id (pend q k)) q id Hk) as E.
  unfold rem_pend. rewrite count_remove_first, decide_True in E by done.
  pose proof (pend_count_le c k q id Hk). lia.
Qed.
End views.

#[export] Hint Rewrite jobs_set_pend jobs_rem_processing jobs_push_dead jobs_add_retry jobs_rem_retry jobs_set_processing jobs_push_pend jobs_rem_pend jobs_set_job
  pend_set_job pend_rem_processing pend_push_dead pend_add_retry
  pend_rem_retry pend_set_processing pend_push_pend pend_rem_pend pend_count_set_job
  pend_count_rem_processing pend_count_push_dead pend_count_add_retry pend_count_rem_retry
  pend_count_set_processing : qview.

(** ** Frames: what an update of one id leaves alone *)

Record same_at (q q' : qstate) (id : string) : Prop := {
  sa_job : jobs q' !! id = jobs q !! id;
  sa_pend i : count id (pend q' i) = count id (pend q i);
  sa_processing : count id (processing q') = count id (processing q);
  sa_retry : retry q' !! id = retry q !! id;
  sa_dead : count id (dead q') = count id (dead q);
}.

Section frames.
Context (c : queue_cfg).
Implicit Types (q : qstate) (id x : string).

Lemma same_at_refl q id : same_at q q id.
Proof. by split. Qed.

Lemma same_at_pend_count q q' id :
  same_at q q' id -> pend_count c q' id = pend_count c q id.
Proof.
  intros E. unfold pend_count. f_equal. apply list_fmap_ext. intros k i _. apply (sa_pend _ _ _ E).
Qed.

Lemma same_at_local q q' id : same_at q q' id -> local_inv c q id -> local_inv c q' id.
Proof.
  intros E (Hd & Hj). destruct E as [E1 E2 E3 E4 E5].
  unfold local_inv. rewrite E1, E5. split; [done|].
  destruct (jobs q !! id) as [j|]; [|done]. destruct Hj as (H1 & H2 & H3 & H4).
  split; [done|]. split; [done|]. unfold status_ok in *. by rewrite E2, E3, E4, E5.
Qed.

Lemma same_at_once q q' id : same_at q q' id -> once c q id -> once c q' id.
Proof.
  intros E. pose proof (same_at_pend_count _ _ _ E) as Epc. destruct E as [E1 E2 E3 E4 E5].
  unfold once, places, retry_count. by rewrite Epc, E3, E4.
Qed.

Lemma sa_set_job q q1 x j id : x <> id -> same_at q q1 id -> same_at q (set_job x j q1) id.
Proof. intros Hx []. split; try done. simpl. by rewrite lookup_insert_ne. Qed.

Lemma sa_push_pend q q1 k x id : x <> id -> same_at q q1 id -> same_at q (push_pend k x q1) id.
Proof.
  intros Hx []. split; try done. intros i. rewrite pend_push_pend.
  case_decide as E; simpl; rewrite ?(decide_False (P := id = x)) by done; subst; simpl; auto.
Qed.

Lemma sa_rem_pend q q1 k x id : x <> id -> same_at q q1 id -> same_at q (rem_pend k x q1) id.
Proof.
  intros Hx []. split; try done. intros i. rewrite pend_rem_pend.
  case_decide; subst; rewrite ?count_remove_first, ?decide_False by done; auto.
Qed.

Lemma sa_rem_processing q q1 x id :
  x <> id -> same_at q q1 id -> same_at q (rem_processing x q1) id.
Proof.
  intros Hx []. split; try done. simpl. by rewrite count_remove_first, decide_False.
Qed.

Lemma sa_push_dead q q1 x id : x <> id -> same_at q q1 id -> same_at q (push_dead x q1) id.
Proof. intros Hx []. split; try done. simpl. by rewrite decide_False. Qed.

Lemma sa_add_retry q q1 x k id : x <> id -> same_at q q1 id -> same_at q (add_retry x k q1) id.
Proof. intros Hx []. split; try done. simpl. by rewrite lookup_insert_ne. Qed.

Lemma sa_rem_retry q q1 x id : x <> id -> same_at q q1 id -> same_at q (rem_retry x q1) id.
Proof. intros Hx []. split; try done. simpl. by rewrite lookup_delete_ne. Qed.

Lemma sa_set_idem q q1 d b id : same_at q q1 id -> same_at q (set_idem d b q1) id.
Proof. intros []. by split. Qed.

Lemma sa_set_pub q q1 k h id : same_at q q1 id -> same_at q (set_pub k h q1) id.
Proof. intros []. by split. Qed.
End frames.

#[export] Hint Resolve same_at_refl sa_set_job sa_push_pend sa_rem_pend sa_rem_processing
  sa_push_dead sa_add_retry sa_rem_retry sa_set_idem sa_set_pub : dalmatian.

(** The one id a call can change. *)
Definition touches (q : qstate) {X} (call : qcall X) : option string :=
  match call with
  | Enqueue _ _ _ _ _ id | Claim id _ _ _ | Heartbeat id _ _ _ | Complete id _ _ _
  | Finish id _ _ _ _ | RetryLater id _ _ _ _ | Reap id _ _ _ _ | Promote id _ _
  | Cancel id _ _ => Some id
  | Pop shard => fst <$> rpop (pend q shard)
  | _ => None
  end.

Lemma pop_frame q shard id :
  touches q (Pop shard) <> Some id -> same_at q (snd (Spec.pop shard q)) id.
Proof.
  unfold touches, Spec.pop. intros Ht.
  destruct (rpop (pend q shard)) as [[x rest]|] eqn:E; [|apply same_at_refl].
  simpl in Ht. assert (id <> x) as Hne by congruence.
  pose proof (count_rpop id _ _ _ E) as Ec. rewrite decide_False in Ec by done.
  split; try done.
  - intros i. simpl. rewrite pend_set_processing, pend_set_pend.
    destruct (decide (shard = i)); subst; lia.
  - simpl. by rewrite decide_False.
Qed.

(** A call leaves every other id alone. *)
Lemma call_frame c q {X} (call : qcall X) id :
  touches q call <> Some id -> same_at q (snd (spec_call c call q)) id.
Proof.
  destruct call; try apply pop_frame; simpl; intros Ht;
    unfold Spec.enqueue, Spec.publish, Spec.claim, Spec.heartbeat, Spec.complete, Spec.finish,
      Spec.retry_later, Spec.reap, Spec.promote, Spec.cancel;
    repeat case_match; simplify_eq/=; auto 8 with dalmatian congruence.
Qed.

(** ** Each call preserves the invariant at the id it touches *)

(** Read the updated state off the primitive updates. *)
Ltac see :=
  cbn [snd fst]; unfold local_inv, once, places, job_ok, status_ok, retry_count in *;
  autorewrite with qview;
  repeat first
    [ rewrite lookup_insert_eq
    | match goal with E : jobs ?q !! ?x = _ |- context [jobs ?q !! ?x] => rewrite E end ];
  autorewrite with qview;
  repeat (rewrite pend_count_push by done);
  repeat (rewrite pend_count_rem by done);
  autorewrite with qview;
  cbn [snd fst jobs processing retry dead set_job set_pend push_pend rem_pend rem_processing
       push_dead add_retry rem_retry set_idem set_pub set_processing set_dead set_retry
       pending idem pubs] in *;
  repeat first [ rewrite lookup_insert_eq | rewrite lookup_delete_eq ];
  cbn [count j_status j_shard j_attempts j_worker j_lease j_next j_cancel
       claimed renewed succeeded with_status with_next requeued cancelled_now cancel_flagged
       new_job] in *;
  rewrite ?count_remove_first, ?elem_of_cons;
  repeat match goal with
    | |- context [decide (?x = ?x)] => rewrite (decide_True (P := x = x)) by done; cbn [count]
    end.

(** Close the arithmetic that is left. *)
Ltac close := destruct_and?; repeat split; try done; try congruence; simpl in *; try lia.

Lemma owned_spec j w now :
  owned j w now = true <-> j_status j = RUNNING /\ j_worker j = w /\ now < j_lease j.
Proof.
  unfold owned. rewrite !andb_true_iff, !bool_decide_eq_true, Z.ltb_lt. tauto.
Qed.

Section preserve.
Context (c : queue_cfg) (Hc : queue_cfg_ok c).
Implicit Types (q : qstate) (id w : string).

Lemma complete_local q id w res now :
  local_inv c q id -> local_inv c (snd (Spec.complete id w res now q)) id.
Proof.
  intros Hi. unfold Spec.complete. destruct (jobs q !! id) as [j|] eqn:Hj; [|done].
  destruct (owned j w now) eqn:Ho; [|done]. apply owned_spec in Ho as (Hst & _ & _).
  destruct (j_cancel j); [done|]. simpl andb. cbn iota.
  unfold local_inv in Hi. rewrite Hj in Hi. see. rewrite Hst in Hi.
  destruct (retry q !! id); close.
Qed.

Lemma finish_local q id w st error now :
  st = FAILED \/ st = CANCELLED ->
  local_inv c q id -> local_inv c (snd (Spec.finish id w st error now q)) id.
Proof.
  intros Ht Hi. unfold Spec.finish. destruct (jobs q !! id) as [j|] eqn:Hj; [|done].
  destruct (owned j w now) eqn:Ho; [|done]. apply owned_spec in Ho as (Hst & _ & _).
  unfold local_inv in Hi. rewrite Hj in Hi.
  destruct Ht as [-> | ->]; [rewrite decide_True by done|rewrite decide_False by done];
    see; rewrite Hst in Hi;
    destruct (retry q !! id); close.
Qed.

Lemma retry_local q id w error now next :
  local_inv c q id ->
  local_inv c (snd (Spec.retry_later (max_attempts c) id w error now next q)) id.
Proof.
  intros Hi. unfold Spec.retry_later. destruct (jobs q !! id) as [j|] eqn:Hj; [|done].
  destruct (owned j w now) eqn:Ho; [|done]. apply owned_spec in Ho as (Hst & _ & _).
  unfold local_inv in Hi. rewrite Hj in Hi.
  destruct (Z.leb_spec (max_attempts c) (j_attempts j)); see; rewrite Hst in Hi;
    destruct (retry q !! id); close.
Qed.

Lemma heartbeat_local q id w lease now :
  local_inv c q id -> local_inv c (snd (Spec.heartbeat id w lease now q)) id.
Proof.
  intros Hi. unfold Spec.heartbeat. destruct (jobs q !! id) as [j|] eqn:Hj; [|done].
  destruct (owned j w now) eqn:Ho; [|done]. apply owned_spec in Ho as (Hst & _ & _).
  unfold local_inv in Hi. rewrite Hj in Hi. see. rewrite Hst in *.
  destruct (retry q !! id); close.
Qed.

Lemma claim_local q id w lease now :
  local_inv c q id -> local_inv c (snd (Spec.claim id w lease now q)) id.
Proof.
  intros Hi. unfold Spec.claim. destruct (jobs q !! id) as [j|] eqn:Hj; [|done].
  case_decide as Hd; [|done]. destruct Hd as [Hin Hst]. apply count_elem_of in Hin.
  unfold local_inv in Hi. rewrite Hj in Hi. see. rewrite Hst in *.
  destruct (retry q !! id); close.
Qed.

Lemma reap_local q id l now next shard :
  own_shard q id shard -> local_inv c q id ->
  local_inv c (snd (Spec.reap (max_attempts c) id l now next shard q)) id.
Proof.
  intros Hs Hi. pose proof Hi as Hi0. unfold Spec.reap. unfold local_inv in Hi.
  destruct (jobs q !! id) as [j|] eqn:Hj.
  2: { see. destruct (retry q !! id); close. }
  specialize (Hs j Hj) as ->. assert (Hlt : (j_shard j < affinity_shards c)%nat) by apply Hi.
  destruct (decide (j_status j = QUEUED)) as [Hq|Hq].
  { pose proof (pend_count_le c (j_shard j) q id Hlt). see. rewrite Hq in *.
    destruct (retry q !! id); close. }
  destruct (decide (j_status j <> RUNNING)) as [Hr|Hr].
  { see. destruct (retry q !! id), (j_status j); close. }
  apply dec_stable in Hr. case_decide; [exact Hi0|]. clear Hi0.
  destruct (j_cancel j).
  { see. rewrite Hr in *. destruct (retry q !! id); close. }
  destruct (Z.leb_spec (max_attempts c) (j_attempts j)); see; rewrite Hr in *;
    destruct (retry q !! id); close.
Qed.

Lemma promote_local q id now shard :
  own_shard q id shard -> local_inv c q id ->
  local_inv c (snd (Spec.promote id now shard q)) id.
Proof.
  intros Hs Hi. pose proof Hi as Hi0. unfold Spec.promote. unfold local_inv in Hi.
  destruct (jobs q !! id) as [j|] eqn:Hj.
  2: { see. destruct (retry q !! id); close. }
  specialize (Hs j Hj) as ->. assert (Hlt : (j_shard j < affinity_shards c)%nat) by apply Hi.
  pose proof (pend_count_le c (j_shard j) q id Hlt).
  destruct (decide (j_status j <> RETRYING)) as [Hr|Hr].
  { see. destruct (retry q !! id), (j_status j); close. }
  apply dec_stable in Hr. destruct (retry q !! id) as [k|] eqn:Hk.
  2: { exact Hi0. }
  destruct (now <? k); [exact Hi0|]. clear Hi0.
  see. rewrite Hr, ?Hk in *. close.
Qed.

Lemma cancel_local q id shard now :
  own_shard q id shard -> local_inv c q id ->
  local_inv c (snd (Spec.cancel id shard now q)) id.
Proof.
  intros Hs Hi. unfold Spec.cancel. pose proof Hi as Hi'. unfold local_inv in Hi.
  destruct (jobs q !! id) as [j|] eqn:Hj; [|done].
  specialize (Hs j Hj) as ->. assert (Hlt : (j_shard j < affinity_shards c)%nat) by apply Hi.
  pose proof (pend_count_le c (j_shard j) q id Hlt).
  destruct (j_status j) eqn:Hst; try done; clear Hi'; see; rewrite Hst in *;
    destruct (retry q !! id) eqn:?; close.
Qed.

Lemma enqueue_local q ikey hash request shard now id :
  (shard < affinity_shards c)%nat -> fresh c q id -> local_inv c q id ->
  local_inv c (snd (Spec.enqueue c ikey hash request shard now id q)) id.
Proof.
  intros Hlt (Hj & Hp & Hd) Hi. unfold Spec.enqueue.
  pose proof (cfg_attempts _ Hc). pose proof (pend_count_le c shard q id Hlt).
  assert (Hnew : local_inv c (push_pend shard id (set_job id (new_job request shard now) q)) id).
  { see. destruct (retry q !! id); close. }
  destruct (ikey ≫= _) as [[h e]|]; [by case_decide|].
  destruct (_ <=? _); [done|]. by destruct ikey.
Qed.

Lemma pop_local q shard id :
  (shard < affinity_shards c)%nat -> touches q (Pop shard) = Some id ->
  local_inv c q id -> local_inv c (snd (Spec.pop shard q)) id.
Proof.
  intros Hlt Ht Hi. unfold touches in Ht. unfold Spec.pop.
  destruct (rpop (pend q shard)) as [[x rest]|] eqn:E; [|done].
  injection Ht as ->. pose proof (count_rpop id _ _ _ E) as Ec.
  rewrite decide_True in Ec by done.
  unfold local_inv in Hi. destruct (jobs q !! id) as [j|] eqn:Hj; see; [|close].
  rewrite pend_set_pend. destruct (decide (shard = j_shard j)) as [->|Hne];
    destruct (j_status j), (retry q !! id); close.
Qed.

Lemma call_local q {X} (call : qcall X) id :
  call_ok c q call -> touches q call = Some id ->
  local_inv c q id -> local_inv c (snd (spec_call c call q)) id.
Proof.
  intros Hok Ht Hi. destruct call; cbn [touches] in Ht; try discriminate Ht;
    try injection Ht as <-; cbn [spec_call call_ok] in *.
  - destruct Hok. by apply enqueue_local.
  - by apply claim_local.
  - by apply heartbeat_local.
  - by apply complete_local.
  - by apply finish_local.
  - by apply retry_local.
  - by apply reap_local.
  - by apply promote_local.
  - by apply cancel_local.
  - by apply pop_local.
Qed.

Lemma call_inv q {X} (call : qcall X) :
  call_ok c q call -> Inv c q -> Inv c (snd (spec_call c call q)).
Proof.
  intros Hok Hi id. destruct (decide (touches q call = Some id)) as [Ht|Ht].
  - by apply call_local.
  - eapply same_at_local; [by apply call_frame|apply Hi].
Qed.

Lemma expire_job_inv q id : Inv c q -> Inv c (expire_job id q).
Proof.
  intros Hi x. specialize (Hi x). unfold local_inv in *. simpl.
  destruct (decide (id = x)) as [->|Hne].
  - rewrite lookup_delete_eq. by destruct Hi.
  - by rewrite lookup_delete_ne.
Qed.

Lemma step_inv P q q' : Inv c q -> step_if c P q q' -> Inv c q'.
Proof.
  intros Hi []; [by apply call_inv|by apply expire_job_inv|exact Hi].
Qed.

Lemma empty_inv : Inv c empty_queue.
Proof. intros id. split; [simpl; lia|]. simpl. by rewrite lookup_empty. Qed.

Lemma steps_inv P q q' : Inv c q -> rtc (step_if c P) q q' -> Inv c q'.
Proof. intros Hi Hs. induction Hs; eauto using step_inv. Qed.

(** ** One place per id, when reapers do not race *)

Lemma complete_once q id w res now :
  local_inv c q id -> once c q id -> once c (snd (Spec.complete id w res now q)) id.
Proof.
  intros Hi Ho. unfold Spec.complete. destruct (jobs q !! id) as [j|] eqn:Hj; [|done].
  destruct (owned j w now && _); [|done]. see. lia.
Qed.

Lemma finish_once q id w st error now :
  once c q id -> once c (snd (Spec.finish id w st error now q)) id.
Proof.
  intros Ho. unfold Spec.finish. destruct (jobs q !! id) as [j|] eqn:Hj; [|done].
  destruct (owned j w now); [|done]. case_decide; see; lia.
Qed.

Lemma retry_once q id w error now next :
  local_inv c q id -> once c q id ->
  once c (snd (Spec.retry_later (max_attempts c) id w error now next q)) id.
Proof.
  intros Hi Ho. unfold Spec.retry_later. destruct (jobs q !! id) as [j|] eqn:Hj; [|done].
  destruct (owned j w now) eqn:Hw; [|done]. apply owned_spec in Hw as (Hst & _ & _).
  unfold local_inv in Hi. rewrite Hj in Hi.
  destruct (_ <=? _); see; rewrite Hst in Hi; destruct (retry q !! id); close.
Qed.

Lemma reap_once q id l now next shard :
  own_shard q id shard -> undisturbed q (Reap id l now next shard) ->
  local_inv c q id -> once c q id ->
  once c (snd (Spec.reap (max_attempts c) id l now next shard q)) id.
Proof.
  intros Hs Hu Hi Ho. pose proof Ho as Ho0. unfold Spec.reap. unfold local_inv in Hi.
  cbn [undisturbed] in Hu.
  destruct (jobs q !! id) as [j|] eqn:Hj; [|clear Ho0; see; destruct (retry q !! id); lia].
  specialize (Hs j Hj) as ->. assert (Hlt : (j_shard j < affinity_shards c)%nat) by apply Hi.
  destruct (decide (j_status j = QUEUED)) as [Hq|Hq].
  { specialize (Hu Hq). apply count_elem_of in Hu. clear Ho0. see. destruct (retry q !! id); lia. }
  destruct (decide (j_status j <> RUNNING)) as [Hr|Hr]; [clear Ho0; see; destruct (retry q !! id); lia|].
  apply dec_stable in Hr. case_decide; [exact Ho0|]. clear Ho0.
  destruct (j_cancel j); [see; destruct (retry q !! id); lia|].
  destruct (_ <=? _); see; rewrite Hr in *; destruct (retry q !! id); close.
Qed.

Lemma promote_once q id now shard :
  own_shard q id shard -> local_inv c q id -> once c q id ->
  once c (snd (Spec.promote id now shard q)) id.
Proof.
  intros Hs Hi Ho. pose proof Ho as Ho0. unfold Spec.promote. unfold local_inv in Hi.
  destruct (jobs q !! id) as [j|] eqn:Hj; [|clear Ho0; see; destruct (retry q !! id); lia].
  specialize (Hs j Hj) as ->. assert (Hlt : (j_shard j < affinity_shards c)%nat) by apply Hi.
  case_decide; [clear Ho0; see; destruct (retry q !! id); lia|].
  destruct (retry q !! id) as [k|] eqn:Hk; [|exact Ho0].
  destruct (now <? k); [exact Ho0|]. clear Ho0. see. rewrite Hk in *. lia.
Qed.

Lemma cancel_once q id shard now :
  own_shard q id shard -> local_inv c q id -> once c q id ->
  once c (snd (Spec.cancel id shard now q)) id.
Proof.
  intros Hs Hi Ho. unfold Spec.cancel. pose proof Ho as Ho0. unfold local_inv in Hi.
  destruct (jobs q !! id) as [j|] eqn:Hj; [|done].
  specialize (Hs j Hj) as ->. assert (Hlt : (j_shard j < affinity_shards c)%nat) by apply Hi.
  destruct (j_status j) eqn:Hst; try exact Ho0; clear Ho0; see;
    destruct (retry q !! id); lia.
Qed.

Lemma enqueue_once q ikey hash request shard now id :
  (shard < affinity_shards c)%nat -> fresh c q id -> once c q id ->
  once c (snd (Spec.enqueue c ikey hash request shard now id q)) id.
Proof.
  intros Hlt (Hj & Hp & Hd) Ho. unfold Spec.enqueue.
  assert (Hnew : once c (push_pend shard id (set_job id (new_job request shard now) q)) id)
    by (see; destruct (retry q !! id); lia).
  destruct (ikey ≫= _) as [[h e]|]; [by case_decide|].
  destruct (_ <=? _); [done|]. by destruct ikey.
Qed.

Lemma pop_once q shard id :
  (shard < affinity_shards c)%nat -> touches q (Pop shard) = Some id ->
  once c q id -> once c (snd (Spec.pop shard q)) id.
Proof.
  intros Hlt Ht Ho. unfold touches in Ht. unfold Spec.pop.
  destruct (rpop (pend q shard)) as [[x rest]|] eqn:E; [|done].
  injection Ht as ->. pose proof (count_rpop id _ _ _ E) as Ec.
  rewrite decide_True in Ec by done.
  pose proof (pend_count_set_pend c shard rest q id Hlt) as Ep. see. lia.
Qed.

Lemma call_once q {X} (call : qcall X) id :
  call_ok c q call -> undisturbed q call -> local_inv c q id ->
  once c q id -> once c (snd (spec_call c call q)) id.
Proof.
  intros Hok Hu Hi Ho. destruct (decide (touches q call = Some id)) as [Ht|Ht].
  2: { eapply same_at_once; [by apply call_frame|done]. }
  destruct call; cbn [touches] in Ht; try discriminate Ht;
    try injection Ht as <-; cbn [spec_call call_ok] in *.
  - destruct Hok. by apply enqueue_once.
  - unfold Spec.claim. destruct (jobs q !! _); [|done]. by case_decide.
  - unfold Spec.heartbeat. destruct (jobs q !! _); [|done]. by destruct (owned _ _ _).
  - by apply complete_once.
  - by apply finish_once.
  - by apply retry_once.
  - by apply reap_once.
  - by apply promote_once.
  - by apply cancel_once.
  - by apply pop_once.
Qed.

Lemma undisturbed_or_late q {X} (call : qcall X) id :
  touches q call = Some id -> undisturbed q call \/ late_reap q call id.
Proof.
  intros Ht. destruct call; try (by left). simpl in Ht. injection Ht as ->. cbn.
  destruct (jobs q !! id) as [j|] eqn:Hj; [|by left].
  destruct (decide (id ∈ processing q)); [by left|].
  destruct (decide (j_status j = QUEUED)); [right; eauto|by left].
Qed.

Lemma calm_steps_once q :
  calmly_reachable c q -> Inv c q /\ forall id, once c q id.
Proof.
  intros Hr. unfold calmly_reachable in Hr.
  cut (forall q0, rtc (calm_step c) q0 q -> (Inv c q0 /\ forall id, once c q0 id) ->
                 Inv c q /\ forall id, once c q id).
  { intros Hcut. apply (Hcut empty_queue Hr). split; [apply empty_inv|]. intros id.
    unfold once, places, pend_count, retry_count. simpl. rewrite lookup_empty.
    induction (seq 0 (affinity_shards c)); [simpl; lia|]. by rewrite fmap_cons. }
  clear Hr. intros q0 Hs. induction Hs as [|q1 q2 q3 Hstep _ IH]; [done|].
  intros [Hi Ho]. apply IH. split; [by eapply step_inv|]. intros id.
  destruct Hstep as [X call Hok Hu|x|d]; [by apply call_once|apply (Ho id)..].
Qed.
End preserve.
