(* ===== verification/QueueLife.v ===== *)
(** * The life of one job

    What a step may do to a job record: the status graph, the fields that never
    change, the attempt counter, who can own it.  Along whole runs this gives
    fencing (a worker that lost its job cannot complete, publish, renew, fail or
    retry it), finality of terminal records, a bound on the queue's depth, and
    recovery: whatever happened, another worker can take a live job over. *)

From S2P Require Import Prelude Valkey Models QueueState QueueInv.

(** ** One step *)

(** README.md draws these edges, but for the two cancellations outside a worker. *)
Definition transition (a b : JobStatus) : bool :=
  match a, b with
  | QUEUED, (RUNNING | CANCELLED) => true
  | RUNNING, (SUCCEEDED | FAILED | CANCELLED | RETRYING) => true
  | RETRYING, (QUEUED | CANCELLED) => true
  | _, _ => bool_decide (a = b)
  end.

Record job_step (j j' : job) : Prop := {
  js_status : transition (j_status j) (j_status j') = true;
  js_request : j_request j' = j_request j;
  js_shard : j_shard j' = j_shard j;
  js_created : j_created j' = j_created j;
  js_attempts : j_attempts j'
    = j_attempts j + (if decide (j_status j = QUEUED /\ j_status j' = RUNNING) then 1 else 0);
  js_final : terminal (j_status j) = true -> j' = j;
  js_result : j_result j' <> j_result j -> j_status j' = SUCCEEDED;
  js_owner : j_status j' = RUNNING ->
    j_status j = QUEUED \/ j_status j = RUNNING /\ j_worker j' = j_worker j;
}.

Lemma job_step_refl j : job_step j j.
Proof.
  split; try done; auto.
  - by destruct (j_status j).
  - rewrite decide_False by (intros [-> ?]; done). lia.
Qed.

(** Each update of a record is such a step, where its guard holds. *)
Ltac record_step :=
  auto; try done; rewrite ?decide_True, ?decide_False by (done || intros []; congruence); lia.

Lemma step_claimed j w lease now : j_status j = QUEUED -> job_step j (claimed w lease now j).
Proof. intros H. split; simpl; rewrite ?H; record_step. Qed.

Lemma step_renewed j lease now : j_status j = RUNNING -> job_step j (renewed lease now j).
Proof. intros H. split; simpl; rewrite ?H; record_step. Qed.

Lemma step_succeeded j res now : j_status j = RUNNING -> job_step j (succeeded res now j).
Proof. intros H. split; simpl; rewrite ?H; record_step. Qed.

Lemma step_with_status j st e now :
  j_status j = RUNNING -> st = FAILED \/ st = CANCELLED \/ st = RETRYING ->
  job_step j (with_status st e now j).
Proof. intros H [-> | [-> | ->]]; split; simpl; rewrite ?H; record_step. Qed.

Lemma step_with_next j j' next : j_status j = RUNNING -> job_step j j' -> job_step j (with_next next j').
Proof. intros H []. split; simpl; auto. rewrite H. done. Qed.

Lemma step_requeued j now : j_status j = RETRYING -> job_step j (requeued now j).
Proof. intros H. split; simpl; rewrite ?H; record_step. Qed.

Lemma step_cancelled_now j now :
  j_status j = QUEUED \/ j_status j = RETRYING -> job_step j (cancelled_now now j).
Proof. intros [H|H]; split; simpl; rewrite ?H; record_step. Qed.

Lemma step_cancel_flagged j now : j_status j = RUNNING -> job_step j (cancel_flagged now j).
Proof. intros H. split; simpl; rewrite ?H; record_step. Qed.

#[export] Hint Resolve job_step_refl step_claimed step_renewed step_succeeded step_with_status
  step_with_next step_requeued step_cancelled_now step_cancel_flagged : dalmatian.

(** The calls that start an attempt of [id], as worker [w]. *)
Definition is_claim {X} (call : qcall X) (id w : string) : bool :=
  match call with Claim id' w' _ _ => bool_decide (id' = id /\ w' = w) | _ => false end.

Definition is_enqueue {X} (call : qcall X) (id : string) : bool :=
  match call with Enqueue _ _ _ _ _ id' => bool_decide (id' = id) | _ => false end.

(** The worker a call speaks for. *)
Definition speaks_for {X} (call : qcall X) : option string :=
  match call with
  | Publish _ w _ _ _ _ _ _ | Claim _ w _ _ | Heartbeat _ w _ _ | Complete _ w _ _
  | Finish _ w _ _ _ | RetryLater _ w _ _ _ => Some w
  | _ => None
  end.

Definition holds (q : qstate) (id w : string) : Prop :=
  exists j, jobs q !! id = Some j /\ j_status j = RUNNING /\ j_worker j = w.

Section life.
Context (c : queue_cfg).
Implicit Types (q : qstate) (id w : string).

(** What a call leaves of a job. *)
Definition job_after q (id : string) (j : job) (started : string -> bool) (q' : qstate) : Prop :=
  exists j', jobs q' !! id = Some j' /\ job_step j j'
    /\ (j_status j = QUEUED -> j_status j' = RUNNING -> started (j_worker j') = true).

Lemma job_after_same q id j f q' :
  jobs q !! id = Some j -> jobs q' !! id = jobs q !! id -> job_after q id j f q'.
Proof.
  intros Hj E. exists j. rewrite E. split; [done|]. split; [apply job_step_refl|congruence].
Qed.

Lemma job_after_set q id j j' f q' :
  jobs q' = <[id := j']> (jobs q) -> job_step j j' ->
  (j_status j = QUEUED -> j_status j' = RUNNING -> f (j_worker j') = true) ->
  job_after q id j f q'.
Proof. intros E Hs Hf. exists j'. rewrite E, lookup_insert_eq. auto. Qed.

Ltac same := apply job_after_same; [assumption|reflexivity].
Ltac updated := eapply job_after_set; [reflexivity|auto 6 with dalmatian|simpl; congruence].

Lemma worker_call_step q {X} (call : qcall X) id j :
  jobs q !! id = Some j -> touches q call = Some id -> is_Some (speaks_for call) ->
  call_ok c q call -> job_after q id j (is_claim call id) (snd (spec_call c call q)).
Proof.
  intros Hj Ht Hw Hok. destruct call; cbn [touches speaks_for] in *; try by destruct Hw.
  all: try injection Ht as ->; try discriminate Ht; cbn [spec_call call_ok] in *.
  - unfold Spec.claim. rewrite Hj. case_decide as Hd; [|same]. destruct Hd as [_ Hst].
    eapply job_after_set; [reflexivity|auto with dalmatian|]. intros _ _. simpl.
    by rewrite bool_decide_true.
  - unfold Spec.heartbeat. rewrite Hj. destruct (owned j w now) eqn:Ho; [|same].
    apply owned_spec in Ho as (Hst & _). updated.
  - unfold Spec.complete. rewrite Hj. destruct (owned j w now) eqn:Ho; [|same].
    apply owned_spec in Ho as (Hst & _). destruct (j_cancel j); [same|updated].
  - unfold Spec.finish. rewrite Hj. destruct (owned j w now) eqn:Ho; [|same].
    apply owned_spec in Ho as (Hst & _). case_decide; subst; [updated|].
    destruct Hok as [-> | ->]; [done|updated].
  - unfold Spec.retry_later. rewrite Hj. destruct (owned j w now) eqn:Ho; [|same].
    apply owned_spec in Ho as (Hst & _). destruct (_ <=? _); updated.
Qed.

Lemma other_call_step q {X} (call : qcall X) id j :
  jobs q !! id = Some j -> touches q call = Some id -> speaks_for call = None ->
  call_ok c q call -> job_after q id j (is_claim call id) (snd (spec_call c call q)).
Proof.
  intros Hj Ht Hw Hok. destruct call; cbn [touches speaks_for] in *; try discriminate.
  all: try injection Ht as ->; cbn [spec_call call_ok] in *.
  - destruct Hok as (_ & Hn & _). congruence.
  - unfold Spec.reap. rewrite Hj. case_decide; [same|]. case_decide as Hst; [same|].
    case_decide; [same|].
    destruct (j_cancel j); [updated|]. destruct (_ <=? _); updated.
  - unfold Spec.promote. rewrite Hj. case_decide as Hst; [same|].
    destruct (retry q !! id); [|same]. destruct (now <? _); [same|updated].
  - unfold Spec.cancel. rewrite Hj. destruct (j_status j) eqn:Hst; (same || updated).
  - apply job_after_same; [done|]. unfold Spec.pop. by destruct (rpop _) as [[]|].
Qed.

Lemma call_job_step q {X} (call : qcall X) id j :
  call_ok c q call -> jobs q !! id = Some j ->
  job_after q id j (is_claim call id) (snd (spec_call c call q)).
Proof.
  intros Hok Hj. destruct (decide (touches q call = Some id)) as [Ht|Ht].
  - destruct (speaks_for call) eqn:Hw; [apply worker_call_step|apply other_call_step]; eauto.
  - apply job_after_same; [done|]. apply (sa_job _ _ _ (call_frame c q call id Ht)).
Qed.

Lemma absent_call q {X} (call : qcall X) id :
  jobs q !! id = None ->
  match jobs (snd (spec_call c call q)) !! id with
  | Some j => is_enqueue call id = true /\ j_status j = QUEUED
  | None => True
  end.
Proof.
  intros Hn. destruct (decide (touches q call = Some id)) as [Ht|Ht].
  2: by rewrite (sa_job _ _ _ (call_frame c q call id Ht)), Hn.
  destruct call; cbn [touches spec_call is_enqueue] in *; try discriminate Ht;
    try injection Ht as ->;
    unfold Spec.claim, Spec.heartbeat, Spec.complete, Spec.finish, Spec.retry_later,
      Spec.reap, Spec.promote, Spec.cancel; try rewrite Hn; simpl; rewrite ?Hn; try done.
  - unfold Spec.enqueue.
    destruct (ikey ≫= _) as [[h e]|]; [by case_decide; simpl; rewrite Hn|].
    destruct (_ <=? _); simpl; [by rewrite Hn|].
    assert (forall q', jobs (match ikey with Some d => set_idem d (hash, id) q' | None => q' end)
                       = jobs q') as -> by (by destruct ikey).
    simpl. rewrite lookup_insert_eq. by rewrite bool_decide_true.
  - unfold Spec.pop. destruct (rpop _) as [[]|]; simpl; by rewrite Hn.
Qed.

(** ** Runs *)

Lemma step_record P q q' id j :
  step_if c P q q' -> jobs q !! id = Some j ->
  match jobs q' !! id with Some j' => job_step j j' | None => True end.
Proof.
  intros [X call Hok _|x|d] Hj; simpl.
  - destruct (call_job_step q call id j Hok Hj) as (j' & -> & Hs & _). done.
  - rewrite lookup_delete. case_decide; [done|]. rewrite Hj. apply job_step_refl.
  - rewrite Hj. apply job_step_refl.
Qed.

Definition never_enqueued (id : string) : forall q X, qcall X -> Prop :=
  fun _ _ call => is_enqueue call id = false.

Lemma absent_stays q q' id :
  rtc (step_if c (never_enqueued id)) q q' -> jobs q !! id = None -> jobs q' !! id = None.
Proof.
  intros Hs. induction Hs as [|q1 q2 q3 Hstep _ IH]; [done|]. intros Hn. apply IH.
  destruct Hstep as [X call Hok Hne|x|d]; simpl; [|by rewrite lookup_delete, Hn; case_decide|done].
  pose proof (absent_call q1 call id Hn) as Ha. unfold never_enqueued in Hne.
  destruct (jobs _ !! id); [|done]. destruct Ha. congruence.
Qed.

Lemma final_stays q q' id j :
  rtc (step_if c (never_enqueued id)) q q' ->
  jobs q !! id = Some j -> terminal (j_status j) = true ->
  jobs q' !! id = Some j \/ jobs q' !! id = None.
Proof.
  intros Hs. induction Hs as [|q1 q2 q3 Hstep Hrest IH]; [by left|]. intros Hj Ht.
  pose proof (step_record _ _ _ _ _ Hstep Hj) as Hr.
  destruct (jobs q2 !! id) as [j2|] eqn:Hj2.
  - assert (j2 = j) as -> by (by apply (js_final _ _ Hr)). by apply IH.
  - right. by eapply absent_stays.
Qed.

(** The fields no step changes, and the counter that only grows. *)
Record evolves (j j' : job) : Prop := {
  ev_request : j_request j' = j_request j;
  ev_shard : j_shard j' = j_shard j;
  ev_created : j_created j' = j_created j;
  ev_attempts : j_attempts j <= j_attempts j';
}.

#[global] Instance evolves_preorder : PreOrder evolves.
Proof.
  split; [by intros j; split|]. intros j1 j2 j3 [] []. split; congruence || lia.
Qed.

Lemma job_step_evolves j j' : job_step j j' -> evolves j j'.
Proof. intros []. split; auto. rewrite js_attempts0. case_decide; lia. Qed.

Lemma run_evolves q q' id j j' :
  rtc (step_if c (never_enqueued id)) q q' ->
  jobs q !! id = Some j -> jobs q' !! id = Some j' -> evolves j j'.
Proof.
  intros Hs. revert j. induction Hs as [|q1 q2 q3 Hstep Hrest IH]; intros j Hj Hj'.
  { replace j' with j by congruence. reflexivity. }
  pose proof (step_record _ _ _ _ _ Hstep Hj) as Hr.
  destruct (jobs q2 !! id) as [j2|] eqn:Hj2.
  - transitivity j2; [by apply job_step_evolves|by apply IH].
  - exfalso. pose proof (absent_stays _ _ _ Hrest Hj2). congruence.
Qed.

(** ** Fencing *)

Definition never_claimed (id w : string) : forall q X, qcall X -> Prop :=
  fun _ _ call => is_claim call id w = false.

Lemma lost_step q q' id w :
  step_if c (never_claimed id w) q q' -> ~ holds q id w -> ~ holds q' id w.
Proof.
  intros [X call Hok Hc|x|d] Hn (j' & Hj' & Hst & Hw); [|apply Hn..].
  - destruct (jobs q !! id) as [j|] eqn:Hj.
    + destruct (call_job_step q call id j Hok Hj) as (j2 & Hj2 & Hs & Hcl).
      assert (j2 = j') as -> by congruence. subst w.
      destruct (js_owner _ _ Hs Hst) as [Hq|[Hr Hw]].
      * unfold never_claimed in Hc. rewrite (Hcl Hq Hst) in Hc. done.
      * apply Hn. exists j. auto.
    + pose proof (absent_call q call id Hj) as Ha. rewrite Hj' in Ha. destruct Ha. congruence.
  - simpl in Hj'. rewrite lookup_delete in Hj'. case_decide; [done|]. exists j'. auto.
  - exists j'. auto.
Qed.

Lemma lost_stays q q' id w :
  rtc (step_if c (never_claimed id w)) q q' -> ~ holds q id w -> ~ holds q' id w.
Proof. induction 1; eauto using lost_step. Qed.

Lemma not_held_owned q id w j now :
  ~ holds q id w -> jobs q !! id = Some j -> owned j w now = false.
Proof.
  intros Hn Hj. apply not_true_is_false. intros (Hst & Hw & _)%owned_spec.
  apply Hn. exists j. auto.
Qed.

(** Every call a worker makes about a job it does not hold is refused, and
    changes nothing. *)
Record refused q (id w : string) : Prop := {
  rf_complete res now : Spec.complete id w res now q = (0, q);
  rf_heartbeat lease now : Spec.heartbeat id w lease now q = (0, q);
  rf_finish st e now : Spec.finish id w st e now q = (0, q);
  rf_retry max e now next : Spec.retry_later max id w e now next q = (0, q);
  rf_publish key n mode aid uri now : Spec.publish key w n mode id aid uri now q = (-1, q);
}.

Lemma not_held_refused q id w : ~ holds q id w -> refused q id w.
Proof.
  intros Hn. destruct (jobs q !! id) as [j|] eqn:Hj.
  - split; intros; unfold Spec.complete, Spec.heartbeat, Spec.finish, Spec.retry_later,
      Spec.publish; rewrite Hj, (not_held_owned q id w j) by done; done.
  - split; intros; unfold Spec.complete, Spec.heartbeat, Spec.finish, Spec.retry_later,
      Spec.publish; by rewrite Hj.
Qed.
End life.
