(* ===== verification/QueueFlow.v ===== *)
(** * How much the queue holds, and how a job gets out of it

    The admission test of the enqueue script bounds the depth of every state
    that undisturbed reapers lead to.  [recovery] is the other direction: from
    any reachable state, and with no help from the worker that holds it, a live
    job reaches a terminal status or an attempt of a worker of our choice. *)

From S2P Require Import Prelude Valkey Models QueueState QueueInv QueueLife.

(** ** Depth *)

Section depth.
Context (c : queue_cfg) (Hc : queue_cfg_ok c).
Implicit Types (q : qstate) (id : string).

Definition waiting q : nat :=
  foldr Nat.add 0%nat ((fun i => length (pend q i)) <$> seq 0 (affinity_shards c)).
Definition total q : nat := (length (processing q) + size (retry q) + waiting q)%nat.

Lemma depth_total q : depth_of (affinity_shards c) q = Z.of_nat (total q).
Proof.
  unfold depth_of, total, waiting. rewrite !Nat2Z.inj_add. f_equal.
  induction (seq 0 (affinity_shards c)) as [|i l IH]; [done|].
  rewrite !fmap_cons. cbn [foldr]. rewrite IH. lia.
Qed.

Lemma waiting_set_pend i l q :
  (i < affinity_shards c)%nat ->
  (waiting (set_pend i l q) + length (pend q i) = waiting q + length l)%nat.
Proof.
  intros Hi. unfold waiting.
  replace (length l) with (length (pend (set_pend i l q) i))
    by (by rewrite pend_set_pend, decide_True).
  apply (sum_update (fun k => length (pend q k)) (fun k => length (pend (set_pend i l q) k))).
  - apply NoDup_seq.
  - apply elem_of_seq. lia.
  - intros k Hk. by rewrite pend_set_pend, decide_False.
Qed.

Lemma waiting_push i id q :
  (i < affinity_shards c)%nat -> waiting (push_pend i id q) = S (waiting q).
Proof.
  intros Hi. pose proof (waiting_set_pend i (id :: pend q i) q Hi) as E.
  unfold push_pend. simpl in E. lia.
Qed.

Lemma waiting_rem i id q :
  (i < affinity_shards c)%nat -> (waiting (rem_pend i id q) <= waiting q)%nat.
Proof.
  intros Hi. pose proof (waiting_set_pend i (remove_first id (pend q i)) q Hi) as E.
  rewrite length_remove_first in E. unfold rem_pend. lia.
Qed.

(** A view of [total] for each primitive update. *)
Lemma total_rem_processing id q :
  total (rem_processing id q) = (total q - Nat.min 1 (count id (processing q)))%nat.
Proof.
  unfold total. cbn [rem_processing set_processing processing retry].
  change (waiting (rem_processing id q)) with (waiting q).
  rewrite length_remove_first.
  assert (Nat.min 1 (count id (processing q)) <= length (processing q))%nat; [|lia].
  destruct (processing q); [done|cbn [length]; lia].
Qed.

Lemma total_add_retry id k q :
  (total (add_retry id k q) <= S (total q))%nat.
Proof.
  unfold total. cbn [add_retry set_retry processing retry].
  change (waiting (add_retry id k q)) with (waiting q).
  rewrite map_size_insert. destruct (retry q !! id); simpl; lia.
Qed.

Lemma total_rem_retry id q :
  total (rem_retry id q) = (total q - match retry q !! id with Some _ => 1 | None => 0 end)%nat.
Proof.
  unfold total. cbn [rem_retry set_retry processing retry].
  change (waiting (rem_retry id q)) with (waiting q).
  rewrite map_size_delete. destruct (retry q !! id) as [k|] eqn:E; simpl; [|lia].
  assert (size (retry q) <> 0)%nat; [|lia].
  intros E0%map_size_empty_iff. rewrite E0, lookup_empty in E. done.
Qed.

Lemma total_push i id q :
  (i < affinity_shards c)%nat -> total (push_pend i id q) = S (total q).
Proof.
  intros Hi. unfold total. cbn [push_pend set_pend processing retry].
  change (set_pend i (id :: pend q i) q) with (push_pend i id q).
  rewrite waiting_push by done. lia.
Qed.

Lemma total_rem_pend i id q :
  (i < affinity_shards c)%nat -> (total (rem_pend i id q) <= total q)%nat.
Proof.
  intros Hi. unfold total. cbn [rem_pend set_pend processing retry].
  change (set_pend i (remove_first id (pend q i)) q) with (rem_pend i id q).
  pose proof (waiting_rem i id q Hi). lia.
Qed.

Lemma total_pop i q :
  (i < affinity_shards c)%nat -> total (snd (Spec.pop i q)) = total q.
Proof.
  intros Hi. unfold Spec.pop. destruct (rpop (pend q i)) as [[x r]|] eqn:E; [|done].
  unfold total. cbn [snd set_processing processing retry set_pend length].
  change (waiting (set_processing _ (set_pend i r q))) with (waiting (set_pend i r q)).
  pose proof (waiting_set_pend i r q Hi) as Ew.
  apply rpop_Some in E. rewrite E, length_app in Ew. simpl in Ew. lia.
Qed.

Lemma total_same q q' :
  processing q' = processing q -> retry q' = retry q -> pending q' = pending q ->
  total q' = total q.
Proof.
  intros E1 E2 E3. unfold total, waiting. rewrite E1, E2. f_equal.
  f_equal. apply list_fmap_ext. intros. unfold pend. by rewrite E3.
Qed.

Lemma held_listed q id j :
  Inv c q -> jobs q !! id = Some j -> j_status j = RUNNING ->
  (1 <= count id (processing q))%nat.
Proof.
  intros Hi Hj Hst. destruct (Hi id) as [_ Hi']. rewrite Hj in Hi'.
  destruct Hi' as (_ & _ & Hs & _). unfold status_ok in Hs. rewrite Hst in Hs. apply Hs.
Qed.

Lemma nonempty_total q id :
  (1 <= count id (processing q))%nat \/ is_Some (retry q !! id) -> (1 <= total q)%nat.
Proof.
  unfold total. intros [Hp|[k Hr]].
  - destruct (processing q); [simpl in Hp; lia|cbn [length]; lia].
  - assert (size (retry q) <> 0)%nat; [|lia].
    intros E0%map_size_empty_iff. rewrite E0, lookup_empty in Hr. done.
Qed.

(** [set_job] and [push_dead] do not show in the depth. *)
Lemma total_set_job id j q : total (set_job id j q) = total q.
Proof. reflexivity. Qed.
Lemma total_push_dead id q : total (push_dead id q) = total q.
Proof. reflexivity. Qed.

Lemma retry_total q id w error now next :
  Inv c q ->
  (total (snd (Spec.retry_later (max_attempts c) id w error now next q)) <= total q)%nat.
Proof.
  intros Hi. unfold Spec.retry_later. destruct (jobs q !! id) as [j|] eqn:Hj; [|done].
  destruct (owned j w now) eqn:Ho; [|done]. apply owned_spec in Ho as (Hst & _).
  pose proof (held_listed q id j Hi Hj Hst) as Hl.
  pose proof (nonempty_total q id (or_introl Hl)). pose proof (total_rem_processing id q) as Er.
  destruct (_ <=? _); cbn [snd]; rewrite ?total_push_dead, ?total_set_job; [lia|].
  etrans; [apply total_add_retry|]. rewrite total_set_job. lia.
Qed.

Lemma reap_total q id l now next shard :
  Inv c q -> own_shard q id shard -> undisturbed q (Reap id l now next shard) ->
  (total (snd (Spec.reap (max_attempts c) id l now next shard q)) <= total q)%nat.
Proof.
  intros Hi Hok Hu. unfold Spec.reap. pose proof (total_rem_processing id q) as Er.
  cbn [undisturbed] in Hu.
  destruct (jobs q !! id) as [j|] eqn:Hj; [|simpl; lia].
  pose proof (Hok j Hj) as ->. destruct (Hi id) as [_ Hij]. rewrite Hj in Hij.
  destruct Hij as (Hlt & _ & _ & _). pose proof (nonempty_total q id) as Hone.
  case_decide as Hq.
  { simpl. rewrite total_push by done. specialize (Hu Hq). apply count_elem_of in Hu. lia. }
  case_decide as Hst; [simpl; lia|]. case_decide; [done|].
  pose proof (held_listed q id j Hi Hj Hst) as Hl.
  destruct (j_cancel j); [simpl; rewrite total_set_job; lia|].
  destruct (_ <=? _); cbn [snd]; rewrite ?total_push_dead, ?total_set_job; [lia|].
  etrans; [apply total_add_retry|]. rewrite total_set_job. lia.
Qed.

Lemma promote_total q id now shard :
  Inv c q -> own_shard q id shard ->
  (total (snd (Spec.promote id now shard q)) <= total q)%nat.
Proof.
  intros Hi Hok. unfold Spec.promote. pose proof (total_rem_retry id q) as Er.
  destruct (jobs q !! id) as [j|] eqn:Hj; [|simpl; lia].
  pose proof (Hok j Hj) as ->. destruct (Hi id) as [_ Hij]. rewrite Hj in Hij.
  destruct Hij as (Hlt & _ & _ & _).
  case_decide; [simpl; lia|]. destruct (retry q !! id) eqn:Hr; [|done].
  destruct (now <? _); [done|]. simpl. rewrite total_push, total_set_job by done.
  assert (1 <= total q)%nat by (apply (nonempty_total q id); rewrite Hr; eauto). lia.
Qed.

Lemma cancel_total q id shard now :
  Inv c q -> own_shard q id shard -> (total (snd (Spec.cancel id shard now q)) <= total q)%nat.
Proof.
  intros Hi Hok. unfold Spec.cancel. destruct (jobs q !! id) as [j|] eqn:Hj; [|done].
  pose proof (Hok j Hj) as ->. destruct (Hi id) as [_ Hij]. rewrite Hj in Hij.
  destruct Hij as (Hlt & _ & _ & _).
  destruct (j_status j); try done; simpl; rewrite total_set_job;
    [by apply total_rem_pend|rewrite total_rem_retry; lia].
Qed.

(** What a call that admits no job leaves in the queue. *)
Lemma call_total q {X} (call : qcall X) :
  Inv c q -> call_ok c q call -> undisturbed q call ->
  match call with Enqueue _ _ _ _ _ _ => False | _ => True end ->
  (total (snd (spec_call c call q)) <= total q)%nat.
Proof.
  intros Hi Hok Hu He. destruct call; try done; cbn [spec_call call_ok] in *; try done.
  - unfold Spec.publish. repeat case_match; simpl; done.
  - unfold Spec.claim. repeat case_match; simpl; done.
  - unfold Spec.heartbeat. repeat case_match; simpl; done.
  - unfold Spec.complete. repeat case_match; try done. simpl.
    rewrite total_rem_processing, total_set_job. lia.
  - unfold Spec.finish. repeat case_match; try done; simpl; rewrite ?total_push_dead;
      rewrite total_rem_processing, total_set_job; lia.
  - by apply retry_total.
  - by apply reap_total.
  - by apply promote_total.
  - by apply cancel_total.
  - by rewrite total_pop.
Qed.

Lemma enqueue_total q ikey hash request shard now id :
  (shard < affinity_shards c)%nat ->
  let q' := snd (Spec.enqueue c ikey hash request shard now id q) in
  total q' = total q
  \/ Z.of_nat (total q) < max_queue_depth c /\ total q' = S (total q).
Proof.
  intros Hlt. unfold Spec.enqueue. destruct (ikey ≫= _) as [[h e]|]; [left; by case_decide|].
  rewrite depth_total. destruct (Z.leb_spec (max_queue_depth c) (Z.of_nat (total q))); [by left|].
  right. split; [done|]. destruct ikey as [d|]; simpl.
  - rewrite (total_same (push_pend shard id (set_job id (new_job request shard now) q))) by done.
    by rewrite total_push.
  - by rewrite total_push.
Qed.

(** A reap that comes late adds a place for the id, and nothing else does. *)
Lemma late_reap_adds q {X} (call : qcall X) id :
  Inv c q -> call_ok c q call -> late_reap q call id ->
  (1 <= places c q id)%nat
  /\ places c (snd (spec_call c call q)) id = S (places c q id)
  /\ total (snd (spec_call c call q)) = S (total q).
Proof.
  intros Hi Hok Hl. destruct call; try done. destruct Hl as (-> & Hn & j & Hj & Hst).
  cbn [spec_call call_ok] in *. specialize (Hok j Hj) as ->.
  destruct (Hi id) as [_ Hij]. rewrite Hj in Hij. destruct Hij as (Hlt & _ & Hs & _).
  unfold status_ok in Hs. rewrite Hst in Hs.
  assert (Hz : count id (processing q) = 0%nat) by (by apply count_zero).
  unfold Spec.reap. rewrite Hj, decide_True by done. cbn [snd].
  rewrite total_push, total_rem_processing by done.
  split; [pose proof (pend_count_le c (j_shard j) q id Hlt); unfold places in *; lia|].
  split; [|lia]. unfold places, retry_count.
  rewrite pend_count_push, pend_count_rem_processing by done.
  cbn [push_pend set_pend rem_processing set_processing processing retry].
  rewrite count_remove_first, decide_True by done. lia.
Qed.

Lemma once_or_late q {X} (call : qcall X) id :
  Inv c q -> call_ok c q call -> (places c q id <= 1)%nat ->
  (1 < places c (snd (spec_call c call q)) id)%nat <-> late_reap q call id.
Proof.
  intros Hi Hok Ho. split.
  - intros Hd. destruct (decide (touches q call = Some id)) as [Ht|Ht].
    + destruct (undisturbed_or_late q call id Ht) as [Hu|Hl]; [|done].
      pose proof (call_once c q call id Hok Hu (Hi id) Ho) as Ho'. unfold once in Ho'. lia.
    + pose proof (same_at_once c _ _ _ (call_frame c q call id Ht) Ho) as Ho'.
      unfold once in Ho'. lia.
  - intros Hl. destruct (late_reap_adds q call id Hi Hok Hl) as (Hp & -> & _). lia.
Qed.

Lemma total_empty : total empty_queue = 0%nat.
Proof.
  unfold total, waiting. cbn [empty_queue processing retry length]. rewrite map_size_empty.
  induction (seq 0 (affinity_shards c)) as [|i l IH]; [done|]. by rewrite fmap_cons.
Qed.

Lemma calm_depth q :
  calmly_reachable c q -> depth_of (affinity_shards c) q <= max_queue_depth c.
Proof.
  intros Hr. rewrite depth_total.
  cut (forall q0, rtc (calm_step c) q0 q -> Inv c q0 -> Z.of_nat (total q0) <= max_queue_depth c ->
         Z.of_nat (total q) <= max_queue_depth c).
  { intros Hcut. apply (Hcut empty_queue Hr); [by apply empty_inv|].
    rewrite total_empty. pose proof (cfg_depth _ Hc). lia. }
  clear Hr. intros q0 Hs. induction Hs as [|q1 q2 q3 Hstep _ IH]; [done|].
  intros Hi Hle. apply IH; [by eapply step_inv|].
  destruct Hstep as [X call Hok Hu|x|d]; [|exact Hle..].
  pose proof (call_total q1 call Hi Hok Hu) as Hct.
  destruct call; try (specialize (Hct I); lia).
  cbn [spec_call call_ok] in *. destruct Hok as [Hlt _].
  pose proof (enqueue_total q1 ikey hash request shard now id Hlt) as He. cbn zeta in He. lia.
Qed.
End depth.

(** ** Recovery *)

(** Calls of one worker, and the reaper's and promoter's, which name none.  No
    cancellation and no new job. *)
Definition assisted_by (w : string) : forall (q : qstate) X, qcall X -> Prop :=
  fun _ _ call =>
    match call with
    | Cancel _ _ _ | Enqueue _ _ _ _ _ _ => False
    | _ => match speaks_for call with Some w' => w' = w | None => True end
    end.

Section recovery.
Context (c : queue_cfg) (Hc : queue_cfg_ok c) (w : string).
Implicit Types (q : qstate) (id : string).

Notation run := (rtc (step_if c (assisted_by w))).

Lemma one_call q {X} (call : qcall X) :
  call_ok c q call -> assisted_by w q X call -> run q (snd (spec_call c call q)).
Proof. intros. by apply rtc_once, step_call. Qed.

(** Popping the tail brings every id of a shard to the processing list. *)
Lemma pop_until q i id :
  (i < affinity_shards c)%nat -> id ∈ pend q i ->
  exists q', run q q' /\ id ∈ processing q' /\ jobs q' = jobs q.
Proof.
  intros Hi Hin. remember (length (pend q i)) as n eqn:Hn.
  revert q Hin Hn. induction n as [|n IH]; intros q Hin Hn.
  { by rewrite (nil_length_inv _ (eq_sym Hn)), elem_of_nil in Hin. }
  destruct (rpop (pend q i)) as [[x r]|] eqn:E.
  2: { apply rpop_None in E. rewrite E in Hn. done. }
  assert (Hp : run q (set_processing (x :: processing q) (set_pend i r q))).
  { pose proof (one_call q (Pop i) Hi I) as H. cbn [spec_call] in H. unfold Spec.pop in H.
    by rewrite E in H. }
  pose proof E as E'. apply rpop_Some in E'. rewrite E' in Hin, Hn.
  destruct (decide (x = id)) as [->|Hne].
  - eexists. split; [exact Hp|]. split; [by left|done].
  - apply elem_of_app in Hin as [Hin|Hin]; [|by apply list_elem_of_singleton in Hin].
    destruct (IH (set_processing (x :: processing q) (set_pend i r q))) as (q' & Hq & Hid & Hj).
    + by rewrite pend_set_processing, pend_set_pend, decide_True.
    + rewrite pend_set_processing, pend_set_pend, decide_True by done.
      rewrite length_app in Hn. simpl in Hn. lia.
    + exists q'. split; [by etrans|]. auto.
Qed.

(** The job is finished, or [w] runs it. *)
Definition resolved q id : Prop :=
  exists j, jobs q !! id = Some j
    /\ (terminal (j_status j) = true \/ j_status j = RUNNING /\ j_worker j = w).

Lemma queued_recovers q id j :
  Inv c q -> jobs q !! id = Some j -> j_status j = QUEUED ->
  exists q', run q q' /\ resolved q' id.
Proof.
  intros Hi Hj Hst. destruct (Hi id) as [_ Hij]. rewrite Hj in Hij.
  destruct Hij as (Hlt & _ & Hs & _). unfold status_ok in Hs. rewrite Hst in Hs.
  destruct Hs as (Hcount & _).
  assert (exists q1, run q q1 /\ id ∈ processing q1 /\ jobs q1 = jobs q) as (q1 & H1 & Hin & Ej).
  { destruct (decide (id ∈ processing q)) as [Hin|Hin]; [by exists q|].
    apply count_zero in Hin. apply (pop_until q (j_shard j)); [done|].
    apply count_elem_of. lia. }
  exists (snd (Spec.claim id w 1 0 q1)). split.
  - etrans; [exact H1|]. by apply (one_call q1 (Claim id w 1 0)).
  - unfold Spec.claim. rewrite Ej, Hj, decide_True by done.
    exists (claimed w 1 0 j). simpl. rewrite lookup_insert_eq. auto.
Qed.

Lemma retrying_recovers q id j :
  Inv c q -> jobs q !! id = Some j -> j_status j = RETRYING ->
  exists q', run q q' /\ resolved q' id.
Proof.
  intros Hi Hj Hst. destruct (Hi id) as [_ Hij]. rewrite Hj in Hij.
  destruct Hij as (_ & _ & Hs & _). unfold status_ok in Hs. rewrite Hst in Hs.
  destruct Hs as (Hr & _). pose (call := Promote id (j_next j) (j_shard j)).
  assert (Hok : call_ok c q call) by (intros j' Hj'; congruence).
  pose proof (call_inv c Hc q call Hok Hi) as Hi1.
  destruct (queued_recovers (snd (spec_call c call q)) id (requeued (j_next j) j))
    as (q' & Hq & Hres); [done| |done|].
  - subst call. simpl. unfold Spec.promote. rewrite Hj, decide_False, Hr, Z.ltb_irrefl by auto.
    simpl. by rewrite lookup_insert_eq.
  - exists q'. split; [|done]. etrans; [|exact Hq]. by apply one_call.
Qed.

Lemma running_recovers q id j :
  Inv c q -> jobs q !! id = Some j -> j_status j = RUNNING ->
  exists q', run q q' /\ resolved q' id.
Proof.
  intros Hi Hj Hst.
  pose (call := Reap id (str_of_Z (j_lease j)) (j_lease j) 0 (j_shard j)).
  assert (Hok : call_ok c q call) by (intros j' Hj'; congruence).
  pose proof (call_inv c Hc q call Hok Hi) as Hi1.
  assert (Hrun : run q (snd (spec_call c call q))) by by apply one_call.
  assert (E : exists j1, jobs (snd (spec_call c call q)) !! id = Some j1
             /\ (terminal (j_status j1) = true \/ j_status j1 = RETRYING)).
  { subst call. simpl. unfold Spec.reap. rewrite Hj.
    rewrite (decide_False (P := j_status j = QUEUED)) by congruence.
    rewrite (decide_False (P := j_status j <> RUNNING)) by auto.
    rewrite decide_False by (intros [?|?]; [done|lia]).
    destruct (j_cancel j); [|destruct (_ <=? _)]; simpl; rewrite lookup_insert_eq;
      eexists; (split; [done|]); auto. }
  destruct E as (j1 & Hj1 & [Ht|Hret]).
  - eexists. split; [exact Hrun|]. exists j1. auto.
  - destruct (retrying_recovers _ id j1 Hi1 Hj1 Hret) as (q' & Hq & Hres).
    exists q'. split; [by etrans|done].
Qed.

Lemma live_recovers q id :
  Inv c q -> is_Some (jobs q !! id) -> exists q', run q q' /\ resolved q' id.
Proof.
  intros Hi [j Hj]. destruct (j_status j) eqn:Hst.
  - by eapply queued_recovers.
  - by eapply running_recovers.
  - by eapply retrying_recovers.
  - exists q. split; [done|]. exists j. rewrite Hst. auto.
  - exists q. split; [done|]. exists j. rewrite Hst. auto.
  - exists q. split; [done|]. exists j. rewrite Hst. auto.
Qed.
End recovery.
