(* ===== verification/QueueTheorems.v ===== *)
(** * What the queue guarantees

    The theorems about the queue's atomic calls, in any interleaving of any
    number of clients: where a stored job stands, the agreement of the server
    with the abstract queue, fencing, finality, recovery, depth, the one way an id
    comes to stand twice; and two runs in which the source does not do what it means
    to ([two_reapers_duplicate], [retry_drops_a_cancellation]). *)

From S2P Require Import Prelude Valkey Models QueueState QueueScripts QueueRefine.
From S2P Require Import QueueInv QueueTrace QueueLife QueueFlow.

(** ** A queue to try the theorems on *)

Module Demo.

Definition cfg : queue_cfg := make_queue_cfg "dalmatian:jobs" 86400 60 3 2 100 None.

Lemma cfg_ok : queue_cfg_ok cfg.
Proof. split; simpl; lia. Qed.

(** One job, enqueued, popped and claimed by [w1]. *)
Definition enqueued : list qevent := [Called (Enqueue None "h" "{}" 1 1000 "a")].
Definition started : list qevent :=
  enqueued ++ [Called (Pop 1); Called (Claim "a" "w1" 61000 1000)].

(** The worker dies; the lease runs out, the job is reaped, promoted and claimed
    by [w2]. *)
Definition taken_over : list qevent :=
  started ++ [Called (Reap "a" "61000" 61000 63000 1); Called (Promote "a" 63000 1);
              Called (Pop 1); Called (Claim "a" "w2" 123000 63000)].

(** Two reapers see the popped job before any worker has claimed it: these are the
    calls of two passes of [reap_stale], one client's beside the other's. *)
Definition reaped_once : list qevent :=
  enqueued ++ [Called (Pop 1); Called Processing; Called Processing;
               Called (JobHash "a"); Called (JobHash "a"); Called (Reap "a" "0" 2000 4000 1)].
Definition two_reapers : list qevent := reaped_once ++ [Called (Reap "a" "0" 2000 4000 1)].

(** A cancellation of the running job is accepted; the worker then reports an
    error it may retry, and the job runs again, to the end. *)
Definition cancelled_then_retried : list qevent :=
  started ++ [Called (Cancel "a" 1 2000); Called (RetryLater "a" "w1" "OSError" 3000 5000);
              Called (Promote "a" 5000 1); Called (Pop 1); Called (Claim "a" "w2" 65000 5000);
              Called (Complete "a" "w2" "{}" 6000)].

(** The job as that trace leaves it. *)
Definition done_job : job := Job SUCCEEDED "{}" "" "{}" 2 "" 0 false 1 1000 6000 0.

Lemma hash_filled (h : gmap string string) : is_Some (h !! "status") -> h <> ∅.
Proof. intros [v Hv] ->. by rewrite lookup_empty in Hv. Qed.

Lemma own_shard_computed q id shard :
  match jobs q !! id with Some j => Nat.eqb (j_shard j) shard | None => true end = true ->
  own_shard q id shard.
Proof. intros E j Hj. rewrite Hj in E. by apply Nat.eqb_eq in E. Qed.

Lemma legal_called c {X} (call : qcall X) es q :
  call_ok c q call -> call_wf c call -> legal c es (spec_call c call q).2 ->
  legal c (Called call :: es) q.
Proof. by repeat split. Qed.

(** Event by event, so that a state is computed only where it is asked for. *)
Ltac legality :=
  cbn [app]; repeat (lazymatch goal with |- legal _ (_ :: _) _ => apply legal_called end;
    [ first [ exact I
            | lazymatch goal with
              | |- call_ok _ ?q (Reap ?id _ _ _ ?i) => refine (_ : own_shard q id i)
              | |- call_ok _ ?q (Promote ?id _ ?i) => refine (_ : own_shard q id i)
              | |- call_ok _ ?q (Cancel ?id ?i _) => refine (_ : own_shard q id i)
              end; apply own_shard_computed; vm_compute; reflexivity
            | repeat apply conj; first [reflexivity | cbn; lia] ]
    | first [ exact I | reflexivity ] | ]);
  exact I.

Lemma started_legal : legal cfg started empty_queue.
Proof. unfold started, enqueued. legality. Qed.

Lemma taken_over_legal : legal cfg taken_over empty_queue.
Proof. unfold taken_over, started, enqueued. legality. Qed.

Lemma reaped_once_legal : legal cfg reaped_once empty_queue.
Proof. unfold reaped_once, enqueued. legality. Qed.

Lemma two_reapers_legal : legal cfg two_reapers empty_queue.
Proof. unfold two_reapers, reaped_once, enqueued. legality. Qed.

Lemma cancelled_then_retried_legal : legal cfg cancelled_then_retried empty_queue.
Proof. unfold cancelled_then_retried, started, enqueued. legality. Qed.

End Demo.

(** ** The server and the abstract queue *)

(** C1: No job is lost.  Start from an empty server and run any client calls and
    key expiries, in any order.  A job hash the server still holds has a status,
    and the job's id stands where the next actor looks for it: a queued job in
    its pending shard or in the processing list, a running job in the processing
    list, a retrying job in the retry set, a failed job once in the dead-letter
    list; no other status leaves an id in the dead-letter list. *)
Theorem stored_jobs_are_placed {store} `{ValkeyLaws store} c es (s0 : store) id :
  queue_cfg_ok c -> blank s0 -> legal c es empty_queue ->
  let s := (run_trace c es s0).2 in
  hgetall s (job_key c id) <> ∅ ->
  exists st shard,
    hget s (job_key c id) "status" = Some (job_status_value st)
    /\ hget s (job_key c id) "shard" = Some (str_of_nat shard)
    /\ count id (lrange s (dead_key c)) = dead_count st
    /\ match st with
       | QUEUED => id ∈ lrange s (pending_key c shard) \/ id ∈ lrange s (processing_key c)
       | RUNNING => id ∈ lrange s (processing_key c)
       | RETRYING => is_Some (zscore s (retry_key c) id)
       | _ => zscore s (retry_key c) id = None
       end.
Proof.
  intros Hc Hb Hl s Hne.
  destruct (trace_refines c Hc es s0 empty_queue (blank_refines c s0 Hb) Hl) as (s1 & Es & R).
  assert (s = s1) as -> by (unfold s; by rewrite Es).
  pose proof (steps_inv c Hc _ _ _ (empty_inv c) (legal_steps c es empty_queue Hl)) as Hi.
  revert R Hi. generalize (spec_trace c es empty_queue).2. intros q [R1 _ _ R4 R5 R6 R7] Hi.
  unfold hget, zscore. rewrite R1 in Hne |- *.
  destruct (jobs q !! id) as [j|] eqn:Hj; [|by rewrite (job_hash_None _ _ Hj) in Hne].
  rewrite (job_hash_Some _ _ _ Hj). exists (j_status j), (j_shard j).
  rewrite enc_status, enc_shard, R4, R5, R6, R7.
  destruct (Hi id) as [_ Hij]. rewrite Hj in Hij. destruct Hij as (_ & _ & Hs & Hd).
  do 3 (split; [done|]). unfold status_ok in Hs.
  destruct (j_status j); rewrite ?count_elem_of; destruct_and?;
    first [done | lia | by eexists].
Qed.

Lemma stored_jobs_are_placed_witness :
  exists st shard,
    hget (run_trace Demo.cfg Demo.started Mem.empty).2 (job_key Demo.cfg "a") "status"
    = Some (job_status_value st)
    /\ hget (run_trace Demo.cfg Demo.started Mem.empty).2 (job_key Demo.cfg "a") "shard"
       = Some (str_of_nat shard).
Proof.
  destruct (stored_jobs_are_placed Demo.cfg Demo.started Mem.empty "a" Demo.cfg_ok blank_mem
              Demo.started_legal) as (st & shard & H1 & H2 & _).
  - apply Demo.hash_filled. exists "running". vm_compute. reflexivity.
  - exists st, shard. split; assumption.
Defined.

(** C2: The Lua scripts implement the abstract queue.  On the same events, the
    server and the abstract queue give the same replies, no script stops on a
    run-time error, and the keys of the final server state hold exactly the final
    abstract state. *)
Theorem scripts_implement_the_queue {store} `{ValkeyLaws store} c es (s : store) q :
  queue_cfg_ok c -> refines c s q -> legal c es q ->
  (run_trace c es s).1 = (spec_trace c es q).1
  /\ refines c (run_trace c es s).2 (spec_trace c es q).2.
Proof.
  intros Hc R Hl. destruct (trace_refines c Hc es s q R Hl) as (s' & -> & R'). done.
Qed.

Lemma scripts_implement_the_queue_witness :
  (run_trace Demo.cfg Demo.taken_over Mem.empty).1
  = (spec_trace Demo.cfg Demo.taken_over empty_queue).1.
Proof.
  apply (scripts_implement_the_queue Demo.cfg Demo.taken_over Mem.empty empty_queue Demo.cfg_ok
           (blank_refines _ _ blank_mem) Demo.taken_over_legal).
Defined.

(** C3: The queue's counts are bounded.  In every reachable state, each job has
    used between 0 and [max_attempts] attempts; one that is queued or waits for a
    retry has an attempt left; and the dead-letter list holds a job once if it
    failed and never otherwise.  When reapers do not race, that is, the reaper's
    script finds every queued job it acts on still in the processing list, the
    number of jobs pending, processing or waiting for a retry never exceeds
    [max_queue_depth], and no id ever stands in two of these places, or twice in
    one. *)
Theorem queue_counts_are_bounded c q :
  queue_cfg_ok c -> reachable c q ->
  (forall id j, jobs q !! id = Some j ->
     0 <= j_attempts j <= max_attempts c
     /\ (j_status j = QUEUED \/ j_status j = RETRYING -> j_attempts j < max_attempts c)
     /\ (j_status j = RUNNING -> 1 <= j_attempts j)
     /\ count id (dead q) = dead_count (j_status j))
  /\ (calmly_reachable c q ->
      depth_of (affinity_shards c) q <= max_queue_depth c
      /\ forall id, (places c q id <= 1)%nat).
Proof.
  intros Hc Hr. split.
  - intros id j Hj. destruct (steps_inv c Hc _ _ _ (empty_inv c) Hr id) as [_ Hij].
    rewrite Hj in Hij. destruct Hij as (_ & Ha & Hs & Hd). split; [done|].
    unfold status_ok in Hs. destruct (j_status j); destruct_and?; repeat split; try done;
      intros [?|?]; done.
  - intros Hcalm. split; [by apply calm_depth|]. intros id.
    destruct (calm_steps_once c Hc q Hcalm) as [_ Ho]. apply Ho.
Qed.

Lemma queue_counts_are_bounded_witness :
  (0 <= 1 <= max_attempts Demo.cfg
   /\ count "a" (dead (spec_trace Demo.cfg Demo.started empty_queue).2) = 0%nat)
  /\ depth_of 2 (Spec.enqueue Demo.cfg None "h" "{}" 1 1000 "a" empty_queue).2 <= 100.
Proof.
  split.
  - destruct (queue_counts_are_bounded Demo.cfg _ Demo.cfg_ok
                (legal_steps _ _ _ Demo.started_legal)) as [Hjobs _].
    destruct (Hjobs "a" (claimed "w1" 61000 1000 (new_job "{}" 1 1000))) as (Ha & _ & _ & Hd);
      [by vm_compute|]. split; [exact Ha|exact Hd].
  - assert (Hok : call_ok Demo.cfg empty_queue (Enqueue None "h" "{}" 1 1000 "a"))
      by (split; [apply Nat.ltb_lt; reflexivity|]; repeat split; reflexivity).
    apply (queue_counts_are_bounded Demo.cfg _ Demo.cfg_ok).
    + by apply rtc_once, (step_call _ _ _ _ (Enqueue None "h" "{}" 1 1000 "a")).
    + by apply rtc_once, (step_call _ _ _ _ (Enqueue None "h" "{}" 1 1000 "a")).
Defined.

(** C4: Only a late reap puts a job in the queue twice.  In any reachable state, let
    an id stand in at most one of the pending shards, the processing list and the
    retry set.  After any legal call by any client it stands in more than one place
    exactly if the call was a reap of that id ([late_reap]) while its job was queued
    and no longer in the processing list: another reaper put it back first.  The id
    then stands in two places and the depth counts the job once more.  A key's
    expiry never does this. *)
Theorem only_late_reaps_duplicate c q {X} (call : qcall X) id :
  queue_cfg_ok c -> reachable c q -> call_ok c q call -> (places c q id <= 1)%nat ->
  let q' := (spec_call c call q).2 in
  ((1 < places c q' id)%nat <-> late_reap q call id)
  /\ (late_reap q call id ->
       places c q' id = 2%nat
       /\ depth_of (affinity_shards c) q' = depth_of (affinity_shards c) q + 1)
  /\ (forall x, places c (expire_job x q) id = places c q id)
  /\ (forall d, places c (expire_idem d q) id = places c q id).
Proof.
  intros Hc Hr Hok Ho q'. pose proof (steps_inv c Hc _ _ _ (empty_inv c) Hr) as Hi.
  split; [by apply once_or_late|]. split; [|by split].
  intros Hl. destruct (late_reap_adds c q call id Hi Hok Hl) as (Hp & Ep & Et).
  unfold q'. rewrite Ep, !depth_total, Et. lia.
Qed.

(** Two reapers list the processing list while a popped job waits for its claim;
    each script then removes the id (the second finds nothing to remove) and pushes
    it to the pending shard.  The server ends with one job, its id twice in the
    shard, and counts a depth of 2. *)
Example two_reapers_duplicate :
  let s := (run_trace Demo.cfg Demo.two_reapers Mem.empty).2 in
  let q := (spec_trace Demo.cfg Demo.two_reapers empty_queue).2 in
  legal Demo.cfg Demo.two_reapers empty_queue
  /\ lrange s (pending_key Demo.cfg 1) = ["a"; "a"] /\ lrange s (processing_key Demo.cfg) = []
  /\ dom (jobs q) = {["a"]} /\ depth_of 2 q = 2.
Proof.
  split; [apply Demo.two_reapers_legal|]. repeat split; vm_compute; reflexivity.
Qed.

Lemma only_late_reaps_duplicate_witness :
  let q := (spec_trace Demo.cfg Demo.reaped_once empty_queue).2 in
  places Demo.cfg (spec_call Demo.cfg (Reap "a" "0" 2000 4000 1) q).2 "a" = 2%nat.
Proof.
  assert (Hl : late_reap (spec_trace Demo.cfg Demo.reaped_once empty_queue).2
                 (Reap "a" "0" 2000 4000 1) "a").
  { split; [reflexivity|]. split; [vm_compute; intros H; inversion H|].
    eexists. split; vm_compute; reflexivity. }
  assert (Hr : reachable Demo.cfg (spec_trace Demo.cfg Demo.reaped_once empty_queue).2)
    by apply legal_steps, Demo.reaped_once_legal.
  assert (Hok : call_ok Demo.cfg (spec_trace Demo.cfg Demo.reaped_once empty_queue).2
                  (Reap "a" "0" 2000 4000 1))
    by (apply Demo.own_shard_computed; vm_compute; reflexivity).
  assert (Hp : (places Demo.cfg (spec_trace Demo.cfg Demo.reaped_once empty_queue).2 "a" <= 1)%nat)
    by (apply Nat.leb_le; vm_compute; reflexivity).
  destruct (only_late_reaps_duplicate Demo.cfg
              (spec_trace Demo.cfg Demo.reaped_once empty_queue).2
              (Reap "a" "0" 2000 4000 1) "a" Demo.cfg_ok Hr Hok Hp) as (_ & Hdup & _).
  exact (proj1 (Hdup Hl)).
Defined.

(** A retry drops an accepted cancellation.  The cancel script answers 2
    (the running job is flagged); the worker then reports an error it may retry,
    the retry script does not look at the flag, and the next claim clears it: the
    job runs to success although its cancellation was accepted. *)
Theorem retry_drops_a_cancellation :
  let replies := (run_trace Demo.cfg Demo.cancelled_then_retried Mem.empty).1 in
  let s := (run_trace Demo.cfg Demo.cancelled_then_retried Mem.empty).2 in
  legal Demo.cfg Demo.cancelled_then_retried empty_queue
  /\ replies !! 3%nat = Some (answered 2)
  /\ hget s (job_key Demo.cfg "a") "status" = Some "succeeded".
Proof.
  split; [apply Demo.cancelled_then_retried_legal|]. split; vm_compute; reflexivity.
Qed.

(** ** What happens to one job *)

(** C5: The status graph.  A step of any client moves a job along an edge of
    [transition] or leaves its status; it never changes the request, the shard or
    the creation time; the attempt counter grows by one exactly when a queued job
    starts running; a finished job is not changed at all; a result is stored only
    by succeeding; and a running job either kept its worker or was just claimed. *)
Theorem jobs_follow_the_status_graph c q q' id j j' :
  step c q q' -> jobs q !! id = Some j -> jobs q' !! id = Some j' -> job_step j j'.
Proof.
  intros Hs Hj Hj'. pose proof (step_record c _ _ _ _ _ Hs Hj) as H. by rewrite Hj' in H.
Qed.

Lemma jobs_follow_the_status_graph_witness :
  let q := (spec_trace Demo.cfg Demo.started empty_queue).2 in
  exists j j', jobs q !! "a" = Some j
    /\ jobs (spec_call Demo.cfg (Heartbeat "a" "w1" 70000 10000) q).2 !! "a" = Some j' /\ job_step j j'.
Proof.
  cbn zeta. eexists _, _. split; [vm_compute; reflexivity|]. split; [vm_compute; reflexivity|].
  eapply (jobs_follow_the_status_graph Demo.cfg (spec_trace Demo.cfg Demo.started empty_queue).2
            _ "a");
    [apply (step_call Demo.cfg _ _ _ (Heartbeat "a" "w1" 70000 10000)); exact I
    |vm_compute; reflexivity..].
Defined.

(** Finished is final.  Once a job has succeeded, failed or been cancelled,
    no sequence of calls and expiries changes its record, until the record's time
    to live ends; its id is never enqueued again. *)
Theorem finished_jobs_are_final c q q' id j :
  rtc (step_if c (never_enqueued id)) q q' ->
  jobs q !! id = Some j -> terminal (j_status j) = true ->
  jobs q' !! id = Some j \/ jobs q' !! id = None.
Proof. apply final_stays. Qed.

Lemma finished_jobs_are_final_witness :
  let q := (spec_trace Demo.cfg Demo.cancelled_then_retried empty_queue).2 in
  let q' := (spec_call Demo.cfg (Claim "a" "w3" 9 9) q).2 in
  jobs q' !! "a" = Some Demo.done_job \/ jobs q' !! "a" = None.
Proof.
  apply (finished_jobs_are_final Demo.cfg
           (spec_trace Demo.cfg Demo.cancelled_then_retried empty_queue).2 _ "a" Demo.done_job).
  - apply rtc_once, (step_call Demo.cfg _ _ _ (Claim "a" "w3" 9 9)); [exact I|reflexivity].
  - vm_compute. reflexivity.
  - reflexivity.
Defined.

(** C6: Fencing.  Let a worker not hold a job: it was never claimed by it, was
    reaped, cancelled, finished, or claimed by another.  However the others go
    on, as long as the worker does not claim the job again, its completion, its
    heartbeat, its failure report, its retry request and its output publication
    are all refused and change nothing. *)
Theorem lost_workers_are_fenced c q q' id w :
  ~ holds q id w -> rtc (step_if c (never_claimed id w)) q q' -> refused q' id w.
Proof. intros Hn Hs. apply not_held_refused. by eapply lost_stays. Qed.

Lemma lost_workers_are_fenced_witness :
  refused (spec_trace Demo.cfg Demo.taken_over empty_queue).2 "a" "w1".
Proof.
  refine (lost_workers_are_fenced Demo.cfg (spec_trace Demo.cfg Demo.taken_over empty_queue).2 _
            "a" "w1" _ (rtc_refl _ _)).
  intros (j & Hj & _ & Hw). vm_compute in Hj. injection Hj as <-. discriminate Hw.
Defined.

(** C8: Recovery.  In every reachable state, any stored job can still be brought
    to an end or into the hands of a worker of our choice, by reaping, promoting,
    popping and that worker's claim alone: no call of the worker that holds the
    job, no cancellation and no new enqueue is needed. *)
Theorem every_job_can_recover c q id w :
  queue_cfg_ok c -> reachable c q -> is_Some (jobs q !! id) ->
  exists q', rtc (step_if c (assisted_by w)) q q' /\ resolved w q' id.
Proof.
  intros Hc Hr. apply (live_recovers c Hc).
  exact (steps_inv c Hc _ _ _ (empty_inv c) Hr).
Qed.

Lemma every_job_can_recover_witness :
  exists q', rtc (step_if Demo.cfg (assisted_by "w2"))
               (spec_trace Demo.cfg Demo.started empty_queue).2 q'
             /\ resolved "w2" q' "a".
Proof.
  apply (every_job_can_recover Demo.cfg _ "a" "w2" Demo.cfg_ok).
  - apply legal_steps, Demo.started_legal.
  - eexists. vm_compute. reflexivity.
Defined.
