(* ===== verification/QueueLease.v ===== *)
(** * Keeping a lease

    A worker that renews its lease in time keeps its job: as long as each heartbeat
    and each look of a reaper comes before the lease runs out, nothing any other
    client does takes the job away.  With the interval that the worker derives from
    the settings there are several heartbeats per lease (ConfigTheorems). *)

From S2P Require Import Prelude Valkey Models QueueState QueueScripts QueueRefine.
From S2P Require Import QueueInv QueueTrace QueueLife QueueTheorems.

(** ** Heartbeats that keep up *)

(** The worker [w] runs the job [id], as its attempt [n], and its lease ends at
    [lease]. *)
Definition leased (q : qstate) (id w : string) (n lease : Z) : Prop :=
  exists j, jobs q !! id = Some j /\ j_status j = RUNNING /\ j_worker j = w
    /\ j_attempts j = n /\ j_lease j = lease.

(** The time of the heartbeat the event is, if it is the holder's. *)
Definition beat (id w : string) (e : qevent) : option Z :=
  match e with
  | Called (Heartbeat id' w' _ now) => if decide (id' = id /\ w' = w) then Some now else None
  | _ => None
  end.

(** Leases of [d] milliseconds, the last granted at [last]: the holder's heartbeat
    and the reaper's look come before it ends, the holder has not settled the job,
    and its record has not expired. *)
Definition in_time (d : Z) (id w : string) (last : Z) (e : qevent) : Prop :=
  match e with
  | Called (Heartbeat id' w' lease now) => id' = id -> w' = w -> now < last + d /\ lease = now + d
  | Called (Reap id' _ now _ _) => id' = id -> now < last + d
  | Called (Complete id' w' _ _) | Called (Finish id' w' _ _ _) | Called (RetryLater id' w' _ _ _) =>
      ~ (id' = id /\ w' = w)
  | JobExpired id' => id' <> id
  | _ => True
  end.

Definition after_beat (id w : string) (last : Z) (e : qevent) : Z := default last (beat id w e).
Definition last_beat (id w : string) : Z -> list qevent -> Z := foldl (after_beat id w).

Fixpoint paced (d : Z) (id w : string) (last : Z) (es : list qevent) : Prop :=
  match es with
  | [] => True
  | e :: es => in_time d id w last e /\ paced d id w (after_beat id w last e) es
  end.

Section lease.
Context (c : queue_cfg) (d : Z) (id w : string) (n : Z).
Implicit Types q : qstate.

Lemma untouched_leased q q' lease :
  jobs q' !! id = jobs q !! id -> leased q id w n lease -> leased q' id w n lease.
Proof using Type. intros E (j & Hj & ?); exists j. by rewrite E. Qed.

Lemma updated_leased q q' (j' : job) lease :
  jobs q' = <[id := j']> (jobs q) -> j_status j' = RUNNING -> j_worker j' = w ->
  j_attempts j' = n -> j_lease j' = lease -> leased q' id w n lease.
Proof using Type. intros E ????. exists j'. rewrite E, lookup_insert_eq. auto. Qed.

(** What a call about the job itself leaves of the lease. *)
Lemma call_leased q {X} (call : qcall X) last :
  touches q call = Some id -> call_ok c q call -> in_time d id w last (Called call) ->
  leased q id w n (last + d) ->
  leased (spec_call c call q).2 id w n (after_beat id w last (Called call) + d).
Proof using Type.
  intros Ht Hok Hin (j & Hj & Hst & Hw & Hn & Hl).
  assert (Hleased : leased q id w n (last + d)) by (exists j; auto).
  assert (Hother : forall w' now, w' <> w -> owned j w' now = false).
  { intros w' now Hne. unfold owned. by rewrite (bool_decide_false (j_worker j = w')), andb_false_r
      by congruence. }
  destruct call; cbn [touches] in Ht; try discriminate Ht; try (injection Ht as ->);
    cbn [spec_call call_ok in_time] in *; unfold after_beat; cbn [beat default].
  - destruct Hok as (_ & Hfresh & _). congruence.
  - unfold Spec.claim. rewrite Hj. by rewrite decide_False by (intros [_ ?]; congruence).
  - unfold Spec.heartbeat. rewrite Hj. destruct (decide (w0 = w)) as [->|Hne].
    + destruct (Hin eq_refl eq_refl) as [Hnow ->]. rewrite decide_True by done. cbn [default].
      unfold owned. rewrite !bool_decide_true by done. rewrite Hl.
      rewrite (proj2 (Z.ltb_lt _ _) Hnow). by eapply updated_leased.
    + rewrite decide_False by tauto. by rewrite Hother.
  - unfold Spec.complete. rewrite Hj, Hother by (intros ->; tauto). done.
  - unfold Spec.finish. rewrite Hj, Hother by (intros ->; tauto). done.
  - unfold Spec.retry_later. rewrite Hj, Hother by (intros ->; tauto). done.
  - unfold Spec.reap. rewrite Hj. rewrite !decide_False by congruence.
    rewrite decide_True by (right; rewrite Hl; auto). done.
  - unfold Spec.promote. rewrite Hj. by rewrite decide_True by congruence.
  - unfold Spec.cancel. rewrite Hj, Hst. by eapply updated_leased.
  - unfold Spec.pop. by destruct (rpop _) as [[]|].
Qed.

Lemma event_leased q e last :
  event_ok c q e -> in_time d id w last e -> leased q id w n (last + d) ->
  leased (spec_event c e q).2 id w n (after_beat id w last e + d).
Proof using Type.
  intros Hok Hin Hl. destruct e as [X call|x|k]; [|by apply untouched_leased with q; [|exact Hl];
    cbn; rewrite lookup_delete_ne|exact Hl].
  destruct (decide (touches q call = Some id)) as [Ht|Ht]; [by apply call_leased; [|apply Hok|..]|].
  cbn [spec_event snd]. apply (untouched_leased q); [apply (sa_job _ _ _ (call_frame c q call id Ht))|].
  destruct call; try exact Hl. unfold after_beat. cbn in *.
  rewrite decide_False by (intros [-> _]; by apply Ht). exact Hl.
Qed.

Lemma trace_leased es : forall q last,
  legal c es q -> paced d id w last es -> leased q id w n (last + d) ->
  leased (spec_trace c es q).2 id w n (last_beat id w last es + d).
Proof using Type.
  induction es as [|e es IH]; intros q last Hl Hp Hh; [exact Hh|].
  destruct Hl as [He Hl], Hp as [Hi Hp]. cbn [spec_trace last_beat foldl].
  specialize (event_leased q e last He Hi Hh) as He'. destruct (spec_event c e q) as [r q1].
  specialize (IH q1 _ Hl Hp He'). by destruct (spec_trace c es q1).
Qed.
End lease.

(** ** On the server *)

(** The job's fields on a server that holds the queue. *)
Lemma leased_fields {store} `{ValkeyLaws store} c (s : store) q id w n lease :
  refines c s q -> leased q id w n lease ->
  hget s (job_key c id) "status" = Some (job_status_value RUNNING)
  /\ hget s (job_key c id) "worker_id" = Some w
  /\ hget s (job_key c id) "attempts" = Some (str_of_Z n)
  /\ hget s (job_key c id) "lease_expires_ms" = Some (str_of_Z lease).
Proof.
  intros R (j & Hj & Hst & Hw & Hn & Hl). unfold hget.
  rewrite (rf_job _ _ _ R), (job_hash_Some _ _ _ Hj).
  rewrite enc_status, enc_worker, enc_attempts, enc_lease. repeat split; congruence.
Qed.

Lemma beat_answered c q id w n last d now :
  leased q id w n (last + d) -> now < last + d -> (spec_call c (Heartbeat id w (now + d) now) q).1 = 1.
Proof.
  intros (j & Hj & Hst & Hw & _ & Hl) Hnow. cbn [spec_call]. unfold Spec.heartbeat, owned. rewrite Hj.
  rewrite !bool_decide_true by done. rewrite Hl. by rewrite (proj2 (Z.ltb_lt _ _) Hnow).
Qed.

Lemma legal_app c es1 es2 q :
  legal c (es1 ++ es2) q -> legal c es1 q /\ legal c es2 (spec_trace c es1 q).2.
Proof.
  revert q. induction es1 as [|e es1 IH]; intros q Hl; [by split|].
  destruct Hl as [He Hl]. apply IH in Hl as [Hl1 Hl2]. split; [by split|].
  cbn [spec_trace]. destruct (spec_event c e q) as [r q1]. cbn [snd] in *.
  by destruct (spec_trace c es1 q1).
Qed.

Lemma paced_app d id w es1 es2 last :
  paced d id w last (es1 ++ es2) -> paced d id w last es1 /\ paced d id w (last_beat id w last es1) es2.
Proof.
  revert last. induction es1 as [|e es1 IH]; intros last Hp; [by split|].
  destruct Hp as [Hi Hp]. apply IH in Hp as [H1 H2]. by repeat split.
Qed.

(** C7: A lease that is renewed in time is kept.  A worker runs a job and renews
    its lease of [d] milliseconds, each time before it has run out; the reapers'
    clocks, too, say that it has not when their scripts look at the job.  Then
    whatever else any clients do (other workers' calls about the job, cancellations
    and promotions included), in any order, the server answers every one of these
    heartbeats with 1, and the job stays running, with this worker, in this attempt,
    and with the lease of the last heartbeat. *)
Theorem heartbeats_keep_the_job {store} `{ValkeyLaws store} c d id w n last es (s : store) q :
  queue_cfg_ok c -> refines c s q -> leased q id w n (last + d) ->
  legal c es q -> paced d id w last es ->
  let s' := (run_trace c es s).2 in
  hget s' (job_key c id) "status" = Some (job_status_value RUNNING)
  /\ hget s' (job_key c id) "worker_id" = Some w
  /\ hget s' (job_key c id) "attempts" = Some (str_of_Z n)
  /\ hget s' (job_key c id) "lease_expires_ms" = Some (str_of_Z (last_beat id w last es + d))
  /\ forall es1 now es2, es = es1 ++ Called (Heartbeat id w (now + d) now) :: es2 ->
       (exec_call c (Heartbeat id w (now + d) now) (run_trace c es1 s).2).1 = Some 1.
Proof.
  intros Hc R Hh Hl Hp s'.
  destruct (trace_refines c Hc es s q R Hl) as (s2 & Es & R2).
  assert (s' = s2) as -> by (unfold s'; by rewrite Es).
  destruct (leased_fields c s2 _ id w n _ R2 (trace_leased c d id w n es q last Hl Hp Hh))
    as (? & ? & ? & ?). do 4 (split; [done|]). intros es1 now es2 ->.
  apply legal_app in Hl as [Hl1 _]. apply paced_app in Hp as [Hp1 [Hi _]].
  destruct (trace_refines c Hc es1 s q R Hl1) as (s1 & -> & R1). cbn [snd].
  destruct (call_refines c Hc (Heartbeat id w (now + d) now) s1 _ R1 I) as (s3 & -> & _).
  cbn [fst]. f_equal. eapply beat_answered; [by apply trace_leased|]. by apply Hi.
Qed.

Module LeaseDemo.
(** The claimed job of [Demo]: two heartbeats, a reaper between them, another
    worker that tries to complete the job, and a cancellation. *)
Definition kept : list qevent :=
  [Called (Heartbeat "a" "w1" 80000 20000); Called (Reap "a" "61000" 61000 63000 1);
   Called (Complete "a" "w2" "{}" 62000); Called (Cancel "a" 1 63000);
   Called (Heartbeat "a" "w1" 139000 79000); Called (Reap "a" "139000" 138000 140000 1)].

Lemma kept_paced : paced 60000 "a" "w1" 1000 kept.
Proof. repeat split; cbn; try lia; try done; intros [? ?]; discriminate. Qed.

Lemma kept_legal : legal Demo.cfg kept (spec_trace Demo.cfg Demo.started empty_queue).2.
Proof.
  refine (proj2 (legal_app Demo.cfg Demo.started kept empty_queue _)).
  unfold kept, Demo.started, Demo.enqueued. Demo.legality.
Qed.
End LeaseDemo.

Lemma heartbeats_keep_the_job_witness :
  let s' := (run_trace Demo.cfg LeaseDemo.kept (run_trace Demo.cfg Demo.started Mem.empty).2).2 in
  hget s' (job_key Demo.cfg "a") "lease_expires_ms" = Some "139000".
Proof.
  destruct (trace_refines Demo.cfg Demo.cfg_ok Demo.started Mem.empty empty_queue
              (blank_refines Demo.cfg Mem.empty blank_mem) Demo.started_legal) as (s & E & R).
  cbv zeta. rewrite E. cbn [snd].
  refine (proj1 (proj2 (proj2 (proj2 (heartbeats_keep_the_job Demo.cfg 60000 "a" "w1" 1 1000
            LeaseDemo.kept s _ Demo.cfg_ok R _ LeaseDemo.kept_legal LeaseDemo.kept_paced))))).
  eexists. vm_compute. repeat split; reflexivity.
Defined.
