(* ===== verification/Fingerprint.v ===== *)
(** * Fingerprints

    src/src/dalmatian/fingerprint.py: hashes of JSON texts that identify a
    request, a declared source version and a set of datasets.  [dumps] is
    [json.dumps(payload, sort_keys=True, separators=(",", ":"))]; the digest is a
    parameter ([Sha256]), and so is the SQL normaliser.  FingerprintTheorems.v shows that
    [dumps] loses nothing but the order of the keys, so that two requests share a
    fingerprint only if they are the same request or the digest collides. *)

From Stdlib Require Import Ascii.
From S2P Require Import Prelude Models.

(** hashlib's SHA-256 of a text: in hexadecimal, and the first eight bytes of the
    digest as a big-endian integer. *)
Class Sha256 := {
  sha256_hex : string -> string;
  sha256_head : string -> Z;
}.

(** ** JSON *)

Inductive json :=
| JNull
| JBool (b : bool)
| JInt (z : Z)
| JStr (s : string)
| JArr (l : list json)
| JObj (fields : list (string * json)).

Definition hex_digit (n : nat) : Ascii.ascii :=
  Ascii.ascii_of_nat (if (n <? 10)%nat then 48 + n else 87 + n)%nat.

(** The escapes of the default [ensure_ascii] encoder, for code points up to
    U+00FF; everything but printable ASCII is escaped. *)
Definition escape_char (a : Ascii.ascii) : string :=
  let n := Ascii.nat_of_ascii a in
  let backslash := Ascii.ascii_of_nat 92 in
  let two b := String backslash (String b EmptyString) in
  if (n =? 34)%nat then two (Ascii.ascii_of_nat 34)
  else if (n =? 92)%nat then two backslash
  else if (n =? 10)%nat then two "n"%char
  else if (n =? 13)%nat then two "r"%char
  else if (n =? 9)%nat then two "t"%char
  else if (n =? 8)%nat then two "b"%char
  else if (n =? 12)%nat then two "f"%char
  else if ((n <? 32) || (126 <? n))%nat then
    String backslash ("u00" +:+ String (hex_digit (n / 16)%nat)
                              (String (hex_digit (n mod 16)%nat) EmptyString))
  else String a EmptyString.

Fixpoint escape (s : string) : string :=
  match s with EmptyString => EmptyString | String a s => escape_char a +:+ escape s end.

Definition dquote : string := String (Ascii.ascii_of_nat 34) EmptyString.

Definition quote (s : string) : string := dquote +:+ escape s +:+ dquote.

Fixpoint join (sep : string) (l : list string) : string :=
  match l with
  | [] => ""
  | [x] => x
  | x :: l => x +:+ sep +:+ join sep l
  end.

Definition key_le {A} (p q : string * A) : Prop := String.leb p.1 q.1 = true.

#[export] Instance key_le_dec {A} : RelDecision (@key_le A).
Proof. intros p q. unfold key_le. apply _. Defined.

(** [sorted(..., key=...)] by the key alone, stable as Python's sort is. *)
Fixpoint insert_key {A} (p : string * A) (l : list (string * A)) : list (string * A) :=
  match l with
  | [] => [p]
  | q :: l' => if decide (key_le p q) then p :: l else q :: insert_key p l'
  end.

Definition sort_keys {A} (l : list (string * A)) : list (string * A) := foldr insert_key [] l.

Fixpoint dumps (j : json) : string :=
  match j with
  | JNull => "null"
  | JBool b => if b then "true" else "false"
  | JInt z => str_of_Z z
  | JStr s => quote s
  | JArr l => "[" +:+ join "," (map dumps l) +:+ "]"
  | JObj fields =>
      "{" +:+ join "," (map (fun p => quote p.1 +:+ ":" +:+ p.2)
                          (sort_keys (map (fun p => (p.1, dumps p.2)) fields))) +:+ "}"
  end.

(** ** Payloads *)

Definition j_opt (o : option string) : json := match o with Some s => JStr s | None => JNull end.
Definition j_opt_int (o : option Z) : json := match o with Some z => JInt z | None => JNull end.
Definition j_dict (d : list (string * string)) : json := JObj (map (fun p => (p.1, JStr p.2)) d).
Definition j_schema (s : option SchemaDefinition) : json :=
  match s with
  | None => JNull
  | Some (SchemaText t) => JStr t
  | Some (SchemaFields d) => j_dict d
  end.

(** The description of a source that versions and affinity keys hash. *)
Definition source_payload (s : SourceSpec) : json :=
  JObj [("location", j_opt (src_location s)); ("path", JStr (src_path s));
        ("format", JStr (data_format_value (src_format s))); ("options", j_dict (src_options s));
        ("schema", j_schema (src_schema s)); ("infer_schema", JBool (src_infer_schema s));
        ("version", j_opt (src_version s))].

Definition affinity_payload (r : QueryRequest) : json :=
  JObj (map (fun p => (p.1, source_payload p.2)) (sort_keys (q_sources r))).

(** [request.model_dump(mode="json")]. *)
Definition dump_source (s : SourceSpec) : json :=
  JObj [("path", JStr (src_path s)); ("format", JStr (data_format_value (src_format s)));
        ("location", j_opt (src_location s)); ("options", j_dict (src_options s));
        ("version", j_opt (src_version s)); ("schema_definition", j_schema (src_schema s));
        ("infer_schema", JBool (src_infer_schema s))].

Definition dump_output (o : OutputSpec) : json :=
  JObj [("mode", JStr (delivery_mode_value (out_mode o)));
        ("format", JStr (output_format_value (out_format o)));
        ("location", j_opt (out_location o)); ("path", j_opt (out_path o));
        ("write_mode", JStr (write_mode_value (out_write_mode o)));
        ("options", j_dict (out_options o))].

Definition dump_sources (r : QueryRequest) : json :=
  JObj (map (fun p => (p.1, dump_source p.2)) (q_sources r)).

Definition dump_request_json (r : QueryRequest) : json :=
  JObj [("sql", JStr (q_sql r)); ("sources", dump_sources r); ("output", dump_output (q_output r));
        ("max_rows", JInt (q_max_rows r));
        ("cache_ttl_seconds", j_opt_int (q_cache_ttl_seconds r));
        ("timeout_seconds", j_opt_int (q_timeout_seconds r))].

Section fingerprints.
Context `{Sha256}.

(** [sqlglot]-backed [validate_and_normalize(sql, aliases)], see Sql.v. *)
Variable normalize : string -> list string -> result exn string.

Definition _hash (payload : json) : string := sha256_hex (dumps payload).

Definition _declared_source_version (s : SourceSpec) : string := _hash (source_payload s).

Definition declared_source_versions (r : QueryRequest) : option (list (string * string)) :=
  if existsb (fun p => bool_decide (src_version p.2 = None)) (q_sources r) then None
  else Some (map (fun p => (p.1, _declared_source_version p.2)) (q_sources r)).

Definition dataset_affinity_key (r : QueryRequest) : string := _hash (affinity_payload r).

Definition query_payload (r : QueryRequest) (sql : string) (versions : list (string * string))
  : json :=
  JObj [("sources", dump_sources r); ("output", dump_output (q_output r));
        ("max_rows", JInt (q_max_rows r)); ("timeout_seconds", j_opt_int (q_timeout_seconds r));
        ("sql", JStr sql); ("source_versions", j_dict versions)].

Definition query_fingerprint (r : QueryRequest) (versions : list (string * string))
  : result exn string :=
  match normalize (q_sql r) (map fst (q_sources r)) with
  | Ok sql => Ok (_hash (query_payload r sql versions))
  | Err e => Err e
  end.

Definition request_payload_fingerprint (r : QueryRequest) : string := _hash (dump_request_json r).
End fingerprints.
