(* ===== verification/Prog.v ===== *)
(** * Programs with effects

    A Python function that calls services is a tree of effects: it returns a
    value, raises an exception, or performs an operation and goes on with the
    reply.  The components instantiate the operations.  [run] executes a program
    against a handler; [wp] is its weakest precondition under a specification of
    the operations, which can let other clients act before each one. *)

From S2P Require Import Prelude Models.

Inductive prog (E : Type -> Type) (A : Type) : Type :=
| Ret (a : A)
| Raise (e : exn)
| Do (X : Type) (o : E X) (k : X -> prog E A).
Arguments Ret {E A} a.
Arguments Raise {E A} e.
Arguments Do {E A X} o k.

Section programs.
Context {E : Type -> Type}.

Fixpoint bind {A B} (p : prog E A) (f : A -> prog E B) : prog E B :=
  match p with
  | Ret a => f a
  | Raise e => Raise e
  | Do o k => Do o (fun x => bind (k x) f)
  end.

(** [try: p except Exception as e: h(e)]; [h] re-raises what it does not handle. *)
Fixpoint try_except {A} (p : prog E A) (h : exn -> prog E A) : prog E A :=
  match p with
  | Ret a => Ret a
  | Raise e => h e
  | Do o k => Do o (fun x => try_except (k x) h)
  end.

(** [try: p finally: f]. *)
Fixpoint try_finally {A} (p : prog E A) (f : prog E unit) : prog E A :=
  match p with
  | Ret a => bind f (fun _ => Ret a)
  | Raise e => bind f (fun _ => Raise e)
  | Do o k => Do o (fun x => try_finally (k x) f)
  end.

Definition perform {X} (o : E X) : prog E X := Do o Ret.

Definition lift {A} (r : result exn A) : prog E A :=
  match r with Ok a => Ret a | Err e => Raise e end.

(** An operation that can raise. *)
Definition invoke {X} (o : E (result exn X)) : prog E X := Do o lift.

(** [try: o except Exception: log]. *)
Definition best_effort {X} (o : E (result exn X)) : prog E unit := Do o (fun _ => Ret tt).

(** The outcome of a program as a value. *)
Definition attempt {A} (p : prog E A) : prog E (result exn A) :=
  try_except (bind p (fun a => Ret (Ok a))) (fun e => Ret (Err e)).

(** A [for] loop with an accumulator. *)
Fixpoint for_each {X A} (l : list X) (a : A) (body : A -> X -> prog E A) : prog E A :=
  match l with
  | [] => Ret a
  | x :: l => bind (body a x) (fun a' => for_each l a' body)
  end.
End programs.

Declare Scope prog_scope.
Delimit Scope prog_scope with prog.
Notation "x <- m ;; k" := (bind m (fun x => k))
  (at level 100, m at next level, right associativity) : prog_scope.
Notation "m ;; k" := (bind m (fun _ => k))
  (at level 100, right associativity) : prog_scope.

(** ** Programs for operations *)

(** Each operation is carried out by a program over other operations. *)
Fixpoint interp {E F : Type -> Type} (h : forall X, E X -> prog F X) {A} (p : prog E A) : prog F A :=
  match p with
  | Ret a => Ret a
  | Raise e => Raise e
  | Do o k => bind (h _ o) (fun x => interp h (k x))
  end.

(** ** The operations of a program *)

Section operations.
Context {E : Type -> Type} (P : forall X, E X -> Prop).

(** All operations a program can perform satisfy [P]. *)
Fixpoint every {A} (p : prog E A) : Prop :=
  match p with Do o k => P _ o /\ forall x, every (k x) | _ => True end.

Lemma every_bind {A B} (p : prog E A) (f : A -> prog E B) :
  every p -> (forall a, every (f a)) -> every (bind p f).
Proof.
  intros Hp Hf. induction p as [a|e|X o k IH]; simpl in *; [done..|]. destruct Hp as [Ho Hk].
  split; [done|]. intros x. by apply IH.
Qed.

Lemma every_try_except {A} (p : prog E A) (h : exn -> prog E A) :
  every p -> (forall e, every (h e)) -> every (try_except p h).
Proof.
  intros Hp Hh. induction p as [a|e|X o k IH]; simpl in *; [done..|]. destruct Hp as [Ho Hk].
  split; [done|]. intros x. by apply IH.
Qed.

Lemma every_try_finally {A} (p : prog E A) (f : prog E unit) :
  every p -> every f -> every (try_finally p f).
Proof.
  intros Hp Hf. induction p as [a|e|X o k IH]; simpl in *.
  - by apply every_bind.
  - by apply every_bind.
  - destruct Hp as [Ho Hk]. split; [done|]. intros x. by apply IH.
Qed.

Lemma every_lift {A} (r : result exn A) : every (lift r).
Proof. by destruct r. Qed.

Lemma every_perform {X} (o : E X) : P _ o -> every (perform o).
Proof. by split. Qed.

Lemma every_invoke {X} (o : E (result exn X)) : P _ o -> every (invoke o).
Proof. intros Ho. split; [done|]. intros r. apply every_lift. Qed.

Lemma every_best_effort {X} (o : E (result exn X)) : P _ o -> every (best_effort o).
Proof. by split. Qed.

Lemma every_for_each {X A} (l : list X) (a : A) body :
  (forall a x, every (body a x)) -> every (for_each l a body).
Proof.
  intros Hb. revert a. induction l as [|x l IH]; intros a; [done|]. by apply every_bind.
Qed.
End operations.

(** Walk through a program whose operations are to satisfy a predicate. *)
Ltac every_op :=
  repeat first
    [ apply every_lift | apply every_bind; [|intros ?] | apply every_for_each; intros ? ?
    | apply every_try_except; [|intros ?] | apply every_try_finally
    | apply every_perform; exact I | apply every_invoke; exact I | apply every_best_effort; exact I
    | match goal with
      | |- every _ (Ret _) => exact I
      | |- every _ (Raise _) => exact I
      | |- every _ (match ?x with _ => _ end) => destruct x
      end ].

(** ** Running a program *)

Section running.
Context {E : Type -> Type} {S : Type}.

Fixpoint run (h : forall X, E X -> S -> X * S) {A} (p : prog E A) (s : S)
  : result exn A * S :=
  match p with
  | Ret a => (Ok a, s)
  | Raise e => (Err e, s)
  | Do o k => let '(x, s') := h _ o s in run h (k x) s'
  end.

Lemma run_bind h {A B} (p : prog E A) (f : A -> prog E B) s :
  run h (bind p f) s
  = match run h p s with
    | (Ok a, s') => run h (f a) s'
    | (Err e, s') => (Err e, s')
    end.
Proof.
  revert s. induction p as [a|e|X o k IH]; intros s; simpl; [done..|].
  destruct (h X o s) as [x s']. apply IH.
Qed.

Lemma run_try_except h {A} (p : prog E A) (g : exn -> prog E A) s :
  run h (try_except p g) s
  = match run h p s with
    | (Ok a, s') => (Ok a, s')
    | (Err e, s') => run h (g e) s'
    end.
Proof.
  revert s. induction p as [a|e|X o k IH]; intros s; simpl; [done..|].
  destruct (h X o s) as [x s']. apply IH.
Qed.

Lemma run_try_finally h {A} (p : prog E A) (f : prog E unit) s :
  run h (try_finally p f) s
  = let '(r, s1) := run h p s in
    match run h f s1 with
    | (Ok _, s2) => (r, s2)
    | (Err e, s2) => (Err e, s2)
    end.
Proof.
  revert s. induction p as [a|e|X o k IH]; intros s; simpl.
  - rewrite run_bind. by destruct (run h f s) as [[] ?].
  - rewrite run_bind. by destruct (run h f s) as [[] ?].
  - destruct (h X o s) as [x s']. apply IH.
Qed.
End running.

(** ** Two programs side by side *)

Section racing.
Context {E : Type -> Type} {S : Type} (h : forall X, E X -> S -> X * S).

(** The next operation of a program. *)
Definition turn {A} (p : prog E A) (s : S) : prog E A * S :=
  match p with
  | Do o k => let '(x, s') := h _ o s in (k x, s')
  | p => (p, s)
  end.

(** The schedule says whose turn it is, the first program's on [true]. *)
Fixpoint race {A B} (schedule : list bool) (p : prog E A) (q : prog E B) (s : S)
  : prog E A * prog E B * S :=
  match schedule with
  | [] => (p, q, s)
  | true :: schedule => let '(p', s') := turn p s in race schedule p' q s'
  | false :: schedule => let '(q', s') := turn q s in race schedule p q' s'
  end.
End racing.

(** ** Weakest preconditions *)

(** What the operations of [E] may do on states [S]. *)
Class Effects (E : Type -> Type) (S : Type) := {
  effect : forall {X}, E X -> S -> (X -> S -> Prop) -> Prop;
  effect_mono {X} (o : E X) s (Q1 Q2 : X -> S -> Prop) :
    (forall x s', Q1 x s' -> Q2 x s') -> effect o s Q1 -> effect o s Q2;
}.

Section wp.
Context {E : Type -> Type} {S : Type} `{Effects E S}.
Implicit Types (s : S).

Fixpoint wp {A} (p : prog E A) (s : S) (Q : result exn A -> S -> Prop) : Prop :=
  match p with
  | Ret a => Q (Ok a) s
  | Raise e => Q (Err e) s
  | Do o k => effect o s (fun x s' => wp (k x) s' Q)
  end.

Lemma wp_mono {A} (p : prog E A) s (Q1 Q2 : result exn A -> S -> Prop) :
  (forall r s', Q1 r s' -> Q2 r s') -> wp p s Q1 -> wp p s Q2.
Proof.
  intros Hq. revert s. induction p as [a|e|X o k IH]; simpl; intros s; [apply Hq..|].
  apply effect_mono. auto.
Qed.

Lemma wp_bind {A B} (p : prog E A) (f : A -> prog E B) s (Q : result exn B -> S -> Prop) :
  wp p s (fun r s' => match r with Ok a => wp (f a) s' Q | Err e => Q (Err e) s' end) ->
  wp (bind p f) s Q.
Proof.
  revert s. induction p as [a|e|X o k IH]; simpl; intros s; [done..|].
  apply effect_mono. auto.
Qed.

Lemma wp_try_except {A} (p : prog E A) (g : exn -> prog E A) s (Q : result exn A -> S -> Prop) :
  wp p s (fun r s' => match r with Ok a => Q (Ok a) s' | Err e => wp (g e) s' Q end) ->
  wp (try_except p g) s Q.
Proof.
  revert s. induction p as [a|e|X o k IH]; simpl; intros s; [done..|].
  apply effect_mono. auto.
Qed.

Lemma wp_try_finally {A} (p : prog E A) (f : prog E unit) s (Q : result exn A -> S -> Prop) :
  wp p s (fun r s' => wp f s' (fun r' s'' =>
    match r' with Ok _ => Q r s'' | Err e => Q (Err e) s'' end)) ->
  wp (try_finally p f) s Q.
Proof.
  revert s. induction p as [a|e|X o k IH]; simpl; intros s.
  - intros Hf. apply wp_bind. eapply wp_mono; [|exact Hf]. by intros [].
  - intros Hf. apply wp_bind. eapply wp_mono; [|exact Hf]. by intros [].
  - apply effect_mono. auto.
Qed.

Lemma wp_lift {A} (r : result exn A) s (Q : result exn A -> S -> Prop) :
  Q r s -> wp (lift r) s Q.
Proof. by destruct r. Qed.

Lemma wp_invoke {X} (o : E (result exn X)) s (Q : result exn X -> S -> Prop) :
  effect o s Q -> wp (invoke o) s Q.
Proof. apply effect_mono. intros r s'. apply wp_lift. Qed.

(** A loop keeps an invariant on the elements done, the accumulator and the state. *)
Lemma wp_for_each_done {X A} (l : list X) (a : A) (body : A -> X -> prog E A) s
    (I : list X -> A -> S -> Prop) (Q : result exn A -> S -> Prop) :
  I [] a s ->
  (forall seen a x s, I seen a s -> x ∈ l ->
     wp (body a x) s
       (fun r s' => match r with Ok a' => I (x :: seen) a' s' | Err e => Q (Err e) s' end)) ->
  (forall seen a s, I seen a s -> (forall x, x ∈ l -> x ∈ seen) -> Q (Ok a) s) ->
  wp (for_each l a body) s Q.
Proof.
  intros Hi Hbody Hend.
  cut (forall rest seen a s, I seen a s -> (forall x, x ∈ l -> x ∈ seen \/ x ∈ rest) ->
         (forall x, x ∈ rest -> x ∈ l) -> wp (for_each rest a body) s Q).
  { intros Hcut. apply (Hcut l []); auto. }
  clear Hi a s. intros rest. induction rest as [|x rest IH]; intros seen a s Hi Hall Hsub.
  - apply (Hend seen); [done|]. intros x Hx. by destruct (Hall x Hx) as [|?%not_elem_of_nil].
  - simpl. apply wp_bind. eapply wp_mono; [|apply Hbody; [exact Hi|apply Hsub; by left]].
    intros [a'|e] s' Hr; [|done]. apply (IH (x :: seen)); [done| |].
    + intros y Hy. destruct (Hall y Hy) as [?|Hy']; [left; by right|].
      apply elem_of_cons in Hy' as [->|?]; [left; by left|by right].
    + intros y Hy. apply Hsub. by right.
Qed.

(** The same with an invariant that does not look at the elements done. *)
Lemma wp_for_each {X A} (l : list X) (a : A) (body : A -> X -> prog E A) s
    (I : A -> S -> Prop) (Q : result exn A -> S -> Prop) :
  I a s ->
  (forall a x s, I a s -> x ∈ l ->
     wp (body a x) s (fun r s' => match r with Ok a' => I a' s' | Err e => Q (Err e) s' end)) ->
  (forall a s, I a s -> Q (Ok a) s) ->
  wp (for_each l a body) s Q.
Proof. intros Hi Hbody Hend. apply (wp_for_each_done _ _ _ _ (fun _ => I)); eauto. Qed.

(** What [wp] promises holds of a run whose handler does what [effect] allows. *)
Lemma wp_run (h : forall X, E X -> S -> X * S) {A} (p : prog E A) s Q :
  (forall X (o : E X) s (P : X -> S -> Prop), effect o s P -> P (h X o s).1 (h X o s).2) ->
  wp p s Q -> Q (run h p s).1 (run h p s).2.
Proof.
  intros Hh. revert s. induction p as [a|e|X o k IH]; simpl; intros s Hw; [done..|].
  apply Hh in Hw. destruct (h X o s) as [x s']. by apply IH.
Qed.
End wp.

(** ** Executions that others take part in *)

(** [step o s x s']: operation [o] in state [s] can answer [x] and leave [s']. *)
Inductive execution {E : Type -> Type} {S : Type} (step : forall X, E X -> S -> X -> S -> Prop)
    {A : Type} : prog E A -> S -> result exn A -> S -> Prop :=
| execution_ret a s : execution step (Ret a) s (Ok a) s
| execution_raise e s : execution step (Raise e) s (Err e) s
| execution_do X (o : E X) k s x s1 r s' :
    step X o s x s1 -> execution step (k x) s1 r s' -> execution step (Do o k) s r s'.

(** ** Refinement of operations *)

Section attempts.
Context {E : Type -> Type} {S : Type} `{Effects E S}.

Lemma wp_attempt {A} (p : prog E A) (s : S) (Q : result exn (result exn A) -> S -> Prop) :
  wp p s (fun r s' => Q (Ok r) s') -> wp (attempt p) s Q.
Proof.
  intros Hp. apply wp_try_except, wp_bind. eapply wp_mono; [|exact Hp]. by intros [a|e] s' HQ.
Qed.
End attempts.

Section simulation.
Context {E F : Type -> Type} {S T : Type} `{Effects E S} `{Effects F T}.
Context (h : forall X, E X -> prog F X) (sim : S -> T -> Prop).
Context (P : forall X, E X -> Prop).
Hypothesis op_refined : forall X (o : E X) s t (Q : X -> S -> Prop),
  P X o -> sim s t -> effect o s Q ->
  wp (h X o) t (fun r t' => exists x s', r = Ok x /\ sim s' t' /\ Q x s').

(** When the program of every operation a program can perform does only what the
    operation may do, what holds of the program holds of it with its operations
    carried out. *)
Lemma wp_interp_every {A} (p : prog E A) s t (Q : result exn A -> S -> Prop) :
  every P p -> sim s t -> wp p s Q -> wp (interp h p) t (fun r t' => exists s', sim s' t' /\ Q r s').
Proof.
  revert s t. induction p as [a|e|X o k IH]; simpl; intros s t He Hs Hp; [by exists s..|].
  destruct He as [Ho Hk]. apply wp_bind. eapply wp_mono; [|by eapply op_refined].
  intros r t' (x & s' & -> & Hs' & HQ). by eapply IH.
Qed.
End simulation.

Lemma wp_interp {E F : Type -> Type} {S T : Type} `{Effects E S} `{Effects F T}
    (h : forall X, E X -> prog F X) (sim : S -> T -> Prop) {A} (p : prog E A) s t
    (Q : result exn A -> S -> Prop) :
  (forall X (o : E X) s t (Q : X -> S -> Prop), sim s t -> effect o s Q ->
     wp (h X o) t (fun r t' => exists x s', r = Ok x /\ sim s' t' /\ Q x s')) ->
  sim s t -> wp p s Q -> wp (interp h p) t (fun r t' => exists s', sim s' t' /\ Q r s').
Proof.
  intros Hop. apply (wp_interp_every h sim (fun _ _ => True)); [by intros; eapply Hop|].
  clear. induction p; cbn; auto.
Qed.

(** What the operations of [E] may do when [h] carries them out. *)
Section carried.
Context {E F : Type -> Type} {T : Type} `{Effects F T} (h : forall X, E X -> prog F X).

Definition carried_effect {X} (o : E X) (t : T) (Q : X -> T -> Prop) : Prop :=
  wp (h X o) t (fun r t' => exists x, r = Ok x /\ Q x t').

Lemma carried_mono X (o : E X) t (Q1 Q2 : X -> T -> Prop) :
  (forall x t', Q1 x t' -> Q2 x t') -> carried_effect o t Q1 -> carried_effect o t Q2.
Proof. intros HQ. apply wp_mono. intros r t' (x & -> & Hx). eauto. Qed.

Definition carried : Effects E T := {| effect := @carried_effect; effect_mono := carried_mono |}.

Lemma wp_carried {A} (p : prog E A) t (Q : result exn A -> T -> Prop) :
  @wp E T carried A p t Q -> wp (interp h p) t Q.
Proof.
  intros Hp. eapply wp_mono; [|eapply (wp_interp (H := carried) h eq p t t); [|reflexivity|exact Hp]].
  - by intros r t' (s' & -> & HQ).
  - intros X o s t0 K -> Ho. eapply wp_mono; [|exact Ho]. intros r t' (x & -> & HK). eauto.
Qed.
End carried.

Section soundness.
Context {E : Type -> Type} {S : Type} `{Effects E S}.
Context (step : forall X, E X -> S -> X -> S -> Prop) (I : S -> Prop) (T : S -> S -> Prop).
Context `{!PreOrder T}.
Hypothesis effect_step : forall X (o : E X) s (Q : X -> S -> Prop) x s1,
  I s -> effect o s Q -> step X o s x s1 -> Q x s1 /\ I s1 /\ T s s1.

(** An execution keeps the promise of [wp], the invariant [I] and the relation [T]. *)
Lemma wp_execution {A} (p : prog E A) s r s' (Q : result exn A -> S -> Prop) :
  I s -> wp p s Q -> execution step p s r s' -> Q r s' /\ I s' /\ T s s'.
Proof.
  intros Hi Hw He. induction He as [a s|e s|X o k s x s1 r s' Hs He IH]; simpl in Hw.
  - split; [done|]. split; [done|reflexivity].
  - split; [done|]. split; [done|reflexivity].
  - destruct (effect_step _ _ _ _ _ _ Hi Hw Hs) as (Hw1 & Hi1 & HT).
    destruct (IH Hi1 Hw1) as (HQ & Hi' & HT'). split; [done|]. split; [done|by etrans].
Qed.

(** A handler whose answers [step] allows runs an execution. *)
Lemma run_execution (h : forall X, E X -> S -> X * S) {A} (p : prog E A) s :
  (forall X (o : E X) s, step X o s (h X o s).1 (h X o s).2) ->
  execution step p s (run h p s).1 (run h p s).2.
Proof.
  intros Hh. revert s. induction p as [a|e|X o k IH]; intros s; [constructor..|].
  simpl. pose proof (Hh X o s) as Hs. destruct (h X o s) as [x s1].
  econstructor; [exact Hs|apply IH].
Qed.
End soundness.
