(* ===== verification/Observability.v ===== *)
(** * Metrics and logs

    src/src/dalmatian/observability.py: the metrics the components report as
    operations ([metric]), [query_timer] as a wrapper of programs, the JSON line
    [JsonFormatter] makes of a log record, and [configure_logging] as a change of
    the root logger.  The Prometheus registry itself is not modelled. *)

From S2P Require Import Prelude Models Fingerprint Prog.

#[local] Open Scope Z_scope.

(** ** Metrics *)

(** A change of one metric, with its label. *)
Inductive metric :=
| QuerySeconds (mode : string)
| QueueWaitSeconds (seconds : Z)
| ActiveQueries (mode : string) (change : Z)
| CacheResult (result : string)
| CacheDataset (result : string)
| StaleRecoveries (n : Z)
| OutputBytes (mode : string) (n : Z)
| JobOutcomes (status : string)
| JobQueueDepth (n : Z).

Section timer.
Context {E : Type -> Type} (measure : metric -> E unit).
Local Open Scope prog_scope.

(** [with query_timer(mode): body]: counted as active, timed and counted off
    however the body ends. *)
Definition query_timer {A} (mode : string) (body : prog E A) : prog E A :=
  perform (measure (ActiveQueries mode 1));;
  try_finally body
    (perform (measure (QuerySeconds mode));; perform (measure (ActiveQueries mode (-1)))).
End timer.

(** ** Log records *)

(** What a record's attribute can be: the values JSON has, and everything else. *)
Inductive log_value :=
| LNull
| LBool (b : bool)
| LInt (z : Z)
| LFloat (repr : string)
| LStr (s : string)
| LOther.

(** [record.__dict__] also holds the standard attributes. *)
Record LogRecord := MkLogRecord {
  lr_levelname : string;
  lr_name : string;
  lr_message : string;
  lr_dict : list (string * log_value);
  (* [formatException(record.exc_info)] *)
  lr_exception : option string;
}.

Definition standard : list string :=
  ["name"; "msg"; "args"; "levelname"; "levelno"; "pathname"; "filename"; "module"; "exc_info";
   "exc_text"; "stack_info"; "lineno"; "funcName"; "created"; "msecs"; "relativeCreated"; "thread";
   "threadName"; "processName"; "process"; "taskName"].

Definition log_text (v : log_value) : option string :=
  match v with
  | LNull => Some "null"
  | LBool b => Some (if b then "true" else "false")
  | LInt z => Some (str_of_Z z)
  | LFloat repr => Some repr
  | LStr s => Some (quote s)
  | LOther => None
  end.

(** The attributes that go into the line, as JSON texts. *)
Definition logged (p : string * log_value) : option (string * string) :=
  if bool_decide (p.1 ∈ standard) || starts_with "_" p.1 then None
  else match log_text p.2 with Some t => Some (p.1, t) | None => None end.

(** [payload], each value as its JSON text; [now] is the clock's. *)
Definition payload (now : string) (r : LogRecord) : list (string * string) :=
  let base := [("ts", quote now); ("level", quote (lr_levelname r)); ("logger", quote (lr_name r));
               ("message", quote (lr_message r))] in
  let all := dict_update base (omap logged (lr_dict r)) in
  match lr_exception r with
  | Some text => dict_set "exception" (quote text) all
  | None => all
  end.

(** [json.dumps(payload, separators=(",", ":"))]: the keys keep their order. *)
Definition format (now : string) (r : LogRecord) : string :=
  "{" +:+ join "," (map (fun p => quote p.1 +:+ ":" +:+ p.2) (payload now r)) +:+ "}".

(** ** The root logger *)

Inductive log_handler := JsonToStdout | OtherHandler (name : string).

Record root_logger := RootLogger { rl_handlers : list log_handler; rl_level : string }.

Definition upper_char (a : Ascii.ascii) : Ascii.ascii :=
  let n := Ascii.nat_of_ascii a in
  if ((97 <=? n) && (n <=? 122))%nat then Ascii.ascii_of_nat (n - 32) else a.

Fixpoint upper (s : string) : string :=
  match s with EmptyString => EmptyString | String a s => String (upper_char a) (upper s) end.

(** The level names of the logging module. *)
Definition level_names : list string :=
  ["CRITICAL"; "FATAL"; "ERROR"; "WARN"; "WARNING"; "INFO"; "DEBUG"; "NOTSET"].

(** The handlers are replaced before the level is checked. *)
Definition configure_logging (level : string) (root : root_logger)
  : result exn unit * root_logger :=
  if decide (upper level ∈ level_names) then (Ok tt, RootLogger [JsonToStdout] (upper level))
  else (raise PyValueError ("Unknown level: '" +:+ (upper level +:+ "'")),
        RootLogger [JsonToStdout] (rl_level root)).

(** ** What the lines promise *)

Definition own_fields : list string := ["ts"; "level"; "logger"; "message"; "exception"].

Lemma logged_keys l x :
  x ∈ map fst (omap logged l) -> x ∈ map fst l /\ x ∉ standard /\ starts_with "_" x = false.
Proof.
  induction l as [|[k v] l IH]; cbn [map omap list_omap]; [by intros ?%elem_of_nil|].
  assert (Hskip : x ∈ map fst (omap logged l) -> x ∈ k :: map fst l /\ x ∉ standard /\ starts_with "_" x = false)
    by (intros Hx; destruct (IH Hx) as (? & ? & ?); split_and!; [by right|done..]).
  unfold logged at 1. cbn [fst snd].
  destruct (bool_decide (k ∈ standard) || starts_with "_" k) eqn:E; [exact Hskip|].
  apply orb_false_iff in E as [E1%bool_decide_eq_false E2].
  destruct (log_text v); cbn; [|exact Hskip].
  intros [-> | Hx]%elem_of_cons; [split_and!; [by left|done..]|by apply Hskip].
Qed.

Lemma payload_keys now r : NoDup (map fst (payload now r)).
Proof.
  unfold payload. assert (Hd : NoDup (map fst (dict_update
    [("ts", quote now); ("level", quote (lr_levelname r)); ("logger", quote (lr_name r));
     ("message", quote (lr_message r))] (omap logged (lr_dict r))))).
  { apply dict_update_keys. by apply (bool_decide_unpack _). }
  destruct (lr_exception r); [by apply dict_set_keys|done].
Qed.

(** An attribute of the record that is not one of the formatter's own names cannot
    change the formatter's own fields. *)
Lemma own_field_kept r x :
  x ∈ own_fields -> x ∉ map fst (lr_dict r) ->
  dict_get x (omap logged (lr_dict r)) = None
  /\ dict_get x (reverse (omap logged (lr_dict r))) = None.
Proof.
  intros _ Hx. assert (Hn : x ∉ map fst (omap logged (lr_dict r)))
    by (intros H%logged_keys; naive_solver).
  split; apply dict_get_absent; [done|].
  change (map fst (reverse ?l)) with (fst <$> reverse l). by rewrite fmap_reverse, elem_of_reverse.
Qed.

(** A line has one value per key, and the formatter's own fields keep their values
    as long as no attribute of the record has one of their names. *)
Theorem log_lines_keep_their_fields now r :
  (forall x, x ∈ own_fields -> x ∉ map fst (lr_dict r)) ->
  NoDup (map fst (payload now r))
  /\ dict_get "ts" (payload now r) = Some (quote now)
  /\ dict_get "level" (payload now r) = Some (quote (lr_levelname r))
  /\ dict_get "logger" (payload now r) = Some (quote (lr_name r))
  /\ dict_get "message" (payload now r) = Some (quote (lr_message r))
  /\ dict_get "exception" (payload now r) = quote <$> lr_exception r.
Proof.
  intros Hn. split; [apply payload_keys|].
  assert (H : forall x, x ∈ own_fields -> dict_get x (reverse (omap logged (lr_dict r))) = None).
  { intros x Hx. by apply own_field_kept, Hn. }
  unfold payload. destruct (lr_exception r) as [text|]; rewrite ?dict_get_set, !dict_get_update.
  all: rewrite !H by (unfold own_fields; set_solver); done.
Qed.

(** An attribute called "level" takes the place of the record's level. *)
Example level_is_overwritten :
  format "now" (MkLogRecord "INFO" "dalmatian.worker" "job failed" [("level", LInt 3)] None)
  = "{" +:+ quote "ts" +:+ ":" +:+ quote "now" +:+ "," +:+ quote "level" +:+ ":3,"
    +:+ quote "logger" +:+ ":" +:+ quote "dalmatian.worker" +:+ ","
    +:+ quote "message" +:+ ":" +:+ quote "job failed" +:+ "}".
Proof. vm_compute. reflexivity. Qed.

(** Configuring twice is configuring once. *)
Lemma configure_logging_idem level root :
  (configure_logging level (configure_logging level root).2).2 = (configure_logging level root).2.
Proof. unfold configure_logging. case_decide; done. Qed.
