(* ===== verification/JobQueue.v ===== *)
(** * The job-queue client

    The methods of [ValkeyJobQueue] (src/src/dalmatian/jobs.py) as programs over
    the atomic calls of QueueState.v, the clock, the jitter, uuid4 and the
    metadata store.  Between two calls of a method any other client may act.
    pydantic's JSON codec of requests and results is a parameter.  A call always
    answers: the errors of the connection to Valkey, which any of these methods can
    raise instead, are not modelled. *)

From Stdlib Require Import QArith Qround.
From stdpp Require Import base.
From S2P Require Import Prelude Valkey Models Fingerprint Prog QueueState.

#[local] Open Scope Z_scope.

(** [model_dump_json] and [validate_json] of requests and results. *)
Class QueueCodec (QR : Type) := {
  dump_request : QueryRequest -> string;
  load_request : string -> result exn QueryRequest;
  dump_result : QR -> string;
  load_result : string -> result exn QR;
}.

(** ** Operations *)

Inductive qop (QR : Type) : Type -> Type :=
| QCall {X : Type} (call : qcall X) : qop QR X
| NowMs : qop QR Z
| Jitter : qop QR Q
| Uuid4 : qop QR string
| RecordInvocation (id kind payload : string) : qop QR (result exn unit)
| UpdateInvocation (id status : string) (res : option QR) (error error_class : option string)
    (attempts : option Z) : qop QR (result exn unit).
Arguments QCall {QR X} call.
Arguments NowMs {QR}.
Arguments Jitter {QR}.
Arguments Uuid4 {QR}.
Arguments RecordInvocation {QR} id kind payload.
Arguments UpdateInvocation {QR} id status res error error_class attempts.

(** What [__init__] keeps; the delays are real numbers of seconds. *)
Record client_cfg := ClientCfg {
  cc_queue : queue_cfg;
  retry_base_seconds : Q;
  retry_max_seconds : Q;
}.

Record ReservedJob := Reserved {
  rj_id : string;
  rj_request : QueryRequest;
  rj_attempts : Z;
  rj_shard : nat;
}.

(** ** Python conversions of hash fields *)

Definition PyKeyError : exn_class := Derived "KeyError" (Derived "LookupError" PyException).

(** [int(text)]. *)
Definition py_int (s : string) : result exn Z :=
  match tonumber s with
  | Some z => Ok z
  | None => raise PyValueError "invalid literal for int() with base 10"
  end.

(** [text or d], then [int]. *)
Definition int_or (o : option string) (d : Z) : result exn Z :=
  match o with
  | None | Some EmptyString => Ok d
  | Some s => py_int s
  end.

(** [_dt]: milliseconds, nothing for an absent, empty or zero field. *)
Definition _dt (o : option string) : result exn (option Z) :=
  match int_or o 0 with
  | Ok z => Ok (if decide (z = 0) then None else Some z)
  | Err e => Err e
  end.

(** [text or None]. *)
Definition or_none (o : option string) : option string :=
  match o with Some EmptyString => None | o => o end.

(** [int(base * jitter * 1000)], at least 1. *)
Definition delay_ms (base jitter : Q) : Z := Z.max 1 (Qfloor (base * jitter * 1000)).

(** [base * 2 ** max(0, attempts - 1)], at most [cap]. *)
Definition backoff (base cap : Q) (attempts : Z) : Q :=
  let b := Qmult base (inject_Z (2 ^ Z.max 0 (attempts - 1))) in
  if Qle_bool b cap then b else cap.

Section client.
Context {QR : Type} `{QueueCodec QR} `{Sha256} (cc : client_cfg).
Local Open Scope prog_scope.

Let c := cc_queue cc.

Abbreviation program := (prog (qop QR)).

Definition qcalls {X} (call : qcall X) : program X := perform (QCall call).
Definition _now_ms : program Z := perform NowMs.

Definition _shard (request : QueryRequest) : nat :=
  Z.to_nat (sha256_head (dataset_affinity_key request) mod Z.of_nat (affinity_shards c)).

Definition _metadata_status (job_id status : string) (res : option QR)
    (error error_class : option string) : program unit :=
  best_effort (UpdateInvocation job_id status res error error_class None).

Definition depth : program Z :=
  total <- for_each (seq 0 (affinity_shards c)) 0
             (fun acc shard => n <- qcalls (PendingLen shard);; Ret (acc + n));;
  n <- qcalls ProcessingLen;;
  r <- qcalls RetryLen;;
  Ret (total + n + r).

(** The record [get] builds from a job's hash. *)
Definition record_of (job_id : string) (data : gmap string string)
  : result exn (JobRecord QR) :=
  r_bind (match or_none (data !! "result") with
          | Some text => r_bind (load_result text) (fun r => Ok (Some r))
          | None => Ok None
          end) (fun res =>
  r_bind (match data !! "status" with
          | Some s => job_status_of s
          | None => raise PyKeyError "'status'"
          end) (fun status =>
  r_bind (match data !! "attempts" with Some a => py_int a | None => Ok 0 end) (fun attempts =>
  r_bind (_dt (data !! "created_at_ms")) (fun created =>
  r_bind (_dt (data !! "updated_at_ms")) (fun updated =>
  r_bind (_dt (data !! "next_attempt_ms")) (fun next =>
  Ok (MkJobRecord job_id status attempts res (or_none (data !! "error"))
        created updated next))))))).

Definition get (job_id : string) : program (option (JobRecord QR)) :=
  data <- qcalls (JobHash job_id);;
  if decide (data = ∅) then Ret None
  else record <- lift (record_of job_id data);; Ret (Some record).

Definition conflict_text (job_id : string) : string :=
  "Idempotency-Key is already bound to job " +:+ job_id +:+ " with a different request".
Definition expired_text : string :=
  "Idempotency-Key is still retained but its job record has expired; submit a new request with a new key".

(** The answer for a key that is bound to [job_id] by the same request. *)
Definition existing_job (job_id : string) : program (JobRecord QR) :=
  existing <- get job_id;;
  match existing with
  | Some record => Ret record
  | None => Raise (Exn IdempotencyConflict expired_text)
  end.

(** The second half of [enqueue]: a new id, and the script. *)
Definition submit (request : QueryRequest) (key : option string) (fingerprint : string)
  : program (JobRecord QR) :=
  job_id <- perform Uuid4;;
  now_ms <- _now_ms;;
  reply <- qcalls (Enqueue (sha256_hex <$> key) fingerprint (dump_request request)
                     (_shard request) now_ms job_id);;
  let '(state, selected) := reply in
  if decide (state = "full") then Raise (Exn BusyError "async queue is full")
  else if decide (state = "conflict") then
    Raise (Exn IdempotencyConflict (conflict_text selected))
  else if decide (state = "existing") then existing_job selected
  else
    best_effort (RecordInvocation job_id "async" (dump_request request));;
    let at_ms := if decide (now_ms = 0) then None else Some now_ms in
    Ret (MkJobRecord job_id QUEUED 0 None None at_ms at_ms None).

Definition enqueue (request : QueryRequest) (idempotency_key : option string)
  : program (JobRecord QR) :=
  let fingerprint := request_payload_fingerprint request in
  match idempotency_key with
  | None => submit request None fingerprint
  | Some key =>
      if negb (bool_decide (1 <= String.length key <= 255)%nat) then
        Raise (Exn PyValueError "Idempotency-Key must be between 1 and 255 characters")
      else
        binding <- qcalls (IdemHash (sha256_hex key));;
        if decide (binding = ∅) then submit request (Some key) fingerprint
        else if decide (binding !! "request_hash" = Some fingerprint) then
          existing_job (default "" (binding !! "job_id"))
        else Raise (Exn IdempotencyConflict
                     (conflict_text (default "" (binding !! "job_id"))))
  end.

Definition promote_retries : program Z :=
  now <- _now_ms;;
  due <- qcalls (Due now);;
  for_each due 0 (fun moved job_id =>
    data <- qcalls (JobHash job_id);;
    shard <- lift (int_or (data !! "shard") 0);;
    r <- qcalls (Promote job_id now (Z.to_nat shard));;
    Ret (moved + if decide (r = 0) then 0 else 1)).

(** [rpoplpush] over the other shards, until one has a job. *)
Fixpoint pop_any (candidates : list nat) : program (option string) :=
  match candidates with
  | [] => Ret None
  | candidate :: rest =>
      job_id <- qcalls (Pop candidate);;
      match job_id with Some id => Ret (Some id) | None => pop_any rest end
  end.

(** The first half of [reserve]: due retries, then the worker's shard, then the others. *)
Definition next_id (shard : nat) : program (option string) :=
  _ <- promote_retries;;
  let primary := (shard mod affinity_shards c)%nat in
  job_id <- qcalls (Pop primary);;
  match job_id with
  | Some id => Ret (Some id)
  | None =>
      if (1 <? affinity_shards c)%nat
      then pop_any (filter (fun i => i <> primary) (seq 0 (affinity_shards c)))
      else Ret None
  end.

(** The second half: the claim and what the worker is told. *)
Definition claim_job (worker_id id : string) : program (option ReservedJob) :=
  now_ms <- _now_ms;;
  claimed <- qcalls (Claim id worker_id (now_ms + lease_seconds c * 1000) now_ms);;
  match claimed with
  | None => Ret None
  | Some (request_json, attempts, claimed_shard, created_at_ms) =>
      _ <- lift (py_int created_at_ms);;
      best_effort (UpdateInvocation id "running" None None None (Some attempts));;
      request <- lift (load_request request_json);;
      shard <- lift (py_int claimed_shard);;
      Ret (Some (Reserved id request attempts (Z.to_nat shard)))
  end.

Definition reserve (worker_id : string) (shard : nat) : program (option ReservedJob) :=
  job_id <- next_id shard;;
  match job_id with None => Ret None | Some id => claim_job worker_id id end.

Definition heartbeat (job_id worker_id : string) : program bool :=
  now_ms <- _now_ms;;
  r <- qcalls (Heartbeat job_id worker_id (now_ms + lease_seconds c * 1000) now_ms);;
  Ret (bool_decide (r <> 0)).

Definition owns (job_id worker_id : string) : program bool :=
  data <- qcalls (JobHash job_id);;
  if decide (data !! "status" = Some (job_status_value RUNNING)
             /\ data !! "worker_id" = Some worker_id) then
    lease <- lift (int_or (data !! "lease_expires_ms") 0);;
    now_ms <- _now_ms;;
    Ret (now_ms <? lease)
  else Ret false.

Definition cancel_requested (job_id worker_id : string) : program bool :=
  data <- qcalls (JobHash job_id);;
  Ret (bool_decide (data !! "status" = Some (job_status_value RUNNING)
                    /\ data !! "worker_id" = Some worker_id
                    /\ data !! "cancel_requested" = Some "1")).

Definition request_cancel (job_id : string) : program (option (JobRecord QR)) :=
  data <- qcalls (JobHash job_id);;
  match data !! "shard" with
  | None => Ret None
  | Some text =>
      shard <- lift (py_int text);;
      now_ms <- _now_ms;;
      r <- qcalls (Cancel job_id (Z.to_nat shard) now_ms);;
      if decide (r = -1) then Ret None
      else
        record <- get job_id;;
        match record with
        | Some rec =>
            if decide (jr_status rec = CANCELLED)
            then _metadata_status job_id "cancelled" None None None;; Ret (Some rec)
            else Ret (Some rec)
        | None => Ret None
        end
  end.

Definition complete (job_id worker_id : string) (res : QR) : program bool :=
  now_ms <- _now_ms;;
  r <- qcalls (Complete job_id worker_id (dump_result res) now_ms);;
  if decide (r <> 0)
  then _metadata_status job_id "succeeded" (Some res) None None;; Ret true
  else Ret false.

Definition publish_output (job_id worker_id : string) (attempt_number : Z)
    (publication_key attempt_id manifest_uri write_mode : string) : program Z :=
  now_ms <- _now_ms;;
  qcalls (Publish publication_key worker_id attempt_number write_mode job_id attempt_id
            manifest_uri now_ms).

Definition cancel_complete (job_id worker_id : string) : program bool :=
  now_ms <- _now_ms;;
  r <- qcalls (Finish job_id worker_id CANCELLED "" now_ms);;
  if decide (r <> 0)
  then _metadata_status job_id "cancelled" None None None;; Ret true
  else Ret false.

Definition _retry_delay_ms (attempts : Z) : program Z :=
  jitter <- perform Jitter;;
  Ret (delay_ms (backoff (retry_base_seconds cc) (retry_max_seconds cc) attempts) jitter).

Definition fail (job_id worker_id error : string) (retryable : bool)
    (error_class : option string) : program bool :=
  if retryable then
    data <- qcalls (JobHash job_id);;
    attempts <- lift (int_or (data !! "attempts") 0);;
    now_ms <- _now_ms;;
    delay <- _retry_delay_ms attempts;;
    now2_ms <- _now_ms;;
    r <- qcalls (RetryLater job_id worker_id error now2_ms (now_ms + delay));;
    if decide (r <> 0) then
      record <- get job_id;;
      let status := match record with
                    | Some rec => job_status_value (jr_status rec)
                    | None => "retrying"
                    end in
      _metadata_status job_id status None (Some error) error_class;;
      Ret true
    else Ret false
  else
    now_ms <- _now_ms;;
    r <- qcalls (Finish job_id worker_id FAILED error now_ms);;
    if decide (r <> 0)
    then _metadata_status job_id "failed" None (Some error) error_class;; Ret true
    else Ret false.

(** The body of [reap_stale]'s loop. *)
Definition reap_one (now_ms : Z) (reaped : Z) (job_id : string) : program Z :=
  data <- qcalls (JobHash job_id);;
  lease_ms <- (if decide (data !! "status" = Some (job_status_value RUNNING))
               then lift (int_or (data !! "lease_expires_ms") 0)
               else Ret now_ms);;
  if now_ms <? lease_ms then Ret reaped
  else
    attempts <- lift (int_or (data !! "attempts") 1);;
    delay <- _retry_delay_ms attempts;;
    shard <- lift (int_or (data !! "shard") 0);;
    r <- qcalls (Reap job_id (default "0" (or_none (data !! "lease_expires_ms"))) now_ms
                   (now_ms + delay) (Z.to_nat shard));;
    if decide (r <> 0) then
      record <- get job_id;;
      match record with
      | Some rec =>
          _metadata_status job_id (job_status_value (jr_status rec)) None (jr_error rec) None;;
          Ret (reaped + 1)
      | None => Ret (reaped + 1)
      end
    else Ret reaped.

Definition reap_stale : program Z :=
  now_ms <- _now_ms;;
  listed <- qcalls Processing;;
  reaped <- for_each listed 0 (reap_one now_ms);;
  _ <- promote_retries;;
  Ret reaped.
End client.
