(* ===== verification/ClientWorld.v ===== *)
(** * Client methods among other clients

    A method of the job-queue client runs while other clients call the server and
    keys expire.  A [world] is the queue and the job ids uuid4 has handed out
    (to anyone who used them, and to this client); others never reuse one of
    those.  [exec] is the interleaved execution of a program; [wp] is the proof
    method, sound for it ([wp_exec]).  Every call a program makes is an obligation
    of its [wp]: it must meet [event_ok], what QueueInv.v asks of a client. *)

From Stdlib Require Import QArith.
From S2P Require Import Prelude Valkey Models Prog.
From S2P Require Import QueueState QueueScripts QueueRefine QueueInv QueueTrace QueueLife.
From S2P Require Import Fingerprint JobQueue.

#[local] Open Scope Z_scope.

Record world := World { w_queue : qstate; w_ids : gset string }.

Definition minted {X} (call : qcall X) (ids : gset string) : gset string :=
  match call with Enqueue _ _ _ _ _ id => {[id]} ∪ ids | _ => ids end.

Section world.
Context (c : queue_cfg) (Hc : queue_cfg_ok c).

(** One action of somebody else. *)
Inductive env_step (w : world) : world -> Prop :=
| env_call X (call : qcall X) :
    event_ok c (w_queue w) (Called call) ->
    (forall id, is_enqueue call id = true -> id ∉ w_ids w) ->
    env_step w (World (spec_call c call (w_queue w)).2 (minted call (w_ids w)))
| env_expire_job id : env_step w (World (expire_job id (w_queue w)) (w_ids w))
| env_expire_idem d : env_step w (World (expire_idem d (w_queue w)) (w_ids w)).

Definition others : world -> world -> Prop := rtc env_step.

(** The queue's invariant, and an id nobody has used is nowhere. *)
Definition world_inv (w : world) : Prop :=
  Inv c (w_queue w) /\ forall id, id ∉ w_ids w -> fresh c (w_queue w) id.

(** This client's call; its own ids are already in [w_ids]. *)
Definition after {X} (call : qcall X) (w : world) : world :=
  World (spec_call c call (w_queue w)).2 (w_ids w).

(** ** Fresh ids *)

Lemma fresh_places q id i :
  (i < affinity_shards c)%nat -> fresh c q id -> id ∉ pend q i.
Proof.
  intros Hi (_ & Hp & _). apply count_zero. pose proof (pend_count_le c i q id Hi).
  unfold places in Hp. lia.
Qed.

Lemma fresh_call q {X} (call : qcall X) id :
  call_ok c q call -> is_enqueue call id = false -> fresh c q id ->
  fresh c (spec_call c call q).2 id.
Proof.
  intros Hok He Hf. destruct (decide (touches q call = Some id)) as [Ht|Ht].
  2: { pose proof (call_frame c q call id Ht) as Hs. destruct Hf as (Hj & Hp & Hd).
       pose proof (same_at_pend_count c _ _ _ Hs) as Epc. destruct Hs.
       split; [by rewrite sa_job|]. unfold places, retry_count.
       rewrite Epc, sa_processing, sa_retry, sa_dead. done. }
  pose proof Hf as (Hj & Hp & Hd). unfold places, retry_count in Hp.
  destruct call; cbn [touches is_enqueue spec_call call_ok] in *; try discriminate Ht;
    try injection Ht as ->;
    unfold Spec.claim, Spec.heartbeat, Spec.complete, Spec.finish, Spec.retry_later,
      Spec.reap, Spec.promote, Spec.cancel; rewrite ?Hj; try exact Hf.
  - by rewrite bool_decide_true in He.
  - split; [done|]. split; [|done]. unfold places, retry_count. simpl.
    rewrite pend_count_rem_processing, count_remove_first, decide_True by done. lia.
  - split; [done|]. split; [|done]. unfold places, retry_count. simpl.
    rewrite pend_count_rem_retry, lookup_delete_eq. lia.
  - exfalso. destruct (rpop (pend q shard)) as [[x r]|] eqn:E; [|done].
    injection Ht as ->. apply (fresh_places q id shard Hok Hf).
    apply rpop_Some in E. rewrite E. apply elem_of_app. right. by left.
Qed.

Lemma fresh_expire_job q x id : fresh c q id -> fresh c (expire_job x q) id.
Proof.
  intros (Hj & Hp & Hd). split; [|done]. simpl. rewrite lookup_delete. by case_decide.
Qed.

(** ** The environment keeps the world's invariant *)

Lemma not_minted {X} (call : qcall X) ids id :
  id ∉ minted call ids -> is_enqueue call id = false /\ id ∉ ids.
Proof.
  destruct call; simpl; try done. intros Hn. split; [|set_solver].
  apply bool_decide_eq_false. set_solver.
Qed.

Lemma env_inv w w1 : world_inv w -> env_step w w1 -> world_inv w1.
Proof.
  intros [Hi Hf] [X call Hok Hn|id|d].
  - split; [by apply call_inv, Hi; [|apply Hok]|]. intros id Hid.
    apply not_minted in Hid as [He Hid]. apply fresh_call; [apply Hok|done|by apply Hf].
  - split; [by apply expire_job_inv|]. intros x Hx. by apply fresh_expire_job, Hf.
  - split; [exact Hi|]. intros x Hx. apply (Hf x Hx).
Qed.

Lemma others_inv w w1 : world_inv w -> others w w1 -> world_inv w1.
Proof. intros Hi Hs. induction Hs; eauto using env_inv. Qed.

Lemma env_ids w w1 : env_step w w1 -> w_ids w ⊆ w_ids w1.
Proof. intros []; simpl; [|done..]. destruct call; simpl; set_solver. Qed.

Lemma others_ids w w1 : others w w1 -> w_ids w ⊆ w_ids w1.
Proof. induction 1 as [|w w1 w2 H _ IH]; [done|]. apply env_ids in H. set_solver. Qed.

(** To a used id, the environment is a run that never enqueues it. *)
Lemma others_steps w w1 id :
  others w w1 -> id ∈ w_ids w -> rtc (step_if c (never_enqueued id)) (w_queue w) (w_queue w1).
Proof.
  intros Hs. induction Hs as [|w w1 w2 H _ IH]; [done|]. intros Hid.
  eapply rtc_l; [|apply IH; by apply (env_ids _ _ H)].
  destruct H as [X call Hok Hn|x|d]; simpl; [|apply step_expire_job|apply step_expire_idem].
  apply step_call; [apply Hok|]. unfold never_enqueued.
  destruct (is_enqueue call id) eqn:E; [|done]. by apply Hn in E.
Qed.

Lemma others_rtc_step w w1 : others w w1 -> rtc (step c) (w_queue w) (w_queue w1).
Proof.
  induction 1 as [|w w1 w2 H _ IH]; [done|]. eapply rtc_l; [|exact IH].
  destruct H as [X call Hok Hn|x|d]; simpl; [|apply step_expire_job|apply step_expire_idem].
  apply step_call; [apply Hok|done].
Qed.

Lemma others_fresh w w1 id :
  others w w1 -> id ∈ w_ids w -> fresh c (w_queue w) id -> fresh c (w_queue w1) id.
Proof.
  intros Hs. induction Hs as [|w w1 w2 H _ IH]; [done|]. intros Hid Hf.
  apply IH; [by apply (env_ids _ _ H)|].
  destruct H as [X call Hok Hn|x|d]; simpl; [|by apply fresh_expire_job|exact Hf].
  apply fresh_call; [apply Hok| |done].
  destruct (is_enqueue call id) eqn:E; [|done]. by apply Hn in E.
Qed.

(** A stored job's id is a used id. *)
Lemma stored_minted w id : world_inv w -> is_Some (jobs (w_queue w) !! id) -> id ∈ w_ids w.
Proof.
  intros [_ Hf] [j Hj]. destruct (decide (id ∈ w_ids w)) as [|Hn]; [done|].
  destruct (Hf id Hn) as [Hj' _]. congruence.
Qed.

Lemma listed_minted w id : world_inv w -> id ∈ processing (w_queue w) -> id ∈ w_ids w.
Proof.
  intros [_ Hf] Hp. destruct (decide (id ∈ w_ids w)) as [|Hn]; [done|].
  destruct (Hf id Hn) as (_ & Hpl & _). unfold places in Hpl.
  apply count_elem_of in Hp. lia.
Qed.

Lemma retrying_minted w id : world_inv w -> is_Some (retry (w_queue w) !! id) -> id ∈ w_ids w.
Proof.
  intros [_ Hf] [k Hk]. destruct (decide (id ∈ w_ids w)) as [|Hn]; [done|].
  destruct (Hf id Hn) as (_ & Hpl & _). unfold places, retry_count in Hpl.
  rewrite Hk in Hpl. lia.
Qed.

(** ** A shard once read stays right *)

Lemma others_own_shard w w1 id n :
  others w w1 -> id ∈ w_ids w -> own_shard (w_queue w) id n -> own_shard (w_queue w1) id n.
Proof.
  intros Hs Hid Ho j1 Hj1. pose proof (others_steps w w1 id Hs Hid) as Hr.
  destruct (jobs (w_queue w) !! id) as [j|] eqn:Hj.
  - rewrite (ev_shard _ _ (run_evolves c _ _ id j j1 Hr Hj Hj1)). by apply Ho.
  - pose proof (absent_stays c _ _ id Hr Hj). congruence.
Qed.
End world.

(** ** Interleaved execution *)

(** [R] is what happens before each call: [others c] in general, [eq] when this
    client is alone, [unexpired] when no key runs out.  [C] is what the clock may
    show, [any_time] in general.  A theorem for every [R] of a kind says more than
    one for the largest: what it concludes of [R] holds of [eq] too. *)
Definition any_time (t : Z) : Prop := True.

Section execution.
Context {QR : Type} (c : queue_cfg) (Hc : queue_cfg_ok c).
Context (R : world -> world -> Prop) (HR : forall w w1, R w w1 -> others c w w1).
Context (C : Z -> Prop).

Abbreviation program := (prog (qop QR)).

(** The jitter [random.uniform(0.8, 1.2)] can return. *)
Definition jitter_ok (u : Q) : Prop := Qle (4 # 5) u /\ Qle u (6 # 5).

Definition client_step {X} (o : qop QR X) (w : world) (x : X) (w' : world) : Prop :=
  match o in qop _ Y return Y -> Prop with
  | QCall call => fun y =>
      exists w1, R w w1 /\ y = (spec_call c call (w_queue w1)).1 /\ w' = after c call w1
  | NowMs => fun t => C t /\ w' = w
  | Jitter => fun u => jitter_ok u /\ w' = w
  | Uuid4 => fun id => (id ∉ w_ids w) /\ w' = World (w_queue w) ({[id]} ∪ w_ids w)
  | RecordInvocation _ _ _ | UpdateInvocation _ _ _ _ _ _ => fun _ => w' = w
  end x.

Definition exec_at {A} : program A -> world -> result exn A -> world -> Prop :=
  execution (@client_step).

(** What an operation may do, and what it asks of the program.  The call of a
    method sees a world that keeps the invariant. *)
Definition client_effect {X} (o : qop QR X) (w : world) : (X -> world -> Prop) -> Prop :=
  match o in qop _ Y return (Y -> world -> Prop) -> Prop with
  | QCall call => fun Q =>
      forall w1, R w w1 -> world_inv c w1 ->
        event_ok c (w_queue w1) (Called call)
        /\ (forall id, is_enqueue call id = true -> id ∈ w_ids w1)
        /\ Q (spec_call c call (w_queue w1)).1 (after c call w1)
  | NowMs => fun Q => forall t, C t -> Q t w
  | Jitter => fun Q => forall u, jitter_ok u -> Q u w
  | Uuid4 => fun Q =>
      forall id, id ∉ w_ids w -> fresh c (w_queue w) id ->
        Q id (World (w_queue w) ({[id]} ∪ w_ids w))
  | RecordInvocation _ _ _ | UpdateInvocation _ _ _ _ _ _ => fun Q => forall x, Q x w
  end.

Lemma client_effect_mono X (o : qop QR X) w (Q1 Q2 : X -> world -> Prop) :
  (forall x w', Q1 x w' -> Q2 x w') -> client_effect o w Q1 -> client_effect o w Q2.
Proof.
  intros Hq. destruct o; simpl; try (intros Hw; intros; apply Hq; auto; fail).
  intros Hw w1 Ho Hi. destruct (Hw w1 Ho Hi) as (? & ? & ?). auto.
Qed.

Definition client_effects : Effects (qop QR) world :=
  {| effect := @client_effect; effect_mono := client_effect_mono |}.
#[local] Existing Instance client_effects.

Lemma after_inv {X} (call : qcall X) w :
  world_inv c w -> event_ok c (w_queue w) (Called call) ->
  (forall id, is_enqueue call id = true -> id ∈ w_ids w) -> world_inv c (after c call w).
Proof.
  intros [Hi Hf] Hok He. split; [by apply call_inv, Hi; [|apply Hok]|].
  intros id Hid. apply fresh_call; [apply Hok| |by apply Hf].
  destruct (is_enqueue call id) eqn:E; [|done]. by apply He in E.
Qed.

Lemma uuid_inv w id : world_inv c w -> world_inv c (World (w_queue w) ({[id]} ∪ w_ids w)).
Proof. intros [Hi Hf]. split; [done|]. intros x Hx. apply Hf. set_solver. Qed.

(** The invariant is kept and the queue moves by legal steps. *)
Definition legal_move (w w' : world) : Prop := rtc (step c) (w_queue w) (w_queue w').

#[global] Instance legal_move_preorder : PreOrder legal_move.
Proof. split; [intros w; apply rtc_refl|]. intros w1 w2 w3. unfold legal_move. by etrans. Qed.

Lemma client_effect_step X (o : qop QR X) w (Q : X -> world -> Prop) x w1 :
  world_inv c w -> client_effect o w Q -> client_step o w x w1 ->
  Q x w1 /\ world_inv c w1 /\ legal_move w w1.
Proof.
  intros Hi. destruct o; simpl.
  - intros Hw (w0 & Ho & -> & ->). pose proof (others_inv c Hc _ _ Hi (HR _ _ Ho)) as Hi0.
    destruct (Hw w0 Ho Hi0) as (Hok & Hn & HQ). split; [done|].
    split; [by apply after_inv|]. unfold legal_move. etrans; [by apply others_rtc_step, HR|].
    apply rtc_once, step_call; [apply Hok|done].
  - intros HQ [Ht ->]. split; [by apply HQ|]. split; [done|apply rtc_refl].
  - intros HQ [Hu ->]. split; [by apply HQ|]. split; [done|apply rtc_refl].
  - intros HQ [Hid ->]. split; [apply HQ; [done|by apply Hi]|].
    split; [by apply uuid_inv|apply rtc_refl].
  - intros HQ ->. split; [done|]. split; [done|apply rtc_refl].
  - intros HQ ->. split; [done|]. split; [done|apply rtc_refl].
Qed.

(** What holds of every execution: the promise of [wp], the invariant, and that
    the queue moved by legal steps only. *)
Lemma wp_exec {A} (p : program A) w r w' Q :
  world_inv c w -> wp p w Q -> exec_at p w r w' ->
  Q r w' /\ world_inv c w' /\ rtc (step c) (w_queue w) (w_queue w').
Proof.
  apply (wp_execution (@client_step) (world_inv c) legal_move), client_effect_step.
Qed.

(** ** Rules for the operations *)

Lemma wp_call {X} (call : qcall X) w (Q : result exn X -> world -> Prop) :
  (forall w1, R w w1 -> world_inv c w1 ->
     event_ok c (w_queue w1) (Called call)
     /\ (forall id, is_enqueue call id = true -> id ∈ w_ids w1)
     /\ Q (Ok (spec_call c call (w_queue w1)).1) (after c call w1)) ->
  wp (qcalls call) w Q.
Proof. done. Qed.

(** A call that is always legal. *)
Definition free_call {X} (call : qcall X) : Prop :=
  match call with
  | Claim _ _ _ _ | Heartbeat _ _ _ _ | Complete _ _ _ _ | RetryLater _ _ _ _ _
  | JobHash _ | IdemHash _ | Processing | Due _ | PendingLen _ | ProcessingLen | RetryLen => True
  | Finish _ _ st _ _ => st = FAILED \/ st = CANCELLED
  | Pop shard => (shard < affinity_shards c)%nat
  | _ => False
  end.

Lemma wp_free_call {X} (call : qcall X) w (Q : result exn X -> world -> Prop) :
  free_call call ->
  (forall w1, R w w1 -> world_inv c w1 ->
     Q (Ok (spec_call c call (w_queue w1)).1) (after c call w1)) ->
  wp (qcalls call) w Q.
Proof.
  intros Hf HQ. apply wp_call. intros w1 Ho Hi.
  split; [by destruct call; simpl in *|]. split; [by destruct call|]. auto.
Qed.

(** A call that only reads. *)
Definition read_call {X} (call : qcall X) : Prop :=
  match call with
  | JobHash _ | IdemHash _ | Processing | Due _ | PendingLen _ | ProcessingLen | RetryLen => True
  | _ => False
  end.

Lemma wp_read {X} (call : qcall X) w (Q : result exn X -> world -> Prop) :
  read_call call ->
  (forall w1, R w w1 -> world_inv c w1 -> Q (Ok (spec_call c call (w_queue w1)).1) w1) ->
  wp (qcalls call) w Q.
Proof.
  intros Hr HQ. apply wp_free_call; [by destruct call|]. intros w1 Ho Hi.
  replace (after c call w1) with w1; [by apply HQ|]. destruct w1. by destruct call.
Qed.

Lemma wp_perform {X} (o : qop QR X) w (Q : result exn X -> world -> Prop) :
  client_effect o w (fun x => Q (Ok x)) -> wp (perform o) w Q.
Proof. done. Qed.

End execution.

(** The clock can show anything. *)
Definition exec {QR} (c : queue_cfg) (R : world -> world -> Prop) {A} :
    prog (qop QR) A -> world -> result exn A -> world -> Prop :=
  exec_at c R any_time.

(** What a read of a job's hash says of the job. *)
Lemma hash_shard q id :
  exists n, int_or (Spec.job_hash id q !! "shard") 0 = Ok n /\ own_shard q id (Z.to_nat n).
Proof.
  unfold Spec.job_hash, own_shard. destruct (jobs q !! id) as [j|] eqn:Hj.
  2: { exists 0. split; [done|]. done. }
  rewrite enc_shard. exists (Z.of_nat (j_shard j)). split.
  - unfold int_or, str_of_nat. destruct (str_of_Z (Z.of_nat (j_shard j))) eqn:E.
    + exfalso. pose proof (tonumber_str_of_Z (Z.of_nat (j_shard j))) as H. by rewrite E in H.
    + rewrite <- E. unfold py_int. by rewrite tonumber_str_of_Z.
  - intros j' [= <-]. by rewrite Nat2Z.id.
Qed.

(** ** Environments *)

(** No key runs out. *)
Definition unexpired (c : queue_cfg) : world -> world -> Prop :=
  rtc (fun w w1 => exists X (call : qcall X),
         event_ok c (w_queue w) (Called call)
         /\ (forall id, is_enqueue call id = true -> id ∉ w_ids w)
         /\ w1 = World (spec_call c call (w_queue w)).2 (minted call (w_ids w))).

Lemma unexpired_others c w w1 : unexpired c w w1 -> others c w w1.
Proof.
  induction 1 as [|w w1 w2 (X & call & Hok & Hn & ->) _ IH]; [apply rtc_refl|].
  eapply rtc_l; [by apply env_call|exact IH].
Qed.

Lemma alone_others c w w1 : w = w1 -> others c w w1.
Proof. intros ->. apply rtc_refl. Qed.
