(* ===== verification/QueueClient.v ===== *)
(** * The client's methods meet their obligations

    A [wp] for every method of the job-queue client, in a world where others act
    between its calls.  The calls are legal in every interleaving
    ([client_methods_are_legal]), so the theorems about reachable queues hold of
    a system of such clients; and what each method returns is tied to the call
    that decided it. *)

From Stdlib Require Import QArith.
From S2P Require Import Prelude Valkey Models Fingerprint Prog.
From S2P Require Import QueueState QueueScripts QueueRefine QueueInv QueueTrace QueueLife.
From S2P Require Import JobQueue ClientWorld.

#[local] Open Scope Z_scope.

(** ** Reading a job's record *)

Lemma str_of_Z_cons z : exists a s, str_of_Z z = String a s.
Proof.
  destruct (str_of_Z z) as [|a s] eqn:E; [|eauto].
  pose proof (tonumber_str_of_Z z) as H. by rewrite E in H.
Qed.

Lemma int_or_str z d : int_or (Some (str_of_Z z)) d = Ok z.
Proof.
  destruct (str_of_Z_cons z) as (a & s & E). unfold int_or. rewrite E, <- E.
  unfold py_int. by rewrite tonumber_str_of_Z.
Qed.

Definition dt (z : Z) : option Z := if decide (z = 0) then None else Some z.

Lemma dt_str z : _dt (Some (str_of_Z z)) = Ok (dt z).
Proof. unfold _dt. by rewrite int_or_str. Qed.

Section records.
Context {QR : Type} `{QueueCodec QR}.

(** The record of an abstract job: the stored result may fail to load. *)
Definition job_record (id : string) (j : job) : result exn (JobRecord QR) :=
  r_bind (match or_none (Some (j_result j)) with
          | Some text => r_bind (load_result text) (fun r => Ok (Some r))
          | None => Ok None
          end) (fun res =>
  Ok (MkJobRecord id (j_status j) (j_attempts j) res (or_none (Some (j_error j)))
        (dt (j_created j)) (dt (j_updated j)) (dt (j_next j)))).

Lemma record_of_enc id j : record_of id (enc_job j) = job_record id j.
Proof.
  unfold record_of, job_record.
  change (enc_job j !! "result") with (Some (j_result j)).
  change (enc_job j !! "error") with (Some (j_error j)).
  rewrite enc_status, enc_attempts, enc_created, job_status_of_value.
  change (enc_job j !! "updated_at_ms") with (Some (str_of_Z (j_updated j))).
  change (enc_job j !! "next_attempt_ms") with (Some (str_of_Z (j_next j))).
  rewrite !dt_str. unfold py_int. rewrite tonumber_str_of_Z. done.
Qed.

(** What [get] answers in a given state. *)
Definition reported (id : string) (q : qstate) : result exn (option (JobRecord QR)) :=
  match jobs q !! id with
  | Some j => r_bind (job_record id j) (fun r => Ok (Some r))
  | None => Ok None
  end.

Lemma reported_status id q r :
  reported id q = Ok (Some r) ->
  exists j, jobs q !! id = Some j /\ jr_id r = id /\ jr_status r = j_status j
    /\ jr_attempts r = j_attempts j.
Proof.
  unfold reported, job_record. destruct (jobs q !! id) as [j|]; [|done].
  intros E. exists j. split; [done|].
  destruct (match or_none _ with Some _ => _ | None => _ end) as [res|]; simpl in E; [|done].
  by injection E as <-.
Qed.
End records.

Section methods.
Context {QR : Type} `{QueueCodec QR} `{Sha256} (cc : client_cfg) (c : queue_cfg).
Context (Hcc : cc_queue cc = c) (Hc : queue_cfg_ok c).
Context (R : world -> world -> Prop) (HR : forall w w1, R w w1 -> others c w w1).
Context (C : Z -> Prop).

#[local] Instance effects : Effects (qop QR) world := client_effects c R C.

Implicit Types (w : world) (id : string).

Lemma wp_record id kind payload w (Q : result exn unit -> world -> Prop) :
  Q (Ok tt) w -> wp (best_effort (RecordInvocation id kind payload)) w Q.
Proof. intros HQ x. exact HQ. Qed.

Lemma wp_update id st res e ec n w (Q : result exn unit -> world -> Prop) :
  Q (Ok tt) w -> wp (best_effort (UpdateInvocation id st res e ec n)) w Q.
Proof. intros HQ x. exact HQ. Qed.

Lemma wp_now w (Q : result exn Z -> world -> Prop) :
  (forall t, C t -> Q (Ok t) w) -> wp _now_ms w Q.
Proof. auto. Qed.

Lemma wp_get id w (Q : result exn (option (JobRecord QR)) -> world -> Prop) :
  (forall w1, R w w1 -> world_inv c w1 -> Q (reported id (w_queue w1)) w1) -> wp (get id) w Q.
Proof.
  intros HQ. unfold get. apply wp_bind, wp_read; [exact I|]. intros w1 Ho Hi.
  specialize (HQ w1 Ho Hi). unfold reported in HQ.
  cbn [spec_call fst]. unfold Spec.job_hash. destruct (jobs (w_queue w1) !! id) as [j|].
  - destruct (decide (enc_job j = ∅)) as [E|_].
    { exfalso. pose proof (enc_status j) as Es. rewrite E, lookup_empty in Es. done. }
    rewrite record_of_enc. apply wp_bind, wp_lift. destruct (job_record id j); exact HQ.
  - rewrite decide_True by done. exact HQ.
Qed.

Lemma wp_delay n w (Q : result exn Z -> world -> Prop) :
  (forall u, jitter_ok u ->
     Q (Ok (delay_ms (backoff (retry_base_seconds cc) (retry_max_seconds cc) n) u)) w) ->
  wp (_retry_delay_ms cc n) w Q.
Proof. intros HQ. apply wp_bind, wp_perform. intros u Hu. by apply HQ. Qed.

(** ** Promotion *)

(** The loop's body on an id that has been used. *)
Lemma wp_promote_one now moved id w (Q : result exn Z -> world -> Prop) :
  id ∈ w_ids w ->
  (forall n w1 shard, R w w1 -> forall w2, R w1 w2 -> own_shard (w_queue w2) id shard ->
     Q (Ok n) (after c (Promote id now shard) w2)) ->
  wp (data <- qcalls (JobHash id);;
      shard <- lift (int_or (data !! "shard") 0);;
      r <- qcalls (Promote id now (Z.to_nat shard));;
      Ret (moved + if decide (r = 0) then 0 else 1))%prog w Q.
Proof.
  intros Hid HQ. apply wp_bind, wp_read; [exact I|]. intros w1 Ho1 Hi1. cbn [spec_call fst].
  destruct (hash_shard (w_queue w1) id) as (n & En & Hs). rewrite En.
  apply wp_bind, wp_lift, wp_bind, wp_call. intros w2 Ho2 Hi2.
  assert (Hid1 : id ∈ w_ids w1) by (pose proof (others_ids c Hc _ _ (HR _ _ Ho1)); set_solver).
  pose proof (others_own_shard c Hc _ _ _ _ (HR _ _ Ho2) Hid1 Hs) as Hs2.
  split; [by split|]. split; [done|]. by eapply HQ.
Qed.

(** What others and a promotion keep, [promote_retries] keeps. *)
Lemma wp_promote_keeps (P : world -> Prop) w (Q : result exn Z -> world -> Prop) :
  (forall w1 w2, P w1 -> R w1 w2 -> P w2) ->
  (forall now id shard w1, P w1 -> own_shard (w_queue w1) id shard ->
     P (after c (Promote id now shard) w1)) ->
  P w -> (forall n w1, w_ids w ⊆ w_ids w1 -> P w1 -> Q (Ok n) w1) -> wp promote_retries w Q.
Proof.
  intros HPR HPP HP HQ. apply wp_bind, wp_now. intros now _. apply wp_bind, wp_read; [exact I|].
  intros w1 Ho1 Hi1. cbn [spec_call fst].
  apply (wp_for_each _ _ _ _ (fun _ w2 => w_ids w1 ⊆ w_ids w2 /\ P w2)); [eauto| |].
  - intros moved id w2 [Hsub HP2] Hin. apply zset_range_elem_of in Hin as (k & Hk & _).
    apply wp_promote_one.
    + apply Hsub, (retrying_minted c); eauto.
    + intros n w3 shard Ho3 w4 Ho4 Hs. split; [|apply HPP; eauto]. simpl.
      pose proof (others_ids c Hc _ _ (HR _ _ Ho3)). pose proof (others_ids c Hc _ _ (HR _ _ Ho4)).
      set_solver.
  - intros n w2 [Hsub HP2]. apply HQ; [|done].
    pose proof (others_ids c Hc _ _ (HR _ _ Ho1)). set_solver.
Qed.

Lemma wp_promote_retries w (Q : result exn Z -> world -> Prop) :
  (forall n w1, w_ids w ⊆ w_ids w1 -> Q (Ok n) w1) -> wp promote_retries w Q.
Proof. intros HQ. apply (wp_promote_keeps (fun _ => True)); auto. Qed.

(** ** Workers *)

Lemma wp_pop_any l w (Q : result exn (option string) -> world -> Prop) :
  (forall i, i ∈ l -> (i < affinity_shards c)%nat) ->
  (forall (id : option string) w1, Q (Ok id) w1) -> wp (pop_any l) w Q.
Proof.
  intros Hl HQ. revert w. induction l as [|i l IH]; intros w; [apply HQ|].
  cbn [pop_any]. apply wp_bind, wp_free_call; [apply Hl; by left|]. intros w1 Ho Hi.
  destruct (spec_call _ _ _).1; [apply HQ|]. apply IH. intros k Hk. apply Hl. by right.
Qed.

Lemma wp_next_id shard w (Q : result exn (option string) -> world -> Prop) :
  (forall (id : option string) w1, Q (Ok id) w1) -> wp (next_id cc shard) w Q.
Proof.
  intros HQ. pose proof (cfg_shards _ Hc) as Hsh. unfold next_id. rewrite Hcc.
  apply wp_bind, wp_promote_retries. intros _ w0 _.
  apply wp_bind, wp_free_call; [simpl; apply Nat.mod_upper_bound; lia|]. intros w1 _ _.
  destruct (spec_call _ _ _).1; [apply HQ|].
  destruct (1 <? affinity_shards c)%nat; [|apply HQ].
  apply wp_pop_any; [|auto].
  intros i Hi. apply list_elem_of_filter in Hi as [_ Hi]. apply elem_of_seq in Hi. lia.
Qed.

(** What the worker is told of the job [j] it has just claimed. *)
Definition told (j : job) (id : string) (r : result exn (option ReservedJob)) : Prop :=
  match r with
  | Ok (Some res) => rj_id res = id /\ load_request (j_request j) = Ok (rj_request res)
      /\ rj_attempts res = j_attempts j + 1 /\ rj_shard res = j_shard j
  | Ok None => False
  | Err e => load_request (j_request j) = Err e
  end.

Lemma wp_claim_job worker id w (Q : result exn (option ReservedJob) -> world -> Prop) :
  (forall w1, Q (Ok None) w1) ->
  (forall w1 now j r, world_inv c w1 ->
     jobs (w_queue w1) !! id = Some j -> j_status j = QUEUED -> id ∈ processing (w_queue w1) ->
     told j id r -> Q r (after c (Claim id worker (now + lease_seconds c * 1000) now) w1)) ->
  wp (claim_job cc worker id) w Q.
Proof.
  intros Hnone Hsome. unfold claim_job. rewrite Hcc. apply wp_bind, wp_now. intros now _.
  apply wp_bind, wp_free_call; [exact I|]. intros w3 _ Hi3. cbn [spec_call].
  specialize (Hsome w3 now). unfold after in Hsome |- *. cbn [spec_call] in Hsome |- *.
  unfold Spec.claim in *. destruct (jobs (w_queue w3) !! id) as [j|] eqn:Hj; [|apply Hnone].
  case_decide as Hd; [|apply Hnone]. destruct Hd as [Hin Hst]. cbn [fst snd] in *.
  unfold str_of_nat, py_int. rewrite tonumber_str_of_Z. apply wp_bind, wp_lift.
  apply wp_bind, wp_update. apply wp_bind, wp_lift.
  destruct (load_request (j_request j)) as [req|e] eqn:El; [|by eapply Hsome].
  rewrite tonumber_str_of_Z. apply wp_bind, wp_lift. eapply Hsome; eauto.
  simpl. rewrite Nat2Z.id. auto.
Qed.

(** The claim that decides what [reserve] returns. *)
Lemma wp_reserve worker shard w (Q : result exn (option ReservedJob) -> world -> Prop) :
  (forall w1, Q (Ok None) w1) ->
  (forall id w1 now j r, world_inv c w1 ->
     jobs (w_queue w1) !! id = Some j -> j_status j = QUEUED -> id ∈ processing (w_queue w1) ->
     told j id r -> Q r (after c (Claim id worker (now + lease_seconds c * 1000) now) w1)) ->
  wp (reserve cc worker shard) w Q.
Proof.
  intros Hnone Hsome. apply wp_bind, wp_next_id. intros [id|] w1; [|apply Hnone].
  apply wp_claim_job; [apply Hnone|]. intros. eapply Hsome; eauto.
Qed.

Lemma wp_heartbeat id worker w (Q : result exn bool -> world -> Prop) :
  (forall t w1, R w w1 -> world_inv c w1 ->
     let call := Heartbeat id worker (t + lease_seconds c * 1000) t in
     Q (Ok (bool_decide ((spec_call c call (w_queue w1)).1 <> 0))) (after c call w1)) ->
  wp (heartbeat cc id worker) w Q.
Proof.
  intros HQ. unfold heartbeat. rewrite Hcc. apply wp_bind, wp_now. intros t _.
  apply wp_bind, wp_free_call; [exact I|]. intros w1 Ho Hi. by apply HQ.
Qed.

(** The two questions a worker asks about its job. *)
Definition flagged (q : qstate) (id worker : string) : Prop :=
  exists j, jobs q !! id = Some j /\ j_status j = RUNNING /\ j_worker j = worker
            /\ j_cancel j = true.

Lemma job_hash_running q id worker :
  Spec.job_hash id q !! "status" = Some (job_status_value RUNNING)
  /\ Spec.job_hash id q !! "worker_id" = Some worker <-> holds q id worker.
Proof.
  unfold Spec.job_hash, holds. destruct (jobs q !! id) as [j|].
  2: { rewrite !lookup_empty. split; [by intros []|]. by intros (? & ? & _). }
  rewrite enc_status, enc_worker. split.
  - intros [E1 E2]. exists j. split; [done|]. split; [|congruence].
    apply (inj job_status_value). congruence.
  - intros (j' & [= <-] & -> & ->). done.
Qed.

Lemma job_hash_flagged q id worker :
  Spec.job_hash id q !! "status" = Some (job_status_value RUNNING)
  /\ Spec.job_hash id q !! "worker_id" = Some worker
  /\ Spec.job_hash id q !! "cancel_requested" = Some "1" <-> flagged q id worker.
Proof.
  rewrite assoc by (by apply _). rewrite job_hash_running. unfold holds, flagged, Spec.job_hash.
  split.
  - intros [(j & Hj & Hst & Hw) Hc']. rewrite Hj, enc_cancel in Hc'. exists j.
    apply cancel_field in Hc'. auto.
  - intros (j & Hj & Hst & Hw & Hf). rewrite Hj, enc_cancel. split; [eauto|].
    by apply cancel_field.
Qed.

Lemma wp_owns id worker w (Q : result exn bool -> world -> Prop) :
  (forall b w1, R w w1 -> world_inv c w1 -> (b = true -> holds (w_queue w1) id worker) ->
     Q (Ok b) w1) ->
  wp (owns id worker) w Q.
Proof.
  intros HQ. apply wp_bind, wp_read; [exact I|]. intros w1 Ho Hi. cbn [spec_call fst].
  case_decide as Hd; [|by apply HQ]. apply job_hash_running in Hd as Hh.
  destruct Hh as (j & Hj & _). unfold Spec.job_hash. rewrite Hj, enc_lease, int_or_str.
  apply wp_bind, wp_lift, wp_bind, wp_now. intros t _. apply HQ; [done..|]. intros _.
  by apply job_hash_running.
Qed.

Lemma wp_cancel_requested id worker w (Q : result exn bool -> world -> Prop) :
  (forall b w1, R w w1 -> world_inv c w1 -> (b = true <-> flagged (w_queue w1) id worker) ->
     Q (Ok b) w1) ->
  wp (cancel_requested id worker) w Q.
Proof.
  intros HQ. apply wp_bind, wp_read; [exact I|]. intros w1 Ho Hi. cbn [spec_call fst].
  apply HQ; [done..|]. by rewrite bool_decide_eq_true, job_hash_flagged.
Qed.

Lemma wp_request_cancel id w (Q : result exn (option (JobRecord QR)) -> world -> Prop) :
  (forall w1, R w w1 -> world_inv c w1 -> jobs (w_queue w1) !! id = None -> Q (Ok None) w1) ->
  (forall t shard w1, world_inv c w1 -> own_shard (w_queue w1) id shard ->
     let call := Cancel id shard t in
     let w2 := after c call w1 in
     ((spec_call c call (w_queue w1)).1 = -1 -> Q (Ok None) w2)
     /\ ((spec_call c call (w_queue w1)).1 <> -1 ->
          forall w3, R w2 w3 -> Q (reported id (w_queue w3)) w3)) ->
  wp (request_cancel id) w Q.
Proof.
  intros Hnone Hsome. apply wp_bind, wp_read; [exact I|]. intros w1 Ho Hi. cbn [spec_call fst].
  destruct (hash_shard (w_queue w1) id) as (n & En & Hs). revert En. unfold Spec.job_hash.
  destruct (jobs (w_queue w1) !! id) as [j|] eqn:Hj; [|by intros; apply Hnone].
  rewrite enc_shard. unfold str_of_nat, py_int. rewrite int_or_str, tonumber_str_of_Z.
  intros [= <-]. apply wp_bind, wp_lift, wp_bind, wp_now. intros t _.
  apply wp_bind, wp_call. intros w2 Ho2 Hi2.
  assert (Hid : id ∈ w_ids w1) by (apply (stored_minted c); eauto).
  pose proof (others_own_shard c Hc _ _ _ _ (HR _ _ Ho2) Hid Hs) as Hs2.
  split; [by split|]. split; [done|].
  destruct (Hsome t _ w2 Hi2 Hs2) as [Ha Hb]. case_decide as Hd; [by apply Ha|].
  apply wp_bind, wp_get. intros w3 Ho3 Hi3. specialize (Hb Hd w3 Ho3).
  destruct (reported id (w_queue w3)) as [[rec|]|e]; [|done..].
  case_decide; [|done]. apply wp_bind, wp_update. exact Hb.
Qed.

(** The end of a method that makes one fenced call. *)
Lemma wp_outcome (r : Z) id st res e ec w (Q : result exn bool -> world -> Prop) :
  Q (Ok (bool_decide (r <> 0))) w ->
  wp (if decide (r <> 0) then _metadata_status id st res e ec;; Ret true else Ret false)%prog w Q.
Proof.
  intros HQ. destruct (decide (r <> 0)) as [Hd|Hd].
  - rewrite bool_decide_true in HQ by done. by apply wp_bind, wp_update.
  - by rewrite bool_decide_false in HQ.
Qed.

(** A method that makes one fenced call and then records its outcome. *)
Lemma wp_complete id worker res w (Q : result exn bool -> world -> Prop) :
  (forall t w1, R w w1 -> world_inv c w1 ->
     let call := Complete id worker (dump_result res) t in
     Q (Ok (bool_decide ((spec_call c call (w_queue w1)).1 <> 0))) (after c call w1)) ->
  wp (complete id worker res) w Q.
Proof.
  intros HQ. apply wp_bind, wp_now. intros t _.
  apply wp_bind, wp_free_call; [exact I|]. intros w1 Ho Hi. specialize (HQ t w1 Ho Hi).
  by apply wp_outcome.
Qed.

Lemma wp_cancel_complete id worker w (Q : result exn bool -> world -> Prop) :
  (forall t w1, R w w1 -> world_inv c w1 ->
     let call := Finish id worker CANCELLED "" t in
     Q (Ok (bool_decide ((spec_call c call (w_queue w1)).1 <> 0))) (after c call w1)) ->
  wp (cancel_complete id worker) w Q.
Proof.
  intros HQ. apply wp_bind, wp_now. intros t _.
  apply wp_bind, wp_free_call; [by right|]. intros w1 Ho Hi. specialize (HQ t w1 Ho Hi).
  by apply wp_outcome.
Qed.

Lemma wp_publish_output id worker n key aid uri mode w (Q : result exn Z -> world -> Prop) :
  outside_key c key ->
  (forall t w1, R w w1 -> world_inv c w1 ->
     let call := Publish key worker n mode id aid uri t in
     Q (Ok (spec_call c call (w_queue w1)).1) (after c call w1)) ->
  wp (publish_output id worker n key aid uri mode) w Q.
Proof.
  intros Hk HQ. apply wp_bind, wp_now. intros t _. apply wp_call. intros w1 Ho Hi.
  split; [by split|]. split; [done|]. by apply HQ.
Qed.

(** The two ways [fail] ends an attempt. *)
Lemma wp_fail id worker error retryable cls w (Q : result exn bool -> world -> Prop) :
  (forall t w1, C t -> retryable = false -> R w w1 -> world_inv c w1 ->
     let call := Finish id worker FAILED error t in
     Q (Ok (bool_decide ((spec_call c call (w_queue w1)).1 <> 0))) (after c call w1)) ->
  (forall t0 t u n w0 w1, C t0 -> C t -> retryable = true -> R w w0 -> R w0 w1 ->
     world_inv c w1 -> jitter_ok u ->
     (forall j, jobs (w_queue w0) !! id = Some j -> n = j_attempts j) ->
     let next := t0 + delay_ms (backoff (retry_base_seconds cc) (retry_max_seconds cc) n) u in
     let call := RetryLater id worker error t next in
     let w2 := after c call w1 in
     ((spec_call c call (w_queue w1)).1 = 0 -> Q (Ok false) w2)
     /\ ((spec_call c call (w_queue w1)).1 <> 0 -> forall w3, R w2 w3 ->
          Q (Ok true) w3 /\ forall e, reported id (w_queue w3) = Err e -> Q (Err e) w3)) ->
  wp (fail cc id worker error retryable cls) w Q.
Proof.
  intros Hfinal Hretry. unfold fail. destruct retryable.
  - apply wp_bind, wp_read; [exact I|]. intros w0 Ho0 Hi0. cbn [spec_call fst].
    assert (exists n, int_or (Spec.job_hash id (w_queue w0) !! "attempts") 0 = Ok n
      /\ forall j, jobs (w_queue w0) !! id = Some j -> n = j_attempts j) as (n & -> & Hn).
    { unfold Spec.job_hash. destruct (jobs (w_queue w0) !! id) as [j|].
      - rewrite enc_attempts, int_or_str. eexists. split; [done|]. by intros j' [= ->].
      - by exists 0. }
    apply wp_bind, wp_lift, wp_bind, wp_now. intros t0 Ht0. apply wp_bind, wp_delay. intros u Hu.
    apply wp_bind, wp_now. intros t Ht. apply wp_bind, wp_free_call; [exact I|]. intros w1 Ho1 Hi1.
    destruct (Hretry t0 t u n w0 w1 Ht0 Ht eq_refl Ho0 Ho1 Hi1 Hu Hn) as [Ha Hb].
    case_decide as Hd; [|by apply Ha].
    apply wp_bind, wp_get. intros w3 Ho3 Hi3. destruct (Hb Hd w3 Ho3) as [Hok Herr].
    destruct (reported id (w_queue w3)) as [rec|e]; [|by apply Herr].
    by apply wp_bind, wp_update.
  - apply wp_bind, wp_now. intros t Ht. apply wp_bind, wp_free_call; [by left|].
    intros w1 Ho1 Hi1. specialize (Hfinal t w1 Ht eq_refl Ho1 Hi1).
    by apply wp_outcome.
Qed.

(** ** Reaping *)

(** What [reap_one] knows of the job when it calls the script. *)
Definition seen_stale (q : qstate) (id : string) (now : Z) (lease : string) : Prop :=
  forall j, jobs q !! id = Some j ->
    lease = str_of_Z (j_lease j) /\ (j_status j = RUNNING -> j_lease j <= now).

Lemma hash_lease q id j :
  jobs q !! id = Some j ->
  Spec.job_hash id q !! "lease_expires_ms" = Some (str_of_Z (j_lease j)).
Proof. intros Hj. unfold Spec.job_hash. rewrite Hj. apply enc_lease. Qed.

Lemma or_none_str z : default "0" (or_none (Some (str_of_Z z))) = str_of_Z z.
Proof. by destruct (str_of_Z_cons z) as (a & s & ->). Qed.

Lemma wp_reap_one now n id w (Q : result exn Z -> world -> Prop) :
  id ∈ w_ids w ->
  (forall w1 j, R w w1 -> world_inv c w1 -> jobs (w_queue w1) !! id = Some j ->
     j_status j = RUNNING -> now < j_lease j -> Q (Ok n) w1) ->
  (forall w0 w1 lease next shard, R w w0 -> R w0 w1 -> world_inv c w1 ->
     own_shard (w_queue w1) id shard -> seen_stale (w_queue w0) id now lease ->
     let call := Reap id lease now next shard in
     let w2 := after c call w1 in
     ((spec_call c call (w_queue w1)).1 = 0 -> Q (Ok n) w2)
     /\ ((spec_call c call (w_queue w1)).1 <> 0 -> forall w3, R w2 w3 ->
          Q (Ok (n + 1)) w3 /\ forall e, reported id (w_queue w3) = Err e -> Q (Err e) w3)) ->
  wp (reap_one cc now n id) w Q.
Proof.
  intros Hid Hskip Hcall. apply wp_bind, wp_read; [exact I|]. intros w0 Ho0 Hi0.
  cbn [spec_call fst]. pose proof (hash_shard (w_queue w0) id) as (sh & Esh & Hs).
  assert (exists lm, wp (if decide (Spec.job_hash id (w_queue w0) !! "status"
                                    = Some (job_status_value RUNNING))
      then lift (int_or (Spec.job_hash id (w_queue w0) !! "lease_expires_ms") 0) else Ret now) w0
      (fun r w' => r = Ok lm /\ w' = w0)
    /\ (now < lm -> exists j, jobs (w_queue w0) !! id = Some j /\ j_status j = RUNNING
                     /\ now < j_lease j)
    /\ (lm <= now -> seen_stale (w_queue w0) id now
          (default "0" (or_none (Spec.job_hash id (w_queue w0) !! "lease_expires_ms")))))
    as (lm & Hwp & Hlt & Hge).
  { unfold seen_stale. destruct (jobs (w_queue w0) !! id) as [j|] eqn:Hj.
    - rewrite (hash_lease _ _ _ Hj), or_none_str, int_or_str.
      unfold Spec.job_hash. rewrite Hj, enc_status. case_decide as Hd.
      + apply (inj Some), (inj job_status_value _ RUNNING) in Hd. exists (j_lease j).
        split; [by apply wp_lift|]. split; [eauto|]. by intros Hle j' [= <-].
      + exists now. split; [done|]. split; [lia|]. intros _ j' [= <-]. split; [done|].
        intros E. by rewrite E in Hd.
    - exists now. split; [|split; [lia|done]].
      unfold Spec.job_hash. rewrite Hj, lookup_empty. by rewrite decide_False. }
  apply wp_bind. eapply wp_mono; [|exact Hwp]. intros ? ? [-> ->].
  destruct (Z.ltb_spec now lm) as [Hl|Hl].
  { destruct (Hlt Hl) as (j & Hj & Hst & Hle). by eapply Hskip. }
  assert (exists k, int_or (Spec.job_hash id (w_queue w0) !! "attempts") 1 = Ok k) as (k & ->).
  { unfold Spec.job_hash. destruct (jobs (w_queue w0) !! id); [|by eexists].
    rewrite enc_attempts, int_or_str. by eexists. }
  apply wp_bind, wp_lift, wp_bind, wp_delay. intros u Hu. rewrite Esh.
  apply wp_bind, wp_lift, wp_bind, wp_call. intros w1 Ho1 Hi1.
  assert (Hid0 : id ∈ w_ids w0) by (pose proof (others_ids c Hc _ _ (HR _ _ Ho0)); set_solver).
  pose proof (others_own_shard c Hc _ _ _ _ (HR _ _ Ho1) Hid0 Hs) as Hs1.
  split; [by split|]. split; [done|].
  destruct (Hcall w0 w1 _ (now + delay_ms (backoff (retry_base_seconds cc) (retry_max_seconds cc)
    k) u) _ Ho0 Ho1 Hi1 Hs1 (Hge Hl)) as [Ha Hb].
  match goal with |- wp (if decide (?x <> 0) then _ else _) _ _ =>
    destruct (decide (x <> 0)) as [Hd|Hd] end.
  2: { apply Ha. by apply dec_stable. }
  apply wp_bind, wp_get. intros w3 Ho3 Hi3. destruct (Hb Hd w3 Ho3) as [Hok Herr].
  destruct (reported id (w_queue w3)) as [[rec|]|e]; [|done|by apply Herr].
  by apply wp_bind, wp_update.
Qed.

Lemma wp_reap_stale w (Q : result exn Z -> world -> Prop) :
  (forall n w1, Q (Ok n) w1) ->
  (forall id e w1, reported (QR := QR) id (w_queue w1) = Err e -> Q (Err e) w1) ->
  wp (reap_stale cc) w Q.
Proof.
  intros HQ Herr. apply wp_bind, wp_now. intros now _. apply wp_bind, wp_read; [exact I|].
  intros w1 Ho1 Hi1. cbn [spec_call fst]. apply wp_bind.
  apply (wp_for_each _ _ _ _ (fun _ w2 => w_ids w1 ⊆ w_ids w2)); [done| |].
  - intros n id w2 Hsub Hin. apply wp_reap_one.
    + by apply Hsub, (listed_minted c).
    + intros w3 j Ho3 _ _ _ _. pose proof (others_ids c Hc _ _ (HR _ _ Ho3)). set_solver.
    + intros w3 w4 lease next shard Ho3 Ho4 _ _ _.
      pose proof (others_ids c Hc _ _ (HR _ _ Ho3)). pose proof (others_ids c Hc _ _ (HR _ _ Ho4)).
      split; [simpl; set_solver|]. intros _ w5 Ho5.
      pose proof (others_ids c Hc _ _ (HR _ _ Ho5)). split; [simpl in *; set_solver|]. eauto.
  - intros n w2 _. apply wp_bind, wp_promote_retries. intros m w3 _. apply HQ.
Qed.

(** ** Enqueueing *)

(** The script has answered for the new id [id]. *)
Lemma wp_submit req key fp w (Q : result exn (JobRecord QR) -> world -> Prop) :
  (forall id t w1, id ∉ w_ids w -> R (World (w_queue w) ({[id]} ∪ w_ids w)) w1 -> world_inv c w1 ->
     fresh c (w_queue w1) id ->
     let call := Enqueue (sha256_hex <$> key) fp (dump_request req) (_shard cc req) t id in
     let reply := (spec_call c call (w_queue w1)).1 in
     let w2 := after c call w1 in
     (reply.1 = "full" -> Q (Err (Exn BusyError "async queue is full")) w2)
     /\ (reply.1 = "conflict" -> Q (Err (Exn IdempotencyConflict (conflict_text reply.2))) w2)
     /\ (reply.1 = "existing" -> forall w3, R w2 w3 ->
          match reported reply.2 (w_queue w3) with
          | Ok (Some rec) => Q (Ok rec) w3
          | Ok None => Q (Err (Exn IdempotencyConflict expired_text)) w3
          | Err e => Q (Err e) w3
          end)
     /\ (reply = ("created", id) ->
          Q (Ok (MkJobRecord id QUEUED 0 None None (dt t) (dt t) None)) w2)) ->
  wp (submit cc req key fp) w Q.
Proof.
  intros HQ. apply wp_bind, wp_perform. intros id Hid Hf. apply wp_bind, wp_now. intros t _.
  apply wp_bind, wp_call. intros w1 Ho Hi.
  assert (Hid1 : id ∈ w_ids w1).
  { pose proof (others_ids c Hc _ _ (HR _ _ Ho)). simpl in *. set_solver. }
  assert (Hf1 : fresh c (w_queue w1) id).
  { apply (others_fresh c Hc _ _ id (HR _ _ Ho)); [simpl; set_solver|done]. }
  split; [split; [|done]; split; [|done]|].
  { unfold _shard. rewrite Hcc. pose proof (cfg_shards _ Hc).
    pose proof (Z.mod_pos_bound (sha256_head (dataset_affinity_key req))
                  (Z.of_nat (affinity_shards c))). lia. }
  split; [by intros x [= <-]%bool_decide_eq_true|].
  destruct (HQ id t w1 Hid Ho Hi Hf1) as (Hfull & Hconf & Hex & Hnew). clear HQ.
  revert Hfull Hconf Hex Hnew. unfold after. cbn [spec_call]. unfold Spec.enqueue.
  destruct ((sha256_hex <$> key) ≫= _) as [[h e]|].
  - case_decide as Hd; cbn [fst snd]; intros Hfull Hconf Hex Hnew.
    + rewrite decide_False, decide_False, decide_True by done.
      apply wp_bind, wp_get. intros w3 Ho3 Hi3. specialize (Hex eq_refl w3 Ho3).
      destruct (reported e (w_queue w3)) as [[rec|]|]; exact Hex.
    + rewrite decide_False, decide_True by done. by apply Hconf.
  - destruct (_ <=? _); cbn [fst snd]; intros Hfull Hconf Hex Hnew.
    + rewrite decide_True by done. by apply Hfull.
    + rewrite !decide_False by done. apply wp_bind, wp_record. by apply Hnew.
Qed.

Lemma wp_existing_job id w (Q : result exn (JobRecord QR) -> world -> Prop) :
  (forall w3, R w w3 -> match reported id (w_queue w3) with
          | Ok (Some rec) => Q (Ok rec) w3
          | Ok None => Q (Err (Exn IdempotencyConflict expired_text)) w3
          | Err e => Q (Err e) w3
          end) ->
  wp (existing_job id) w Q.
Proof.
  intros HQ. apply wp_bind, wp_get. intros w3 Ho3 Hi3. specialize (HQ w3 Ho3).
  by destruct (reported id (w_queue w3)) as [[rec|]|].
Qed.

(** [len(key)] is between 1 and 255. *)
Definition key_ok (key : option string) : Prop :=
  match key with Some k => (1 <= String.length k <= 255)%nat | None => True end.

#[local] Instance key_ok_dec key : Decision (key_ok key).
Proof. destruct key; apply _. Defined.

(** A binding the first read of [enqueue] found. *)
Definition bound (key : option string) (q : qstate) : option (string * string) :=
  key ≫= fun k => idem q !! sha256_hex k.

Lemma idem_hash_fields q d b :
  idem q !! d = Some b ->
  Spec.idem_hash d q <> ∅ /\ Spec.idem_hash d q !! "request_hash" = Some b.1
  /\ Spec.idem_hash d q !! "job_id" = Some b.2.
Proof.
  intros Hd. unfold Spec.idem_hash. rewrite Hd. split; [|done].
  intros E. apply (f_equal (lookup "job_id")) in E. by rewrite lookup_empty in E.
Qed.

Lemma wp_enqueue req key w (Q : result exn (JobRecord QR) -> world -> Prop) :
  (~ key_ok key -> forall e, Q (Err (Exn PyValueError e)) w) ->
  (forall w0, key = None /\ w0 = w \/ R w w0 /\ bound key (w_queue w0) = None ->
     key_ok key -> wp (submit cc req key (request_payload_fingerprint req)) w0 Q) ->
  (forall w0 h id, R w w0 -> bound key (w_queue w0) = Some (h, id) -> key_ok key ->
     if decide (h = request_payload_fingerprint req) then wp (existing_job id) w0 Q
     else Q (Err (Exn IdempotencyConflict (conflict_text id))) w0) ->
  wp (enqueue cc req key) w Q.
Proof.
  intros Hbad Hsub Hbound. unfold enqueue. destruct key as [k|]; [|by apply Hsub; auto].
  case_bool_decide as Hk; simpl negb; cbv iota; [|by apply Hbad].
  apply wp_bind, wp_read; [exact I|]. intros w0 Ho0 Hi0. cbn [spec_call fst].
  specialize (Hbound w0). unfold bound in Hbound. simpl in Hbound.
  destruct (idem (w_queue w0) !! sha256_hex k) as [[h id]|] eqn:Hd.
  - destruct (idem_hash_fields _ _ _ Hd) as (Hne & -> & ->). simpl.
    rewrite decide_False by done. specialize (Hbound h id Ho0 eq_refl Hk).
    destruct (decide (h = _)) as [->|Hn].
    + by rewrite decide_True by done.
    + rewrite decide_False by (by intros [= ->]). exact Hbound.
  - rewrite decide_True by (unfold Spec.idem_hash; by rewrite Hd).
    apply Hsub; [|done]. right. split; [done|]. exact Hd.
Qed.

(** ** Depth *)

Lemma wp_depth_any w (Q : result exn Z -> world -> Prop) :
  (forall n w1, Q (Ok n) w1) -> wp (depth cc) w Q.
Proof.
  intros HQ. unfold depth. rewrite Hcc. apply wp_bind.
  apply (wp_for_each _ _ _ _ (fun _ _ => True)); [done| |].
  - intros acc i w1 _ _. apply wp_bind, wp_read; [exact I|]. done.
  - intros n w1 _. apply wp_bind, wp_read; [exact I|]. intros w2 _ _.
    apply wp_bind, wp_read; [exact I|]. intros w3 _ _. apply HQ.
Qed.
End methods.

(** ** All methods *)

Inductive method (QR : Type) : Type :=
| MEnqueue (request : QueryRequest) (key : option string)
| MGet (id : string)
| MPromoteRetries
| MReserve (worker : string) (shard : nat)
| MHeartbeat (id worker : string)
| MOwns (id worker : string)
| MCancelRequested (id worker : string)
| MRequestCancel (id : string)
| MComplete (id worker : string) (res : QR)
| MPublishOutput (id worker : string) (n : Z) (key attempt_id uri mode : string)
| MCancelComplete (id worker : string)
| MFail (id worker error : string) (retryable : bool) (cls : option string)
| MReapStale
| MDepth.
Arguments MEnqueue {QR} request key.
Arguments MGet {QR} id.
Arguments MPromoteRetries {QR}.
Arguments MReserve {QR} worker shard.
Arguments MHeartbeat {QR} id worker.
Arguments MOwns {QR} id worker.
Arguments MCancelRequested {QR} id worker.
Arguments MRequestCancel {QR} id.
Arguments MComplete {QR} id worker res.
Arguments MPublishOutput {QR} id worker n key attempt_id uri mode.
Arguments MCancelComplete {QR} id worker.
Arguments MFail {QR} id worker error retryable cls.
Arguments MReapStale {QR}.
Arguments MDepth {QR}.

Section all_methods.
Context {QR : Type} `{QueueCodec QR} `{Sha256} (cc : client_cfg).

Definition discard {A} (p : prog (qop QR) A) : prog (qop QR) unit := bind p (fun _ => Ret tt).

Definition method_body (m : method QR) : prog (qop QR) unit :=
  match m with
  | MEnqueue request key => discard (enqueue cc request key)
  | MGet id => discard (get id)
  | MPromoteRetries => discard promote_retries
  | MReserve worker shard => discard (reserve cc worker shard)
  | MHeartbeat id worker => discard (heartbeat cc id worker)
  | MOwns id worker => discard (owns id worker)
  | MCancelRequested id worker => discard (cancel_requested id worker)
  | MRequestCancel id => discard (request_cancel id)
  | MComplete id worker res => discard (complete id worker res)
  | MPublishOutput id worker n key aid uri mode =>
      discard (publish_output id worker n key aid uri mode)
  | MCancelComplete id worker => discard (cancel_complete id worker)
  | MFail id worker error retryable cls => discard (fail cc id worker error retryable cls)
  | MReapStale => discard (reap_stale cc)
  | MDepth => discard (depth cc)
  end.

(** A publication key must not be one of the queue's own hash keys. *)
Definition method_ok (m : method QR) : Prop :=
  match m with MPublishOutput _ _ _ key _ _ _ => outside_key (cc_queue cc) key | _ => True end.

Context (c : queue_cfg) (Hcc : cc_queue cc = c) (Hc : queue_cfg_ok c).
Context (R : world -> world -> Prop) (HR : forall w w1, R w w1 -> others c w w1).
Context (C : Z -> Prop).
#[local] Instance all_effects : Effects (qop QR) world := client_effects c R C.

(** A stored text that its codec refuses with [e]. *)
Definition unloadable_result (e : exn) (q : qstate) : Prop :=
  exists id j, jobs q !! id = Some j /\ load_result (QR := QR) (j_result j) = Err e.

Definition unloadable_request (e : exn) (q : qstate) : Prop :=
  exists id j, jobs q !! id = Some j /\ load_request (j_request j) = Err e.

(** The exceptions a method can end in, [q] being the queue it leaves. *)
Definition may_raise (m : method QR) (e : exn) (q : qstate) : Prop :=
  match m with
  | MEnqueue _ key =>
      ~ key_ok key /\ exn_cls e = PyValueError
      \/ e = Exn BusyError "async queue is full"
      \/ key <> None /\ (e = Exn IdempotencyConflict expired_text
                        \/ exists id, e = Exn IdempotencyConflict (conflict_text id))
      \/ key <> None /\ unloadable_result e q
  | MGet _ | MRequestCancel _ | MFail _ _ _ _ _ | MReapStale => unloadable_result e q
  | MReserve _ _ => unloadable_request e q
  | MPromoteRetries | MHeartbeat _ _ | MOwns _ _ | MCancelRequested _ _ | MComplete _ _ _
  | MPublishOutput _ _ _ _ _ _ _ | MCancelComplete _ _ | MDepth => False
  end.

Definition ends {A} (m : method QR) (r : result exn A) (w : world) : Prop :=
  match r with Ok _ => True | Err e => may_raise m e (w_queue w) end.

Lemma wp_discard {A} m (p : prog (qop QR) A) w : wp p w (ends m) -> wp (discard p) w (ends m).
Proof. intros Hp. apply wp_bind. eapply wp_mono; [|exact Hp]. by intros []. Qed.

Lemma reported_err id q e : reported (QR := QR) id q = Err e -> unloadable_result e q.
Proof.
  unfold reported. destruct (jobs q !! id) as [j|] eqn:Hj; [|done]. unfold job_record, or_none.
  intros E. exists id, j. split; [done|].
  destruct (match j_result j with "" => _ | _ => _ end) as [text|] eqn:Et; [|done].
  assert (text = j_result j) as -> by (by destruct (j_result j); [|injection Et]).
  destruct (load_result _) as [|e']; [done|]. simpl in E. by injection E as ->.
Qed.

Lemma existing_ends req key id w :
  key <> None ->
  match reported (QR := QR) id (w_queue w) with
  | Ok (Some rec) => ends (MEnqueue req key) (Ok rec) w
  | Ok None => ends (A := JobRecord QR) (MEnqueue req key)
                 (Err (Exn IdempotencyConflict expired_text)) w
  | Err e => ends (A := JobRecord QR) (MEnqueue req key) (Err e) w
  end.
Proof.
  intros Hk. destruct (reported id (w_queue w)) as [[rec|]|e] eqn:Er; simpl; [done|eauto 10|].
  apply reported_err in Er. auto.
Qed.

Lemma method_legal m w : method_ok m -> wp (method_body m) w (ends m).
Proof.
  intros Hok. destruct m as [req key|id| | | | | |id| | | | | | ]; apply wp_discard.
  - apply wp_enqueue; [by left| |].
    + intros w0 _ _. eapply wp_submit; try done. intros id t w1 _ _ _ _ call reply w2.
      split; [by intros _; right; left|].
      assert (Hkey : reply.1 = "conflict" \/ reply.1 = "existing" -> key <> None).
      { intros Hr ->. subst reply call. cbn [spec_call] in Hr. unfold Spec.enqueue in Hr.
        simpl in Hr. destruct (_ <=? _) in Hr; by destruct Hr. }
      split; [intros E; simpl; eauto 10|].
      split; [|done]. intros E w3 _. apply existing_ends. auto.
    + intros w0 h id _ Hb _. assert (Hkey : key <> None) by (by destruct key).
      case_decide; [|simpl; eauto 10]. apply wp_existing_job. intros w3 _. by apply existing_ends.
  - apply wp_get. intros w1 _ _. destruct (reported _ _) eqn:Er; [done|]. by eapply reported_err.
  - by eapply wp_promote_retries.
  - eapply wp_reserve; try done. intros id w1 now j r Hi Hj Hst Hin Hr.
    destruct r as [|e]; [done|]. simpl in Hr. exists id. unfold after. cbn [spec_call].
    unfold Spec.claim. rewrite Hj, decide_True by done. eexists. simpl.
    rewrite lookup_insert_eq. split; [done|]. exact Hr.
  - by eapply wp_heartbeat.
  - by apply wp_owns.
  - by apply wp_cancel_requested.
  - eapply wp_request_cancel; try done. intros t shard w1 _ _ call w2. split; [done|].
    intros _ w3 _. destruct (reported _ _) eqn:Er; [done|]. by eapply reported_err.
  - by apply wp_complete.
  - apply wp_publish_output; [|done]. by rewrite <- Hcc.
  - by apply wp_cancel_complete.
  - apply wp_fail; try done. intros. split; [done|]. intros. split; [done|]. apply reported_err.
  - eapply wp_reap_stale; try done. intros id e w1. apply reported_err.
  - by eapply wp_depth_any.
Qed.
End all_methods.
