(* ===== verification/ClientDemo.v ===== *)
(** * A lone client, and a small queue to run it on

    [lone] answers a client's operations when nobody else acts, with a fixed clock
    and jitter; what it runs is an execution ([lone_exec]).  The rest is the
    concrete configuration, codec and worlds the witnesses use. *)

From Stdlib Require Import QArith.
From S2P Require Import Prelude Valkey Models Fingerprint Prog.
From S2P Require Import QueueState QueueScripts QueueRefine QueueInv QueueTrace QueueLife.
From S2P Require Import JobQueue ClientWorld.

#[local] Open Scope Z_scope.

(** ** A lone client to try the theorems on *)

Section lone.
Context {QR : Type} (c : queue_cfg) (t : Z) (u : Q).

(** Clock, jitter and metadata are fixed; uuid4 gives an unused id. *)
Definition lone {X} (o : qop QR X) (w : world) : X * world :=
  match o in qop _ Y return Y * world with
  | QCall call => ((spec_call c call (w_queue w)).1, after c call w)
  | NowMs => (t, w)
  | Jitter => (u, w)
  | Uuid4 =>
      let id := stdpp.base.fresh (w_ids w) in (id, World (w_queue w) ({[id]} ∪ w_ids w))
  | RecordInvocation _ _ _ | UpdateInvocation _ _ _ _ _ _ => (Ok tt, w)
  end.

Lemma lone_step (R : world -> world -> Prop) (C : Z -> Prop) X (o : qop QR X) w :
  (forall w, R w w) -> C t -> jitter_ok u -> client_step c R C o w (lone o w).1 (lone o w).2.
Proof.
  intros HR Ht Hu. destruct o; simpl; try done; [by exists w|].
  split; [apply is_fresh|done].
Qed.

Lemma lone_exec_at (R : world -> world -> Prop) (C : Z -> Prop) {A} (p : prog (qop QR) A) w :
  (forall w, R w w) -> C t -> jitter_ok u ->
  exec_at c R C p w (run (@lone) p w).1 (run (@lone) p w).2.
Proof. intros HR Ht Hu. apply run_execution. intros. by apply lone_step. Qed.

Lemma lone_exec (R : world -> world -> Prop) {A} (p : prog (qop QR) A) w :
  (forall w, R w w) -> jitter_ok u -> exec c R p w (run (@lone) p w).1 (run (@lone) p w).2.
Proof. intros HR Hu. by apply lone_exec_at. Qed.
End lone.

Lemma start_inv c : world_inv c (World empty_queue ∅).
Proof.
  split; [apply empty_inv|]. intros id _. split; [by simpl; rewrite lookup_empty|].
  split; [|done]. unfold places, pend_count, retry_count. simpl. rewrite lookup_empty.
  induction (seq 0 (affinity_shards c)); [done|]. by rewrite fmap_cons.
Qed.

Definition cfg : queue_cfg := make_queue_cfg "dalmatian:jobs" 86400 60 3 2 100 None.
Definition client : client_cfg := ClientCfg cfg 2 60.

Lemma demo_cfg_ok : queue_cfg_ok (cc_queue client).
Proof. split; simpl; lia. Qed.

Definition source : SourceSpec := MkSource "t.csv" F_CSV None [] None None false.
Definition request (sql : string) : QueryRequest :=
  MkRequest sql [("t", source)] default_output None None None.

(** Only the SQL text is written out; results are texts. *)
#[export] Instance codec : QueueCodec string := {
  dump_request r := q_sql r;
  load_request s := Ok (request s);
  dump_result r := r;
  load_result s := Ok s;
}.

#[export] Instance sha : Sha256 := { sha256_hex s := s; sha256_head _ := 1 }.

(** One queued job, "a". *)
Definition queued : world :=
  World (spec_call cfg (Enqueue None "h" "select 1" 1 1000 "a") empty_queue).2 ({["a"]} ∪ ∅).

(** The same job run by [w1], its lease at 61000. *)
Definition running : world :=
  after cfg (Claim "a" "w1" 61000 1000) (after cfg (Pop 1) queued).

Lemma queued_inv : world_inv (cc_queue client) queued.
Proof.
  eapply (env_inv _ demo_cfg_ok _ _ (start_inv _)).
  apply (env_call cfg (World empty_queue ∅) (string * string)
           (Enqueue None "h" "select 1" 1 1000 "a")).
  - split; [|done]. split; [apply Nat.ltb_lt; reflexivity|]. repeat split; reflexivity.
  - simpl. intros. apply not_elem_of_empty.
Qed.

Lemma running_inv : world_inv (cc_queue client) running.
Proof.
  apply (after_inv _ demo_cfg_ok); [|done|done]. apply (after_inv _ demo_cfg_ok); [apply queued_inv| |done].
  split; [|done]. apply Nat.ltb_lt. reflexivity.
Qed.

Lemma jitter_one : jitter_ok 1.
Proof. split; discriminate. Qed.
