(* ===== verification/ClientTheorems.v ===== *)
(** * What the job-queue client guarantees

    Theorems about the methods of [ValkeyJobQueue], for every interleaved
    execution ([exec]): legality, what a reservation and an enqueue give,
    idempotent submission, how an attempt ends, the retry delay, and what one pass
    of the reaper leaves. *)

From Stdlib Require Import QArith Qround Lqa.
From S2P Require Import Prelude Valkey Models Fingerprint Prog.
From S2P Require Import QueueState QueueScripts QueueRefine QueueInv QueueTrace QueueLife.
From S2P Require Import QueueFlow JobQueue ClientWorld QueueClient ClientDemo.

#[local] Open Scope Z_scope.

(** ** Supporting facts *)

(** This client changed nothing: the others moved, as [R] allows them to, and uuid4
    handed out ids.  When the others stand still ([R] is [eq]) the queue is the
    same ([idle_alone]). *)
Definition idle (R : world -> world -> Prop) : world -> world -> Prop :=
  rtc (fun w w1 => R w w1 \/ exists id, w1 = World (w_queue w) ({[id]} ∪ w_ids w)).

Lemma others_idle (R : world -> world -> Prop) w w1 : R w w1 -> idle R w w1.
Proof. intros Ho. apply rtc_once. by left. Qed.

Lemma mint_idle R w id : idle R w (World (w_queue w) ({[id]} ∪ w_ids w)).
Proof. apply rtc_once. right. by exists id. Qed.

#[global] Instance idle_preorder R : PreOrder (idle R).
Proof. unfold idle. apply _. Qed.

Lemma idle_alone w w1 : idle eq w w1 -> w_queue w1 = w_queue w.
Proof. induction 1 as [|w w1 w2 [->|[id ->]] _ IH]; [done..|exact IH]. Qed.

(** An enqueue call that is refused leaves the queue as it was. *)
Lemma refused_enqueue c ikey hash request shard now id w :
  ((Spec.enqueue c ikey hash request shard now id (w_queue w)).1.1 <> "created") ->
  after c (Enqueue ikey hash request shard now id) w = w.
Proof.
  unfold after. cbn [spec_call]. unfold Spec.enqueue. destruct w as [q ids]. simpl.
  destruct (ikey ≫= _) as [[h e]|]; [by case_decide|]. destruct (_ <=? _); [done|]. done.
Qed.

(** ** The answer of the enqueue script, in full *)
Lemma created_enqueue c ikey hash request shard now id q :
  (Spec.enqueue c ikey hash request shard now id q).1 = ("created", id) ->
  let q' := (Spec.enqueue c ikey hash request shard now id q).2 in
  jobs q' !! id = Some (new_job request shard now) /\ id ∈ pend q' shard
  /\ (forall d, ikey = Some d -> idem q' !! d = Some (hash, id)).
Proof.
  unfold Spec.enqueue. destruct (ikey ≫= _) as [[h e]|]; [by case_decide|].
  destruct (_ <=? _); [done|]. intros _. cbn [fst snd].
  destruct ikey as [d|]; simpl; (split; [by rewrite lookup_insert_eq|]); split; try done.
  - unfold pend. simpl. rewrite lookup_insert_eq. by left.
  - intros d' [= <-]. by rewrite lookup_insert_eq.
  - unfold pend. simpl. rewrite lookup_insert_eq. by left.
Qed.

(** [wp] of a client program among the others [R], with the clock [C]. *)
Definition client_wp_at {QR} (c : queue_cfg) (R : world -> world -> Prop) (C : Z -> Prop) {A}
    (p : prog (qop QR) A) (w : world) (Q : result exn A -> world -> Prop) : Prop :=
  wp (H := client_effects c R C) p w Q.

Definition client_wp {QR} (c : queue_cfg) (R : world -> world -> Prop) {A}
    (p : prog (qop QR) A) (w : world) (Q : result exn A -> world -> Prop) : Prop :=
  client_wp_at c R any_time p w Q.

Section alone.
Context {QR : Type} `{QueueCodec QR} `{Sha256} (cc : client_cfg).
Let c := cc_queue cc.
Context (Hc : queue_cfg_ok c).

Lemma exec_wp_at (R : world -> world -> Prop) C {A} (p : prog (qop QR) A) w r w' Q :
  (forall w w1, R w w1 -> others c w w1) -> world_inv c w ->
  client_wp_at c R C p w Q -> exec_at c R C p w r w' -> Q r w'.
Proof. intros HR Hi Hw He. by destruct (wp_exec c Hc R HR C p w r w' Q Hi Hw He). Qed.

Lemma exec_wp (R : world -> world -> Prop) {A} (p : prog (qop QR) A) w r w' Q :
  (forall w w1, R w w1 -> others c w w1) -> world_inv c w ->
  client_wp c R p w Q -> exec c R p w r w' -> Q r w'.
Proof. apply exec_wp_at. Qed.

(** What [enqueue] has done when it returns, among others that move as [R] says. *)
Definition enqueued_or_idle (R : world -> world -> Prop) (req : QueryRequest) (key : option string) (w : world)
    (r : result exn (JobRecord QR)) (w' : world) : Prop :=
  match r with
  | Ok rec =>
      (exists t, ~ (jr_id rec ∈ w_ids w) /\ jr_status rec = QUEUED
         /\ jobs (w_queue w') !! jr_id rec = Some (new_job (dump_request req) (_shard cc req) t)
         /\ jr_id rec ∈ pend (w_queue w') (_shard cc req)
         /\ forall k, key = Some k ->
              idem (w_queue w') !! sha256_hex k = Some (request_payload_fingerprint req, jr_id rec))
      \/ idle R w w' /\ key <> None /\ reported (jr_id rec) (w_queue w') = Ok (Some rec)
  | Err e => idle R w w'
  end.

Lemma reported_id id q (r : JobRecord QR) : reported id q = Ok (Some r) -> jr_id r = id.
Proof. intros Hr. by destruct (reported_status id q r Hr) as (j & _ & ? & _). Qed.

Section submitting.
Context (R : world -> world -> Prop) (HR : forall w w1, R w w1 -> others c w w1).

Lemma existing_idle req key id w w3 :
  idle R w w3 -> key <> None ->
  match reported id (w_queue w3) with
  | Ok (Some rec) => enqueued_or_idle R req key w (Ok rec) w3
  | Ok None => enqueued_or_idle R req key w (Err (Exn IdempotencyConflict expired_text)) w3
  | Err e => enqueued_or_idle R req key w (Err e) w3
  end.
Proof.
  intros Hw Hk. destruct (reported id (w_queue w3)) as [[rec|]|e] eqn:Er; [|exact Hw..].
  right. split; [done|]. split; [done|]. by rewrite (reported_id _ _ _ Er).
Qed.

Lemma enqueue_wp req key w :
  client_wp c R (enqueue cc req key) w (enqueued_or_idle R req key w).
Proof.
  apply wp_enqueue; [intros _ e; apply rtc_refl| |].
  - intros w0 Hw0 Hk. apply (wp_submit cc c); [done|done|exact HR|].
    intros id t w1 Hid Ho1 Hi1 Hf call reply w2.
    assert (E0 : idle R w w0).
    { destruct Hw0 as [[_ ->]|[Ho _]]; [reflexivity|by apply others_idle]. }
    assert (E1 : idle R w w1).
    { etrans; [exact E0|]. etrans; [apply (mint_idle R w0 id)|]. by apply others_idle. }
    assert (E2 : reply.1 <> "created" -> w2 = w1) by (intros; by apply refused_enqueue).
    split; [intros E; rewrite E2; [exact E1|by rewrite E]|].
    split; [intros E; rewrite E2; [exact E1|by rewrite E]|].
    split.
    + intros E w3 Ho3. rewrite E2 in Ho3 by (by rewrite E).
      apply existing_idle; [etrans; [exact E1|by apply others_idle]|].
      intros ->. subst reply call. cbn [spec_call] in E. unfold Spec.enqueue in E.
      simpl in E. by destruct (_ <=? _).
    + intros E. left. exists t. simpl. destruct (created_enqueue _ _ _ _ _ _ _ _ E) as (Ej & Ep & Ei).
      split.
      { destruct Hw0 as [[_ ->]|[Ho _]]; [done|].
        pose proof (others_ids c Hc _ _ (HR _ _ Ho)). set_solver. }
      split; [done|]. split; [exact Ej|]. split; [exact Ep|]. intros k ->. by apply Ei.
  - intros w0 h id Ho Hb _.
    assert (Hk : key <> None) by (by destruct key).
    case_decide; [|by apply others_idle].
    apply wp_existing_job. intros w3 Ho3. apply existing_idle; [|done].
    etrans; by apply others_idle.
Qed.
End submitting.

(** ** An attempt that fails *)

(** [worker] runs [id] with a lease that is alive at [t]. *)
Definition owns_at (q : qstate) (id worker : string) (t : Z) : Prop :=
  exists j, jobs q !! id = Some j /\ j_status j = RUNNING /\ j_worker j = worker /\ t < j_lease j.

(** The end of an attempt that was [worker]'s when the clock [C] showed [t]. *)
Definition attempt_ended (C : Z -> Prop) (id worker error : string) (retryable : bool)
    (w w' : world) : Prop :=
  exists j j' t, C t
    /\ jobs (w_queue w) !! id = Some j /\ j_status j = RUNNING /\ j_worker j = worker
    /\ t < j_lease j
    /\ jobs (w_queue w') !! id = Some j' /\ j_error j' = error /\ j_worker j' = ""
    /\ j_attempts j' = j_attempts j
    /\ (forall x, x <> id -> jobs (w_queue w') !! x = jobs (w_queue w) !! x)
    /\ processing (w_queue w') = remove_first id (processing (w_queue w))
    /\ if retryable && (j_attempts j <? max_attempts c)
       then j_status j' = RETRYING /\ retry (w_queue w') = <[id := j_next j']> (retry (w_queue w))
            /\ dead (w_queue w') = dead (w_queue w)
            /\ exists t0 u, C t0 /\ jitter_ok u /\ j_next j' = t0 + delay_ms
                  (backoff (retry_base_seconds cc) (retry_max_seconds cc) (j_attempts j)) u
       else j_status j' = FAILED /\ retry (w_queue w') = retry (w_queue w)
            /\ dead (w_queue w') = id :: dead (w_queue w).

(** What [fail] leaves when no other client acts meanwhile. *)
Definition attempt_failed (C : Z -> Prop) (id worker error : string) (retryable : bool)
    (w : world) (r : result exn bool) (w' : world) : Prop :=
  match r with
  | Ok false => w_queue w' = w_queue w /\ exists t, C t /\ ~ owns_at (w_queue w) id worker t
  | Ok true => attempt_ended C id worker error retryable w w'
  | Err e => attempt_ended C id worker error retryable w w'
             /\ reported (QR := QR) id (w_queue w') = Err e
  end.

Lemma not_owned q id worker t :
  (forall j, jobs q !! id = Some j -> owned j worker t = false) -> ~ owns_at q id worker t.
Proof.
  intros Hno (j & Hj & Hst & Hw & Hl). specialize (Hno j Hj).
  assert (owned j worker t = true) by (by apply owned_spec). congruence.
Qed.

Lemma finish_failed (C : Z -> Prop) id worker error t w :
  C t ->
  attempt_failed C id worker error false w
    (Ok (bool_decide ((Spec.finish id worker FAILED error t (w_queue w)).1 <> 0)))
    (after c (Finish id worker FAILED error t) w).
Proof.
  intros Ht. unfold after. cbn [spec_call]. unfold Spec.finish.
  destruct (jobs (w_queue w) !! id) as [j|] eqn:Hj.
  2: { split; [done|]. exists t. split; [done|]. apply not_owned. by rewrite Hj. }
  destruct (owned j worker t) eqn:Ho.
  2: { split; [done|]. exists t. split; [done|]. apply not_owned. rewrite Hj. by intros ? [= <-]. }
  apply owned_spec in Ho as (Hst & Hw & Hl).
  simpl. exists j, (with_status FAILED error t j), t. simpl. rewrite lookup_insert_eq.
  repeat (split; [done|]). split; [|done]. intros x Hx. by apply lookup_insert_ne.
Qed.

Lemma retry_ended (C : Z -> Prop) id worker error t0 t u w j :
  C t0 -> C t -> jitter_ok u -> jobs (w_queue w) !! id = Some j -> owned j worker t = true ->
  let next := t0 + delay_ms
    (backoff (retry_base_seconds cc) (retry_max_seconds cc) (j_attempts j)) u in
  attempt_ended C id worker error true w (after c (RetryLater id worker error t next) w).
Proof.
  intros Ht0 Ht Hu Hj Ho next. unfold after. cbn [spec_call]. unfold Spec.retry_later.
  rewrite Hj, Ho. apply owned_spec in Ho as (Hst & Hw & Hl). cbn [fst snd].
  rewrite Z.leb_antisym. unfold attempt_ended. simpl andb.
  exists j. destruct (j_attempts j <? max_attempts c) eqn:El; simpl negb; cbv iota; cbn [w_queue].
  - exists (with_next next (with_status RETRYING error t j)), t. simpl.
    rewrite !lookup_insert_eq. repeat (split; [done|]).
    split; [intros x Hx; by apply lookup_insert_ne|].
    repeat (split; [done|]). exists t0, u. auto.
  - exists (with_status FAILED error t j), t. simpl. rewrite lookup_insert_eq.
    repeat (split; [done|]). split; [|done]. intros x Hx. by apply lookup_insert_ne.
Qed.

Lemma fail_wp C id worker error retryable cls w :
  client_wp_at c eq C (fail (QR := QR) cc id worker error retryable cls) w
    (attempt_failed C id worker error retryable w).
Proof.
  apply wp_fail.
  - intros t w1 Ht -> <- _ call. subst call. cbn [spec_call]. by apply finish_failed.
  - intros t0 t u n w0 w1 Ht0 Ht -> <- <- Hi Hu Hn next call w2.
    assert (Hno : (forall j, jobs (w_queue w) !! id = Some j -> owned j worker t = false) ->
              w2 = w /\ (spec_call c call (w_queue w)).1 = 0).
    { intros Hno. subst w2 call. unfold after. cbn [spec_call]. unfold Spec.retry_later.
      destruct w as [q ids]. simpl in *. destruct (jobs q !! id) as [j|]; [|done].
      by rewrite (Hno j eq_refl). }
    assert (Hd : (exists j, jobs (w_queue w) !! id = Some j /\ owned j worker t = true)
              \/ (forall j, jobs (w_queue w) !! id = Some j -> owned j worker t = false)).
    { destruct (jobs (w_queue w) !! id) as [j|]; [|by right].
      destruct (owned j worker t) eqn:Ho; [left; eauto|right]. by intros ? [= <-]. }
    destruct Hd as [(j & Hj & Ho)|Hd].
    + assert (E : (spec_call c call (w_queue w)).1 = 1).
      { subst call. cbn [spec_call]. unfold Spec.retry_later. by rewrite Hj, Ho. }
      rewrite E. split; [done|]. intros _ w3 <-.
      assert (He : attempt_ended C id worker error true w w2).
      { subst w2 call next. rewrite (Hn j Hj). by apply retry_ended. }
      by split.
    + destruct (Hno Hd) as [-> E]. rewrite E. split; [|done]. intros _. split; [done|].
      exists t. split; [done|]. by apply not_owned.
Qed.

(** ** One pass of the reaper *)

(** The running jobs of a later state, against those of [q] at time [now]. *)
Record sweeping (now : Z) (q : qstate) (seen : list string) (q' : qstate) : Prop := {
  sw_seen id j : id ∈ seen -> jobs q' !! id = Some j -> j_status j = RUNNING -> now < j_lease j;
  sw_old id j : jobs q' !! id = Some j -> j_status j = RUNNING -> jobs q !! id = Some j;
  sw_kept id j : jobs q !! id = Some j -> j_status j = RUNNING -> now < j_lease j ->
    jobs q' !! id = Some j;
}.

(** A job that is replaced by one that does not run, and had no live lease. *)
Lemma sweep_replace now q seen q' q2 id j' :
  sweeping now q seen q' -> jobs q2 = <[id := j']> (jobs q') -> j_status j' <> RUNNING ->
  (forall j, jobs q' !! id = Some j -> j_status j = RUNNING -> j_lease j <= now) ->
  sweeping now q (id :: seen) q2.
Proof.
  intros [S1 S2 S3] E Hst Hold. split; rewrite E; intros x j.
  - rewrite lookup_insert. case_decide as Hx; [by intros _ [= <-]|].
    rewrite elem_of_cons. intros [->|Hin]; [done|]. by apply S1.
  - rewrite lookup_insert. case_decide as Hx; [by intros [= <-]|]. apply S2.
  - intros Hj Hr Hl. specialize (S3 x j Hj Hr Hl). rewrite lookup_insert_ne; [done|].
    intros <-. specialize (Hold j S3 Hr). lia.
Qed.

Lemma sweep_same now q seen q' q2 id :
  sweeping now q seen q' -> jobs q2 = jobs q' ->
  (forall j, jobs q' !! id = Some j -> j_status j = RUNNING -> now < j_lease j) ->
  sweeping now q (id :: seen) q2.
Proof.
  intros [S1 S2 S3] E Hid. split; rewrite E; [|done..].
  intros x j. rewrite elem_of_cons. intros [->|Hin]; [apply Hid|by apply S1].
Qed.

Lemma sweep_weaken now q id seen q' : sweeping now q (id :: seen) q' -> sweeping now q seen q'.
Proof. intros []. split; [|done..]. intros x j Hx. apply sw_seen0. by right. Qed.

Lemma reap_sweeps now q seen q' id lease next shard :
  sweeping now q seen q' -> seen_stale q' id now lease ->
  sweeping now q (id :: seen) (Spec.reap (max_attempts c) id lease now next shard q').2.
Proof.
  intros Hs Hl. unfold Spec.reap. destruct (jobs q' !! id) as [j|] eqn:Hj.
  2: { apply (sweep_same _ _ _ q'); [done..|]. intros j. by rewrite Hj. }
  destruct (Hl j Hj) as [-> Hle].
  destruct (decide (j_status j = QUEUED)) as [Hq|Hq].
  { apply (sweep_same _ _ _ q'); [done..|]. intros j'. rewrite Hj. intros [= <-]. congruence. }
  destruct (decide (j_status j <> RUNNING)) as [Hr|Hr].
  { apply (sweep_same _ _ _ q'); [done..|]. intros j'. by rewrite Hj; intros [= <-]. }
  apply dec_stable in Hr. specialize (Hle Hr).
  rewrite decide_False by (intros [?|?]; [done|lia]).
  destruct (j_cancel j); [|destruct (_ <=? _)]; cbn [snd];
    (eapply sweep_replace; [exact Hs|reflexivity|done|intros ? [= <-]; lia]) ||
    (eapply sweep_replace; [exact Hs|reflexivity|done|]; intros j'; rewrite Hj; by intros [= <-]).
Qed.

Lemma promote_sweeps now q seen q' id t shard :
  sweeping now q seen q' -> sweeping now q seen (Spec.promote id t shard q').2.
Proof.
  intros Hs. unfold Spec.promote. destruct (jobs q' !! id) as [j|] eqn:Hj.
  2: by destruct Hs; split.
  case_decide as Hst; [by destruct Hs; split|].
  destruct (retry q' !! id); [|by destruct Hs; split].
  destruct (t <? _); [by destruct Hs; split|]. cbn [snd]. apply (sweep_weaken _ _ id).
  eapply sweep_replace; [exact Hs|reflexivity|done|]. intros j'. rewrite Hj. intros [= <-]. congruence.
Qed.

Lemma reap_stale_wp C w :
  world_inv c w ->
  client_wp_at c eq C (reap_stale (QR := QR) cc) w (fun r w' =>
    match r with
    | Ok _ => exists now, C now /\ sweeping now (w_queue w) (processing (w_queue w)) (w_queue w')
    | Err e => exists id, reported (QR := QR) id (w_queue w') = Err e
    end).
Proof.
  intros Hi. apply wp_bind, wp_now. intros now Ht. apply wp_bind, wp_read; [exact I|].
  intros w1 <- _. cbn [spec_call fst]. apply wp_bind.
  apply (wp_for_each_done _ _ _ _ (fun seen _ w2 =>
    w_ids w2 = w_ids w /\ sweeping now (w_queue w) seen (w_queue w2))).
  - split; [done|]. split; [by intros ? ? ?%not_elem_of_nil|done|done].
  - intros seen n id w2 [Hids Hs] Hin. apply (wp_reap_one cc c);
      [done|done|apply alone_others|rewrite Hids; by apply (listed_minted c)| |].
    + intros w3 j <- _ Hj _ Hlt. split; [done|]. eapply sweep_same; [exact Hs|done|].
      intros j'. rewrite Hj. by intros [= <-].
    + intros w3 w4 lease next shard <- <- _ _ Hst call w5.
      assert (Hsw : w_ids w5 = w_ids w /\ sweeping now (w_queue w) (id :: seen) (w_queue w5)).
      { split; [done|]. by apply reap_sweeps. }
      split; [done|]. intros _ w6 <-. split; [done|]. intros e He. by exists id.
  - intros seen n w2 [Hids Hs] Hall. apply wp_bind.
    apply (wp_promote_keeps cc c eq_refl Hc eq (alone_others c) C
             (fun w3 => sweeping now (w_queue w) seen (w_queue w3)));
      [by intros ? ? ? <-|intros; by apply promote_sweeps|done|].
    intros m w3 _ Hs3. exists now. split; [done|]. destruct Hs3 as [S1 S2 S3]. split; [|done..].
    intros id j Hid. apply S1. by apply Hall.
Qed.

(** ** Depth and promotion when alone *)

Lemma depth_wp w :
  client_wp c eq (depth (QR := QR) cc) w
    (fun r w' => r = Ok (depth_of (affinity_shards c) (w_queue w)) /\ w' = w).
Proof.
  unfold depth. change (cc_queue cc) with c. apply wp_bind.
  assert (Hloop : forall l acc,
    client_wp c eq (for_each l acc (fun acc shard =>
        n <- qcalls (QR := QR) (PendingLen shard);; Ret (acc + n))%prog) w
      (fun r w' => r = Ok (acc + foldr Z.add 0
          ((fun i => Z.of_nat (length (pend (w_queue w) i))) <$> l)) /\ w' = w)).
  { intros l. induction l as [|i l IH]; intros acc.
    - split; [|done]. by rewrite Z.add_0_r.
    - cbn [for_each]. apply wp_bind, wp_bind, wp_read; [exact I|]. intros w1 <- _.
      rewrite fmap_cons. cbn [foldr spec_call fst].
      specialize (IH (acc + Z.of_nat (length (pend (w_queue w) i)))).
      by rewrite <- Z.add_assoc in IH. }
  eapply wp_mono; [|apply Hloop]. intros ? ? [-> ->].
  apply wp_bind, wp_read; [exact I|]. intros w1 <- _.
  apply wp_bind, wp_read; [exact I|]. intros w2 <- _. split; [|done].
  cbn [spec_call fst]. unfold depth_of. f_equal. lia.
Qed.
End alone.

(** ** The retry delay *)

Lemma delay_mono b1 b2 u : (b1 <= b2)%Q -> (0 <= u)%Q -> delay_ms b1 u <= delay_ms b2 u.
Proof.
  intros Hb Hu. unfold delay_ms. apply Z.max_le_compat_l, Qfloor_resp_le.
  apply Qmult_le_compat_r; [|done]. by apply Qmult_le_compat_r.
Qed.

Lemma backoff_cap base cap n : (backoff base cap n <= cap)%Q.
Proof.
  unfold backoff. destruct (Qle_bool _ cap) eqn:E; [by apply Qle_bool_iff|apply Qle_refl].
Qed.

Lemma inject_pow_le n m : n <= m -> (inject_Z (2 ^ Z.max 0 (n - 1)) <= inject_Z (2 ^ Z.max 0 (m - 1)))%Q.
Proof. intros Hnm. rewrite <- Zle_Qle. apply Z.pow_le_mono_r; lia. Qed.

Lemma backoff_mono base cap n m :
  (0 <= base)%Q -> n <= m -> (backoff base cap n <= backoff base cap m)%Q.
Proof.
  intros Hb Hnm. unfold backoff.
  assert (Hle : (base * inject_Z (2 ^ Z.max 0 (n - 1)) <= base * inject_Z (2 ^ Z.max 0 (m - 1)))%Q).
  { rewrite !(Qmult_comm base). apply Qmult_le_compat_r; [by apply inject_pow_le|done]. }
  destruct (Qle_bool (base * inject_Z (2 ^ Z.max 0 (m - 1))) cap) eqn:Em.
  - apply Qle_bool_iff in Em.
    replace (Qle_bool (base * inject_Z (2 ^ Z.max 0 (n - 1))) cap) with true; [done|].
    symmetry. apply Qle_bool_iff. by eapply Qle_trans.
  - destruct (Qle_bool (base * inject_Z (2 ^ Z.max 0 (n - 1))) cap) eqn:En; [|apply Qle_refl].
    by apply Qle_bool_iff.
Qed.

(** ** The theorems *)

Section theorems.
Context {QR : Type} `{QueueCodec QR} `{Sha256} (cc : client_cfg).
Context (Hc : queue_cfg_ok (cc_queue cc)).

(** What a binding and its job are once nothing expires. *)
Definition settled (k : string) (fp id : string) (w : world) : Prop :=
  idem (w_queue w) !! sha256_hex k = Some (fp, id) /\ is_Some (jobs (w_queue w) !! id).

Lemma bind_call c q {X} (call : qcall X) d b :
  idem q !! d = Some b -> idem (spec_call c call q).2 !! d = Some b.
Proof.
  intros Hd. destruct call; try exact Hd; cbn [spec_call];
    unfold Spec.publish, Spec.claim, Spec.heartbeat, Spec.complete, Spec.finish,
      Spec.retry_later, Spec.reap, Spec.promote, Spec.cancel, Spec.pop;
    repeat case_match; try exact Hd.
  unfold Spec.enqueue. destruct ikey as [d'|]; simpl.
  - destruct (idem q !! d') as [[h e]|] eqn:Hd'; [by case_decide|].
    destruct (_ <=? _); [done|]. simpl. rewrite lookup_insert_ne; [done|]. intros ->. congruence.
  - by destruct (_ <=? _).
Qed.

Lemma settled_call c k fp id w {X} (call : qcall X) ids :
  call_ok c (w_queue w) call -> settled k fp id w ->
  settled k fp id (World (spec_call c call (w_queue w)).2 ids).
Proof.
  intros Hok [Hb [j Hj]]. split; [by apply bind_call|].
  destruct (call_job_step c _ call id j Hok Hj) as (j' & Hj' & _). by exists j'.
Qed.

Lemma settled_unexpired c k fp id w w1 :
  unexpired c w w1 -> settled k fp id w -> settled k fp id w1.
Proof.
  induction 1 as [|w w1 w2 (X & call & Hok & _ & ->) _ IH]; [done|]. intros Hs.
  apply IH, settled_call; [apply Hok|done].
Qed.

Lemma settled_reported k fp id w :
  settled k fp id w ->
  match reported (QR := QR) id (w_queue w) with
  | Ok None => False
  | _ => True
  end.
Proof.
  intros [_ [j Hj]]. unfold reported. rewrite Hj. by destruct (job_record id j).
Qed.

Lemma settle_found k fp id w (rec : JobRecord QR) :
  idem (w_queue w) !! sha256_hex k = Some (fp, id) ->
  reported id (w_queue w) = Ok (Some rec) -> settled k fp (jr_id rec) w.
Proof.
  intros Hb Hr. destruct (reported_status _ _ _ Hr) as (j & Hj & -> & _).
  split; [done|]. by exists j.
Qed.

Lemma bind_unexpired c w w1 d b :
  unexpired c w w1 -> idem (w_queue w) !! d = Some b -> idem (w_queue w1) !! d = Some b.
Proof.
  induction 1 as [|w w1 w2 (X & call & _ & _ & ->) _ IH]; [done|]. intros Hb.
  by apply IH, bind_call.
Qed.

(** An accepted enqueue leaves its key settled on the record's id. *)
Lemma enqueue_settles req k w :
  client_wp (cc_queue cc) (unexpired (cc_queue cc)) (enqueue (QR := QR) cc req (Some k)) w
    (fun r w' => forall rec, r = Ok rec ->
       key_ok (Some k) /\ settled k (request_payload_fingerprint req) (jr_id rec) w').
Proof.
  apply wp_enqueue; [done| |].
  - intros w0 _ Hk. apply (wp_submit cc (cc_queue cc)); [done|done|apply unexpired_others|].
    intros id t w1 Hid Ho1 Hi1 Hf call reply w2.
    split; [done|]. split; [done|]. split.
    + intros E w3 Ho3.
      assert (Eb : idem (w_queue w1) !! sha256_hex k
                   = Some (request_payload_fingerprint req, reply.2)).
      { subst reply call. revert E. cbn [spec_call]. unfold Spec.enqueue. simpl.
        destruct (idem (w_queue w1) !! sha256_hex k) as [[h e]|]; [|by destruct (_ <=? _)].
        by case_decide; [subst|]. }
      assert (E2 : w2 = w1) by (apply refused_enqueue; subst reply call; cbn [spec_call] in E;
                                by rewrite E). rewrite E2 in Ho3.
      pose proof (bind_unexpired _ _ _ _ _ Ho3 Eb) as Eb3.
      destruct (reported reply.2 (w_queue w3)) as [[rec|]|e] eqn:Er; [|done..].
      intros rec' [= <-]. split; [done|]. by eapply settle_found.
    + intros E rec [= <-]. split; [done|].
      destruct (created_enqueue _ _ _ _ _ _ _ _ E) as (Ej & _ & Ei).
      split; [by apply Ei|]. eexists. exact Ej.
  - intros w0 h id Ho Hb Hk. case_decide as Hh; [|done]. subst h.
    apply wp_existing_job. intros w3 Ho3.
    pose proof (bind_unexpired _ _ _ _ _ Ho3 Hb) as Eb3.
    destruct (reported id (w_queue w3)) as [[rec|]|e] eqn:Er; [|done..].
    intros rec' [= <-]. split; [done|by eapply settle_found].
Qed.

(** What an enqueue with a settled key answers: it only reads, so the queue is where
    the others, who move as [R] says, have left it. *)
Definition answers_settled (R : world -> world -> Prop) (req : QueryRequest) (fp id : string) (w : world)
    (r : result exn (JobRecord QR)) (w' : world) : Prop :=
  R w w'
  /\ if decide (fp = request_payload_fingerprint req)
     then match r with
          | Ok rec => jr_id rec = id /\ reported id (w_queue w') = Ok (Some rec)
          | Err e => reported (QR := QR) id (w_queue w') = Err e
          end
     else r = Err (Exn IdempotencyConflict (conflict_text id)).

Lemma enqueue_again (R : world -> world -> Prop) req k fp id w :
  PreOrder R -> (forall w w1, R w w1 -> unexpired (cc_queue cc) w w1) ->
  key_ok (Some k) -> settled k fp id w ->
  client_wp (cc_queue cc) R (enqueue (QR := QR) cc req (Some k)) w
    (answers_settled R req fp id w).
Proof.
  intros HP HR Hk Hs. apply wp_enqueue; [done| |].
  - intros w0 [[? _]|[Ho Hb]] _; [done|].
    destruct (settled_unexpired _ _ _ _ _ _ (HR _ _ Ho) Hs) as [Hb' _].
    unfold bound in Hb. simpl in Hb. congruence.
  - intros w0 h id' Ho Hb _.
    destruct (settled_unexpired _ _ _ _ _ _ (HR _ _ Ho) Hs) as [Hb' Hj'].
    unfold bound in Hb. simpl in Hb. assert (h = fp /\ id' = id) as [-> ->] by (split; congruence).
    unfold answers_settled. destruct (decide (fp = _)) as [E|E]; [|done].
    apply wp_existing_job. intros w3 Ho3.
    pose proof (settled_reported _ _ _ _ (settled_unexpired _ _ _ _ _ _ (HR _ _ Ho3)
                  (conj Hb' Hj'))) as Hr.
    assert (R w w3) by (by etrans).
    destruct (reported id (w_queue w3)) as [[rec|]|e] eqn:Er; [|done|auto].
    split; [done|]. split; [by eapply reported_id|done].
Qed.
End theorems.

(** A job [res] that [worker] has just been given. *)
Definition handed_out (c : queue_cfg) {QR} `{QueueCodec QR} (worker : string) (w : world)
    (res : ReservedJob) : Prop :=
  exists j now, jobs (w_queue w) !! rj_id res = Some j /\ j_status j = RUNNING
    /\ j_worker j = worker /\ j_cancel j = false /\ j_lease j = now + lease_seconds c * 1000
    /\ j_updated j = now /\ load_request (j_request j) = Ok (rj_request res)
    /\ j_shard j = rj_shard res /\ j_attempts j = rj_attempts res
    /\ 1 <= rj_attempts res <= max_attempts c.

Lemma reserve_wp {QR} `{QueueCodec QR} `{Sha256} cc worker shard w :
  queue_cfg_ok (cc_queue cc) ->
  client_wp (cc_queue cc) (others (cc_queue cc)) (reserve (QR := QR) cc worker shard) w
    (fun r w' => forall res, r = Ok (Some res) -> handed_out (cc_queue cc) worker w' res).
Proof.
  intros Hc. eapply wp_reserve; try done. intros id w1 now j r Hi1 Hj Hst Hin Hr res ->.
  destruct Hr as (Hid & Hl & Ha & Hs). subst id.
  exists (claimed worker (now + lease_seconds (cc_queue cc) * 1000) now j), now.
  unfold after. cbn [spec_call]. unfold Spec.claim. rewrite Hj, decide_True by done.
  cbn [snd w_queue]. simpl jobs. rewrite lookup_insert_eq, Ha, Hs. simpl. repeat split; try done.
  all: destruct Hi1 as [Hi1 _]; destruct (Hi1 (rj_id res)) as [_ Hij]; rewrite Hj in Hij;
    destruct Hij as (_ & Hat & Hso & _); unfold status_ok in Hso; rewrite Hst in Hso; lia.
Qed.

(** C9: The client is legal.  Every method of the queue client, run among any
    other clients and key expiries, makes only calls that meet the obligations of
    the queue's theorems (fresh ids, a job's own shard, shards in range), keeps
    the queue's invariant, and moves the queue by legal steps only.  It raises
    nothing but what [may_raise] allows it: [enqueue] a ValueError for a key of the
    wrong length, BusyError or IdempotencyConflict, and the methods that decode a
    stored request or result what its codec raises on a text the queue holds; no
    method stops on a missing or malformed field. *)
Theorem client_methods_are_legal {QR} `{QueueCodec QR} `{Sha256} cc (m : method QR) w r w' :
  queue_cfg_ok (cc_queue cc) -> method_ok cc m -> world_inv (cc_queue cc) w ->
  exec (cc_queue cc) (others (cc_queue cc)) (method_body cc m) w r w' ->
  world_inv (cc_queue cc) w' /\ rtc (step (cc_queue cc)) (w_queue w) (w_queue w')
  /\ forall e, r = Err e -> may_raise m e (w_queue w').
Proof.
  intros Hc Hok Hi He.
  assert (Hw : client_wp (cc_queue cc) (others (cc_queue cc)) (method_body cc m) w (ends m))
    by (by apply method_legal).
  destruct (wp_exec _ Hc (others (cc_queue cc)) ltac:(done) _ _ _ _ _ _ Hi Hw He) as (Hr & Hi' & Hs).
  split; [done|]. split; [done|]. by intros e ->.
Qed.

Lemma client_methods_are_legal_witness :
  let out := run (@lone string ClientDemo.cfg 2000 1)
    (method_body ClientDemo.client (MReserve "w1" 1)) ClientDemo.queued in
  world_inv (cc_queue ClientDemo.client) out.2
  /\ forall e, out.1 = Err e -> may_raise (QR := string) (MReserve "w1" 1) e (w_queue out.2).
Proof.
  cbv zeta.
  destruct (client_methods_are_legal ClientDemo.client (MReserve "w1" 1) ClientDemo.queued
              (run (@lone string ClientDemo.cfg 2000 1)
                 (method_body ClientDemo.client (MReserve "w1" 1)) ClientDemo.queued).1
              (run (@lone string ClientDemo.cfg 2000 1)
                 (method_body ClientDemo.client (MReserve "w1" 1)) ClientDemo.queued).2
              ClientDemo.demo_cfg_ok I ClientDemo.queued_inv
              (lone_exec _ _ _ _ _ _ (fun _ => rtc_refl _ _) ClientDemo.jitter_one))
    as (Hi & _ & Hr).
  split; [exact Hi|exact Hr].
Defined.

(** C10: What a reservation means.  When [reserve] hands a job to a worker, the
    queue holds that job running, owned by this worker, not flagged for
    cancellation, with a lease of [lease_seconds] from the moment of the claim;
    the worker is told the stored request, the job's shard, and its attempt
    number, which lies between 1 and [max_attempts]. *)
Theorem reserve_hands_out_claimed_jobs {QR} `{QueueCodec QR} `{Sha256} cc worker shard w res w' :
  queue_cfg_ok (cc_queue cc) -> world_inv (cc_queue cc) w ->
  exec (cc_queue cc) (others (cc_queue cc)) (reserve (QR := QR) cc worker shard) w
    (Ok (Some res)) w' ->
  handed_out (cc_queue cc) worker w' res.
Proof.
  intros Hc Hi He.
  exact (exec_wp cc Hc _ _ _ _ _ _ (fun _ _ Ho => Ho) Hi (reserve_wp cc worker shard w Hc) He
           res eq_refl).
Qed.

Lemma reserve_hands_out_claimed_jobs_witness :
  let out := run (@lone string ClientDemo.cfg 2000 1) (reserve ClientDemo.client "w1" 1)
               ClientDemo.queued in
  let res := Reserved "a" (ClientDemo.request "select 1") 1 1 in
  out.1 = Ok (Some res) /\ handed_out ClientDemo.cfg "w1" out.2 res.
Proof.
  cbv zeta. assert (E : (run (@lone string ClientDemo.cfg 2000 1)
    (reserve ClientDemo.client "w1" 1) ClientDemo.queued).1
    = Ok (Some (Reserved "a" (ClientDemo.request "select 1") 1 1))) by (vm_compute; reflexivity).
  split; [exact E|].
  apply (reserve_hands_out_claimed_jobs (QR := string) ClientDemo.client "w1" 1 ClientDemo.queued
           (Reserved "a" (ClientDemo.request "select 1") 1 1) _ ClientDemo.demo_cfg_ok
           ClientDemo.queued_inv).
  rewrite <- E. apply lone_exec; [intros; apply rtc_refl|apply ClientDemo.jitter_one].
Defined.

(** What an enqueue does.  If it returns a record, either the record's id
    is new, the queue holds the request as a queued job at the head of its
    affinity shard, and the idempotency key (if any) is bound to it; or a key was
    given, this client changed nothing, and the record reports the job bound to
    the key.  If it raises, this client changed nothing. *)
Theorem enqueue_creates_or_finds {QR} `{QueueCodec QR} `{Sha256} cc R req key w r w' :
  queue_cfg_ok (cc_queue cc) -> (forall w w1, R w w1 -> others (cc_queue cc) w w1) ->
  world_inv (cc_queue cc) w ->
  exec (cc_queue cc) R (enqueue (QR := QR) cc req key) w r w' ->
  enqueued_or_idle cc R req key w r w'.
Proof.
  intros Hc HR Hi He. eapply (exec_wp cc Hc R _ _ _ _ _ HR Hi); [|exact He].
  by apply enqueue_wp.
Qed.

Lemma enqueue_creates_or_finds_witness :
  let out := run (@lone string ClientDemo.cfg 2000 1)
    (enqueue ClientDemo.client (ClientDemo.request "select 2") (Some "k")) ClientDemo.queued in
  enqueued_or_idle ClientDemo.client eq (ClientDemo.request "select 2") (Some "k")
    ClientDemo.queued out.1 out.2.
Proof.
  apply (enqueue_creates_or_finds ClientDemo.client eq _ _ _ _ _ ClientDemo.demo_cfg_ok
           (alone_others _) ClientDemo.queued_inv).
  apply lone_exec; [done|apply ClientDemo.jitter_one].
Defined.

(** C11: Submission is idempotent.  Let an enqueue with a key be accepted, and
    let no key run out from then on, whatever calls others make.  A second
    enqueue with the same key only reads: whatever relation [R] the others' moves
    stay in while it runs (any reflexive and transitive part of [unexpired]), the
    queue has moved by [R] when it ends, so with the others standing still ([R]
    is [eq]) it has stored nothing, not even an id.  If its request has the
    same fingerprint, it answers with the same job's record as it is then (or
    fails to load that job's result); if not, it raises IdempotencyConflict. *)
Theorem enqueue_is_idempotent {QR} `{QueueCodec QR} `{Sha256} cc req req' k w rec w1 w2 R r w3 :
  queue_cfg_ok (cc_queue cc) -> world_inv (cc_queue cc) w ->
  exec (cc_queue cc) (unexpired (cc_queue cc)) (enqueue (QR := QR) cc req (Some k)) w (Ok rec) w1 ->
  unexpired (cc_queue cc) w1 w2 ->
  PreOrder R -> (forall w w1, R w w1 -> unexpired (cc_queue cc) w w1) ->
  exec (cc_queue cc) R (enqueue (QR := QR) cc req' (Some k)) w2 r w3 ->
  answers_settled R req' (request_payload_fingerprint req) (jr_id rec) w2 r w3.
Proof.
  intros Hc Hi He Hu HP HR He'.
  destruct (wp_exec _ Hc _ (unexpired_others _) _ _ _ _ _ _ Hi (enqueue_settles cc Hc req k w) He)
    as (Hs & Hi1 & _).
  destruct (Hs rec eq_refl) as [Hk Hset].
  eapply (exec_wp cc Hc R); [| | |exact He'].
  - intros. by apply unexpired_others, HR.
  - eapply (others_inv _ Hc); [exact Hi1|by apply unexpired_others].
  - apply enqueue_again; [done..|]. by eapply settled_unexpired.
Qed.

Lemma enqueue_is_idempotent_witness :
  let client := ClientDemo.client in
  let one := run (@lone string ClientDemo.cfg 2000 1)
    (enqueue client (ClientDemo.request "select 2") (Some "k")) ClientDemo.queued in
  let two := run (@lone string ClientDemo.cfg 3000 1)
    (enqueue client (ClientDemo.request "select 3") (Some "k")) one.2 in
  exists rec, one.1 = Ok rec
    /\ answers_settled eq (ClientDemo.request "select 3")
         (request_payload_fingerprint (ClientDemo.request "select 2")) (jr_id rec) one.2 two.1 two.2.
Proof.
  cbv zeta. eexists (MkJobRecord _ QUEUED 0 None None (Some 2000) (Some 2000) None).
  assert (E : (run (@lone string ClientDemo.cfg 2000 1) (enqueue ClientDemo.client
      (ClientDemo.request "select 2") (Some "k")) ClientDemo.queued).1
    = Ok (MkJobRecord (stdpp.base.fresh (w_ids ClientDemo.queued)) QUEUED 0 None None
            (Some 2000) (Some 2000) None)) by (vm_compute; reflexivity).
  split; [exact E|].
  eapply (enqueue_is_idempotent ClientDemo.client (ClientDemo.request "select 2") _ "k"
            ClientDemo.queued _ _ _ eq _ _ ClientDemo.demo_cfg_ok ClientDemo.queued_inv).
  - rewrite <- E. apply lone_exec; [intros; apply rtc_refl|apply ClientDemo.jitter_one].
  - apply rtc_refl.
  - apply _.
  - intros ? ? <-. apply rtc_refl.
  - apply lone_exec; [done|apply ClientDemo.jitter_one].
Defined.

(** C12: How an attempt ends.  When no other client acts meanwhile and the clock
    [C] shows what it may, [fail] returns False, and changes nothing, only if the
    worker does not own the running job with a live lease at a time the clock
    shows.  Otherwise it did own it: the job is taken out of the processing list,
    its error stored, its owner cleared and its attempt count kept, and no other
    job changes; a retryable failure with attempts left puts it in the retry set,
    due the backoff delay of this attempt after a time the clock shows; any other
    failure ends it in the dead-letter list.  (The record is read back after a
    retry; [fail] raises if its result cannot be loaded, having ended the attempt
    all the same.)  With [C] one moment this decides the answer. *)
Theorem fail_ends_the_attempt {QR} `{QueueCodec QR} `{Sha256} cc C id worker error retryable cls
    w r w' :
  queue_cfg_ok (cc_queue cc) -> world_inv (cc_queue cc) w ->
  exec_at (cc_queue cc) eq C (fail (QR := QR) cc id worker error retryable cls) w r w' ->
  attempt_failed (QR := QR) cc C id worker error retryable w r w'.
Proof.
  intros Hc Hi He. exact (exec_wp_at cc Hc _ C _ _ _ _ _ (alone_others _) Hi
    (fail_wp cc C id worker error retryable cls w) He).
Qed.

Lemma fail_ends_the_attempt_witness :
  let out := run (@lone string ClientDemo.cfg 5000 1)
    (fail ClientDemo.client "a" "w1" "boom" true None) ClientDemo.running in
  out.1 = Ok true
  /\ attempt_failed (QR := string) ClientDemo.client (eq 5000) "a" "w1" "boom" true
       ClientDemo.running (Ok true) out.2.
Proof.
  cbv zeta. assert (E : (run (@lone string ClientDemo.cfg 5000 1)
    (fail ClientDemo.client "a" "w1" "boom" true None) ClientDemo.running).1 = Ok true)
    by (vm_compute; reflexivity).
  split; [exact E|].
  apply (fail_ends_the_attempt ClientDemo.client (eq 5000) "a" "w1" "boom" true None
           ClientDemo.running (Ok true) _ ClientDemo.demo_cfg_ok ClientDemo.running_inv).
  rewrite <- E. apply lone_exec_at; [done|done|apply ClientDemo.jitter_one].
Defined.

(** The retry delay.  With a positive base and cap, the delay of attempt
    [n] is at least one millisecond, at most 1.2 times the cap, never below 0.8
    times the (capped) base doubled [n - 1] times, and, for the same jitter, does
    not decrease from one attempt to the next. *)
Theorem retry_delay_bounds base cap n u :
  (0 < base)%Q -> (0 < cap)%Q -> jitter_ok u ->
  1 <= delay_ms (backoff base cap n) u
  /\ delay_ms (backoff base cap n) u <= Z.max 1 (Qfloor (cap * (6 # 5) * 1000))
  /\ Qfloor (backoff base cap n * (4 # 5) * 1000) <= delay_ms (backoff base cap n) u
  /\ forall m, n <= m -> delay_ms (backoff base cap n) u <= delay_ms (backoff base cap m) u.
Proof.
  intros Hb Hcap [Hu1 Hu2].
  assert (H0 : (0 <= backoff base cap n)%Q).
  { unfold backoff. destruct (Qle_bool _ cap); [|by apply Qlt_le_weak].
    apply Qmult_le_0_compat; [by apply Qlt_le_weak|].
    change 0%Q with (inject_Z 0). rewrite <- Zle_Qle. apply Z.pow_nonneg. lia. }
  assert (Hu0 : (0 <= u)%Q) by (eapply Qle_trans; [|exact Hu1]; discriminate).
  split; [unfold delay_ms; lia|]. split; [|split].
  - unfold delay_ms. apply Z.max_le_compat_l, Qfloor_resp_le.
    apply Qmult_le_compat_r; [|discriminate].
    eapply Qle_trans; [apply Qmult_le_compat_r; [apply backoff_cap|done]|].
    rewrite !(Qmult_comm cap). apply Qmult_le_compat_r; [done|by apply Qlt_le_weak].
  - unfold delay_ms. etrans; [|apply Z.le_max_r]. apply Qfloor_resp_le.
    apply Qmult_le_compat_r; [|discriminate].
    rewrite !(Qmult_comm (backoff base cap n)). by apply Qmult_le_compat_r.
  - intros m Hnm. apply delay_mono; [|done]. apply backoff_mono; [by apply Qlt_le_weak|done].
Qed.

Lemma retry_delay_bounds_witness :
  delay_ms (backoff 2 60 3) 1 = 8000 /\ 1 <= delay_ms (backoff 2 60 3) 1
  /\ delay_ms (backoff 2 60 3) 1 <= 72000.
Proof.
  split; [vm_compute; reflexivity|].
  destruct (retry_delay_bounds 2 60 3 1 ltac:(reflexivity) ltac:(reflexivity)
              ClientDemo.jitter_one) as (H1 & H2 & _).
  split; [exact H1|exact H2].
Defined.

(** C13: One pass of the reaper.  When no other client acts meanwhile and the
    clock shows [C], there is a time the clock shows such that [reap_stale] leaves
    no running job whose lease had run out by then; the jobs still running are the
    ones that ran before, unchanged, and every job whose lease was alive then is
    among them. *)
Theorem reap_stale_leaves_only_live_leases {QR} `{QueueCodec QR} `{Sha256} cc (C : Z -> Prop) w n w' :
  queue_cfg_ok (cc_queue cc) -> world_inv (cc_queue cc) w ->
  exec_at (cc_queue cc) eq C (reap_stale (QR := QR) cc) w (Ok n) w' ->
  exists now, C now
    /\ (forall id j, jobs (w_queue w') !! id = Some j -> j_status j = RUNNING ->
         now < j_lease j /\ jobs (w_queue w) !! id = Some j)
    /\ (forall id j, jobs (w_queue w) !! id = Some j -> j_status j = RUNNING -> now < j_lease j ->
          jobs (w_queue w') !! id = Some j).
Proof.
  intros Hc Hi He.
  destruct (exec_wp_at cc Hc _ C _ _ _ _ _ (alone_others _) Hi (reap_stale_wp cc Hc C w Hi) He)
    as (now & Ht & [S1 S2 S3]).
  exists now. split; [exact Ht|]. split; [|exact S3].
  intros id j Hj Hst. pose proof (S2 id j Hj Hst) as Hold.
  split; [|exact Hold]. apply (S1 id j); [|done..].
  destruct Hi as [Hi _]. apply count_elem_of. by apply (held_listed (cc_queue cc) _ id j).
Qed.

Lemma reap_stale_leaves_only_live_leases_witness :
  let out := run (@lone string ClientDemo.cfg 70000 1) (reap_stale ClientDemo.client)
               ClientDemo.running in
  out.1 = Ok 1 /\ exists now, 70000 = now
    /\ (forall id j, jobs (w_queue out.2) !! id = Some j -> j_status j = RUNNING ->
       now < j_lease j /\ jobs (w_queue ClientDemo.running) !! id = Some j)
    /\ (forall id j, jobs (w_queue ClientDemo.running) !! id = Some j -> j_status j = RUNNING ->
          now < j_lease j -> jobs (w_queue out.2) !! id = Some j).
Proof.
  cbv zeta. assert (E : (run (@lone string ClientDemo.cfg 70000 1) (reap_stale ClientDemo.client)
    ClientDemo.running).1 = Ok 1) by (vm_compute; reflexivity).
  split; [exact E|].
  apply (reap_stale_leaves_only_live_leases ClientDemo.client (eq 70000) ClientDemo.running 1 _
           ClientDemo.demo_cfg_ok ClientDemo.running_inv).
  rewrite <- E. apply lone_exec_at; [done|done|apply ClientDemo.jitter_one].
Defined.

(** [get] decodes what the scripts wrote.  Its answer is the record of the
    stored job, field by field, in the state its read saw; it raises nothing but
    what loading the stored result raises. *)
Theorem get_reports_the_job {QR} `{QueueCodec QR} `{Sha256} cc id w r w' :
  queue_cfg_ok (cc_queue cc) -> world_inv (cc_queue cc) w ->
  exec (cc_queue cc) (others (cc_queue cc)) (get (QR := QR) id) w r w' ->
  r = reported id (w_queue w') /\ others (cc_queue cc) w w'.
Proof.
  intros Hc Hi He.
  apply (exec_wp cc Hc _ (get id) w r w' (fun r w' => r = reported id (w_queue w')
           /\ others (cc_queue cc) w w') (fun _ _ Ho => Ho) Hi); [|exact He].
  apply wp_get. auto.
Qed.

Lemma get_reports_the_job_witness :
  (run (@lone string ClientDemo.cfg 2000 1) (get "a") ClientDemo.running).1
  = reported "a" (w_queue ClientDemo.running).
Proof.
  apply (get_reports_the_job ClientDemo.client "a" ClientDemo.running _ ClientDemo.running
           ClientDemo.demo_cfg_ok ClientDemo.running_inv).
  apply (lone_exec ClientDemo.cfg 2000 1 _ (get "a") ClientDemo.running);
    [intros; apply rtc_refl|apply ClientDemo.jitter_one].
Defined.
