(* ===== verification/Worker.v ===== *)
(** * The worker

    src/src/dalmatian/worker.py: one job from reservation to outcome
    ([work_once]), the lease heartbeat that runs beside it, the classification of
    errors ([is_retryable]), the choice of a shard from the host name
    ([_worker_shard]) and the worker process itself ([run_worker]).  [service.execute] is an
    operation: while it runs, anybody may act on the queue, this worker's own
    heartbeat thread and its publication callback included. *)

From Stdlib Require Import QArith Ascii.
From S2P Require Import Prelude Models Fingerprint Prog Observability QueueState JobQueue.

#[local] Open Scope Z_scope.

(** ** Text *)

(** The digits at the end of a text: [re.search(r"(\d+)$", text)]. *)
Fixpoint trailing_digits (s : string) : string :=
  match s with
  | EmptyString => EmptyString
  | String a rest => if string_forall is_digit s then s else trailing_digits rest
  end.

Definition digits_value (s : string) : Z :=
  (fix go (s : string) (acc : Z) : Z :=
     match s with
     | EmptyString => acc
     | String a rest => go rest (acc * 10 + (Z.of_nat (nat_of_ascii a) - 48))
     end) s 0.

(** ** Errors worth another attempt *)

Definition retryable_needles : list string :=
  ["py4jnetworkerror"; "executorlostfailure"; "fetchfailed"; "connection refused";
   "temporarily unavailable"; "connection reset"].

Definition is_retryable (e : exn) : bool :=
  if isinstance_any e [QueryRejected; QueryTimeout; PyValueError; PyFileExistsError] then false
  else if isinstance_any e [RetryableQueryError; PyOSError; PyConnectionError] then true
  else
    let text := lower (class_name (exn_cls e) +:+ ": " +:+ exn_text e) in
    existsb (fun needle => contains needle text) retryable_needles.

(** ** The worker's shard *)

Definition _worker_shard (hostname : string) (configured : option Z) (shards : Z) : Z :=
  match configured with
  | Some n => n mod shards
  | None =>
      match trailing_digits hostname with
      | EmptyString => 0
      | digits =>
          let value := digits_value digits in
          let value := if contains "-worker-" hostname || contains "_worker_" hostname
                       then Z.max 0 (value - 1) else value in
          value mod shards
      end
  end.

(** ** Operations *)

(** What the service is told of the attempt; its callbacks are [can_commit] and
    [publish_callback] below. *)
Record AttemptContext := Attempt {
  ac_query_id : string;
  ac_attempt_id : string;
  ac_attempt_number : Z;
  ac_timeout_seconds : Z;
}.

Inductive wop (QR : Type) : Type -> Type :=
| Queue {X : Type} (o : qop QR X) : wop QR X
| Execute (request : QueryRequest) (context : AttemptContext) : wop QR (result exn QR)
| CancelQuery (query_id : string) : wop QR (result exn unit)
| UuidHex : wop QR string
| StartHeartbeat (job_id : string) : wop QR unit
| StopHeartbeat (job_id : string) : wop QR unit
| JobOutcome (status : string) : wop QR unit.
Arguments Queue {QR X} o.
Arguments Execute {QR} request context.
Arguments CancelQuery {QR} query_id.
Arguments UuidHex {QR}.
Arguments StartHeartbeat {QR} job_id.
Arguments StopHeartbeat {QR} job_id.
Arguments JobOutcome {QR} status.

(** A queue method as part of a worker's program. *)
Fixpoint on_queue {QR A} (p : prog (qop QR) A) : prog (wop QR) A :=
  match p with
  | Ret a => Ret a
  | Raise e => Raise e
  | Do o k => Do (Queue o) (fun x => on_queue (k x))
  end.

Section worker.
Context {QR : Type} `{QueueCodec QR} `{Sha256} (cc : client_cfg).
Local Open Scope prog_scope.

Abbreviation program := (prog (wop QR)).

(** [heartbeat and not cancel_requested]: the second call is made only if the
    first succeeds. *)
Definition can_commit (job_id worker_id : string) : prog (qop QR) bool :=
  alive <- heartbeat cc job_id worker_id;;
  if alive then
    flagged <- cancel_requested job_id worker_id;;
    Ret (negb flagged)
  else Ret false.

Definition publish_callback (job : ReservedJob) (worker_id attempt_id key uri mode : string)
  : prog (qop QR) Z :=
  publish_output (rj_id job) worker_id (rj_attempts job) key attempt_id uri mode.

(** One turn of [LeaseHeartbeat._run]: whether it goes on. *)
Definition heartbeat_tick (job_id worker_id : string) : program bool :=
  alive <- on_queue (heartbeat cc job_id worker_id);;
  if alive then
    flagged <- on_queue (cancel_requested job_id worker_id);;
    if flagged then invoke (CancelQuery job_id);; Ret false else Ret true
  else invoke (CancelQuery job_id);; Ret false.

(** [_run], for the given answers of [self._stop.wait]. *)
Fixpoint lease_heartbeat (waits : list bool) (job_id worker_id : string) : program unit :=
  match waits with
  | [] => Ret tt
  | true :: _ => Ret tt
  | false :: waits =>
      go_on <- try_except (heartbeat_tick job_id worker_id) (fun _ => Ret true);;
      if go_on then lease_heartbeat waits job_id worker_id else Ret tt
  end.

(** The three ways an attempt can end in an exception. *)
Definition on_cancelled (job : ReservedJob) (worker_id : string) : program unit :=
  flagged <- on_queue (cancel_requested (rj_id job) worker_id);;
  if flagged then
    _ <- on_queue (cancel_complete (rj_id job) worker_id);;
    perform (JobOutcome "cancelled")
  else
    mine <- on_queue (owns (rj_id job) worker_id);;
    if mine then
      _ <- on_queue (fail cc (rj_id job) worker_id "query was cancelled" false
                       (Some "QueryCancelled"));;
      perform (JobOutcome "failed")
    else Ret tt.

Definition on_fenced (job : ReservedJob) (worker_id : string) : program unit :=
  flagged <- on_queue (cancel_requested (rj_id job) worker_id);;
  if flagged then
    done <- on_queue (cancel_complete (rj_id job) worker_id);;
    if done then perform (JobOutcome "cancelled") else Ret tt
  else Ret tt.

Definition on_error (job : ReservedJob) (worker_id : string) (e : exn) : program unit :=
  mine <- on_queue (owns (rj_id job) worker_id);;
  if mine then
    _ <- on_queue (fail cc (rj_id job) worker_id (exn_text e) (is_retryable e)
                     (Some (class_name (exn_cls e))));;
    Ret tt
  else Ret tt.

Definition on_result (job : ReservedJob) (worker_id : string) (res : QR) : program unit :=
  flagged <- on_queue (cancel_requested (rj_id job) worker_id);;
  if flagged then
    done <- on_queue (cancel_complete (rj_id job) worker_id);;
    if done then perform (JobOutcome "cancelled") else Ret tt
  else
    done <- on_queue (complete (rj_id job) worker_id res);;
    if done then perform (JobOutcome "succeeded")
    else
      flagged <- on_queue (cancel_requested (rj_id job) worker_id);;
      if flagged then
        done <- on_queue (cancel_complete (rj_id job) worker_id);;
        if done then perform (JobOutcome "cancelled") else Ret tt
      else Ret tt.

(** What follows the execution. *)
Definition settle (job : ReservedJob) (worker_id : string) (outcome : result exn QR)
  : program unit :=
  perform (StopHeartbeat (rj_id job));;
  match outcome with
  | Ok res => on_result job worker_id res
  | Err e =>
      if isinstance e QueryCancelled then on_cancelled job worker_id
      else if isinstance e CommitFenced then on_fenced job worker_id
      else on_error job worker_id e
  end.

Definition timeout_or (o : option Z) (d : Z) : Z :=
  match o with Some 0 | None => d | Some t => t end.

Definition work_once (worker_id : string) (shard : nat) : program bool :=
  job <- on_queue (reserve cc worker_id shard);;
  match job with
  | None => Ret false
  | Some job =>
      perform (StartHeartbeat (rj_id job));;
      hex <- perform UuidHex;;
      let context := Attempt (rj_id job) (str_of_Z (rj_attempts job) +:+ "-" +:+ hex)
                       (rj_attempts job) (timeout_or (q_timeout_seconds (rj_request job)) 300) in
      outcome <- perform (Execute (rj_request job) context);;
      settle job worker_id outcome;;
      Ret true
  end.

End worker.

(** ** The worker process *)

Inductive rop (QR : Type) : Type -> Type :=
| Work {X : Type} (o : wop QR X) : rop QR X
(* [configure_logging], [get_job_queue] and [get_query_service], [gethostname] *)
| ConfigureLogging : rop QR (result exn unit)
| GetQueue : rop QR (result exn unit)
| GetService : rop QR (result exn unit)
| Hostname : rop QR string
(* the handlers of SIGTERM and SIGINT, which set the stop event; [stop.is_set()] *)
| OnSignals : rop QR unit
| ServeMetrics : rop QR (result exn unit)
| StopIsSet : rop QR bool
| Monotonic : rop QR Q
| MeasureWorker (m : metric) : rop QR unit
| CloseService : rop QR (result exn unit)
| CloseQueue : rop QR (result exn unit).
Arguments Work {QR X} o.
Arguments ConfigureLogging {QR}.
Arguments GetQueue {QR}.
Arguments GetService {QR}.
Arguments Hostname {QR}.
Arguments OnSignals {QR}.
Arguments ServeMetrics {QR}.
Arguments StopIsSet {QR}.
Arguments Monotonic {QR}.
Arguments MeasureWorker {QR} m.
Arguments CloseService {QR}.
Arguments CloseQueue {QR}.

(** How the loop of a process was left; [Unfinished] when it has only been watched
    for a number of turns and is still running. *)
Inductive run_end :=
| Stopped
| Crashed (e : exn)
| Unfinished.

(** The settings [run] reads. *)
Record run_cfg := RunCfg {
  rc_affinity_shard : option Z;
  rc_affinity_shards : Z;
  rc_reap_interval_seconds : Z;
}.

Section process.
Context {QR : Type} `{QueueCodec QR} `{Sha256} (cc : client_cfg).
Local Open Scope prog_scope.

Abbreviation program := (prog (rop QR)).

Definition on_work {A} (p : prog (wop QR) A) : program A := interp (fun X o => perform (Work o)) p.

(** What is due when the reap interval is over; its errors are logged. *)
Definition reap_pass : program unit :=
  try_except
    (reaped <- on_work (on_queue (reap_stale cc));;
     waiting <- on_work (on_queue (depth cc));;
     perform (MeasureWorker (JobQueueDepth waiting));;
     if reaped =? 0 then Ret tt else perform (MeasureWorker (StaleRecoveries reaped)))
    (fun _ => Ret tt).

(** One turn of the loop; the answer is the next time to reap. *)
Definition loop_turn (worker_id : string) (shard : nat) (next_reap interval : Q) : program Q :=
  now <- perform Monotonic;;
  next_reap <- (if Qle_bool next_reap now then reap_pass;; Ret (now + interval)%Q
                else Ret next_reap);;
  _ <- on_work (work_once cc worker_id shard);;
  Ret next_reap.

Fixpoint run_loop (turns : nat) (worker_id : string) (shard : nat) (next_reap interval : Q)
  : program run_end :=
  match turns with
  | O => Ret Unfinished
  | S turns =>
      stop <- perform StopIsSet;;
      if (stop : bool) then Ret Stopped
      else
        next_reap <- loop_turn worker_id shard next_reap interval;;
        run_loop turns worker_id shard next_reap interval
  end.

(** The [try ... finally] around the loop: a close that raises keeps the next one
    from being made. *)
Definition run_guarded (turns : nat) (worker_id : string) (shard : nat) (interval : Q)
  : program run_end :=
  how <- try_except (run_loop turns worker_id shard 0 interval) (fun e => Ret (Crashed e));;
  match how with
  | Unfinished => Ret Unfinished
  | _ =>
      invoke CloseService;;
      invoke CloseQueue;;
      match how with Crashed e => Raise e | _ => Ret how end
  end.

Definition run_worker (c : run_cfg) (turns : nat) : program run_end :=
  invoke ConfigureLogging;;
  invoke GetQueue;;
  invoke GetService;;
  hostname <- perform Hostname;;
  hex <- perform (Work UuidHex);;
  let worker_id := hostname +:+ ":" +:+ String.substring 0 8 hex in
  let shard := _worker_shard hostname (rc_affinity_shard c) (rc_affinity_shards c) in
  perform OnSignals;;
  invoke ServeMetrics;;
  run_guarded turns worker_id (Z.to_nat shard) (inject_Z (rc_reap_interval_seconds c)).
End process.
