(* ===== verification/WorkerTheorems.v ===== *)
(** * What a worker guarantees

    [work_once] among other clients: its calls are legal; a worker that lost its
    job settles it without touching the queue; and, alone with a live lease, it
    leaves the job in the state its outcome asks for ([settled_job]).  Also the
    bounds of [_worker_shard], and the two pods that share a shard. *)

From Stdlib Require Import QArith Ascii.
From S2P Require Import Prelude Valkey Models Fingerprint Prog Observability.
From S2P Require Import QueueState QueueScripts QueueRefine QueueInv QueueTrace QueueLife.
From S2P Require Import JobQueue ClientWorld QueueClient ClientDemo Worker.

#[local] Open Scope Z_scope.

(** ** A worker among other clients *)

Section worker_world.
Context {QR : Type} (c : queue_cfg) (Hc : queue_cfg_ok c).
Context (R : world -> world -> Prop) (HR : forall w w1, R w w1 -> others c w w1).

(** While the query runs, others act, and it can end in any way. *)
Definition worker_effect {X} (o : wop QR X) (w : world) : (X -> world -> Prop) -> Prop :=
  match o in wop _ Y return (Y -> world -> Prop) -> Prop with
  | Queue o => client_effect c R any_time o w
  | Execute _ _ => fun Q => forall r w1, R w w1 -> world_inv c w1 -> Q r w1
  | CancelQuery _ => fun Q => forall r, Q r w
  | UuidHex => fun Q => forall s, Q s w
  | StartHeartbeat _ | StopHeartbeat _ | JobOutcome _ => fun Q => Q tt w
  end.

Definition worker_step X (o : wop QR X) (w : world) (x : X) (w' : world) : Prop :=
  match o in wop _ Y return Y -> Prop with
  | Queue o => fun y => client_step c R any_time o w y w'
  | Execute _ _ => fun _ => R w w'
  | CancelQuery _ => fun _ => w' = w
  | UuidHex => fun _ => w' = w
  | StartHeartbeat _ | StopHeartbeat _ | JobOutcome _ => fun _ => w' = w
  end x.

Definition worker_exec {A} : prog (wop QR) A -> world -> result exn A -> world -> Prop :=
  execution worker_step.

Lemma worker_effect_mono X (o : wop QR X) w (Q1 Q2 : X -> world -> Prop) :
  (forall x w', Q1 x w' -> Q2 x w') -> worker_effect o w Q1 -> worker_effect o w Q2.
Proof.
  intros Hq. destruct o; simpl; try (intros Hw; intros; by apply Hq, Hw); try apply Hq.
  apply client_effect_mono. exact Hq.
Qed.

#[local] Instance worker_effects : Effects (wop QR) world :=
  {| effect := @worker_effect; effect_mono := worker_effect_mono |}.
#[local] Instance queue_effects : Effects (qop QR) world := client_effects c R any_time.

Lemma wp_on_queue {A} (p : prog (qop QR) A) w (Q : result exn A -> world -> Prop) :
  wp p w Q -> wp (on_queue p) w Q.
Proof.
  revert w. induction p as [a|e|X o k IH]; simpl; intros w; [done..|].
  apply client_effect_mono. auto.
Qed.

Lemma worker_effect_step X (o : wop QR X) w (Q : X -> world -> Prop) x w1 :
  world_inv c w -> worker_effect o w Q -> worker_step X o w x w1 ->
  Q x w1 /\ world_inv c w1 /\ legal_move c w w1.
Proof.
  intros Hi. assert (Hrefl : legal_move c w w) by apply rtc_refl.
  destruct o; simpl; try (intros HQ ->; split; [first [apply HQ|by destruct x]|by split]).
  - by apply client_effect_step.
  - intros HQ HRw. pose proof (others_inv c Hc _ _ Hi (HR _ _ HRw)) as Hi1.
    split; [by apply HQ|]. split; [done|]. by apply (others_rtc_step c), HR.
Qed.

Lemma wp_worker {A} (p : prog (wop QR) A) w r w' (Q : result exn A -> world -> Prop) :
  world_inv c w -> wp p w Q -> worker_exec p w r w' ->
  Q r w' /\ world_inv c w' /\ legal_move c w w'.
Proof. apply (wp_execution worker_step (world_inv c) (legal_move c)), worker_effect_step. Qed.
End worker_world.

(** ** Legality *)

Section legality.
Context {QR : Type} `{QueueCodec QR} `{Sha256} (cc : client_cfg).
Context (c : queue_cfg) (Hcc : cc_queue cc = c) (Hc : queue_cfg_ok c).
#[local] Instance worker_effects' : Effects (wop QR) world := worker_effects c (others c).
#[local] Instance queue_effects' : Effects (qop QR) world := client_effects c (others c) any_time.

Local Abbreviation safe p w := (wp p w (fun _ _ => True)).

Lemma safe_bind {A B} (p : prog (wop QR) A) (f : A -> prog (wop QR) B) w :
  safe p w -> (forall a w1, safe (f a) w1) -> safe (bind p f) w.
Proof. intros Hp Hf. apply wp_bind. eapply wp_mono; [|exact Hp]. by intros [a|e] w1 _. Qed.

Lemma safe_queue {A} (p : prog (qop QR) A) w : safe p w -> safe (on_queue p) w.
Proof. apply wp_on_queue. Qed.

Lemma safe_try {A} (p : prog (wop QR) A) g w :
  safe p w -> (forall e w1, safe (g e) w1) -> safe (try_except p g) w.
Proof.
  intros Hp Hg. revert w Hp. induction p as [a|e|X o k IH]; intros w Hp; [done|apply Hg|].
  simpl in *. eapply worker_effect_mono; [|exact Hp]. auto.
Qed.

Lemma safe_cancel_requested id worker w : safe (on_queue (cancel_requested id worker)) w.
Proof. by apply safe_queue, wp_cancel_requested. Qed.
Lemma safe_owns id worker w : safe (on_queue (owns id worker)) w.
Proof. by apply safe_queue, wp_owns. Qed.
Lemma safe_cancel_complete id worker w : safe (on_queue (cancel_complete id worker)) w.
Proof. by apply safe_queue, wp_cancel_complete. Qed.
Lemma safe_complete id worker res w : safe (on_queue (complete id worker res)) w.
Proof. by apply safe_queue, wp_complete. Qed.
Lemma safe_fail id worker e b cls w : safe (on_queue (fail cc id worker e b cls)) w.
Proof. by apply safe_queue, wp_fail. Qed.
Lemma safe_heartbeat id worker w : safe (on_queue (heartbeat cc id worker)) w.
Proof. apply safe_queue. by eapply wp_heartbeat. Qed.
Lemma safe_reserve worker shard w : safe (on_queue (reserve cc worker shard)) w.
Proof. apply safe_queue. by eapply wp_reserve. Qed.
Lemma safe_reap_stale w : safe (on_queue (reap_stale cc)) w.
Proof. apply safe_queue. by eapply wp_reap_stale. Qed.
Lemma safe_depth w : safe (on_queue (depth cc)) w.
Proof. apply safe_queue. by eapply wp_depth_any. Qed.

Create HintDb safe discriminated.
#[local] Hint Resolve safe_cancel_requested safe_owns safe_cancel_complete safe_complete safe_fail
  safe_heartbeat safe_reserve safe_reap_stale safe_depth : safe.

(** Step through a program whose parts are all safe. *)
Ltac walk :=
  repeat first
    [ progress auto with safe
    | apply safe_bind; [|intros]
    | match goal with |- safe (if ?b then _ else _) _ => destruct b end
    | match goal with |- safe (Ret _) _ => exact I end
    | match goal with |- safe (perform _) _ => simpl; try exact I; by intros end
    | match goal with |- safe (invoke _) _ => intros []; exact I end ].

Lemma settle_safe job worker outcome w : safe (settle cc job worker outcome) w.
Proof.
  unfold settle. apply safe_bind; [done|]. intros _ w1. destruct outcome as [res|e].
  - unfold on_result. walk.
  - destruct (isinstance e QueryCancelled); [unfold on_cancelled; walk|].
    destruct (isinstance e CommitFenced); [unfold on_fenced; walk|]. unfold on_error. walk.
Qed.

Lemma work_once_safe worker shard w : safe (work_once cc worker shard) w.
Proof.
  unfold work_once. apply safe_bind; [auto with safe|]. intros [job|] w1; [|done].
  walk. apply settle_safe.
Qed.

Lemma tick_safe id worker w : safe (heartbeat_tick cc id worker) w.
Proof. unfold heartbeat_tick. walk. Qed.

Lemma lease_heartbeat_safe waits id worker w : safe (lease_heartbeat cc waits id worker) w.
Proof.
  revert w. induction waits as [|[] waits IH]; intros w; [done..|].
  cbn [lease_heartbeat]. apply safe_bind; [apply safe_try; [apply tick_safe|done]|].
  intros [] w1; [apply IH|done].
Qed.

Lemma can_commit_safe id worker w : safe (on_queue (can_commit cc id worker)) w.
Proof.
  apply safe_queue, wp_bind. eapply wp_heartbeat; try done. intros t w1 _ _ call.
  destruct (bool_decide _); [|exact I]. by apply wp_bind, wp_cancel_requested.
Qed.

Lemma publish_safe job worker aid key uri mode w :
  outside_key c key -> safe (on_queue (publish_callback job worker aid key uri mode)) w.
Proof. intros Hk. by apply safe_queue, wp_publish_output. Qed.

End legality.

(** ** The worker process *)

Section process_world.
Context {QR : Type} (c : queue_cfg) (R : world -> world -> Prop).

(** Its queue operations are the worker's; everything else can answer anything. *)
Definition process_effect {X} (o : rop QR X) (w : world) : (X -> world -> Prop) -> Prop :=
  match o in rop _ Y return (Y -> world -> Prop) -> Prop with
  | Work o => worker_effect c R o w
  | ConfigureLogging | GetQueue | GetService | ServeMetrics | CloseService | CloseQueue =>
      fun Q => forall r, Q r w
  | Hostname => fun Q => forall name, Q name w
  | StopIsSet => fun Q => forall b, Q b w
  | Monotonic => fun Q => forall now, Q now w
  | OnSignals | MeasureWorker _ => fun Q => Q tt w
  end.

Definition process_step X (o : rop QR X) (w : world) (x : X) (w' : world) : Prop :=
  match o in rop _ Y return Y -> Prop with
  | Work o => fun y => worker_step c R _ o w y w'
  | _ => fun _ => w' = w
  end x.

Lemma process_effect_mono X (o : rop QR X) w (Q1 Q2 : X -> world -> Prop) :
  (forall x w', Q1 x w' -> Q2 x w') -> process_effect o w Q1 -> process_effect o w Q2.
Proof. intros Hq. destruct o; cbn; auto. by apply worker_effect_mono. Qed.

Definition process_effects : Effects (rop QR) world :=
  {| effect := @process_effect; effect_mono := process_effect_mono |}.

Definition process_exec {A} : prog (rop QR) A -> world -> result exn A -> world -> Prop :=
  execution process_step.
End process_world.

Section process_legality.
Context {QR : Type} `{QueueCodec QR} `{Sha256} (cc : client_cfg).
Context (c : queue_cfg) (Hcc : cc_queue cc = c) (Hc : queue_cfg_ok c).
#[local] Instance process_effects' : Effects (rop QR) world := process_effects c (others c).
#[local] Instance worker_effects'' : Effects (wop QR) world := worker_effects c (others c).

Local Abbreviation safe p w := (wp (E := rop QR) p w (fun _ _ => True)).

Lemma run_bind_safe {A B} (p : prog (rop QR) A) (f : A -> prog (rop QR) B) w :
  safe p w -> (forall a w1, safe (f a) w1) -> safe (bind p f) w.
Proof. intros Hp Hf. apply wp_bind. eapply wp_mono; [|exact Hp]. by intros [a|e] w1 _. Qed.

Lemma run_try_safe {A} (p : prog (rop QR) A) g w :
  safe p w -> (forall e w1, safe (g e) w1) -> safe (try_except p g) w.
Proof. intros Hp Hg. apply wp_try_except. eapply wp_mono; [|exact Hp]. by intros [a|e] w1 _. Qed.

Lemma on_work_safe {A} (p : prog (wop QR) A) w : wp p w (fun _ _ => True) -> safe (on_work p) w.
Proof.
  intros Hp. eapply wp_mono; [|eapply (wp_interp _ eq p w w); [|reflexivity|exact Hp]]; [done|].
  intros X o s t Q -> Ho. cbn. eapply worker_effect_mono; [|exact Ho]. intros x s' HQ.
  by exists x, s'.
Qed.

Lemma invoke_safe {X} (o : rop QR (result exn X)) w :
  (forall K : result exn X -> world -> Prop, (forall r, K r w) -> effect o w K) -> safe (invoke o) w.
Proof. intros Ho. apply Ho. intros r. by apply wp_lift. Qed.

Lemma reap_pass_safe w : safe (reap_pass cc) w.
Proof.
  apply run_try_safe; [|done].
  apply run_bind_safe; [by eapply on_work_safe, safe_reap_stale|]. intros reaped w1.
  apply run_bind_safe; [by eapply on_work_safe, safe_depth|]. intros waiting w2.
  apply run_bind_safe; [done|]. intros _ w3. by destruct (reaped =? 0).
Qed.

Lemma run_loop_safe turns worker shard next interval w :
  safe (run_loop cc turns worker shard next interval) w.
Proof.
  revert next w. induction turns as [|turns IH]; intros next w; [done|]. cbn [run_loop].
  apply run_bind_safe; [done|]. intros [] w1; [done|]. apply run_bind_safe; [|by intros; apply IH].
  apply run_bind_safe; [done|]. intros now w2. apply run_bind_safe.
  - destruct (Qle_bool next now); [|done]. apply run_bind_safe; [apply reap_pass_safe|done].
  - intros next' w3. apply run_bind_safe; [|done]. by eapply on_work_safe, work_once_safe.
Qed.

Lemma run_worker_safe settings turns w : safe (run_worker cc settings turns) w.
Proof.
  unfold run_worker, run_guarded.
  repeat (apply run_bind_safe; [first [by apply invoke_safe|done|by intros ?]|intros]).
  apply run_bind_safe; [apply run_try_safe; [apply run_loop_safe|done]|].
  intros how w7. assert (Hend : forall q : prog (rop QR) run_end, (forall w, safe q w) ->
    safe (invoke CloseService;; invoke CloseQueue;; q)%prog w7).
  { intros q Hq. do 2 (apply run_bind_safe; [by apply invoke_safe|intros]). apply Hq. }
  destruct how; [by apply Hend..|done].
Qed.
End process_legality.

(** ** A worker that lost its job *)

(** Others act, but nobody claims [id] for [worker]. *)
Inductive foreign_step (c : queue_cfg) (id worker : string) (w : world) : world -> Prop :=
| foreign_call X (call : qcall X) :
    event_ok c (w_queue w) (Called call) ->
    (forall x, is_enqueue call x = true -> x ∉ w_ids w) ->
    is_claim call id worker = false ->
    foreign_step c id worker w (World (spec_call c call (w_queue w)).2 (minted call (w_ids w)))
| foreign_expire_job x : foreign_step c id worker w (World (expire_job x (w_queue w)) (w_ids w))
| foreign_expire_idem d : foreign_step c id worker w (World (expire_idem d (w_queue w)) (w_ids w)).

Definition foreign (c : queue_cfg) (id worker : string) : world -> world -> Prop :=
  rtc (foreign_step c id worker).

Lemma foreign_others c id worker w w1 : foreign c id worker w w1 -> others c w w1.
Proof.
  induction 1 as [|w w1 w2 [X call Hok Hn _|x|d] _ IH]; [apply rtc_refl|..];
    (eapply rtc_l; [|exact IH]); [by apply env_call|apply env_expire_job|apply env_expire_idem].
Qed.

Lemma foreign_lost c id worker w w1 :
  foreign c id worker w w1 -> ~ holds (w_queue w) id worker -> ~ holds (w_queue w1) id worker.
Proof.
  induction 1 as [|w w1 w2 Hs _ IH]; [done|]. intros Hn. apply IH.
  destruct Hs as [X call Hok _ Hcl|x|d]; simpl.
  - eapply (lost_step c (w_queue w)); [|done]. apply step_call; [apply Hok|exact Hcl].
  - eapply (lost_step c (w_queue w)); [apply step_expire_job|done].
  - eapply (lost_step c (w_queue w)); [apply step_expire_idem|done].
Qed.

Section stale.
Context {QR : Type} `{QueueCodec QR} `{Sha256} (cc : client_cfg).
Context (c : queue_cfg) (Hcc : cc_queue cc = c) (Hc : queue_cfg_ok c).
Context (job : ReservedJob) (worker : string).
Let id := rj_id job.
Context (R : world -> world -> Prop) (HP : PreOrder R).
Context (HR : forall w w1, R w w1 -> foreign c id worker w w1).
#[local] Instance stale_effects : Effects (wop QR) world := worker_effects c R.
#[local] Instance stale_queue : Effects (qop QR) world := client_effects c R any_time.

Lemma flagged_holds q : flagged q id worker -> holds q id worker.
Proof. intros (j & Hj & Hst & Hw & _). by exists j. Qed.

(** The part of the worker's state that matters: nothing done, nothing held. *)
Definition quiet (w w1 : world) : Prop := R w w1 /\ ~ holds (w_queue w1) id worker.

Lemma quiet_foreign w w1 w2 : quiet w w1 -> R w1 w2 -> quiet w w2.
Proof. intros [H1 Hn] H2. split; [by etrans|]. eapply foreign_lost; [by apply HR|done]. Qed.

Lemma stale_cancel_requested w w1 (Q : result exn bool -> world -> Prop) :
  quiet w w1 -> (forall w2, quiet w w2 -> Q (Ok false) w2) ->
  wp (on_queue (cancel_requested id worker)) w1 Q.
Proof.
  intros Hq HQ. apply wp_on_queue, wp_cancel_requested. intros b w2 Ho _ Hb.
  pose proof (quiet_foreign _ _ _ Hq Ho) as Hq2. destruct b; [|by apply HQ].
  exfalso. apply Hq2, flagged_holds, Hb. done.
Qed.

Lemma stale_owns w w1 (Q : result exn bool -> world -> Prop) :
  quiet w w1 -> (forall w2, quiet w w2 -> Q (Ok false) w2) ->
  wp (on_queue (owns id worker)) w1 Q.
Proof.
  intros Hq HQ. apply wp_on_queue, wp_owns. intros b w2 Ho _ Hb.
  pose proof (quiet_foreign _ _ _ Hq Ho) as Hq2. destruct b; [|by apply HQ].
  exfalso. by apply Hq2, Hb.
Qed.

Lemma stale_complete res w w1 (Q : result exn bool -> world -> Prop) :
  quiet w w1 -> (forall w2, quiet w w2 -> Q (Ok false) w2) ->
  wp (on_queue (complete id worker res)) w1 Q.
Proof.
  intros Hq HQ. apply wp_on_queue, (wp_complete c). intros t w2 Ho _ call.
  pose proof (quiet_foreign _ _ _ Hq Ho) as Hq2.
  assert (E : spec_call c call (w_queue w2) = (0, w_queue w2))
    by apply (rf_complete _ _ _ (not_held_refused _ _ _ (proj2 Hq2))).
  unfold after. rewrite E. simpl. destruct w2. by apply HQ.
Qed.

Lemma settle_stale outcome w :
  ~ holds (w_queue w) id worker ->
  wp (settle cc job worker outcome) w (fun r w' => r = Ok tt /\ R w w').
Proof.
  intros Hn. assert (Hq : quiet w w) by (by split).
  assert (Hend : forall w2, quiet w w2 -> wp (E := wop QR) (Ret tt) w2 (fun r w' => r = Ok tt /\ R w w'))
    by (intros w2 [? _]; done).
  unfold settle. apply wp_bind. change (rj_id job) with id. simpl.
  destruct outcome as [res|e].
  - unfold on_result. change (rj_id job) with id.
    apply wp_bind, (stale_cancel_requested w); [done|]. intros w2 Hq2.
    apply wp_bind, (stale_complete _ w); [done|]. intros w3 Hq3.
    apply wp_bind, (stale_cancel_requested w); [done|]. apply Hend.
  - destruct (isinstance e QueryCancelled); [|destruct (isinstance e CommitFenced)].
    + unfold on_cancelled. change (rj_id job) with id.
      apply wp_bind, (stale_cancel_requested w); [done|]. intros w2 Hq2.
      apply wp_bind, (stale_owns w); [done|]. apply Hend.
    + unfold on_fenced. change (rj_id job) with id.
      apply wp_bind, (stale_cancel_requested w); [done|]. apply Hend.
    + unfold on_error. change (rj_id job) with id.
      apply wp_bind, (stale_owns w); [done|]. apply Hend.
Qed.
End stale.

(** ** A lone worker *)

Section lone_worker.
Context {QR : Type} `{QueueCodec QR} `{Sha256} (cc : client_cfg) (t : Z) (u : Q).
Let c := cc_queue cc.

(** Nobody else acts, and the clock stands at [t]. *)
Definition lone_worker {X} (o : wop QR X) (w : world) : X * world :=
  match o in wop _ Y return Y * world with
  | Queue o => lone c t u o w
  | Execute _ _ => (Err (Exn QueryCancelled ""), w)
  | CancelQuery _ => (Ok tt, w)
  | UuidHex => ("0", w)
  | StartHeartbeat _ | StopHeartbeat _ | JobOutcome _ => (tt, w)
  end.

Abbreviation go := (run (@lone_worker)).
Abbreviation alone := (run (@lone QR c t u)).

Lemma run_on_queue {A} (p : prog (qop QR) A) w : go (on_queue p) w = alone p w.
Proof.
  revert w. induction p as [a|e|X o k IH]; intros w; [done..|]. simpl.
  destruct (lone c t u o w). apply IH.
Qed.

Lemma after_read {X} (call : qcall X) w : read_call call -> after c call w = w.
Proof. intros Hr. destruct w. by destruct call. Qed.

Section held.
Context (id worker : string) (j : job) (w : world).
Hypothesis (Hj : jobs (w_queue w) !! id = Some j) (Hst : j_status j = RUNNING).
Hypothesis (Hw : j_worker j = worker) (Hl : t < j_lease j).

Lemma held_owned : owned j worker t = true.
Proof. by apply owned_spec. Qed.

Lemma run_cancel_requested : alone (cancel_requested id worker) w = (Ok (j_cancel j), w).
Proof.
  unfold cancel_requested. rewrite run_bind. cbn [run qcalls perform lone].
  rewrite after_read by done. cbn [spec_call fst]. f_equal. f_equal.
  unfold Spec.job_hash. rewrite Hj, enc_status, enc_worker, enc_cancel, Hst, Hw.
  destruct (j_cancel j); [by rewrite bool_decide_true|].
  rewrite bool_decide_false; [done|]. by intros (_ & _ & [=]).
Qed.

Lemma run_owns : alone (owns id worker) w = (Ok true, w).
Proof.
  unfold owns. rewrite run_bind. cbn [run qcalls perform lone]. rewrite after_read by done.
  cbn [spec_call fst]. unfold Spec.job_hash.
  rewrite Hj, enc_status, enc_worker, enc_lease, Hst, Hw, decide_True, int_or_str by done.
  cbn. by apply Z.ltb_lt in Hl as ->.
Qed.

Lemma run_cancel_complete :
  exists w', alone (cancel_complete id worker) w = (Ok true, w')
    /\ jobs (w_queue w') !! id = Some (with_status CANCELLED "" t j).
Proof.
  assert (E : Spec.finish id worker CANCELLED "" t (w_queue w)
    = (1, rem_processing id (set_job id (with_status CANCELLED "" t j) (w_queue w)))).
  { unfold Spec.finish. by rewrite Hj, held_owned. }
  eexists. split.
  - unfold cancel_complete. rewrite run_bind. cbn [run _now_ms perform lone].
    rewrite run_bind. cbn [run qcalls perform lone]. cbn [spec_call]. rewrite E. reflexivity.
  - unfold after. cbn [spec_call]. rewrite E. cbn. by rewrite lookup_insert_eq.
Qed.

Lemma run_complete res :
  j_cancel j = false ->
  exists w', alone (complete id worker res) w = (Ok true, w')
    /\ jobs (w_queue w') !! id = Some (succeeded (dump_result res) t j).
Proof.
  intros Hcan. assert (E : Spec.complete id worker (dump_result res) t (w_queue w)
    = (1, rem_processing id (set_job id (succeeded (dump_result res) t j) (w_queue w)))).
  { unfold Spec.complete. by rewrite Hj, held_owned, Hcan. }
  eexists. split.
  - unfold complete. rewrite run_bind. cbn [run _now_ms perform lone].
    rewrite run_bind. cbn [run qcalls perform lone]. cbn [spec_call]. rewrite E. reflexivity.
  - unfold after. cbn [spec_call]. rewrite E. cbn. by rewrite lookup_insert_eq.
Qed.

Lemma run_fail_final error cls :
  exists w', alone (fail cc id worker error false cls) w = (Ok true, w')
    /\ jobs (w_queue w') !! id = Some (with_status FAILED error t j).
Proof.
  assert (E : Spec.finish id worker FAILED error t (w_queue w)
    = (1, push_dead id (rem_processing id
            (set_job id (with_status FAILED error t j) (w_queue w))))).
  { unfold Spec.finish. by rewrite Hj, held_owned. }
  eexists. split.
  - unfold fail. rewrite run_bind. cbn [run _now_ms perform lone].
    rewrite run_bind. cbn [run qcalls perform lone]. cbn [spec_call]. rewrite E. reflexivity.
  - unfold after. cbn [spec_call]. rewrite E. cbn. by rewrite lookup_insert_eq.
Qed.

(** The delay before the next attempt. *)
Definition next_ms : Z :=
  t + delay_ms (backoff (retry_base_seconds cc) (retry_max_seconds cc) (j_attempts j)) u.

Definition retried (error : string) : job :=
  if max_attempts c <=? j_attempts j then with_status FAILED error t j
  else with_next next_ms (with_status RETRYING error t j).

Lemma run_get w' : exists r, alone (get id) w' = (r, w').
Proof.
  unfold get. rewrite run_bind. cbn [run qcalls perform lone]. rewrite after_read by done.
  cbn [spec_call fst]. case_decide; [by eexists|]. rewrite run_bind.
  destruct (record_of id _); by eexists.
Qed.

Lemma run_fail_retryable error cls :
  exists r w', alone (fail cc id worker error true cls) w = (r, w')
    /\ jobs (w_queue w') !! id = Some (retried error).
Proof.
  assert (E : exists q', Spec.retry_later (max_attempts c) id worker error t next_ms (w_queue w)
                         = (1, q') /\ jobs q' !! id = Some (retried error)).
  { unfold Spec.retry_later, retried. rewrite Hj, held_owned.
    destruct (_ <=? _); eexists; (split; [reflexivity|]); cbn; by rewrite lookup_insert_eq. }
  destruct E as (q' & E & Hq).
  unfold fail. rewrite run_bind. cbn [run qcalls perform lone]. rewrite after_read by done.
  cbn [spec_call fst]. unfold Spec.job_hash. rewrite Hj, enc_attempts, int_or_str.
  rewrite run_bind. cbn [run lift]. rewrite run_bind. cbn [run _now_ms perform lone].
  rewrite run_bind. unfold _retry_delay_ms. rewrite run_bind. cbn [run perform lone].
  rewrite run_bind. cbn [run _now_ms perform lone].
  rewrite run_bind. cbn [run qcalls perform lone]. cbn [spec_call].
  fold next_ms. rewrite E. cbn [fst]. rewrite decide_True by done.
  set (w' := after _ _ w).
  assert (Hw' : jobs (w_queue w') !! id = Some (retried error)).
  { subst w'. unfold after. cbn [spec_call]. fold next_ms. by rewrite E. }
  clearbody w'. rewrite run_bind. destruct (run_get w') as ([rec|e] & ->); by eexists _, _.
Qed.

(** The job a finished attempt leaves. *)
Definition settled_job (outcome : result exn QR) : job :=
  match outcome with
  | Ok res => if j_cancel j then with_status CANCELLED "" t j else succeeded (dump_result res) t j
  | Err e =>
      if isinstance e QueryCancelled then
        if j_cancel j then with_status CANCELLED "" t j
        else with_status FAILED "query was cancelled" t j
      else if isinstance e CommitFenced then
        if j_cancel j then with_status CANCELLED "" t j else j
      else if is_retryable e then retried (exn_text e)
      else with_status FAILED (exn_text e) t j
  end.

Lemma run_settle job outcome :
  rj_id job = id ->
  jobs (w_queue (go (settle cc job worker outcome) w).2) !! id = Some (settled_job outcome).
Proof.
  intros Hid. unfold settle. rewrite run_bind. cbn [run perform lone_worker].
  assert (Hcan : forall p : bool -> prog (wop QR) unit,
            go (bind (on_queue (cancel_requested (rj_id job) worker)) p) w
            = go (p (j_cancel j)) w).
  { intros p. by rewrite run_bind, run_on_queue, Hid, run_cancel_requested. }
  assert (Hown : forall p : bool -> prog (wop QR) unit,
            go (bind (on_queue (owns (rj_id job) worker)) p) w = go (p true) w).
  { intros p. by rewrite run_bind, run_on_queue, Hid, run_owns. }
  destruct outcome as [res|e]; cbn [settled_job].
  - unfold on_result. rewrite Hcan. destruct (j_cancel j) eqn:Ec.
    + rewrite run_bind, run_on_queue, Hid. by destruct run_cancel_complete as (w' & -> & Hq).
    + rewrite run_bind, run_on_queue, Hid. by destruct (run_complete res Ec) as (w' & -> & Hq).
  - destruct (isinstance e QueryCancelled).
    { unfold on_cancelled. rewrite Hcan. destruct (j_cancel j).
      - rewrite run_bind, run_on_queue, Hid. by destruct run_cancel_complete as (w' & -> & Hq).
      - rewrite Hown, run_bind, run_on_queue, Hid.
        by destruct (run_fail_final "query was cancelled" (Some "QueryCancelled"))
          as (w' & -> & Hq). }
    destruct (isinstance e CommitFenced).
    { unfold on_fenced. rewrite Hcan. destruct (j_cancel j); [|done].
      rewrite run_bind, run_on_queue, Hid. by destruct run_cancel_complete as (w' & -> & Hq). }
    unfold on_error. rewrite Hown, run_bind, run_on_queue, Hid.
    destruct (is_retryable e).
    + destruct (run_fail_retryable (exn_text e) (Some (class_name (exn_cls e))))
        as ([b|e'] & w' & -> & Hq); exact Hq.
    + by destruct (run_fail_final (exn_text e) (Some (class_name (exn_cls e))))
        as (w' & -> & Hq).
Qed.
End held.
End lone_worker.

(** ** The worker's shard *)

Lemma digits_app p s : string_forall is_digit s = false -> string_forall is_digit (p +:+ s) = false.
Proof.
  intros Hs. induction p as [|a p IH]; [done|]. rewrite string_app_cons. cbn [string_forall].
  by rewrite IH, andb_false_r.
Qed.

Lemma trailing_app p s :
  string_forall is_digit s = false -> trailing_digits (p +:+ s) = trailing_digits s.
Proof.
  intros Hs. induction p as [|a p IH]; [done|]. rewrite string_app_cons. cbn [trailing_digits].
  rewrite <- string_app_cons, (digits_app (String a p) s Hs). exact IH.
Qed.

(** ** The theorems *)

Lemma lone_worker_exec {QR} `{QueueCodec QR} `{Sha256} cc t u R {A} (p : prog (wop QR) A) w :
  (forall w, R w w) -> jitter_ok u ->
  worker_exec (cc_queue cc) R p w (run (@lone_worker QR cc t u) p w).1
    (run (@lone_worker QR cc t u) p w).2.
Proof.
  intros HR Hu. apply run_execution. intros X o w'. destruct o; try done; [|apply HR].
  by apply lone_step.
Qed.

(** The programs a worker process runs beside each other: its main loop and a turn of
    it, the heartbeat thread of a job, and the two callbacks the service makes of
    it while the query runs. *)
Inductive worker_program : Type :=
| WWorkOnce (worker : string) (shard : nat)
| WLeaseHeartbeat (waits : list bool) (id worker : string)
| WCanCommit (id worker : string)
| WPublish (job : ReservedJob) (worker attempt_id key uri mode : string)
| WRun (settings : run_cfg) (turns : nat).

Definition worker_body {QR} `{QueueCodec QR} `{Sha256} (cc : client_cfg) (p : worker_program)
  : prog (rop QR) unit :=
  match p with
  | WWorkOnce worker shard => bind (on_work (work_once cc worker shard)) (fun _ => Ret tt)
  | WLeaseHeartbeat waits id worker => on_work (lease_heartbeat cc waits id worker)
  | WCanCommit id worker => bind (on_work (on_queue (can_commit cc id worker))) (fun _ => Ret tt)
  | WPublish job worker attempt_id key uri mode =>
      bind (on_work (on_queue (publish_callback job worker attempt_id key uri mode)))
        (fun _ => Ret tt)
  | WRun settings turns => bind (run_worker cc settings turns) (fun _ => Ret tt)
  end.

(** A publication key must not be one of the queue's own hash keys. *)
Definition worker_ok (cc : client_cfg) (p : worker_program) : Prop :=
  match p with WPublish _ _ _ key _ _ => outside_key (cc_queue cc) key | _ => True end.

Lemma worker_body_safe {QR} `{QueueCodec QR} `{Sha256} cc (p : worker_program) w :
  queue_cfg_ok (cc_queue cc) -> worker_ok cc p ->
  wp (H := process_effects (cc_queue cc) (others (cc_queue cc))) (worker_body (QR := QR) cc p) w
    (fun _ _ => True).
Proof.
  intros Hc Hok. destruct p; cbn [worker_body].
  - apply run_bind_safe; [by apply on_work_safe, work_once_safe|]. intros; exact I.
  - by apply on_work_safe, lease_heartbeat_safe.
  - apply run_bind_safe; [by apply on_work_safe, can_commit_safe|]. intros; exact I.
  - apply run_bind_safe; [by apply on_work_safe, publish_safe|]. intros; exact I.
  - apply run_bind_safe; [by apply run_worker_safe|]. intros; exact I.
Qed.

Lemma process_effect_step {QR} c (Hc : queue_cfg_ok c) X (o : rop QR X) w (Q : X -> world -> Prop) x w1 :
  world_inv c w -> process_effect c (others c) o w Q -> process_step c (others c) X o w x w1 ->
  Q x w1 /\ world_inv c w1 /\ legal_move c w w1.
Proof.
  intros Hi. assert (Hrefl : legal_move c w w) by apply rtc_refl.
  destruct o; cbn; try (intros HQ ->; split; [first [apply HQ|by destruct x]|by split]).
  by apply worker_effect_step.
Qed.


(** One process alone; the stop event is never set. *)
Definition lone_process {QR} `{QueueCodec QR} `{Sha256} cc t u {X} (o : rop QR X) (w : world)
  : X * world :=
  match o in rop _ Y return Y * world with
  | Work o => lone_worker cc t u o w
  | ConfigureLogging | GetQueue | GetService | ServeMetrics | CloseService | CloseQueue => (Ok tt, w)
  | Hostname => ("dalmatian-worker-1", w)
  | StopIsSet => (false, w)
  | Monotonic => (20%Q, w)
  | OnSignals | MeasureWorker _ => (tt, w)
  end.

Lemma lone_process_exec {QR} `{QueueCodec QR} `{Sha256} cc t u {A} (p : prog (rop QR) A) w :
  jitter_ok u ->
  process_exec (cc_queue cc) (others (cc_queue cc)) p w (run (@lone_process QR _ _ cc t u) p w).1
    (run (@lone_process QR _ _ cc t u) p w).2.
Proof.
  intros Hu. apply run_execution. intros X o w'. destruct o as [X [| | | | | |]| | | | | | | | | | |];
    try done; [apply (lone_step (cc_queue cc) t u); [intros; apply rtc_refl|done|done]|apply rtc_refl].
Qed.


(** C15: A worker that lost its job settles it silently.  Suppose that, when the
    query ends, the worker no longer holds the job (its lease was reaped, the job
    was cancelled or finished, another worker runs it), and nobody claims the job
    for it again.  Then, whatever the query's outcome, the worker finishes its turn
    normally and makes no change to the queue: whatever relation [R] the others'
    moves stay in (any reflexive and transitive part of [foreign]), the queue has
    moved by [R], so with the others standing still ([R] is [eq]) it is the same
    as before. *)
Theorem lost_worker_settles_silently {QR} `{QueueCodec QR} `{Sha256} cc job worker
    (outcome : result exn QR) R w r w' :
  queue_cfg_ok (cc_queue cc) -> world_inv (cc_queue cc) w ->
  ~ holds (w_queue w) (rj_id job) worker ->
  PreOrder R -> (forall w w1, R w w1 -> foreign (cc_queue cc) (rj_id job) worker w w1) ->
  worker_exec (cc_queue cc) R (settle cc job worker outcome) w r w' ->
  r = Ok tt /\ R w w'.
Proof.
  intros Hc Hi Hn HP HR He.
  by destruct (wp_worker (cc_queue cc) Hc R
                 (fun w w1 Ho => foreign_others _ _ _ _ _ (HR w w1 Ho)) _ _ _ _ _ Hi
                 (settle_stale cc (cc_queue cc) job worker R HP HR outcome w Hn) He) as (HQ & _).
Qed.

Lemma lost_worker_settles_silently_witness :
  let w' := (run (@lone_worker string ClientDemo.client 5000 1)
               (settle ClientDemo.client (Reserved "a" (ClientDemo.request "select 1") 1 1) "w0"
                  (Ok "late")) ClientDemo.running).2 in
  ClientDemo.running = w'.
Proof.
  cbv zeta.
  apply (lost_worker_settles_silently ClientDemo.client
           (Reserved "a" (ClientDemo.request "select 1") 1 1) "w0" (Ok "late") eq ClientDemo.running
           (run (@lone_worker string ClientDemo.client 5000 1)
              (settle ClientDemo.client (Reserved "a" (ClientDemo.request "select 1") 1 1) "w0"
                 (Ok "late")) ClientDemo.running).1 _
           ClientDemo.demo_cfg_ok ClientDemo.running_inv).
  - intros (j & Hj & _ & Hw). vm_compute in Hj. injection Hj as <-. discriminate Hw.
  - apply _.
  - intros ? ? <-. apply rtc_refl.
  - apply lone_worker_exec; [done|apply ClientDemo.jitter_one].
Defined.

(** C16: The outcome decides the job.  When nobody else acts, the worker holds the
    job, and the clock stands at a moment before its lease's end, settling the
    attempt leaves the job as [settled_job] says: a result makes it succeed with
    that result, or cancels it if its cancellation was requested; QueryCancelled
    (QueryTimeout is one) cancels it if that was requested and fails it if not;
    CommitFenced cancels it if that was requested and leaves it as it is, still
    running, if not; any other error puts it back for a retry or fails it for
    good, as [is_retryable] and the attempts left decide. *)
Theorem settle_decides_the_job {QR} `{QueueCodec QR} `{Sha256} cc t u job worker
    (outcome : result exn QR) w j :
  jobs (w_queue w) !! rj_id job = Some j -> j_status j = RUNNING -> j_worker j = worker ->
  t < j_lease j ->
  let w' := (run (@lone_worker QR cc t u) (settle cc job worker outcome) w).2 in
  jobs (w_queue w') !! rj_id job = Some (settled_job cc t u j outcome).
Proof. intros Hj Hst Hw Hl w'. by apply run_settle. Qed.

Lemma settle_decides_the_job_witness :
  let w' := (run (@lone_worker string ClientDemo.client 5000 1)
               (settle ClientDemo.client (Reserved "a" (ClientDemo.request "select 1") 1 1) "w1"
                  (Ok "rows")) ClientDemo.running).2 in
  jobs (w_queue w') !! "a"
  = Some (settled_job (QR := string) ClientDemo.client 5000 1
            (claimed "w1" 61000 1000 (new_job "select 1" 1 1000)) (Ok "rows")).
Proof.
  apply (settle_decides_the_job ClientDemo.client 5000 1
           (Reserved "a" (ClientDemo.request "select 1") 1 1) "w1" (Ok "rows")).
  - vm_compute. reflexivity.
  - reflexivity.
  - reflexivity.
  - reflexivity.
Defined.

(** A timeout is recorded as a cancellation.  QueryTimeout is a subclass of
    QueryCancelled, so the handler for cancellations takes it: a job whose query
    ran out of time, with no cancellation requested, ends FAILED with the error
    "query was cancelled", whatever the timeout said. *)
Theorem timeout_is_recorded_as_cancelled {QR} `{QueueCodec QR} `{Sha256} cc t u job worker text w j :
  jobs (w_queue w) !! rj_id job = Some j -> j_status j = RUNNING -> j_worker j = worker ->
  j_cancel j = false -> t < j_lease j ->
  let outcome : result exn QR := Err (Exn QueryTimeout text) in
  let w' := (run (@lone_worker QR cc t u) (settle cc job worker outcome) w).2 in
  jobs (w_queue w') !! rj_id job = Some (with_status FAILED "query was cancelled" t j).
Proof.
  intros Hj Hst Hw Hcan Hl outcome w'. subst w'.
  rewrite (run_settle cc t u (rj_id job) worker j w Hj Hst Hw Hl job outcome eq_refl).
  subst outcome. cbn. by rewrite Hcan.
Qed.

Lemma timeout_is_recorded_as_cancelled_witness :
  let outcome : result exn string := Err (Exn QueryTimeout "query exceeded 300 seconds") in
  let w' := (run (@lone_worker string ClientDemo.client 5000 1)
               (settle ClientDemo.client (Reserved "a" (ClientDemo.request "select 1") 1 1) "w1"
                  outcome) ClientDemo.running).2 in
  jobs (w_queue w') !! "a"
  = Some (with_status FAILED "query was cancelled" 5000
            (claimed "w1" 61000 1000 (new_job "select 1" 1 1000))).
Proof.
  apply (timeout_is_recorded_as_cancelled ClientDemo.client 5000 1
           (Reserved "a" (ClientDemo.request "select 1") 1 1) "w1").
  - vm_compute. reflexivity.
  - reflexivity.
  - reflexivity.
  - reflexivity.
  - reflexivity.
Defined.

(** Two StatefulSet pods share a shard.  For every release prefix, the pods
    [-worker-0] and [-worker-1] of the chart's StatefulSet both serve shard 0: the
    code takes the zero-based ordinal of a host name with "-worker-" for a
    one-based one.  In general the shard is below the shard count. *)
Theorem first_two_pods_share_a_shard prefix hostname configured shards :
  1 <= shards ->
  0 <= _worker_shard hostname configured shards < shards
  /\ _worker_shard (prefix +:+ "-worker-0") None shards = 0
  /\ _worker_shard (prefix +:+ "-worker-1") None shards = 0.
Proof.
  intros Hs. split; [|split].
  - unfold _worker_shard. destruct configured as [n|]; [apply Z.mod_pos_bound; lia|].
    destruct (trailing_digits hostname); [lia|apply Z.mod_pos_bound; lia].
  - unfold _worker_shard. rewrite (trailing_app prefix "-worker-0"), contains_app by done. done.
  - unfold _worker_shard. rewrite (trailing_app prefix "-worker-1"), contains_app by done. done.
Qed.

Lemma first_two_pods_share_a_shard_witness :
  _worker_shard "prod-dalmatian-worker-0" None 8 = _worker_shard "prod-dalmatian-worker-1" None 8.
Proof.
  destruct (first_two_pods_share_a_shard "prod-dalmatian" "" None 8 ltac:(discriminate))
    as (_ & H0 & H1).
  exact (eq_trans H0 (eq_sym H1)).
Defined.
