(* ===== verification/RunTheorems.v ===== *)
(** * How a worker process ends

    [run_worker] of Worker.v, watched for a number of turns of its loop, with signals
    arriving at any time: the process finishes the job it is on, takes at most one
    more when the signal comes while it is reserving, and closes the service and
    then the queue however its loop was left. *)

From Stdlib Require Import QArith.
From S2P Require Import Prelude Models Fingerprint Prog Observability QueueState JobQueue Worker.

#[local] Open Scope Z_scope.

(** How often the stop event was looked at; how often it had been when the signal
    came; the jobs begun after the signal; what was closed, and whether the call
    succeeded. *)
Record process := Process {
  p_checks : nat;
  p_stop : option nat;
  p_jobs : nat;
  p_closed : list (string * bool);
}.

Definition started : process := Process 0 None 0 [].

Definition stop_now (w : process) : process :=
  Process (p_checks w) (Some (p_checks w)) (p_jobs w) (p_closed w).
Definition checked (w : process) : process :=
  Process (S (p_checks w)) (p_stop w) (p_jobs w) (p_closed w).
Definition began (w : process) : process :=
  Process (p_checks w) (p_stop w)
    (match p_stop w with Some _ => S (p_jobs w) | None => p_jobs w end) (p_closed w).
Definition closed (what : string) (r : result exn unit) (w : process) : process :=
  Process (p_checks w) (p_stop w) (p_jobs w)
    (p_closed w ++ [(what, match r with Ok _ => true | Err _ => false end)]).

(** A signal may have come. *)
Definition signal (w w' : process) : Prop := w' = w \/ p_stop w = None /\ w' = stop_now w.

Lemma signal_refl w : signal w w.
Proof. by left. Qed.

Lemma signal_trans w1 w2 w3 : signal w1 w2 -> signal w2 w3 -> signal w1 w3.
Proof. intros [->|[E ->]]; [done|]. intros [->|[[=] _]]. by right. Qed.

Section draining.
Context {QR : Type} `{QueueCodec QR} `{Sha256} (cc : client_cfg).

(** Every operation may answer anything, and a signal may come before it. *)
Definition drain_effect {X} (o : rop QR X) (w : process) : (X -> process -> Prop) -> Prop :=
  match o in rop _ Y return (Y -> process -> Prop) -> Prop with
  | Work o => fun Q => forall x w1, signal w w1 ->
      Q x (match o with StartHeartbeat _ => began w1 | _ => w1 end)
  | StopIsSet => fun Q => forall w1, signal w w1 ->
      Q (match p_stop w1 with Some _ => true | None => false end) (checked w1)
  | CloseService => fun Q => forall r w1, signal w w1 -> Q r (closed "service" r w1)
  | CloseQueue => fun Q => forall r w1, signal w w1 -> Q r (closed "queue" r w1)
  | ConfigureLogging | GetQueue | GetService | ServeMetrics => fun Q => forall r w1, signal w w1 -> Q r w1
  | Hostname => fun Q => forall name w1, signal w w1 -> Q name w1
  | Monotonic => fun Q => forall now w1, signal w w1 -> Q now w1
  | OnSignals | MeasureWorker _ => fun Q => forall w1, signal w w1 -> Q tt w1
  end.

Lemma drain_effect_mono X (o : rop QR X) w (Q1 Q2 : X -> process -> Prop) :
  (forall x w', Q1 x w' -> Q2 x w') -> drain_effect o w Q1 -> drain_effect o w Q2.
Proof using Type. intros Hq. destruct o; cbn; auto. Qed.

#[local] Instance drain_effects : Effects (rop QR) process :=
  {| effect := @drain_effect; effect_mono := drain_effect_mono |}.

(** Programs that neither begin a job nor look at the stop event nor close. *)
Definition calm {A} (p : prog (rop QR) A) : Prop := forall w, wp p w (fun _ w' => signal w w').

Lemma calm_bind {A B} (p : prog (rop QR) A) (f : A -> prog (rop QR) B) :
  calm p -> (forall a, calm (f a)) -> calm (bind p f).
Proof using Type.
  intros Hp Hf w. apply wp_bind. eapply wp_mono; [|apply Hp]. intros [a|e] w1 H1; [|done].
  eapply wp_mono; [|apply Hf]. intros r w2. by apply signal_trans.
Qed.

Lemma calm_ret {A} (a : A) : calm (Ret a).
Proof using Type. intros w. apply signal_refl. Qed.

Lemma calm_try {A} (p : prog (rop QR) A) g : calm p -> (forall e, calm (g e)) -> calm (try_except p g).
Proof using Type.
  intros Hp Hg w. apply wp_try_except. eapply wp_mono; [|apply Hp]. intros [a|e] w1 H1; [done|].
  eapply wp_mono; [|apply Hg]. intros r w2. by apply signal_trans.
Qed.

Definition calm_op {X} (o : rop QR X) : bool :=
  match o with
  | Work (StartHeartbeat _) | StopIsSet | CloseService | CloseQueue => false
  | _ => true
  end.

Lemma calm_perform {X} (o : rop QR X) : calm_op o = true -> calm (perform o).
Proof using Type.
  intros Ho w. destruct o as [X o| | | | | | | | | | |]; try discriminate Ho; cbn; try by intros.
  intros x w1 Hw1. by destruct o.
Qed.

Lemma calm_lift {A} (r : result exn A) : calm (lift r).
Proof using Type. intros w. by apply wp_lift, signal_refl. Qed.

Lemma calm_invoke {X} (o : rop QR (result exn X)) : calm_op o = true -> calm (invoke o).
Proof using Type.
  intros Ho. change (invoke o) with (bind (perform o) lift).
  apply calm_bind; [by apply calm_perform|apply calm_lift].
Qed.

(** Queue calls are calm, whatever the method. *)
Lemma calm_queue {A} (p : prog (qop QR) A) : calm (on_work (on_queue p)).
Proof using Type.
  induction p as [a|e|X o k IH]; [apply calm_ret|intros w; apply signal_refl|].
  intros w x w1 H1. cbn. eapply wp_mono; [|apply IH]. intros r w2. by apply signal_trans.
Qed.

(** A worker's program through its parts. *)
Lemma wp_on_work_bind {A B} (p : prog (wop QR) A) (f : A -> prog (wop QR) B) w
    (Q : result exn B -> process -> Prop) :
  wp (bind (on_work p) (fun a => on_work (f a))) w Q -> wp (on_work (bind p f)) w Q.
Proof using Type.
  revert w. induction p as [a|e|X o k IH]; intros w; [done..|].
  cbn. intros Hp x w1 H1. by apply IH, Hp.
Qed.

Lemma calm_work_bind {A B} (p : prog (wop QR) A) (f : A -> prog (wop QR) B) :
  calm (on_work p) -> (forall a, calm (on_work (f a))) -> calm (on_work (bind p f)).
Proof using Type. intros Hp Hf w. apply wp_on_work_bind. by apply calm_bind. Qed.

Lemma calm_outcome status : calm (on_work (perform (JobOutcome (QR := QR) status))).
Proof using Type. by apply calm_perform. Qed.

Lemma calm_work_ret {A} (a : A) : calm (on_work (Ret a)).
Proof using Type. apply calm_ret. Qed.

#[local] Hint Resolve calm_queue calm_outcome calm_work_ret : core.

Ltac calmly := repeat first
  [ progress auto | apply calm_work_bind; [|intros ?]
  | match goal with |- calm (on_work (if ?b then _ else _)) => destruct b end ].

Lemma calm_settle job worker outcome : calm (on_work (settle cc job worker outcome)).
Proof using Type.
  unfold settle. apply calm_work_bind; [by apply calm_perform|]. intros _.
  destruct outcome as [res|e]; [unfold on_result; calmly|].
  destruct (isinstance e QueryCancelled); [unfold on_cancelled; calmly|].
  destruct (isinstance e CommitFenced); [unfold on_fenced; calmly|unfold on_error; calmly].
Qed.

(** One job at most is begun by a [work_once]. *)
Definition worked (w w' : process) : Prop :=
  exists w1 w2, signal w w1 /\ (w2 = w1 \/ w2 = began w1) /\ signal w2 w'.

Lemma calm_worked w w' : signal w w' -> worked w w'.
Proof using Type. intros Hs. exists w', w'. split_and!; [done|by left|apply signal_refl]. Qed.

Lemma work_once_works worker shard w :
  wp (on_work (work_once cc worker shard)) w (fun _ w' => worked w w').
Proof using Type.
  unfold work_once. apply wp_on_work_bind, wp_bind. eapply wp_mono; [|apply calm_queue].
  intros [[job|]|e] w1 H1; [|by apply calm_worked..].
  apply wp_on_work_bind, wp_bind. intros [] w2 H2. cbn [interp bind wp].
  eapply wp_mono; [|match goal with |- wp ?p ?w ?Q => assert (Hrest : calm p); [|exact (Hrest w)] end].
  { intros r w' Hw'. exists w2, (began w2).
    split_and!; [by eapply signal_trans|by right|exact Hw']. }
  apply calm_work_bind; [by apply calm_perform|]. intros hex. cbv zeta.
  apply calm_work_bind; [by apply calm_perform|]. intros outcome.
  apply calm_work_bind; [apply calm_settle|auto].
Qed.

(** ** The loop *)

(** Before a look at the stop event: no signal, or one during the last turn. *)
Definition turning (checks : nat) (w : process) : Prop :=
  p_checks w = checks /\ p_closed w = []
  /\ (p_stop w = None /\ p_jobs w = 0%nat \/ p_stop w = Some checks /\ (p_jobs w <= 1)%nat).

Lemma turning_signal checks w w' : turning checks w -> signal w w' -> turning checks w'.
Proof using Type.
  intros (Hn & Hc & Hs) [->|[E ->]]; [done|]. destruct Hs as [[_ Hj]|[Hs _]]; [|congruence].
  split_and!; [done..|]. right. cbn. rewrite Hn, Hj. split; [done|lia].
Qed.

Lemma turning_worked checks w w' :
  p_stop w = None \/ p_jobs w = 0%nat -> turning checks w -> worked w w' -> turning checks w'.
Proof using Type.
  intros Hfirst Ht (w1 & w2 & H1 & H2 & H3).
  eapply turning_signal; [|exact H3].
  pose proof (turning_signal _ _ _ Ht H1) as Ht1. destruct H2 as [->| ->]; [done|].
  assert (Hj : p_jobs w1 = 0%nat).
  { destruct Ht as (_ & _ & Ht). destruct H1 as [->|[E ->]]; cbn; naive_solver. }
  destruct Ht1 as (Hn & Hc & Hs). unfold turning, began. cbn. rewrite Hj in *.
  split_and!; [done..|]. destruct (p_stop w1); [right|left]; naive_solver.
Qed.

Lemma reap_pass_calm : calm (reap_pass cc).
Proof using Type.
  apply calm_try; [|intros; apply calm_ret]. apply calm_bind; [apply calm_queue|]. intros reaped.
  apply calm_bind; [apply calm_queue|]. intros waiting.
  apply calm_bind; [by apply calm_perform|]. intros _.
  destruct (reaped =? 0); [apply calm_ret|by apply calm_perform].
Qed.

Lemma loop_turn_turns checks worker shard next interval w :
  turning checks w -> p_stop w = None ->
  wp (loop_turn cc worker shard next interval) w (fun _ w' => turning checks w').
Proof using Type.
  intros Ht Hs. unfold loop_turn. apply wp_bind. intros now w1 H1. cbn [wp bind].
  assert (Hcalm : calm ((if Qle_bool next now then reap_pass cc;; Ret (now + interval)%Q
                         else Ret next) : prog (rop QR) Q)%prog).
  { destruct (Qle_bool next now); [|apply calm_ret].
    apply calm_bind; [apply reap_pass_calm|intros; apply calm_ret]. }
  apply wp_bind. eapply wp_mono; [|apply Hcalm]. intros r w2 H2.
  assert (H12 : signal w w2) by (by eapply signal_trans).
  pose proof (turning_signal _ _ _ Ht H12) as Ht2.
  destruct r as [next'|e]; [|done]. apply wp_bind.
  eapply wp_mono; [|apply work_once_works]. intros r w3 H3.
  assert (turning checks w3); [|by destruct r]. eapply turning_worked; [|exact Ht2|exact H3].
  destruct H12 as [->|[_ ->]]; [by left|right]. destruct Ht as (_ & _ & Ht). cbn. naive_solver.
Qed.

(** How the loop leaves the process. *)
Definition left_loop (checks turns : nat) (r : result exn run_end) (w : process) : Prop :=
  p_closed w = [] /\ (p_jobs w <= 1)%nat
  /\ (forall k, p_stop w = Some k -> (p_checks w <= S k)%nat)
  /\ match r with
     | Ok Unfinished => p_checks w = (checks + turns)%nat
     | Ok Stopped => p_stop w <> None /\ (checks < p_checks w)%nat
     | Ok (Crashed _) => False
     | Err _ => (checks < p_checks w)%nat
     end.

Lemma run_loop_leaves turns checks worker shard next interval w :
  turning checks w ->
  wp (run_loop cc turns worker shard next interval) w (left_loop checks turns).
Proof using Type.
  revert checks next w. induction turns as [|turns IH]; intros checks next w Ht; cbn [run_loop].
  - destruct Ht as (Hn & Hc & Hs). unfold left_loop.
    split_and!; [done|destruct Hs as [[_ ->]|[_ ?]]; lia| |cbn; lia].
    intros k Hk. destruct Hs as [[Hs _]|[Hs _]]; rewrite Hs in Hk; [done|]. injection Hk as <-. lia.
  - apply wp_bind. intros w1 H1. pose proof (turning_signal _ _ _ Ht H1) as (Hn & Hc & Hs).
    destruct (p_stop w1) as [k|] eqn:Ek; cbn [wp].
    { destruct Hs as [[[=] _]|[[= ->] Hj]]. unfold left_loop. cbn.
      split_and!; [done|lia| |by rewrite Ek|lia]. intros k. rewrite Ek. intros [= <-]. lia. }
    destruct Hs as [[_ Hj]|[[=] _]].
    assert (Ht1 : turning (S checks) (checked w1)).
    { unfold turning, checked. cbn. rewrite Hn, Hj, Ek. split_and!; [done..|by left]. }
    apply wp_bind. eapply wp_mono; [|by apply (loop_turn_turns (S checks))].
    intros [next'|e] w2 Ht2.
    + eapply wp_mono; [|apply IH, Ht2]. intros r w3 (? & ? & ? & Hr). split_and!; [done..|].
      destruct r as [[| |]|e]; try done; [destruct Hr; split; [done|lia]|lia..].
    + destruct Ht2 as (Hn2 & Hc2 & Hs2). split_and!; [done| | |lia].
      * destruct Hs2 as [[_ ->]|[_ ?]]; lia.
      * intros k Hk. destruct Hs2 as [[Hs2 _]|[Hs2 _]]; rewrite Hs2 in Hk; [done|].
        injection Hk as <-. lia.
Qed.

(** ** The process *)

(** How the process ends, watched for a number of turns. *)
Definition drained (turns : nat) (r : result exn run_end) (w : process) : Prop :=
  (p_jobs w <= 1)%nat
  /\ (forall k, p_stop w = Some k -> (p_checks w <= S k)%nat)
  /\ match r with
     | Ok Unfinished => p_checks w = turns /\ p_closed w = []
     | Ok Stopped => p_stop w <> None /\ p_closed w = [("service", true); ("queue", true)]
     | Ok (Crashed _) => False
     | Err _ =>
         if (p_checks w =? 0)%nat then p_closed w = []
         else p_closed w = [("service", false)]
              \/ exists ok, p_closed w = [("service", true); ("queue", ok)]
     end.

Lemma signal_same w w' :
  signal w w' -> p_checks w' = p_checks w /\ p_jobs w' = p_jobs w /\ p_closed w' = p_closed w
  /\ (forall k, p_stop w' = Some k -> p_stop w = Some k \/ k = p_checks w)
  /\ (p_stop w <> None -> p_stop w' <> None).
Proof using Type.
  intros [->|[E ->]]; [split_and!; naive_solver|]. cbn. split_and!; try done.
  intros k [= <-]. by right.
Qed.

(** The closing calls, after a loop that stopped or crashed. *)
Lemma closing_drains turns how r0 w :
  left_loop 0 turns r0 w ->
  r0 = Ok how /\ how = Stopped \/ (exists e, r0 = Err e /\ how = Crashed e) ->
  wp (invoke CloseService;; invoke CloseQueue;;
      match how with Crashed e => Raise e | _ => Ret how end)%prog w (drained turns).
Proof using Type.
  intros (Hc & Hj & Hk & Hr) Hhow.
  assert (Hn : (0 < p_checks w)%nat).
  { destruct Hhow as [[-> ->]|(e & -> & ->)]; [by destruct Hr|exact Hr]. }
  apply wp_bind. intros r w1 (En1 & Ej1 & Ec1 & Es1 & Et1)%signal_same. apply wp_lift.
  assert (Hb1 : (forall k, p_stop w1 = Some k -> (p_checks w1 <= S k)%nat)).
  { intros k [Hw| ->]%Es1; [rewrite En1; by apply Hk|lia]. }
  destruct r as [[]|e].
  2: { split_and!; [cbn; lia|exact Hb1|]. cbn. rewrite (proj2 (Nat.eqb_neq _ _)) by lia.
       left. by rewrite Ec1, Hc. }
  apply wp_bind. intros r w2 (En2 & Ej2 & Ec2 & Es2 & Et2)%signal_same. cbn in *. apply wp_lift.
  assert (Hb2 : (forall k, p_stop w2 = Some k -> (p_checks w2 <= S k)%nat)).
  { intros k [Hw| ->]%Es2; [rewrite En2; by apply Hb1|lia]. }
  assert (Ec : p_closed w2 = [("service", true)]) by (by rewrite Ec2, Ec1, Hc).
  assert (Hn2 : (p_checks w2 =? 0)%nat = false) by (apply Nat.eqb_neq; lia).
  assert (Herr : forall e, drained turns (Err e) (closed "queue" r w2)).
  { intros e. split_and!; [cbn; lia|exact Hb2|]. cbn. rewrite Hn2, Ec. right. by eexists. }
  destruct r as [[]|e]; [|apply Herr].
  destruct Hhow as [[-> ->]|(e & -> & ->)]; [|apply Herr].
  split_and!; [cbn; lia|exact Hb2| |by cbn; rewrite Ec]. apply Et2, Et1. by destruct Hr.
Qed.

(** A failing set-up: nothing was looked at, nothing closed. *)
Definition setting_up (w : process) : Prop :=
  p_checks w = 0%nat /\ p_jobs w = 0%nat /\ p_closed w = []
  /\ (p_stop w = None \/ p_stop w = Some 0%nat).

Lemma wp_setup {A} turns (p : prog (rop QR) A) (f : A -> prog (rop QR) run_end) w :
  calm p -> setting_up w -> (forall a w', setting_up w' -> wp (f a) w' (drained turns)) ->
  wp (bind p f) w (drained turns).
Proof using Type.
  intros Hp Hw Hf. apply wp_bind. eapply wp_mono; [|apply Hp]. intros r w1 H1.
  assert (Hw1 : setting_up w1).
  { destruct Hw as (Hn & Hj & Hc & Hs), H1 as [->|[_ ->]]; [done|]. unfold setting_up. cbn.
    rewrite Hn. split_and!; auto. }
  destruct r as [a|e]; [by apply Hf|]. destruct Hw1 as (Hn & Hj & Hc & Hs).
  split_and!; [lia|destruct Hs as [->| ->]; naive_solver lia|]. by rewrite Hn.
Qed.

(** C17: A worker process drains.  Watched for any number of turns, with signals
    arriving at any time and whatever the queue, the service, the clock and the
    set-up answer: the stop event is looked at at most once more after the signal,
    and at most one job is begun after it, the one whose reservation was under way;
    so a loop watched longer than that has ended.  However the loop is left, by
    the signal or by an exception, the service is closed and then the queue; the
    queue is left open only when closing the service raised.  The process ends
    normally only after both were closed without an error, and when it ends
    before its first look at the stop event (the set-up failed), it closes
    neither. *)
Theorem worker_processes_drain settings turns :
  wp (run_worker cc settings turns) started (drained turns).
Proof using Type.
  assert (Hw : setting_up started) by (split_and!; auto).
  unfold run_worker. revert Hw. generalize started. intros w Hw.
  apply wp_setup; [by apply calm_invoke|done|]. clear w Hw. intros _ w Hw.
  apply wp_setup; [by apply calm_invoke|done|]. clear w Hw. intros _ w Hw.
  apply wp_setup; [by apply calm_invoke|done|]. clear w Hw. intros _ w Hw.
  apply wp_setup; [by apply calm_perform|done|]. clear w Hw. intros hostname w Hw.
  apply wp_setup; [by apply calm_perform|done|]. clear w Hw. intros hex w Hw.
  apply wp_setup; [by apply calm_perform|done|]. clear w Hw. intros _ w Hw.
  apply wp_setup; [by apply calm_invoke|done|]. clear w Hw. intros _ w (Hn & Hj & Hc & Hs).
  unfold run_guarded. apply wp_bind, wp_try_except.
  eapply wp_mono; [|apply (run_loop_leaves turns 0)].
  2: { split_and!; [done..|]. rewrite Hj. destruct Hs; [by left|right; split; [done|lia]]. }
  intros r w' Hl. destruct r as [how|e]; cbn [wp].
  - destruct how as [|e|]; [| |destruct Hl as (? & ? & ? & ?); by split_and!].
    + apply (closing_drains turns Stopped (Ok Stopped)); [exact Hl|by left].
    + by destruct Hl as (_ & _ & _ & ?).
  - apply (closing_drains turns (Crashed e) (Err e)); [exact Hl|right; by exists e].
Qed.
End draining.
