(* ===== verification/Storage.v ===== *)
(** * Storage locations and output publication

    src/src/dalmatian/storage.py: the registry of storage locations (roots with a
    supported scheme, relative paths below them), the key a destination is
    published under, and the two publication registries, in memory and on Valkey.
    The metadata store is seen through what it answers for a location name. *)

From Stdlib Require Import Ascii.
From S2P Require Import Prelude Valkey Models Fingerprint.

#[local] Open Scope Z_scope.

(** ** URLs *)

Definition is_alpha (a : ascii) : bool :=
  let n := nat_of_ascii a in ((65 <=? n) && (n <=? 90) || (97 <=? n) && (n <=? 122))%nat.

(** Letters, digits and "+-.". *)
Definition scheme_char (a : ascii) : bool :=
  let n := nat_of_ascii a in is_alpha a || is_digit a || ((n =? 43) || (n =? 45) || (n =? 46))%nat.

(** Leading C0 controls and spaces. *)
Fixpoint strip_controls (s : string) : string :=
  match s with
  | String a rest => if (nat_of_ascii a <=? 32)%nat then strip_controls rest else s
  | EmptyString => EmptyString
  end.

(** Tabs and line ends anywhere. *)
Fixpoint drop_breaks (s : string) : string :=
  match s with
  | EmptyString => EmptyString
  | String a rest =>
      let n := nat_of_ascii a in
      if ((n =? 9) || (n =? 10) || (n =? 13))%nat then drop_breaks rest
      else String a (drop_breaks rest)
  end.

(** The text before the first [c], if there is one. *)
Fixpoint before (c : ascii) (s : string) : option string :=
  match s with
  | EmptyString => None
  | String a rest => if decide (a = c) then Some EmptyString
                     else match before c rest with Some p => Some (String a p) | None => None end
  end.

(** [urlsplit(url).scheme]. *)
Definition url_scheme (url : string) : string :=
  match before ":"%char (drop_breaks (strip_controls url)) with
  | Some (String a rest) =>
      if is_alpha a && string_forall scheme_char (String a rest)
      then lower (String a rest) else ""
  | _ => ""
  end.

(** ** The registry of locations *)

Record ResolvedDestination := Destination {
  rd_location : string;
  rd_path : string;
  rd_uri : string;
}.

Definition supported_schemes : list string := ["file"; "s3a"; "gs"; "abfss"].

(** [text.removeprefix(p)]. *)
Definition remove_prefix (p s : string) : string :=
  if starts_with p s then String.substring (String.length p) (String.length s) s else s.

Definition _normalize_root (root : string) : string :=
  if starts_with "s3://" root then "s3a://" +:+ remove_prefix "s3://" root else root.

Definition _validated_root (name configured_root : string) : result exn string :=
  let root := rstrip slash (_normalize_root configured_root) in
  let scheme := url_scheme root in
  if bool_decide (scheme ∈ supported_schemes) then Ok root
  else raise PyValueError ("unsupported storage scheme for " +:+ name +:+ ": "
         +:+ (if decide (scheme = "") then "missing" else scheme)).

Definition _clean (path : string) : result exn string :=
  if path_escapes path
  then raise PyValueError "storage path must be relative and cannot contain '..'"
  else
    let clean := strip slash path in
    if decide (clean = "") then raise PyValueError "storage path cannot be empty" else Ok clean.

(** Roots validated one by one; the first bad one stops the construction. *)
Fixpoint validated_roots (locations : list (string * string))
  : result exn (list (string * string)) :=
  match locations with
  | [] => Ok []
  | (name, uri) :: rest =>
      r_bind (_validated_root name uri) (fun root =>
      r_bind (validated_roots rest) (fun roots => Ok ((name, root) :: roots)))
  end.

Record StorageRegistry := Registry {
  sr_configured : gmap string string;
  sr_sources : gmap string string;
  (* [metadata.storage_location] and [storage_locations], when there is a store *)
  sr_metadata : option (gmap string string);
  sr_publication_prefix : string;
}.

(** [data_root] is [data_root.resolve().as_uri()]. *)
Definition make_registry (locations : list (string * string)) (metadata : option (gmap string string))
    (source_locations : list (string * string)) (data_root : option string) (prefix : string)
  : result exn StorageRegistry :=
  r_bind (validated_roots locations) (fun configured =>
  r_bind (validated_roots source_locations) (fun sources =>
  let sources : gmap string string := list_to_map sources in
  let sources := match data_root, sources !! "local" with
                 | Some uri, None => <["local" := uri]> sources
                 | _, _ => sources
                 end in
  Ok (Registry (list_to_map configured) sources metadata (rstrip ":"%char prefix)))).

(** [if value:] on what the metadata store answers. *)
Definition or_none_text (o : option string) : option string :=
  match o with Some EmptyString => None | o => o end.

Definition _root (r : StorageRegistry) (location : string) : result exn (string * string) :=
  match sr_configured r !! location with
  | Some root => Ok (root, "config")
  | None =>
      match sr_metadata r ≫= fun m => or_none_text (m !! location) with
      | Some value => r_bind (_validated_root location value) (fun root => Ok (root, "database"))
      | None => raise UnknownStorageLocation ("unknown storage location: " +:+ location)
      end
  end.

Definition resolve (r : StorageRegistry) (location path : string)
  : result exn ResolvedDestination :=
  r_bind (_root r location) (fun rs =>
  r_bind (_clean path) (fun clean =>
  Ok (Destination location clean (rs.1 +:+ "/" +:+ clean)))).

Definition resolve_source (r : StorageRegistry) (location : option string) (path : string)
  : result exn ResolvedDestination :=
  let name := match location with None | Some EmptyString => "local" | Some n => n end in
  r_bind (match sr_sources r !! name with
          | Some root => Ok root
          | None =>
              match location with
              | Some _ => r_bind (_root r name) (fun rs => Ok rs.1)
              | None => raise UnknownStorageLocation "local source root is not configured"
              end
          end) (fun root =>
  r_bind (_clean path) (fun clean =>
  Ok (Destination name clean (root +:+ "/" +:+ clean)))).

Definition locations (r : StorageRegistry) : list (string * string * string) :=
  map (fun p => (p.1, p.2, "config")) (sort_keys (map_to_list (sr_configured r)))
  ++ match sr_metadata r with
     | Some m =>
         map (fun p => (p.1, _normalize_root p.2, "database"))
           (filter (fun p => sr_configured r !! p.1 = None) (sort_keys (map_to_list m)))
     | None => []
     end.

Definition nul : string := String (ascii_of_nat 0) EmptyString.

Definition publication_key `{Sha256} (r : StorageRegistry) (d : ResolvedDestination) : string :=
  sr_publication_prefix r +:+ ":" +:+ sha256_hex (rd_location d +:+ nul +:+ rd_path d).

(** [json.dumps(values, sort_keys=True, separators=(",", ":")) + "\n"]. *)
Definition manifest_payload (values : list (string * json)) : string :=
  dumps (JObj values) +:+ String (ascii_of_nat 10) EmptyString.
