(* ===== verification/Publication.v ===== *)
(** * Who may publish an output

    The two registries of src/src/dalmatian/storage.py, in memory and on Valkey,
    and the queue's publish script: a destination's record names the query that
    last wrote it.  In "error" mode the first query keeps the destination; the
    same query may publish again, as a retried attempt does. *)

From stdpp Require Import base.
From S2P Require Import Prelude Valkey Models QueueState QueueScripts QueueRefine Storage Fingerprint.

#[local] Open Scope Z_scope.

Abbreviation fields := (gmap string string).

Record publication := Pub {
  p_key : string;
  p_query_id : string;
  p_attempt_id : string;
  p_manifest_uri : string;
  p_mode : string;
  p_now : Z;
}.

(** ** In memory: [MemoryOutputPublicationRegistry] *)

Definition publish_in_memory (p : publication) (values : gmap string fields)
  : bool * gmap string fields :=
  if decide (p_mode p = "append") then
    let current := default (hset_fields [("exists", "1")] ∅) (values !! p_key p) in
    (true, <[p_key p := hset_fields
                [("last_append_query_id", p_query_id p);
                 ("last_append_attempt_id", p_attempt_id p);
                 ("last_append_manifest_uri", p_manifest_uri p)] current]> values)
  else
    let taken := match values !! p_key p with
                 | Some current => bool_decide (current !! "query_id" <> Some (p_query_id p))
                 | None => false
                 end in
    if bool_decide (p_mode p = "error") && taken then (false, values)
    else (true, <[p_key p := hset_fields
                    [("exists", "1"); ("query_id", p_query_id p);
                     ("attempt_id", p_attempt_id p); ("manifest_uri", p_manifest_uri p)] ∅]>
                  values).

Definition current_in_memory (key : string) (values : gmap string fields) : option fields :=
  values !! key.

(** ** On Valkey: [ValkeyOutputPublicationRegistry] *)

Section on_valkey.
Context {store : Type} `{Valkey store}.
Local Open Scope script_scope.

Definition registry_script (key mode query_id attempt_id manifest_uri now : string)
  : script store Z :=
  if decide (mode = "append") then
    HSET key [("exists", "1"); ("last_append_query_id", query_id);
              ("last_append_attempt_id", attempt_id);
              ("last_append_manifest_uri", manifest_uri); ("updated_at_ms", now)];;
    s_ret 1
  else
    exists_ <- s_read (fun s => key_exists s key);;
    existing <- HGET key "query_id";;
    if decide (mode = "error" /\ exists_ = true /\ default "" existing <> query_id)
    then s_ret 0
    else
      HSET key [("exists", "1"); ("query_id", query_id); ("attempt_id", attempt_id);
                ("manifest_uri", manifest_uri); ("updated_at_ms", now)];;
      s_ret 1.

Definition publish_on_valkey (p : publication) : script store bool :=
  r <- registry_script (p_key p) (p_mode p) (p_query_id p) (p_attempt_id p) (p_manifest_uri p)
         (str_of_Z (p_now p));;
  s_ret (bool_decide (r <> 0)).

Definition current_on_valkey (key : string) (s : store) : option fields :=
  let value := hgetall s key in if decide (value = ∅) then None else Some value.

(** [StorageRegistry.publish_sync], over either registry's [publish]. *)
Definition publish_sync `{Sha256} {A} (publish : publication -> A) (r : StorageRegistry)
    (d : ResolvedDestination) (query_id attempt_id manifest_uri write_mode : string) (now : Z) : A :=
  publish (Pub (publication_key r d) query_id attempt_id manifest_uri write_mode now).

(** A sequence of publications: the answers, and the state they leave. *)
Fixpoint publish_all_on_valkey (ps : list publication) (s : store) : list (option bool) * store :=
  match ps with
  | [] => ([], s)
  | p :: ps =>
      let '(b, s1) := publish_on_valkey p s in
      let '(bs, s2) := publish_all_on_valkey ps s1 in (b :: bs, s2)
  end.
End on_valkey.

Fixpoint publish_all_in_memory (ps : list publication) (values : gmap string fields)
  : list bool * gmap string fields :=
  match ps with
  | [] => ([], values)
  | p :: ps =>
      let '(b, v1) := publish_in_memory p values in
      let '(bs, v2) := publish_all_in_memory ps v1 in (b :: bs, v2)
  end.

(** ** The two registries answer alike *)

(** The fields that name the committed output. *)
Definition committed : list string := ["exists"; "query_id"; "attempt_id"; "manifest_uri"].

(** Same keys, same committed output under each. *)
Definition alike `{Valkey store} (values : gmap string fields) (s : store) : Prop :=
  forall key,
    (values !! key = None <-> hgetall s key = ∅)
    /\ (forall f, f ∈ committed -> default ∅ (values !! key) !! f = hgetall s key !! f)
    /\ (forall current, values !! key = Some current -> current !! "exists" = Some "1").

(** ** Fields of an updated hash *)

(** What HSET leaves of a field: the last value written, or the old one. *)
Fixpoint written (f : string) (fvs : list (string * string)) (old : option string)
  : option string :=
  match fvs with
  | [] => old
  | (g, v) :: fvs => written f fvs (if decide (g = f) then Some v else old)
  end.

Lemma hset_fields_lookup f fvs (h : fields) : hset_fields fvs h !! f = written f fvs (h !! f).
Proof.
  revert h. induction fvs as [|[g v] fvs IH]; intros h; [done|].
  cbn [written]. rewrite <- lookup_insert. apply IH.
Qed.

Section registries.
Context {store : Type} `{ValkeyLaws store}.
Implicit Types (values : gmap string fields) (s : store).

Lemma exists_nonempty (h : fields) : h !! "exists" = Some "1" -> h <> ∅.
Proof. intros Hh ->. by rewrite lookup_empty in Hh. Qed.

(** Writing one key on both sides. *)
Lemma alike_insert values s key (h : fields) fvs :
  alike values s -> h !! "exists" = Some "1" ->
  (forall f, f ∈ committed -> h !! f = written f fvs (hgetall s key !! f)) ->
  alike (<[key := h]> values) (hset key fvs s).
Proof.
  intros Ha Hh Hf k. rewrite hset_hash, lookup_insert.
  case_decide as Hk; [|apply Ha].
  split; [|split].
  - split; [done|]. intros E. exfalso. apply (exists_nonempty (hset_fields fvs (hgetall s key)));
      [|done]. rewrite hset_fields_lookup, <- Hf by (by left). exact Hh.
  - intros f Hc. cbn [default from_option]. rewrite hset_fields_lookup. by apply Hf.
  - by intros current [= <-].
Qed.

(** One publication with a query id: the answers agree, and the states stay alike. *)
Lemma publish_alike p values s :
  p_query_id p <> "" -> alike values s ->
  exists s', publish_on_valkey p s = (Some (publish_in_memory p values).1, s')
    /\ alike (publish_in_memory p values).2 s'.
Proof.
  intros Hq Ha. unfold publish_on_valkey, registry_script, publish_in_memory.
  destruct (Ha (p_key p)) as (Hnone & Hfields & Hexists).
  destruct (decide (p_mode p = "append")) as [Hm|Hm].
  - unfold s_bind, HSET, s_write, s_ret. eexists. split; [reflexivity|]. cbn [snd].
    set (cur := default (hset_fields [("exists", "1")] ∅) (values !! p_key p)).
    assert (Hcur : cur !! "exists" = Some "1").
    { unfold cur. destruct (values !! p_key p) eqn:E; [by apply Hexists|done]. }
    assert (Hold : forall f, f ∈ committed -> f <> "exists" -> cur !! f = hgetall s (p_key p) !! f).
    { intros f Hf Hne. rewrite <- Hfields by done. unfold cur.
      destruct (values !! p_key p); [done|]. cbn. by rewrite lookup_insert_ne, lookup_empty. }
    apply alike_insert; [done| |].
    + by rewrite hset_fields_lookup, <- Hcur.
    + intros f Hf. rewrite hset_fields_lookup. unfold committed in Hf.
      repeat (apply elem_of_cons in Hf as [->|Hf];
              [cbn -[lookup]; first [done | apply Hold; [set_solver|done]]|]).
      by apply not_elem_of_nil in Hf.
  - unfold HGET, HSET, s_bind, s_read, s_write, s_ret, hget, key_exists.
    assert (Etaken : bool_decide (p_mode p = "error") && match values !! p_key p with
        | Some current => bool_decide (current !! "query_id" <> Some (p_query_id p))
        | None => false
        end = bool_decide (p_mode p = "error" /\ bool_decide (hgetall s (p_key p) <> ∅) = true
               /\ default "" (hgetall s (p_key p) !! "query_id") <> p_query_id p)).
    { rewrite <- (Hfields "query_id") by set_solver.
      destruct (decide (p_mode p = "error")) as [He|He].
      2: { rewrite !bool_decide_false; [done|by intros []|done]. }
      rewrite (bool_decide_true (p_mode p = "error")) by done. simpl.
      destruct (values !! p_key p) as [current|] eqn:E; cbn.
      - apply bool_decide_ext. rewrite bool_decide_eq_true. split.
        + intros Hne. split; [done|]. split; [intros E'; by apply Hnone in E'|].
          destruct (current !! "query_id"); cbn; congruence.
        + intros (_ & _ & Hne) E'. rewrite E' in Hne. done.
      - rewrite bool_decide_false; [done|]. intros (_ & Hne & _).
        apply bool_decide_eq_true in Hne. apply Hne. by apply Hnone. }
    rewrite Etaken. cbn beta iota.
    match goal with |- context [decide ?P] => destruct (decide P) as [Hd|Hd] end; cbn beta iota.
    + rewrite (bool_decide_true _ Hd). eexists. split; [reflexivity|done].
    + rewrite (bool_decide_false _ Hd). eexists. split; [reflexivity|]. cbn [fst snd].
      apply alike_insert; [done|done|]. intros f Hf. unfold committed in Hf.
      repeat (apply elem_of_cons in Hf as [->|Hf]; [done|]). by apply not_elem_of_nil in Hf.
Qed.
End registries.
