(* ===== verification/StorageTheorems.v ===== *)
(** * What the storage registry and the publication registries promise

    A destination lies under its location's root, in a supported scheme, without
    parent-directory segments; two destinations under one publication key are one
    URI.  The registries in memory and on Valkey answer alike, the first query
    keeps a destination in "error" mode, and the queue's publish script is the
    Valkey registry behind the worker's lease. *)

From Stdlib Require Import Ascii.
From stdpp Require Import base.
From S2P Require Import Prelude Valkey Models QueueState QueueScripts QueueRefine QueueTrace.
From S2P Require Import QueueTheorems Fingerprint Storage Publication.

#[local] Open Scope Z_scope.

(** ** Texts *)

Lemma split_on_nonempty c s : split_on c s <> [].
Proof. destruct s; cbn; [done|]. case_decide; [done|]. by case_match. Qed.

(** Stripping at the end only removes empty segments. *)
Lemma split_rstrip c s :
  exists l, split_on c s = split_on c (rstrip c s) ++ l /\ Forall (.= "") l.
Proof.
  induction s as [|d s (l & E & Hl)]; [by exists []|].
  cbn. rewrite E. destruct (rstrip c s) as [|e r].
  - cbn. destruct (decide (d = c)); cbn; [by exists ("" :: l); split; [|constructor]|].
    rewrite decide_False by done. by exists l.
  - exists l. split; [|done]. remember (String e r) as t. cbn. destruct (decide (d = c)); [done|].
    destruct (split_on c t) eqn:Et; [by apply split_on_nonempty in Et|done].
Qed.

Lemma split_on_rstrip c s w : w <> "" -> w ∈ split_on c (rstrip c s) -> w ∈ split_on c s.
Proof.
  intros Hw Hin. destruct (split_rstrip c s) as (l & -> & _). set_solver.
Qed.

Lemma lstrip_id c s : starts_with (String c "") s = false -> lstrip c s = s.
Proof.
  destruct s as [|d s]; [done|]. cbn. destruct (Ascii.ascii_dec c d) as [->|Hne].
  - by destruct s.
  - rewrite decide_False by congruence. done.
Qed.

Lemma rstrip_idemp c s : rstrip c (rstrip c s) = rstrip c s.
Proof.
  induction s as [|d s IH]; [done|]. cbn. destruct (rstrip c s) as [|e r] eqn:E.
  - case_decide as Hd; [done|]. cbn. by rewrite decide_False.
  - remember (String e r) as t. cbn. rewrite IH. by subst t.
Qed.

Lemma starts_with_rstrip c a s : starts_with (String a "") s = false ->
  starts_with (String a "") (rstrip c s) = false.
Proof.
  destruct s as [|d s]; [done|]. cbn. intros Hs.
  assert (a <> d) as Hne. { intros ->. destruct (Ascii.ascii_dec d d); [by destruct s|done]. }
  destruct (rstrip c s); [case_decide; [done|]|]; cbn; by destruct (Ascii.ascii_dec a d).
Qed.

Lemma before_app c s t p : before c s = Some p -> before c (s +:+ t) = Some p.
Proof.
  revert p. induction s as [|a s IH]; intros p; [done|]. rewrite string_app_cons. cbn.
  case_decide; [done|]. destruct (before c s) as [q|]; [|done]. intros [= <-].
  by rewrite (IH q).
Qed.

Lemma drop_breaks_app s t : drop_breaks (s +:+ t) = drop_breaks s +:+ drop_breaks t.
Proof.
  induction s as [|a s IH]; [done|]. rewrite string_app_cons. cbn.
  destruct (_ || _)%bool; [done|]. by rewrite IH.
Qed.

Lemma strip_controls_app s t :
  strip_controls s <> "" -> strip_controls (s +:+ t) = strip_controls s +:+ t.
Proof.
  induction s as [|a s IH]; [done|]. rewrite string_app_cons.
  cbn [strip_controls]. by destruct (_ <=? _)%nat.
Qed.

(** The scheme of a URL is decided before its first colon. *)
Lemma url_scheme_app s t : url_scheme s <> "" -> url_scheme (s +:+ t) = url_scheme s.
Proof.
  unfold url_scheme. intros Hs.
  destruct (decide (strip_controls s = "")) as [E|E]; [by rewrite E in Hs|].
  rewrite strip_controls_app, drop_breaks_app by done.
  destruct (before ":"%char (drop_breaks (strip_controls s))) as [p|] eqn:Ep; [|done].
  by rewrite (before_app _ _ _ _ Ep).
Qed.

(** ** Roots *)

Lemma validated_root_ok name uri root :
  _validated_root name uri = Ok root ->
  url_scheme root ∈ supported_schemes /\ rstrip slash root = root.
Proof.
  unfold _validated_root. case_bool_decide as Hs; [|done]. intros [= <-].
  split; [done|apply rstrip_idemp].
Qed.

Lemma validated_roots_ok ls roots name root :
  validated_roots ls = Ok roots -> (name, root) ∈ roots ->
  url_scheme root ∈ supported_schemes /\ rstrip slash root = root.
Proof.
  revert roots. induction ls as [|[n uri] ls IH]; intros roots; cbn.
  - intros [= <-]. by intros ?%not_elem_of_nil.
  - destruct (_validated_root n uri) as [r|] eqn:Er; [|done]. cbn.
    destruct (validated_roots ls) as [rs|]; [|done]. intros [= <-].
    intros [[= -> ->]|Hin]%elem_of_cons; [by eapply validated_root_ok|by eapply IH].
Qed.

(** What [_clean] lets through. *)
Lemma clean_ok path clean :
  _clean path = Ok clean ->
  clean <> "" /\ starts_with "/" clean = false /\ ".." ∉ split_on slash clean.
Proof.
  unfold _clean, path_escapes. destruct (starts_with "/" path) eqn:Es; [done|]. cbn.
  case_bool_decide as Hd; [done|]. case_decide as He; [done|]. intros [= <-].
  unfold strip in *. rewrite (lstrip_id slash path) in * by done. split; [done|]. split.
  - by apply starts_with_rstrip.
  - intros Hin. apply Hd. by eapply split_on_rstrip.
Qed.

(** The registry's own roots are validated ones, the data root aside. *)
Definition sound_root (root : string) : Prop :=
  url_scheme root ∈ supported_schemes /\ rstrip slash root = root.

Section made.
Context (ls : list (string * string)) (md : option (gmap string string))
  (srcs : list (string * string)) (data_root : option string) (prefix : string)
  (r : StorageRegistry) (Hr : make_registry ls md srcs data_root prefix = Ok r)
  (Hdata : forall uri, data_root = Some uri -> sound_root uri).

Lemma made_root location root src : _root r location = Ok (root, src) -> sound_root root.
Proof using Hr.
  unfold make_registry in Hr. destruct (validated_roots ls) as [configured|] eqn:Ec; [|done].
  cbn in Hr. destruct (validated_roots srcs) as [sources|]; [|done]. injection Hr as <-.
  unfold _root. cbn. destruct (list_to_map configured !! location) as [x|] eqn:El.
  - intros [= <- <-]. apply elem_of_list_to_map_2 in El. by eapply validated_roots_ok.
  - destruct (md ≫= _) as [value|]; [|done]. cbn.
    destruct (_validated_root location value) as [x|] eqn:Ev; [|done].
    intros [= <- <-]. by eapply validated_root_ok.
Qed.

Lemma made_source name root : sr_sources r !! name = Some root -> sound_root root.
Proof using Hr Hdata.
  unfold make_registry in Hr. destruct (validated_roots ls) as [configured|]; [|done].
  cbn in Hr. destruct (validated_roots srcs) as [sources|] eqn:Es; [|done].
  injection Hr as <-. cbn.
  assert (Hs : forall n x, (list_to_map sources : gmap string string) !! n = Some x -> sound_root x).
  { intros n x Hx%elem_of_list_to_map_2. by eapply validated_roots_ok. }
  destruct data_root as [uri|]; [|by apply Hs].
  destruct (list_to_map sources !! "local") eqn:El; [by apply Hs|].
  rewrite lookup_insert. case_decide; [|by apply Hs]. intros [= <-]. by apply Hdata.
Qed.
End made.

(** Everything a resolved destination promises. *)
Definition confined (d : ResolvedDestination) : Prop :=
  exists root, sound_root root /\ rd_uri d = root +:+ "/" +:+ rd_path d
    /\ url_scheme (rd_uri d) ∈ supported_schemes
    /\ rd_path d <> "" /\ starts_with "/" (rd_path d) = false
    /\ ".." ∉ split_on slash (rd_path d).

Lemma confine root location path clean :
  sound_root root -> _clean path = Ok clean ->
  confined (Destination location clean (root +:+ "/" +:+ clean)).
Proof.
  intros Hroot (? & ? & ?)%clean_ok. exists root. cbn. split_and!; try done.
  destruct Hroot as [Hs _]. rewrite url_scheme_app; [done|].
  intros E. rewrite E in Hs. unfold supported_schemes in Hs. set_solver.
Qed.

(** C18: whatever relative path and location a caller gives, a resolved output or
    source lies below a validated root: its URI is the root, a slash and a
    non-empty relative path with no ".." segment, and its scheme is a supported
    one (a local data root is assumed to be a file URI, as [Path.as_uri] gives). *)
Theorem resolved_paths_are_confined ls md srcs data_root prefix r :
  make_registry ls md srcs data_root prefix = Ok r ->
  (forall uri, data_root = Some uri -> sound_root uri) ->
  (forall location path d, resolve r location path = Ok d ->
     rd_location d = location /\ confined d)
  /\ (forall location path d, resolve_source r location path = Ok d -> confined d).
Proof.
  intros Hr Hdata. split.
  - intros location path d. unfold resolve.
    destruct (_root r location) as [[root src]|] eqn:Eroot; [|done]. cbn.
    destruct (_clean path) as [clean|] eqn:Ec; [|done]. intros [= <-]. split; [done|].
    apply (confine root location path); [by eapply made_root|done].
  - intros location path d. unfold resolve_source.
    set (name := match location with None | Some "" => "local" | Some n => n end).
    destruct (sr_sources r !! name) as [root|] eqn:Es; cbn.
    + destruct (_clean path) as [clean|] eqn:Ec; [|done]. intros [= <-].
      apply (confine root name path); [by eapply made_source|done].
    + destruct location; [|done]. destruct (_root r name) as [[root src]|] eqn:Eroot; [|done].
      cbn. destruct (_clean path) as [clean|] eqn:Ec; [|done]. intros [= <-].
      apply (confine root name path); [by eapply made_root|done].
Qed.

(** ** Publication keys *)

Fixpoint has_nul (s : string) : bool :=
  match s with EmptyString => false | String a s => (nat_of_ascii a =? 0)%nat || has_nul s end.

Lemma nul_separates s1 s2 t1 t2 :
  has_nul s1 = false -> has_nul s2 = false ->
  s1 +:+ nul +:+ t1 = s2 +:+ nul +:+ t2 -> s1 = s2 /\ t1 = t2.
Proof.
  unfold nul. revert s2. induction s1 as [|a s1 IH]; intros [|b s2];
    rewrite ?string_app_cons, ?string_app_nil; cbn [has_nul]; intros Ha Hb.
  - by intros [= ->].
  - by intros [= <- _].
  - by intros [= -> _].
  - intros [= -> E]. apply orb_false_iff in Ha as [_ Ha], Hb as [_ Hb].
    destruct (IH s2 Ha Hb E) as [-> ->]. done.
Qed.

Definition collision `{Sha256} : Prop := exists x y, x <> y /\ sha256_hex x = sha256_hex y.

Lemma same_publication_key `{Sha256} r d1 d2 :
  has_nul (rd_location d1) = false -> has_nul (rd_location d2) = false ->
  publication_key r d1 = publication_key r d2 ->
  (rd_location d1 = rd_location d2 /\ rd_path d1 = rd_path d2) \/ collision.
Proof.
  intros H1 H2 E. unfold publication_key in E.
  apply (inj (String.append _)) in E. apply (inj (String.append _)) in E.
  destruct (decide (rd_location d1 +:+ nul +:+ rd_path d1
                    = rd_location d2 +:+ nul +:+ rd_path d2)) as [Ee|Ee].
  - left. by apply nul_separates in Ee.
  - right. by eexists _, _.
Qed.

(** two resolved destinations that share a publication key are one location,
    one path and one URI, unless the digest collides: two outputs never compete
    for one record.  Location names are assumed to hold no NUL. *)
Theorem one_publication_key_one_uri `{Sha256} r l1 p1 d1 l2 p2 d2 :
  resolve r l1 p1 = Ok d1 -> resolve r l2 p2 = Ok d2 ->
  has_nul l1 = false -> has_nul l2 = false ->
  publication_key r d1 = publication_key r d2 -> d1 = d2 \/ collision.
Proof.
  unfold resolve. intros R1 R2 H1 H2.
  destruct (_root r l1) as [[root1 s1]|] eqn:E1; [|done]; cbn in R1.
  destruct (_clean p1) as [c1|] eqn:C1; [|done]; cbn in R1. injection R1 as <-.
  destruct (_root r l2) as [[root2 s2]|] eqn:E2; [|done]; cbn in R2.
  destruct (_clean p2) as [c2|] eqn:C2; [|done]; cbn in R2. injection R2 as <-.
  intros E. apply same_publication_key in E as [[E Ec]|?]; [left|by right|done|done].
  cbn in E, Ec. subst. rewrite E1 in E2. by injection E2 as <- <-.
Qed.

(** ** The registries *)

(** The fields an in-memory publication leaves where Valkey answered the same. *)
Section agree.
Context {store : Type} `{ValkeyLaws store}.

(** C19: on every sequence of publications that name their query, the registry in
    memory and the Valkey script give the same answers and end with the same
    committed output (exists, query, attempt, manifest) under every key. *)
Theorem registries_agree ps (values : gmap string fields) (s : store) :
  Forall (fun p => p_query_id p <> "") ps -> alike values s ->
  (publish_all_on_valkey ps s).1 = map Some (publish_all_in_memory ps values).1
  /\ alike (publish_all_in_memory ps values).2 (publish_all_on_valkey ps s).2.
Proof.
  intros Hq. revert values s. induction Hq as [|p ps Hp _ IH]; intros values s Ha; [done|].
  cbn. destruct (publish_alike p values s Hp Ha) as (s' & -> & Ha').
  destruct (publish_in_memory p values) as [b v1]. cbn in *.
  destruct (IH _ _ Ha') as [IHb IHs].
  destruct (publish_all_on_valkey ps s') as [bs s2], (publish_all_in_memory ps v1) as [cs v2].
  cbn in *. by subst.
Qed.

(** while a worker holds a job in its current attempt, with a live lease and
    no cancellation, the queue's publish script is the Valkey registry's script
    under the job's id; in any other case it answers -1 and writes nothing. *)
Theorem queue_publishes_as_the_registry c (s : store) q id key w attempt mode attempt_id uri now :
  refines c s q ->
  publish_script (job_key c id) key w (str_of_Z attempt) mode id attempt_id uri (str_of_Z now) s
  = match jobs q !! id with
    | Some j =>
        if owned j w now && (j_attempts j =? attempt) && negb (j_cancel j)
        then registry_script key mode id attempt_id uri (str_of_Z now) s
        else (Some (-1), s)
    | None => (Some (-1), s)
    end.
Proof. exact (publish_guard c s q key w attempt mode id attempt_id uri now). Qed.
End agree.

(** A record that names query [q], as a non-appending publication leaves it. *)
Definition holds_output (k q : string) (values : gmap string fields) : Prop :=
  exists current, values !! k = Some current /\ current !! "query_id" = Some q.

(** Publications that respect the first writer of [k]: others only try "error"
    mode or append. *)
Definition respectful (k q : string) (p : publication) : Prop :=
  p_key p = k -> p_query_id p <> q -> p_mode p = "error" \/ p_mode p = "append".

Definition refused_or_own (k q : string) (p : publication) (b : bool) : Prop :=
  p_key p = k -> p_mode p = "error" -> b = bool_decide (p_query_id p = q).

Lemma publish_keeps k q p values :
  holds_output k q values -> respectful k q p ->
  refused_or_own k q p (publish_in_memory p values).1
  /\ holds_output k q (publish_in_memory p values).2.
Proof.
  intros (current & Hk & Hq) Hr. unfold refused_or_own, holds_output, publish_in_memory.
  destruct (decide (p_mode p = "append")) as [Hm|Hm]; cbn [fst snd].
  { split; [by rewrite Hm|]. rewrite lookup_insert. case_decide as Ek; [|by exists current].
    rewrite Ek, Hk. eexists. split; [done|]. by rewrite hset_fields_lookup. }
  destruct (decide (p_key p = k)) as [Ek|Ek].
  2: { split; [done|]. exists current. destruct (_ && _)%bool; [done|]. cbn [snd].
       by rewrite lookup_insert_ne. }
  rewrite Ek, Hk. destruct (decide (p_query_id p = q)) as [Eq|Eq].
  - rewrite (bool_decide_false (current !! "query_id" <> _)) by (rewrite Hq, Eq; by intros []).
    rewrite andb_false_r. cbn [fst snd]. split; [by rewrite bool_decide_true|].
    rewrite lookup_insert_eq. eexists. split; [done|]. rewrite hset_fields_lookup. by rewrite Eq.
  - rewrite (bool_decide_true (current !! "query_id" <> _)) by (rewrite Hq; congruence).
    rewrite andb_true_r. destruct (Hr Ek Eq) as [He|]; [|done].
    rewrite (bool_decide_true (p_mode p = "error")) by done. cbn [fst snd].
    split; [by rewrite bool_decide_false|by exists current].
Qed.

(** once a query's output stands at a destination, every later publication
    there in "error" mode by another query is refused, one by the same query (a
    retried attempt) is accepted, and the record still names the first query, as
    long as nobody overwrites the destination. *)
Theorem first_query_keeps_destination k q ps values :
  holds_output k q values -> Forall (respectful k q) ps ->
  Forall2 (refused_or_own k q) ps (publish_all_in_memory ps values).1
  /\ holds_output k q (publish_all_in_memory ps values).2.
Proof.
  intros Hv Hps. revert values Hv. induction Hps as [|p ps Hp _ IH]; intros values Hv; [done|].
  cbn. destruct (publish_keeps k q p values Hv Hp) as [Hb Hv'].
  destruct (publish_in_memory p values) as [b v1]. cbn in *.
  destruct (IH v1 Hv') as [Hbs Hv2]. destruct (publish_all_in_memory ps v1) as [bs v2].
  split; [by constructor|done].
Qed.

(** The registries part ways on the fields of an earlier append: an overwrite in
    memory replaces the record, HSET keeps the fields it does not name. *)
Example overwrite_forgets_last_append :
  let ps := [Pub "k" "q1" "a1" "m1" "append" 1; Pub "k" "q2" "a2" "m2" "overwrite" 2] in
  ((publish_all_in_memory ps ∅).2 !! "k") ≫= (.!! "last_append_query_id") = None
  /\ hgetall (publish_all_on_valkey ps Mem.empty).2 "k" !! "last_append_query_id" = Some "q1".
Proof. vm_compute. done. Qed.

(** ** Witnesses *)

Module StorageDemo.
#[local] Instance sha : Sha256 := {| sha256_hex s := s; sha256_head _ := 0 |}.

Definition registry : StorageRegistry :=
  Registry {["out" := "s3a://bucket/out"]} {["local" := "file:///data"]} None "p".

Lemma registry_made :
  make_registry [("out", "s3://bucket/out/")] None [] (Some "file:///data") "p:" = Ok registry.
Proof. vm_compute. done. Defined.

Lemma alike_empty : alike ∅ Mem.empty.
Proof.
  intros k. rewrite lookup_empty. split_and!; [done| |done]. intros f _. cbn.
  unfold Mem.m_hash. cbn. by rewrite lookup_empty.
Qed.

Definition publications : list publication :=
  [Pub "k" "q1" "a1" "m1" "error" 1; Pub "k" "q2" "a2" "m2" "error" 2;
   Pub "k" "q1" "a3" "m3" "error" 3; Pub "k" "q3" "a4" "m4" "append" 4].
End StorageDemo.

Lemma resolved_paths_are_confined_witness :
  confined (Destination "out" "a/b" "s3a://bucket/out/a/b")
  /\ confined (Destination "local" "x.csv" "file:///data/x.csv").
Proof.
  assert (Hdata : forall uri, Some "file:///data" = Some uri -> sound_root uri).
  { intros uri [= <-]. split; vm_compute; [by left|done]. }
  destruct (resolved_paths_are_confined _ _ _ _ _ _ StorageDemo.registry_made Hdata) as [H1 H2].
  split; [apply (H1 "out" "a/b//")|apply (H2 None "x.csv")]; by vm_compute.
Defined.

Lemma one_publication_key_one_uri_witness (H := StorageDemo.sha) :
  Destination "out" "a" "s3a://bucket/out/a" = Destination "out" "a" "s3a://bucket/out/a"
  \/ collision.
Proof.
  apply (one_publication_key_one_uri StorageDemo.registry "out" "a" _ "out" "a/" _);
    by vm_compute.
Defined.

Lemma registries_agree_witness :
  (publish_all_on_valkey StorageDemo.publications Mem.empty).1
  = [Some true; Some false; Some true; Some true].
Proof.
  destruct (registries_agree StorageDemo.publications ∅ Mem.empty) as [E _];
    [repeat constructor; done|apply StorageDemo.alike_empty|]. rewrite E. by vm_compute.
Defined.

Lemma queue_publishes_as_the_registry_witness (c := Demo.cfg) :
  exists s : Mem.mem, (publish_script (job_key c "a") "out" "w1" (str_of_Z 1) "error" "a" "x" "m" (str_of_Z 2000) s).1
            = (registry_script "out" "error" "a" "x" "m" (str_of_Z 2000) s).1 /\ s <> Mem.empty.
Proof.
  destruct (trace_refines c Demo.cfg_ok Demo.started Mem.empty empty_queue
              (blank_refines c Mem.empty blank_mem) Demo.started_legal) as (s & E & R).
  exists s. split; [|intros ->; vm_compute in E; discriminate E].
  rewrite (queue_publishes_as_the_registry c s _ "a" "out" "w1" 1 "error" "x" "m" 2000 R).
  by vm_compute (jobs _ !! _).
Defined.

Lemma first_query_keeps_destination_witness :
  Forall2 (refused_or_own "k" "q1") (tail StorageDemo.publications) [false; true; true].
Proof.
  destruct (first_query_keeps_destination "k" "q1" (tail StorageDemo.publications)
    {["k" := {["query_id" := "q1"]}]}) as [F _].
  - eexists. split; by rewrite lookup_singleton_eq.
  - repeat constructor; cbn; auto; done.
  - vm_compute in F. vm_compute. exact F.
Defined.
