(* ===== verification/ResultCache.v ===== *)
(** * The result cache

    src/src/dalmatian/cache.py: the cache protocol and its three
    implementations, with no storage ([NullCache]), in memory ([MemoryCache]) and
    on Valkey ([ValkeyResultCache]).  A cache keeps inline results under
    fingerprints and hands out one lock per fingerprint, so that equivalent
    queries run once.  [uuid4().hex] is an argument of [acquire]; zlib and the
    JSON codec of a result are a parameter ([CacheCodec]); a codec's law says
    that it decodes what it encoded.  [wait] polls a clock: its loop takes fuel,
    and [wait_fuel] turns are always enough (CacheTheorems.v). *)

From Stdlib Require Import QArith Qround.
From S2P Require Import Prelude Valkey Models Prog.

#[local] Open Scope Z_scope.

(** ** The protocol *)

Class ResultCache (V S : Type) := {
  cache_get : string -> S -> option V * S;
  cache_set : string -> V -> Z -> S -> bool * S;
  (* the token is the uuid the call draws *)
  cache_acquire : string -> Z -> string -> S -> option string * S;
  cache_release : string -> string -> S -> S;
}.

(** ** No cache *)

#[export] Instance null_cache {V} : ResultCache V unit := {
  cache_get _ s := (None, s);
  cache_set _ _ _ s := (false, s);
  cache_acquire _ _ token s := (Some token, s);
  cache_release _ _ s := s;
}.

(** ** In memory *)

Record memory_cache (V : Type) := MemoryCache {
  mc_values : gmap string V;
  mc_locks : gset string;
}.
Arguments MemoryCache {V} _ _.
Arguments mc_values {V} _.
Arguments mc_locks {V} _.

#[export] Instance in_memory_cache {V} : ResultCache V (memory_cache V) := {
  cache_get key s := (mc_values s !! key, s);
  cache_set key v _ s := (true, MemoryCache (<[key := v]> (mc_values s)) (mc_locks s));
  cache_acquire key _ _ s :=
    if decide (key ∈ mc_locks s) then (None, s)
    else (Some key, MemoryCache (mc_values s) ({[key]} ∪ mc_locks s));
  cache_release key _ s := MemoryCache (mc_values s) (mc_locks s ∖ {[key]});
}.

(** ** On Valkey *)

(** [zlib.compress(value.model_dump_json().encode(), level=3)], and
    [model_validate_json(zlib.decompress(raw))] with nothing for an exception. *)
Class CacheCodec (V : Type) := {
  pack : V -> string;
  unpack : string -> option V;
}.

Class CacheCodecLaws (V : Type) `{CacheCodec V} : Prop :=
  unpack_pack (v : V) : unpack (pack v) = Some v.

Record cache_cfg := CacheCfg { cache_prefix : string; cache_max_bytes : Z }.

Section on_valkey.
Context {V store : Type} `{CacheCodec V} `{Valkey store} (c : cache_cfg).

Definition _key (key : string) : string := cache_prefix c +:+ ":" +:+ key.

Definition _lock_key (key : string) : string := cache_prefix c +:+ ":lock:" +:+ key.

(** An entry that does not decode is deleted and counts as absent. *)
Definition get (key : string) (s : store) : option V * store :=
  match sget s (_key key) with
  | None => (None, s)
  | Some raw =>
      match unpack raw with
      | Some v => (Some v, s)
      | None => (None, del (_key key) s)
      end
  end.

Definition set (key : string) (value : V) (ttl_seconds : Z) (s : store) : bool * store :=
  if ttl_seconds <=? 0 then (false, s)
  else
    let raw := pack value in
    if cache_max_bytes c <? Z.of_nat (String.length raw) then (false, s)
    else (true, setex (_key key) ttl_seconds raw s).

Definition acquire (key : string) (ttl_seconds : Z) (token : string) (s : store)
  : option string * store :=
  let '(acquired, s) := set_nx_ex (_lock_key key) token ttl_seconds s in
  (if acquired then Some token else None, s).

(** The release script: delete the lock only if it still holds our token. *)
Definition release_script (lock token : string) (s : store) : Z * store :=
  if decide (sget s lock = Some token) then (1, del lock s) else (0, s).

Definition release (key token : string) (s : store) : store :=
  (release_script (_lock_key key) token s).2.

Definition valkey_result_cache : ResultCache V store := {|
  cache_get := get; cache_set := set; cache_acquire := acquire; cache_release := release
|}.
End on_valkey.

(** ** Waiting for another caller's result *)

Inductive cop (V : Type) : Type -> Type :=
| Monotonic : cop V Q
| Sleep (seconds : Q) : cop V unit
| Lookup (key : string) : cop V (option V).
Arguments Monotonic {V}.
Arguments Sleep {V} seconds.
Arguments Lookup {V} key.

Section waiting.
Context {V : Type}.
Local Open Scope prog_scope.

(** The polling loop; [None] when the fuel runs out first. *)
Fixpoint poll (fuel : nat) (key : string) (deadline delay : Q) (next_delay : Q -> Q)
  : prog (cop V) (option (option V)) :=
  match fuel with
  | O => Ret None
  | S fuel =>
      now <- perform Monotonic;;
      if Qle_bool deadline now then Ret (Some None)
      else
        value <- perform (Lookup key);;
        match value with
        | Some v => Ret (Some (Some v))
        | None =>
            perform (Sleep delay);;
            poll fuel key deadline (next_delay delay) next_delay
        end
  end.

Definition wait_with (fuel : nat) (delay : Q) (next_delay : Q -> Q) (key : string)
    (timeout_seconds : Q) : prog (cop V) (option (option V)) :=
  now <- perform Monotonic;;
  poll fuel key (now + timeout_seconds) delay next_delay.

(** [MemoryCache.wait] sleeps 5 ms, [ValkeyResultCache.wait] 10 ms and then half
    as much again, up to a quarter of a second. *)
Definition memory_wait (fuel : nat) := wait_with fuel (5 # 1000) (fun d => d).

Definition slower (d : Q) : Q :=
  let d := Qmult d (3 # 2) in if Qle_bool d (1 # 4) then d else (1 # 4).

Definition valkey_wait (fuel : nat) := wait_with fuel (1 # 100) slower.

(** Turns after which the deadline has passed, at the given first delay. *)
Definition wait_fuel (delay timeout_seconds : Q) : nat :=
  (2 + Z.to_nat (Qceiling (timeout_seconds / delay)))%nat.
End waiting.
