(* ===== verification/CacheTheorems.v ===== *)
(** * What the result cache promises

    Any number of clients use the Valkey cache, and keys expire: a lock is
    exclusive until its own holder releases it or it expires, whatever stale
    holders release; an answer is a value somebody stored under that key, within
    the size limit; a waiting caller always stops waiting. *)

From Stdlib Require Import QArith Qround Lqa.
From S2P Require Import Prelude Valkey Models Prog ResultCache.

#[local] Open Scope Z_scope.

(** ** The clients' calls *)

Inductive cache_event (V : Type) :=
| EGet (key : string)
| ESet (key : string) (v : V) (ttl : Z)
| EAcquire (key : string) (ttl : Z) (token : string)
| ERelease (key token : string)
| EExpire (raw_key : string).
Arguments EGet {V} key.
Arguments ESet {V} key v ttl.
Arguments EAcquire {V} key ttl token.
Arguments ERelease {V} key token.
Arguments EExpire {V} raw_key.

(** Cache keys are hexadecimal digests; one that looked like "lock:..." would be
    another key's lock. *)
Definition plain (key : string) : Prop := starts_with "lock:" key = false.

Definition cache_event_ok {V} (e : cache_event V) : Prop :=
  match e with
  | EGet key | ESet key _ _ => plain key
  | EAcquire _ ttl _ => 0 < ttl
  | _ => True
  end.

Section traces.
Context {V store : Type} `{CacheCodecLaws V} `{ValkeyLaws store} (c : cache_cfg).
Implicit Types (s : store).

(** The reply of an acquire; nothing for the other events. *)
Definition cache_event_step (e : cache_event V) (s : store) : option (option string) * store :=
  match e with
  | EGet key => (None, (get (V := V) c key s).2)
  | ESet key v ttl => (None, (set c key v ttl s).2)
  | EAcquire key ttl token => let '(r, s) := acquire c key ttl token s in (Some r, s)
  | ERelease key token => (None, release c key token s)
  | EExpire k => (None, del k s)
  end.

Fixpoint cache_trace (es : list (cache_event V)) (s : store)
  : list (option (option string)) * store :=
  match es with
  | [] => ([], s)
  | e :: es => let '(r, s1) := cache_event_step e s in
               let '(rs, s2) := cache_trace es s1 in (r :: rs, s2)
  end.

(** ** Keys *)

Lemma lock_key_inj k1 k2 : _lock_key c k1 = _lock_key c k2 -> k1 = k2.
Proof using. clear. unfold _lock_key. intros E. by do 2 apply (inj (String.append _)) in E. Qed.

Lemma cache_key_inj k1 k2 : _key c k1 = _key c k2 -> k1 = k2.
Proof using. clear. unfold _key. intros E. by do 2 apply (inj (String.append _)) in E. Qed.

Lemma key_not_lock k1 k2 : plain k1 -> _key c k1 <> _lock_key c k2.
Proof using.
  clear. unfold _key, _lock_key, plain. intros Hp E. apply (inj (String.append _)) in E.
  change (":lock:" +:+ k2) with (":" +:+ ("lock:" +:+ k2)) in E.
  apply (inj (String.append _)) in E. subst. by rewrite starts_with_app in Hp.
Qed.

(** ** What an event does to one string key *)

(** Whether an event may change or remove the value under a raw key. *)
Definition spares (k : string) (s : store) (e : cache_event V) : Prop :=
  match e with
  | EGet key => _key c key <> k \/ unpack (V := V) (default "" (sget s k)) <> None
  | ESet key _ _ => _key c key <> k
  | EAcquire key _ _ => _lock_key c key <> k \/ sget s k <> None
  | ERelease key token => _lock_key c key <> k \/ sget s k <> Some token
  | EExpire k' => k' <> k
  end.

Lemma spared_stays k e s :
  cache_event_ok e -> spares k s e -> sget (cache_event_step e s).2 k = sget s k.
Proof using All.
  destruct e as [key|key v ttl|key ttl token|key token|k']; cbn; intros Hok Hs.
  - unfold get. destruct (sget s (_key c key)) as [raw|] eqn:E; [|done].
    destruct (unpack raw) eqn:Eu; [done|]. cbn. rewrite del_string. case_decide as Hk; [|done].
    destruct Hs as [Hs|Hs]; [done|]. by rewrite <- Hk, E in Hs.
  - unfold set. destruct (Z.leb_spec ttl 0); [done|]. case_match; [done|]. cbn.
    rewrite setex_string by lia. by rewrite decide_False.
  - unfold acquire. destruct (sget s (_lock_key c key)) as [w|] eqn:E.
    + by rewrite (set_nx_ex_taken _ _ _ _ w) by done.
    + rewrite set_nx_ex_free by done. cbn. rewrite setex_string by done.
      case_decide as Hk; [|done]. destruct Hs as [Hs|Hs]; [done|]. by rewrite <- Hk, E in Hs.
  - unfold release, release_script. case_decide as Ht; [|done]. cbn. rewrite del_string.
    case_decide as Hk; [|done]. destruct Hs as [Hs|Hs]; [done|]. by rewrite <- Hk, Ht in Hs.
  - rewrite del_string. by rewrite decide_False.
Qed.

(** ** Locks *)

(** An event that leaves token [t]'s lock of [key] alone: anything but its own
    release and its expiry. *)
Definition keeps_lock (key t : string) (e : cache_event V) : Prop :=
  match e with
  | ERelease k t' => k <> key \/ t' <> t
  | EExpire k => k <> _lock_key c key
  | _ => True
  end.

Definition refused_acquire (key : string) (e : cache_event V) (r : option (option string)) : Prop :=
  match e with EAcquire k _ _ => k = key -> r = Some None | _ => True end.

Lemma keeps_spares key t e s :
  cache_event_ok e -> keeps_lock key t e -> sget s (_lock_key c key) = Some t ->
  spares (_lock_key c key) s e.
Proof using All.
  intros Hok Hk Ht. destruct e as [k|k v ttl|k ttl token|k token|k]; cbn in *.
  - left. by apply key_not_lock.
  - by apply key_not_lock.
  - right. by rewrite Ht.
  - destruct Hk as [Hk|Hk]; [left; by intros ?%lock_key_inj|right; congruence].
  - done.
Qed.

(** C21: while a caller holds the lock of a key, every other attempt to take it is
    refused and the lock stays the holder's, whatever calls any client makes, the
    release of a stale token included, until the holder releases it or it
    expires. *)
Theorem single_flight_lock_is_exclusive key t es s :
  Forall cache_event_ok es -> Forall (keeps_lock key t) es ->
  sget s (_lock_key c key) = Some t ->
  sget (cache_trace es s).2 (_lock_key c key) = Some t
  /\ Forall2 (refused_acquire key) es (cache_trace es s).1.
Proof using All.
  intros Hok Hk. revert s. induction Hk as [|e es He Hes IH]; intros s Ht; [done|].
  apply Forall_cons in Hok as [Hoke Hok]. cbn.
  pose proof (spared_stays _ e s Hoke (keeps_spares key t e s Hoke He Ht)) as Hstay.
  assert (Hr : refused_acquire key e (cache_event_step e s).1).
  { destruct e as [| |k ttl token| |]; try done. cbn. intros ->. unfold acquire.
    by rewrite (set_nx_ex_taken _ _ _ _ t). }
  destruct (cache_event_step e s) as [r s1]. cbn in *. rewrite Ht in Hstay.
  destruct (IH Hok s1 Hstay) as [Hend Hrs]. destruct (cache_trace es s1) as [rs s2].
  split; [done|by constructor].
Qed.

(** ** Answers *)

Definition stored_by (key : string) (v : V) (e : cache_event V) : Prop :=
  exists ttl, e = ESet key v ttl /\ 0 < ttl
              /\ Z.of_nat (String.length (pack v)) <= cache_max_bytes c.

(** A raw entry is a packed value somebody stored. *)
Definition entry_from (past : list (cache_event V)) (s : store) : Prop :=
  forall key raw, plain key -> sget s (_key c key) = Some raw ->
    exists v e, raw = pack v /\ e ∈ past /\ stored_by key v e.

Lemma entry_from_step past e s :
  cache_event_ok e -> entry_from past s -> entry_from (past ++ [e]) (cache_event_step e s).2.
Proof using All.
  intros Hok Hp key raw Hkey Hraw.
  assert (Hold : sget s (_key c key) = Some raw ->
                 exists v e', raw = pack v /\ e' ∈ past ++ [e] /\ stored_by key v e').
  { intros Hs. destruct (Hp key raw Hkey Hs) as (v & e' & ? & ? & ?). exists v, e'.
    split; [done|]. split; [set_solver|done]. }
  destruct e as [k|k v ttl|k ttl token|k token|k]; cbn in Hraw, Hok.
  - apply Hold. revert Hraw. unfold get. destruct (sget s (_key c k)); [|done].
    destruct (unpack s0); [done|]. cbn. rewrite del_string. by case_decide.
  - revert Hraw. unfold set. destruct (Z.leb_spec ttl 0); [apply Hold|].
    destruct (Z.ltb_spec (cache_max_bytes c) (Z.of_nat (String.length (pack v)))); [apply Hold|].
    cbn. rewrite setex_string by lia. case_decide as Hk; [|apply Hold].
    intros [= <-]. apply cache_key_inj in Hk as ->. exists v, (ESet key v ttl).
    split; [done|]. split; [set_solver|]. by exists ttl.
  - apply Hold. revert Hraw. unfold acquire. destruct (sget s (_lock_key c k)) as [w|] eqn:E.
    + by rewrite (set_nx_ex_taken _ _ _ _ w).
    + rewrite set_nx_ex_free by done. cbn. rewrite setex_string by done.
      rewrite decide_False; [done|]. intros E'. by eapply key_not_lock.
  - apply Hold. revert Hraw. unfold release, release_script. case_decide; [|done]. cbn.
    rewrite del_string. by case_decide.
  - apply Hold. revert Hraw. rewrite del_string. by case_decide.
Qed.

Lemma entry_from_trace es past s :
  Forall cache_event_ok es -> entry_from past s -> entry_from (past ++ es) (cache_trace es s).2.
Proof using All.
  intros Hok. revert past s. induction Hok as [|e es He _ IH]; intros past s Hp.
  - by rewrite app_nil_r.
  - cbn. pose proof (IH _ _ (entry_from_step past e s He Hp)) as Hend.
    destruct (cache_event_step e s) as [r s1]. cbn in *.
    destruct (cache_trace es s1) as [rs s2]. cbn in *. by rewrite <- app_assoc in Hend.
Qed.

(** C22: whatever clients do to a cache that starts without entries, an answer for
    a key is a value that was stored under that very key, with a positive time
    to live and within the size limit; and a value just stored is the answer. *)
Theorem cache_answers_stored_values es s key v :
  Forall cache_event_ok es -> plain key ->
  (forall k, sget s (_key c k) = None) ->
  let s' := (cache_trace es s).2 in
  ((get c key s').1 = Some v -> exists e, e ∈ es /\ stored_by key v e)
  /\ forall w ttl s'', set c key w ttl s' = (true, s'') -> get c key s'' = (Some w, s'').
Proof using All.
  intros Hok Hkey Hempty s'. split.
  - pose proof (entry_from_trace es [] s Hok) as He. intros Hget.
    assert (Hp : entry_from es s') by (apply He; intros k raw _ E; by rewrite Hempty in E).
    unfold get in Hget. destruct (sget s' (_key c key)) as [raw|] eqn:Er; [|done].
    destruct (Hp key raw Hkey Er) as (w & e & -> & Hin & Hst).
    rewrite unpack_pack in Hget. injection Hget as ->. by exists e.
  - intros w ttl s''. unfold set. destruct (Z.leb_spec ttl 0); [done|].
    case_match; [done|]. intros [= <-]. unfold get.
    rewrite setex_string by lia. rewrite decide_True by done. by rewrite unpack_pack.
Qed.
End traces.

(** ** Waiting *)

Section clock.
Context {V : Type} (good : string -> V -> Prop).
Local Open Scope Q_scope.

(** Time passes: a reading is not before the last one, a sleep lasts at least as
    long as asked, a lookup finds nothing or a good value, whenever it ends. *)
Definition clock_effect {X} (o : cop V X) : Q -> (X -> Q -> Prop) -> Prop :=
  match o with
  | Monotonic => fun now K => forall t, now <= t -> K t t
  | Sleep d => fun now K => forall t, now + d <= t -> K tt t
  | Lookup key => fun now K => forall v t, now <= t ->
      (forall x, v = Some x -> good key x) -> K v t
  end.

#[global, program] Instance clock_effects : Effects (cop V) Q := {| effect X o := clock_effect o |}.
Next Obligation. intros X [] s Q1 Q2 HQ; cbn; auto. Qed.

(** The loop answered: it ran out of neither fuel nor luck with its lookups. *)
Definition answered_wait (key : string) (r : result exn (option (option V))) : Prop :=
  match r with
  | Ok (Some (Some v)) => good key v
  | Ok (Some None) => True
  | _ => False
  end.

Lemma poll_answers base next_delay key deadline fuel delay now :
  0 < base -> (forall d, base <= d -> base <= next_delay d) -> base <= delay ->
  deadline - now <= inject_Z (Z.of_nat fuel) * base ->
  wp (poll (S fuel) key deadline delay next_delay) now (fun r _ => answered_wait key r).
Proof.
  intros Hb Hnext. revert delay now. induction fuel as [|fuel IH]; intros delay now Hd Hf.
  - cbn. intros t Ht. destruct (Qle_bool deadline t) eqn:E; [done|].
    exfalso. apply not_true_iff_false in E. apply E, Qle_bool_iff.
    change (inject_Z (Z.of_nat 0)) with 0 in Hf. lra.
  - remember (S fuel) as n. cbn. intros t Ht. destruct (Qle_bool deadline t) eqn:E; [done|].
    intros v t' Ht' Hv. destruct v as [v|]; [by apply Hv|]. cbn. intros t'' Ht''. subst n.
    apply IH; [by apply Hnext|]. 
    rewrite Nat2Z.inj_succ, <- Z.add_1_r, inject_Z_plus in Hf. change (inject_Z 1) with 1 in Hf.
    lra.
Qed.

Lemma wait_answers base next_delay key timeout now :
  0 < base -> (forall d, base <= d -> base <= next_delay d) ->
  wp (wait_with (wait_fuel base timeout) base next_delay key timeout) now
    (fun r _ => answered_wait key r).
Proof.
  intros Hb Hnext. unfold wait_with, wait_fuel. cbn -[poll]. intros t Ht.
  change (2 + ?n)%nat with (S (S n)). apply (poll_answers base); [done|done|lra|].
  assert (E : t + timeout - t == timeout) by ring. rewrite E.
  apply Qle_trans with (timeout / base * base); [field_simplify; [lra|lra]|].
  apply Qmult_le_compat_r; [|lra]. eapply Qle_trans; [apply Qle_ceiling|].
  rewrite <- Zle_Qle. lia.
Qed.
End clock.

(** C23: waiting for another caller ends.  However slowly the clock and the cache
    answer, [wait] polls at most [wait_fuel] times, and it returns nothing or a
    value the cache answered for the key. *)
Theorem waiting_ends {V} (good : string -> V -> Prop) key timeout now :
  wp (H := clock_effects good) (memory_wait (wait_fuel (5 # 1000) timeout) key timeout) now
    (fun r _ => answered_wait good key r)
  /\ wp (H := clock_effects good) (valkey_wait (wait_fuel (1 # 100) timeout) key timeout) now
    (fun r _ => answered_wait good key r).
Proof.
  split; apply wait_answers; try done. intros d Hd. unfold slower.
  destruct (Qle_bool (d * (3 # 2)) (1 # 4)); lra.
Qed.

(** ** Witnesses *)

Module CacheDemo.
#[local] Instance codec : CacheCodec string := {| pack v := v; unpack raw := Some raw |}.
#[local] Instance codec_laws : CacheCodecLaws string.
Proof. done. Qed.

Definition cfg : cache_cfg := CacheCfg "dalmatian:cache" 64.

(** One caller computes, another tries to join it and fails to get the lock; a
    third releases a token it lost long ago. *)
Definition rush : list (cache_event string) :=
  [EGet "k"; EAcquire "k" 120 "late"; ERelease "k" "stale"; ESet "k" "answer" 60;
   EAcquire "k" 120 "later"].

Definition locked : Mem.mem := (acquire cfg "k" 120 "t" Mem.empty).2.

Lemma rush_ok : Forall cache_event_ok rush.
Proof. repeat constructor; done. Qed.

Lemma nothing_cached k : sget Mem.empty (_key cfg k) = None.
Proof. cbn. by rewrite lookup_empty. Qed.
End CacheDemo.

Lemma single_flight_lock_is_exclusive_witness (H := CacheDemo.codec) (H' := CacheDemo.codec_laws) :
  sget (cache_trace CacheDemo.cfg CacheDemo.rush CacheDemo.locked).2
    (_lock_key CacheDemo.cfg "k") = Some "t"
  /\ Forall2 (refused_acquire "k") CacheDemo.rush
       (cache_trace CacheDemo.cfg CacheDemo.rush CacheDemo.locked).1.
Proof.
  apply (single_flight_lock_is_exclusive CacheDemo.cfg "k" "t" CacheDemo.rush CacheDemo.locked
           CacheDemo.rush_ok).
  - repeat constructor; cbn; (right || idtac); done.
  - by vm_compute.
Defined.

Lemma cache_answers_stored_values_witness (H := CacheDemo.codec) (H' := CacheDemo.codec_laws) :
  exists e, e ∈ CacheDemo.rush /\ stored_by CacheDemo.cfg "k" "answer" e.
Proof.
  destruct (cache_answers_stored_values CacheDemo.cfg CacheDemo.rush Mem.empty "k" "answer"
              CacheDemo.rush_ok eq_refl CacheDemo.nothing_cached) as [Ha _].
  apply Ha. by vm_compute.
Defined.
