(* ===== verification/Datasets.v ===== *)
(** * Sources, prepared queries and the cache of loaded datasets

    src/src/dalmatian/datasets.py and paths.py.  [resolve_source] turns a declared
    source into a URI, a fingerprint and, for local patterns, the exact files; the
    file system and pathlib are seen through [Files].  [DatasetCache] keeps at
    most [max_entries] loaded values, oldest first, under one lock, and loads a
    missing one under a lock of its key; its callers are threads, one step per
    critical section ([advance]). *)

From Stdlib Require Import QArith Ascii.
From S2P Require Import Prelude Models Fingerprint Storage.

#[local] Open Scope Z_scope.

(** ** The file system *)

Class Files := {
  (* [str(Path(p))], [str(Path(p).resolve())], [str(root / Path(p))] *)
  path_str : string -> string;
  path_resolve : string -> string;
  path_join : string -> string -> string;
  path_exists : string -> bool;
  path_is_file : string -> bool;
  (* [glob.glob(p, recursive=True)]; the files below a directory, sorted *)
  glob_paths : string -> list string;
  files_below : string -> list string;
  (* size and modification time *)
  file_stat : string -> Z * Z;
  as_uri : string -> string;
  unquote : string -> string;
  (* [sorted] on paths *)
  sort_paths : list string -> list string;
}.

(** [p.is_relative_to(root)], on normalised absolute paths. *)
Definition is_relative_to (p root : string) : bool :=
  bool_decide (p = root) || starts_with (rstrip slash root +:+ "/") p.

(** [str(p.relative_to(root))]. *)
Definition relative_to (p root : string) : option string :=
  if decide (p = root) then Some "."
  else if starts_with (rstrip slash root +:+ "/") p
       then Some (remove_prefix (rstrip slash root +:+ "/") p) else None.

Definition has_any (chars : string) (s : string) : bool :=
  existsb (fun a => contains (String a EmptyString) s) (String.list_ascii_of_string chars).

(** The text before the first of some characters. *)
Fixpoint before_any (chars : list ascii) (s : string) : string :=
  match s with
  | EmptyString => EmptyString
  | String a rest =>
      if bool_decide (a ∈ chars) then EmptyString else String a (before_any chars rest)
  end.

Fixpoint from_any (chars : list ascii) (s : string) : string :=
  match s with
  | EmptyString => EmptyString
  | String a rest => if bool_decide (a ∈ chars) then s else from_any chars rest
  end.

(** The text after the first [c]. *)
Fixpoint after_char (c : ascii) (s : string) : string :=
  match s with
  | EmptyString => EmptyString
  | String a rest => if decide (a = c) then rest else after_char c rest
  end.

(** [urlsplit(url).path]: no scheme, no host, no query, no fragment. *)
Definition url_path (url : string) : string :=
  let url := drop_breaks (strip_controls url) in
  let rest := if decide (url_scheme url = "") then url else after_char ":"%char url in
  let rest := if starts_with "//" rest
              then from_any ["/"%char; "?"%char; "#"%char] (remove_prefix "//" rest) else rest in
  before_any ["?"%char] (before_any ["#"%char] rest).

(** ** paths.py *)

Section resolving.
Context `{Files} `{Sha256}.

Definition _static_prefix (pattern : string) : string :=
  before_any (String.list_ascii_of_string "*?[{") pattern.

Definition resolve_paths (pattern root : string) : result exn (list string) :=
  let absolute := path_join root pattern in
  let prefix := _static_prefix absolute in
  let prefix := path_resolve (if decide (prefix = "") then root else prefix) in
  if negb (is_relative_to prefix root)
  then raise PathOutsideDataRoot ("path must stay under " +:+ root)
  else if negb (has_any "*?[{" absolute) then
    let resolved := path_resolve absolute in
    if negb (is_relative_to resolved root)
    then raise PathOutsideDataRoot ("path must stay under " +:+ root)
    else if negb (path_exists resolved)
    then raise NoFilesMatched ("no file or directory found for " +:+ pattern)
    else Ok [resolved]
  else
    let matches := map path_resolve (glob_paths absolute) in
    let files := sort_paths (remove_dups (filter (fun p =>
      (path_is_file p && is_relative_to p root)%bool = true) matches)) in
    match files with
    | [] => raise NoFilesMatched ("no files matched " +:+ pattern)
    | _ => Ok files
    end.

(** ** datasets.py: resolving a source *)

Record ResolvedSource := ResolvedSrc {
  rs_uri : string;
  rs_fingerprint : string;
  rs_cache_safe : bool;
  rs_read_uris : option (list string);
}.

Record PreparedQuery := Prepared {
  pq_request : QueryRequest;
  pq_sources : list (string * ResolvedSource);
  pq_normalized_sql : string;
}.

Definition source_versions (p : PreparedQuery) : list (string * string) :=
  map (fun s => (s.1, rs_fingerprint s.2)) (pq_sources p).

Definition cache_safe (p : PreparedQuery) : bool :=
  forallb (fun s => rs_cache_safe s.2) (pq_sources p).

Definition versioned_payload (uri : string) (s : SourceSpec) (version : string) : json :=
  JObj [("uri", JStr uri); ("format", JStr (data_format_value (src_format s)));
        ("options", j_dict (src_options s)); ("schema", j_schema (src_schema s));
        ("infer_schema", JBool (src_infer_schema s)); ("version", JStr version)].

Definition files_payload (s : SourceSpec) (files : list (string * Z * Z)) : json :=
  JObj [("format", JStr (data_format_value (src_format s))); ("options", j_dict (src_options s));
        ("schema", j_schema (src_schema s)); ("infer_schema", JBool (src_infer_schema s));
        ("files", JArr (map (fun f => JArr [JStr f.1.1; JInt f.1.2; JInt f.2]) files))].

(** The files of a local source: under the data root by [resolve_paths], elsewhere
    by glob or as they are. *)
Definition local_matches (local_path data_root : string) : result exn (list string) :=
  match relative_to local_path (path_resolve data_root) with
  | Some relative => resolve_paths relative (path_resolve data_root)
  | None =>
      Ok (if has_any "*?[" local_path then sort_paths (map path_str (glob_paths local_path))
          else [local_path])
  end.

Definition expand (matches : list string) : list (string * Z * Z) :=
  map (fun p => (p, (file_stat p).1, (file_stat p).2))
    (concat (map (fun p => if path_is_file p then [p] else files_below p) matches)).

(** [data_root.resolve().as_uri()/clean] when no location is named; here an empty
    path is not refused. *)
Definition source_uri (s : SourceSpec) (r : StorageRegistry) (data_root : string)
  : result exn string :=
  match src_location s with
  | None =>
      if path_escapes (src_path s)
      then raise PyValueError "source path must be relative and cannot contain '..'"
      else Ok (as_uri (path_resolve data_root) +:+ "/" +:+ strip slash (src_path s))
  | Some location =>
      r_bind (Storage.resolve_source r (Some location) (src_path s)) (fun d => Ok (rd_uri d))
  end.

Definition resolve_source (s : SourceSpec) (r : StorageRegistry) (data_root : string)
  : result exn ResolvedSource :=
  r_bind (source_uri s r data_root) (fun uri =>
  match src_version s with
  | Some version => Ok (ResolvedSrc uri (_hash (versioned_payload uri s version)) true None)
  | None =>
      if decide (url_scheme uri <> "file") then
        Ok (ResolvedSrc uri (_hash (JObj [("uri", JStr uri); ("uncached", JBool true)])) false None)
      else
        r_bind (local_matches (path_str (unquote (url_path uri))) data_root) (fun matches =>
        let files := expand matches in
        match files with
        | [] => raise PyValueError ("source matched no files: " +:+ src_path s)
        | _ =>
            Ok (ResolvedSrc uri (_hash (files_payload s files)) true
                  (if has_any "*?[{" (src_path s)
                   then Some (map (fun f => as_uri (path_resolve f.1.1)) files) else None))
        end)
  end).
End resolving.

(** ** datasets.py: the cache of loaded values *)

Section cache.
Context {T : Type}.

Record dataset_cfg := DatasetCfg { max_entries : nat; ttl_seconds : Q }.

(** [if max_entries < 1: raise], [if ttl_seconds < 1: raise]. *)
Definition make_dataset_cfg (entries ttl : Z) : result exn dataset_cfg :=
  if entries <? 1 then raise PyValueError "max_entries must be at least 1"
  else if ttl <? 1 then raise PyValueError "ttl_seconds must be at least 1"
  else Ok (DatasetCfg (Z.to_nat entries) (inject_Z ttl)).

Record _Entry := Entry { e_value : T; e_expires_at : Q }.

(** The ordered dictionary, oldest entry first; the values whose release callback
    has been called, latest first. *)
Record dataset_cache := DatasetCache {
  dc_entries : list (string * _Entry);
  dc_hits : Z;
  dc_misses : Z;
  dc_released : list T;
}.

Fixpoint find_entry (key : string) (l : list (string * _Entry)) : option _Entry :=
  match l with
  | [] => None
  | (k, e) :: l => if decide (k = key) then Some e else find_entry key l
  end.

(** [pop(key, None)]. *)
Fixpoint drop_entry (key : string) (l : list (string * _Entry)) : list (string * _Entry) :=
  match l with
  | [] => []
  | (k, e) :: l => if decide (k = key) then l else (k, e) :: drop_entry key l
  end.

Definition _get (key : string) (now : Q) (c : dataset_cache) : option T * dataset_cache :=
  match find_entry key (dc_entries c) with
  | None => (None, c)
  | Some e =>
      let rest := drop_entry key (dc_entries c) in
      if Qle_bool (e_expires_at e) now then
        (None, DatasetCache rest (dc_hits c) (dc_misses c) (e_value e :: dc_released c))
      else
        (Some (e_value e),
         DatasetCache (rest ++ [(key, e)]) (dc_hits c + 1) (dc_misses c) (dc_released c))
  end.

(** [while len(entries) > max_entries: popitem(last=False)], releasing each. *)
Fixpoint evict (limit : nat) (l : list (string * _Entry)) (released : list T)
  : list (string * _Entry) * list T :=
  match l with
  | [] => ([], released)
  | (k, e) :: rest =>
      if (limit <? length l)%nat then evict limit rest (e_value e :: released) else (l, released)
  end.

Definition _put (cfg : dataset_cfg) (key : string) (v : T) (now : Q) (c : dataset_cache)
  : dataset_cache :=
  let released := match find_entry key (dc_entries c) with
                  | Some old => e_value old :: dc_released c
                  | None => dc_released c
                  end in
  let l := drop_entry key (dc_entries c) ++ [(key, Entry v (now + ttl_seconds cfg))] in
  let '(l, released) := evict (max_entries cfg) l released in
  DatasetCache l (dc_hits c) (dc_misses c) released.

Definition missed (c : dataset_cache) : dataset_cache :=
  DatasetCache (dc_entries c) (dc_hits c) (dc_misses c + 1) (dc_released c).

(** ** Threads in [get_or_load] and [close] *)

Inductive pc :=
| Idle
| Started (key : string)              (* before the first [_get] *)
| Wanting (key : string)              (* before the key's lock *)
| Holding (key : string)              (* the key's lock is ours *)
| Loading (key : string)              (* in the loader *)
| Loaded (key : string) (v : T)       (* before [_put] *)
| Returned (v : T) (hit : bool)       (* the caller has the value *)
| Failed (e : exn)
| Closing (vs : list T).              (* releasing the entries it took *)

Inductive move :=
| Call (key : string)
| Shut
| Tick (now : Q)
| Loads (v : T)
| LoadFails (e : exn).

Record system := System {
  sy_cache : dataset_cache;
  sy_held : gset string;       (* the key locks that are taken *)
  sy_threads : list pc;
  sy_loaded : list T;          (* what loaders have returned *)
}.

Definition start (threads : nat) : system :=
  System (DatasetCache [] 0 0 []) ∅ (replicate threads Idle) [].

Definition set_thread (i : nat) (p : pc) (s : system) : system :=
  System (sy_cache s) (sy_held s) (<[i := p]> (sy_threads s)) (sy_loaded s).
Definition set_cache (c : dataset_cache) (s : system) : system :=
  System c (sy_held s) (sy_threads s) (sy_loaded s).
Definition take_lock (key : string) (s : system) : system :=
  System (sy_cache s) ({[key]} ∪ sy_held s) (sy_threads s) (sy_loaded s).
Definition drop_lock (key : string) (s : system) : system :=
  System (sy_cache s) (sy_held s ∖ {[key]}) (sy_threads s) (sy_loaded s).

(** One atomic step of thread [i]; nothing when the thread cannot make that move,
    as when the key's lock is taken. *)
Definition advance (cfg : dataset_cfg) (i : nat) (m : move) (s : system) : option system :=
  match sy_threads s !! i, m with
  | Some (Idle | Returned _ _ | Failed _), Call key => Some (set_thread i (Started key) s)
  | Some (Idle | Returned _ _ | Failed _), Shut =>
      let c := sy_cache s in
      Some (set_thread i (Closing (map (fun p => e_value p.2) (dc_entries c)))
              (set_cache (DatasetCache [] (dc_hits c) (dc_misses c) (dc_released c)) s))
  | Some (Started key), Tick now =>
      let '(cached, c) := _get key now (sy_cache s) in
      Some (set_thread i (match cached with Some v => Returned v true | None => Wanting key end)
              (set_cache c s))
  | Some (Wanting key), Tick _ =>
      if decide (key ∈ sy_held s) then None
      else Some (set_thread i (Holding key) (take_lock key s))
  | Some (Holding key), Tick now =>
      let '(cached, c) := _get key now (sy_cache s) in
      Some (match cached with
            | Some v => set_thread i (Returned v true) (drop_lock key (set_cache c s))
            | None => set_thread i (Loading key) (set_cache c s)
            end)
  | Some (Loading key), Loads v =>
      Some (System (sy_cache s) (sy_held s) (<[i := Loaded key v]> (sy_threads s))
              (v :: sy_loaded s))
  | Some (Loading key), LoadFails e => Some (set_thread i (Failed e) (drop_lock key s))
  | Some (Loaded key v), Tick now =>
      Some (set_thread i (Returned v false)
              (drop_lock key (set_cache (missed (_put cfg key v now (sy_cache s))) s)))
  | Some (Closing (v :: vs)), Tick _ =>
      let c := sy_cache s in
      Some (set_thread i (match vs with [] => Idle | _ => Closing vs end)
              (set_cache (DatasetCache (dc_entries c) (dc_hits c) (dc_misses c)
                            (v :: dc_released c)) s))
  | Some (Closing []), Tick _ => Some (set_thread i Idle s)
  | _, _ => None
  end.

Inductive dataset_step (cfg : dataset_cfg) (s : system) : system -> Prop :=
| dataset_moves i m s' : advance cfg i m s = Some s' -> dataset_step cfg s s'.

(** A run along a list of moves, for concrete traces. *)
Fixpoint advance_all (cfg : dataset_cfg) (ms : list (nat * move)) (s : system) : option system :=
  match ms with
  | [] => Some s
  | (i, m) :: ms => advance cfg i m s ≫= advance_all cfg ms
  end.
End cache.
Arguments dataset_cache T : clear implicits.
Arguments system T : clear implicits.
Arguments pc T : clear implicits.
Arguments move T : clear implicits.
