(* ===== verification/DatasetTheorems.v ===== *)
(** * What the dataset cache promises

    For any number of threads in [get_or_load] and [close], in any interleaving of
    their critical sections: the cache never holds more than [max_entries] values,
    a key is loaded by one thread at a time and only when it is absent, and every
    loaded value is resident, in a thread's hands or released exactly once.  A
    value can be released while its caller still uses it
    ([eviction_releases_a_dataset_in_use]). *)

From Stdlib Require Import QArith Ascii.
From S2P Require Import Prelude Models Fingerprint Storage StorageTheorems Datasets.

#[local] Open Scope Z_scope.

(** ** The ordered dictionary *)

Section entries.
Context {T : Type} `{EqDecision T}.
Implicit Types (l : list (string * @_Entry T)) (key k : string) (c : dataset_cache T).

Definition values l : list T := map (fun p => e_value p.2) l.
Arguments values : simpl never.

Lemma values_cons k e l : values ((k, e) :: l) = e_value e :: values l.
Proof. done. Qed.

Lemma find_entry_in k l : find_entry k l = None <-> k ∉ map fst l.
Proof.
  induction l as [|[k' e] l IH]; cbn; [split; [intros _; apply not_elem_of_nil|done]|].
  rewrite not_elem_of_cons. case_decide as Hk; [subst; split; [done|by intros []]|].
  rewrite IH. naive_solver.
Qed.

Lemma drop_entry_absent k l : find_entry k l = None -> drop_entry k l = l.
Proof.
  induction l as [|[k' e] l IH]; cbn; [done|]. case_decide; [done|]. intros ?. by rewrite IH.
Qed.

Lemma drop_entry_keys k x l : x ∈ map fst (drop_entry k l) -> x ∈ map fst l.
Proof.
  induction l as [|[k' e] l IH]; cbn; [done|]. case_decide; [by right|].
  cbn. rewrite !elem_of_cons. naive_solver.
Qed.

Lemma drop_entry_nodup k l :
  NoDup (map fst l) -> NoDup (map fst (drop_entry k l)) /\ k ∉ map fst (drop_entry k l).
Proof.
  induction l as [|[k' e] l IH]; cbn; [split; [constructor|apply not_elem_of_nil]|].
  intros [Hk Hl]%NoDup_cons. destruct (IH Hl) as [IH1 IH2].
  case_decide as E; [by subst|]. cbn. split.
  - apply NoDup_cons. split; [|done]. by intros ?%drop_entry_keys.
  - rewrite not_elem_of_cons. done.
Qed.

Lemma drop_entry_counts k l e v :
  find_entry k l = Some e ->
  length l = S (length (drop_entry k l))
  /\ count v (values l) = (count v [e_value e] + count v (values (drop_entry k l)))%nat.
Proof.
  induction l as [|[k' e'] l IH]; cbn; [done|]. case_decide.
  - intros [= ->]. split; [done|]. rewrite values_cons. cbn. lia.
  - intros Hf. destruct (IH Hf) as [IH1 IH2]. rewrite !values_cons. cbn in *. split; lia.
Qed.

Lemma values_app l1 l2 : values (l1 ++ l2) = values l1 ++ values l2.
Proof. apply map_app. Qed.

Lemma values_snoc l k e : values (l ++ [(k, e)]) = values l ++ [e_value e].
Proof. apply map_app. Qed.

(** Eviction drops the oldest entries, as many as are too many, and releases each. *)
Lemma evict_spec limit l released :
  evict limit l released
  = (drop (length l - limit) l, reverse (values (take (length l - limit) l)) ++ released).
Proof.
  revert released. induction l as [|[k e] l IH]; intros released; [done|].
  cbn [evict]. destruct (Nat.ltb_spec limit (length ((k, e) :: l))) as [Hl|Hl]; cbn in Hl.
  - rewrite IH. replace (length ((k, e) :: l) - limit)%nat with (S (length l - limit)) by (cbn; lia).
    cbn [drop take]. rewrite values_cons. by rewrite reverse_cons, <- app_assoc.
  - by replace (length ((k, e) :: l) - limit)%nat with 0%nat by (cbn; lia).
Qed.

Lemma count_reverse v (l : list T) : count v (reverse l) = count v l.
Proof.
  induction l as [|x l IH]; [done|]. rewrite reverse_cons, count_app, IH. cbn. lia.
Qed.

(** ** The two critical sections on the dictionary *)

(** Bounded, with distinct keys. *)
Definition cache_ok (cfg : dataset_cfg) c : Prop :=
  (length (dc_entries c) <= max_entries cfg)%nat /\ NoDup (map fst (dc_entries c)).

Definition resident c : list T := values (dc_entries c).

Lemma get_keeps cfg key now c :
  cache_ok cfg c ->
  let '(r, c') := _get key now c in
  cache_ok cfg c'
  /\ (forall v, count v (dc_released c') + count v (resident c')
                = count v (dc_released c) + count v (resident c))%nat
  /\ (forall k, find_entry k (dc_entries c) = None -> find_entry k (dc_entries c') = None)
  /\ (r = None -> find_entry key (dc_entries c') = None)
  /\ (forall v, r = Some v -> v ∈ resident c').
Proof.
  intros [Hlen Hnd]. unfold _get. destruct (find_entry key (dc_entries c)) as [e|] eqn:Ef;
    [|by split_and!].
  destruct (drop_entry_nodup key _ Hnd) as [Hnd' Hkey].
  assert (Hfresh : forall k, find_entry k (dc_entries c) = None ->
                   find_entry k (drop_entry key (dc_entries c)) = None).
  { intros k. rewrite !find_entry_in. intros Hk ?. by eapply Hk, drop_entry_keys. }
  unfold cache_ok, resident. destruct (Qle_bool (e_expires_at e) now); cbn.
  - destruct (drop_entry_counts key _ e (e_value e) Ef) as [Hl _]. split_and!; try done; try lia.
    + intros v. destruct (drop_entry_counts key _ e v Ef) as [_ ->]. cbn. lia.
    + intros _. by apply find_entry_in.
  - destruct (drop_entry_counts key _ e (e_value e) Ef) as [Hl _].
    rewrite length_app, map_app. cbn. split_and!; try lia.
    + apply NoDup_app. split_and!; [done| |apply NoDup_singleton].
      intros x Hx ->%list_elem_of_singleton. done.
    + intros v. destruct (drop_entry_counts key _ e v Ef) as [_ ->].
      rewrite values_snoc, count_app. cbn. lia.
    + intros k Hk. apply find_entry_in. rewrite map_app. cbn. rewrite not_elem_of_app. split.
      * by apply find_entry_in, Hfresh.
      * intros ->%list_elem_of_singleton. congruence.
    + done.
    + intros v [= <-]. rewrite values_snoc. set_solver.
Qed.

Lemma put_keeps cfg key v now c :
  (1 <= max_entries cfg)%nat -> cache_ok cfg c -> find_entry key (dc_entries c) = None ->
  let c' := _put cfg key v now c in
  cache_ok cfg c'
  /\ (forall x, count x (dc_released c') + count x (resident c')
                = count x [v] + count x (dc_released c) + count x (resident c))%nat
  /\ (forall k, k <> key -> find_entry k (dc_entries c) = None ->
        find_entry k (dc_entries c') = None).
Proof.
  intros Hmax [Hlen Hnd] Hf. unfold _put. rewrite Hf, (drop_entry_absent key) by done.
  rewrite evict_spec. cbn.
  set (l := dc_entries c ++ [(key, Entry v (now + ttl_seconds cfg))]).
  set (n := (length l - max_entries cfg)%nat).
  assert (Hkeys : NoDup (map fst l)).
  { unfold l. rewrite map_app. apply NoDup_app. split_and!; [done| |apply NoDup_singleton].
    intros x Hx ->%list_elem_of_singleton. by apply find_entry_in in Hf. }
  unfold cache_ok, resident. cbn. split_and!.
  - rewrite length_drop. unfold n. lia.
  - rewrite <- (take_drop n l), map_app in Hkeys. by apply NoDup_app in Hkeys as (_ & _ & ?).
  - intros x. rewrite count_app, count_reverse.
    assert (count x (values l) = count x (values (take n l)) + count x (values (drop n l)))%nat
      as Hsplit by (rewrite <- count_app, <- values_app, take_drop; done).
    unfold l in Hsplit at 1. rewrite values_snoc, count_app in Hsplit.
    cbn in Hsplit |- *. lia.
  - intros k Hk. rewrite !find_entry_in. intros Hin Hin'. apply Hin.
    assert (k ∈ map fst l) as Hl by (rewrite <- (take_drop n l), map_app; set_solver).
    unfold l in Hl. rewrite map_app in Hl. set_solver.
Qed.
End entries.

(** ** Threads *)

Section threads.
Context {T : Type} `{EqDecision T} (cfg : dataset_cfg).
Implicit Types (s : system T) (p q : pc T).

(** The values a thread still has to hand over to the dictionary or to release. *)
Definition hand p : list T :=
  match p with Loaded _ v => [v] | Closing vs => vs | _ => [] end.

(** The key whose lock a thread holds; the key it is filling. *)
Definition owner p : option string :=
  match p with Holding k | Loading k | Loaded k _ => Some k | _ => None end.

Definition filling p : option string :=
  match p with Loading k | Loaded k _ => Some k | _ => None end.

Definition in_hand s : list T := concat (map hand (sy_threads s)).

Record system_inv s : Prop := {
  si_cache : cache_ok cfg (sy_cache s);
  si_count v : count v (sy_loaded s)
               = (count v (dc_released (sy_cache s)) + count v (resident (sy_cache s))
                  + count v (in_hand s))%nat;
  si_held i p k : sy_threads s !! i = Some p -> owner p = Some k -> k ∈ sy_held s;
  si_alone i j p q k : sy_threads s !! i = Some p -> sy_threads s !! j = Some q ->
                       owner p = Some k -> owner q = Some k -> i = j;
  si_absent i p k : sy_threads s !! i = Some p -> filling p = Some k ->
                    find_entry k (dc_entries (sy_cache s)) = None;
}.

Lemma filling_owner p k : filling p = Some k -> owner p = Some k.
Proof using. by destruct p. Qed.

Lemma count_hands v i p p' (ths : list (pc T)) :
  ths !! i = Some p ->
  (count v (concat (map hand (<[i := p']> ths))) + count v (hand p)
   = count v (concat (map hand ths)) + count v (hand p'))%nat.
Proof using.
  revert i. induction ths as [|q ths IH]; intros [|i]; try done.
  - intros [= ->]. cbn. rewrite !count_app. lia.
  - intros Hi. change (<[S i:=p']> (q :: ths)) with (q :: <[i:=p']> ths).
    cbn [map concat]. rewrite !count_app. specialize (IH i Hi). lia.
Qed.

(** What a step of thread [i] from [p] to [p'] has to keep. *)
Lemma system_step s i p p' c held loaded :
  system_inv s -> sy_threads s !! i = Some p -> cache_ok cfg c ->
  (forall v, count v loaded + count v (dc_released (sy_cache s)) + count v (resident (sy_cache s))
             + count v (hand p)
             = count v (sy_loaded s) + count v (dc_released c) + count v (resident c)
               + count v (hand p'))%nat ->
  (forall k, k ∈ sy_held s -> owner p <> Some k -> k ∈ held) ->
  (forall k, owner p' = Some k -> k ∈ held /\ (owner p = Some k \/ k ∉ sy_held s)) ->
  (forall k, owner p <> Some k -> find_entry k (dc_entries (sy_cache s)) = None ->
     find_entry k (dc_entries c) = None) ->
  (forall k, filling p' = Some k -> find_entry k (dc_entries c) = None) ->
  system_inv (System c held (<[i := p']> (sy_threads s)) loaded).
Proof using.
  intros [Hc Hn Hh Ha Hf] Hi Hc' Hn' Hh' Ho' Hf' Hnew.
  assert (Hlt : (i < length (sy_threads s))%nat) by (by eapply lookup_lt_Some).
  assert (Hother : forall j q k, i <> j -> sy_threads s !! j = Some q -> owner q = Some k ->
                   k ∈ sy_held s /\ owner p <> Some k).
  { intros j q k Hij Hj Hq. split; [by eapply Hh|]. intros Hp. by eapply Hij, Ha. }
  split; cbn; [done|..].
  - intros v. specialize (Hn v). specialize (Hn' v). unfold in_hand in *. cbn.
    pose proof (count_hands v i p p' _ Hi). lia.
  - intros j q k [(<- & <- & _)|(Hij & Hj)]%list_lookup_insert_Some Hq; [by apply Ho'|].
    destruct (Hother j q k Hij Hj Hq). by apply Hh'.
  - intros j1 j2 q1 q2 k [(<- & <- & _)|(Hij1 & Hj1)]%list_lookup_insert_Some
      [(<- & <- & _)|(Hij2 & Hj2)]%list_lookup_insert_Some Hq1 Hq2; [done|..].
    + destruct (Hother j2 q2 k Hij2 Hj2 Hq2), (Ho' k Hq1) as [_ [?|?]]; done.
    + destruct (Hother j1 q1 k Hij1 Hj1 Hq1), (Ho' k Hq2) as [_ [?|?]]; done.
    + by eapply Ha.
  - intros j q k [(<- & <- & _)|(Hij & Hj)]%list_lookup_insert_Some Hq; [by apply Hnew|].
    destruct (Hother j q k Hij Hj (filling_owner _ _ Hq)). eapply Hf'; [done|]. by eapply Hf.
Qed.

Lemma start_inv_datasets n : system_inv (start n).
Proof using.
  assert (Hidle : forall i p, replicate n (@Idle T) !! i = Some p -> p = Idle).
  { intros i p Hp. by apply lookup_replicate in Hp as [-> _]. }
  split; cbn.
  - split; cbn; [lia|constructor].
  - intros v. unfold in_hand. cbn.
    assert (concat (map hand (replicate n (@Idle T))) = []) as ->; [|done].
    clear Hidle. induction n as [|n IH]; [done|exact IH].
  - by intros i p k ->%Hidle.
  - by intros i j p q k ->%Hidle.
  - by intros i p k ->%Hidle.
Qed.

(** A step that neither moves values nor holds a lock before or after. *)
Lemma system_step_idle s i p p' c :
  system_inv s -> sy_threads s !! i = Some p -> cache_ok cfg c ->
  (forall v, count v (dc_released (sy_cache s)) + count v (resident (sy_cache s))
             + count v (hand p)
             = count v (dc_released c) + count v (resident c) + count v (hand p'))%nat ->
  owner p = None -> owner p' = None ->
  (forall k, find_entry k (dc_entries (sy_cache s)) = None -> find_entry k (dc_entries c) = None) ->
  system_inv (set_thread i p' (set_cache c s)).
Proof using.
  intros Hinv Hi Hc Hn Ho Ho' Hf. apply (system_step s i p p' c); try done.
  - intros v. specialize (Hn v). cbn. lia.
  - intros k. by rewrite Ho'.
  - auto.
  - intros k Hk%filling_owner. by rewrite Ho' in Hk.
Qed.

Lemma shut_keeps s i p :
  system_inv s -> sy_threads s !! i = Some p -> hand p = [] -> owner p = None ->
  system_inv (set_thread i (Closing (resident (sy_cache s)))
     (set_cache (DatasetCache [] (dc_hits (sy_cache s)) (dc_misses (sy_cache s))
                   (dc_released (sy_cache s))) s)).
Proof using.
  intros Hinv Hi Hp Ho. apply (system_step_idle s i p); try done.
  - split; cbn; [lia|constructor].
  - intros v. rewrite Hp. change (hand (Closing _)) with (resident (sy_cache s)).
    change (resident (DatasetCache [] _ _ _)) with (@nil T). cbn [count dc_released]. lia.
Qed.

Lemma get_step_keeps s i p key now c r :
  system_inv s -> sy_threads s !! i = Some p -> _get key now (sy_cache s) = (r, c) ->
  (p = Started key ->
   system_inv (set_thread i (match r with Some v => Returned v true | None => Wanting key end)
                 (set_cache c s)))
  /\ (p = Holding key ->
      system_inv (match r with
                  | Some v => set_thread i (Returned v true) (drop_lock key (set_cache c s))
                  | None => set_thread i (Loading key) (set_cache c s)
                  end)).
Proof using.
  intros Hinv Hi Hget. pose proof (get_keeps cfg key now (sy_cache s) (si_cache s Hinv)) as Hk.
  rewrite Hget in Hk. destruct Hk as (Hc & Hn & Hf & Hnone & _). split; intros ->.
  - apply (system_step_idle s i (Started key)); try done; [|by destruct r].
    intros v. specialize (Hn v). destruct r; cbn; lia.
  - destruct r as [v|]; apply (system_step s i (Holding key)); try done.
    + intros x. specialize (Hn x). cbn. lia.
    + intros k Hk Hne. cbn in *. set_solver.
    + auto.
    + intros x. specialize (Hn x). cbn. lia.
    + intros k [= <-]. split; [exact (si_held s Hinv i _ _ Hi eq_refl)|by left].
    + auto.
    + intros k [= <-]. by apply Hnone.
Qed.

Lemma load_step_keeps s i key v :
  system_inv s -> sy_threads s !! i = Some (Loading key) ->
  system_inv (System (sy_cache s) (sy_held s) (<[i := Loaded key v]> (sy_threads s))
                (v :: sy_loaded s)).
Proof using.
  intros Hinv Hi. apply (system_step s i (Loading key)); try done.
  - apply Hinv.
  - intros x. cbn. lia.
  - intros k [= <-]. split; [exact (si_held s Hinv i _ _ Hi eq_refl)|by left].
  - intros k [= <-]. exact (si_absent s Hinv i _ _ Hi eq_refl).
Qed.

Lemma put_step_keeps s i key v now :
  (1 <= max_entries cfg)%nat -> system_inv s -> sy_threads s !! i = Some (Loaded key v) ->
  system_inv (set_thread i (Returned v false)
     (drop_lock key (set_cache (missed (_put cfg key v now (sy_cache s))) s))).
Proof using.
  intros Hmax Hinv Hi.
  destruct (put_keeps cfg key v now (sy_cache s) Hmax (si_cache s Hinv)) as (Hc & Hn & Hf);
    [exact (si_absent s Hinv i _ _ Hi eq_refl)|].
  remember (_put cfg key v now (sy_cache s)) as c eqn:E. clear E.
  apply (system_step s i (Loaded key v)); try done.
  - intros x. specialize (Hn x).
    cbn [hand dc_released sy_loaded sy_cache drop_lock set_cache] in *.
    change (resident (missed c)) with (resident c).
    change (dc_released (missed c)) with (dc_released c). cbn [count] in *. lia.
  - intros k Hk Hne. cbn in *. set_solver.
  - intros k Hne. apply Hf. cbn in Hne. congruence.
Qed.

Lemma advance_keeps i m s s' :
  (1 <= max_entries cfg)%nat -> system_inv s -> advance cfg i m s = Some s' -> system_inv s'.
Proof using.
  intros Hmax Hinv. pose proof (si_cache s Hinv) as Hc. unfold advance.
  destruct (sy_threads s !! i) as [p|] eqn:Hi; [|done].
  assert (Hmove : forall p', hand p = [] -> hand p' = [] -> owner p = None -> owner p' = None ->
                  system_inv (set_thread i p' s)).
  { intros p' Hp Hp' Ho Ho'. apply (system_step_idle s i p p' (sy_cache s)); try done.
    intros v. by rewrite Hp, Hp'. }
  destruct p as [|key|key|key|key|key v|v hit|e|vs], m as [key'| |now|v'|e'];
    try done; try (intros [= <-]; by apply Hmove); try (intros [= <-]; by eapply shut_keeps).
  - destruct (_get key now (sy_cache s)) as [r c] eqn:Eg. intros [= <-].
    by eapply get_step_keeps.
  - case_decide as Hk; [done|]. intros [= <-]. apply (system_step s i (Wanting key)); try done.
    + cbn. set_solver.
    + intros k [= <-]. split; [set_solver|by right].
  - destruct (_get key now (sy_cache s)) as [r c] eqn:Eg. intros [= <-].
    by eapply (get_step_keeps s i (Holding key)).
  - intros [= <-]. by apply load_step_keeps.
  - intros [= <-]. apply (system_step s i (Loading key)); try done. cbn. set_solver.
  - intros [= <-]. by apply put_step_keeps.
  - by destruct vs.
  - by destruct vs.
  - destruct vs as [|v vs]; intros [= <-]; [by apply Hmove|].
    apply (system_step_idle s i (Closing (v :: vs))); try done; [|by destruct vs].
    intros x. change (resident (DatasetCache (dc_entries ?c) _ _ _)) with (resident c).
    destruct vs; cbn [hand count dc_released]; lia.
  - by destruct vs.
  - by destruct vs.
Qed.

Lemma reachable_inv n s :
  (1 <= max_entries cfg)%nat -> rtc (dataset_step cfg) (start n) s -> system_inv s.
Proof using.
  intros Hmax Hr. assert (H : system_inv (start n)) by apply start_inv_datasets. revert H.
  induction Hr as [|s1 s2 s3 [i m s2' Ha] _ IH]; [done|]. intros H. eapply IH, advance_keeps; done.
Qed.
End threads.

Lemma advance_all_reachable {T} cfg ms (s s' : system T) :
  advance_all cfg ms s = Some s' -> rtc (dataset_step cfg) s s'.
Proof.
  revert s. induction ms as [|[i m] ms IH]; intros s; cbn; [by intros [= <-]|].
  destruct (advance cfg i m s) as [s1|] eqn:E; [|done]. cbn. intros Hs.
  eapply rtc_l; [by econstructor|by apply IH].
Qed.

(** ** A cache to try the theorems on *)

Module DatasetDemo.
Definition cfg : dataset_cfg := DatasetCfg 1 1800.

Definition load (i : nat) (key value : string) : list (nat * move string) :=
  [(i, Call key); (i, Tick 0); (i, Tick 0); (i, Tick 0); (i, Loads value); (i, Tick 0)].

(** Thread 0 loads a dataset and is about to use it; thread 1 loads another. *)
Definition busy : option (system string) :=
  advance_all cfg (load 0 "k1" "view1" ++ load 1 "k2" "view2") (start 2).

Definition after_busy : system string :=
  System (DatasetCache [("k2", Entry "view2" 1800)] 0 2 ["view1"]) ∅
    [Returned "view1" false; Returned "view2" false] ["view2"; "view1"].

Lemma busy_runs : busy = Some after_busy.
Proof. vm_compute. done. Qed.

(** Thread 1 wants the key thread 0 is loading. *)
Definition loading : option (system string) :=
  advance_all cfg [(0%nat, Call "k1"); (0%nat, Tick 0); (0%nat, Tick 0); (0%nat, Tick 0);
                   (1%nat, Call "k1"); (1%nat, Tick 0)] (start 2).

Definition after_loading : system string :=
  System (DatasetCache [] 0 0 []) {["k1"]} [Loading "k1"; Wanting "k1"] [].

Lemma loading_runs : loading = Some after_loading.
Proof. vm_compute. done. Qed.
End DatasetDemo.

(** ** The theorems *)

(** C24: however the threads interleave, the cache holds at most [max_entries]
    values under distinct keys, and every loaded value is accounted for: as often
    as loaders returned it, it has been released, is resident, or is in the hands
    of a thread that is about to store or release it.  While a thread loads a key
    or is about to store what it loaded, the key is absent from the cache and no
    other thread loads it: equivalent loads run once, and storing never replaces,
    and so never releases, a value of the same key. *)
Theorem loaded_datasets_are_accounted_for {T} `{EqDecision T} cfg n (s : system T) v :
  (1 <= max_entries cfg)%nat -> rtc (dataset_step cfg) (start n) s ->
  (length (dc_entries (sy_cache s)) <= max_entries cfg)%nat
  /\ NoDup (map fst (dc_entries (sy_cache s)))
  /\ count v (sy_loaded s)
     = (count v (dc_released (sy_cache s)) + count v (resident (sy_cache s))
        + count v (in_hand s))%nat
  /\ forall i p key, sy_threads s !! i = Some p -> filling p = Some key ->
     find_entry key (dc_entries (sy_cache s)) = None
     /\ forall j q, sy_threads s !! j = Some q -> filling q = Some key -> i = j.
Proof.
  intros Hmax Hr. pose proof (reachable_inv cfg n s Hmax Hr) as Hinv.
  split_and!; [apply Hinv..|]. intros i p key Hi Hp. split; [by eapply si_absent|].
  intros j q Hj Hq. eapply si_alone; [done|exact Hi|exact Hj| |]; by apply filling_owner.
Qed.

Lemma loaded_datasets_are_accounted_for_witness :
  count "view1" (sy_loaded DatasetDemo.after_busy)
  = (count "view1" (dc_released (sy_cache DatasetDemo.after_busy))
     + count "view1" (resident (sy_cache DatasetDemo.after_busy))
     + count "view1" (in_hand DatasetDemo.after_busy))%nat
  /\ forall j q, sy_threads DatasetDemo.after_loading !! j = Some q -> filling q = Some "k1" ->
     0%nat = j.
Proof.
  split.
  - apply (loaded_datasets_are_accounted_for DatasetDemo.cfg 2 DatasetDemo.after_busy "view1");
      [cbn; lia|]. apply (advance_all_reachable _ _ _ _ DatasetDemo.busy_runs).
  - destruct (loaded_datasets_are_accounted_for DatasetDemo.cfg 2 DatasetDemo.after_loading "view1")
      as (_ & _ & _ & Hone); [cbn; lia| |].
    + apply (advance_all_reachable _ _ _ _ DatasetDemo.loading_runs).
    + by apply (Hone 0%nat (Loading "k1") "k1").
Defined.

(** a dataset can be released while its caller still uses it: with room for
    one entry, a second thread's load evicts and releases the value the first
    thread has just been given, before it reads it. *)
Theorem eviction_releases_a_dataset_in_use :
  exists s : system string,
    rtc (dataset_step DatasetDemo.cfg) (start 2) s
    /\ sy_threads s !! 0%nat = Some (Returned "view1" false)
    /\ "view1" ∈ dc_released (sy_cache s).
Proof.
  exists DatasetDemo.after_busy. split_and!; [|done|cbn; set_solver].
  apply (advance_all_reachable _ _ _ _ DatasetDemo.busy_runs).
Qed.

(** ** Question marks in local patterns *)

Definition plain_char (a : ascii) : bool :=
  negb (bool_decide (a ∈ ["?"%char; "#"%char; ascii_of_nat 9; ascii_of_nat 10; ascii_of_nat 13])).

Lemma before_any_app cs p s :
  string_forall (fun a => negb (bool_decide (a ∈ cs))) p = true ->
  before_any cs (p +:+ s) = p +:+ before_any cs s.
Proof.
  induction p as [|b p IH]; cbn [string_forall]; [by rewrite !string_app_nil|].
  intros [Hb Hp]%andb_true_iff. rewrite !string_app_cons. cbn [before_any].
  destruct (bool_decide (b ∈ cs)); [done|]. by rewrite IH.
Qed.

Lemma plain_forall (f : ascii -> bool) p :
  (forall a, plain_char a = true -> f a = true) ->
  string_forall plain_char p = true -> string_forall f p = true.
Proof.
  intros Hf. induction p as [|a p IH]; cbn; [done|].
  intros [Ha Hp]%andb_true_iff. by rewrite Hf, IH.
Qed.

Lemma plain_drop_breaks p : string_forall plain_char p = true -> drop_breaks p = p.
Proof.
  induction p as [|a p IH]; cbn [string_forall drop_breaks]; [done|].
  intros [Ha Hp]%andb_true_iff. rewrite IH by done.
  destruct (((nat_of_ascii a =? 9) || (nat_of_ascii a =? 10) || (nat_of_ascii a =? 13))%nat) eqn:E;
    [|done].
  exfalso. unfold plain_char in Ha. apply negb_true_iff, bool_decide_eq_false in Ha. apply Ha.
  rewrite <- (ascii_nat_embedding a).
  apply orb_true_iff in E as [[E|E]%orb_true_iff|E]; apply Nat.eqb_eq in E; rewrite E; set_solver.
Qed.

Lemma substring_all n s : (String.length s <= n)%nat -> String.substring 0 n s = s.
Proof.
  revert n. induction s as [|a s IH]; intros [|n]; cbn; try done; [lia|].
  intros Hn. by rewrite IH by lia.
Qed.

Lemma remove_prefix_app p s : remove_prefix p (p +:+ s) = s.
Proof.
  unfold remove_prefix. rewrite starts_with_app.
  cut (forall n, (String.length s <= n)%nat -> String.substring (String.length p) n (p +:+ s) = s).
  { intros Hc. apply Hc. clear Hc. induction p as [|a p IH]; [done|]. rewrite string_app_cons. cbn. lia. }
  intros n. induction p as [|a p IH]; [apply substring_all|].
  rewrite string_app_cons. cbn. exact IH.
Qed.

(** A "?" in a local pattern is taken for the start of a URL query.  The
    path whose files are listed ends before the first "?", so the wildcard never
    matches and other files may be read in its place. *)
Theorem question_mark_truncates_the_pattern p q :
  string_forall plain_char p = true -> url_path ("file:///" +:+ p +:+ "?" +:+ q) = "/" +:+ p.
Proof.
  intros Hp.
  assert (E : drop_breaks (strip_controls ("file:///" +:+ p +:+ "?" +:+ q))
              = "file:///" +:+ p +:+ "?" +:+ drop_breaks q).
  { rewrite strip_controls_app by done. rewrite !drop_breaks_app, (plain_drop_breaks p) by done.
    done. }
  unfold url_path. rewrite E, url_scheme_app by done. 
  change (if decide (url_scheme "file:///" = "") then ?a else ?b) with b.
  change (after_char ":" ("file:///" +:+ ?t)) with ("//" +:+ ("/" +:+ t)).
  rewrite starts_with_app, remove_prefix_app.
  change (from_any ?cs ("/" +:+ ?t)) with ("/" +:+ t).
  rewrite !(before_any_app _ "/") by done. f_equal.
  rewrite !before_any_app by (by apply (plain_forall _ p); [|done]; intros a;
    unfold plain_char; rewrite !negb_true_iff, !bool_decide_eq_false; set_solver).
  cbn. by rewrite string_app_nil_r.
Qed.

Lemma question_mark_truncates_the_pattern_witness :
  url_path "file:///data/day?.csv" = "/data/day".
Proof. by apply (question_mark_truncates_the_pattern "data/day" ".csv"). Defined.
