(* ===== verification/FingerprintTheorems.v ===== *)
(** * What a fingerprint identifies

    [dumps] is injective up to the order of object keys: no two payloads that
    differ in anything else have the same text.  So two requests share a
    fingerprint only if they agree in every field, or the digest collides. *)

From Stdlib Require Import Ascii DecimalString DecimalPos DecimalZ.
From S2P Require Import Prelude Models Fingerprint.

#[local] Open Scope Z_scope.

(** ** Payloads up to the order of keys *)

Fixpoint canon (j : json) : json :=
  match j with
  | JArr l => JArr (map canon l)
  | JObj fields => JObj (sort_keys (map (fun p => (p.1, canon p.2)) fields))
  | _ => j
  end.

(** An induction principle that looks inside arrays and objects. *)
Section induction.
Context (P : json -> Prop)
  (Pnull : P JNull) (Pbool : forall b, P (JBool b)) (Pint : forall z, P (JInt z))
  (Pstr : forall s, P (JStr s)) (Parr : forall l, Forall P l -> P (JArr l))
  (Pobj : forall fields, Forall (fun p => P p.2) fields -> P (JObj fields)).

Fixpoint json_induction (j : json) : P j :=
  match j with
  | JNull => Pnull
  | JBool b => Pbool b
  | JInt z => Pint z
  | JStr s => Pstr s
  | JArr l => Parr l ((fix go l : Forall P l :=
                         match l with
                         | [] => Forall_nil_2 P
                         | x :: l => Forall_cons_2 P x l (json_induction x) (go l)
                         end) l)
  | JObj fields =>
      Pobj fields ((fix go l : Forall (fun p => P p.2) l :=
                      match l with
                      | [] => Forall_nil_2 _
                      | p :: l => Forall_cons_2 (fun p => P p.2) p l (json_induction p.2) (go l)
                      end) fields)
  end.
End induction.

(** ** Strings *)

Fixpoint code_prefix (s t : string) : bool :=
  match s, t with
  | EmptyString, _ | _, EmptyString => true
  | String a s, String b t => bool_decide (a = b) && code_prefix s t
  end.

Definition all_ascii : list ascii := map ascii_of_nat (seq 0 256).

Lemma all_ascii_complete a : a ∈ all_ascii.
Proof.
  unfold all_ascii. rewrite <- (ascii_nat_embedding a). apply list_elem_of_fmap.
  exists (nat_of_ascii a). split; [done|]. apply elem_of_seq.
  pose proof (nat_ascii_bounded a). lia.
Qed.

(** The escapes form a prefix code that never starts with a quote. *)
Lemma escapes_prefix_free :
  forallb (fun a => forallb (fun b => bool_decide (a = b)
                                      || negb (code_prefix (escape_char a) (escape_char b)))
                      all_ascii) all_ascii = true.
Proof. vm_compute. reflexivity. Qed.

Lemma escapes_no_quote :
  forallb (fun a => negb (code_prefix (escape_char a) dquote)) all_ascii = true.
Proof. vm_compute. reflexivity. Qed.

Lemma code_prefix_app s t x y : s +:+ x = t +:+ y -> code_prefix s t = true.
Proof.
  revert t. induction s as [|a s IH]; intros [|b t]; [done..|].
  rewrite !string_app_cons. intros [= -> E]. cbn. rewrite bool_decide_true by done. by apply IH in E.
Qed.

Lemma escape_char_inj a b x y :
  escape_char a +:+ x = escape_char b +:+ y -> a = b /\ x = y.
Proof.
  intros E. pose proof escapes_prefix_free as Hf. rewrite forallb_forall in Hf.
  specialize (Hf a (proj1 (list_elem_of_In _ _) (all_ascii_complete a))).
  rewrite forallb_forall in Hf.
  specialize (Hf b (proj1 (list_elem_of_In _ _) (all_ascii_complete b))).
  rewrite (code_prefix_app _ _ _ _ E), orb_false_r in Hf. apply bool_decide_eq_true in Hf as ->.
  split; [done|]. by apply (inj (String.append _)) in E.
Qed.

Lemma escape_char_quote a x y : escape_char a +:+ x <> dquote +:+ y.
Proof.
  intros E. pose proof escapes_no_quote as Hf. rewrite forallb_forall in Hf.
  specialize (Hf a (proj1 (list_elem_of_In _ _) (all_ascii_complete a))).
  by rewrite (code_prefix_app _ _ _ _ E) in Hf.
Qed.

Lemma escape_inj s t x y :
  escape s +:+ dquote +:+ x = escape t +:+ dquote +:+ y -> s = t /\ x = y.
Proof.
  revert t. induction s as [|a s IH]; intros [|b t]; cbn [escape];
    rewrite ?string_app_nil, <- ?string_app_assoc; intros E.
  - by apply (inj (String.append _)) in E.
  - symmetry in E. by apply escape_char_quote in E.
  - by apply escape_char_quote in E.
  - apply escape_char_inj in E as [-> E]. apply IH in E as [-> ->]. done.
Qed.

Lemma quote_inj s t x y : quote s +:+ x = quote t +:+ y -> s = t /\ x = y.
Proof.
  unfold quote. rewrite <- !string_app_assoc. intros E.
  apply (inj (String.append _)) in E. by apply escape_inj.
Qed.

(** ** Numbers *)

Definition num_char (a : ascii) : bool := is_digit a || bool_decide (a = "-"%char).

(** What may follow a value: nothing, or a character no number contains. *)
Definition stops (r : string) : bool :=
  match r with EmptyString => true | String a _ => negb (num_char a) end.

Lemma digits_num u : string_forall num_char (NilEmpty.string_of_uint u) = true.
Proof. by induction u. Qed.

Lemma number_num z : string_forall num_char (str_of_Z z) = true.
Proof.
  unfold str_of_Z. destruct (Z.to_int z) as [u|u]; cbn; destruct u; try done; apply digits_num.
Qed.

Lemma number_head z : exists a s, str_of_Z z = String a s /\ num_char a = true.
Proof.
  pose proof (number_num z) as Hn. destruct (str_of_Z z) as [|a s] eqn:E.
  - exfalso. unfold str_of_Z in E. destruct (Z.to_int z) as [u|u]; cbn in E; by destruct u.
  - exists a, s. by apply andb_true_iff in Hn as [? _].
Qed.

Lemma span_inj s t x y :
  string_forall num_char s = true -> string_forall num_char t = true ->
  stops x = true -> stops y = true -> s +:+ x = t +:+ y -> s = t /\ x = y.
Proof.
  intros Hs Ht Hx Hy. revert t Hs Ht. induction s as [|a s IH]; intros [|b t];
    rewrite ?string_app_nil, ?string_app_cons; cbn [string_forall]; intros Hs Ht E.
  - done.
  - rewrite E in Hx. cbn in Hx. apply andb_true_iff in Ht as [Ht _]. by rewrite Ht in Hx.
  - rewrite <- E in Hy. cbn in Hy. apply andb_true_iff in Hs as [Hs _]. by rewrite Hs in Hy.
  - injection E as -> E. apply andb_true_iff in Hs as [_ Hs], Ht as [_ Ht].
    destruct (IH t Hs Ht E) as [-> ->]. done.
Qed.

(** ** Lists between commas *)

(** A printed value starts with none of the characters that separate or close. *)
Definition opens (s : string) : Prop :=
  exists a t, s = String a t /\ a <> ","%char /\ a <> "]"%char /\ a <> "}"%char.

Lemma opens_app s t : opens s -> opens (s +:+ t).
Proof. intros (a & u & -> & H). exists a, (u +:+ t). by rewrite string_app_cons. Qed.

Section lists.
Context {X Y : Type} (pr : X -> string) (f : X -> Y) (close : ascii).
Context (Hclose : close = "]"%char \/ close = "}"%char).
Context (pr_opens : forall x, opens (pr x)).

(** What follows the first element: the other elements, then the closing sign. *)
Fixpoint tail_text (l : list X) : string :=
  match l with
  | [] => String close EmptyString
  | x :: l => "," +:+ pr x +:+ tail_text l
  end.

Lemma join_tail x l : join "," (map pr (x :: l)) +:+ String close "" = pr x +:+ tail_text l.
Proof using.
  revert x. induction l as [|y l IH]; intros x; [done|].
  change (join "," (map pr (x :: y :: l)))
    with (pr x +:+ "," +:+ join "," (map pr (y :: l))).
  rewrite <- !string_app_assoc. by rewrite IH.
Qed.

Lemma tail_stops l r : stops (tail_text l +:+ r) = true.
Proof using Hclose. destruct l; cbn; [by destruct Hclose as [-> | ->]|done]. Qed.

Lemma tail_inj l1 l2 r1 r2 :
  Forall (fun x => forall y s1 s2, stops s1 = true -> stops s2 = true ->
            pr x +:+ s1 = pr y +:+ s2 -> f x = f y /\ s1 = s2) l1 ->
  tail_text l1 +:+ r1 = tail_text l2 +:+ r2 -> map f l1 = map f l2 /\ r1 = r2.
Proof using Hclose.
  intros Hl. revert l2. induction Hl as [|x l1 Hx _ IH]; intros [|y l2]; cbn [tail_text];
    rewrite ?string_app_cons, ?string_app_nil, <- ?string_app_assoc; intros E.
  - by injection E as ->.
  - exfalso. destruct Hclose as [-> | ->]; discriminate E.
  - exfalso. destruct Hclose as [-> | ->]; discriminate E.
  - injection E as E.
    destruct (Hx y (tail_text l1 +:+ r1) (tail_text l2 +:+ r2)) as [Ef Et];
      [apply tail_stops|apply tail_stops|done|].
    destruct (IH l2 Et) as [Em ->]. cbn. by rewrite Ef, Em.
Qed.

Lemma join_inj l1 l2 r1 r2 :
  Forall (fun x => forall y s1 s2, stops s1 = true -> stops s2 = true ->
            pr x +:+ s1 = pr y +:+ s2 -> f x = f y /\ s1 = s2) l1 ->
  join "," (map pr l1) +:+ String close r1 = join "," (map pr l2) +:+ String close r2 ->
  map f l1 = map f l2 /\ r1 = r2.
Proof using Hclose pr_opens.
  assert (Hshut : forall x l r1 r2, join "," (map pr (x :: l)) +:+ String close r1
                                    <> String close r2).
  { intros x l s1 s2. change (String close s1) with (String close "" +:+ s1).
    rewrite string_app_assoc, join_tail, <- string_app_assoc. intros E.
    destruct (opens_app (pr x) (tail_text l +:+ s1) (pr_opens x)) as (a & t & Ha & _ & H1 & H2).
    rewrite Ha in E. injection E as -> _. by destruct Hclose. }
  intros Hl E. destruct l1 as [|x l1], l2 as [|y l2].
  - by injection E as ->.
  - symmetry in E. by apply Hshut in E.
  - by apply Hshut in E.
  - change (String close r1) with (String close "" +:+ r1) in E.
    change (String close r2) with (String close "" +:+ r2) in E.
    rewrite !string_app_assoc, !join_tail in E. apply (tail_inj (x :: l1) (y :: l2)); [done|].
    cbn [tail_text]. rewrite <- !string_app_assoc in E |- *. by rewrite E, <- !string_app_assoc.
Qed.
End lists.

(** ** Sorting by key commutes with a map on the values *)

Lemma insert_key_map {A B} (g : A -> B) (p : string * A) l :
  insert_key (p.1, g p.2) (map (fun q => (q.1, g q.2)) l)
  = map (fun q => (q.1, g q.2)) (insert_key p l).
Proof.
  induction l as [|q l IH]; [done|]. cbn. unfold key_le in *. cbn.
  destruct (decide (String.leb p.1 q.1 = true)); cbn; [done|]. by rewrite IH.
Qed.

Lemma sort_keys_map {A B} (g : A -> B) l :
  sort_keys (map (fun q => (q.1, g q.2)) l) = map (fun q => (q.1, g q.2)) (sort_keys l).
Proof.
  induction l as [|p l IH]; [done|]. cbn. unfold sort_keys in *. cbn. rewrite IH.
  apply (insert_key_map g p).
Qed.

Lemma insert_key_in {A} (p q : string * A) l : q ∈ insert_key p l <-> q = p \/ q ∈ l.
Proof.
  induction l as [|r l IH]; cbn; [set_solver|]. case_decide; set_solver.
Qed.

Lemma sort_keys_in {A} (q : string * A) l : q ∈ sort_keys l <-> q ∈ l.
Proof.
  unfold sort_keys. induction l as [|p l IH]; cbn; [done|].
  rewrite insert_key_in, IH. set_solver.
Qed.

(** ** The text determines the payload *)

Definition field_text (p : string * json) : string := quote p.1 +:+ ":" +:+ dumps p.2.

Lemma dumps_obj fields :
  dumps (JObj fields) = "{" +:+ join "," (map field_text (sort_keys fields)) +:+ "}".
Proof.
  cbn. rewrite (sort_keys_map dumps), map_map. done.
Qed.

Lemma canon_obj fields :
  canon (JObj fields) = JObj (map (fun p => (p.1, canon p.2)) (sort_keys fields)).
Proof. cbn. by rewrite (sort_keys_map canon). Qed.

Lemma dumps_opens j : opens (dumps j).
Proof.
  destruct j as [|b|z|s|l|fields].
  - by eexists _, _.
  - destruct b; by eexists _, _.
  - destruct (number_head z) as (a & s & E & Ha). exists a, s. cbn. split; [done|].
    split_and!; intros ->; done.
  - by eexists _, _.
  - by eexists _, _.
  - by eexists _, _.
Qed.

Lemma field_opens p : opens (field_text p).
Proof. unfold field_text, quote. by eexists _, _. Qed.

(** The first character tells the kind of a value. *)
Definition kind (j : json) : nat :=
  match j with
  | JNull => 0 | JBool _ => 1 | JInt _ => 2 | JStr _ => 3 | JArr _ => 4 | JObj _ => 5
  end%nat.

Definition kind_of_char (a : ascii) : nat :=
  (if num_char a then 2
   else if bool_decide (a = "n"%char) then 0
   else if bool_decide (a = "["%char) then 4
   else if bool_decide (a = "{"%char) then 5
   else if (nat_of_ascii a =? 34)%nat then 3 else 1)%nat.

Lemma dumps_kind j : exists a s, dumps j = String a s /\ kind_of_char a = kind j.
Proof.
  destruct j as [|b|z|s|l|fields]; try (by eexists _, _).
  - destruct b; by eexists _, _.
  - destruct (number_head z) as (a & s & E & Ha). exists a, s. split; [done|].
    unfold kind_of_char. by rewrite Ha.
Qed.

Lemma same_kind j1 j2 r1 r2 : dumps j1 +:+ r1 = dumps j2 +:+ r2 -> kind j1 = kind j2.
Proof.
  destruct (dumps_kind j1) as (a1 & s1 & -> & <-), (dumps_kind j2) as (a2 & s2 & -> & <-).
  rewrite !string_app_cons. by intros [= -> _].
Qed.

Lemma field_inj p q r1 r2 :
  (forall j s1 s2, stops s1 = true -> stops s2 = true -> dumps p.2 +:+ s1 = dumps j +:+ s2 ->
     canon p.2 = canon j /\ s1 = s2) ->
  stops r1 = true -> stops r2 = true -> field_text p +:+ r1 = field_text q +:+ r2 ->
  (p.1, canon p.2) = (q.1, canon q.2) /\ r1 = r2.
Proof.
  intros IH H1 H2. unfold field_text. rewrite <- !string_app_assoc. intros E.
  apply quote_inj in E as [-> E]. apply (inj (String.append _)) in E.
  by destruct (IH q.2 r1 r2 H1 H2 E) as [-> ->].
Qed.

(** Two values whose texts start one text are the same value. *)
Lemma dumps_prefix_inj j1 : forall j2 r1 r2, stops r1 = true -> stops r2 = true ->
  dumps j1 +:+ r1 = dumps j2 +:+ r2 -> canon j1 = canon j2 /\ r1 = r2.
Proof.
  induction j1 as [|b|z|s|l Hl|fields Hf] using json_induction; intros j2 r1 r2 H1 H2 E;
    pose proof (same_kind _ _ _ _ E) as Hk; destruct j2 as [|b2|z2|s2|l2|fields2];
    try discriminate Hk; clear Hk.
  - split; [done|]. by apply (inj (String.append _)) in E.
  - destruct b, b2; try discriminate E; split; try done; by apply (inj (String.append _)) in E.
  - destruct (span_inj _ _ _ _ (number_num z) (number_num z2) H1 H2 E) as [Ez ->].
    by apply str_of_Z_inj in Ez as ->.
  - by apply quote_inj in E as [-> ->].
  - cbn [dumps] in E. rewrite <- !string_app_assoc in E. apply (inj (String.append _)) in E.
    change ("]" +:+ ?r) with (String "]"%char r) in E. cbn [canon].
    destruct (join_inj dumps canon "]"%char (or_introl eq_refl) dumps_opens l l2 r1 r2) as [-> ->];
      [|done..]. apply (Forall_impl _ _ _ Hl). auto.
  - rewrite !dumps_obj, <- !string_app_assoc in E. apply (inj (String.append _)) in E.
    change ("}" +:+ ?r) with (String "}"%char r) in E. rewrite !canon_obj.
    destruct (join_inj field_text (fun p => (p.1, canon p.2)) "}"%char (or_intror eq_refl)
                field_opens (sort_keys fields) (sort_keys fields2) r1 r2) as [-> ->]; [|done..].
    apply Forall_forall. intros p Hp y s1 s2 Hs1 Hs2. apply field_inj; [|done..].
    apply (proj1 (Forall_forall _ _) Hf). by apply sort_keys_in.
Qed.

(** ** Fingerprints *)

Definition digests_collide `{Sha256} : Prop :=
  exists x y, x <> y /\ sha256_hex x = sha256_hex y.

Lemma hash_inj `{Sha256} j1 j2 : _hash j1 = _hash j2 -> canon j1 = canon j2 \/ digests_collide.
Proof.
  unfold _hash. intros E. destruct (decide (dumps j1 = dumps j2)) as [Ed|Ed].
  - left. apply (dumps_prefix_inj j1 j2 "" ""); [done..|]. by rewrite Ed.
  - right. by eexists _, _.
Qed.

(** Objects with one canonical form have the same fields. *)
Lemma canon_field f1 f2 k v1 :
  canon (JObj f1) = canon (JObj f2) -> (k, v1) ∈ f1 -> exists v2, (k, v2) ∈ f2 /\ canon v1 = canon v2.
Proof.
  rewrite !canon_obj. intros [= E] Hin%sort_keys_in.
  assert ((k, canon v1) ∈ map (fun p => (p.1, canon p.2)) (sort_keys f2)) as H.
  { rewrite <- E. apply list_elem_of_fmap. by exists (k, v1). }
  apply list_elem_of_fmap in H as ([k' v2] & [= -> Ev] & H). rewrite sort_keys_in in H.
  by exists v2.
Qed.

(** Read one field of equal objects: the field of that name on the other side. *)
Ltac field E k :=
  lazymatch type of E with canon (JObj ?f1) = canon (JObj ?f2) =>
    let v1 := lazymatch f1 with context [(k, ?v)] => v end in
    let v2 := fresh "v" in let Hin := fresh "Hin" in let Hv := fresh "Hv" in
    destruct (canon_field f1 f2 k v1 E ltac:(set_solver)) as (v2 & Hin & Hv);
    let He := fresh "He" in
    repeat (apply elem_of_cons in Hin as [He|Hin];
            [first [discriminate He | injection He as He; subst v2]|]);
    [|by apply not_elem_of_nil in Hin]
  end.

(** One declaration of a source and another that says the same. *)
Record same_source (s t : SourceSpec) : Prop := {
  ss_path : src_path s = src_path t;
  ss_format : src_format s = src_format t;
  ss_location : src_location s = src_location t;
  ss_version : src_version s = src_version t;
  ss_infer : src_infer_schema s = src_infer_schema t;
  ss_options : canon (j_dict (src_options s)) = canon (j_dict (src_options t));
  ss_schema : canon (j_schema (src_schema s)) = canon (j_schema (src_schema t));
}.

Lemma j_opt_canon_inj o1 o2 : canon (j_opt o1) = canon (j_opt o2) -> o1 = o2.
Proof. destruct o1, o2; cbn; congruence. Qed.

Lemma j_opt_int_canon_inj o1 o2 : canon (j_opt_int o1) = canon (j_opt_int o2) -> o1 = o2.
Proof. destruct o1, o2; cbn; congruence. Qed.

Lemma data_format_inj f g : data_format_value f = data_format_value g -> f = g.
Proof. by destruct f, g. Qed.

Lemma dump_source_inj s t : canon (dump_source s) = canon (dump_source t) -> same_source s t.
Proof.
  unfold dump_source. intros E. split.
  - field E "path". by injection Hv.
  - field E "format". injection Hv as Hv. by apply data_format_inj.
  - field E "location". by apply j_opt_canon_inj.
  - field E "version". by apply j_opt_canon_inj.
  - field E "infer_schema". by injection Hv.
  - field E "options". done.
  - field E "schema_definition". done.
Qed.

(** Two requests that ask the same query of the same declared sources. *)
Definition same_sources (r1 r2 : QueryRequest) : Prop :=
  forall name s, (name, s) ∈ q_sources r1 -> exists t, (name, t) ∈ q_sources r2 /\ same_source s t.

Lemma dump_sources_inj r1 r2 :
  canon (dump_sources r1) = canon (dump_sources r2) -> same_sources r1 r2.
Proof.
  unfold dump_sources. intros E name s Hin.
  destruct (canon_field _ _ name (dump_source s) E) as (v & Hv & Ev).
  - apply list_elem_of_fmap. by exists (name, s).
  - apply list_elem_of_fmap in Hv as ([n t] & [= -> ->] & Hv). exists t. split; [done|].
    by apply dump_source_inj.
Qed.

Record same_request (r1 r2 : QueryRequest) : Prop := {
  sr_sql : q_sql r1 = q_sql r2;
  sr_sources : same_sources r1 r2;
  sr_output : canon (dump_output (q_output r1)) = canon (dump_output (q_output r2));
  sr_max_rows : q_max_rows r1 = q_max_rows r2;
  sr_ttl : q_cache_ttl_seconds r1 = q_cache_ttl_seconds r2;
  sr_timeout : q_timeout_seconds r1 = q_timeout_seconds r2;
}.

(** C20: two requests with one payload fingerprint ask the same query: the same
    SQL, limits, output and sources under the same names, up to the order in
    which options and columns are written, unless SHA-256 collides.  So an
    idempotency key never joins two different requests by accident. *)
Theorem request_fingerprint_identifies `{Sha256} r1 r2 :
  request_payload_fingerprint r1 = request_payload_fingerprint r2 ->
  same_request r1 r2 \/ digests_collide.
Proof.
  intros E. apply hash_inj in E as [E|?]; [left|by right]. unfold dump_request_json in E. split.
  - field E "sql". by injection Hv.
  - field E "sources". by apply dump_sources_inj.
  - field E "output". done.
  - field E "max_rows". by injection Hv.
  - field E "cache_ttl_seconds". by apply j_opt_int_canon_inj.
  - field E "timeout_seconds". by apply j_opt_int_canon_inj.
Qed.

Module FingerprintDemo.
#[local] Instance sha : Sha256 := {| sha256_hex s := s; sha256_head _ := 0 |}.

Definition source (o : list (string * string)) : SourceSpec :=
  MkSource "events.csv" F_CSV None o None None true.

Definition request (o : list (string * string)) : QueryRequest :=
  MkRequest "select 1" [("t", source o)] default_output None None None.

Definition r1 : QueryRequest := request [("sep", ","); ("header", "true")].
Definition r2 : QueryRequest := request [("header", "true"); ("sep", ",")].
End FingerprintDemo.

Lemma request_fingerprint_identifies_witness (H := FingerprintDemo.sha) :
  same_request FingerprintDemo.r1 FingerprintDemo.r2 \/ digests_collide.
Proof. apply (request_fingerprint_identifies FingerprintDemo.r1). by vm_compute. Defined.

(** ** Query fingerprints *)

(** What two cached queries with one key share. *)
Record same_query (normalize : string -> list string -> result exn string)
    (r1 r2 : QueryRequest) (vs1 vs2 : list (string * string)) : Prop := {
  sq_sql : normalize (q_sql r1) (map fst (q_sources r1))
           = normalize (q_sql r2) (map fst (q_sources r2));
  sq_sources : same_sources r1 r2;
  sq_output : canon (dump_output (q_output r1)) = canon (dump_output (q_output r2));
  sq_max_rows : q_max_rows r1 = q_max_rows r2;
  sq_timeout : q_timeout_seconds r1 = q_timeout_seconds r2;
  sq_versions : canon (j_dict vs1) = canon (j_dict vs2);
}.

Lemma query_fingerprint_inj `{Sha256} normalize r1 r2 vs1 vs2 key :
  query_fingerprint normalize r1 vs1 = Ok key -> query_fingerprint normalize r2 vs2 = Ok key ->
  same_query normalize r1 r2 vs1 vs2 \/ digests_collide.
Proof.
  unfold query_fingerprint.
  destruct (normalize (q_sql r1) _) as [sql1|] eqn:E1; [|done]. intros [= <-].
  destruct (normalize (q_sql r2) _) as [sql2|] eqn:E2; [|done]. intros [= E].
  apply hash_inj in E as [E|?]; [left|by right]. symmetry in E. unfold query_payload in E. split.
  - rewrite E1, E2. field E "sql". by injection Hv as ->.
  - field E "sources". by apply dump_sources_inj.
  - field E "output". done.
  - field E "max_rows". by injection Hv.
  - field E "timeout_seconds". by apply j_opt_int_canon_inj.
  - field E "source_versions". done.
Qed.
