(* ===== verification/Service.v ===== *)
(** * The query service

    src/src/dalmatian/service.py, with the execution context of execution.py:
    limits and validation, the admission slots, the cached and single-flight
    execution of inline queries, streaming, explaining and inspecting.  The
    engine, the result cache, the metadata store and the semaphore are operations
    ([sop]), and so are the metrics; logging is left out.  A stream is consumed by
    somebody who asks for a number of chunks and then closes it ([guarded]). *)

From Stdlib Require Import QArith.
From S2P Require Import Prelude Models Fingerprint Prog Observability Datasets.

#[local] Open Scope Z_scope.

(** ** Contexts, configuration, other results *)

(** [ec_publishes]: the context carries the worker's callbacks. *)
Record ExecutionContext := Context {
  ec_query_id : string;
  ec_attempt_id : string;
  ec_attempt_number : Z;
  ec_timeout_seconds : Z;
  ec_publishes : bool;
  ec_kind : string;
}.

(** [ExecutionContext(timeout_seconds=...)], with its two uuids. *)
Definition default_context (uuids : string * string) (timeout : Z) : ExecutionContext :=
  Context uuids.1 uuids.2 0 timeout false "sync".

Record service_cfg := ServiceCfg {
  default_cache_ttl_seconds : Z;
  max_cache_ttl_seconds : Z;
  result_row_limit : Z;
  max_concurrent_queries : nat;
  default_query_timeout_seconds : Z;
  max_query_timeout_seconds : Z;
  singleflight_wait_seconds : Q;
  singleflight_lock_seconds : Z;
}.

Record SourceColumn := Column { sc_name : string; sc_type : string; sc_nullable : bool }.

Record SourceInspection := Inspection {
  si_location : string;
  si_resolved_uri : string;
  si_fingerprint : option string;
  si_cache_safe : bool;
  si_columns : list SourceColumn;
}.

Record ExplainResult := Explained {
  ex_query_id : string;
  ex_normalized_sql : string;
  ex_source_versions : list (string * string);
  ex_plan : string;
}.

(** ** Operations *)

Inductive sop (R : Type) : Type -> Type :=
(* the admission semaphore *)
| TryAcquire : sop R bool
| ReleaseSlot : sop R unit
(* uuid4() and uuid4().hex *)
| NewIds : sop R (string * string)
(* the metadata store *)
| RecordInvocation (id kind : string) (request : QueryRequest) : sop R (result exn unit)
| UpdateInvocation (id status : string) (res : option (QueryResult R))
    (error error_class : option string) : sop R (result exn unit)
(* the engine *)
| Prepare (request : QueryRequest) (sql : string) : sop R (result exn PreparedQuery)
| EngineExecute (p : PreparedQuery) (context : ExecutionContext) : sop R (result exn (QueryResult R))
| EngineStream (p : PreparedQuery) (context : ExecutionContext) : sop R (result exn string)
| NextRow : sop R (result exn (option string))
| EngineExplain (p : PreparedQuery) (context : ExecutionContext) : sop R (result exn string)
| EngineInspect (s : SourceSpec) : sop R (result exn SourceInspection)
| EngineCancel (query_id : string) : sop R (result exn unit)
| EnginePing : sop R (result exn bool)
| EngineClose : sop R (result exn unit)
(* the result cache *)
| CacheGet (key : string) : sop R (result exn (option (InlineResult R)))
| CacheSet (key : string) (v : InlineResult R) (ttl : Z) : sop R (result exn bool)
| CacheAcquire (key : string) (ttl : Z) : sop R (result exn (option string))
| CacheRelease (key token : string) : sop R (result exn unit)
| CacheWait (key : string) (timeout : Q) : sop R (result exn (option (InlineResult R)))
| CachePing : sop R (result exn bool)
| CacheClose : sop R (result exn unit)
(* the consumer of a stream *)
| Yield (chunk : string) : sop R unit
(* a metric, and [len(result.model_dump_json().encode())] *)
| Measure (m : metric) : sop R unit
| InlineBytes (v : InlineResult R) : sop R Z.
Arguments TryAcquire {R}.
Arguments ReleaseSlot {R}.
Arguments NewIds {R}.
Arguments RecordInvocation {R} id kind request.
Arguments UpdateInvocation {R} id status res error error_class.
Arguments Prepare {R} request sql.
Arguments EngineExecute {R} p context.
Arguments EngineStream {R} p context.
Arguments NextRow {R}.
Arguments EngineExplain {R} p context.
Arguments EngineInspect {R} s.
Arguments EngineCancel {R} query_id.
Arguments CacheGet {R} key.
Arguments CacheSet {R} key v ttl.
Arguments CacheAcquire {R} key ttl.
Arguments CacheRelease {R} key token.
Arguments CacheWait {R} key timeout.
Arguments Yield {R} chunk.
Arguments EnginePing {R}.
Arguments EngineClose {R}.
Arguments CachePing {R}.
Arguments CacheClose {R}.
Arguments Measure {R} m.
Arguments InlineBytes {R} v.

(** [request.model_copy(update={"sql": sql})]. *)
Definition with_sql (sql : string) (r : QueryRequest) : QueryRequest :=
  MkRequest sql (q_sources r) (q_output r) (q_max_rows_set r) (q_cache_ttl_set r)
    (q_timeout_seconds r).

Definition is_inline (r : QueryRequest) : bool :=
  match out_mode (q_output r) with INLINE => true | _ => false end.

Definition is_stream (r : QueryRequest) : bool :=
  match out_mode (q_output r) with STREAM => true | _ => false end.

Section service.
Context {R : Type} `{Sha256} (normalize : string -> list string -> result exn string)
  (c : service_cfg).
Local Open Scope prog_scope.

Abbreviation program := (prog (sop R)).

Definition try_acquire : program bool := perform TryAcquire.
Definition new_ids : program (string * string) := perform NewIds.

(** ** Limits *)

Definition _ttl (request : QueryRequest) : result exn Z :=
  let ttl := default (default_cache_ttl_seconds c) (q_cache_ttl_seconds request) in
  if max_cache_ttl_seconds c <? ttl
  then raise QueryRejected ("cache_ttl_seconds cannot exceed "
                            +:+ str_of_Z (max_cache_ttl_seconds c))
  else Ok ttl.

Definition _timeout (request : QueryRequest) : result exn Z :=
  let timeout := match q_timeout_seconds request with
                 | None | Some 0 => default_query_timeout_seconds c
                 | Some t => t
                 end in
  if max_query_timeout_seconds c <? timeout
  then raise QueryRejected ("timeout_seconds cannot exceed "
                            +:+ str_of_Z (max_query_timeout_seconds c))
  else Ok timeout.

Definition _validate (request : QueryRequest) : result exn string :=
  if is_inline request && (result_row_limit c <? q_max_rows request)
  then raise QueryRejected ("max_rows cannot exceed " +:+ str_of_Z (result_row_limit c))
  else normalize (q_sql request) (map fst (q_sources request)).

Definition _context (request : QueryRequest) (context : option ExecutionContext)
  : program ExecutionContext :=
  timeout <- lift (_timeout request);;
  match context with
  | None => ids <- new_ids;; Ret (default_context ids timeout)
  | Some x => Ret (Context (ec_query_id x) (ec_attempt_id x) (ec_attempt_number x) timeout
                     (ec_publishes x) (ec_kind x))
  end.

Definition is_sync (context : ExecutionContext) : bool := bool_decide (ec_kind context = "sync").

(** ** Metadata, never in the way *)

Definition _record (query_id kind : string) (request : QueryRequest) : program unit :=
  best_effort (RecordInvocation query_id kind request).

Definition _update (query_id status : string) (res : option (QueryResult R))
    (error error_class : option string) : program unit :=
  best_effort (UpdateInvocation query_id status res error error_class).

Definition update_failed (sync : bool) (query_id : string) (e : exn) : program unit :=
  if sync then _update query_id "failed" None (Some (exn_text e)) (Some (class_name (exn_cls e)))
  else Ret tt.

(** ** Admission *)

Definition busy_text : string := "query concurrency limit reached".

(** [with self._slot(): body]. *)
Definition with_slot {A} (body : program A) : program A :=
  admitted <- try_acquire;;
  if admitted then try_finally body (perform ReleaseSlot) else Raise (Exn BusyError busy_text).

(** ** Execution *)

Definition _cache_get (key query_id : string) : program (option (InlineResult R)) :=
  cached <- (invoke (CacheGet key) : program (option (InlineResult R)));;
  perform (Measure (CacheResult (match cached with Some _ => "hit" | None => "miss" end)));;
  Ret (with_cached true query_id <$> cached).

(** The execution proper; the single-flight lock, if there is one, is released at
    the end, however it ends. *)
Definition run_engine (prepared : PreparedQuery) (context : ExecutionContext) (ttl : Z)
    (flight : option (string * string)) : program (QueryResult R) :=
  try_finally
    (res <- invoke (EngineExecute prepared context);;
     match res with
     | RInline v =>
         let v := with_cached false (ec_query_id context) v in
         bytes <- perform (InlineBytes v);;
         perform (Measure (OutputBytes "inline" bytes));;
         match flight with
         | Some (key, _) => _ <- invoke (CacheSet key v ttl);; Ret (RInline v)
         | None => Ret (RInline v)
         end
     | RStored s => Ret (RStored s)
     end : program (QueryResult R))
    (match flight with
     | Some (key, token) => invoke (CacheRelease key token)
     | None => Ret tt
     end).

(** The first caller of a key executes; the others wait for its result, and try
    the lock once more when none comes. *)
Definition single_flight (key : string) (prepared : PreparedQuery) (context : ExecutionContext)
    (ttl : Z) : program (QueryResult R) :=
  let lock_seconds := Z.max (singleflight_lock_seconds c) (ec_timeout_seconds context + 30) in
  token <- invoke (CacheAcquire key lock_seconds);;
  match token with
  | Some token => run_engine prepared context ttl (Some (key, token))
  | None =>
      cached <- invoke (CacheWait key (singleflight_wait_seconds c));;
      match cached with
      | Some v =>
          perform (Measure (CacheResult "coalesced"));;
          Ret (RInline (with_cached true (ec_query_id context) v))
      | None =>
          token <- invoke (CacheAcquire key lock_seconds);;
          match token with
          | Some token => run_engine prepared context ttl (Some (key, token))
          | None => Raise (Exn BusyError "equivalent query is already running")
          end
      end
  end.

Definition _execute_admitted (request : QueryRequest) (sql : string) (context : ExecutionContext)
  : program (QueryResult R) :=
  ttl <- lift (_ttl request);;
  let cacheable := is_inline request && (0 <? ttl) in
  prepared <- invoke (Prepare request sql);;
  if cacheable && cache_safe prepared then
    key <- lift (query_fingerprint normalize (with_sql sql request) (source_versions prepared));;
    cached <- _cache_get key (ec_query_id context);;
    match cached with
    | Some v => Ret (RInline v)
    | None => single_flight key prepared context ttl
    end
  else run_engine prepared context ttl None.

Definition execute (request : QueryRequest) (context : option ExecutionContext)
  : program (QueryResult R) :=
  sql <- lift (_validate request);;
  context <- _context request context;;
  (if is_sync context then _record (ec_query_id context) "sync" request else Ret tt);;
  res <- try_except (with_slot (query_timer Measure (delivery_mode_value (out_mode (q_output request)))
                                  (_execute_admitted request sql context)))
           (fun e => update_failed (is_sync context) (ec_query_id context) e;; Raise e);;
  (if is_sync context then _update (ec_query_id context) "succeeded" (Some res) None None
   else Ret tt);;
  Ret res.

(** ** Streaming *)

(** The slot taken here is given back by the generator [guarded]. *)
Definition stream (request : QueryRequest) (context : option ExecutionContext)
  : program (string * ExecutionContext) :=
  sql <- lift (_validate request);;
  if negb (is_stream request)
  then Raise (Exn QueryRejected "request output mode is not stream")
  else
    context <- _context request context;;
    (if is_sync context then _record (ec_query_id context) "sync" request else Ret tt);;
    admitted <- try_acquire;;
    if negb admitted then
      (if is_sync context
       then _update (ec_query_id context) "failed" None (Some busy_text) None else Ret tt);;
      Raise (Exn BusyError busy_text)
    else
      media_type <- try_except
        (prepared <- invoke (Prepare request sql);; invoke (EngineStream prepared context))
        (fun e => perform ReleaseSlot;; update_failed (is_sync context) (ec_query_id context) e;;
                  Raise e);;
      Ret (media_type, context).

(** How the body of the generator was left. *)
Inductive stream_end :=
| Finished
| Closed
| Broken (e : exn).

(** Rows are sent as long as the consumer asks: once, and [demand] more times. *)
Fixpoint send_rows (demand : nat) : program stream_end :=
  row <- invoke NextRow;;
  match row with
  | None => Ret Finished
  | Some chunk =>
      perform (Measure (OutputBytes "stream" (Z.of_nat (String.length chunk))));;
      perform (Yield chunk);;
      match demand with O => Ret Closed | S demand => send_rows demand end
  end.

(** The body of [guarded], from its first [next] on. *)
Definition guarded_body (context : ExecutionContext) (demand : nat) : program unit :=
  how <- try_except (query_timer Measure "stream" (send_rows demand))
           (fun e => update_failed (is_sync context) (ec_query_id context) e;; Ret (Broken e));;
  match how with
  | Finished => if is_sync context then _update (ec_query_id context) "succeeded" None None None
                else Ret tt
  | Closed =>
      if is_sync context then
        _update (ec_query_id context) "cancelled" None
          (Some "stream consumer disconnected before completion") None
      else Ret tt
  | Broken _ => Ret tt
  end;;
  invoke (EngineCancel (ec_query_id context));;
  perform ReleaseSlot;;
  match how with Broken e => Raise e | _ => Ret tt end.

(** The consumer calls [next] [demand] times and closes the generator.  Closing a
    generator that never started runs none of its body. *)
Definition guarded (context : ExecutionContext) (demand : nat) : program unit :=
  match demand with O => Ret tt | S demand => guarded_body context demand end.

(** ** The other endpoints *)

Definition affinity_key (request : QueryRequest) : result exn string :=
  r_bind (_validate request) (fun _ => Ok (dataset_affinity_key request)).

Definition explain (request : QueryRequest) : program ExplainResult :=
  sql <- lift (_validate request);;
  ids <- new_ids;;
  timeout <- lift (_timeout request);;
  let context := Context ids.1 ids.2 0 timeout false "sync" in
  r <- with_slot (prepared <- invoke (Prepare request sql);;
                  plan <- invoke (EngineExplain prepared context);;
                  Ret (prepared, plan));;
  Ret (Explained (ec_query_id context) sql (source_versions r.1) r.2).

Definition inspect (s : SourceSpec) : program SourceInspection :=
  with_slot (invoke (EngineInspect s)).

Definition cancel (query_id : string) : program unit := invoke (EngineCancel query_id).

(** [self.cache.ping() and self.engine.ping()]. *)
Definition ready : program bool :=
  alive <- invoke CachePing;;
  if (alive : bool) then invoke EnginePing else Ret false.

(** The cache is closed only when the engine's close does not raise. *)
Definition close : program unit := invoke EngineClose;; invoke CacheClose.

(** ** Requests as the HTTP layer serves them *)

Inductive endpoint :=
| Execute (request : QueryRequest) (context : option ExecutionContext)
| Stream (request : QueryRequest) (context : option ExecutionContext) (demand : nat)
| Explain (request : QueryRequest)
| Inspect (s : SourceSpec)
| Cancel (query_id : string).

Definition serve (e : endpoint) : program unit :=
  match e with
  | Execute request context => _ <- execute request context;; Ret tt
  | Stream request context demand =>
      s <- stream request context;; guarded s.2 demand
  | Explain request => _ <- explain request;; Ret tt
  | Inspect s => _ <- inspect s;; Ret tt
  | Cancel query_id => cancel query_id
  end.
End service.
