(* ===== verification/ServiceTheorems.v ===== *)
(** * What the query service promises

    Slots and locks: every endpoint gives back the admission slot and the
    single-flight lock it took, however the engine, the cache, the metadata store
    and the stream's consumer behave, and calls the engine only with a slot; so
    the engine never runs more queries than there are slots.  Two exceptions: a
    stream nobody starts, and a stream whose engine cannot cancel. *)

From Stdlib Require Import QArith.
From S2P Require Import Prelude Models Fingerprint FingerprintTheorems Prog Observability Datasets Service.

#[local] Open Scope Z_scope.

(** ** What one request holds *)

(** The slots and the single-flight lock a request has taken and not given back,
    and whether the engine failed to cancel its query. *)
Record held := Held {
  h_slots : nat;
  h_lock : option (string * string);
  h_cancel_failed : bool;
  (* what it still counts for in the gauge of active queries *)
  h_active : nat;
}.

Definition nothing : held := Held 0 None false 0.

Section protocol.
Context {R : Type} (c : service_cfg).

Definition set_slots (n : nat) (h : held) : held :=
  Held n (h_lock h) (h_cancel_failed h) (h_active h).
Definition set_lock (l : option (string * string)) (h : held) : held :=
  Held (h_slots h) l (h_cancel_failed h) (h_active h).
Definition set_active (n : nat) (h : held) : held :=
  Held (h_slots h) (h_lock h) (h_cancel_failed h) n.

(** The gauge goes up by one, and down by one where it had gone up. *)
Definition metric_effect (m : metric) (h : held) (Q : unit -> held -> Prop) : Prop :=
  match m with
  | ActiveQueries _ change =>
      change = 1 /\ Q tt (set_active (S (h_active h)) h)
      \/ change = -1 /\ (0 < h_active h)%nat /\ Q tt (set_active (pred (h_active h)) h)
  | _ => Q tt h
  end.

(** The protocol: what a request must hold at each operation, and what the answer
    leaves it with.  Answers are unconstrained. *)
Definition service_effect {X} (o : sop R X) (h : held) : (X -> held -> Prop) -> Prop :=
  match o in sop _ Y return (Y -> held -> Prop) -> Prop with
  | TryAcquire => fun Q => Q true (set_slots (S (h_slots h)) h) /\ Q false h
  | ReleaseSlot => fun Q => (0 < h_slots h)%nat /\ Q tt (set_slots (pred (h_slots h)) h)
  | Prepare _ _ => fun Q => h_slots h = 1%nat /\ forall r, Q r h
  | EngineExecute _ _ => fun Q => h_slots h = 1%nat /\ forall r, Q r h
  | EngineStream _ _ => fun Q => h_slots h = 1%nat /\ forall r, Q r h
  | EngineExplain _ _ => fun Q => h_slots h = 1%nat /\ forall r, Q r h
  | EngineInspect _ => fun Q => h_slots h = 1%nat /\ forall r, Q r h
  | NextRow => fun Q => h_slots h = 1%nat /\ forall r, Q r h
  | EngineCancel _ => fun Q =>
      Q (Ok tt) h /\ forall e, Q (Err e) (Held (h_slots h) (h_lock h) true (h_active h))
  | EnginePing | CachePing => fun Q => forall r, Q r h
  | EngineClose | CacheClose => fun Q => forall r, Q r h
  | CacheAcquire key _ => fun Q =>
      h_lock h = None
      /\ (forall token, Q (Ok (Some token)) (set_lock (Some (key, token)) h))
      /\ Q (Ok None) h /\ forall e, Q (Err e) h
  | CacheSet key v ttl => fun Q =>
      0 < ttl /\ ttl <= max_cache_ttl_seconds c /\ in_cached v = false
      /\ (exists token, h_lock h = Some (key, token)) /\ forall r, Q r h
  | CacheRelease key token => fun Q =>
      h_lock h = Some (key, token) /\ forall r, Q r (set_lock None h)
  | NewIds => fun Q => forall r, Q r h
  | RecordInvocation _ _ _ => fun Q => forall r, Q r h
  | UpdateInvocation _ _ _ _ _ => fun Q => forall r, Q r h
  | CacheGet _ => fun Q => forall r, Q r h
  | CacheWait _ _ => fun Q => forall r, Q r h
  | Yield _ => fun Q => Q tt h
  | Measure m => metric_effect m h
  | InlineBytes _ => fun Q => forall n, Q n h
  end.

Lemma service_effect_mono X (o : sop R X) h (Q1 Q2 : X -> held -> Prop) :
  (forall x h', Q1 x h' -> Q2 x h') -> service_effect o h Q1 -> service_effect o h Q2.
Proof. intros HQ. destruct o as [| | | | | | | | | | | | | | | | | | | | | |[]|]; cbn; naive_solver. Qed.

#[local] Instance service_effects : Effects (sop R) held :=
  {| effect := @service_effect; effect_mono := service_effect_mono |}.

Implicit Types (h : held).

Lemma wp_best_effort {X} (o : sop R (result exn X)) h (Q : result exn unit -> held -> Prop) :
  (forall K : result exn X -> held -> Prop, (forall r, K r h) -> effect o h K) ->
  Q (Ok tt) h -> wp (best_effort o) h Q.
Proof. intros Ho HQ. apply Ho. intros r. exact HQ. Qed.

Lemma wp_update_any id status res error cls h (Q : result exn unit -> held -> Prop) :
  Q (Ok tt) h -> wp (_update (R := R) id status res error cls) h Q.
Proof. by intros; apply wp_best_effort. Qed.

Lemma wp_update_failed sync id e h (Q : result exn unit -> held -> Prop) :
  Q (Ok tt) h -> wp (update_failed (R := R) sync id e) h Q.
Proof. unfold update_failed. destruct sync; [apply wp_update_any|done]. Qed.

(** A program that holds the same before and after. *)
Definition balanced {A} (p : prog (sop R) A) h : Prop := wp p h (fun _ h' => h' = h).

Lemma balanced_bind {A B} (p : prog (sop R) A) (f : A -> prog (sop R) B) h :
  balanced p h -> (forall a, balanced (f a) h) -> balanced (bind p f) h.
Proof.
  intros Hp Hf. apply wp_bind. eapply wp_mono; [|exact Hp]. intros [a|e] h' ->; [apply Hf|done].
Qed.

Lemma balanced_ret {A} (a : A) h : balanced (Ret a : prog (sop R) A) h.
Proof. done. Qed.

Lemma balanced_lift {A} (r : result exn A) h : balanced (lift r : prog (sop R) A) h.
Proof. by apply wp_lift. Qed.

Lemma balanced_when (b : bool) (p : prog (sop R) unit) h :
  balanced p h -> balanced (if b then p else Ret tt) h.
Proof. by destruct b. Qed.

Lemma balanced_record id kind request h : balanced (_record (R := R) id kind request) h.
Proof. by apply wp_best_effort. Qed.

Lemma balanced_update id status res error cls h :
  balanced (_update (R := R) id status res error cls) h.
Proof. by apply wp_update_any. Qed.

Lemma balanced_context request context h : balanced (_context (R := R) c request context) h.
Proof.
  unfold _context. apply balanced_bind; [apply balanced_lift|]. intros t.
  destruct context; cbn; [done|]. done.
Qed.

Lemma balanced_invoke {X} (o : sop R (result exn X)) h :
  (forall K : result exn X -> held -> Prop, (forall r, K r h) -> effect o h K) ->
  balanced (invoke o) h.
Proof. intros Ho. apply Ho. intros r. by apply wp_lift. Qed.

(** [with self._slot()] around a body that only holds its slot. *)
Lemma balanced_slot {A} (body : prog (sop R) A) h :
  balanced body (set_slots (S (h_slots h)) h) -> balanced (with_slot body) h.
Proof.
  intros Hb. unfold with_slot, try_acquire, balanced. cbn. split; [|done].
  apply wp_try_finally. eapply wp_mono; [|exact Hb]. intros r h' ->. cbn.
  split; [lia|]. by destruct h.
Qed.

Lemma balanced_measure m h :
  (match m with ActiveQueries _ _ => False | _ => True end) -> balanced (perform (Measure (R := R) m)) h.
Proof. by destruct m. Qed.

(** [with query_timer(mode)]: the gauge goes up for the body and comes down. *)
Lemma wp_query_timer {A} mode (body : prog (sop R) A) h (P : held -> Prop) :
  wp body (set_active (S (h_active h)) h)
    (fun _ h' => exists h0, P h0 /\ h' = set_active (S (h_active h0)) h0) ->
  wp (query_timer Measure mode body) h (fun _ h' => P h').
Proof.
  intros Hb. unfold query_timer. apply wp_bind. left. split; [done|].
  apply wp_try_finally. eapply wp_mono; [|exact Hb]. intros r h' (h0 & HP & ->).
  apply wp_bind. right. split; [done|]. split; [cbn; lia|]. destruct h0, r; exact HP.
Qed.

Lemma balanced_timer {A} mode (body : prog (sop R) A) h :
  balanced body (set_active (S (h_active h)) h) -> balanced (query_timer Measure mode body) h.
Proof.
  intros Hb. apply wp_query_timer. eapply wp_mono; [|exact Hb]. intros r h' ->. by exists h.
Qed.

Lemma try_balanced {A} (p : prog (sop R) A) (g : exn -> prog (sop R) A) h :
  balanced p h -> (forall e, balanced (g e) h) -> balanced (try_except p g) h.
Proof.
  intros Hp Hg. apply wp_try_except. eapply wp_mono; [|exact Hp].
  intros [a|e] h' ->; [done|apply Hg].
Qed.

(** ** Execution *)

Lemma run_engine_gives_back prepared context ttl flight h :
  h_slots h = 1%nat -> h_lock h = flight ->
  (flight <> None -> 0 < ttl /\ ttl <= max_cache_ttl_seconds c) ->
  wp (run_engine (R := R) prepared context ttl flight) h (fun _ h' => h' = set_lock None h).
Proof.
  intros Hs Hl Httl. apply wp_try_finally.
  assert (Hrel :
    wp (match flight with
        | Some (key, token) => invoke (CacheRelease (R := R) key token)
        | None => Ret tt
        end) h (fun r' h' => match r' with
                             | Ok _ => h' = set_lock None h
                             | Err _ => h' = set_lock None h
                             end)).
  { destruct flight as [[key token]|]; cbn.
    - split; [done|]. intros r. apply wp_lift. by destruct r.
    - destruct h. cbn in *. by subst. }
  cbn. split; [done|]. intros r. destruct r as [[v|st]|e]; cbn; try apply Hrel; try done.
  intros bytes. destruct flight as [[key token]|]; cbn; [|by apply Hrel].
  destruct Httl as [H0 H1]; [done|]. split_and!; [done..|by exists token|].
  intros r. apply wp_bind, wp_lift. destruct r; apply Hrel.
Qed.

Lemma slot_only_gives_back {A} (p : prog (sop R) A) h :
  h_lock h = None -> wp p h (fun _ h' => h' = set_lock None h) -> balanced p h.
Proof.
  intros Hl Hp. unfold balanced. eapply wp_mono; [|exact Hp]. intros r h' ->.
  destruct h. cbn in *. by subst.
Qed.
(** ** Requests *)

Context `{Sha256} (normalize : string -> list string -> result exn string).

Lemma ttl_within request ttl : _ttl c request = Ok ttl -> ttl <= max_cache_ttl_seconds c.
Proof. unfold _ttl. case_match eqn:E; [done|]. intros [= <-]. lia. Qed.

Lemma single_flight_balanced key prepared context ttl h :
  h_slots h = 1%nat -> h_lock h = None -> 0 < ttl -> ttl <= max_cache_ttl_seconds c ->
  balanced (single_flight c key prepared context ttl) h.
Proof.
  intros Hs Hl H0 H1. unfold single_flight, balanced.
  assert (Hrun : forall token, wp (run_engine (R := R) prepared context ttl (Some (key, token)))
                   (set_lock (Some (key, token)) h) (fun _ h' => h' = h)).
  { intros token. eapply wp_mono; [|apply run_engine_gives_back; done]. intros r h' ->.
    destruct h. cbn in *. by subst. }
  cbn. split_and!; try done. intros [[v|]|e]; try done.
Qed.

Lemma execute_admitted_balanced request sql context h :
  h_slots h = 1%nat -> h_lock h = None ->
  balanced (_execute_admitted normalize c request sql context) h.
Proof.
  intros Hs Hl. unfold _execute_admitted.
  destruct (_ttl c request) as [ttl|e] eqn:Et; [|done]. apply ttl_within in Et.
  cbn [lift bind]. apply balanced_bind; [split; [done|]; by intros []|]. intros prepared.
  assert (Hplain : balanced (run_engine (R := R) prepared context ttl None) h).
  { apply slot_only_gives_back; [done|]. by apply run_engine_gives_back. }
  destruct (is_inline request && (0 <? ttl)) eqn:Ec; cbn [andb]; [|exact Hplain].
  apply andb_true_iff in Ec as [_ Ec%Z.ltb_lt].
  destruct (cache_safe prepared); [|exact Hplain].
  apply balanced_bind; [apply balanced_lift|]. intros key.
  apply balanced_bind; [by intros [[]|]|]. intros [v|]; [done|]. by apply single_flight_balanced.
Qed.

Lemma execute_balanced request context :
  balanced (execute normalize c request context) nothing.
Proof.
  unfold execute. apply balanced_bind; [apply balanced_lift|]. intros sql.
  apply balanced_bind; [apply balanced_context|]. intros context'.
  apply balanced_bind; [apply balanced_when, balanced_record|]. intros _.
  apply balanced_bind.
  - apply try_balanced.
    + by apply balanced_slot, balanced_timer, execute_admitted_balanced.
    + intros e. apply balanced_bind; [apply balanced_when, balanced_update|done].
  - intros res. apply balanced_bind; [apply balanced_when, balanced_update|done].
Qed.

Lemma explain_balanced request : balanced (explain normalize c request) nothing.
Proof.
  unfold explain. apply balanced_bind; [apply balanced_lift|]. intros sql.
  apply balanced_bind; [done|]. intros ids. apply balanced_bind; [apply balanced_lift|].
  intros t. apply balanced_bind; [|done]. apply balanced_slot. cbn. split; [done|].
  intros [p|e]; [|done]. cbn. split; [done|]. by intros [].
Qed.

Lemma inspect_balanced s : balanced (inspect s) nothing.
Proof. apply balanced_slot. cbn. split; [done|]. by intros []. Qed.

(** ** Streams *)

Definition slot : held := Held 1 None false 0.

(** A stream that starts leaves its slot with the generator; one that fails keeps
    nothing. *)
Lemma stream_takes_a_slot request context :
  wp (stream (R := R) normalize c request context) nothing
    (fun r h' => h' = match r with Ok _ => slot | Err _ => nothing end).
Proof.
  unfold stream. destruct (_validate normalize c request) as [sql|e]; [|done].
  destruct (is_stream request); [|done]. cbn [lift bind negb]. apply wp_bind.
  eapply wp_mono; [|apply balanced_context]. intros [context'|e] h' ->; [|done].
  apply wp_bind. eapply wp_mono; [|apply balanced_when, balanced_record].
  intros [[]|e] h' ->; [|done]. apply wp_bind. unfold try_acquire. split; cbn [negb].
  - apply wp_bind, wp_try_except.
    assert (Hfail : forall e, wp (perform ReleaseSlot;;
        update_failed (is_sync context') (ec_query_id context') e;; Raise e)%prog slot
        (fun (r : result exn string) h' => match r with
                  | Ok a => wp (Ret (a, context') : prog (sop R) _) h'
                      (fun r h' => h' = match r with Ok _ => slot | Err _ => nothing end)
                  | Err e => h' = nothing
                  end)).
    { intros e. apply wp_bind. split; [cbn; lia|]. by apply wp_bind, wp_update_failed. }
    apply wp_bind. split; [done|]. intros [p|e]; [|apply Hfail].
    split; [done|]. intros [m|e]; [done|apply Hfail].
  - apply wp_bind. eapply wp_mono; [|apply balanced_when, balanced_update]. by intros [] h' ->.
Qed.

Lemma send_rows_keeps demand h : h_slots h = 1%nat -> balanced (send_rows demand) h.
Proof.
  intros Hs. induction demand as [|n IH]; (split; [done|]); intros [[chunk|]|e]; done.
Qed.

(** The end of the generator: cancel, then give the slot back. *)
Lemma cancel_and_release id (end_ : prog (sop R) unit) :
  (forall h, balanced end_ h) ->
  wp (invoke (EngineCancel id);; perform ReleaseSlot;; end_)%prog slot
    (fun _ h' => h' = nothing \/ h' = Held 1 None true 0).
Proof.
  intros Hend. apply wp_bind. split; [apply wp_lift|intros e; apply wp_lift; by right].
  apply wp_bind. split; [cbn; lia|].
  change (wp end_ nothing (fun _ h' => h' = nothing \/ h' = Held 1 None true 0)).
  apply (wp_mono _ _ (fun _ h' => h' = nothing)); [intros r h' ->; by left|]. apply Hend.
Qed.

Lemma guarded_body_gives_back context demand :
  wp (guarded_body (R := R) context demand) slot
    (fun _ h' => h' = nothing \/ h' = Held 1 None true 0).
Proof.
  assert (Hend : forall how (pre : prog (sop R) unit),
     (forall Q : result exn unit -> held -> Prop, Q (Ok tt) slot -> wp pre slot Q) ->
     wp (pre;; invoke (EngineCancel (ec_query_id context));; perform ReleaseSlot;;
         match how with Broken e => Raise e | _ => Ret tt end)%prog slot
       (fun _ h' => h' = nothing \/ h' = Held 1 None true 0)).
  { intros how pre Hpre. apply wp_bind, Hpre.
    assert (Hpost : forall h, balanced (match how with Broken e => Raise e | _ => Ret tt end
                                        : prog (sop R) unit) h) by (by destruct how).
    by apply cancel_and_release. }
  unfold guarded_body. apply wp_bind, wp_try_except. eapply wp_mono; [|by apply balanced_timer, send_rows_keeps].
  intros [how|e] h' ->.
  - apply (Hend how). intros Q HQ.
    destruct how; [destruct (is_sync context)..|]; try done; by apply wp_update_any.
  - apply wp_bind, wp_update_failed. by apply (Hend (Broken e) (Ret tt)).
Qed.
End protocol.

(** ** The theorems *)

(** C26: whatever the engine, the cache and the metadata store answer, [execute],
    [explain] and [inspect] call the engine only while they hold exactly one
    admission slot, store a result only under the lock they hold, fresh, with a
    time to live within the limits, and end without slot and without lock.  A
    stream whose consumer asks for at least one chunk gives its slot back, whether
    the rows end, break or are abandoned, unless the engine raises when it is told
    to cancel; a stream nobody starts keeps the slot for ever, since closing a
    generator that never ran runs none of its body. *)
Theorem requests_give_back_what_they_take {R} `{Sha256} normalize c request context s x n :
  wp (H := service_effects c) (execute (R := R) normalize c request context) nothing
    (fun _ h => h = nothing)
  /\ wp (H := service_effects c) (explain (R := R) normalize c request) nothing
       (fun _ h => h = nothing)
  /\ wp (H := service_effects c) (inspect (R := R) s) nothing (fun _ h => h = nothing)
  /\ wp (H := service_effects c) (stream (R := R) normalize c request context) nothing
       (fun r h => h = match r with Ok _ => slot | Err _ => nothing end)
  /\ wp (H := service_effects c) (guarded (R := R) x (S n)) slot
       (fun _ h => h = nothing \/ h = Held 1 None true 0)
  /\ guarded (R := R) x 0 = Ret tt.
Proof.
  split_and!; [by apply execute_balanced|by apply explain_balanced|apply inspect_balanced| | |done].
  - by apply stream_takes_a_slot.
  - apply guarded_body_gives_back.
Qed.

(** ** Many requests at once *)

Section pool.
Context {R : Type} `{Sha256} (normalize : string -> list string -> result exn string)
  (c : service_cfg).
#[local] Instance pool_effects : Effects (sop R) held := service_effects c.

(** The answers of the shared semaphore, with [n] slots free; every other answer
    is possible, except that a reliable engine does not fail to cancel. *)
Definition answers (reliable : bool) {X} (o : sop R X) (n : nat) : X -> nat -> Prop :=
  match o in sop _ Y return Y -> nat -> Prop with
  | TryAcquire => fun admitted n' => if admitted : bool then n = S n' else n' = n
  | ReleaseSlot => fun _ n' => n' = S n
  | EngineCancel _ => fun r n' => n' = n /\ (reliable = true -> r = Ok tt)
  | _ => fun _ n' => n' = n
  end.

Definition pool : Type := nat * list (prog (sop R) unit).

Inductive pool_step (reliable : bool) : pool -> pool -> Prop :=
| pool_moves i X (o : sop R X) k x n n' threads :
    threads !! i = Some (Do o k) -> answers reliable o n x n' ->
    pool_step reliable (n, threads) (n', <[i := k x]> threads).

Definition start_pool (es : list endpoint) : pool :=
  (max_concurrent_queries c, map (serve (R := R) normalize c) es).

(** Requests whose next operation is the engine's. *)
Definition in_engine (p : prog (sop R) unit) : bool :=
  match p with
  | Do o _ =>
      match o with
      | Prepare _ _ | EngineExecute _ _ | EngineStream _ _ | EngineExplain _ _
      | EngineInspect _ | NextRow => true
      | _ => false
      end
  | _ => false
  end.

Definition finished (p : prog (sop R) unit) : bool :=
  match p with Do _ _ => false | _ => true end.

(** A stream is started when its consumer asks for at least one chunk. *)
Definition started_if (reliable : bool) (e : endpoint) : Prop :=
  match e with Stream _ _ O => reliable = false | _ => True end.

Definition left_with (reliable : bool) (h : held) : Prop :=
  reliable = true -> h_cancel_failed h = false -> h_slots h = 0%nat.

Fixpoint slots_of (hs : list held) : nat :=
  match hs with [] => 0 | h :: hs => h_slots h + slots_of hs end%nat.

(** Every request keeps the protocol with what it holds, and the slots held and
    the free slots are all the slots. *)
Definition keeps (reliable : bool) (p : prog (sop R) unit) (h : held) : Prop :=
  wp p h (fun _ h' => left_with reliable h') /\ (reliable = true -> h_cancel_failed h = false).

Fixpoint all_keep (reliable : bool) (ps : list (prog (sop R) unit)) (hs : list held) : Prop :=
  match ps, hs with
  | [], [] => True
  | p :: ps, h :: hs => keeps reliable p h /\ all_keep reliable ps hs
  | _, _ => False
  end.

Definition pool_inv (reliable : bool) (s : pool) : Prop :=
  exists hs, all_keep reliable s.2 hs /\ (s.1 + slots_of hs)%nat = max_concurrent_queries c.

Lemma serve_keeps_protocol reliable e :
  started_if reliable e ->
  wp (serve (R := R) normalize c e) nothing (fun _ h' => left_with reliable h').
Proof.
  intros He. assert (Hn : left_with reliable nothing) by done.
  assert (Hb : forall A (p : prog (sop R) A), balanced c p nothing ->
               wp (p;; Ret tt)%prog nothing (fun _ h' => left_with reliable h')).
  { intros A p Hp. apply wp_bind. eapply wp_mono; [|exact Hp]. by intros [] h' ->. }
  destruct e as [request context|request context demand|request|s|id]; cbn [serve].
  - apply Hb, execute_balanced.
  - apply wp_bind. eapply wp_mono; [|apply stream_takes_a_slot].
    intros [[m x]|e] h' ->; [|done]. destruct demand as [|n]; cbn [guarded snd].
    + cbn in He. subst. by intros ?.
    + eapply wp_mono; [|apply guarded_body_gives_back]. intros r h' [-> | ->]; [done|].
      by intros _ ?.
  - apply Hb, explain_balanced.
  - apply Hb, inspect_balanced.
  - split; [done|]. by intros e.
Qed.

Lemma effect_answers reliable {X} (o : sop R X) n x n' h (Q : X -> held -> Prop) :
  service_effect c o h Q -> answers reliable o n x n' ->
  (reliable = true -> h_cancel_failed h = false) ->
  exists h', Q x h' /\ (n' + h_slots h')%nat = (n + h_slots h)%nat
             /\ (reliable = true -> h_cancel_failed h' = false).
Proof.
  destruct o; cbn; intros He Ha Hc; subst;
    try (destruct He as [_ He]; by exists h); try by exists h.
  - destruct He as [H1 H2]. destruct x; subst; [|by exists h].
    eexists. split; [exact H1|]. split; [cbn; lia|done].
  - destruct He as [Hs Hq]. destruct x. eexists. split; [exact Hq|]. split; [cbn; lia|done].
  - destruct Ha as [-> Hr], He as [H1 H2]. destruct x as [[]|e]; [by exists h|].
    eexists. split; [apply H2|]. split; [done|]. intros Ht. by apply Hr in Ht.
  - destruct He as (_ & _ & _ & _ & He). by exists h.
  - destruct He as (_ & H1 & H2 & H3). destruct x as [[t|]|e]; [|by exists h..].
    eexists. split; [apply H1|]. done.
  - destruct He as [_ He]. eexists. split; [apply He|]. done.
  - destruct x. by exists h.
  - destruct x, m; try by exists h.
    destruct He as [[_ He]|(_ & _ & He)]; (eexists; split; [exact He|done]).
Qed.

(** One request moves: the others keep what they hold. *)
Lemma all_keep_insert reliable i p p' ps hs :
  all_keep reliable ps hs -> ps !! i = Some p ->
  exists h, keeps reliable p h
    /\ forall h', keeps reliable p' h' ->
         exists hs', all_keep reliable (<[i := p']> ps) hs'
           /\ (slots_of hs' + h_slots h)%nat = (slots_of hs + h_slots h')%nat.
Proof.
  revert i hs. induction ps as [|q ps IH]; intros [|i] [|h hs]; try done.
  - intros [Hq Hps] [= ->]. exists h. split; [done|]. intros h' Hp'. exists (h' :: hs).
    split; [by split|]. cbn. lia.
  - intros [Hq Hps] Hi. destruct (IH i hs Hps Hi) as (g & Hg & Hmove). exists g. split; [done|].
    intros h' Hp'. destruct (Hmove h' Hp') as (hs' & Hall & Hs). exists (h :: hs').
    split; [by split|]. cbn. lia.
Qed.

Lemma pool_step_inv reliable s s' :
  pool_step reliable s s' -> pool_inv reliable s -> pool_inv reliable s'.
Proof.
  intros [i X o k x n n' threads Hi Ha] (hs & Hall & Hsum). cbn in *.
  destruct (all_keep_insert reliable i _ (k x) threads hs Hall Hi) as (h & [Hw Hc] & Hmove).
  destruct (effect_answers reliable o n x n' h _ Hw Ha Hc) as (h' & Hw' & Hs & Hc').
  destruct (Hmove h' (conj Hw' Hc')) as (hs' & Hall' & Hs'). exists hs'. split; [done|]. cbn. lia.
Qed.

Lemma pool_reachable_inv reliable es s :
  Forall (started_if reliable) es -> rtc (pool_step reliable) (start_pool es) s ->
  pool_inv reliable s.
Proof.
  intros Hes Hr. assert (Hi : pool_inv reliable (start_pool es)).
  { exists (replicate (length es) nothing). cbn. split.
    - clear Hr. induction Hes as [|e es He _ IH]; cbn; [done|]. split; [|exact IH].
      split; [by apply serve_keeps_protocol|done].
    - assert (forall n, slots_of (replicate n nothing) = 0%nat) as -> by (by induction n). lia. }
  revert Hi. induction Hr as [|s1 s2 s3 Hs _ IH]; [done|]. intros Hi. by eapply IH, pool_step_inv.
Qed.

Lemma engine_holds_slot p h Q :
  in_engine p = true -> wp p h Q -> h_slots h = 1%nat.
Proof. destruct p as [| |X o k]; [done..|]. destruct o; cbn; try done; by intros _ [? _]. Qed.

Fixpoint count_engine (ps : list (prog (sop R) unit)) : nat :=
  match ps with [] => 0 | p :: ps => (if in_engine p then 1 else 0) + count_engine ps end%nat.

Lemma engine_slots reliable ps hs :
  all_keep reliable ps hs -> (count_engine ps <= slots_of hs)%nat.
Proof.
  revert hs. induction ps as [|p ps IH]; intros [|h hs]; cbn [all_keep]; try done.
  intros [[Hw _] Hps]. specialize (IH hs Hps). cbn.
  destruct (in_engine p) eqn:Hp; [|lia]. rewrite (engine_holds_slot p h _ Hp Hw). lia.
Qed.

Lemma finished_slots ps hs :
  all_keep true ps hs -> forallb finished ps = true -> slots_of hs = 0%nat.
Proof.
  revert hs. induction ps as [|p ps IH]; intros [|h hs]; cbn [all_keep]; try done.
  intros [[Hw Hc] Hps] [Hp Hf]%andb_true_iff. cbn. rewrite (IH hs Hps Hf).
  destruct p; [| |done]; cbn in Hw; rewrite Hw; auto.
Qed.
End pool.

(** C27: With any number of requests in any interleaving, the requests inside the
    engine never outnumber [max_concurrent_queries]; the semaphore is never
    released above its bound.  If every stream is started and [engine.cancel] never
    raises, then all slots are free again once all requests have ended. *)
Theorem engine_load_is_bounded {R} `{Sha256} normalize c es n threads reliable :
  Forall (started_if reliable) es ->
  rtc (pool_step (R := R) reliable) (start_pool normalize c es) (n, threads) ->
  (n + count_engine threads <= max_concurrent_queries c)%nat
  /\ (forall i k, threads !! i = Some (Do ReleaseSlot k) -> n < max_concurrent_queries c)%nat
  /\ (reliable = true -> forallb finished threads = true -> n = max_concurrent_queries c).
Proof.
  intros Hes Hr. destruct (pool_reachable_inv normalize c reliable es _ Hes Hr) as (hs & Hk & Hs).
  cbn in Hk, Hs. split; [pose proof (engine_slots _ _ _ _ Hk); lia|]. split.
  - intros i k Hi. destruct (all_keep_insert c reliable i _ (k tt) threads hs Hk Hi)
      as (h & [[Hpos Hw] Hc] & Hmove).
    destruct (Hmove (set_slots (pred (h_slots h)) h)) as (hs' & _ & Hs'); [by split|].
    cbn in Hs'. lia.
  - intros -> Hf. rewrite (finished_slots _ _ _ Hk Hf) in Hs. lia.
Qed.

(** ** Witnesses *)

Module ServiceDemo.
#[local] Instance sha : Sha256 := {| sha256_hex s := s; sha256_head _ := 0 |}.

Definition normalize (sql : string) (aliases : list string) : result exn string := Ok sql.
Definition cfg : service_cfg := ServiceCfg 60 3600 1000 1 300 3600 (15 # 1) 120.

Definition source : SourceSpec := MkSource "e.csv" F_CSV None [] (Some "v1") None true.

(** Two sources to inspect, one slot. *)
Definition busy : list endpoint := [Inspect source; Inspect source].

Definition waiting : prog (sop unit) unit := serve (R := unit) normalize cfg (Inspect source).

(** What an admitted inspection still has to do, and one that is turned away. *)
Definition rest (admitted : bool) : prog (sop unit) unit :=
  (_ <- (if admitted then try_finally (invoke (EngineInspect source)) (perform ReleaseSlot)
         else Raise (Exn BusyError busy_text));; Ret tt)%prog.

Definition admitted : prog (sop unit) unit := rest true.

Lemma first_admitted reliable :
  pool_step reliable (start_pool normalize cfg busy) (0%nat, [admitted; waiting]).
Proof. apply (pool_moves reliable 0 bool TryAcquire rest true 1 0 [waiting; waiting]); done. Qed.
End ServiceDemo.

Lemma engine_load_is_bounded_witness (H := ServiceDemo.sha) :
  (0 + count_engine [ServiceDemo.admitted; ServiceDemo.waiting] <= 1)%nat
  /\ count_engine [ServiceDemo.admitted; ServiceDemo.waiting] = 1%nat.
Proof.
  split; [|done].
  apply (engine_load_is_bounded ServiceDemo.normalize ServiceDemo.cfg ServiceDemo.busy 0
           [ServiceDemo.admitted; ServiceDemo.waiting] true).
  - repeat constructor.
  - eapply rtc_l; [apply ServiceDemo.first_admitted|apply rtc_refl].
Defined.
