(* ===== verification/AnswerTheorems.v ===== *)
(** * Where an inline answer comes from

    Requests share the result cache and execute beside each other.  Each relies on
    the others to store only results of executions under the fingerprint of what
    was executed, and does the same itself; then every inline answer [execute]
    gives, cached or not, has the rows of an execution of the same query. *)

From Stdlib Require Import QArith.
From S2P Require Import Prelude Models Fingerprint FingerprintTheorems Prog Observability Datasets Service.

#[local] Open Scope Z_scope.

Section answers.
Context {R : Type} `{Sha256} (normalize : string -> list string -> result exn string)
  (c : service_cfg).

(** What the engine prepares for the request under consideration. *)
Context (mine : PreparedQuery -> Prop).

(** The executions that have returned an inline result, by any request. *)
Definition runs : Type := list (PreparedQuery * InlineResult R).

(** The fingerprint under which the result of a prepared query may be cached. *)
Definition run_key (p : PreparedQuery) : result exn string :=
  query_fingerprint normalize (with_sql (pq_normalized_sql p) (pq_request p)) (source_versions p).

(** A cached value is the result of an execution with that key. *)
Definition from_run (w : runs) (key : string) (v : InlineResult R) : Prop :=
  exists p inl id, (p, inl) ∈ w /\ run_key p = Ok key /\ v = with_cached false id inl.

Lemma from_run_grows w w' key v : w ⊆ w' -> from_run w key v -> from_run w' key v.
Proof. intros Hw (p & inl & id & Hin & Hr). exists p, inl, id. split; [auto|done]. Qed.

(** Other requests execute queries at any time ([w ⊆ w']); the engine prepares the
    request it is given; cache answers and stored values come from executions. *)
Definition answer_effect {X} (o : sop R X) (w : runs) : (X -> runs -> Prop) -> Prop :=
  match o in sop _ Y return (Y -> runs -> Prop) -> Prop with
  | Prepare request sql => fun Q => forall r w', w ⊆ w' ->
      (forall p, r = Ok p -> mine p /\ pq_request p = request /\ pq_normalized_sql p = sql) ->
      Q r w'
  | EngineExecute p _ => fun Q => forall r w', w ⊆ w' ->
      Q r (match r with Ok (RInline v) => (p, v) :: w' | _ => w' end)
  | CacheGet key => fun Q => forall r w', w ⊆ w' ->
      (forall v, r = Ok (Some v) -> from_run w' key v) -> Q r w'
  | CacheWait key _ => fun Q => forall r w', w ⊆ w' ->
      (forall v, r = Ok (Some v) -> from_run w' key v) -> Q r w'
  | CacheSet key v _ => fun Q => from_run w key v /\ forall r w', w ⊆ w' -> Q r w'
  | TryAcquire => fun Q => forall r w', w ⊆ w' -> Q r w'
  | ReleaseSlot => fun Q => forall r w', w ⊆ w' -> Q r w'
  | NewIds => fun Q => forall r w', w ⊆ w' -> Q r w'
  | RecordInvocation _ _ _ => fun Q => forall r w', w ⊆ w' -> Q r w'
  | UpdateInvocation _ _ _ _ _ => fun Q => forall r w', w ⊆ w' -> Q r w'
  | EngineStream _ _ => fun Q => forall r w', w ⊆ w' -> Q r w'
  | NextRow => fun Q => forall r w', w ⊆ w' -> Q r w'
  | EngineExplain _ _ => fun Q => forall r w', w ⊆ w' -> Q r w'
  | EngineInspect _ => fun Q => forall r w', w ⊆ w' -> Q r w'
  | EngineCancel _ => fun Q => forall r w', w ⊆ w' -> Q r w'
  | CacheAcquire _ _ => fun Q => forall r w', w ⊆ w' -> Q r w'
  | CacheRelease _ _ => fun Q => forall r w', w ⊆ w' -> Q r w'
  | Yield _ => fun Q => forall r w', w ⊆ w' -> Q r w'
  | EnginePing | CachePing => fun Q => forall r w', w ⊆ w' -> Q r w'
  | EngineClose | CacheClose => fun Q => forall r w', w ⊆ w' -> Q r w'
  | Measure _ => fun Q => forall r w', w ⊆ w' -> Q r w'
  | InlineBytes _ => fun Q => forall r w', w ⊆ w' -> Q r w'
  end.

Lemma answer_effect_mono X (o : sop R X) w (Q1 Q2 : X -> runs -> Prop) :
  (forall x w', Q1 x w' -> Q2 x w') -> answer_effect o w Q1 -> answer_effect o w Q2.
Proof. intros HQ. destruct o; cbn; naive_solver. Qed.

Definition answer_effects : Effects (sop R) runs :=
  {| effect := @answer_effect; effect_mono := answer_effect_mono |}.
#[local] Existing Instance answer_effects.

(** An inline answer to a request whose normalised SQL is [sql]: the rows of an
    execution of the query [p0] the engine prepared for this request, with the
    versions its sources had then. *)
Definition answered_by (w : runs) (request : QueryRequest) (sql : string) (v : InlineResult R)
  : Prop :=
  exists p0 p inl b id,
    mine p0 /\ pq_request p0 = request /\ pq_normalized_sql p0 = sql /\ (p, inl) ∈ w
    /\ v = with_cached b id inl
    /\ (same_query normalize (with_sql sql request) (with_sql (pq_normalized_sql p) (pq_request p))
          (source_versions p0) (source_versions p) \/ digests_collide).

(** Whatever the answer, if it is inline it is a good one. *)
Definition good_answer (request : QueryRequest) (sql : string) (r : result exn (QueryResult R))
    (w : runs) : Prop :=
  forall v, r = Ok (RInline v) -> answered_by w request sql v.

Lemma good_error request sql e w : good_answer request sql (Err e) w.
Proof. by intros v. Qed.

Lemma good_weaken request sql r w w' :
  w ⊆ w' -> good_answer request sql r w -> good_answer request sql r w'.
Proof.
  intros Hw Hg v Hv. destruct (Hg v Hv) as (p0 & p & inl & b & id & ? & ? & ? & Hin & ? & ?).
  exists p0, p, inl, b, id. split_and!; auto.
Qed.

Lemma same_sources_refl r : same_sources r r.
Proof. intros name s Hin. exists s. by split. Qed.

Lemma own_run p inl w b id :
  mine p -> (p, inl) ∈ w -> answered_by w (pq_request p) (pq_normalized_sql p) (with_cached b id inl).
Proof.
  intros Hm Hin. exists p, p, inl, b, id. split_and!; try done. left. split; try done.
  apply same_sources_refl.
Qed.

Lemma cached_run p w key b id v :
  mine p -> run_key p = Ok key -> from_run w key v ->
  answered_by w (pq_request p) (pq_normalized_sql p) (with_cached b id v).
Proof.
  intros Hm Hk (p' & inl & id' & Hin & Hk' & ->). exists p, p', inl, b, id. split_and!; try done.
  by eapply query_fingerprint_inj.
Qed.

(** A step that only lets time pass. *)
Lemma pass_finally (f : prog (sop R) unit) request sql r w :
  (forall w0, wp f w0 (fun _ w' => w0 ⊆ w')) ->
  good_answer request sql r w ->
  wp f w (fun r' w' => match r' with
                       | Ok _ => good_answer request sql r w'
                       | Err e => good_answer request sql (Err e) w'
                       end).
Proof.
  intros Hf Hg. eapply wp_mono; [|apply Hf]. intros [u|e] w' Hw; [|apply good_error].
  by eapply good_weaken.
Qed.

Lemma run_engine_answers p context ttl flight w :
  mine p -> (forall key token, flight = Some (key, token) -> run_key p = Ok key) ->
  wp (run_engine (R := R) p context ttl flight) w
    (good_answer (pq_request p) (pq_normalized_sql p)).
Proof.
  intros Hm Hkey. unfold run_engine. apply wp_try_finally.
  assert (Hrel : forall w0, wp (match flight with
        | Some (key, token) => invoke (CacheRelease (R := R) key token)
        | None => Ret tt
        end) w0 (fun _ w' => w0 ⊆ w')).
  { intros w0. destruct flight as [[key token]|]; [|cbn; set_solver]. intros r w' Hw. by apply wp_lift. }
  apply wp_bind. intros r w1 Hw1. apply wp_lift.
  destruct r as [[v|st]|e]; [|apply pass_finally; [exact Hrel|by intros x [=]]..].
  assert (Hgood : forall b w', (p, v) :: w1 ⊆ w' ->
      good_answer (pq_request p) (pq_normalized_sql p)
        (Ok (RInline (with_cached b (ec_query_id context) v))) w').
  { intros b w' Hw x [= <-]. apply own_run; [done|set_solver]. }
  apply wp_bind. intros bytes w0 Hw0. apply wp_bind. intros u w2 Hw2.
  assert (Hin : (p, v) :: w1 ⊆ w2) by set_solver.
  destruct flight as [[key token]|].
  - apply wp_bind. split.
    + exists p, v, (ec_query_id context). split_and!; [set_solver|by eapply Hkey|done].
    + intros r w3 Hw3. apply wp_lift.
      destruct r; (apply pass_finally; [exact Hrel|]); [apply Hgood; set_solver|by intros x [=]].
  - apply pass_finally; [exact Hrel|]. by apply Hgood.
Qed.

Lemma single_flight_answers key p context ttl w :
  mine p -> run_key p = Ok key ->
  wp (single_flight (R := R) c key p context ttl) w
    (good_answer (pq_request p) (pq_normalized_sql p)).
Proof.
  intros Hm Hk. unfold single_flight.
  assert (Hrun : forall token w, wp (run_engine (R := R) p context ttl (Some (key, token))) w
                   (good_answer (pq_request p) (pq_normalized_sql p))).
  { intros token w0. apply run_engine_answers; [done|]. by intros key' token' [= <- _]. }
  apply wp_bind. intros r w1 _. apply wp_lift. destruct r as [[token|]|e]; [apply Hrun| |done].
  apply wp_bind. intros r w2 _ Hv. apply wp_lift. destruct r as [[v|]|e]; [| |done].
  - apply wp_bind. intros u w3 Hw3 x [= <-]. eapply cached_run; [done..|].
    by eapply from_run_grows, Hv.
  - apply wp_bind. intros r w3 _. apply wp_lift. by destruct r as [[token|]|e]; [apply Hrun| |].
Qed.

Lemma execute_admitted_answers request sql context w :
  wp (_execute_admitted (R := R) normalize c request sql context) w (good_answer request sql).
Proof.
  unfold _execute_admitted. destruct (_ttl c request) as [ttl|e]; [|done]. cbn [lift bind].
  apply wp_bind. intros r w1 _ Hp. apply wp_lift. destruct r as [p|e]; [|done].
  destruct (Hp p eq_refl) as (Hm & <- & <-).
  destruct (_ && cache_safe p)%bool; [|by apply run_engine_answers].
  fold (run_key p). destruct (run_key p) as [key|e] eqn:Ek; [|done]. cbn [lift bind].
  apply wp_bind. unfold _cache_get. apply wp_bind. intros r w2 _ Hv. apply wp_lift.
  destruct r as [[v|]|e]; [| |done].
  - apply wp_bind. intros u w3 Hw3 x [= <-]. eapply cached_run; [done..|].
    by eapply from_run_grows, Hv.
  - apply wp_bind. intros u w3 Hw3. by apply single_flight_answers.
Qed.

(** A program after which at most time has passed. *)
Definition passes {A} (p : prog (sop R) A) : Prop := forall w, wp p w (fun _ w' => w ⊆ w').

Lemma passes_record id kind request : passes (_record (R := R) id kind request).
Proof. intros w r w' Hw. exact Hw. Qed.

Lemma passes_update id status res error cls : passes (_update (R := R) id status res error cls).
Proof. intros w r w' Hw. exact Hw. Qed.

Lemma passes_when (b : bool) p : passes p -> passes (if b then p else Ret tt).
Proof. intros Hp. destruct b; [done|]. intros w. cbn. set_solver. Qed.

Lemma passes_context request context : passes (_context (R := R) c request context).
Proof.
  intros w. unfold _context. apply wp_bind, wp_lift. destruct (_timeout c request); [|cbn; set_solver].
  destruct context; [cbn; set_solver|]. intros r w' Hw. exact Hw.
Qed.

(** Time passes first, then the answer is found. *)
Lemma after_passing {A B} (p : prog (sop R) A) (f : A -> prog (sop R) B) w
    (Q : result exn B -> runs -> Prop) :
  passes p -> (forall a w', wp (f a) w' Q) -> (forall e w', Q (Err e) w') -> wp (bind p f) w Q.
Proof.
  intros Hp Hf He. apply wp_bind. eapply wp_mono; [|apply Hp]. intros [a|e] w' _; [apply Hf|apply He].
Qed.

Lemma timer_answers mode body request sql w :
  (forall w, wp body w (good_answer request sql)) ->
  wp (query_timer (Measure (R := R)) mode body) w (good_answer request sql).
Proof.
  intros Hb. unfold query_timer. apply wp_bind. intros u w1 _.
  apply wp_try_finally. eapply wp_mono; [|apply Hb]. intros r w2 Hg. apply pass_finally; [|done].
  intros w0 u1 w3 Hw3. cbn. intros u2 w4 Hw4. set_solver.
Qed.

Lemma slot_answers request sql context mode w :
  wp (with_slot (query_timer Measure mode (_execute_admitted (R := R) normalize c request sql context))) w
    (good_answer request sql).
Proof.
  unfold with_slot. apply wp_bind. intros admitted w1 _. destruct admitted; [|apply good_error].
  apply wp_try_finally. eapply wp_mono; [|apply timer_answers; intros; apply execute_admitted_answers].
  intros r w2 Hg. apply pass_finally; [|done]. intros w0 u w' Hw. exact Hw.
Qed.

Lemma execute_answers request context w sql :
  _validate normalize c request = Ok sql ->
  wp (execute (R := R) normalize c request context) w (good_answer request sql).
Proof.
  intros Hsql. unfold execute. rewrite Hsql. cbn [lift bind].
  apply after_passing; [apply passes_context| |intros; apply good_error]. intros context' w1.
  apply after_passing; [apply passes_when, passes_record| |intros; apply good_error]. intros _ w2.
  apply wp_bind, wp_try_except. eapply wp_mono; [|apply slot_answers].
  intros [res|e] w3 Hg.
  - apply wp_bind. eapply wp_mono; [|apply passes_when, passes_update].
    intros [u|e] w4 Hw; [|apply good_error]. by eapply good_weaken.
  - apply after_passing; [|intros; apply good_error..]. by apply passes_when, passes_update.
Qed.

End answers.

(** ** Requests that share one cache *)

Section sharing.
Context {R : Type} `{Sha256} (normalize : string -> list string -> result exn string)
  (c : service_cfg).

(** The cache, the executions so far, the query the engine prepared for each
    request, and the requests in progress. *)
Record shared := Shared {
  sh_cache : gmap string (InlineResult R);
  sh_runs : runs (R := R);
  sh_prepared : list (nat * PreparedQuery);
  sh_requests : list (prog (sop R) (QueryResult R));
}.

(** The answers to one request.  A lookup finds the entry or, as after an expiry,
    nothing; the engine prepares the request it is given; the rest is free. *)
Definition replies {X} (o : sop R X) (s : shared) : X -> gmap string (InlineResult R) -> runs -> Prop :=
  match o in sop _ Y return Y -> gmap string (InlineResult R) -> runs -> Prop with
  | CacheGet key => fun r cache w => cache = sh_cache s /\ w = sh_runs s
      /\ forall v, r = Ok (Some v) -> sh_cache s !! key = Some v
  | CacheWait key _ => fun r cache w => cache = sh_cache s /\ w = sh_runs s
      /\ forall v, r = Ok (Some v) -> sh_cache s !! key = Some v
  | CacheSet key v _ => fun r cache w =>
      w = sh_runs s /\ (cache = <[key := v]> (sh_cache s) \/ cache = sh_cache s)
  | Prepare request sql => fun r cache w => cache = sh_cache s /\ w = sh_runs s
      /\ forall p, r = Ok p -> pq_request p = request /\ pq_normalized_sql p = sql
  | EngineExecute p _ => fun r cache w => cache = sh_cache s
      /\ w = match r with Ok (RInline v) => (p, v) :: sh_runs s | _ => sh_runs s end
  | _ => fun _ cache w => cache = sh_cache s /\ w = sh_runs s
  end.

(** What the engine has prepared for request [i] when it answers. *)
Definition noted (i : nat) {X} (o : sop R X) : X -> list (nat * PreparedQuery) :=
  match o in sop _ Y return Y -> list (nat * PreparedQuery) with
  | Prepare _ _ => fun r => match r with Ok p => [(i, p)] | Err _ => [] end
  | _ => fun _ => []
  end.

Inductive shared_step (s : shared) : shared -> Prop :=
| shared_moves i X (o : sop R X) k x cache w :
    sh_requests s !! i = Some (Do o k) -> replies o s x cache w ->
    shared_step s (Shared cache w (noted i o x ++ sh_prepared s) (<[i := k x]> (sh_requests s)))
| shared_expires key :
    shared_step s (Shared (delete key (sh_cache s)) (sh_runs s) (sh_prepared s) (sh_requests s)).

Definition asked : Type := QueryRequest * option ExecutionContext.

Definition start_shared (rs : list asked) : shared :=
  Shared ∅ [] [] (map (fun r => execute (R := R) normalize c r.1 r.2) rs).

Definition cache_from (w : runs) (cache : gmap string (InlineResult R)) : Prop :=
  forall key v, cache !! key = Some v -> from_run normalize w key v.

Abbreviation wp_for mine := (wp (H := answer_effects normalize mine)).

Lemma wp_grows mine {A} (p : prog (sop R) A) w w' (Q : result exn A -> runs -> Prop) :
  (forall r w w', w ⊆ w' -> Q r w -> Q r w') -> w ⊆ w' -> wp_for mine p w Q -> wp_for mine p w' Q.
Proof.
  intros HQ Hw. destruct p as [a|e|X o k]; [by apply HQ|by apply HQ|].
  destruct o; cbn; intros He;
    try (intros r w2 Hw2; apply He; set_solver);
    try (intros r w2 Hw2 Hr; apply He; [set_solver|exact Hr]).
  destruct He as [Hf He]. split; [by eapply from_run_grows|]. intros r w2 Hw2. apply He. set_solver.
Qed.

Definition goal_of (mine : PreparedQuery -> Prop) (r : asked) (res : result exn (QueryResult R))
    (w : runs) : Prop :=
  forall sql, _validate normalize c r.1 = Ok sql -> good_answer normalize mine r.1 sql res w.

Section prepared.
Context (E : nat -> PreparedQuery -> Prop).

(** Request [n], request [n + 1] and so on keep their promises, each with what the
    engine prepared for it. *)
Fixpoint all_answer (n : nat) (w : runs) (ps : list (prog (sop R) (QueryResult R)))
    (rs : list asked) : Prop :=
  match ps, rs with
  | [], [] => True
  | p :: ps, r :: rs => wp_for (E n) p w (goal_of (E n) r) /\ all_answer (S n) w ps rs
  | _, _ => False
  end.

Lemma goal_grows mine r res w w' : w ⊆ w' -> goal_of mine r res w -> goal_of mine r res w'.
Proof. intros Hw Hg sql Hs. eapply good_weaken; [done|]. by apply Hg. Qed.

Lemma all_answer_grows n w w' ps rs : w ⊆ w' -> all_answer n w ps rs -> all_answer n w' ps rs.
Proof.
  intros Hw. revert n rs. induction ps as [|p ps IH]; intros n [|r rs]; cbn; try done.
  intros [Hp Hps]. split; [|by apply IH].
  eapply wp_grows; [intros; by eapply goal_grows|exact Hw|exact Hp].
Qed.

Lemma all_answer_insert n w i p p' ps rs :
  all_answer n w ps rs -> ps !! i = Some p ->
  exists r, rs !! i = Some r /\ wp_for (E (n + i)) p w (goal_of (E (n + i)) r)
    /\ forall w', w ⊆ w' -> wp_for (E (n + i)) p' w' (goal_of (E (n + i)) r) ->
         all_answer n w' (<[i := p']> ps) rs.
Proof.
  revert n i rs. induction ps as [|q ps IH]; intros n [|i] [|r rs]; try done.
  - rewrite Nat.add_0_r. intros [Hq Hps] [= ->]. exists r. split; [done|]. split; [done|].
    intros w' Hw Hp'. split; [done|]. by eapply all_answer_grows.
  - intros [Hq Hps] Hi. destruct (IH (S n) i rs Hps Hi) as (r' & Hr & Hp & Hmove).
    rewrite <- Nat.add_succ_comm. exists r'.
    split; [done|]. split; [done|]. intros w' Hw Hp'. split; [|by apply Hmove].
    eapply wp_grows; [intros; by eapply goal_grows|exact Hw|exact Hq].
Qed.

(** What a request does next keeps the cache's promise and its own. *)
Lemma reply_keeps {X} (o : sop R X) i s x cache w (Q : X -> runs -> Prop) :
  answer_effect normalize (E i) o (sh_runs s) Q -> replies o s x cache w ->
  (forall k p, (k, p) ∈ noted i o x -> E k p) -> cache_from (sh_runs s) (sh_cache s) ->
  sh_runs s ⊆ w /\ cache_from w cache /\ Q x w.
Proof.
  assert (Hrefl : sh_runs s ⊆ sh_runs s) by done.
  destruct o; cbn; intros He Hr Hn Hc; try (destruct Hr as [-> ->]; by auto);
    try (destruct Hr as (-> & -> & Hr); by split_and!; auto).
  - destruct Hr as (-> & -> & Hr). split_and!; [done..|]. apply He; [done|]. intros p ->.
    split; [|by apply Hr]. apply Hn. by left.
  - destruct Hr as [-> ->].
    assert (Hw : sh_runs s ⊆ match x with Ok (RInline v) => (p, v) :: sh_runs s | _ => sh_runs s end)
      by (destruct x as [[]|]; set_solver).
    split_and!; [done| |by apply He]. intros key v Hv. eapply from_run_grows; [done|by apply Hc].
  - destruct Hr as [-> Hr], He as [Hf He]. split_and!; [done| |by apply He].
    destruct Hr as [-> | ->]; [|done]. intros k v'. rewrite lookup_insert.
    case_decide as Hk; [|by apply Hc]. intros [= <-]. by subst.
Qed.

Lemma start_answers rs n : all_answer n [] (sh_requests (start_shared rs)) rs.
Proof.
  cbn. revert n. induction rs as [|[request context] rs IH]; intros n; cbn; [done|].
  split; [|apply IH]. destruct (_validate normalize c request) as [sql|e] eqn:Hs.
  - eapply wp_mono; [|by apply execute_answers]. intros r w' Hg sql' Hs'. cbn in Hs'.
    rewrite Hs in Hs'. by injection Hs' as <-.
  - unfold execute. rewrite Hs. cbn. intros sql Hs'. cbn in Hs'. by rewrite Hs in Hs'.
Qed.

Lemma shared_inv rs s :
  rtc shared_step (start_shared rs) s -> (forall i p, (i, p) ∈ sh_prepared s -> E i p) ->
  cache_from (sh_runs s) (sh_cache s) /\ all_answer 0 (sh_runs s) (sh_requests s) rs.
Proof.
  revert s. apply (rtc_ind_r (fun s => (forall i p, (i, p) ∈ sh_prepared s -> E i p) ->
    cache_from (sh_runs s) (sh_cache s) /\ all_answer 0 (sh_runs s) (sh_requests s) rs)).
  - intros _. split; [intros k v; cbn; by rewrite lookup_empty|apply start_answers].
  - intros s1 s2 _ Hstep IH Hprep. destruct Hstep as [i X o k x cache w Hi Hx|key]; cbn in *.
    + destruct IH as [Hc Ha]; [intros j p Hj; apply Hprep, elem_of_app; by right|].
      destruct (all_answer_insert _ _ _ _ (k x) _ _ Ha Hi) as (r & Hri & Hw & Hmove).
      destruct (reply_keeps o i s1 x cache w _ Hw Hx) as (Hsub & Hc' & Hk); [|done|].
      { intros j p Hj. apply Hprep, elem_of_app. by left. }
      split; [done|by apply Hmove].
    + destruct IH as [Hc Ha]; [done|]. split; [|done].
      intros k v Hv. apply lookup_delete_Some in Hv as [_ Hv]. by apply Hc.
Qed.
End prepared.
End sharing.

(** C25: Answers come from the same query.  Let any number of requests execute
    beside each other, sharing one result cache whose entries may expire.  Every
    inline answer any of them gives, cached or not, has the rows, columns and
    truncation of an execution of the query the engine prepared for this very
    request: an execution, by one of the requests, of the same normalised SQL over
    the same sources in the versions they had when this request was prepared, with
    the same limits, unless SHA-256 collides. *)
Theorem answers_come_from_the_same_query {R} `{Sha256} normalize c rs (s : shared (R := R)) i v
    request context sql :
  rtc shared_step (start_shared normalize c rs) s ->
  rs !! i = Some (request, context) -> _validate normalize c request = Ok sql ->
  sh_requests s !! i = Some (Ret (RInline v)) ->
  answered_by normalize (fun p0 => (i, p0) ∈ sh_prepared s) (sh_runs s) request sql v.
Proof.
  intros Hr Hi Hs Hp.
  destruct (shared_inv normalize c (fun i p => (i, p) ∈ sh_prepared s) rs s Hr) as [_ Ha]; [done|].
  destruct (all_answer_insert normalize c _ _ _ _ _ (Ret (RInline v)) _ _ Ha Hp)
    as (r & Hri & Hw & _).
  assert (E : Some r = Some (request, context)) by (etrans; [symmetry; exact Hri|exact Hi]).
  injection E as ->. by apply (Hw sql Hs v).
Qed.

(** ** Two requests for the same query *)

Module AnswerDemo.
#[local] Instance sha : Sha256 := {| sha256_hex s := s; sha256_head _ := 0 |}.

Definition normalize (sql : string) (aliases : list string) : result exn string := Ok sql.
Definition cfg : service_cfg := ServiceCfg 60 3600 1000 4 300 3600 (15 # 1) 120.

Definition source : SourceSpec := MkSource "e.csv" F_CSV None [] (Some "v1") None true.
Definition request : QueryRequest :=
  MkRequest "select 1" [("t", source)] default_output None None None.
Definition rows : InlineResult string := MkInline None ["x"] ["1"] false false.

(** An engine that always has the row, a cache that keeps everything. *)
Definition reply {X} (o : sop string X) (s : shared (R := string))
  : X * gmap string (InlineResult string) * runs (R := string) :=
  let cache := sh_cache s in
  let w := sh_runs s in
  match o in sop _ Y return Y * gmap string (InlineResult string) * runs (R := string) with
  | TryAcquire => (true, cache, w)
  | ReleaseSlot => (tt, cache, w)
  | NewIds => (("id", "attempt"), cache, w)
  | RecordInvocation _ _ _ => (Ok tt, cache, w)
  | UpdateInvocation _ _ _ _ _ => (Ok tt, cache, w)
  | Prepare r sql => (Ok (Prepared r [("t", ResolvedSrc "u" "f" true None)] sql), cache, w)
  | EngineExecute p _ => (Ok (RInline rows), cache, (p, rows) :: w)
  | EngineStream _ _ => (Ok "", cache, w)
  | NextRow => (Ok None, cache, w)
  | EngineExplain _ _ => (Ok "", cache, w)
  | EngineInspect _ => (Err (Exn PyException ""), cache, w)
  | EngineCancel _ => (Ok tt, cache, w)
  | CacheGet key => (Ok (cache !! key), cache, w)
  | CacheSet key v _ => (Ok true, <[key := v]> cache, w)
  | CacheAcquire _ _ => (Ok (Some "t"), cache, w)
  | CacheRelease _ _ => (Ok tt, cache, w)
  | CacheWait _ _ => (Ok None, cache, w)
  | Yield _ | Measure _ => (tt, cache, w)
  | EnginePing | CachePing => (Ok true, cache, w)
  | EngineClose | CacheClose => (Ok tt, cache, w)
  | InlineBytes _ => (0, cache, w)
  end.

Lemma reply_ok {X} (o : sop string X) s : replies o s (reply o s).1.1 (reply o s).1.2 (reply o s).2.
Proof.
  destruct o; cbn; try done.
  - split; [done|]. split; [done|]. by intros p [= <-].
  - split; [done|]. split; [done|]. by intros v [= ->].
  - split; [done|]. by left.
Qed.

(** Request [i] moves. *)
Definition go (i : nat) (s : shared (R := string)) : shared :=
  match sh_requests s !! i with
  | Some (Do o k) =>
      let r := reply o s in
      Shared r.1.2 r.2 (noted i o r.1.1 ++ sh_prepared s) (<[i := k r.1.1]> (sh_requests s))
  | _ => s
  end.

Lemma reach_step (s0 s1 s2 : shared (R := string)) :
  rtc shared_step s0 s1 -> shared_step s1 s2 -> rtc shared_step s0 s2.
Proof.
  induction 1 as [s|s s' s'' Hs _ IH]; intros H2; eapply rtc_l;
    [exact H2|apply rtc_refl|exact Hs|by apply IH].
Qed.

Lemma go_steps n i s0 s : rtc shared_step s0 s -> rtc shared_step s0 (Nat.iter n (go i) s).
Proof.
  intros Hs. induction n as [|n IH]; [done|].
  change (Nat.iter (S n) (go i) s) with (go i (Nat.iter n (go i) s)).
  revert IH. generalize (Nat.iter n (go i) s). intros s1 IH. unfold go.
  destruct (sh_requests s1 !! i) as [[a|e|X o k]|] eqn:E; [exact IH..| |exact IH].
  eapply reach_step; [exact IH|]. econstructor; [exact E|apply reply_ok].
Qed.

(** The first request executes the query, the second one finds its result. *)
Definition served : shared :=
  Nat.iter 20 (go 1) (Nat.iter 20 (go 0) (start_shared normalize cfg
                                            [(request, None); (request, None)])).
End AnswerDemo.

Lemma answers_come_from_the_same_query_witness (H := AnswerDemo.sha) :
  answered_by AnswerDemo.normalize (fun p0 => (1%nat, p0) ∈ sh_prepared AnswerDemo.served)
    (sh_runs AnswerDemo.served) AnswerDemo.request "select 1"
    (with_cached true "id" AnswerDemo.rows).
Proof.
  apply (answers_come_from_the_same_query AnswerDemo.normalize AnswerDemo.cfg
           [(AnswerDemo.request, None); (AnswerDemo.request, None)] AnswerDemo.served 1
           (with_cached true "id" AnswerDemo.rows) AnswerDemo.request None "select 1").
  - do 2 apply AnswerDemo.go_steps. apply rtc_refl.
  - done.
  - done.
  - vm_compute. reflexivity.
Defined.
