(* ===== verification/Spark.v ===== *)
(** * The Spark engine

    src/src/dalmatian/spark.py: what a source is read from and with which options,
    the views of a query, the scope that times a query out and translates its
    errors, the three ways a query delivers (inline within the limits, stored and
    published, or streamed as lines), the configuration of the session and its end.
    PySpark, Hadoop's file system and the timer are operations
    ([eop]); the glob patterns are executable text functions. *)

From Stdlib Require Import Ascii.
From S2P Require Import Prelude Models Fingerprint Storage Datasets Prog Service.

#[local] Open Scope Z_scope.

(** ** Patterns *)

(** The texts before and after the first "**". *)
Fixpoint split_stars (s : string) : option (string * string) :=
  match s with
  | EmptyString => None
  | String a rest =>
      if starts_with "**" s then Some (EmptyString, remove_prefix "**" s)
      else match split_stars rest with
           | Some (p, q) => Some (String a p, q)
           | None => None
           end
  end.

(** [text.rsplit("/", 1)[-1]]. *)
Fixpoint after_last_slash (s : string) : string :=
  match s with
  | EmptyString => EmptyString
  | String a rest =>
      if contains "/" rest then after_last_slash rest
      else if decide (a = slash) then rest else s
  end.

Definition _schema (s : SourceSpec) : option string :=
  match src_schema s with
  | None => None
  | Some (SchemaText ddl) => Some ddl
  | Some (SchemaFields fields) =>
      Some (join ", " (map (fun f => "`" +:+ f.1 +:+ "` " +:+ f.2) fields))
  end.

Definition _read_target (uri : string) : string * list (string * string) :=
  match split_stars uri with
  | None => (uri, [])
  | Some (prefix, suffix) =>
      let base := rstrip slash prefix in
      let trailing := lstrip slash suffix in
      let basename := after_last_slash trailing in
      (base,
       [("recursiveFileLookup", "true")]
       ++ if negb (bool_decide (basename = "")) && negb (contains "**" basename)
          then [("pathGlobFilter", basename)] else [])
  end.

(** [re.escape] of one character. *)
Definition re_escape (a : ascii) : string :=
  let n := nat_of_ascii a in
  if bool_decide (n ∈ [40; 41; 91; 93; 123; 125; 63; 42; 43; 45; 124; 94; 36; 92; 46; 38; 126; 35;
                       32; 9; 10; 13; 11; 12]%nat)
  then String (ascii_of_nat 92) (String a EmptyString) else String a EmptyString.

Definition glob_piece (a : ascii) : string :=
  if decide (a = "*"%char) then "[^/]*" else if decide (a = "?"%char) then "[^/]" else re_escape a.

Fixpoint glob_parts (s : string) : string :=
  match s with
  | EmptyString => EmptyString
  | String a r1 =>
      match r1 with
      | String b r2 =>
          if (bool_decide (a = "*"%char) && bool_decide (b = "*"%char))%bool then
            match r2 with
            | String d r3 =>
                if decide (d = slash) then "(?:.*/)?" +:+ glob_parts r3 else ".*" +:+ glob_parts r2
            | EmptyString => ".*"
            end
          else glob_piece a +:+ glob_parts r1
      | EmptyString => glob_piece a
      end
  end.

Definition _glob_regex (uri : string) : option string :=
  match split_stars uri with
  | None => None
  | Some (_, suffix) =>
      let trailing := lstrip slash suffix in
      if bool_decide (trailing = "") || (negb (contains "/" trailing) && negb (contains "**" trailing))
      then None else Some ("^" +:+ glob_parts uri +:+ "$")
  end.

(** ** What a source is read with *)

(** Format, options, schema, paths, and the filter on the file names read. *)
Record read_plan := ReadPlan {
  rp_format : DataFormat;
  rp_options : list (string * string);
  rp_schema : option string;
  rp_targets : list string;
  rp_filter : option string;
}.

(** [if schema:] *)
Definition nonempty (o : option string) : option string :=
  match o with Some EmptyString => None | o => o end.

Definition _read_source (s : SourceSpec) (r : ResolvedSource) : read_plan :=
  let '(targets, recursive_options) :=
    match rs_read_uris r with
    | None => let '(t, o) := _read_target (rs_uri r) in ([t], o)
    | Some uris => (uris, [])
    end in
  let tag := ("dalmatianSourceFingerprint", rs_fingerprint r) in
  let schema := _schema s in
  let options :=
    match src_format s with
    | F_CSV =>
        let o := dict_update (dict_update [("header", "true"); tag] (src_options s))
                   recursive_options in
        match schema with
        | None => dict_set "inferSchema" (if src_infer_schema s then "true" else "false") o
        | Some _ => o
        end
    | _ => dict_update (dict_update [tag] (src_options s)) recursive_options
    end in
  ReadPlan (src_format s) options (nonempty schema) targets (_glob_regex (rs_uri r)).

(** ** Operations *)

Inductive eop (R : Type) : Type -> Type :=
(* the dataset cache: [hits]; [get_or_load] with the loader [load_view] and the
   release [_release_cached_view] *)
| DatasetHits : eop R Z
| GetOrLoad (fingerprint : string) (plan : read_plan) : eop R (result exn (string * bool))
| CountDataset (label : string) : eop R unit
(* the shared session: a table persisted under a global view, and its release *)
| PersistRead (plan : read_plan) : eop R (result exn unit)
| CreateGlobalView (view : string) : eop R (result exn unit)
| Unpersist (view : string) : eop R (result exn unit)
| DropGlobalView (view : string) : eop R (result exn unit)
(* the query's own session: its temporary views and its statement *)
| ViewOfGlobal (global name : string) : eop R (result exn unit)
| ViewOfRead (plan : read_plan) (name : string) : eop R (result exn unit)
| Sql (sql : string) : eop R (result exn unit)
(* job group and timer *)
| SetJobGroup (id : string) : eop R unit
| StartTimer (seconds : Z) (id : string) : eop R unit
| TimedOut : eop R bool
| StopTimer : eop R unit
| ClearJobGroup : eop R unit
(* rows of [frame.limit(n)] as JSON texts, then the column names *)
| NextJson (limit : Z) : eop R (result exn (option string))
| Columns : eop R (result exn (list string))
(* the rows of a stream, as JSON texts or as cells, and a chunk for the consumer *)
| StreamText : eop R (result exn (option string))
| StreamCells : eop R (result exn (option (list string)))
| Chunk (text : string) : eop R unit
(* [queryExecution().toString()] *)
| Plan : eop R (result exn string)
(* writing and publishing *)
| Partitions : eop R (result exn Z)
| WriteData (f : OutputFormat) (options : list (string * string)) (uri : string)
  : eop R (result exn unit)
| CanCommit : eop R (result exn bool)
| NowIso : eop R string
(* Hadoop: the path's file system, its parent, a stream of bytes *)
| HadoopPath (uri : string) : eop R (result exn unit)
| ParentPath (uri : string) : eop R (result exn (option string))
| Mkdirs (uri : string) : eop R (result exn unit)
| CreateFile (uri : string) (overwrite : bool) : eop R (result exn unit)
| WriteBytes (uri payload : string) : eop R (result exn unit)
| CloseFile (uri : string) : eop R (result exn unit)
| PublishOutput (key uri mode : string) : eop R (result exn Z)
| PublishSync (key id attempt uri mode : string) : eop R (result exn bool)
(* the session's jobs and its end; the columns of a source *)
| CancelJobGroup (id : string) : eop R (result exn unit)
| IsStopped : eop R (result exn bool)
| ClearDatasets : eop R (list string)
| StopSession : eop R (result exn unit)
| SchemaOf (plan : read_plan) : eop R (result exn (list SourceColumn)).
Arguments DatasetHits {R}.
Arguments GetOrLoad {R} fingerprint plan.
Arguments CountDataset {R} label.
Arguments PersistRead {R} plan.
Arguments CreateGlobalView {R} view.
Arguments Unpersist {R} view.
Arguments DropGlobalView {R} view.
Arguments ViewOfGlobal {R} global name.
Arguments ViewOfRead {R} plan name.
Arguments Sql {R} sql.
Arguments SetJobGroup {R} id.
Arguments StartTimer {R} seconds id.
Arguments TimedOut {R}.
Arguments StopTimer {R}.
Arguments ClearJobGroup {R}.
Arguments NextJson {R} limit.
Arguments Columns {R}.
Arguments StreamText {R}.
Arguments StreamCells {R}.
Arguments Chunk {R} text.
Arguments Plan {R}.
Arguments Partitions {R}.
Arguments WriteData {R} f options uri.
Arguments CanCommit {R}.
Arguments NowIso {R}.
Arguments HadoopPath {R} uri.
Arguments ParentPath {R} uri.
Arguments Mkdirs {R} uri.
Arguments CreateFile {R} uri overwrite.
Arguments WriteBytes {R} uri payload.
Arguments CloseFile {R} uri.
Arguments PublishOutput {R} key uri mode.
Arguments PublishSync {R} key id attempt uri mode.
Arguments CancelJobGroup {R} id.
Arguments IsStopped {R}.
Arguments ClearDatasets {R}.
Arguments StopSession {R}.
Arguments SchemaOf {R} plan.

Definition AnalysisException : exn_class := Derived "AnalysisException" (Derived "PySparkException" PyException).
Definition IndexError : exn_class := Derived "IndexError" (Derived "LookupError" PyException).

(** The first line of a text, as [splitlines()[0]]; nothing for an empty text. *)
Definition line_end (a : ascii) : bool :=
  bool_decide (nat_of_ascii a ∈ [10; 11; 12; 13; 28; 29; 30]%nat).

Fixpoint until_line_end (s : string) : string :=
  match s with
  | EmptyString => EmptyString
  | String a rest => if line_end a then EmptyString else String a (until_line_end rest)
  end.

Definition first_line (s : string) : option string :=
  match s with EmptyString => None | _ => Some (until_line_end s) end.

(** [view_name = f"_dalmatian_{fingerprint[:24]}"]. *)
Definition view_name (fingerprint : string) : string :=
  "_dalmatian_" +:+ String.substring 0 24 fingerprint.

Definition newline : string := String (ascii_of_nat 10) EmptyString.

(** ** The session *)

(** What [__init__] configures the session's builder with. *)
Record session_cfg := SessionCfg {
  se_app_name : string;
  se_master : string;
  se_spark_packages : string;
  se_spark_config : list (string * string);
  se_app_max_cores : Z;
  se_executor_cores : Z;
  se_executor_memory : string;
  se_executor_instances : option Z;
}.

(** [builder.config(key, value)], in order; [local_ip] is SPARK_LOCAL_IP. *)
Definition session_options (c : session_cfg) (local_ip : option string) : list (string * string) :=
  dict_update [("spark.app.name", se_app_name c)]
    ([("spark.master", se_master c); ("spark.scheduler.mode", "FAIR");
      ("spark.cores.max", str_of_Z (se_app_max_cores c));
      ("spark.executor.cores", str_of_Z (se_executor_cores c));
      ("spark.executor.memory", se_executor_memory c)]
     ++ match nonempty local_ip with
        | Some ip => [("spark.driver.host", ip); ("spark.driver.bindAddress", ip)]
        | None => []
        end
     ++ match se_executor_instances c with
        | Some n => [("spark.executor.instances", str_of_Z n)]
        | None => []
        end
     ++ (if decide (se_spark_packages c = "") then []
         else [("spark.jars.packages", se_spark_packages c)])
     ++ se_spark_config c).

Section engine.
Context {R : Type} `{Files} `{Sha256}.
(** [json.loads] of a row; the registry of locations; the data root; the limit. *)
Context (parse : string -> result exn R) (storage : StorageRegistry) (data_root : string)
  (max_inline_bytes : Z).
Local Open Scope prog_scope.

Abbreviation program := (prog (eop R)).

(** ** Preparing *)

Fixpoint resolve_all (sources : list (string * SourceSpec))
  : result exn (list (string * ResolvedSource)) :=
  match sources with
  | [] => Ok []
  | (name, s) :: sources =>
      r_bind (Datasets.resolve_source s storage data_root) (fun r =>
      r_bind (resolve_all sources) (fun rs => Ok ((name, r) :: rs)))
  end.

Definition prepare (request : QueryRequest) (normalized_sql : string) : result exn PreparedQuery :=
  r_bind (resolve_all (q_sources request)) (fun sources =>
  Ok (Prepared request sources normalized_sql)).

(** ** The views of a query *)

(** [load], the loader of [_load_cached_view]. *)
Definition load_view (fingerprint : string) (plan : read_plan) : program string :=
  invoke (PersistRead plan);;
  invoke (CreateGlobalView (view_name fingerprint));;
  Ret (view_name fingerprint).

(** Both steps are tried, neither is allowed to fail. *)
Definition _release_cached_view (view : string) : program unit :=
  best_effort (Unpersist view);;
  best_effort (DropGlobalView view).

(** The look-up is counted as a hit also when other threads' hits went up
    meanwhile. *)
Definition _load_cached_view (s : SourceSpec) (r : ResolvedSource) : program string :=
  hits_before <- perform DatasetHits;;
  v <- (invoke (GetOrLoad (rs_fingerprint r) (_read_source s r)) : program (string * bool));;
  hit <- (if (v.2 : bool) then Ret true
          else hits <- perform DatasetHits;; Ret (hits_before <? hits));;
  perform (CountDataset (if (hit : bool) then "hit" else "miss"));;
  Ret v.1.

Definition open_source (name : string) (s : SourceSpec) (r : ResolvedSource) : program unit :=
  if rs_cache_safe r then
    view <- _load_cached_view s r;;
    invoke (ViewOfGlobal view name)
  else invoke (ViewOfRead (_read_source s r) name).

(** The prepared sources are those of the request, under the same names. *)
Fixpoint open_sources (sources : list (string * SourceSpec)) (prepared : PreparedQuery)
  : program unit :=
  match sources with
  | [] => Ret tt
  | (name, s) :: sources =>
      match list_find (fun p => p.1 = name) (pq_sources prepared) with
      | Some (_, (_, r)) => open_source name s r
      | None => Raise (Exn (Derived "KeyError" (Derived "LookupError" PyException)) name)
      end;;
      open_sources sources prepared
  end.

Definition _frame (prepared : PreparedQuery) : program unit :=
  open_sources (q_sources (pq_request prepared)) prepared;;
  invoke (Sql (pq_normalized_sql prepared)).

(** ** The scope of a query *)

Definition analysis_rejected (e : exn) : exn :=
  match first_line (exn_text e) with
  | Some line => Exn QueryRejected ("query analysis failed: " +:+ String.substring 0 500 line)
  | None => Exn IndexError "list index out of range"
  end.

(** The error a query is reported with. *)
Definition scope_error (context : ExecutionContext) (timed_out : bool) (e : exn) : exn :=
  if timed_out then
    Exn QueryTimeout ("query exceeded " +:+ str_of_Z (ec_timeout_seconds context) +:+ " seconds")
  else if contains "cancel" (lower (exn_text e)) then Exn QueryCancelled "query was cancelled"
  else if isinstance e AnalysisException then analysis_rejected e
  else e.

Definition _query_scope {A} (context : ExecutionContext) (body : program A) : program A :=
  perform (SetJobGroup (ec_query_id context));;
  perform (StartTimer (ec_timeout_seconds context) (ec_query_id context));;
  try_finally
    (try_except body (fun e =>
       timed_out <- perform TimedOut;; Raise (scope_error context timed_out e)))
    (perform StopTimer;; perform ClearJobGroup).

(** ** Inline results *)

Definition byte_limit_text : string :=
  "inline result exceeds byte limit; use stream or store output".

(** The loop over the rows; [room] rows still fit. *)
Fixpoint collect (limit : Z) (room : nat) (rows : list R) (encoded_bytes : Z)
  : program (list R * bool) :=
  raw <- (invoke (NextJson limit) : program (option string));;
  match raw with
  | None => Ret (rows, false)
  | Some raw =>
      match room with
      | O => Ret (rows, true)
      | S room =>
          let encoded_bytes := encoded_bytes + Z.of_nat (String.length raw) in
          if max_inline_bytes <? encoded_bytes then Raise (Exn QueryRejected byte_limit_text)
          else row <- lift (parse raw);; collect limit room (rows ++ [row]) encoded_bytes
      end
  end.

Definition _inline (prepared : PreparedQuery) (context : ExecutionContext)
  : program (InlineResult R) :=
  _frame prepared;;
  let max_rows := q_max_rows (pq_request prepared) in
  r <- collect (max_rows + 1) (Z.to_nat max_rows) [] 0;;
  columns <- invoke Columns;;
  Ret (MkInline (Some (ec_query_id context)) columns r.1 r.2 false).

(** ** Stored results *)

Definition data_uri (logical : ResolvedDestination) (context : ExecutionContext) : string :=
  rd_uri logical +:+ "/_dalmatian_data/" +:+ ec_query_id context +:+ "/" +:+ ec_attempt_id context.

Definition manifest_uri (logical : ResolvedDestination) (context : ExecutionContext) : string :=
  rd_uri logical +:+ "/_dalmatian_manifests/" +:+ ec_query_id context +:+ "/"
  +:+ ec_attempt_id context +:+ ".json".

Definition stored_json (r : StoredResult) : json :=
  JObj [("type", JStr "stored"); ("query_id", JStr (st_query_id r));
        ("format", JStr (output_format_value (st_format r))); ("location", JStr (st_location r));
        ("path", JStr (st_path r)); ("manifest_uri", JStr (st_manifest_uri r));
        ("data_uri", JStr (st_data_uri r)); ("partitions", JInt (st_partitions r));
        ("source_versions", j_dict (st_source_versions r))].

Definition manifest (context : ExecutionContext) (now : string) (r : StoredResult) : string :=
  manifest_payload
    [("version", JInt 2); ("query_id", JStr (ec_query_id context));
     ("attempt_id", JStr (ec_attempt_id context)); ("attempt_number", JInt (ec_attempt_number context));
     ("created_at", JStr now); ("result", stored_json r)].

(** [_hadoop_path] and what [_write_manifest] does with it.  The stream is closed
    however the write ends; a failing close raises in the place of the write. *)
Definition _write_manifest (uri payload : string) (overwrite : bool) : program unit :=
  invoke (HadoopPath uri);;
  parent <- (invoke (ParentPath uri) : program (option string));;
  match parent with Some parent => invoke (Mkdirs parent) | None => Ret tt end;;
  invoke (CreateFile uri overwrite);;
  try_finally (invoke (WriteBytes uri payload)) (invoke (CloseFile uri)).

(** The worker's callback where the context has one, the registry otherwise. *)
Definition publish (logical : ResolvedDestination) (context : ExecutionContext) (mode : WriteMode)
  : program Z :=
  let key := publication_key storage logical in
  let uri := manifest_uri logical context in
  if ec_publishes context then invoke (PublishOutput key uri (write_mode_value mode))
  else
    published <- (invoke (PublishSync key (ec_query_id context) (ec_attempt_id context) uri
                            (write_mode_value mode)) : program bool);;
    Ret (if published then 1 else 0).

Definition _store (prepared : PreparedQuery) (context : ExecutionContext) : program StoredResult :=
  let output := q_output (pq_request prepared) in
  match out_location output, out_path output with
  | Some location, Some path =>
      if bool_decide (out_format output = O_JSON)
      then Raise (Exn PyValueError
                    "stored json uses jsonl format; json is reserved for inline output")
      else
        logical <- lift (resolve storage location path);;
        _frame prepared;;
        partitions <- invoke Partitions;;
        invoke (WriteData (out_format output) (out_options output) (data_uri logical context));;
        go_on <- (invoke CanCommit : program bool);;
        if negb go_on
        then Raise (Exn CommitFenced "job lease changed before output publication")
        else
          let r := MkStored (ec_query_id context) (out_format output) (rd_location logical)
                     (rd_path logical) (manifest_uri logical context) (data_uri logical context)
                     partitions (source_versions prepared) in
          now <- perform NowIso;;
          _write_manifest (manifest_uri logical context) (manifest context now r) false;;
          published <- publish logical context (out_write_mode output);;
          if published <? 0
          then Raise (Exn CommitFenced "job lease changed during output publication")
          else if published =? 0
          then Raise (Exn PyFileExistsError ("stored output already exists: " +:+ rd_path logical))
          else Ret r
  | _, _ => Raise (Exn (Derived "AssertionError" PyException) "")
  end.

Definition execute (prepared : PreparedQuery) (context : ExecutionContext)
  : program (QueryResult R) :=
  res <- _query_scope context
    (match out_mode (q_output (pq_request prepared)) with
     | INLINE => r <- _inline prepared context;; Ret (Some (RInline r))
     | STORE => r <- _store prepared context;; Ret (Some (RStored r))
     | STREAM => Ret None
     end);;
  match res with
  | Some r => Ret r
  | None => Raise (Exn PyValueError "stream output must use the streaming execution path")
  end.

(** ** Streams *)

(** [csv.writer(...).writerow], a line end included; a cell is its text. *)
Context (csv_line : list string -> string).

(** One chunk per row, as long as the consumer asks, [demand] more times.  Closing
    the generator raises GeneratorExit at the chunk: no handler sees it. *)
Fixpoint jsonl_rows (demand : nat) : program unit :=
  row <- (invoke StreamText : program (option string));;
  match row with
  | None => Ret tt
  | Some text =>
      perform (Chunk (text +:+ newline));;
      match demand with O => Ret tt | S demand => jsonl_rows demand end
  end.

Fixpoint cell_rows (demand : nat) : program unit :=
  match demand with
  | O => Ret tt
  | S demand =>
      row <- (invoke StreamCells : program (option (list string)));;
      match row with
      | None => Ret tt
      | Some cells => perform (Chunk (csv_line cells));; cell_rows demand
      end
  end.

(** The column names come first. *)
Definition _csv_rows (demand : nat) : program unit :=
  columns <- (invoke Columns : program (list string));;
  perform (Chunk (csv_line columns));;
  cell_rows demand.

Definition stream_body (prepared : PreparedQuery) (context : ExecutionContext)
    (rows : nat -> program unit) (demand : nat) : program unit :=
  match demand with
  | O => Ret tt
  | S demand => _query_scope context (_frame prepared;; rows demand)
  end.

(** The media type and the generator, by the number of chunks asked for. *)
Definition stream (prepared : PreparedQuery) (context : ExecutionContext)
  : result exn (string * (nat -> program unit)) :=
  let output := q_output (pq_request prepared) in
  match out_mode output, out_format output with
  | STREAM, O_JSONL => Ok ("application/x-ndjson", stream_body prepared context jsonl_rows)
  | STREAM, O_CSV => Ok ("text/csv", stream_body prepared context _csv_rows)
  | STREAM, _ => raise PyValueError "stream output format must be csv or jsonl"
  | _, _ => raise PyValueError "request output mode is not stream"
  end.

Definition explain (prepared : PreparedQuery) (context : ExecutionContext) : program string :=
  _query_scope context (_frame prepared;; invoke Plan).

(** ** Inspection *)

Definition inspection (s : SourceSpec) (r : ResolvedSource) (columns : list SourceColumn)
  : SourceInspection :=
  Inspection (match src_location s with None | Some EmptyString => "local" | Some l => l end)
    (rs_uri r) (if rs_cache_safe r then Some (rs_fingerprint r) else None) (rs_cache_safe r) columns.

Definition inspect (s : SourceSpec) : program SourceInspection :=
  resolved <- lift (Datasets.resolve_source s storage data_root);;
  columns <- invoke (SchemaOf (_read_source s resolved));;
  Ret (inspection s resolved columns).

(** ** The engine as a whole *)

Definition cancel (query_id : string) : program unit := invoke (CancelJobGroup query_id).

Definition ping : program bool :=
  stopped <- invoke IsStopped;; Ret (negb stopped).

(** [self.datasets.close()]: the entries are taken out at once, then released. *)
Definition close_datasets : program unit :=
  views <- perform ClearDatasets;;
  for_each views tt (fun _ view => _release_cached_view view).

Definition close : program unit := close_datasets;; invoke StopSession.
End engine.
