(* ===== verification/SparkTheorems.v ===== *)
(** * What the Spark engine promises

    Inline results stay within the row and byte limits and are the first rows of
    the query; a stored result is reported exactly when it has been published, and
    it is published last; a stream is the rows Spark delivered; errors that merely
    mention "cancel" are reported as cancellations. *)

From Stdlib Require Import Ascii.
From S2P Require Import Prelude Models Fingerprint Storage StorageTheorems Datasets Prog Service Spark.

#[local] Open Scope Z_scope.

Lemma length_app_string s t : String.length (s +:+ t) = (String.length s + String.length t)%nat.
Proof. induction s as [|a s IH]; [done|]. rewrite string_app_cons. cbn. by rewrite IH. Qed.

(** ** The world of one query: what Spark delivered and what was made durable *)

Inductive step :=
| WroteData (f : OutputFormat) (uri : string)
| MayCommit
| WroteManifest (uri payload : string)
| Published (key uri mode : string) (reply : Z)
| PublishedSync (key id attempt uri mode : string) (reply : Z).

Record world := World {
  w_texts : list string;          (* row texts delivered *)
  w_steps : list step;            (* completed steps of a stored result *)
  w_group : option string;        (* the job group of the thread *)
  w_timer : bool;                 (* a timer is running *)
  w_lines : list (list string);   (* column names and cells delivered *)
  w_chunks : list string;         (* what the consumer of a stream got *)
  w_file : string;                (* what was written to the open file *)
  w_late : bool;                  (* the timer had fired when it was asked *)
}.

Definition deliver (raw : string) (w : world) : world :=
  World (w_texts w ++ [raw]) (w_steps w) (w_group w) (w_timer w) (w_lines w) (w_chunks w) (w_file w)
    (w_late w).
Definition finish (s : step) (w : world) : world :=
  World (w_texts w) (w_steps w ++ [s]) (w_group w) (w_timer w) (w_lines w) (w_chunks w) (w_file w)
    (w_late w).
Definition set_group (g : option string) (w : world) : world :=
  World (w_texts w) (w_steps w) g (w_timer w) (w_lines w) (w_chunks w) (w_file w)
    (w_late w).
Definition set_timer (t : bool) (w : world) : world :=
  World (w_texts w) (w_steps w) (w_group w) t (w_lines w) (w_chunks w) (w_file w)
    (w_late w).
Definition deliver_line (line : list string) (w : world) : world :=
  World (w_texts w) (w_steps w) (w_group w) (w_timer w) (w_lines w ++ [line]) (w_chunks w) (w_file w)
    (w_late w).
Definition send (chunk : string) (w : world) : world :=
  World (w_texts w) (w_steps w) (w_group w) (w_timer w) (w_lines w) (w_chunks w ++ [chunk]) (w_file w)
    (w_late w).
Definition set_file (bytes : string) (w : world) : world :=
  World (w_texts w) (w_steps w) (w_group w) (w_timer w) (w_lines w) (w_chunks w) bytes (w_late w).
Definition set_late (late : bool) (w : world) : world :=
  World (w_texts w) (w_steps w) (w_group w) (w_timer w) (w_lines w) (w_chunks w) (w_file w) late.

(** [finish] when the reply says the step was taken. *)
Definition finish_if (b : bool) (s : step) (w : world) : world := if b then finish s w else w.

Definition sync_reply (r : result exn bool) : result exn Z :=
  match r with Ok b => Ok (if b then 1 else 0) | Err e => Err e end.

(** [finish] when the registry, or the worker's callback, has answered. *)
Definition finish_reply (s : Z -> step) (r : result exn Z) (w : world) : world :=
  match r with Ok n => finish (s n) w | Err _ => w end.

(** ** Inline results *)

Section engine.
Context {R : Type}.

(** Every operation may answer anything; the world records what was done. *)
Definition spark_effect {X} (o : eop R X) (w : world) : (X -> world -> Prop) -> Prop :=
  match o in eop _ Y return (Y -> world -> Prop) -> Prop with
  | NextJson _ => fun Q => forall r, Q r (match r with Ok (Some raw) => deliver raw w | _ => w end)
  | SetJobGroup id => fun Q => Q tt (set_group (Some id) w)
  | StartTimer _ _ => fun Q => Q tt (set_timer true w)
  | StopTimer => fun Q => Q tt (set_timer false w)
  | ClearJobGroup => fun Q => Q tt (set_group None w)
  | WriteData f _ uri => fun Q => forall r, Q r (finish_if (is_ok r) (WroteData f uri) w)
  | CanCommit => fun Q => forall r, Q r (match r with Ok true => finish MayCommit w | _ => w end)
  | HadoopPath _ | Mkdirs _ => fun Q => forall r, Q r w
  | ParentPath _ => fun Q => forall r, Q r w
  | CreateFile _ _ => fun Q => forall r, Q r (set_file "" w)
  (* a failing write can leave a part of the text *)
  | WriteBytes _ payload => fun Q =>
      forall r bytes, (is_ok r = true -> bytes = payload) -> Q r (set_file bytes w)
  | CloseFile uri => fun Q => forall r, Q r (finish_if (is_ok r) (WroteManifest uri (w_file w)) w)
  | PublishOutput key uri mode => fun Q => forall r, Q r (finish_reply (Published key uri mode) r w)
  | PublishSync key id attempt uri mode => fun Q =>
      forall r, Q r (finish_reply (PublishedSync key id attempt uri mode) (sync_reply r) w)
  | DatasetHits => fun Q => forall r, Q r w
  | GetOrLoad _ _ => fun Q => forall r, Q r w
  | CountDataset _ => fun Q => Q tt w
  | PersistRead _ | CreateGlobalView _ | Unpersist _ | DropGlobalView _ => fun Q => forall r, Q r w
  | ViewOfGlobal _ _ => fun Q => forall r, Q r w
  | ViewOfRead _ _ => fun Q => forall r, Q r w
  | Sql _ => fun Q => forall r, Q r w
  | TimedOut => fun Q => forall r, Q r (set_late r w)
  | Columns => fun Q => forall r, Q r (match r with Ok names => deliver_line names w | _ => w end)
  | StreamText => fun Q => forall r, Q r (match r with Ok (Some raw) => deliver raw w | _ => w end)
  | StreamCells => fun Q =>
      forall r, Q r (match r with Ok (Some cells) => deliver_line cells w | _ => w end)
  | Chunk text => fun Q => Q tt (send text w)
  | Plan => fun Q => forall r, Q r w
  | Partitions => fun Q => forall r, Q r w
  | NowIso => fun Q => forall r, Q r w
  | CancelJobGroup _ | StopSession => fun Q => forall r, Q r w
  | IsStopped => fun Q => forall r, Q r w
  | ClearDatasets => fun Q => forall r, Q r w
  | SchemaOf _ => fun Q => forall r, Q r w
  end.

Lemma spark_effect_mono X (o : eop R X) w (Q1 Q2 : X -> world -> Prop) :
  (forall x w', Q1 x w' -> Q2 x w') -> spark_effect o w Q1 -> spark_effect o w Q2.
Proof. intros HQ. destruct o; cbn; naive_solver. Qed.

#[local] Instance spark_effects : Effects (eop R) world :=
  {| effect := @spark_effect; effect_mono := spark_effect_mono |}.

(** Any program can run in this world. *)
Lemma any_outcome {A} (p : prog (eop R) A) w : wp p w (fun _ _ => True).
Proof.
  assert (Hany : forall X (o : eop R X) w (Q : X -> world -> Prop),
            (forall x w', Q x w') -> spark_effect o w Q).
  { intros X o w0 Q HQ. destruct o; cbn; auto. }
  revert w. induction p as [a|e|X o k IH]; intros w; [done..|]. by apply Hany.
Qed.

Context `{Files} `{Sha256} (parse : string -> result exn R).

Fixpoint text_bytes (raws : list string) : Z :=
  match raws with [] => 0 | raw :: raws => Z.of_nat (String.length raw) + text_bytes raws end.

Lemma text_bytes_app l1 l2 : text_bytes (l1 ++ l2) = text_bytes l1 + text_bytes l2.
Proof. induction l1 as [|x l1 IH]; [done|]. cbn [text_bytes app]. rewrite IH. lia. Qed.

(** [rows] are the rows of the first texts; one more text when truncated. *)
Definition first_rows (max_inline_bytes : Z) (max_rows : nat) (rows : list R) (truncated : bool)
    (w : world) : Prop :=
  exists raws more,
    w_texts w = raws ++ more /\ Forall2 (fun raw row => parse raw = Ok row) raws rows
    /\ text_bytes raws <= max_inline_bytes
    /\ (length rows <= max_rows)%nat
    /\ if truncated then length rows = max_rows /\ length more = 1%nat else more = [].

Lemma collect_rows max_inline_bytes limit room rows w :
  Forall2 (fun raw row => parse raw = Ok row) (w_texts w) rows ->
  text_bytes (w_texts w) <= max_inline_bytes ->
  wp (collect parse max_inline_bytes limit room rows (text_bytes (w_texts w))) w
    (fun r w' => forall p, r = Ok p ->
       first_rows max_inline_bytes (length rows + room) p.1 p.2 w').
Proof.
  revert rows w. induction room as [|room IH]; intros rows w Hrows Hbytes;
    cbn [collect]; apply wp_bind; intros raw; apply wp_lift.
  - destruct raw as [[raw|]|e]; [| |done]; intros p [= <-].
    + exists (w_texts w), [raw]. cbn. rewrite Nat.add_0_r. done.
    + exists (w_texts w), []. cbn. rewrite Nat.add_0_r, app_nil_r. done.
  - destruct raw as [[raw|]|e]; [| |done].
    2: { intros p [= <-]. exists (w_texts w), []. rewrite app_nil_r. cbn. split_and!; try done. lia. }
    cbn zeta.
    destruct (Z.ltb_spec max_inline_bytes (text_bytes (w_texts w) + Z.of_nat (String.length raw)))
      as [Hover|Hfit]; [done|].
    destruct (parse raw) as [row|e] eqn:Ep; [|done]. cbn [lift bind].
    assert (Etotal : text_bytes (w_texts w) + Z.of_nat (String.length raw)
                     = text_bytes (w_texts (deliver raw w)))
      by (cbn [deliver w_texts]; rewrite text_bytes_app; cbn; lia).
    rewrite Etotal in *. eapply wp_mono; [|apply IH].
    + intros r w' Hr p Hp. specialize (Hr p Hp). rewrite length_app in Hr. cbn in Hr.
      by replace (length rows + 1 + room)%nat with (length rows + S room)%nat in Hr by lia.
    + apply Forall2_app; [done|]. by repeat constructor.
    + lia.
Qed.

(** The programs before the rows leave the world as it is. *)
Definition changes_nothing {A} (p : prog (eop R) A) : Prop :=
  forall w, wp p w (fun _ w' => w' = w).

Lemma nothing_bind {A B} (p : prog (eop R) A) (f : A -> prog (eop R) B) :
  changes_nothing p -> (forall a, changes_nothing (f a)) -> changes_nothing (bind p f).
Proof.
  intros Hp Hf w. apply wp_bind. eapply wp_mono; [|apply Hp]. intros [a|e] w' ->; [apply Hf|done].
Qed.

Lemma load_cached_view_changes_nothing s r : changes_nothing (_load_cached_view (R := R) s r).
Proof.
  apply nothing_bind; [by intros w x|]. intros before.
  apply nothing_bind; [intros w x; by apply wp_lift|]. intros [view []].
  - by intros w.
  - by intros w after.
Qed.

Lemma open_sources_change_nothing sources prepared :
  changes_nothing (open_sources (R := R) sources prepared).
Proof.
  induction sources as [|[name s] sources IH]; [by intros w|]. cbn [open_sources].
  apply nothing_bind; [|done].
  destruct (list_find (fun p => p.1 = name) (pq_sources prepared)) as [[i [n r]]|]; [|by intros w].
  unfold open_source. destruct (rs_cache_safe r).
  - apply nothing_bind; [apply load_cached_view_changes_nothing|]. intros v w x. by apply wp_lift.
  - intros w x. by apply wp_lift.
Qed.

Lemma frame_changes_nothing prepared : changes_nothing (_frame (R := R) prepared).
Proof. apply nothing_bind; [apply open_sources_change_nothing|]. intros _ w x. by apply wp_lift. Qed.

Definition good_inline max_inline_bytes (prepared : PreparedQuery) (context : ExecutionContext)
    (w : world) (v : InlineResult R) : Prop :=
  in_query_id v = Some (ec_query_id context) /\ in_cached v = false
  /\ first_rows max_inline_bytes (Z.to_nat (q_max_rows (pq_request prepared)))
       (in_rows v) (in_truncated v) w.

Lemma inline_within max_inline_bytes prepared context w :
  0 <= max_inline_bytes -> w_texts w = [] ->
  wp (_inline parse max_inline_bytes prepared context) w
    (fun r w' => forall v, r = Ok v -> good_inline max_inline_bytes prepared context w' v).
Proof.
  intros Hb Ht. unfold _inline. apply wp_bind. eapply wp_mono; [|apply frame_changes_nothing].
  intros [u|e] w' ->; [|by intros v]. apply wp_bind.
  change 0 with (text_bytes []). rewrite <- Ht.
  eapply wp_mono; [|apply (collect_rows _ _ _ []); rewrite Ht; [constructor|done]].
  intros [p|e] w' Hr; [|by intros v]. apply wp_bind. intros columns. apply wp_lift.
  destruct columns as [columns|e]; [|by intros v]. intros v [= <-]. cbn.
  split_and!; [done|done|]. by apply (Hr p).
Qed.

(** ** The scope of a query *)

(** What the scope makes of the body's outcome, [late] when the timer had fired. *)
Definition reported {A} (context : ExecutionContext) (late : bool) (r0 : result exn A)
  : result exn A :=
  match r0 with Ok a => Ok a | Err e => Err (scope_error context late e) end.

(** The world a scope leaves. *)
Definition ended (late : bool) (w : world) : world :=
  set_group None (set_timer false (set_late late w)).

(** Whatever the body does, the timer is stopped and the job group cleared. *)
Lemma wp_query_scope {A} context (body : prog (eop R) A) w (Q : result exn A -> world -> Prop) :
  wp body (set_timer true (set_group (Some (ec_query_id context)) w)) Q ->
  wp (_query_scope context body) w
    (fun r w' => exists r0 w1 late, Q r0 w1 /\ w' = ended late w1 /\ r = reported context late r0).
Proof.
  intros Hbody. unfold _query_scope, perform. apply wp_bind. cbn [wp effect spark_effects spark_effect].
  apply wp_bind. cbn [wp effect spark_effects spark_effect].
  apply wp_try_finally, wp_try_except. eapply wp_mono; [|exact Hbody].
  intros [a|e] w1 HQ.
  - exists (Ok a), w1, (w_late w1). by destruct w1.
  - intros late. by exists (Err e), w1, late.
Qed.

(** An execution is its body in the scope, the outcome tagged with its kind. *)
Lemma wp_executed {A} context (body : prog (eop R) A) (tag : A -> QueryResult R) e0 w
    (Q : result exn A -> world -> Prop) :
  wp body (set_timer true (set_group (Some (ec_query_id context)) w)) Q ->
  wp (bind (_query_scope context (bind body (fun a => Ret (Some (tag a)))))
        (fun res => match res with Some r => Ret r | None => Raise e0 end)) w
    (fun r w' => exists r0 w1 late, Q r0 w1 /\ w' = ended late w1
       /\ r = match r0 with
              | Ok a => Ok (tag a)
              | Err e => Err (scope_error context late e)
              end).
Proof.
  intros Hbody. apply wp_bind.
  eapply wp_mono; [|apply (wp_query_scope _ _ _
    (fun r w' => exists r0, Q r0 w' /\ r = match r0 with Ok a => Ok (Some (tag a)) | Err e => Err e end))].
  - intros r w' (r0 & w1 & late & (r1 & HQ & ->) & -> & ->). destruct r1 as [a|e]; cbn.
    + by exists (Ok a), w1, late.
    + by exists (Err e), w1, late.
  - apply wp_bind. eapply wp_mono; [|exact Hbody]. intros [a|e] w1 HQ; cbn [wp]; by eexists.
Qed.

(** ** Stored results *)

Context (storage : StorageRegistry).

(** Through the worker's callback, or by the registry under the query's id. *)
Definition publication_step (context : ExecutionContext) (key uri mode : string) (reply : Z) : step :=
  if ec_publishes context then Published key uri mode reply
  else PublishedSync key (ec_query_id context) (ec_attempt_id context) uri mode reply.

Definition steps_of prepared context logical payload reply : list step :=
  let output := q_output (pq_request prepared) in
  [WroteData (out_format output) (data_uri logical context); MayCommit;
   WroteManifest (manifest_uri logical context) payload;
   publication_step context (publication_key storage logical) (manifest_uri logical context)
     (write_mode_value (out_write_mode output)) reply].

Definition stored_as (prepared : PreparedQuery) (context : ExecutionContext)
    (logical : ResolvedDestination) (payload : string) (v : StoredResult) : Prop :=
  st_query_id v = ec_query_id context /\ st_data_uri v = data_uri logical context
  /\ st_manifest_uri v = manifest_uri logical context /\ st_path v = rd_path logical
  /\ st_location v = rd_location logical /\ st_source_versions v = source_versions prepared
  /\ st_format v = out_format (q_output (pq_request prepared))
  /\ exists now, payload = manifest context now v.

(** The steps are taken in order; the result is returned exactly when the last one succeeded. *)
Definition store_outcome prepared context logical (r : result exn StoredResult) (w : world) : Prop :=
  exists k payload reply,
    w_steps w = take k (steps_of prepared context logical payload reply)
    /\ match r with
       | Ok v => (4 <= k)%nat /\ 0 < reply /\ stored_as prepared context logical payload v
       | Err e => (k < 4)%nat \/ (reply < 0 /\ exn_cls e = CommitFenced)
                  \/ (reply = 0 /\ exn_cls e = PyFileExistsError)
       end.

Lemma no_steps prepared context logical e w :
  w_steps w = [] -> store_outcome prepared context logical (Err e) w.
Proof. intros Hw. exists 0%nat, "", 0. split; [done|]. left. lia. Qed.

(** The manifest is complete when the call returns; a failing one can leave any
    part of it. *)
Lemma wp_write_manifest uri payload overwrite w :
  wp (_write_manifest (R := R) uri payload overwrite) w
    (fun r w' => (w_steps w' = w_steps w /\ is_ok r = false)
       \/ exists bytes, w_steps w' = w_steps w ++ [WroteManifest uri bytes]
          /\ (is_ok r = true -> bytes = payload)).
Proof.
  unfold _write_manifest. apply wp_bind. intros [[]|e]; [|by left].
  apply wp_bind. intros parent. apply wp_lift. destruct parent as [parent|e]; [|by left].
  apply wp_bind. assert (Hmk : forall Q : result exn unit -> world -> Prop, (forall r, Q r w) ->
    wp (E := eop R) (match parent with Some p => invoke (Mkdirs p) | None => Ret tt end) w Q).
  { intros Q HQ. destruct parent; [intros r; by apply wp_lift|apply HQ]. }
  apply Hmk. intros [[]|e]; [|by left].
  apply wp_bind. intros created. apply wp_lift. destruct created as [[]|e]; [|by left].
  apply wp_try_finally. intros written bytes Hb. apply wp_lift. intros closed. apply wp_lift.
  destruct closed as [[]|e]; [|left; by destruct written].
  right. exists bytes. split; [by destruct written|]. destruct written; [by intros; apply Hb|done].
Qed.

Lemma store_outcomes prepared context logical location path w :
  out_location (q_output (pq_request prepared)) = Some location ->
  out_path (q_output (pq_request prepared)) = Some path ->
  resolve storage location path = Ok logical -> w_steps w = [] ->
  wp (_store (R := R) storage prepared context) w (store_outcome prepared context logical).
Proof.
  intros Hl Hp Hr Hw. unfold _store. rewrite Hl, Hp, Hr.
  case_bool_decide; [by apply no_steps|]. cbn [lift]. apply wp_bind. cbn [wp].
  apply wp_bind. eapply wp_mono; [|apply frame_changes_nothing].
  intros [u|e] w' ->; [|by apply no_steps].
  apply wp_bind. intros partitions. apply wp_lift. destruct partitions as [n|e]; [|by apply no_steps].
  apply wp_bind. intros written. apply wp_lift. destruct written as [[]|e]; [|by apply no_steps].
  cbn [is_ok finish_if]. apply wp_bind. intros go_on. apply wp_lift.
  destruct go_on as [[|]|e]; [|exists 1%nat, "", 0; cbn; rewrite Hw; split; [done|left; lia]..].
  cbn [negb]. apply wp_bind. intros now. cbn [wp].
  set (m := manifest context now _).
  apply wp_bind. eapply wp_mono; [|apply wp_write_manifest].
  intros saved w2 Hw2. cbn in Hw2. rewrite Hw in Hw2.
  destruct Hw2 as [[Hw2 Hs]|(bytes & Hw2 & Hb)].
  { destruct saved as [[]|e]; [done|]. exists 2%nat, "", 0. cbn. rewrite Hw2. split; [done|left; lia]. }
  destruct saved as [[]|e]; [|exists 3%nat, bytes, 0; cbn; rewrite Hw2; split; [done|left; lia]].
  specialize (Hb eq_refl) as ->.
  apply wp_bind. unfold publish. cbv zeta.
  match goal with |- wp ?p ?w0 ?Q =>
    cut (wp p w0 (fun reply w' =>
           w' = finish_reply (publication_step context (publication_key storage logical)
                  (manifest_uri logical context)
                  (write_mode_value (out_write_mode (q_output (pq_request prepared))))) reply w0)) end.
  { intros Hpub. eapply wp_mono; [|exact Hpub]. intros [reply|e] w' ->.
    - cbv beta iota. cbn [finish_reply].
      destruct (Z.ltb_spec reply 0); [|destruct (Z.eqb_spec reply 0)].
      + exists 4%nat, m, reply. cbn. rewrite Hw2. split; [done|]. right. left. done.
      + exists 4%nat, m, reply. cbn. rewrite Hw2. split; [done|]. right. right. done.
      + exists 4%nat, m, reply. cbn. rewrite Hw2. split; [done|]. split; [lia|]. split; [lia|].
        repeat split. by exists now.
    - exists 3%nat, m, 0. cbn. rewrite Hw2. split; [done|]. left. lia. }
  unfold publication_step. destruct (ec_publishes context).
  - intros reply. by apply wp_lift.
  - apply wp_bind. intros reply. apply wp_lift. by destruct reply as [[|]|e].
Qed.

Lemma store_steps prepared context w :
  w_steps w = [] ->
  wp (_store (R := R) storage prepared context) w
    (fun r w' => forall v, r = Ok v ->
       exists logical payload reply,
         w_steps w' = steps_of prepared context logical payload reply
         /\ 0 < reply /\ stored_as prepared context logical payload v).
Proof.
  intros Hw. unfold _store.
  destruct (out_location _) as [location|] eqn:El; [|by intros v].
  destruct (out_path _) as [path|] eqn:Ep; [|by intros v].
  destruct (resolve storage location path) as [logical|e] eqn:Er.
  2: { case_bool_decide; by intros v. }
  pose proof (store_outcomes prepared context logical location path w El Ep Er Hw) as Hs.
  unfold _store in Hs. rewrite El, Ep, Er in Hs. eapply wp_mono; [|exact Hs].
  intros r w' (k & payload & reply & Hk & Hr) v ->. destruct Hr as (Hk4 & Hrep & Hst).
  exists logical, payload, reply. split; [|done]. rewrite Hk. apply take_ge. cbn. lia.
Qed.

(** Whatever was asked for, a stored result has all its steps behind it. *)
Lemma execute_stores max_inline_bytes prepared context w :
  w_steps w = [] ->
  wp (execute parse storage max_inline_bytes prepared context) w
    (fun r w' => forall v, r = Ok (RStored v) ->
       exists logical payload reply,
         w_steps w' = steps_of prepared context logical payload reply
         /\ 0 < reply /\ stored_as prepared context logical payload v).
Proof.
  intros Hw. unfold execute. destruct (out_mode (q_output (pq_request prepared))).
  - eapply wp_mono; [|apply (wp_executed _ _ _ _ _ (fun _ _ => True)), any_outcome].
    intros r w' (r0 & w1 & late & _ & _ & Hr) v ->. by destruct r0.
  - apply wp_bind. eapply wp_mono; [|by apply (wp_query_scope _ _ _ (fun r _ => r = Ok None))].
    intros r w' (r0 & w1 & late & -> & _ & ->). by intros v.
  - eapply wp_mono; [|apply wp_executed, store_steps; exact Hw].
    intros r w' (r0 & w1 & late & Hs & -> & Hr) v ->. destruct r0 as [v0|e]; [|done].
    injection Hr as <-. by apply Hs.
Qed.

(** A stored result carries the id of the context it was executed in. *)
Lemma stored_results_keep_the_id max_inline_bytes prepared context w :
  w_steps w = [] ->
  wp (execute parse storage max_inline_bytes prepared context) w
    (fun r w' => forall v, r = Ok (RStored v) -> st_query_id v = ec_query_id context).
Proof.
  intros Hw. eapply wp_mono; [|by apply execute_stores]. intros r w' Hr v Hv.
  destruct (Hr v Hv) as (logical & payload & reply & _ & _ & Hst). by apply Hst.
Qed.

(** C29: Inline results stay within their limits.  Whatever Spark, the sources and
    the clock do, an inline execution that returns a result returns the rows of the
    first row texts Spark delivered, in order, at most [max_rows] of them, whose
    texts together are within the byte limit; it says truncated exactly when one
    more row was delivered; it is not marked as cached and it carries the query's
    id.  Returned or not, the timer is stopped and the job group cleared. *)
Theorem inline_results_stay_within_their_limits max_inline_bytes prepared context w :
  0 <= max_inline_bytes -> w_texts w = [] ->
  out_mode (q_output (pq_request prepared)) = INLINE ->
  wp (execute parse storage max_inline_bytes prepared context) w
    (fun r w' => w_timer w' = false /\ w_group w' = None
       /\ forall v, r = Ok v ->
            exists i, v = RInline i /\ good_inline max_inline_bytes prepared context w' i).
Proof.
  intros Hb Ht Hm. unfold execute. rewrite Hm.
  eapply wp_mono; [|eapply wp_executed, inline_within; [exact Hb|exact Ht]].
  intros r w' (r0 & w1 & late & HQ & -> & Hr). split_and!; [done..|]. intros v ->.
  destruct r0 as [i|e]; [|done]. simplify_eq.
  exists i. split; [done|]. by apply HQ.
Qed.

(** C28: A stored result is returned exactly when it was published, and publication
    is the last step.  Whatever Spark, the sources and the registry answer, the
    steps of a store execution are an initial segment of: the data is written
    below the attempt's own directory, the caller may still commit, the manifest is
    written, the manifest is published under the destination's key.  A result is
    returned exactly when all four were taken and the publication was accepted, and
    the published manifest is the manifest of that very result.  A refused
    publication ends in the fencing error or in "already exists", as the query's
    scope reports it ([scope_error]): as QueryTimeout when the timer had fired
    ([w_late]), else as QueryCancelled when its text mentions "cancel", as that of
    an output that exists already below such a path does, else as it is.  The timer
    is stopped and the job group cleared. *)
Theorem stored_results_are_published_last max_inline_bytes prepared context location path logical w :
  out_mode (q_output (pq_request prepared)) = STORE ->
  out_location (q_output (pq_request prepared)) = Some location ->
  out_path (q_output (pq_request prepared)) = Some path ->
  resolve storage location path = Ok logical -> w_steps w = [] ->
  wp (execute parse storage max_inline_bytes prepared context) w
    (fun r w' => w_timer w' = false /\ w_group w' = None
       /\ exists r0, store_outcome prepared context logical r0 w'
            /\ r = match r0 with
                   | Ok v => Ok (RStored v)
                   | Err e => Err (scope_error context (w_late w') e)
                   end).
Proof.
  intros Hm Hl Hp Hr Hw. unfold execute. rewrite Hm.
  eapply wp_mono; [|eapply wp_executed, store_outcomes; [exact Hl|exact Hp|exact Hr|exact Hw]].
  intros r w' (r0 & w1 & late & HQ & -> & ->). split_and!; [done..|]. by exists r0.
Qed.
End engine.

(** ** Streams *)

Section streams.
Context {R : Type} `{Files} `{Sha256} (csv_line : list string -> string).

#[local] Existing Instance spark_effects.

Lemma jsonl_rows_sent demand w :
  w_chunks w = map (fun t => t +:+ newline) (w_texts w) ->
  wp (jsonl_rows (R := R) demand) w
    (fun _ w' => w_chunks w' = map (fun t => t +:+ newline) (w_texts w')
       /\ (length (w_chunks w') <= length (w_chunks w) + S demand)%nat).
Proof.
  revert w. induction demand as [|demand IH]; intros w Hw; cbn [jsonl_rows];
    apply wp_bind; intros row; apply wp_lift; destruct row as [[text|]|e];
    try (split; [exact Hw|lia]); cbn [bind perform wp effect spark_effects spark_effect].
  - split; [cbn; by rewrite map_app, Hw|]. cbn. rewrite length_app. cbn. lia.
  - eapply wp_mono; [|apply IH; cbn; by rewrite map_app, Hw].
    intros _ w' [Hc Hl]. split; [done|]. cbn in Hl. rewrite length_app in Hl. cbn in Hl. lia.
Qed.

Lemma cell_rows_sent demand w :
  w_chunks w = map csv_line (w_lines w) ->
  wp (cell_rows (R := R) csv_line demand) w
    (fun _ w' => w_chunks w' = map csv_line (w_lines w')
       /\ (length (w_chunks w') <= length (w_chunks w) + demand)%nat).
Proof.
  revert w. induction demand as [|demand IH]; intros w Hw; cbn [cell_rows]; [split; [done|lia]|].
  apply wp_bind; intros row; apply wp_lift; destruct row as [[cells|]|e];
    try (split; [exact Hw|lia]); cbn [bind perform wp effect spark_effects spark_effect].
  eapply wp_mono; [|apply IH; cbn; by rewrite map_app, Hw].
  intros _ w' [Hc Hl]. split; [done|]. cbn in Hl. rewrite length_app in Hl. cbn in Hl. lia.
Qed.

Lemma csv_rows_sent demand w :
  w_chunks w = map csv_line (w_lines w) ->
  wp (_csv_rows (R := R) csv_line demand) w
    (fun _ w' => w_chunks w' = map csv_line (w_lines w')
       /\ (length (w_chunks w') <= length (w_chunks w) + S demand)%nat).
Proof.
  intros Hw. unfold _csv_rows. apply wp_bind. intros names. apply wp_lift.
  destruct names as [names|e]; [|split; [exact Hw|lia]].
  cbn [bind perform wp effect spark_effects spark_effect].
  eapply wp_mono; [|apply cell_rows_sent; cbn; by rewrite map_app, Hw].
  intros _ w' [Hc Hl]. split; [done|]. cbn in Hl. rewrite length_app in Hl. cbn in Hl. lia.
Qed.

(** A generator that keeps a fact about texts, lines and chunks, in its scope. *)
Lemma stream_body_sent prepared context (rows : nat -> prog (eop R) unit) (G : world -> Prop) demand w :
  (forall n w0, w_chunks w0 = [] -> w_texts w0 = [] -> w_lines w0 = [] ->
     wp (rows n) w0 (fun _ w' => G w' /\ (length (w_chunks w') <= S n)%nat)) ->
  (forall w0 w1, w_chunks w0 = w_chunks w1 -> w_texts w0 = w_texts w1 -> w_lines w0 = w_lines w1 ->
     G w0 -> G w1) ->
  w_chunks w = [] -> w_texts w = [] -> w_lines w = [] -> G w ->
  wp (stream_body prepared context rows demand) w
    (fun _ w' => match demand with O => w' = w | S _ => w_timer w' = false /\ w_group w' = None end
       /\ (length (w_chunks w') <= demand)%nat /\ G w').
Proof.
  intros Hr HG Hc Ht Hl Hw. destruct demand as [|n]; [cbn; rewrite Hc; split_and!; done|].
  cbn [stream_body]. eapply wp_mono; [|apply (wp_query_scope _ _ _
    (fun _ w' => G w' /\ (length (w_chunks w') <= S n)%nat))].
  - intros r w' (r0 & w1 & late & [Hg Hn] & -> & _). split_and!; [done..|]. by apply (HG w1).
  - apply wp_bind. eapply wp_mono; [|apply frame_changes_nothing]. intros [u|e] w' ->.
    + by apply Hr.
    + cbn. rewrite Hc. split; [|cbn; lia]. by apply (HG w).
Qed.

End streams.

(** ** Errors that mention "cancel" *)

#[local] Existing Instance spark_effects.

Lemma lower_app s t : lower (s +:+ t) = lower s +:+ lower t.
Proof. induction s as [|a s IH]; [done|]. rewrite string_app_cons. cbn [lower]. by rewrite IH. Qed.

Lemma contains_in needle before after : contains needle (before +:+ needle +:+ after) = true.
Proof.
  apply contains_app. destruct needle as [|a needle]; [by destruct after|].
  rewrite string_app_cons. cbn [contains]. rewrite <- (string_app_cons a needle after).
  by rewrite starts_with_app.
Qed.

(** An error whose text mentions "cancel", in any letter case, is reported as a
    cancellation, or as a timeout when the timer fired: a rejected query over a
    column named cancelled_at ends as if a user had cancelled it, and an output
    that exists already below a path with "cancel" in it does not say so. *)
Theorem errors_mentioning_cancel_are_reported_as_cancellations {R A} context cls before cancel after w :
  lower cancel = "cancel" ->
  wp (_query_scope (R := R) context (Raise (Exn cls (before +:+ cancel +:+ after)) : prog (eop R) A)) w
    (fun r w' => w_timer w' = false /\ w_group w' = None
       /\ exists e, r = Err e /\ exn_cls e ∈ [QueryCancelled; QueryTimeout]).
Proof.
  intros Hc. eapply wp_mono; [|by apply (wp_query_scope _ _ _
    (fun r _ => r = Err (Exn cls (before +:+ cancel +:+ after))))].
  intros r w' (r0 & w1 & t & -> & -> & ->). split_and!; [done..|]. eexists. split; [done|].
  unfold scope_error. cbn [exn_text]. rewrite !lower_app, Hc, contains_in.
  destruct t; cbn; set_solver.
Qed.

(** ** The theorems at work *)

Module SparkDemo.
#[local] Instance files : Files := {|
  path_str p := p; path_resolve p := p; path_join root p := root +:+ "/" +:+ p;
  path_exists _ := true; path_is_file _ := true; glob_paths _ := []; files_below _ := [];
  file_stat _ := (1, 1); as_uri p := "file://" +:+ p; unquote p := p; sort_paths l := l |}.
#[local] Instance sha : Sha256 := {| sha256_hex s := s; sha256_head _ := 0 |}.

Definition registry : StorageRegistry := Registry {["out" := "s3a://bucket/out"]} ∅ None "pub".

Definition request (output : OutputSpec) : QueryRequest :=
  MkRequest "select 1" [] output (Some 2) None None.

Definition prepared (output : OutputSpec) : PreparedQuery := Prepared (request output) [] "SELECT 1".

Definition stored : OutputSpec := MkOutput STORE O_PARQUET (Some "out") (Some "a") W_ERROR [].

Definition context : ExecutionContext := Context "q" "w" 1 60 true "job".

Definition start : world := World [] [] None false [] [] "" false.
End SparkDemo.

Lemma inline_results_stay_within_their_limits_witness (F := SparkDemo.files) (S := SparkDemo.sha) :
  wp (execute (fun raw => Ok raw) SparkDemo.registry 100 (SparkDemo.prepared default_output)
        SparkDemo.context) SparkDemo.start
    (fun r w' => w_timer w' = false /\ w_group w' = None
       /\ forall v, r = Ok v -> exists i, v = RInline i
            /\ good_inline (fun raw => Ok raw) 100 (SparkDemo.prepared default_output)
                 SparkDemo.context w' i).
Proof. apply inline_results_stay_within_their_limits; [lia|done|done]. Defined.

Lemma stored_results_are_published_last_witness (F := SparkDemo.files) (S := SparkDemo.sha)
    (logical := Destination "out" "a" "s3a://bucket/out/a") :
  wp (execute (fun raw : string => Ok raw) SparkDemo.registry 100
        (SparkDemo.prepared SparkDemo.stored) SparkDemo.context) SparkDemo.start
    (fun r w' => w_timer w' = false /\ w_group w' = None
       /\ exists r0, store_outcome SparkDemo.registry (SparkDemo.prepared SparkDemo.stored)
                       SparkDemo.context logical r0 w'
            /\ r = match r0 with
                   | Ok v => Ok (RStored v)
                   | Err e => Err (scope_error SparkDemo.context (w_late w') e)
                   end).
Proof. by apply (stored_results_are_published_last _ _ _ _ _ "out" "a"). Defined.

Lemma errors_mentioning_cancel_are_reported_as_cancellations_witness :
  wp (_query_scope (R := string) SparkDemo.context
        (Raise (Exn AnalysisException ("column " +:+ "CANCEL" +:+ "LED_AT cannot be resolved"))
         : prog (eop string) unit)) SparkDemo.start
    (fun r w' => w_timer w' = false /\ w_group w' = None
       /\ exists e, r = Err e /\ exn_cls e ∈ [QueryCancelled; QueryTimeout]).
Proof. by apply errors_mentioning_cancel_are_reported_as_cancellations. Defined.

