(* ===== verification/ViewTheorems.v ===== *)
(** * The cached views of the shared session

    The dataset cache with the engine's loader and release: a dataset is a global
    temporary view, created by [load_view] and dropped by [_release_cached_view].
    Until the cache is closed, every resident dataset's view exists, however the
    queries' threads interleave; when two caches share one session, as two engines
    in one process do, one of them drops the other's views. *)

From Stdlib Require Import QArith.
From S2P Require Import Prelude Models Fingerprint Storage Prog Datasets DatasetTheorems Service Spark.

#[local] Open Scope Z_scope.

(** ** What the loader and the release do to the catalog *)

Section catalog.
Context {R : Type}.

Abbreviation catalog := (gset string).

(** A creation adds the view; a drop removes it, or leaves it when it fails. *)
Definition catalog_effect {X} (o : eop R X) (c : catalog) : (X -> catalog -> Prop) -> Prop :=
  match o in eop _ Y return (Y -> catalog -> Prop) -> Prop with
  | CreateGlobalView view => fun Q => forall r, Q r (if is_ok r then {[view]} ∪ c else c)
  | DropGlobalView view => fun Q => forall r, Q r (if is_ok r then c ∖ {[view]} else c)
  | _ => fun Q => forall r, Q r c
  end.

Lemma catalog_effect_mono X (o : eop R X) c (Q1 Q2 : X -> catalog -> Prop) :
  (forall x c', Q1 x c' -> Q2 x c') -> catalog_effect o c Q1 -> catalog_effect o c Q2.
Proof. intros HQ. destruct o; cbn; auto. Qed.

#[local] Instance catalog_effects : Effects (eop R) catalog :=
  {| effect := @catalog_effect; effect_mono := catalog_effect_mono |}.

Definition catalog_step X (o : eop R X) (c : catalog) (x : X) (c' : catalog) : Prop :=
  match o in eop _ Y return Y -> Prop with
  | CreateGlobalView view => fun r => c' = if is_ok r then {[view]} ∪ c else c
  | DropGlobalView view => fun r => c' = if is_ok r then c ∖ {[view]} else c
  | _ => fun _ => c' = c
  end x.

(** A run of one of the engine's programs on the catalog. *)
Definition on_catalog {A} : prog (eop R) A -> catalog -> result exn A -> catalog -> Prop :=
  execution catalog_step.

Lemma catalog_effect_step X (o : eop R X) c (Q : X -> catalog -> Prop) x c1 :
  True -> catalog_effect o c Q -> catalog_step X o c x c1 -> Q x c1 /\ True /\ True.
Proof. intros _. destruct o; cbn; intros HQ ->; auto. Qed.

Lemma wp_on_catalog {A} (p : prog (eop R) A) c r c' Q : wp p c Q -> on_catalog p c r c' -> Q r c'.
Proof.
  assert (Hpre : PreOrder (fun _ _ : catalog => True)) by done.
  intros Hw He. by destruct (wp_execution (H := catalog_effects) catalog_step (fun _ => True)
    (fun _ _ => True) catalog_effect_step p c r c' Q I Hw He).
Qed.

(** The engine drops the views the cache has let go, one after the other. *)
Definition release_all (released : list string) : prog (eop R) unit :=
  for_each released tt (fun _ view => _release_cached_view view).

Lemma load_view_creates fingerprint plan c :
  wp (load_view (R := R) fingerprint plan) c
    (fun r c' => match r with
                 | Ok v => v = view_name fingerprint /\ c' = {[v]} ∪ c
                 | Err _ => c' = c
                 end).
Proof.
  apply wp_bind, wp_invoke. intros [[]|e]; [|done].
  apply wp_bind, wp_invoke. by intros [[]|e].
Qed.

Lemma release_drops view c :
  wp (_release_cached_view (R := R) view) c
    (fun r c' => r = Ok tt /\ c ∖ {[view]} ⊆ c' /\ c' ⊆ c).
Proof.
  apply wp_bind. intros r1 r2. split; [done|]. destruct r2; cbn; set_solver.
Qed.

Lemma release_all_drops released c :
  wp (release_all released) c
    (fun r c' => r = Ok tt /\ c ∖ list_to_set released ⊆ c' /\ c' ⊆ c).
Proof.
  unfold release_all. revert c. induction released as [|view l IH]; intros c.
  - split; [done|]. split; set_solver.
  - apply wp_bind. eapply wp_mono; [|apply release_drops]. intros r c1 (-> & H1 & H2).
    eapply wp_mono; [|apply IH]. intros r c2 (-> & H3 & H4). split; [done|].
    split; [|set_solver]. intros x Hx. apply H3. set_solver.
Qed.
End catalog.

(** ** Threads and the catalog *)

Section views.
Context (cfg : dataset_cfg) (Hmax : (1 <= max_entries cfg)%nat).
(** The fingerprints in use; 24 hexadecimal digits tell them apart. *)
Context (K : string -> Prop).
Hypothesis names_differ : forall k1 k2, K k1 -> K k2 -> view_name k1 = view_name k2 -> k1 = k2.

Record views := Views { v_system : system string; v_catalog : gset string }.

(** The values a step released. *)
Definition newly_released (s s' : system string) : list string :=
  take (length (dc_released (sy_cache s')) - length (dc_released (sy_cache s)))
    (dc_released (sy_cache s')).

(** What a move runs on the catalog before the cache is changed: the loader
    [load_view], to the end the move says it came to.  Any other move runs
    nothing. *)
Definition loading {R} (i : nat) (m : move string) (s : system string) (c c1 : gset string)
    : Prop :=
  match sy_threads s !! i, m with
  | Some (Loading key), Loads x =>
      exists plan, on_catalog (R := R) (load_view key plan) c (Ok x) c1
  | Some (Loading key), LoadFails e =>
      exists plan, on_catalog (R := R) (load_view key plan) c (Err e) c1
  | _, _ => c1 = c
  end.

(** A move of a thread, with what it does to the catalog: what the loader does, and
    then a release of each dataset the cache lets go.  Only one operation of the
    loader, and one of a release, touches the catalog, so a move stands for all
    orders in which the threads' operations can fall. *)
Inductive view_step (R : Type) (v : views) : views -> Prop :=
| view_moves i m s' c1 c' :
    advance cfg i m (v_system v) = Some s' ->
    (forall key, m = Call key -> K key) ->
    m <> Shut ->
    loading (R := R) i m (v_system v) (v_catalog v) c1 ->
    on_catalog (R := R) (release_all (reverse (newly_released (v_system v) s'))) c1 (Ok tt) c' ->
    view_step R v (Views s' c').

(** The key a thread works on. *)
Definition key_of (p : pc string) : option string :=
  match p with
  | Started k | Wanting k | Holding k | Loading k | Loaded k _ => Some k
  | _ => None
  end.

Record views_inv (v : views) : Prop := {
  vi_system : system_inv cfg (v_system v);
  vi_keys i p k : sy_threads (v_system v) !! i = Some p -> key_of p = Some k -> K k;
  vi_entries k e : (k, e) ∈ dc_entries (sy_cache (v_system v)) ->
    K k /\ e_value e = view_name k /\ e_value e ∈ v_catalog v;
  vi_loaded i k x : sy_threads (v_system v) !! i = Some (Loaded k x) ->
    x = view_name k /\ x ∈ v_catalog v;
  vi_open i vs : sy_threads (v_system v) !! i <> Some (Closing vs);
}.

(** What a step of thread [i] has to do for the views to stay: entries come from
    entries or from what the thread loaded, and a released view is one of an entry
    that is gone. *)
Lemma views_kept v s' c' i p p' new (added : string -> Prop) :
  views_inv v -> system_inv cfg s' ->
  sy_threads (v_system v) !! i = Some p -> sy_threads s' = <[i := p']> (sy_threads (v_system v)) ->
  (forall k e, (k, e) ∈ dc_entries (sy_cache s') ->
     (k, e) ∈ dc_entries (sy_cache (v_system v)) \/ p = Loaded k (e_value e)) ->
  (forall x, x ∈ new -> exists k e, (k, e) ∈ dc_entries (sy_cache (v_system v)) /\ x = e_value e
     /\ k ∉ map fst (dc_entries (sy_cache s'))) ->
  (forall x, x ∈ v_catalog v \/ added x -> x ∉ new -> x ∈ c') ->
  (forall k, key_of p' = Some k -> K k) ->
  (forall k x, p' = Loaded k x -> x = view_name k /\ added x /\ new = []) ->
  (forall vs, p' <> Closing vs) ->
  views_inv (Views s' c').
Proof using names_differ.
  intros [S Ks E L O] S' Hi Hth Hent Hnew Hcat HK HL HO.
  assert (Hkeep : forall k x, K k -> x = view_name k -> x ∈ v_catalog v ->
    (forall e, (k, e) ∈ dc_entries (sy_cache (v_system v)) -> k ∈ map fst (dc_entries (sy_cache s'))) ->
    x ∈ c').
  { intros k x Hk -> Hx Hin. apply Hcat; [by left|]. intros (k2 & e2 & He2 & Ev & Hgone)%Hnew.
    destruct (E k2 e2 He2) as (HK2 & Ev2 & _).
    assert (k = k2) as -> by (apply names_differ; [done..|congruence]). by apply Hgone, Hin with e2. }
  split; cbn; rewrite ?Hth.
  - exact S'.
  - intros j q k [(<- & <- & _)|(Hij & Hj)]%list_lookup_insert_Some Hq; [by apply HK|by eapply Ks].
  - intros k e He. assert (Hin : k ∈ map fst (dc_entries (sy_cache s')))
      by (apply list_elem_of_fmap; by exists (k, e)).
    destruct (Hent k e He) as [He'| ->].
    + destruct (E k e He') as (HKk & Ev & Hx). split_and!; [done..|]. by apply (Hkeep k).
    + destruct (L i k _ Hi) as [Ev Hx]. split_and!; [by eapply Ks|done|]. apply (Hkeep k); [by eapply Ks|done..].
  - intros j k x [(<- & Hp & _)|(Hij & Hj)]%list_lookup_insert_Some.
    + destruct (HL k x Hp) as (Ev & Ha & Hn). split; [done|]. apply Hcat; [by right|].
      rewrite Hn. apply not_elem_of_nil.
    + destruct (L j k x Hj) as [Ev Hx]. split; [done|]. apply (Hkeep k); [by eapply Ks|done..|].
      intros e He. exfalso. pose proof (si_absent _ _ S j _ k Hj eq_refl) as Ha.
      apply find_entry_in in Ha. apply Ha, list_elem_of_fmap. by exists (k, e).
  - intros j vs [(<- & Hp & _)|(Hij & Hj)]%list_lookup_insert_Some; [by eapply HO|by eapply O].
Qed.
(** A step that leaves the dictionary alone and releases nothing. *)
Lemma same_released (s s' : system string) :
  dc_released (sy_cache s') = dc_released (sy_cache s) -> newly_released s s' = [].
Proof. unfold newly_released. intros ->. by rewrite Nat.sub_diag. Qed.

Lemma newly_app (s s' : system string) new :
  dc_released (sy_cache s') = new ++ dc_released (sy_cache s) -> newly_released s s' = new.
Proof.
  unfold newly_released. intros ->. rewrite length_app, Nat.add_sub. apply take_app_length.
Qed.

(** What [_get] takes out is the key's own entry. *)
Lemma get_entries key now (c : dataset_cache string) r c' :
  NoDup (map fst (dc_entries c)) -> _get key now c = (r, c') ->
  (forall k e, (k, e) ∈ dc_entries c' -> (k, e) ∈ dc_entries c)
  /\ exists new, dc_released c' = new ++ dc_released c
     /\ forall x, x ∈ new -> exists e, (key, e) ∈ dc_entries c /\ x = e_value e
          /\ key ∉ map fst (dc_entries c').
Proof.
  intros Hnd. unfold _get. destruct (find_entry key (dc_entries c)) as [e|] eqn:Ef.
  2: { intros [= <- <-]. split; [done|]. exists []. split; [done|]. by intros x ?%not_elem_of_nil. }
  assert (Hin : (key, e) ∈ dc_entries c).
  { revert Ef. generalize (dc_entries c) as l. induction l as [|[k' e'] l IH]; cbn; [done|].
    case_decide; [intros [= ->]; subst; by left|]. intros ?. right. auto. }
  assert (Hdrop : forall k x, (k, x) ∈ drop_entry key (dc_entries c) -> (k, x) ∈ dc_entries c).
  { intros k x. generalize (dc_entries c) as l. induction l as [|[k' e'] l IH]; cbn; [done|].
    case_decide; [by right|]. rewrite !elem_of_cons. naive_solver. }
  destruct (Qle_bool _ _); intros [= <- <-]; cbn.
  - split; [exact Hdrop|]. exists [e_value e]. split; [done|]. intros x ->%list_elem_of_singleton.
    exists e. split_and!; [done..|]. by apply drop_entry_nodup.
  - split; [|exists []; split; [done|by intros x ?%not_elem_of_nil]].
    intros k x [Hk|Hk]%elem_of_app; [by apply Hdrop|].
    apply list_elem_of_singleton in Hk. by simplify_eq.
Qed.

(** What [_put] takes out are the oldest entries. *)
Lemma put_entries key x now (c : dataset_cache string) :
  NoDup (map fst (dc_entries c)) -> find_entry key (dc_entries c) = None ->
  let c' := _put cfg key x now c in
  (forall k e, (k, e) ∈ dc_entries c' -> (k, e) ∈ dc_entries c \/ k = key /\ e_value e = x)
  /\ exists new, dc_released c' = new ++ dc_released c
     /\ forall y, y ∈ new -> exists k e, (k, e) ∈ dc_entries c /\ y = e_value e
          /\ k ∉ map fst (dc_entries c').
Proof using Hmax names_differ.
  intros Hnd Hf. unfold _put. rewrite Hf, drop_entry_absent, evict_spec by done. cbn.
  set (l := dc_entries c ++ _). set (n := (length l - max_entries cfg)%nat).
  assert (Hkeys : NoDup (map fst l)).
  { unfold l. rewrite map_app. apply NoDup_app. split_and!; [done| |apply NoDup_singleton].
    intros k Hk ->%list_elem_of_singleton. by apply find_entry_in in Hf. }
  assert (Hn : (n <= length (dc_entries c))%nat) by (unfold n, l; rewrite length_app; cbn; lia).
  split.
  - intros k e He. assert (Hl : (k, e) ∈ l) by (rewrite <- (take_drop n l); set_solver).
    apply elem_of_app in Hl as [?|Hl]; [by left|]. right.
    apply list_elem_of_singleton in Hl. by simplify_eq.
  - eexists. split; [reflexivity|]. intros y Hy. rewrite elem_of_reverse in Hy.
    unfold values in Hy. apply list_elem_of_fmap in Hy as ([k e] & -> & He). exists k, e.
    assert (Etake : take n l = take n (dc_entries c)) by (unfold l; by rewrite take_app_le).
    split_and!; [|done|].
    + rewrite Etake in He. rewrite <- (take_drop n (dc_entries c)). set_solver.
    + intros Hin. rewrite <- (take_drop n l), map_app in Hkeys.
      apply NoDup_app in Hkeys as (_ & Hdis & _). apply (Hdis k); [|done].
      apply list_elem_of_fmap. by exists (k, e).
Qed.
(** What the programs leave of the catalog. *)
Lemma loading_creates {R} i m s c c1 :
  loading (R := R) i m s c c1 ->
  (forall x, x ∈ c -> x ∈ c1)
  /\ forall key x, sy_threads s !! i = Some (Loading key) -> m = Loads x ->
       x = view_name key /\ x ∈ c1.
Proof.
  unfold loading. intros Hl. destruct (sy_threads s !! i) as [[| | | |k| | | |]|] eqn:Hi;
    try (subst c1; split; [done|by intros]).
  destruct m as [k'| |t|x|e]; try (subst c1; split; [done|by intros]).
  - destruct Hl as [plan Hl]. apply (wp_on_catalog _ _ _ _ _ (load_view_creates k plan c)) in Hl.
    destruct Hl as [-> ->]. split; [set_solver|]. intros key y [= <-] [= <-]. set_solver.
  - destruct Hl as [plan Hl]. apply (wp_on_catalog _ _ _ _ _ (load_view_creates k plan c)) in Hl.
    cbn in Hl. subst c1. split; [done|by intros].
Qed.

Lemma released_gone {R} released c c' :
  on_catalog (R := R) (release_all (reverse released)) c (Ok tt) c' ->
  forall x, x ∈ c -> x ∉ released -> x ∈ c'.
Proof.
  intros Hr x Hx Hn. apply (wp_on_catalog _ _ _ _ _ (release_all_drops (reverse released) c)) in Hr.
  destruct Hr as (_ & Hsub & _). apply Hsub. apply elem_of_difference. split; [done|].
  by rewrite elem_of_list_to_set, elem_of_reverse.
Qed.

Lemma view_step_keeps R v v' : views_inv v -> view_step R v v' -> views_inv v'.
Proof using Hmax names_differ.
  intros Hv Hs. destruct Hs as [i m s' c1 c' Ha HK Hshut Hl Hrel].
  destruct (loading_creates i m _ _ _ Hl) as [Hkeep1 Hmade].
  assert (Hload : forall key x, sy_threads (v_system v) !! i = Some (Loading key) ->
    m = Loads x -> x = view_name key) by (intros key x Hi Em; by apply (Hmade key x Hi)).
  assert (Hadd : forall x, x ∈ v_catalog v \/ m = Loads x ->
    x ∉ newly_released (v_system v) s' -> x ∈ c').
  { intros x Hx. apply (released_gone _ _ _ Hrel). destruct Hx as [Hx|Em]; [by apply Hkeep1|].
    subst m. unfold advance in Ha.
    destruct (sy_threads (v_system v) !! i) as [[| | | |k| | | |vs]|] eqn:Hi; try done.
    - by apply (Hmade k x).
    - by destruct vs. }
  clear Hl Hrel Hmade Hkeep1.
  pose proof (advance_keeps cfg i m _ _ Hmax (vi_system v Hv) Ha) as S'.
  pose proof (si_cache _ _ (vi_system v Hv)) as [_ Hnd].
  assert (Hnone : forall p p', sy_threads (v_system v) !! i = Some p ->
    sy_threads s' = <[i := p']> (sy_threads (v_system v)) ->
    sy_cache s' = sy_cache (v_system v) ->
    (forall k, key_of p' = Some k -> K k) ->
    (forall k x, p' = Loaded k x -> x = view_name k /\ m = Loads x) ->
    (forall vs, p' <> Closing vs) -> views_inv (Views s' c')).
  { intros p p' Hi Hth Ec Hk Hl Ho.
    apply (views_kept v s' c' i p p' [] (fun x => m = Loads x)); try done.
    - rewrite Ec. by left.
    - by intros x ?%not_elem_of_nil.
    - intros x Hx _. apply Hadd; [done|]. rewrite same_released by (by rewrite Ec).
      apply not_elem_of_nil.
    - intros k x E. by destruct (Hl k x E). }
  assert (Hget : forall p p' key now r c held loaded, sy_threads (v_system v) !! i = Some p ->
    key_of p = Some key -> _get key now (sy_cache (v_system v)) = (r, c) ->
    s' = System c held (<[i := p']> (sy_threads (v_system v))) loaded ->
    (key_of p' = Some key \/ key_of p' = None) -> (forall k x, p' <> Loaded k x) ->
    (forall vs, p' <> Closing vs) -> views_inv (Views s' c')).
  { intros p p' key now r c held loaded Hi Hp Eg -> Hk Hl Ho.
    destruct (get_entries key now _ r c Hnd Eg) as (Hent & new & Enew & Hnew).
    apply (views_kept v _ c' i p p' new (fun x => m = Loads x)); try done.
    - intros k e He. left. by apply Hent.
    - intros x Hx. destruct (Hnew x Hx) as (e & He & -> & Hgone). by exists key, e.
    - intros x Hx Hn. apply Hadd; [done|]. by rewrite (newly_app _ _ new).
    - intros k Ek. destruct Hk as [Hk|Hk]; rewrite Hk in Ek; [|done].
      injection Ek as <-. by eapply (vi_keys v Hv).
    - intros k x E. by destruct (Hl k x). }
  unfold advance in Ha. destruct (sy_threads (v_system v) !! i) as [p|] eqn:Hi; [|done].
  pose proof (fun k => vi_keys v Hv i p k Hi) as Hkey.
  assert (Hcall : forall key, m = Call key -> s' = set_thread i (Started key) (v_system v) ->
                  views_inv (Views s' c')).
  { intros key Em Es. apply (Hnone p (Started key)); subst s'; try done. intros k [= <-]. by apply HK. }
  destruct p as [|key|key|key|key|key x|x hit|e|vs], m as [key'| |now|x'|e'];
    try done; try (exfalso; by apply (vi_open v Hv i vs)); try (injection Ha as <-; by eapply Hcall).
  - destruct (_get key now _) as [r c] eqn:Eg. injection Ha as <-.
    eapply (Hget (Started key)); try done; destruct r; cbn; auto.
  - case_decide; [done|]. injection Ha as <-. by apply (Hnone (Wanting key) (Holding key)).
  - destruct (_get key now _) as [r c] eqn:Eg. injection Ha as <-.
    destruct r as [x|]; eapply (Hget (Holding key)); try done; cbn; auto.
  - injection Ha as <-. apply (Hnone (Loading key) (Loaded key x')); try done.
    intros k x [= <- <-]. split; [|done]. by apply (Hload key).
  - injection Ha as <-. by apply (Hnone (Loading key) (Failed e')).
  - injection Ha as <-.
    pose proof (si_absent _ _ (vi_system v Hv) i _ key Hi eq_refl) as Habs.
    destruct (put_entries key x now _ Hnd Habs) as (Hent & new & Enew & Hnew).
    apply (views_kept v _ c' i (Loaded key x) (Returned x false) new (fun _ => False)); try done.
    + intros k e He. destruct (Hent k e He) as [?|[-> <-]]; [by left|by right].
    + intros y [Hy|[]] Hn. apply Hadd; [by left|]. by rewrite (newly_app _ _ new).
Qed.

Lemma start_views n : views_inv (Views (start n) ∅).
Proof using Hmax names_differ.
  assert (Hidle : forall i p, replicate n (@Idle string) !! i = Some p -> p = Idle)
    by (intros i p Hp; by apply lookup_replicate in Hp as [-> _]).
  split; cbn.
  - apply start_inv_datasets.
  - by intros i p k ->%Hidle.
  - intros k e He. by apply not_elem_of_nil in He.
  - by intros i k x Hx%Hidle.
  - by intros i vs Hvs%Hidle.
Qed.

Lemma reachable_views R n v : rtc (view_step R) (Views (start n) ∅) v -> views_inv v.
Proof using Hmax names_differ.
  assert (H : views_inv (Views (start n) ∅)) by apply start_views. revert H.
  intros H Hr. revert H. induction Hr as [|v1 v2 v3 Hs _ IH]; [done|]. intros H. by eapply IH, view_step_keeps.
Qed.
End views.

(** ** Runs *)

Definition loaded_by (m : move string) : gset string := match m with Loads x => {[x]} | _ => ∅ end.

(** Every drop succeeds. *)
Definition play_one (cfg : dataset_cfg) (im : nat * move string) (v : views) : option views :=
  match advance cfg im.1 im.2 (v_system v) with
  | Some s' => Some (Views s' ((v_catalog v ∪ loaded_by im.2) ∖ list_to_set (newly_released (v_system v) s')))
  | None => None
  end.

Fixpoint play (cfg : dataset_cfg) (ms : list (nat * move string)) (v : views) : option views :=
  match ms with
  | [] => Some v
  | im :: ms => play_one cfg im v ≫= play cfg ms
  end.

(** The moves a run may make: no close, keys in use, each loader its own view. *)
Definition fair (keys : list string) (s : system string) (im : nat * move string) : bool :=
  match im.2 with
  | Shut => false
  | Call key => bool_decide (key ∈ keys)
  | Loads x => match sy_threads s !! im.1 with
               | Some (Loading key) => bool_decide (x = view_name key)
               | _ => true
               end
  | _ => true
  end.

Fixpoint all_fair (cfg : dataset_cfg) (keys : list string) (ms : list (nat * move string)) (v : views)
  : bool :=
  match ms with
  | [] => true
  | im :: ms =>
      fair keys (v_system v) im
      && match play_one cfg im v with Some v' => all_fair cfg keys ms v' | None => false end
  end.

Lemma load_view_runs {R} key plan c :
  on_catalog (R := R) (load_view key plan) c (Ok (view_name key)) ({[view_name key]} ∪ c).
Proof.
  eapply (execution_do _ _ _ _ _ (Ok tt)); [reflexivity|].
  eapply (execution_do _ _ _ _ _ (Ok tt)); [reflexivity|]. constructor.
Qed.

Lemma load_view_fails {R} key plan e c : on_catalog (R := R) (load_view key plan) c (Err e) c.
Proof. eapply (execution_do _ _ _ _ _ (Err e)); [reflexivity|]. constructor. Qed.

Lemma release_all_runs {R} released c :
  on_catalog (R := R) (release_all released) c (Ok tt) (c ∖ list_to_set released).
Proof.
  unfold release_all. revert c. induction released as [|view l IH]; intros c.
  - rewrite (leibniz_equiv (c ∖ list_to_set []) c) by set_solver. constructor.
  - cbn [list_to_set]. rewrite (leibniz_equiv (c ∖ ({[view]} ∪ list_to_set l))
      ((c ∖ {[view]}) ∖ list_to_set l)) by set_solver.
    eapply (execution_do _ _ _ _ _ (Ok tt)); [reflexivity|].
    eapply (execution_do _ _ _ _ _ (Ok tt)); [reflexivity|]. apply IH.
Qed.

Lemma play_one_step {R} cfg keys im v v' :
  fair keys (v_system v) im = true -> play_one cfg im v = Some v' ->
  view_step cfg (fun k => k ∈ keys) R v v'.
Proof.
  destruct im as [i m]. unfold play_one, fair. cbn. intros Hf Hp.
  destruct (advance cfg i m (v_system v)) as [s'|] eqn:Ea; [|done]. injection Hp as <-.
  apply (view_moves _ _ _ v i m s' (v_catalog v ∪ loaded_by m)); try done.
  - intros key ->. by apply bool_decide_eq_true in Hf.
  - by intros ->.
  - unfold loading, advance in *.
    destruct (sy_threads (v_system v) !! i) as [[| | | |key| | | |vs]|];
      destruct m as [k'| |t|x|err]; try done; cbn [loaded_by];
      try (by rewrite (leibniz_equiv (v_catalog v ∪ ∅) (v_catalog v)) by set_solver).
    + apply bool_decide_eq_true in Hf as ->. exists (ReadPlan F_CSV [] None [] None).
      rewrite (comm_L (∪)). apply load_view_runs.
    + exists (ReadPlan F_CSV [] None [] None).
      rewrite (leibniz_equiv (v_catalog v ∪ ∅) (v_catalog v)) by set_solver. apply load_view_fails.
    + by destruct vs.
  - rewrite (leibniz_equiv (list_to_set (newly_released (v_system v) s') : gset string)
               (list_to_set (reverse (newly_released (v_system v) s')))) by
      (intros x; by rewrite !elem_of_list_to_set, elem_of_reverse).
    apply release_all_runs.
Qed.

Lemma play_reachable {R} cfg keys ms v v' :
  all_fair cfg keys ms v = true -> play cfg ms v = Some v' ->
  rtc (view_step cfg (fun k => k ∈ keys) R) v v'.
Proof.
  revert v. induction ms as [|im ms IH]; intros v Hf Hp; cbn in *; [by injection Hp as <-|].
  apply andb_prop in Hf as [Hf Hfs]. destruct (play_one cfg im v) as [v1|] eqn:E1; [|done].
  eapply rtc_l; [by eapply play_one_step|]. by apply IH.
Qed.

(** ** The theorem *)

(** C31: A resident dataset's view exists.  However any number of queries interleave
    on the dataset cache of one engine, hits, loads that succeed or fail, expiries
    and evictions, each load running [load_view] and each release
    [_release_cached_view] on the catalog of the shared session, as long as the
    cache is not closed: every resident entry holds the view named after its
    fingerprint, and that view is in the catalog.  The fingerprints in use must
    differ in the 24 digits a view is named by. *)
Theorem resident_views_exist {R} cfg K n v :
  (1 <= max_entries cfg)%nat ->
  (forall k1 k2, K k1 -> K k2 -> view_name k1 = view_name k2 -> k1 = k2) ->
  rtc (view_step cfg K R) (Views (start n) ∅) v ->
  forall k e, (k, e) ∈ dc_entries (sy_cache (v_system v)) ->
    e_value e = view_name k /\ e_value e ∈ v_catalog v.
Proof.
  intros Hmax Hinj Hr k e He.
  by destruct (vi_entries _ _ _ (reachable_views cfg Hmax K Hinj R n v Hr) k e He).
Qed.

Module ViewDemo.
Definition keys : list string := ["aaaa"; "bbbb"].

(** Thread 0 loads a dataset, thread 1 another, which evicts the first. *)
Definition evicting : list (nat * move string) :=
  DatasetDemo.load 0 "aaaa" (view_name "aaaa") ++ DatasetDemo.load 1 "bbbb" (view_name "bbbb").

Definition first_start : views := Views (start 2) ∅.

Definition after_evicting : views := default first_start (play DatasetDemo.cfg evicting first_start).

Lemma evicting_runs : play DatasetDemo.cfg evicting first_start = Some after_evicting.
Proof. vm_compute. reflexivity. Qed.

Lemma evicting_fair : all_fair DatasetDemo.cfg keys evicting first_start = true.
Proof. vm_compute. reflexivity. Qed.

Lemma keys_differ k1 k2 : k1 ∈ keys -> k2 ∈ keys -> view_name k1 = view_name k2 -> k1 = k2.
Proof.
  unfold keys. rewrite !list_elem_of_In. cbn. intros [<-|[<-|[]]] [<-|[<-|[]]] E; try done;
    vm_compute in E; discriminate.
Qed.

(** Two engines that share a session: each has its own cache and drops views of
    the other.  The first holds "aaaa"; the second loads it too, then evicts it. *)
Definition two_engines : option (system string * views) :=
  match play DatasetDemo.cfg (DatasetDemo.load 0 "aaaa" (view_name "aaaa")) first_start with
  | Some first =>
      match play DatasetDemo.cfg evicting (Views (start 2) (v_catalog first)) with
      | Some second => Some (v_system first, second)
      | None => None
      end
  | None => None
  end.
End ViewDemo.

Lemma resident_views_exist_witness :
  map fst (dc_entries (sy_cache (v_system ViewDemo.after_evicting))) = ["bbbb"]
  /\ forall k e, (k, e) ∈ dc_entries (sy_cache (v_system ViewDemo.after_evicting)) ->
       e_value e = view_name k /\ e_value e ∈ v_catalog ViewDemo.after_evicting.
Proof.
  split; [vm_compute; reflexivity|].
  apply (resident_views_exist (R := string) DatasetDemo.cfg (fun k => k ∈ ViewDemo.keys) 2 ViewDemo.after_evicting);
    [cbn; lia|exact ViewDemo.keys_differ|].
  exact (play_reachable _ _ _ _ _ ViewDemo.evicting_fair ViewDemo.evicting_runs).
Defined.

(** The view the first engine's cache holds is gone: its next hit fails. *)
Example engines_drop_each_others_views :
  match ViewDemo.two_engines with
  | Some (first, second) =>
      find_entry "aaaa" (dc_entries (sy_cache first)) <> None
      /\ view_name "aaaa" ∉ v_catalog second
  | None => False
  end.
Proof. vm_compute. split; [discriminate|]. by intros ?. Qed.
