(* ===== verification/Node.v ===== *)
(** * The worker with its service and its engine

    How worker.py, service.py and spark.py are put together (dependencies.py and
    [work_once]): the operations of the worker are carried out by the query
    service, those of the service by the Spark engine, and the engine's commit
    check and publication by the worker's callbacks on the queue.  What remains are
    the operations of the world outside ([nop]). *)

From Stdlib Require Import QArith.
From S2P Require Import Prelude Models Fingerprint Storage Prog QueueState JobQueue Worker Datasets.
From S2P Require Import Observability Service Spark.

#[local] Open Scope Z_scope.

(** The operations of the three layers that no other layer carries out. *)
Inductive nop (R : Type) : Type -> Type :=
| NWorker {X : Type} (o : wop (QueryResult R) X) : nop R X
| NService {X : Type} (o : sop R X) : nop R X
| NSpark {X : Type} (o : eop R X) : nop R X.
Arguments NWorker {R X} o.
Arguments NService {R X} o.
Arguments NSpark {R X} o.

Section node.
Context {R : Type} `{QueueCodec (QueryResult R)} `{Files} `{Sha256}.
Context (normalize : string -> list string -> result exn string) (scfg : service_cfg).
Context (parse : string -> result exn R) (storage : StorageRegistry) (data_root : string)
  (max_inline_bytes : Z) (csv_line : list string -> string).
Context (cc : client_cfg) (worker_id : string).

Abbreviation program := (prog (nop R)).

Definition on_node {A} (p : prog (qop (QueryResult R)) A) : program A :=
  interp (fun X o => perform (NWorker (Queue o))) p.

(** ** The engine, with the callbacks of one attempt *)

Definition engine_op (c : AttemptContext) {X} (o : eop R X) : program X :=
  match o in eop _ Y return program Y with
  | CanCommit => attempt (on_node (can_commit cc (ac_query_id c) worker_id))
  | PublishOutput key uri mode =>
      attempt (on_node (publish_output (ac_query_id c) worker_id (ac_attempt_number c) key
                          (ac_attempt_id c) uri mode))
  | o => perform (NSpark o)
  end.

Definition on_engine (c : AttemptContext) {A} (p : prog (eop R) A) : program A :=
  interp (fun X o => engine_op c o) p.

(** ** The service, with the engine *)

(** A stream's rows ([NextRow]) stay an operation: a job never streams. *)
Definition service_op (c : AttemptContext) {X} (o : sop R X) : program X :=
  match o in sop _ Y return program Y with
  | Prepare request sql => Ret (Spark.prepare storage data_root request sql)
  | EngineExecute p context =>
      attempt (on_engine c (Spark.execute parse storage max_inline_bytes p context))
  | EngineStream p context => Ret (r_bind (Spark.stream (R := R) csv_line p context) (fun s => Ok s.1))
  | EngineExplain p context => attempt (on_engine c (Spark.explain p context))
  | EngineInspect s => attempt (on_engine c (Spark.inspect storage data_root s))
  | EngineCancel id => attempt (on_engine c (Spark.cancel id))
  | EnginePing => attempt (on_engine c Spark.ping)
  | EngineClose => attempt (on_engine c Spark.close)
  | o => perform (NService o)
  end.

Definition on_service (c : AttemptContext) {A} (p : prog (sop R) A) : program A :=
  interp (fun X o => service_op c o) p.

(** ** The worker, with the service *)

(** [ExecutionContext(...)] as [work_once] builds it: with callbacks, of kind async. *)
Definition context_of (c : AttemptContext) : ExecutionContext :=
  Context (ac_query_id c) (ac_attempt_id c) (ac_attempt_number c) (ac_timeout_seconds c) true "async".

(** The heartbeat thread's cancellation goes to the engine's own session. *)
Definition worker_op {X} (o : wop (QueryResult R) X) : program X :=
  match o in wop _ Y return program Y with
  | Worker.Execute request c =>
      attempt (on_service c (Service.execute normalize scfg request (Some (context_of c))))
  | CancelQuery id =>
      attempt (on_service (Attempt id "" 0 0) (Service.cancel id))
  | o => perform (NWorker o)
  end.

Definition on_worker {A} (p : prog (wop (QueryResult R)) A) : program A :=
  interp (fun X o => worker_op o) p.

(** One job, from its reservation to its outcome. *)
Definition node_cycle (shard : nat) : program bool := on_worker (work_once cc worker_id shard).
End node.
