(* ===== verification/NodeWorld.v ===== *)
(** * The world of the composed worker

    The operations that remain of a worker with its service and its engine
    (Node.v), among other clients of the queue: what each of them may do, a log of
    what an attempt leaves behind, in order, and that every step keeps the queue's
    invariant and is a legal move of the queue. *)

From Stdlib Require Import QArith.
From S2P Require Import Prelude Valkey Models Fingerprint Storage Prog.
From S2P Require Import QueueState QueueScripts QueueRefine QueueInv QueueTrace QueueLife.
From S2P Require Import JobQueue ClientWorld QueueClient Observability Datasets Service.
From S2P Require Import Worker WorkerTheorems Spark SparkTheorems Node.

#[local] Open Scope Z_scope.

(** ** What an attempt leaves behind, in order *)

Inductive event :=
| EvData (f : OutputFormat) (uri : string)
| EvManifest (uri payload : string)
(* a reply of the publish script; whether the worker held this attempt of the job,
   and the destination's record then names it *)
| EvPublish (id worker : string) (attempt : Z) (key attempt_id uri mode : string) (reply : Z)
    (held : bool)
| EvComplete (id worker res : string) (reply : Z).

Definition is_complete (e : event) : bool := match e with EvComplete _ _ _ _ => true | _ => false end.

(** The queue and the ids in use; what was written to the open file; the log. *)
Record node := NodeState {
  n_world : ClientWorld.world;
  n_file : string;
  n_log : list event;
}.

Definition logged (evs : list event) (t : node) : node :=
  NodeState (n_world t) (n_file t) (n_log t ++ evs).
Definition set_open (bytes : string) (t : node) : node := NodeState (n_world t) bytes (n_log t).
Definition with_world (w : ClientWorld.world) (t : node) : node := NodeState w (n_file t) (n_log t).

(** The worker holds the job, in this attempt, with a live lease. *)
Definition holds_attempt (id worker : string) (attempt now : Z) (q : qstate) : bool :=
  match jobs q !! id with
  | Some j => owned j worker now && (j_attempts j =? attempt)
  | None => false
  end.

(** The record of a destination names the attempt and its manifest. *)
Definition names_attempt (mode id aid uri : string) (record : gmap string string) : bool :=
  if decide (mode = "append") then
    bool_decide (record !! "last_append_query_id" = Some id
                 /\ record !! "last_append_attempt_id" = Some aid
                 /\ record !! "last_append_manifest_uri" = Some uri)
  else
    bool_decide (record !! "query_id" = Some id /\ record !! "attempt_id" = Some aid
                 /\ record !! "manifest_uri" = Some uri).

(** A publication by the attempt that holds the job, as the record says afterwards. *)
Definition properly_published (key w : string) (n : Z) (mode id aid uri : string) (now : Z) (q : qstate)
  : bool :=
  holds_attempt id w n now q
  && names_attempt mode id aid uri (pub (Spec.publish key w n mode id aid uri now q).2 key).

Lemma pub_set k h q : pub (set_pub k h q) k = h.
Proof. unfold pub, set_pub. cbn. by rewrite lookup_insert_eq. Qed.

Lemma published_held key w n mode id aid uri now q :
  0 < (Spec.publish key w n mode id aid uri now q).1 ->
  properly_published key w n mode id aid uri now q = true.
Proof.
  unfold properly_published, Spec.publish, holds_attempt, names_attempt.
  destruct (jobs q !! id) as [j|]; [|done].
  destruct (owned j w now && (j_attempts j =? n)) eqn:E; [|done].
  destruct (j_cancel j); [done|]. cbn [andb negb].
  case_decide as Hm; [|case_decide; [done|]]; intros _;
    cbn [snd]; rewrite pub_set; apply bool_decide_eq_true; unfold hset_fields; cbn [foldl fst snd];
    repeat split; by simplify_map_eq.
Qed.

Section node.
Context {R : Type} (c : queue_cfg) (Hc : queue_cfg_ok c).

(** What is logged of a call on the queue. *)
Definition observed {X} (call : qcall X) (q : qstate) : list event :=
  match call with
  | Publish key w n mode id aid uri now =>
      [EvPublish id w n key aid uri mode (Spec.publish key w n mode id aid uri now q).1
         (properly_published key w n mode id aid uri now q)]
  | Complete id w res now => [EvComplete id w res (Spec.complete id w res now q).1]
  | _ => []
  end.

Definition queue_effect {X} (o : qop (QueryResult R) X) (t : node) : (X -> node -> Prop) -> Prop :=
  match o in qop _ Y return (Y -> node -> Prop) -> Prop with
  | QCall call => fun Q =>
      forall w1, others c (n_world t) w1 -> world_inv c w1 ->
        event_ok c (w_queue w1) (Called call)
        /\ (forall id, is_enqueue call id = true -> id ∈ w_ids w1)
        /\ Q (spec_call c call (w_queue w1)).1
             (NodeState (after c call w1) (n_file t) (n_log t ++ observed call (w_queue w1)))
  | o => fun Q => client_effect c (others c) any_time o (n_world t) (fun x w' => Q x (with_world w' t))
  end.

(** Spark and the file system may answer anything; what is durable is logged. *)
Definition engine_effect {X} (o : eop R X) (t : node) : (X -> node -> Prop) -> Prop :=
  match o in eop _ Y return (Y -> node -> Prop) -> Prop with
  | WriteData f _ uri => fun Q => forall r, Q r (if is_ok r then logged [EvData f uri] t else t)
  | CreateFile _ _ => fun Q => forall r, Q r (set_open "" t)
  | WriteBytes _ payload => fun Q =>
      forall r bytes, (is_ok r = true -> bytes = payload) -> Q r (set_open bytes t)
  | CloseFile uri => fun Q =>
      forall r, Q r (if is_ok r then logged [EvManifest uri (n_file t)] t else t)
  (* carried out by the queue's callbacks, never by Spark *)
  | CanCommit => fun _ => False
  | PublishOutput _ _ _ => fun _ => False
  | _ => fun Q => forall r, Q r t
  end.

(** An execution is carried out by the service, never left to the world. *)
Definition cycle_effect {X} (o : wop (QueryResult R) X) (t : node) : (X -> node -> Prop) -> Prop :=
  match o in wop _ Y return (Y -> node -> Prop) -> Prop with
  | Queue o => queue_effect o t
  | Worker.Execute _ _ => fun _ => False
  | CancelQuery _ => fun _ => False
  | UuidHex => fun Q => forall s, Q s t
  | StartHeartbeat _ | StopHeartbeat _ | JobOutcome _ => fun Q => Q tt t
  end.

Definition request_effect {X} (o : sop R X) (t : node) : (X -> node -> Prop) -> Prop :=
  match o in sop _ Y return (Y -> node -> Prop) -> Prop with
  | Prepare _ _ => fun _ => False
  | EngineExecute _ _ => fun _ => False
  | _ => fun Q => forall r, Q r t
  end.

Definition node_effect {X} (o : nop R X) (t : node) : (X -> node -> Prop) -> Prop :=
  match o in nop _ Y return (Y -> node -> Prop) -> Prop with
  | NWorker o => cycle_effect o t
  | NService o => request_effect o t
  | NSpark o => engine_effect o t
  end.

Definition queue_step X (o : qop (QueryResult R) X) (t : node) (x : X) (t' : node) : Prop :=
  match o in qop _ Y return Y -> Prop with
  | QCall call => fun y =>
      exists w1, others c (n_world t) w1 /\ y = (spec_call c call (w_queue w1)).1
        /\ t' = NodeState (after c call w1) (n_file t) (n_log t ++ observed call (w_queue w1))
  | o => fun y => exists w', client_step c (others c) any_time o (n_world t) y w' /\ t' = with_world w' t
  end x.

Definition engine_step X (o : eop R X) (t : node) (x : X) (t' : node) : Prop :=
  match o in eop _ Y return Y -> Prop with
  | WriteData f _ uri => fun r => t' = if is_ok r then logged [EvData f uri] t else t
  | CreateFile _ _ => fun _ => t' = set_open "" t
  | WriteBytes _ payload => fun r =>
      exists bytes, (is_ok r = true -> bytes = payload) /\ t' = set_open bytes t
  | CloseFile uri => fun r => t' = if is_ok r then logged [EvManifest uri (n_file t)] t else t
  | _ => fun _ => t' = t
  end x.

Definition cycle_step X (o : wop (QueryResult R) X) (t : node) (x : X) (t' : node) : Prop :=
  match o in wop _ Y return Y -> Prop with
  | Queue o => fun y => queue_step _ o t y t'
  | _ => fun _ => t' = t
  end x.

Definition node_step X (o : nop R X) (t : node) (x : X) (t' : node) : Prop :=
  match o in nop _ Y return Y -> Prop with
  | NWorker o => fun y => cycle_step _ o t y t'
  | NService _ => fun _ => t' = t
  | NSpark o => fun y => engine_step _ o t y t'
  end x.

Definition node_exec {A} : prog (nop R) A -> node -> result exn A -> node -> Prop :=
  execution node_step.

Lemma queue_effect_mono X (o : qop (QueryResult R) X) t (Q1 Q2 : X -> node -> Prop) :
  (forall x t', Q1 x t' -> Q2 x t') -> queue_effect o t Q1 -> queue_effect o t Q2.
Proof using Type.
  intros HQ. destruct o; cbn; try (intros Hw; intros; apply HQ; auto; fail).
  intros Hw w1 Ho Hi. destruct (Hw w1 Ho Hi) as (? & ? & ?). auto.
Qed.

Lemma node_effect_mono X (o : nop R X) t (Q1 Q2 : X -> node -> Prop) :
  (forall x t', Q1 x t' -> Q2 x t') -> node_effect o t Q1 -> node_effect o t Q2.
Proof using Type.
  intros HQ. destruct o as [X o|X o|X o]; cbn.
  - destruct o; cbn; auto. by apply queue_effect_mono.
  - destruct o; cbn; auto.
  - destruct o; cbn; auto.
Qed.

#[export] Instance node_effects : Effects (nop R) node :=
  {| effect := @node_effect; effect_mono := node_effect_mono |}.

Definition node_legal (t t' : node) : Prop := legal_move c (n_world t) (n_world t').

#[global] Instance node_legal_preorder : PreOrder node_legal.
Proof using Type.
  split; [intros t; apply rtc_refl|]. intros t1 t2 t3. unfold node_legal. by etrans.
Qed.

Lemma queue_effect_step X (o : qop (QueryResult R) X) t (Q : X -> node -> Prop) x t' :
  world_inv c (n_world t) -> queue_effect o t Q -> queue_step X o t x t' ->
  Q x t' /\ world_inv c (n_world t') /\ node_legal t t'.
Proof using Hc.
  intros Hi.
  assert (Hplain : client_effect c (others c) any_time o (n_world t) (fun x w' => Q x (with_world w' t)) ->
            forall w', client_step c (others c) any_time o (n_world t) x w' -> t' = with_world w' t ->
            Q x t' /\ world_inv c (n_world t') /\ node_legal t t').
  { intros He w' Hs ->. destruct (client_effect_step c Hc (others c) (fun _ _ H => H) any_time _ _ _
      (fun x w' => Q x (with_world w' t)) _ _ Hi He Hs) as (HQ & Hi' & Hl). done. }
  destruct o as [Z call| | | | |]; cbn [queue_effect queue_step];
    try (intros He (w' & Hs & Ht); by eapply Hplain).
  intros Hw (w1 & Ho & -> & ->). pose proof (others_inv c Hc _ _ Hi Ho) as Hi1.
  destruct (Hw w1 Ho Hi1) as (Hok & Hn & HQ). split; [done|]. cbn. split; [by apply after_inv|].
  unfold node_legal, legal_move. cbn. etrans; [by apply others_rtc_step|].
  apply rtc_once, step_call; [apply Hok|done].
Qed.

Lemma node_effect_step X (o : nop R X) t (Q : X -> node -> Prop) x t' :
  world_inv c (n_world t) -> node_effect o t Q -> node_step X o t x t' ->
  Q x t' /\ world_inv c (n_world t') /\ node_legal t t'.
Proof using Hc.
  intros Hi. assert (Hrefl : node_legal t t) by apply rtc_refl.
  destruct o as [X o|X o|X o]; cbn [node_effect node_step].
  - destruct o; cbn; try done; try (intros HQ ->; split; [first [apply HQ|by destruct x]|by split]).
    by apply queue_effect_step.
  - destruct o; cbn; try done; intros HQ ->; (split; [apply HQ|by split]).
  - destruct o; cbn; try done; try (intros HQ ->; split; [apply HQ|by split]).
    + intros HQ ->. split; [apply HQ|]. by destruct x.
    + intros HQ (bytes & Hb & ->). split; [by apply HQ|done].
    + intros HQ ->. split; [apply HQ|]. by destruct x.
Qed.

(** An execution does what [wp] promises, keeps the queue's invariant and moves
    the queue by legal steps. *)
Lemma wp_node {A} (p : prog (nop R) A) t r t' (Q : result exn A -> node -> Prop) :
  world_inv c (n_world t) -> wp p t Q -> node_exec p t r t' ->
  Q r t' /\ world_inv c (n_world t') /\ legal_move c (n_world t) (n_world t').
Proof using Hc.
  intros Hi. apply (wp_execution node_step (fun t => world_inv c (n_world t)) node_legal);
    [apply node_effect_step|done].
Qed.
End node.

(** ** Methods that neither publish nor complete *)

Section avoiding.
Context {QR : Type} `{QueueCodec QR} `{Sha256} (cc : client_cfg).
Local Open Scope prog_scope.

Definition silent {X} (o : qop QR X) : Prop :=
  match o with
  | QCall call => match call with Publish _ _ _ _ _ _ _ _ | Complete _ _ _ _ => False | _ => True end
  | _ => True
  end.

Definition avoids {A} (p : prog (qop QR) A) : Prop := every (@silent) p.

Ltac avoid := unfold avoids, qcalls, _now_ms, _metadata_status; every_op.

Lemma get_avoids id : avoids (get id).
Proof using Type. unfold get. avoid. Qed.

Lemma heartbeat_avoids id worker : avoids (heartbeat cc id worker).
Proof using Type. unfold heartbeat. avoid. Qed.

Lemma owns_avoids id worker : avoids (owns id worker).
Proof using Type. unfold owns. avoid. Qed.

Lemma cancel_requested_avoids id worker : avoids (cancel_requested id worker).
Proof using Type. unfold cancel_requested. avoid. Qed.

Lemma cancel_complete_avoids id worker : avoids (cancel_complete id worker).
Proof using Type. unfold cancel_complete. avoid. Qed.

Lemma can_commit_avoids id worker : avoids (can_commit cc id worker).
Proof using Type. unfold can_commit, heartbeat, cancel_requested. avoid. Qed.

Lemma fail_avoids id worker error retryable cls : avoids (fail cc id worker error retryable cls).
Proof using Type. unfold fail, _retry_delay_ms, get. avoid. Qed.

Lemma reserve_avoids worker shard : avoids (reserve cc worker shard).
Proof using Type.
  unfold reserve, next_id, promote_retries, claim_job.
  assert (Hpop : forall l, every (@silent) (pop_any (QR := QR) l))
    by (intros l; induction l as [|i l IH]; [done|]; cbn [pop_any]; by avoid).
  avoid; apply Hpop.
Qed.
End avoiding.
