(* ===== verification/NodeTheorems.v ===== *)
(** * From the queue to the published output

    The composed worker of Node.v among other clients of the queue: a job is
    reported as succeeded with a stored result only after its data, its manifest
    and its publication, each made by this very attempt, the publication while the
    attempt held its lease; and the composed cycle is a legal client of the queue. *)

From Stdlib Require Import QArith.
From S2P Require Import Prelude Valkey Models Fingerprint Storage Prog.
From S2P Require Import QueueState QueueScripts QueueRefine QueueInv QueueTrace QueueLife.
From S2P Require Import JobQueue ClientWorld QueueClient ClientDemo Observability Datasets Service.
From S2P Require Import Worker WorkerTheorems Spark SparkTheorems Node NodeWorld.

#[local] Open Scope Z_scope.

(** ** The engine's steps and the log *)

Section composed.
Context {R : Type} `{QueueCodec (QueryResult R)} `{Files} `{Sha256}.
Context (normalize : string -> list string -> result exn string) (scfg : service_cfg).
Context (parse : string -> result exn R) (storage : StorageRegistry) (data_root : string)
  (max_inline_bytes : Z) (csv_line : list string -> string).
Context (cc : client_cfg) (worker_id : string).
Let c := cc_queue cc.
Hypothesis Hc : queue_cfg_ok c.
(** The publication keys are not keys of the queue's own hashes. *)
Hypothesis Hkeys : forall logical, outside_key c (publication_key storage logical).

#[local] Instance on_nodes : Effects (nop R) node := node_effects c.
#[local] Instance on_clients : Effects (qop (QueryResult R)) ClientWorld.world :=
  client_effects c (others c) any_time.
#[local] Instance on_spark : Effects (eop R) SparkTheorems.world := spark_effects.

#[local] Instance on_queues : Effects (qop (QueryResult R)) node :=
  {| effect X o t Q := queue_effect c o t Q; effect_mono := queue_effect_mono c |}.

(** A queue method that neither publishes nor completes logs nothing. *)
Definition unlogged {A} (t : node) (Q : result exn A -> ClientWorld.world -> Prop)
    (r : result exn A) (t' : node) : Prop :=
  n_log t' = n_log t /\ n_file t' = n_file t /\ Q r (n_world t').

Lemma wp_silent {A} (p : prog (qop (QueryResult R)) A) t
    (Q : result exn A -> ClientWorld.world -> Prop) :
  avoids p -> wp p (n_world t) Q -> wp p t (unlogged t Q).
Proof using Type.
  revert t. induction p as [a|e|X o k IH]; intros t Ha Hp; [done..|].
  destruct Ha as [Ho Ha]. cbn in *.
  destruct o as [Z call| | | | |]; cbn in *;
    try (intros; refine (IH _ (with_world _ t) _ _); [apply Ha|by apply Hp]).
  intros w1 Hw1 Hi1. destruct (Hp w1 Hw1 Hi1) as (Hok & Hn & HQ). split; [done|]. split; [done|].
  assert (E : observed call (w_queue w1) = []) by (by destruct call). rewrite E, app_nil_r.
  apply (IH _ (NodeState (after c call w1) (n_file t) (n_log t))); [apply Ha|exact HQ].
Qed.

Lemma wp_on_node {A} (p : prog (qop (QueryResult R)) A) t (Q : result exn A -> node -> Prop) :
  wp p t Q -> wp (on_node (R := R) p) t Q.
Proof using Type.
  intros Hp. eapply wp_mono; [|eapply (wp_interp (H := on_queues) _ eq p t t); [|reflexivity|exact Hp]].
  - by intros r t' (s' & -> & HQ).
  - intros X o s t0 K -> Ho. cbn. eapply queue_effect_mono; [|exact Ho]. eauto.
Qed.

(** Log entries of one attempt: its engine's steps, in the engine's order. *)
Inductive shows (x : AttemptContext) : list step -> list event -> Prop :=
| shows_nil : shows x [] []
| shows_data f uri ss es : shows x ss es -> shows x (WroteData f uri :: ss) (EvData f uri :: es)
| shows_commit ss es : shows x ss es -> shows x (MayCommit :: ss) es
| shows_manifest uri payload ss es :
    shows x ss es -> shows x (WroteManifest uri payload :: ss) (EvManifest uri payload :: es)
| shows_publish key uri mode reply held ss es :
    (0 < reply -> held = true) -> shows x ss es ->
    shows x (Published key uri mode reply :: ss)
      (EvPublish (ac_query_id x) worker_id (ac_attempt_number x) key (ac_attempt_id x) uri mode
         reply held :: es)
| shows_sync key id attempt uri mode reply ss es :
    shows x ss es -> shows x (PublishedSync key id attempt uri mode reply :: ss) es.

Lemma shows_app x ss1 ss2 es1 es2 :
  shows x ss1 es1 -> shows x ss2 es2 -> shows x (ss1 ++ ss2) (es1 ++ es2).
Proof using Type. intros S1 S2. induction S1; cbn; [done|by constructor..]. Qed.

(** The engine's own world beside the node's: the steps since [before] are logged. *)
Definition beside (x : AttemptContext) (before : list event) (a : SparkTheorems.world) (t : node)
  : Prop :=
  w_file a = n_file t /\ exists es, n_log t = before ++ es /\ shows x (w_steps a) es.

Lemma beside_step x before a t s es :
  beside x before a t -> shows x [s] es ->
  beside x before (finish s a) (logged es t).
Proof using Type.
  intros (Hf & es0 & Hl & Hs) S1. split; [done|]. exists (es0 ++ es). cbn.
  rewrite Hl, app_assoc. split; [done|]. by apply shows_app.
Qed.

(** Changes of the engine's world that its steps and its file do not see. *)
Lemma beside_same x before a a' t :
  w_file a' = w_file a -> w_steps a' = w_steps a -> beside x before a t -> beside x before a' t.
Proof using Type. intros Ef Es (Hf & es & Hl & Hs). split; [congruence|]. exists es. by rewrite Es. Qed.

Lemma commit_beside x before a t (Q : result exn bool -> SparkTheorems.world -> Prop) :
  beside x before a t -> spark_effect (R := R) CanCommit a Q ->
  wp (engine_op (R := R) cc worker_id x CanCommit) t
    (fun r t' => exists y a', r = Ok y /\ beside x before a' t' /\ Q y a').
Proof using Hc.
  intros Hb HQ. apply wp_attempt, wp_on_node.
  eapply wp_mono; [|apply (wp_silent _ t (fun _ _ => True))].
  - intros r t' (El & Ef & _). eexists r, _. split; [done|]. split; [|apply HQ].
    assert (Hb' : beside x before a t').
    { destruct Hb as (Hf & es & Hl & Hs). split; [congruence|]. exists es. by rewrite El. }
    destruct r as [[|]|e]; try exact Hb'.
    pose proof (beside_step x before a t' MayCommit [] Hb') as Hs.
    unfold logged in Hs. rewrite app_nil_r in Hs. destruct t'. apply Hs. repeat constructor.
  - apply can_commit_avoids.
  - apply wp_bind, (wp_heartbeat cc c); [done..|]. intros ti w1 _ _. cbv zeta.
    destruct (bool_decide _); [|done]. by apply wp_bind, wp_cancel_requested.
Qed.

Lemma publish_beside x before a t key uri mode (Q : result exn Z -> SparkTheorems.world -> Prop) :
  outside_key c key -> beside x before a t -> spark_effect (R := R) (PublishOutput key uri mode) a Q ->
  wp (engine_op (R := R) cc worker_id x (PublishOutput key uri mode)) t
    (fun r t' => exists y a', r = Ok y /\ beside x before a' t' /\ Q y a').
Proof using Type.
  intros Hk Hb HQ. apply wp_attempt, wp_on_node. unfold publish_output. cbn.
  intros now _ w1 Ho Hi. split; [by split|]. split; [done|].
  eexists _, _. split; [done|]. split; [|apply HQ].
  set (reply := (Spec.publish _ _ _ _ _ _ _ _ _).1).
  apply (beside_step x before a (with_world _ t) (Published key uri mode reply)
           [EvPublish _ _ _ _ _ _ _ reply _]).
  - destruct Hb as (Hf & es & Hl & Hs). split; [done|]. by exists es.
  - constructor; [|constructor]. subst reply. intros Hr. by eapply published_held.
Qed.

(** What the queue's contract asks of the engine: the key it publishes under. *)
Definition keyed {X} (o : eop R X) : Prop :=
  match o with PublishOutput key _ _ => outside_key c key | _ => True end.

(** Every step of the composed engine is one the engine's own world allows. *)
Lemma engine_op_beside x before X (o : eop R X) a t (Q : X -> SparkTheorems.world -> Prop) :
  keyed o -> beside x before a t -> spark_effect o a Q ->
  wp (engine_op (R := R) cc worker_id x o) t
    (fun r t' => exists y a', r = Ok y /\ beside x before a' t' /\ Q y a').
Proof using Hc.
  intros Hk Hb HQ.
  assert (Hsame : forall (y : X) a', w_file a' = w_file a -> w_steps a' = w_steps a -> Q y a' ->
            exists y' a', Ok (A := X) (E := exn) y = Ok y' /\ beside x before a' t /\ Q y' a').
  { intros y a' Ef Es HQ'. exists y, a'. split; [done|]. split; [by eapply beside_same|done]. }
  assert (Hstep : forall (y : X) s es, shows x [s] es -> Q y (finish s a) ->
            exists y' a', Ok (A := X) (E := exn) y = Ok y' /\ beside x before a' (logged es t) /\ Q y' a').
  { intros y s es Hs HQ'. exists y, (finish s a). split; [done|]. split; [by apply beside_step|done]. }
  assert (Hstay : logged [] t = t) by (unfold logged; rewrite app_nil_r; by destruct t).
  assert (Hfile : forall (y : X) bytes, Q y (set_file bytes a) ->
            exists y' a', Ok (A := X) (E := exn) y = Ok y' /\ beside x before a' (set_open bytes t) /\ Q y' a').
  { intros y bytes HQ'. exists y, (set_file bytes a). split; [done|]. split; [|done].
    destruct Hb as (_ & es & Hl & Hs). split; [done|]. by exists es. }
  destruct o.
  (* the dataset cache, the session, the query's own session *)
  1, 2, 4, 5, 6, 7, 8, 9, 10: intros r; eapply Hsame; [..|apply HQ]; done.
  - intros []; eapply Hsame; [..|apply HQ]; done.
  (* job group and timer *)
  - intros []; eapply Hsame; [..|apply HQ]; done.
  - intros []; eapply Hsame; [..|apply HQ]; done.
  - intros r; eapply Hsame; [..|apply HQ]; done.
  - intros []; eapply Hsame; [..|apply HQ]; done.
  - intros []; eapply Hsame; [..|apply HQ]; done.
  (* rows *)
  - intros r. eapply Hsame; [..|apply HQ]; by destruct r as [[]|].
  - intros r. eapply Hsame; [..|apply HQ]; by destruct r.
  - intros r. eapply Hsame; [..|apply HQ]; by destruct r as [[]|].
  - intros r. eapply Hsame; [..|apply HQ]; by destruct r as [[]|].
  - intros []; eapply Hsame; [..|apply HQ]; done.
  - intros r; eapply Hsame; [..|apply HQ]; done.
  - intros r; eapply Hsame; [..|apply HQ]; done.
  (* writing and publishing *)
  - intros r. specialize (HQ r). destruct r; cbn in *; [|by eapply Hsame].
    eapply Hstep; [|exact HQ]. repeat constructor.
  - by eapply commit_beside.
  - intros r; eapply Hsame; [..|apply HQ]; done.
  - intros r; eapply Hsame; [..|apply HQ]; done.
  - intros r; eapply Hsame; [..|apply HQ]; done.
  - intros r; eapply Hsame; [..|apply HQ]; done.
  - intros r. exact (Hfile _ _ (HQ r)).
  - intros r bytes Hr. exact (Hfile _ _ (HQ r bytes Hr)).
  - intros r. specialize (HQ r). destruct r; cbn in *; [|by eapply Hsame].
    eapply Hstep; [|exact HQ]. destruct Hb as [-> _]. repeat constructor.
  - by eapply publish_beside.
  - intros r. specialize (HQ r). destruct r; cbn in *; [|by eapply Hsame].
    rewrite <- Hstay. eapply Hstep; [|exact HQ]. repeat constructor.
  (* the session's jobs and its end *)
  - intros r; eapply Hsame; [..|apply HQ]; done.
  - intros r; eapply Hsame; [..|apply HQ]; done.
  - intros r; eapply Hsame; [..|apply HQ]; done.
  - intros r; eapply Hsame; [..|apply HQ]; done.
  - intros r; eapply Hsame; [..|apply HQ]; done.
Qed.

Ltac keyed_op :=
  every_op;
  repeat match goal with
    | |- every _ (invoke _) => apply every_invoke; cbn; auto
    | |- every _ (perform _) => apply every_perform; cbn; auto
    end.

Lemma open_sources_keyed sources prepared :
  every (@keyed) (open_sources (R := R) sources prepared).
Proof using Type.
  induction sources as [|[name s] sources IH]; [done|].
  cbn [open_sources]. apply every_bind; [|done].
  destruct (list_find _ _) as [[i [n r]]|]; [|done].
  unfold open_source, _load_cached_view. keyed_op.
Qed.

Lemma collect_keyed limit room rows bytes :
  every (@keyed) (collect parse max_inline_bytes limit room rows bytes).
Proof using Type.
  revert rows bytes. induction room as [|room IH]; intros rows bytes; cbn [collect]; keyed_op.
  apply IH.
Qed.

Lemma execute_keyed prepared context :
  every (@keyed) (Spark.execute parse storage max_inline_bytes prepared context).
Proof using Hkeys.
  unfold Spark.execute, _query_scope, _inline, _frame, _store, _write_manifest, publish.
  keyed_op; first [apply open_sources_keyed | apply collect_keyed | apply Hkeys].
Qed.

(** ** The service's execution and the log *)

(** The events of a stored result, in the order they happened: its data, its
    manifest, and its publication, made under the destination's key, accepted while
    the attempt held its lease, and recorded there. *)
Definition published_by (x : AttemptContext) (s : StoredResult) (es : list event) : Prop :=
  exists logical now mode reply,
    es = [EvData (st_format s) (st_data_uri s);
          EvManifest (st_manifest_uri s) (manifest (context_of x) now s);
          EvPublish (ac_query_id x) worker_id (ac_attempt_number x) (publication_key storage logical)
            (ac_attempt_id x) (st_manifest_uri s) mode reply true]
    /\ 0 < reply /\ st_query_id s = ac_query_id x /\ st_path s = rd_path logical
    /\ st_data_uri s = data_uri logical (context_of x).

(** The context the service passes on: the worker's, with a timeout of its own. *)
Definition of_attempt (x : AttemptContext) (ctx : ExecutionContext) : Prop :=
  exists timeout, ctx = Context (ac_query_id x) (ac_attempt_id x) (ac_attempt_number x) timeout true
                          "async".

(** The log has grown by an attempt's own steps, those of [r] when [r] is stored. *)
Definition stored_is_published (x : AttemptContext) (before : list event)
    (r : result exn (QueryResult R)) (t : node) : Prop :=
  exists es, n_log t = before ++ es /\ Forall (fun e => is_complete e = false) es
    /\ forall s, r = Ok (RStored s) -> published_by x s es.

Lemma shows_no_complete x ss es : shows x ss es -> Forall (fun e => is_complete e = false) es.
Proof using Type. induction 1; by repeat constructor. Qed.

Abbreviation serve x o := (service_op parse storage data_root max_inline_bytes csv_line cc worker_id x o).

Lemma engine_execute_publishes x prepared ctx t :
  of_attempt x ctx ->
  wp (serve x (EngineExecute prepared ctx)) t
    (fun r t' => exists r', r = Ok r' /\ stored_is_published x (n_log t) r' t').
Proof using Hc Hkeys.
  intros [timeout ->]. apply wp_attempt.
  pose (a := SparkTheorems.World [] [] None false [] [] (n_file t) false).
  eapply wp_mono; [|eapply (wp_interp_every (H := on_spark) (fun X o => engine_op cc worker_id x o)
    (beside x (n_log t)) (@keyed) (engine_op_beside x (n_log t)) _ a t
    (fun r a' => forall es, shows x (w_steps a') es ->
       forall s, r = Ok (RStored s) -> published_by x s es))].
  - intros r t' (a' & (_ & es & El & Hs) & HQ). exists r. split; [done|].
    exists es. split; [exact El|]. split; [by eapply shows_no_complete|]. by apply HQ.
  - apply execute_keyed.
  - split; [done|]. exists []. split; [by rewrite app_nil_r|constructor].
  - eapply wp_mono; [|apply execute_stores; done]. intros r a' Hr es Hs s Er.
    destruct (Hr s Er) as (logical & payload & reply & Esteps & Hrep & Hst).
    destruct Hst as (Eq & Ed & Em & Ep & _ & _ & Ef & now & Epay).
    rewrite Esteps in Hs. unfold steps_of, publication_step in Hs. cbn in Hs.
    inversion Hs as [|? ? ? ? Hs1| | | |]; subst. inversion Hs1 as [| |? ? Hs2| | |]; subst.
    inversion Hs2 as [| | |? ? ? ? Hs3| |]; subst.
    inversion Hs3 as [| | | |? ? ? ? held ? ? Hh Hs4|]; subst.
    inversion Hs4; subst. rewrite Hh by done.
    exists logical, now, (write_mode_value (out_write_mode (q_output (pq_request prepared)))), reply.
    rewrite <- Ef, Ed, Em. done.
Qed.

(** Operations of the service that leave queue, file and log alone. *)
Definition quiet_op {X} (o : sop R X) : Prop :=
  match o with
  | EngineExecute _ _ | EngineExplain _ _ | EngineInspect _ | EngineCancel _ | EnginePing
  | EngineClose => False
  | _ => True
  end.

Definition served (x : AttemptContext) : Effects (sop R) node :=
  carried (fun X o => service_op parse storage data_root max_inline_bytes csv_line cc worker_id x o).

Section attempt.
Context (x : AttemptContext).
#[local] Instance served_here : Effects (sop R) node := served x.

Lemma quiet_effect X (o : sop R X) t (Q : X -> node -> Prop) :
  quiet_op o -> (forall r, Q r t) -> effect o t Q.
Proof using Type.
  intros Ho HQ. destruct o; try done; cbn; try (intros r; by exists r); eauto.
Qed.

Lemma wp_quiet {A} (p : prog (sop R) A) t : every (@quiet_op) p -> wp p t (fun _ t' => t' = t).
Proof using Type.
  induction p as [a|e|X o k IH]; [done..|]. intros [Ho Hk]. apply quiet_effect; [done|].
  intros r. by apply IH.
Qed.

(** A quiet program before or after others. *)
Lemma wp_bind_quiet {A B} (p : prog (sop R) A) (f : A -> prog (sop R) B) t
    (Q : result exn B -> node -> Prop) :
  every (@quiet_op) p -> (forall a, wp (f a) t Q) -> (forall e, Q (Err e) t) -> wp (bind p f) t Q.
Proof using Type.
  intros Hp Hf He. apply wp_bind. eapply wp_mono; [|by apply wp_quiet].
  intros [a|e] t' ->; [apply Hf|apply He].
Qed.

Abbreviation good t := (stored_is_published x (n_log t)).

Definition unstored (r : result exn (QueryResult R)) : Prop :=
  match r with Ok (RStored _) => False | _ => True end.

Lemma good_log_weaken t r r' t1 : good t r t1 -> unstored r' -> good t r' t1.
Proof using Type. intros (es & El & Hn & _) Hu. exists es. split_and!; [done..|]. by intros s ->. Qed.

Lemma good_start t r : unstored r -> good t r t.
Proof using Type. intros Hu. exists []. rewrite app_nil_r. split_and!; [done|done|]. by intros s ->. Qed.

Ltac unstored :=
  intros; first [apply good_start; exact I | eapply good_log_weaken; [eassumption|exact I]].

(** A quiet [finally]. *)
Lemma wp_finally_quiet {A} (p : prog (sop R) A) (f : prog (sop R) unit) t
    (Q : result exn A -> node -> Prop) :
  every (@quiet_op) f -> (forall r e t1, Q r t1 -> Q (Err e) t1) -> wp p t Q -> wp (try_finally p f) t Q.
Proof using Type.
  intros Hf He Hp. apply wp_try_finally. eapply wp_mono; [|exact Hp]. intros r t1 HQ.
  eapply wp_mono; [|by apply wp_quiet]. intros [[]|e] t2 ->; [done|by eapply He].
Qed.

Lemma run_engine_publishes prepared ctx ttl flight t :
  of_attempt x ctx -> wp (run_engine prepared ctx ttl flight) t (good t).
Proof using Hc Hkeys.
  intros Hctx. unfold run_engine.
  apply wp_finally_quiet; [destruct flight as [[]|]; every_op|unstored|].
  apply wp_bind, wp_invoke. eapply carried_mono; [|by apply engine_execute_publishes].
  intros [[v|s]|e] t1 Hr; [|exact Hr|unstored].
  apply wp_bind_quiet; [by every_op| |unstored]. intros bytes.
  apply wp_bind_quiet; [by every_op| |unstored]. intros _.
  destruct flight as [[]|]; [|unstored].
  apply wp_bind_quiet; [by every_op| |unstored]. unstored.
Qed.

Lemma single_flight_publishes key prepared ctx ttl t :
  of_attempt x ctx -> wp (single_flight scfg key prepared ctx ttl) t (good t).
Proof using Hc Hkeys.
  intros Hctx. unfold single_flight. cbv zeta.
  apply wp_bind_quiet; [by every_op| |unstored]. intros [token|].
  { by apply run_engine_publishes. }
  apply wp_bind_quiet; [by every_op| |unstored]. intros [v|].
  { apply wp_bind_quiet; [by every_op| |unstored]. unstored. }
  apply wp_bind_quiet; [by every_op| |unstored]. intros [token|]; [|unstored].
  by apply run_engine_publishes.
Qed.

Lemma admitted_publishes request sql ctx t :
  of_attempt x ctx -> wp (_execute_admitted normalize scfg request sql ctx) t (good t).
Proof using Hc Hkeys.
  intros Hctx. unfold _execute_admitted.
  apply wp_bind_quiet; [by every_op| |unstored]. intros ttl.
  apply wp_bind_quiet; [by every_op| |unstored]. intros prepared.
  destruct (_ && _); [|by apply run_engine_publishes].
  apply wp_bind_quiet; [by every_op| |unstored]. intros key.
  apply wp_bind_quiet; [unfold _cache_get; by every_op| |unstored].
  intros [v|]; [unstored|]. by apply single_flight_publishes.
Qed.

(** The whole of [QueryService.execute], called with the worker's context. *)
Lemma service_publishes request t :
  wp (Service.execute normalize scfg request (Some (context_of x))) t (good t).
Proof using Hc Hkeys.
  unfold Service.execute.
  apply wp_bind_quiet; [by every_op| |unstored]. intros sql. unfold _context.
  apply wp_bind. destruct (_timeout scfg request) as [timeout|e]; [|unstored]. cbn [lift bind wp].
  set (ctx := Context _ _ _ _ _ _). assert (Hctx : of_attempt x ctx) by (by exists timeout).
  apply wp_bind_quiet; [unfold _record; by every_op| |unstored]. intros _.
  assert (Hend : forall p : prog (sop R) unit, every (@quiet_op) p -> forall r t1, good t (Ok r) t1 ->
            wp (p;; Ret r)%prog t1 (good t)).
  { intros p Hp r t1 Hg. apply wp_bind_quiet; [done|by intros|unstored]. }
  apply wp_bind, wp_try_except. eapply wp_mono with (Q1 := good t).
  { intros [r|e] t1 Hg.
    - apply Hend; [unfold _update; by every_op|exact Hg].
    - apply wp_bind_quiet; [unfold update_failed, _update; by every_op| |unstored].
      unstored. }
  unfold with_slot, try_acquire.
  apply wp_bind_quiet; [by every_op| |unstored]. intros [|]; [|unstored].
  apply wp_finally_quiet; [by every_op|unstored|]. unfold query_timer.
  apply wp_bind_quiet; [by every_op| |unstored]. intros _.
  apply wp_finally_quiet; [by every_op|unstored|]. by apply admitted_publishes.
Qed.
End attempt.

(** ** The worker's cycle and the log *)

#[local] Instance worked : Effects (wop (QueryResult R)) node :=
  carried (fun X o => worker_op normalize scfg parse storage data_root max_inline_bytes csv_line cc
                        worker_id o).

Lemma wp_queue {A} (p : prog (qop (QueryResult R)) A) t (Q : result exn A -> node -> Prop) :
  wp p t Q -> wp (on_queue p) t Q.
Proof using Type.
  revert t. induction p as [a|e|X o k IH]; intros t Hp; [done..|]. cbn in *.
  eapply queue_effect_mono; [|exact Hp]. intros r t' HQ. exists r. split; [done|]. by apply IH.
Qed.

(** A queue method that neither publishes nor completes keeps what is known of
    the log. *)
Lemma wp_quiet_method {A B} (p : prog (qop (QueryResult R)) A) (f : A -> prog (wop (QueryResult R)) B)
    t (L : list event -> Prop) :
  avoids p -> wp p (n_world t) (fun _ _ => True) -> L (n_log t) ->
  (forall a t', L (n_log t') -> wp (f a) t' (fun _ t'' => L (n_log t''))) ->
  wp (bind (on_queue p) f) t (fun _ t' => L (n_log t')).
Proof using Type.
  intros Ha Hp Ht Hf. apply wp_bind, wp_queue. eapply wp_mono; [|by apply wp_silent].
  intros [a|e] t' (El & _ & _); rewrite <- El in Ht; [by apply Hf|done].
Qed.

(** What a settled attempt adds to the log: its completion, or nothing. *)
Definition settled (job : ReservedJob) (outcome : result exn (QueryResult R))
    (before log : list event) : Prop :=
  log = before
  \/ exists res reply, outcome = Ok res
     /\ log = before ++ [EvComplete (rj_id job) worker_id (dump_result res) reply].

Lemma wp_completion job res t (f : bool -> prog (wop (QueryResult R)) unit) (L : list event -> Prop) :
  (forall reply, L (n_log t ++ [EvComplete (rj_id job) worker_id (dump_result res) reply])) ->
  (forall b t', L (n_log t') -> wp (f b) t' (fun _ t'' => L (n_log t''))) ->
  wp (bind (on_queue (complete (rj_id job) worker_id res)) f) t (fun _ t' => L (n_log t')).
Proof using Type.
  intros HL Hf. apply wp_bind, wp_queue. unfold complete. apply wp_bind. intros now _.
  apply wp_bind. intros w1 Ho Hi. split; [by split|]. split; [done|]. cbn [wp].
  destruct (decide _).
  - apply wp_bind. intros r. apply Hf, HL.
  - apply Hf, HL.
Qed.

Ltac quiet_method :=
  apply wp_quiet_method;
  [ first [apply cancel_requested_avoids|apply cancel_complete_avoids|apply owns_avoids|apply fail_avoids]
  | first [by apply wp_cancel_requested|by eapply wp_cancel_complete|by apply wp_owns|by eapply wp_fail]
  | assumption
  | ].

Ltac say := by exists tt.

Lemma settle_logs job outcome t :
  wp (settle cc job worker_id outcome) t (fun _ t' => settled job outcome (n_log t) (n_log t')).
Proof using Hc.
  unfold settle. apply wp_bind. exists tt. split; [done|]. cbn [wp].
  assert (Ht : settled job outcome (n_log t) (n_log t)) by by left.
  destruct outcome as [res|e].
  - unfold on_result. apply wp_bind, wp_queue.
    eapply wp_mono; [|apply (wp_silent _ _ (fun _ _ => True));
                      [apply cancel_requested_avoids|by apply wp_cancel_requested]].
    intros r t1 (El & _ & _).
    assert (Ht1 : settled job (Ok res) (n_log t) (n_log t1)) by by left.
    destruct r as [[]|e]; [| |done].
    { quiet_method. intros [] t2 Hl2; [say|done]. }
    apply wp_completion.
    { intros reply. right. exists res, reply. by rewrite El. }
    intros [] t2 Hl2; [say|]. quiet_method. intros [] t3 Hl3; [|done].
    quiet_method. intros [] t4 Hl4; [say|done].
  - destruct (isinstance e QueryCancelled); [|destruct (isinstance e CommitFenced)].
    + unfold on_cancelled. quiet_method. intros [] t1 Hl1; quiet_method; intros [] t2 Hl2; try say.
      * quiet_method. intros ? t3 Hl3. say.
      * done.
    + unfold on_fenced. quiet_method. intros [] t1 Hl1; [|done]. quiet_method. intros [] t2 Hl2; [say|done].
    + unfold on_error. quiet_method. intros [] t1 Hl1; [|done]. quiet_method. by intros ? t2 Hl2.
Qed.

(** What a cycle adds to the log: the steps of its attempt, which end with the
    completion of the job where there is one; those of a stored result are its
    publication. *)
Definition accounted (before log : list event) : Prop :=
  exists es, Forall (fun e => is_complete e = false) es
    /\ (log = before ++ es
        \/ exists x res reply,
             log = before ++ es ++ [EvComplete (ac_query_id x) worker_id (dump_result res) reply]
             /\ forall s, res = RStored s -> published_by x s es).

Lemma execution_logs job x t :
  ac_query_id x = rj_id job ->
  wp (outcome <- perform (Worker.Execute (rj_request job) x);;
      settle cc job worker_id outcome;; Ret true)%prog t (fun _ t' => accounted (n_log t) (n_log t')).
Proof using Hc Hkeys.
  intros Ex. apply wp_bind, wp_attempt, wp_carried.
  eapply wp_mono; [|apply service_publishes]. intros outcome t1 (es & El & Hn & Hs).
  exists outcome. split; [done|]. apply wp_bind.
  eapply wp_mono; [|apply settle_logs]. intros r t2 Ht2.
  cut (accounted (n_log t) (n_log t2)); [by destruct r|]. exists es. split; [done|].
  destruct Ht2 as [->|(res & reply & -> & ->)]; [by left|]. right. exists x, res, reply.
  rewrite El, Ex, app_assoc. split; [done|]. intros s ->. by apply Hs.
Qed.

Lemma node_cycle_logs shard t :
  wp (node_cycle normalize scfg parse storage data_root max_inline_bytes csv_line cc worker_id shard) t
    (fun _ t' => accounted (n_log t) (n_log t')).
Proof using Hc Hkeys.
  apply wp_carried. unfold work_once.
  assert (Ht : accounted (n_log t) (n_log t)) by (exists []; rewrite app_nil_r; auto).
  apply wp_bind, wp_queue.
  eapply wp_mono; [|apply (wp_silent _ _ (fun _ _ => True)); [apply reserve_avoids|by eapply wp_reserve]].
  intros r t1 (El & _ & _). rewrite <- El in *. destruct r as [[job|]|e]; [|done|done].
  apply wp_bind. exists tt. split; [done|]. cbn [wp]. apply wp_bind. intros hex.
  exists hex. split; [done|]. cbn [wp]. by apply execution_logs.
Qed.

(** C32: A stored result is complete before its job is, through all the layers.
    One cycle of the worker, with the service and the engine it drives, among any
    other clients of the queue and whatever Spark and the file system answer,
    completes at most one job, as the last thing it does.  If it completes it with
    a stored result, then what the attempt did before is exactly this: it wrote the
    result's data, then the manifest that describes them, and then published the
    manifest under its destination's key, under the job's id and this attempt's;
    the queue accepted the publication while the worker held this attempt of the
    job, and the destination's record then named it.  The cycle keeps the queue's
    invariant and moves the queue only by legal steps. *)
Theorem stored_jobs_were_published shard t r t' :
  world_inv c (n_world t) ->
  node_exec c (node_cycle normalize scfg parse storage data_root max_inline_bytes csv_line cc worker_id
                 shard) t r t' ->
  accounted (n_log t) (n_log t') /\ world_inv c (n_world t') /\ legal_move c (n_world t) (n_world t').
Proof using Hc Hkeys.
  intros Hi He. by apply (wp_node c Hc _ _ _ _ _ Hi (node_cycle_logs shard t) He).
Qed.

End composed.

(** ** The theorem at work *)

Module NodeDemo.
#[local] Existing Instance SparkDemo.files.
#[local] Existing Instance ClientDemo.sha.

#[export] Instance codec : QueueCodec (QueryResult string) := {|
  dump_request r := q_sql r;
  load_request s := Ok (MkRequest s [] SparkDemo.stored None None None);
  dump_result r := match r with RStored s => st_path s | RInline _ => "inline" end;
  load_result s := raise PyValueError "not read";
|}.

Definition service : service_cfg := ServiceCfg 0 100 1000 2 60 3600 1 60.

(** One worker alone, whose services all answer. *)
Definition answer_queue {X} (o : qop (QueryResult string) X) (t : node) : X * node :=
  match o in qop _ Y return Y * node with
  | QCall call =>
      let q := w_queue (n_world t) in
      ((spec_call ClientDemo.cfg call q).1,
       NodeState (after ClientDemo.cfg call (n_world t)) (n_file t) (n_log t ++ observed call q))
  | o => let r := ClientDemo.lone ClientDemo.cfg 2000 1 o (n_world t) in (r.1, with_world r.2 t)
  end.

Definition answer_worker {X} (o : wop (QueryResult string) X) (t : node) : X * node :=
  match o in wop _ Y return Y * node with
  | Queue o => answer_queue o t
  | Worker.Execute _ _ => (raise PyOSError "never asked", t)
  | CancelQuery _ => (Ok tt, t)
  | UuidHex => ("0a", t)
  | StartHeartbeat _ | StopHeartbeat _ | JobOutcome _ => (tt, t)
  end.

Definition answer_service {X} (o : sop string X) (t : node) : X * node :=
  (match o in sop _ Y return Y with
   | TryAcquire => true
   | ReleaseSlot => tt
   | NewIds => ("i", "j")
   | NextRow => Ok None
   | CacheGet _ => Ok None
   | CacheSet _ _ _ => Ok true
   | CacheAcquire _ _ => Ok None
   | CacheWait _ _ => Ok None
   | EngineExecute _ _ => raise PyOSError ""
   | Prepare _ _ => raise PyOSError ""
   | EngineStream _ _ | EngineExplain _ _ => Ok ""
   | EngineInspect _ => raise PyOSError ""
   | EnginePing | CachePing => Ok true
   | RecordInvocation _ _ _ | UpdateInvocation _ _ _ _ _ | EngineCancel _ | EngineClose
   | CacheRelease _ _ | CacheClose => Ok tt
   | Yield _ | Measure _ => tt
   | InlineBytes _ => 0
   end, t).

Definition answer_spark {X} (o : eop string X) (t : node) : X * node :=
  match o in eop _ Y return Y * node with
  | WriteData f _ uri => (Ok tt, logged [EvData f uri] t)
  | CreateFile _ _ => (Ok tt, set_open "" t)
  | WriteBytes _ payload => (Ok tt, set_open payload t)
  | CloseFile uri => (Ok tt, logged [EvManifest uri (n_file t)] t)
  | DatasetHits => (0, t)
  | GetOrLoad _ _ => (Ok ("v", true), t)
  | ViewOfGlobal _ _ | ViewOfRead _ _ | Sql _ | PersistRead _ | CreateGlobalView _ | Unpersist _
  | DropGlobalView _ | HadoopPath _ | Mkdirs _ | CancelJobGroup _ | StopSession => (Ok tt, t)
  | CountDataset _ | SetJobGroup _ | StartTimer _ _ | StopTimer | ClearJobGroup | Chunk _ => (tt, t)
  | TimedOut => (false, t)
  | NextJson _ | StreamText => (Ok None, t)
  | StreamCells => (Ok None, t)
  | Columns => (Ok [], t)
  | Plan => (Ok "", t)
  | Partitions => (Ok 1, t)
  | CanCommit | PublishSync _ _ _ _ _ | IsStopped => (Ok true, t)
  | NowIso => ("now", t)
  | ParentPath _ => (Ok None, t)
  | PublishOutput _ _ _ => (Ok 1, t)
  | ClearDatasets => ([], t)
  | SchemaOf _ => (Ok [], t)
  end.

Definition answer {X} (o : nop string X) (t : node) : X * node :=
  match o in nop _ Y return Y * node with
  | NWorker o => answer_worker o t
  | NService o => answer_service o t
  | NSpark o => answer_spark o t
  end.

Definition cycle : prog (nop string) bool :=
  node_cycle (fun s _ => Ok s) service (fun s => Ok s) SparkDemo.registry "/data" 1000 (fun _ => "")
    ClientDemo.client "w1" 1.

Definition start : node := NodeState ClientDemo.queued "" [].

Lemma answer_step X (o : nop string X) t :
  node_step ClientDemo.cfg X o t (answer o t).1 (answer o t).2.
Proof.
  destruct o as [X [Y o| | | | | |]|X o|X o]; try done.
  - destruct o; cbn; eexists; (split; [|done]);
      first [done | apply rtc_refl | split; [apply is_fresh|done]
            | split; [apply ClientDemo.jitter_one|done]].
  - destruct o; try done. cbn. eauto.
Qed.

Lemma cycle_runs :
  node_exec ClientDemo.cfg cycle start (run (@answer) cycle start).1 (run (@answer) cycle start).2.
Proof. apply run_execution, answer_step. Qed.

Lemma keys_outside logical :
  outside_key ClientDemo.cfg (publication_key SparkDemo.registry logical).
Proof. by split; intros id E. Qed.
End NodeDemo.

(** The job is run: data, manifest, publication, completion. *)
Lemma stored_jobs_were_published_witness
    (F := SparkDemo.files) (S := ClientDemo.sha) (C := NodeDemo.codec)
    (final := (run (@NodeDemo.answer) NodeDemo.cycle NodeDemo.start).2) :
  length (n_log final) = 4%nat
  /\ accounted SparkDemo.registry "w1" [] (n_log final)
  /\ world_inv ClientDemo.cfg (n_world final)
  /\ legal_move ClientDemo.cfg ClientDemo.queued (n_world final).
Proof.
  split; [vm_compute; reflexivity|].
  exact (stored_jobs_were_published (fun s _ => Ok s) NodeDemo.service (fun s => Ok s) SparkDemo.registry
           "/data" 1000 (fun _ => "") ClientDemo.client "w1" ClientDemo.demo_cfg_ok NodeDemo.keys_outside
           1 NodeDemo.start _ _ ClientDemo.queued_inv NodeDemo.cycle_runs).
Defined.
