(* ===== verification/Metadata.v ===== *)
(** * The metadata store

    src/src/dalmatian/metadata.py: the two tables of the metadata database as maps
    from their primary keys, the rows as maps from column names to cells (an absent
    column is NULL), the operations of [SqlMetadataStore] one transaction each, and
    the null store; with the commands of admin.py that change the storage
    locations.  Times are whole microseconds; a duration is computed exactly, where
    Python's doubles can lose a millisecond.  JSON texts are read by a parameter,
    [loads], and an inline result is measured by its text, [dump_inline].  The output
    of a request is bound as its text says, whatever its JSON type: what that leaves
    in a text column is the database's business, the parameter [Driver].  Errors of
    the connection and lengths of the other columns are not modelled. *)

From S2P Require Import Prelude Models Fingerprint Storage.

#[local] Open Scope Z_scope.

(** ** Cells, columns, rows *)

Inductive cell :=
| VText (s : string)
| VInt (z : Z)
| VBool (b : bool)
| VTime (t : Z).

Inductive column_type := TText | TInt | TBool | TTime.

Definition cell_type (v : cell) : column_type :=
  match v with VText _ => TText | VInt _ => TInt | VBool _ => TBool | VTime _ => TTime end.

#[export] Instance column_type_eq_dec : EqDecision column_type.
Proof. solve_decision. Defined.

Abbreviation row := (gmap string cell).

Record column := Col { col_name : string; col_type : column_type; col_not_null : bool }.

(** [Table("dalmatian_invocations", ...)], without the primary key. *)
Definition invocation_columns : list column :=
  [Col "kind" TText true; Col "status" TText true; Col "attempts" TInt true;
   Col "request_json" TText true; Col "output_mode" TText false; Col "output_format" TText false;
   Col "output_location" TText false; Col "output_path" TText false; Col "cached" TBool false;
   Col "rows_returned" TInt false; Col "bytes_returned" TInt false; Col "truncated" TBool false;
   Col "manifest_uri" TText false; Col "data_uri" TText false;
   Col "source_versions_json" TText false; Col "error_class" TText false;
   Col "error_message" TText false; Col "created_at" TTime true; Col "started_at" TTime false;
   Col "finished_at" TTime false; Col "duration_ms" TInt false; Col "updated_at" TTime true].

Record location_row := LocationRow { lr_uri : string; lr_created_at : Z; lr_updated_at : Z }.

Record database := Database {
  invocations : gmap string row;
  location_rows : gmap string location_row;
}.

Definition empty_database : database := Database ∅ ∅.

(** A Python dict of column values, later entries over earlier ones. *)
Definition values := list (string * cell).

(** [UPDATE ... SET]: the values are written over the row. *)
Definition write_values (vs : values) (r : row) : row := foldl (fun r p => <[p.1 := p.2]> r) r vs.

Definition opt_value (name : string) (v : option cell) : values :=
  match v with Some v => [(name, v)] | None => [] end.

Definition IntegrityError : exn_class := Derived "IntegrityError" (Derived "DBAPIError" PyException).
Definition AttributeError : exn_class := Derived "AttributeError" PyException.

(** [json.dumps(d, sort_keys=True)] of a dict of texts: with spaces. *)
Definition dumps_dict (d : list (string * string)) : string :=
  "{" +:+ join ", " (map (fun p => quote p.1 +:+ ": " +:+ quote p.2) (sort_keys d)) +:+ "}".

(** What SQLAlchemy and the database store in a text column for a JSON value that
    the code binds as it is: a cell, NULL, or an error (a list or an object is not
    bindable; a text may be longer than the column).  Not code of this repository,
    so a parameter with the laws below. *)
Class Driver := bind_text : string -> json -> result exn (option cell).

(** None is NULL, and what a text column holds is a text. *)
Class DriverLaws (D : Driver) : Prop := {
  bind_null : forall name, bind_text name JNull = Ok None;
  bind_is_text : forall name j v, bind_text name j = Ok (Some v) -> exists s, v = VText s;
}.

(** ** What the store promises *)

Section store.
Context {R : Type} `{Driver}.

Class MetadataStore (S : Type) := {
  (* the time is the clock's; a failing call leaves the store as it was *)
  record_invocation : string -> string -> string -> Z -> S -> result exn unit * S;
  update_invocation : string -> string -> option (QueryResult R) -> option string ->
    option string -> option Z -> Z -> S -> result exn unit * S;
  storage_location : string -> S -> option string;
  storage_locations : S -> gmap string string;
  put_storage_location : string -> string -> Z -> S -> S;
  delete_storage_location : string -> S -> S;
}.

(** [NullMetadataStore]. *)
#[export] Instance null_store : MetadataStore unit := {
  record_invocation _ _ _ _ s := (Ok tt, s);
  update_invocation _ _ _ _ _ _ _ s := (Ok tt, s);
  storage_location _ _ := None;
  storage_locations _ := ∅;
  put_storage_location _ _ _ s := s;
  delete_storage_location _ s := s;
}.

(** ** The SQL store *)

Context (loads : string -> result exn json) (dump_inline : InlineResult R -> string).

(** [d.get(key)]: the last pair of a key wins. *)
Definition json_get (key : string) (fields : list (string * json)) : option json :=
  snd <$> (snd <$> list_find (fun p => p.1 = key) (rev fields)).

(** [value or {}] and then [.get]: null, false, 0, "" and [] are falsy. *)
Definition falsy (j : json) : bool :=
  match j with
  | JNull | JBool false | JArr [] | JObj [] => true
  | JInt z => z =? 0
  | JStr s => bool_decide (s = "")
  | _ => false
  end.

(** The value of a text column, bound; no value, and null, are NULL. *)
Definition bound (name : string) (j : option json) : result exn values :=
  match j with
  | None => Ok []
  | Some j => r_bind (bind_text name j) (fun v => Ok (opt_value name v))
  end.

(** [d.get(key, default)]: the default stands for an absent key only. *)
Definition default_text (d : string) (j : option json) : option json :=
  match j with None => Some (JStr d) | Some j => Some j end.

(** The output of a request, as a dict. *)
Definition request_output (request_json : string) : result exn (list (string * json)) :=
  r_bind (loads request_json) (fun request =>
  match request with
  | JObj fields =>
      match json_get "output" fields with
      | None => Ok []
      | Some (JObj output) => Ok output
      | Some j => if falsy j then Ok [] else raise AttributeError "'get'"
      end
  | _ => raise AttributeError "'get'"
  end).

(** The values of the INSERT; binding them can fail. *)
Definition new_invocation (kind request_json : string) (output : list (string * json)) (now : Z)
  : result exn row :=
  r_bind (bound "output_mode" (default_text "inline" (json_get "mode" output))) (fun mode =>
  r_bind (bound "output_format" (default_text "json" (json_get "format" output))) (fun format =>
  r_bind (bound "output_location" (json_get "location" output)) (fun location =>
  r_bind (bound "output_path" (json_get "path" output)) (fun path =>
  Ok (write_values
    ([("kind", VText kind);
      ("status", VText (if decide (kind = "async") then "queued" else "running"));
      ("attempts", VInt 0); ("request_json", VText request_json)]
     ++ mode ++ format ++ location ++ path
     ++ [("created_at", VTime now)]
     ++ (if decide (kind = "sync") then [("started_at", VTime now)] else [])
     ++ [("updated_at", VTime now)]) ∅))))).

(** Nothing is written when a value cannot be bound; an INSERT of an id that is
    there violates the primary key. *)
Definition sql_record_invocation (id kind request_json : string) (now : Z) (db : database)
  : result exn unit * database :=
  match r_bind (request_output request_json) (fun output =>
          new_invocation kind request_json output now) with
  | Err e => (Err e, db)
  | Ok r =>
      match invocations db !! id with
      | Some _ => (raise IntegrityError "UNIQUE constraint failed", db)
      | None => (Ok tt, Database (<[id := r]> (invocations db)) (location_rows db))
      end
  end.

Definition _result_values (r : QueryResult R) : values :=
  match r with
  | RInline v =>
      [("cached", VBool (in_cached v)); ("rows_returned", VInt (Z.of_nat (length (in_rows v))));
       ("bytes_returned", VInt (Z.of_nat (String.length (dump_inline v))));
       ("truncated", VBool (in_truncated v)); ("output_mode", VText "inline");
       ("output_format", VText "json")]
  | RStored s =>
      [("output_mode", VText "store"); ("output_format", VText (output_format_value (st_format s)));
       ("output_location", VText (st_location s)); ("output_path", VText (st_path s));
       ("manifest_uri", VText (st_manifest_uri s)); ("data_uri", VText (st_data_uri s));
       ("source_versions_json", VText (dumps_dict (st_source_versions s)))]
  end.

Definition final_status (status : string) : bool :=
  bool_decide (status ∈ ["succeeded"; "failed"; "cancelled"]).

Definition update_values (status : string) (res : option (QueryResult R))
    (error error_class : option string) (attempts : option Z) (now : Z) : values :=
  [("status", VText status); ("updated_at", VTime now)]
  ++ match res with Some r => _result_values r | None => [] end
  ++ opt_value "error_message" (VText <$> error)
  ++ opt_value "error_class" (VText <$> error_class)
  ++ opt_value "attempts" (VInt <$> attempts)
  ++ (if decide (status = "running") then [("started_at", VTime now)] else [])
  ++ (if final_status status then [("finished_at", VTime now)] else []).

(** The duration of a finished invocation that had started, in milliseconds. *)
Definition duration (status : string) (started : option cell) (now : Z) : values :=
  match started with
  | Some (VTime t) =>
      if final_status status then [("duration_ms", VInt (Z.max 0 (Z.quot (now - t) 1000)))] else []
  | _ => []
  end.

(** An UPDATE of an id that is not there changes nothing. *)
Definition sql_update_invocation (id status : string) (res : option (QueryResult R))
    (error error_class : option string) (attempts : option Z) (now : Z) (db : database)
  : result exn unit * database :=
  let started := match invocations db !! id with Some r => r !! "started_at" | None => None end in
  let vs := update_values status res error error_class attempts now
            ++ duration status started now in
  (Ok tt, Database (alter (write_values vs) id (invocations db)) (location_rows db)).

Definition sql_storage_location (name : string) (db : database) : option string :=
  lr_uri <$> location_rows db !! name.

Definition sql_storage_locations (db : database) : gmap string string :=
  lr_uri <$> location_rows db.

Definition sql_put_storage_location (name uri : string) (now : Z) (db : database) : database :=
  let r := match location_rows db !! name with
           | Some old => LocationRow uri (lr_created_at old) now
           | None => LocationRow uri now now
           end in
  Database (invocations db) (<[name := r]> (location_rows db)).

Definition sql_delete_storage_location (name : string) (db : database) : database :=
  Database (invocations db) (delete name (location_rows db)).

Definition sql_store : MetadataStore database := {|
  record_invocation := sql_record_invocation;
  update_invocation := sql_update_invocation;
  storage_location := sql_storage_location;
  storage_locations := sql_storage_locations;
  put_storage_location := sql_put_storage_location;
  delete_storage_location := sql_delete_storage_location;
|}.

(** [head] is the newest migration, [current] the one the database is at. *)
Definition _assert_schema_current (head current : option string) : result exn unit :=
  if decide (current = head) then Ok tt
  else raise MetadataSchemaError
         "metadata database is not migrated; run 'dalmatian-admin metadata-upgrade'".

(** Without a URL there is no database; one that is behind is refused. *)
Definition build_metadata_store (url head current : option string) (db : database)
  : result exn (option database) :=
  match url with
  | None | Some EmptyString => Ok None
  | Some _ => r_bind (_assert_schema_current head current) (fun _ => Ok (Some db))
  end.

(** ** admin.py: the storage locations *)

Inductive command :=
| StorageAdd (name uri : string)
| StorageDelete (name : string)
| StorageList.

(** What is printed, one line per location. *)
Definition tab : string := String (Ascii.ascii_of_nat 9) EmptyString.

Definition run_command (cmd : command) (now : Z) (db : database)
  : result exn (list string) * database :=
  match cmd with
  | StorageAdd name uri =>
      match make_registry [(name, uri)] None [] None "dalmatian:outputs" with
      | Err e => (Err e, db)
      | Ok _ => (Ok [], sql_put_storage_location name uri now db)
      end
  | StorageDelete name => (Ok [], sql_delete_storage_location name db)
  | StorageList =>
      (Ok (map (fun p => p.1 +:+ tab +:+ p.2)
             (sort_keys (map_to_list (sql_storage_locations db)))), db)
  end.
End store.
Arguments MetadataStore R S : clear implicits.
