(* ===== verification/MetadataTheorems.v ===== *)
(** * What the metadata store promises

    Rows keep the declared column types and the facts recorded when the invocation
    was accepted; a finished invocation has its end and its duration; a location
    added on the command line is the one the registry resolves. *)

From S2P Require Import Prelude Models Fingerprint Storage Metadata.

#[local] Open Scope Z_scope.

(** ** Values over a row *)

Lemma write_values_app vs1 vs2 r : write_values (vs1 ++ vs2) r = write_values vs2 (write_values vs1 r).
Proof. apply foldl_app. Qed.

Lemma write_cons n v vs r : write_values ((n, v) :: vs) r = write_values vs (<[n := v]> r).
Proof. done. Qed.

Lemma write_other vs k r : k ∉ vs.*1 -> write_values vs r !! k = r !! k.
Proof.
  revert r. induction vs as [|[n v] vs IH]; intros r Hk; [done|].
  rewrite fmap_cons in Hk. apply not_elem_of_cons in Hk as [Hn Hk].
  rewrite write_cons, IH by done. by apply lookup_insert_ne.
Qed.

(** A property of single cells survives when the row and the values have it. *)
Lemma write_forall (P : string -> cell -> Prop) vs r :
  map_Forall P r -> Forall (fun p => P p.1 p.2) vs -> map_Forall P (write_values vs r).
Proof.
  revert r. induction vs as [|[n v] vs IH]; intros r Hr Hvs; [done|].
  apply Forall_cons in Hvs as [Hv Hvs]. apply IH; [by apply map_Forall_insert_2|done].
Qed.

Lemma write_keeps vs k r : is_Some (r !! k) -> is_Some (write_values vs r !! k).
Proof.
  revert r. induction vs as [|[n v] vs IH]; intros r Hr; [done|].
  rewrite write_cons. apply IH. destruct (decide (n = k)) as [->|?].
  - rewrite lookup_insert_eq. by eexists.
  - by rewrite lookup_insert_ne.
Qed.

(** The value a column is written with, if it is written. *)
Fixpoint written (k : string) (vs : values) : option cell :=
  match vs with
  | [] => None
  | (n, v) :: vs =>
      match written k vs with Some w => Some w | None => if decide (n = k) then Some v else None end
  end.

Lemma write_lookup vs k r :
  write_values vs r !! k = match written k vs with Some v => Some v | None => r !! k end.
Proof.
  revert r. induction vs as [|[n v] vs IH]; intros r; [done|].
  rewrite write_cons, IH. cbn [written]. destruct (written k vs) as [w|]; [done|].
  case_decide as Hn; [subst; by rewrite lookup_insert_eq|by rewrite lookup_insert_ne].
Qed.

Lemma written_app k vs1 vs2 :
  written k (vs1 ++ vs2) = match written k vs2 with Some v => Some v | None => written k vs1 end.
Proof.
  induction vs1 as [|[n v] vs1 IH]; cbn; [by destruct (written k vs2)|].
  rewrite IH. by destruct (written k vs2).
Qed.

Lemma written_opt k n v : written k (opt_value n v) = if decide (n = k) then v else None.
Proof. destruct v; cbn; by case_decide. Qed.

(** ** Well-typed rows *)

Definition find_column (name : string) : option column :=
  snd <$> list_find (fun c => col_name c = name) invocation_columns.

(** The cell has the type its column declares. *)
Definition cell_ok (name : string) (v : cell) : Prop :=
  col_type <$> find_column name = Some (cell_type v).

#[export] Instance cell_ok_dec name v : Decision (cell_ok name v).
Proof. unfold cell_ok. apply _. Defined.

Definition row_ok (r : row) : Prop :=
  map_Forall cell_ok r
  /\ forall c, c ∈ invocation_columns -> col_not_null c = true -> is_Some (r !! col_name c).

Definition required : list string := ["kind"; "status"; "attempts"; "request_json"; "created_at"; "updated_at"].

Lemma required_columns c : c ∈ invocation_columns -> col_not_null c = true -> col_name c ∈ required.
Proof.
  intros Hc Hn. unfold invocation_columns in Hc.
  repeat (apply elem_of_cons in Hc as [->|Hc]; [cbn in Hn; try discriminate; cbn; set_solver|]).
  by apply not_elem_of_nil in Hc.
Qed.

Lemma row_ok_write vs r :
  row_ok r -> Forall (fun p => cell_ok p.1 p.2) vs -> row_ok (write_values vs r).
Proof.
  intros [Ht Hn] Hvs. split; [by apply write_forall|]. intros c Hc Hnn.
  by apply write_keeps, Hn.
Qed.

(** Every value written to a column has its type. *)
Ltac typed := repeat first [apply Forall_nil_2 | apply Forall_cons_2; [by vm_compute|]
                           | apply Forall_app_2].

Lemma opt_typed name v (Hv : forall w, v = Some w -> cell_ok name w) :
  Forall (fun p => cell_ok p.1 p.2) (opt_value name v).
Proof. destruct v as [w|]; constructor; [by apply Hv|constructor]. Qed.

(** Membership in a list of names, decided. *)
Ltac listed := apply (bool_decide_unpack _); by vm_compute.

Section new_rows.
Context {D : Driver} {L : DriverLaws D}.

(** What the driver bound is typed, and goes to the column it was bound for. *)
Lemma bound_typed name j vs :
  col_type <$> find_column name = Some TText -> bound name j = Ok vs ->
  Forall (fun p => cell_ok p.1 p.2) vs /\ exists v, vs = opt_value name v.
Proof.
  intros Hn. destruct j as [j|]; cbn [bound]; [|intros [= <-]; split; [done|by exists None]].
  destruct (bind_text name j) as [v|e] eqn:Ev; [|done]. intros [= <-].
  split; [|by exists v]. apply opt_typed. intros w ->.
  by destruct (bind_is_text _ _ _ Ev) as [s ->].
Qed.

(** A new row: the values the code makes around the bound ones. *)
Lemma new_invocation_inv kind request output now r :
  new_invocation kind request output now = Ok r ->
  exists vs, Forall (fun p => cell_ok p.1 p.2) vs
    /\ (forall k, k ∉ ["output_mode"; "output_format"; "output_location"; "output_path"] ->
          written k vs = None)
    /\ r = write_values
         ([("kind", VText kind);
           ("status", VText (if decide (kind = "async") then "queued" else "running"));
           ("attempts", VInt 0); ("request_json", VText request)]
          ++ vs ++ [("created_at", VTime now)]
          ++ (if decide (kind = "sync") then [("started_at", VTime now)] else [])
          ++ [("updated_at", VTime now)]) ∅.
Proof.
  unfold new_invocation.
  destruct (bound "output_mode" _) as [m|] eqn:Em; [|done].
  destruct (bound "output_format" _) as [f|] eqn:Ef; [|done].
  destruct (bound "output_location" _) as [l|] eqn:El; [|done].
  destruct (bound "output_path" _) as [p|] eqn:Ep; [|done]. intros [= <-].
  apply bound_typed in Em as [Tm [vm ->]], Ef as [Tf [vf ->]], El as [Tl [vl ->]], Ep as [Tp [vp ->]];
    [|by vm_compute..].
  exists (opt_value "output_mode" vm ++ opt_value "output_format" vf
          ++ opt_value "output_location" vl ++ opt_value "output_path" vp). split; [by repeat apply Forall_app_2|].
  split; [|by rewrite <- !(assoc_L (++))].
  intros k Hk. rewrite !written_app, !written_opt.
  repeat (apply not_elem_of_cons in Hk as [? Hk]). by rewrite !decide_False by congruence.
Qed.

Lemma new_invocation_ok kind request output now r :
  new_invocation kind request output now = Ok r -> row_ok r.
Proof.
  intros (vs & Ht & Hw & ->)%new_invocation_inv. split.
  - apply write_forall; [apply map_Forall_empty|].
    repeat apply Forall_app_2; try done; try case_decide; typed.
  - intros c Hc Hn. pose proof (required_columns c Hc Hn) as Hr.
    rewrite write_lookup, !written_app. unfold required in Hr.
    repeat (apply elem_of_cons in Hr as [->|Hr]; [rewrite Hw by listed; case_decide; by eexists|]).
    by apply not_elem_of_nil in Hr.
Qed.
End new_rows.

Section rows.
Context {R : Type} (loads : string -> result exn json) (dump_inline : InlineResult R -> string).

Lemma result_values_typed res : Forall (fun p => cell_ok p.1 p.2) (_result_values dump_inline res).
Proof. destruct res; cbn; typed. Qed.

Lemma update_values_typed status res error error_class attempts now :
  Forall (fun p => cell_ok p.1 p.2)
    (update_values dump_inline status res error error_class attempts now).
Proof.
  unfold update_values.
  repeat apply Forall_app_2; typed; try (case_match; typed); try apply result_values_typed.
  all: apply opt_typed; intros w (? & _ & ->)%fmap_Some; by vm_compute.
Qed.

Lemma duration_typed status started now :
  Forall (fun p => cell_ok p.1 p.2) (duration status started now).
Proof. unfold duration. repeat case_match; typed. Qed.

(** ** What an update leaves in a row *)

Section update.
Context (status : string) (res : option (QueryResult R)) (error error_class : option string)
  (attempts : option Z) (now : Z) (started : option cell).

Let vs := update_values dump_inline status res error error_class attempts now
          ++ duration status started now.

Ltac by_cases := unfold vs, update_values, duration; rewrite !written_app, !written_opt;
  destruct res as [[]|], (decide (status = "running")), (final_status status), started as [[]|];
  reflexivity.

Lemma written_identity k : k ∈ ["kind"; "request_json"; "created_at"] -> written k vs = None.
Proof.
  intros Hk. repeat (apply elem_of_cons in Hk as [->|Hk]); [| | |by apply not_elem_of_nil in Hk];
    by_cases.
Qed.

Lemma written_status : written "status" vs = Some (VText status).
Proof. by_cases. Qed.

Lemma written_finished :
  written "finished_at" vs = if final_status status then Some (VTime now) else None.
Proof. by_cases. Qed.

Lemma written_started :
  written "started_at" vs = if decide (status = "running") then Some (VTime now) else None.
Proof. by_cases. Qed.

Lemma written_error : written "error_message" vs = VText <$> error.
Proof. destruct error; by_cases. Qed.

Lemma written_error_class : written "error_class" vs = VText <$> error_class.
Proof. destruct error_class; by_cases. Qed.

Lemma written_duration :
  written "duration_ms" vs
  = match started with
    | Some (VTime t) =>
        if final_status status then Some (VInt (Z.max 0 (Z.quot (now - t) 1000))) else None
    | _ => None
    end.
Proof. by_cases. Qed.
End update.
End rows.

(** ** Histories of calls *)

Section histories.
Context {R : Type} {D : Driver} {L : DriverLaws D}.
Context (loads : string -> result exn json) (dump_inline : InlineResult R -> string).

Inductive md_event :=
| Record_ (id kind request_json : string) (now : Z)
| Update (id status : string) (res : option (QueryResult R)) (error error_class : option string)
    (attempts : option Z) (now : Z)
| Command (cmd : command) (now : Z).

Definition md_step (db : database) (e : md_event) : database :=
  match e with
  | Record_ id kind request_json now => (sql_record_invocation loads id kind request_json now db).2
  | Update id status res error error_class attempts now =>
      (sql_update_invocation dump_inline id status res error error_class attempts now db).2
  | Command cmd now => (run_command cmd now db).2
  end.

Definition md_trace (es : list md_event) (db : database) : database := foldl md_step db es.

(** A finished invocation has its end, and its duration if it had started. *)
Definition finished_ok (r : row) : Prop :=
  forall status, r !! "status" = Some (VText status) ->
  status ∈ ["succeeded"; "failed"; "cancelled"] ->
  exists f, r !! "finished_at" = Some (VTime f)
  /\ forall t, r !! "started_at" = Some (VTime t) ->
     r !! "duration_ms" = Some (VInt (Z.max 0 (Z.quot (f - t) 1000))).

Definition good_row (r : row) : Prop := row_ok r /\ finished_ok r.

Definition identity : list string := ["kind"; "request_json"; "created_at"].

Definition good_database (db : database) : Prop := map_Forall (fun _ => good_row) (invocations db).

Lemma new_invocation_good kind request output now r :
  new_invocation kind request output now = Ok r -> good_row r.
Proof.
  intros E. split; [by eapply new_invocation_ok|].
  apply new_invocation_inv in E as (vs & _ & Hw & ->). intros status Hs Hf.
  rewrite write_lookup, !written_app, Hw in Hs by listed.
  destruct (decide (kind = "sync")), (decide (kind = "async"));
    vm_compute in Hs; injection Hs as <-; apply (bool_decide_pack _) in Hf; by vm_compute in Hf.
Qed.

Lemma updated_good r status res error error_class attempts now :
  good_row r ->
  good_row (write_values (update_values dump_inline status res error error_class attempts now
                          ++ duration status (r !! "started_at") now) r).
Proof.
  intros [Hr Hf]. split.
  - apply row_ok_write; [done|]. apply Forall_app_2; [apply update_values_typed|apply duration_typed].
  - intros st. rewrite !write_lookup, written_status, written_finished, written_started,
      written_duration. intros [= <-] Hfin. unfold final_status.
    rewrite bool_decide_true by done. exists now. split; [done|].
    intros t. rewrite decide_False by (intros ->; apply (bool_decide_pack _) in Hfin; by vm_compute in Hfin). intros ->. done.
Qed.

(** One call: the rows stay good, and the recorded facts stay. *)
Lemma step_good db e : good_database db -> good_database (md_step db e).
Proof.
  intros Hdb. destruct e as [id kind req now|id status res err cls att now|cmd now]; cbn [md_step].
  - unfold sql_record_invocation. destruct (request_output loads req); [|done]. cbn [r_bind].
    destruct (new_invocation kind req _ now) eqn:En; [|done].
    destruct (invocations db !! id); [done|]. apply map_Forall_insert_2; [|done].
    by eapply new_invocation_good.
  - intros i r. unfold sql_update_invocation. cbn [snd invocations]. intros Hr. apply lookup_alter_Some in Hr as [(<- & r0 & Hr0 & ->)|[_ Hr]].
    + rewrite Hr0. apply updated_good. by apply (Hdb id).
    + by apply (Hdb i).
  - unfold run_command. destruct cmd; cbn; [|done..]. by case_match.
Qed.

Lemma step_identity db e id r :
  invocations db !! id = Some r ->
  exists r', invocations (md_step db e) !! id = Some r'
    /\ forall k, k ∈ identity -> r' !! k = r !! k.
Proof.
  intros Hr. destruct e as [i kind req now|i status res err cls att now|cmd now]; cbn [md_step].
  - exists r. split; [|done]. unfold sql_record_invocation.
    destruct (r_bind _ _); [|done].
    destruct (invocations db !! i) eqn:Ei; [done|]. cbn. rewrite lookup_insert_ne; [done|congruence].
  - unfold sql_update_invocation. cbn [snd invocations]. destruct (decide (i = id)) as [->|Hne].
    + rewrite lookup_alter_eq, Hr. eexists. split; [done|]. intros k Hk.
      rewrite write_lookup, written_identity by done. done.
    + rewrite lookup_alter_ne by done. by exists r.
  - exists r. split; [|done]. unfold run_command. destruct cmd; cbn; [|done..]. by case_match.
Qed.

(** C33: Rows keep their types and their facts.  Whatever calls the service, the
    queue, the workers and an administrator make on the metadata database, in any
    order and with any arguments, every cell has the type its column declares and
    no column declared NOT NULL is empty; a row whose status is "succeeded",
    "failed" or "cancelled" has its end time and, if it had started, the whole milliseconds in between, never
    negative; no row disappears, and the kind, the request and the creation time
    recorded first never change.  (The text columns of the output hold what the
    database makes of the request's JSON: a text or NULL, or the call fails.) *)
Theorem invocations_stay_well_typed es db :
  good_database db ->
  good_database (md_trace es db)
  /\ forall id r, invocations db !! id = Some r ->
     exists r', invocations (md_trace es db) !! id = Some r'
       /\ forall k, k ∈ identity -> r' !! k = r !! k.
Proof.
  intros Hdb. split.
  - revert db Hdb. induction es as [|e es IH]; intros db Hdb; [done|]. by apply IH, step_good.
  - clear Hdb. revert db. induction es as [|e es IH]; intros db id r Hr; [by exists r|].
    destruct (step_identity db e id r Hr) as (r1 & Hr1 & E1).
    destruct (IH (md_step db e) id r1 Hr1) as (r2 & Hr2 & E2). exists r2. split; [done|].
    intros k Hk. by rewrite E2, E1.
Qed.
End histories.

(** ** Locations *)

Lemma put_location name uri now db :
  sql_storage_locations (sql_put_storage_location name uri now db)
  = <[name := uri]> (sql_storage_locations db).
Proof.
  unfold sql_put_storage_location, sql_storage_locations. cbn.
  destruct (location_rows db !! name); by rewrite fmap_insert.
Qed.

(** What the command line accepts, the registry resolves.  A location that
    storage-add accepts is stored as given, and every registry on that database in
    which no configured location has the name resolves it to the validated root,
    as a location of the database; one it refuses changes nothing.  Other names
    keep their locations, storage-list shows them, and storage-delete takes the
    location away again. *)
Theorem added_locations_resolve name uri now db prefix configured r db' :
  uri <> "" -> configured !! name = None ->
  run_command (StorageAdd name uri) now db = (r, db') ->
  let registry d := Registry configured ∅ (Some (sql_storage_locations d)) prefix in
  match r with
  | Err e => db' = db /\ exn_cls e = PyValueError
  | Ok _ =>
      (exists root, _validated_root name uri = Ok root
         /\ _root (registry db') name = Ok (root, "database"))
      /\ (forall other, other <> name ->
            sql_storage_location other db' = sql_storage_location other db)
      /\ forall later, _root (registry (run_command (StorageDelete name) later db').2) name
                       = raise UnknownStorageLocation ("unknown storage location: " +:+ name)
  end.
Proof.
  intros Hu Hc. unfold run_command, make_registry, validated_roots. cbn [r_bind].
  destruct (_validated_root name uri) as [root|e] eqn:Ev; cbn [r_bind]; intros [= <- <-].
  - split_and!.
    + exists root. split; [done|]. unfold _root. cbn [sr_configured sr_metadata].
      rewrite Hc, put_location. cbn [option_bind mbind]. rewrite lookup_insert_eq.
      destruct uri; [done|]. cbn. by rewrite Ev.
    + intros other Ho. unfold sql_storage_location, sql_put_storage_location. cbn.
      by rewrite lookup_insert_ne.
    + intros later. unfold _root. cbn. by rewrite Hc, lookup_fmap, lookup_delete_eq.
  - split; [done|]. unfold _validated_root in Ev. case_bool_decide; [done|]. by injection Ev as <-.
Qed.

(** ** The theorems at work *)

Module MetadataDemo.
(** SQLite's driver: a number in a text column is stored as its text, a list or an
    object cannot be bound. *)
#[export] Instance sqlite : Driver := fun _ j =>
  match j with
  | JStr s => Ok (Some (VText s))
  | JInt z => Ok (Some (VText (str_of_Z z)))
  | JBool b => Ok (Some (VText (if b then "1" else "0")))
  | JNull => Ok None
  | JArr _ | JObj _ => raise (Derived "InterfaceError" PyException) "type is not supported"
  end.

#[export] Instance sqlite_laws : DriverLaws sqlite.
Proof. split; [done|]. intros name [] v [= <-]; by eexists. Qed.

Definition loads (text : string) : result exn json :=
  if decide (text = "r") then Ok (JObj [("output", JObj [("mode", JStr "inline"); ("path", JInt 7)])])
  else if decide (text = "l") then Ok (JObj [("output", JObj [("path", JArr [])])])
  else raise PyValueError "bad json".

Definition calls : list (md_event (R := string)) :=
  [Record_ "q" "sync" "r" 1000;
   Update "q" "failed" None (Some "boom") (Some "ValueError") None 501000;
   Update "q" "running" None None None (Some 2) 502000;
   Update "q" "succeeded" (Some (RInline (MkInline (Some "q") ["a"] ["1"] false false))) None None None
     503000].

Definition db := md_trace loads (fun _ => "{}") calls empty_database.
End MetadataDemo.

#[local] Existing Instances MetadataDemo.sqlite MetadataDemo.sqlite_laws.

(** The output is bound as it is: a number is stored as its text, with a list there
    is no row at all. *)
Example outputs_are_bound_as_they_are :
  (fun r : row => (r !! "output_path", r !! "output_format")) <$> invocations MetadataDemo.db !! "q"
  = Some (Some (VText "7"), Some (VText "json"))
  /\ sql_record_invocation MetadataDemo.loads "p" "sync" "l" 5 empty_database
     = (raise (Derived "InterfaceError" PyException) "type is not supported", empty_database).
Proof. by vm_compute. Qed.

(** The error of a failed attempt stays in the row of a later success. *)
Example errors_outlive_success :
  (fun r : row => (r !! "status", r !! "error_message")) <$> invocations MetadataDemo.db !! "q"
  = Some (Some (VText "succeeded"), Some (VText "boom")).
Proof. by vm_compute. Qed.

Lemma invocations_stay_well_typed_witness :
  good_database MetadataDemo.db.
Proof.
  apply (invocations_stay_well_typed MetadataDemo.loads (fun _ => "{}") MetadataDemo.calls
           empty_database).
  by apply map_Forall_empty.
Defined.

Lemma added_locations_resolve_witness
    (db' := (run_command (StorageAdd "lake" "s3://b/x/") 5 empty_database).2) :
  exists root, _validated_root "lake" "s3://b/x/" = Ok root
    /\ _root (Registry ∅ ∅ (Some (sql_storage_locations db')) "p") "lake" = Ok (root, "database").
Proof.
  assert (E : run_command (StorageAdd "lake" "s3://b/x/") 5 empty_database = (Ok [], db'))
    by (by vm_compute).
  apply (added_locations_resolve "lake" "s3://b/x/" 5 empty_database "p" ∅ (Ok []) db');
    [discriminate|done|exact E].
Defined.
