(* ===== verification/Migrations.v ===== *)
(** * Migrations of the metadata database

    src/src/dalmatian/migrations/ and the parts of metadata.py and admin.py that run
    them: the statements of 0001_metadata as data, the environment that runs them
    (env.py) as a program over Alembic's context, the configuration Alembic is
    given, [upgrade_metadata], [current_metadata_revision], and [run] of admin.py
    with all its commands.  Alembic, the database and the rest of SQLAlchemy are
    parameters; Python's ConfigParser is modelled for what the configuration uses. *)

From Stdlib Require Import Ascii.
From S2P Require Import Prelude Models Prog Fingerprint Storage Metadata.

#[local] Open Scope Z_scope.

(** ** Statements *)

Inductive ddl_type :=
| SqlString (length : Z)
| SqlText
| SqlInteger
| SqlBigInteger
| SqlBoolean
| SqlDateTime (timezone : bool).

Record ddl_column := DdlColumn {
  dc_name : string;
  dc_type : ddl_type;
  dc_primary_key : bool;
  dc_nullable : bool;
  dc_server_default : option string;
}.

#[export] Instance ddl_type_eq_dec : EqDecision ddl_type.
Proof. solve_decision. Defined.
#[export] Instance ddl_column_eq_dec : EqDecision ddl_column.
Proof. solve_decision. Defined.

(** [sa.Column(name, type)], [nullable=False], [primary_key=True]. *)
Definition nullable (name : string) (t : ddl_type) : ddl_column := DdlColumn name t false true None.
Definition required (name : string) (t : ddl_type) : ddl_column := DdlColumn name t false false None.
Definition primary (name : string) (t : ddl_type) : ddl_column := DdlColumn name t true false None.

Definition timestamp : ddl_type := SqlDateTime true.

Inductive ddl :=
| CreateTable (name : string) (columns : list ddl_column)
| DropTable (name : string).

(** 0001_metadata.py *)
Definition upgrade : list ddl :=
  [CreateTable "dalmatian_invocations"
     [primary "id" (SqlString 64); required "kind" (SqlString 16); required "status" (SqlString 32);
      DdlColumn "attempts" SqlInteger false false (Some "0"); required "request_json" SqlText;
      nullable "output_mode" (SqlString 16); nullable "output_format" (SqlString 16);
      nullable "output_location" (SqlString 128); nullable "output_path" SqlText;
      nullable "cached" SqlBoolean; nullable "rows_returned" SqlBigInteger;
      nullable "bytes_returned" SqlBigInteger; nullable "truncated" SqlBoolean;
      nullable "manifest_uri" SqlText; nullable "data_uri" SqlText;
      nullable "source_versions_json" SqlText; nullable "error_class" (SqlString 255);
      nullable "error_message" SqlText; required "created_at" timestamp;
      nullable "started_at" timestamp; nullable "finished_at" timestamp;
      nullable "duration_ms" SqlBigInteger; required "updated_at" timestamp];
   CreateTable "dalmatian_storage_locations"
     [primary "name" (SqlString 128); required "uri" SqlText; required "created_at" timestamp;
      required "updated_at" timestamp]].

Definition downgrade : list ddl :=
  [DropTable "dalmatian_storage_locations"; DropTable "dalmatian_invocations"].

Record revision := Revision {
  rv_id : string;
  rv_down : option string;
  rv_upgrade : list ddl;
  rv_downgrade : list ddl;
}.

Definition migrations : list revision := [Revision "0001_metadata" None upgrade downgrade].

(** ** The tables the store works with ([SqlMetadataStore.__init__]) *)

Definition invocations_table : list ddl_column :=
  [primary "id" (SqlString 64); required "kind" (SqlString 16); required "status" (SqlString 32);
   required "attempts" SqlInteger; required "request_json" SqlText;
   nullable "output_mode" (SqlString 16); nullable "output_format" (SqlString 16);
   nullable "output_location" (SqlString 128); nullable "output_path" SqlText;
   nullable "cached" SqlBoolean; nullable "rows_returned" SqlBigInteger;
   nullable "bytes_returned" SqlBigInteger; nullable "truncated" SqlBoolean;
   nullable "manifest_uri" SqlText; nullable "data_uri" SqlText;
   nullable "source_versions_json" SqlText; nullable "error_class" (SqlString 255);
   nullable "error_message" SqlText; required "created_at" timestamp;
   nullable "started_at" timestamp; nullable "finished_at" timestamp;
   nullable "duration_ms" SqlBigInteger; required "updated_at" timestamp].

Definition locations_table : list ddl_column :=
  [primary "name" (SqlString 128); required "uri" SqlText; required "created_at" timestamp;
   required "updated_at" timestamp].

(** ** Alembic's configuration *)

Definition percent : ascii := "%"%char.

(** [url.replace("%", "%%")]. *)
Fixpoint escape_percent (s : string) : string :=
  match s with
  | EmptyString => EmptyString
  | String a rest =>
      if decide (a = percent) then String percent (String percent (escape_percent rest))
      else String a (escape_percent rest)
  end.

(** [value.replace("%%", "")]. *)
Fixpoint drop_pairs (s : string) : string :=
  match s with
  | EmptyString => EmptyString
  | String a rest =>
      match rest with
      | String b rest' =>
          if decide (a = percent /\ b = percent) then drop_pairs rest' else String a (drop_pairs rest)
      | EmptyString => s
      end
  end.

(** The text after the first ")", if there is one and it has something before it. *)
Fixpoint after_paren (s : string) : option string :=
  match s with
  | EmptyString => None
  | String a rest => if decide (a = ")"%char) then Some rest else after_paren rest
  end.

(** What follows a reference "%(name)s" at the start of a text: [_KEYCRE]. *)
Definition reference_at (s : string) : option string :=
  match s with
  | String a (String b (String n rest)) =>
      if decide (a = percent /\ b = "("%char /\ n <> ")"%char) then
        match after_paren rest with
        | Some (String e rest') => if decide (e = "s"%char) then Some rest' else None
        | _ => None
        end
      else None
  | _ => None
  end.

(** [_KEYCRE.sub("", value)]; the fuel is the text's length. *)
Fixpoint drop_references (fuel : nat) (s : string) : string :=
  match fuel, s with
  | O, _ | _, EmptyString => s
  | S fuel, String a rest =>
      match reference_at s with
      | Some rest' => drop_references fuel rest'
      | None => String a (drop_references fuel rest)
      end
  end.

(** [BasicInterpolation.before_set]: what a value must look like to be set. *)
Definition before_set (value : string) : result exn string :=
  let rest := drop_pairs value in
  if contains "%" (drop_references (String.length rest) rest)
  then raise PyValueError ("invalid interpolation syntax in " +:+ value)
  else Ok value.

(** [Config()] with its main section; [set_main_option]. *)
Abbreviation config := (list (string * string)).

Definition set_main_option (name value : string) (c : config) : result exn config :=
  r_bind (before_set value) (fun v => Ok (dict_set name v c)).

Definition InterpolationSyntaxError : exn_class :=
  Derived "InterpolationSyntaxError" (Derived "InterpolationError" PyException).

(** [BasicInterpolation.before_get]: a doubled "%" is one; what a reference stands
    for is asked of [refer], with the text that starts at it. *)
Section interpolation.
Context (refer : string -> result exn string).

Fixpoint interpolate (s : string) : result exn string :=
  match s with
  | EmptyString => Ok EmptyString
  | String a rest =>
      if decide (a = percent) then
        match rest with
        | String b rest' =>
            if decide (b = percent) then r_bind (interpolate rest') (fun t => Ok (String percent t))
            else if decide (b = "("%char) then refer s
            else raise InterpolationSyntaxError "'%' must be followed by '%' or '('"
        | EmptyString => raise InterpolationSyntaxError "'%' must be followed by '%' or '('"
        end
      else r_bind (interpolate rest) (fun t => Ok (String a t))
  end.

Definition get_main_option (name : string) (c : config) : result exn (option string) :=
  match dict_get name c with
  | None => Ok None
  | Some v => r_bind (interpolate v) (fun t => Ok (Some t))
  end.
End interpolation.

(** [_migration_config]; [script_location] is the package's own directory. *)
Definition _migration_config (script_location url : string) : result exn config :=
  r_bind (set_main_option "script_location" script_location []) (fun c =>
  set_main_option "sqlalchemy.url" (escape_percent url) c).

(** ** env.py *)

Inductive mop : Type -> Type :=
| IsOffline : mop bool
(* the options of the configuration *)
| ConfigOption (name : string) : mop (result exn (option string))
| EngineFromConfig (prefix : string) : mop (result exn unit)
| Connect : mop (result exn unit)
| Disconnect : mop unit
| ConfigureUrl (url : option string) : mop (result exn unit)
| ConfigureConnection : mop (result exn unit)
(* [context.begin_transaction()]: entered, left normally, left by an exception *)
| Begin : mop (result exn unit)
| Commit : mop (result exn unit)
| Rollback : mop unit
| RunMigrations : mop (result exn unit).

Section environment.
Local Open Scope prog_scope.

Abbreviation program := (prog mop).

Definition in_transaction (body : program unit) : program unit :=
  invoke Begin;;
  try_except body (fun e => perform Rollback;; Raise e);;
  invoke Commit.

Definition run_migrations_offline : program unit :=
  url <- (invoke (ConfigOption "sqlalchemy.url") : program (option string));;
  invoke (ConfigureUrl url);;
  in_transaction (invoke RunMigrations).

Definition run_migrations_online : program unit :=
  invoke (EngineFromConfig "sqlalchemy.");;
  invoke Connect;;
  try_finally (invoke ConfigureConnection;; in_transaction (invoke RunMigrations))
    (perform Disconnect).

(** The module's body. *)
Definition env : program unit :=
  offline <- perform IsOffline;;
  if (offline : bool) then run_migrations_offline else run_migrations_online.
End environment.

(** ** The database *)

Abbreviation tables := (gmap string (list ddl_column)).

(** The tables that exist, and the rows of alembic_version, where that exists. *)
Record metadata_db := MetadataDb {
  md_tables : tables;
  md_versions : option (list string);
}.

(** Alembic's commands: the newest revision of a directory of scripts, and a run of
    the scripts of that directory up to a target. *)
Class Alembic := {
  current_head : list revision -> option string;
  command_upgrade : list revision -> config -> string -> metadata_db -> result exn unit * metadata_db;
}.

Section commands.
Context `{Alembic} (script_location : string).

(** [upgrade_metadata(url, revision)] on the database at [url]. *)
Definition upgrade_metadata (url target : string) (db : metadata_db) : result exn unit * metadata_db :=
  match _migration_config script_location url with
  | Err e => (Err e, db)
  | Ok c => command_upgrade migrations c target db
  end.

Definition MultipleResultsFound : exn_class :=
  Derived "MultipleResultsFound" (Derived "InvalidRequestError" (Derived "SQLAlchemyError" PyException)).

(** None without an alembic_version table, or without a row in it. *)
Definition current_metadata_revision (db : metadata_db) : result exn (option string) :=
  match md_versions db with
  | None | Some [] => Ok None
  | Some [version] => Ok (Some version)
  | Some _ => raise MultipleResultsFound "Multiple rows were found when one or none was required"
  end.

(** [_assert_schema_current(url)]. *)
Definition schema_current (url : string) (db : metadata_db) : result exn unit :=
  r_bind (_migration_config script_location url) (fun _ =>
  r_bind (current_metadata_revision db) (fun current =>
  _assert_schema_current (current_head migrations) current)).

(** admin.py: all commands.  [DALMATIAN_METADATA_URL] may be unset; argparse's
    [error] exits, which no handler of the program catches. *)
Inductive admin_command :=
| MetadataUpgrade
| MetadataCurrent
| Locations (cmd : command).

Definition SystemExit : exn_class := Derived "SystemExit" PyException.

Definition or_else (o : option string) (d : string) : string :=
  match o with None | Some EmptyString => d | Some s => s end.

Definition revision_line (r : result exn (option string)) (d : string) : result exn (list string) :=
  r_bind r (fun current => Ok [or_else current d]).

Definition run_admin (metadata_url : option string) (cmd : admin_command) (now : Z)
    (db : metadata_db) (rows : database) : result exn (list string) * metadata_db * database :=
  match metadata_url with
  | None | Some EmptyString =>
      (raise SystemExit "DALMATIAN_METADATA_URL is required for metadata commands", db, rows)
  | Some url =>
      match cmd with
      | MetadataUpgrade =>
          match upgrade_metadata url "head" db with
          | (Err e, db) => (Err e, db, rows)
          | (Ok _, db) => (revision_line (current_metadata_revision db) "unknown", db, rows)
          end
      | MetadataCurrent => (revision_line (current_metadata_revision db) "unmigrated", db, rows)
      | Locations cmd =>
          match schema_current url db with
          | Err e => (Err e, db, rows)
          | Ok _ => let '(r, rows) := run_command cmd now rows in (r, db, rows)
          end
      end
  end.
End commands.
