(* ===== verification/MigrationTheorems.v ===== *)
(** * What the migrations promise

    The URL of the database reaches the migrations unharmed; a database that was
    never migrated is refused, and one that was upgraded has the tables the store
    works with and is accepted; the downgrade takes the upgrade back.  Whatever
    happens, a run of the environment ends its transaction and its connection. *)

From Stdlib Require Import Ascii.
From S2P Require Import Prelude Models Prog Fingerprint Storage Metadata Migrations.

#[local] Open Scope Z_scope.

(** ** Escaping *)

Lemma contains_percent a s :
  contains "%" (String a s) = bool_decide (a = percent) || contains "%" s.
Proof.
  cbn [contains]. f_equal. unfold starts_with, String.prefix.
  destruct (Ascii.ascii_dec "%" a) as [<-|Ha]; [by destruct s|].
  rewrite bool_decide_eq_false_2; [done|]. intros ->. by apply Ha.
Qed.

Lemma drop_pairs_plain a s : a <> percent -> drop_pairs (String a s) = String a (drop_pairs s).
Proof. intros Ha. destruct s as [|b s]; [done|]. cbn [drop_pairs]. by rewrite decide_False by tauto. Qed.

(** An escaped text has only doubled percent signs. *)
Lemma drop_pairs_escaped s : contains "%" (drop_pairs (escape_percent s)) = false.
Proof.
  induction s as [|a s IH]; [done|]. cbn [escape_percent]. destruct (decide (a = percent)) as [->|Ha].
  - cbn [drop_pairs]. by rewrite decide_True.
  - rewrite drop_pairs_plain, contains_percent, IH, bool_decide_eq_false_2 by done. done.
Qed.

Lemma drop_references_plain n s : contains "%" s = false -> drop_references n s = s.
Proof.
  revert s. induction n as [|n IH]; intros [|a s] Hs; try done.
  rewrite contains_percent in Hs. apply orb_false_elim in Hs as [Ha Hs].
  apply bool_decide_eq_false in Ha. cbn [drop_references].
  assert (E : reference_at (String a s) = None).
  { unfold reference_at. destruct s as [|b [|c s']]; try done. by rewrite decide_False by tauto. }
  rewrite E. by rewrite IH.
Qed.

Lemma escaped_is_accepted url : before_set (escape_percent url) = Ok (escape_percent url).
Proof.
  unfold before_set. rewrite drop_references_plain by apply drop_pairs_escaped.
  by rewrite drop_pairs_escaped.
Qed.

Lemma interpolate_escaped refer url : interpolate refer (escape_percent url) = Ok url.
Proof.
  induction url as [|a s IH]; [done|]. cbn [escape_percent]. destruct (decide (a = percent)) as [->|Ha].
  - cbn [interpolate]. rewrite !decide_True by done. by rewrite IH.
  - cbn [interpolate]. rewrite decide_False by done. by rewrite IH.
Qed.

(** Once the script location is accepted, so is every URL, and it is read back as
    it was given. *)
Lemma migration_config_url refer location url c :
  _migration_config location url = Ok c ->
  get_main_option refer "sqlalchemy.url" c = Ok (Some url).
Proof.
  unfold _migration_config, set_main_option. destruct (before_set location) as [v|e]; [|done].
  cbn [r_bind]. rewrite escaped_is_accepted. cbn [r_bind].
  set (c' := dict_set _ _ _). intros Ec. replace c with c' by congruence. subst c'.
  unfold get_main_option. rewrite dict_get_set, decide_True by done. by rewrite interpolate_escaped.
Qed.

Lemma migration_config_total location url :
  is_ok (before_set location) = true -> is_ok (_migration_config location url) = true.
Proof.
  unfold _migration_config, set_main_option. destruct (before_set location) as [v|e]; [|done].
  intros _. cbn [r_bind]. by rewrite escaped_is_accepted.
Qed.

(** A package below a directory with a percent sign in its name has no
    configuration at all. *)
Example percent_in_the_install_path :
  _migration_config "/opt/100%/dalmatian/migrations" "sqlite://"
  = raise PyValueError "invalid interpolation syntax in /opt/100%/dalmatian/migrations".
Proof. vm_compute. reflexivity. Qed.

(** ** The environment *)

(** The connection and the transaction; what was run outside one is wrong. *)
Inductive transaction := NoTransaction | Open | Committed | RolledBack.

Record session := Session {
  ss_connected : bool;
  ss_transaction : transaction;
  ss_ran : bool;       (* the migrations ran, without an exception *)
}.

Definition migration_effect {X} (o : mop X) (s : session) : (X -> session -> Prop) -> Prop :=
  match o in mop Y return (Y -> session -> Prop) -> Prop with
  | IsOffline => fun Q => forall b, Q b s
  | ConfigOption _ => fun Q => forall r, Q r s
  | EngineFromConfig _ => fun Q => forall r, Q r s
  | Connect => fun Q => forall r, Q r (Session (is_ok r) (ss_transaction s) (ss_ran s))
  | Disconnect => fun Q => Q tt (Session false (ss_transaction s) (ss_ran s))
  | ConfigureUrl _ => fun Q => forall r, Q r s
  | ConfigureConnection => fun Q => ss_connected s = true /\ forall r, Q r s
  | Begin => fun Q =>
      ss_transaction s = NoTransaction
      /\ forall r, Q r (Session (ss_connected s) (if is_ok r then Open else NoTransaction) (ss_ran s))
  (* a commit that fails leaves nothing behind *)
  | Commit => fun Q =>
      ss_transaction s = Open
      /\ forall r, Q r (Session (ss_connected s) (if is_ok r then Committed else RolledBack) (ss_ran s))
  | Rollback => fun Q =>
      ss_transaction s = Open /\ Q tt (Session (ss_connected s) RolledBack (ss_ran s))
  | RunMigrations => fun Q =>
      ss_transaction s = Open /\ forall r, Q r (Session (ss_connected s) (ss_transaction s) (is_ok r))
  end.

Lemma migration_effect_mono X (o : mop X) s (Q1 Q2 : X -> session -> Prop) :
  (forall x s', Q1 x s' -> Q2 x s') -> migration_effect o s Q1 -> migration_effect o s Q2.
Proof. intros HQ. destruct o; cbn; naive_solver. Qed.

#[export] Instance migration_effects : Effects mop session :=
  {| effect := @migration_effect; effect_mono := migration_effect_mono |}.

(** How a run ended: committed exactly when nothing raised. *)
Definition ended (r : result exn unit) (s : session) : Prop :=
  match r with
  | Ok _ => ss_transaction s = Committed /\ ss_ran s = true
  | Err _ => ss_transaction s = NoTransaction \/ ss_transaction s = RolledBack
  end.

Lemma wp_in_transaction s :
  ss_transaction s = NoTransaction ->
  wp (in_transaction (invoke RunMigrations)) s
    (fun r s' => ended r s' /\ ss_connected s' = ss_connected s).
Proof.
  intros Hs. apply wp_bind, wp_invoke. split; [done|]. intros [[]|e]; [|split; [by left|done]].
  apply wp_bind, wp_try_except, wp_invoke. split; [done|]. intros [[]|e].
  - apply wp_invoke. split; [done|]. intros [[]|e]; (split; [|done]); [done|by right].
  - apply wp_bind. split; [done|]. split; [by right|done].
Qed.

(** The migrations run inside a transaction, which is committed exactly when
    nothing raised, and rolled back or never begun otherwise; the connection is
    closed however the run ends. *)
Lemma environment_ends_its_transaction :
  wp env (Session false NoTransaction false) (fun r s => ended r s /\ ss_connected s = false).
Proof.
  apply wp_bind. intros [].
  - apply wp_bind, wp_invoke. intros [url|e]; [|split; [by left|done]].
    apply wp_bind, wp_invoke. intros [[]|e]; [|split; [by left|done]]. by apply wp_in_transaction.
  - apply wp_bind, wp_invoke. intros [[]|e]; [|split; [by left|done]].
    apply wp_bind, wp_invoke. intros [[]|e]; [|split; [by left|done]].
    apply wp_try_finally, wp_bind, wp_invoke. split; [done|]. intros [[]|e]; [|split; [by left|done]].
    eapply wp_mono; [|by apply wp_in_transaction]. intros r s [He _]. by split; [destruct r|].
Qed.

(** ** Upgrading *)

Definition same_column (c1 c2 : ddl_column) : Prop :=
  dc_name c1 = dc_name c2 /\ dc_type c1 = dc_type c2 /\ dc_primary_key c1 = dc_primary_key c2
  /\ dc_nullable c1 = dc_nullable c2.

(** The cells of a column's type. *)
Definition stored_type (t : ddl_type) : column_type :=
  match t with
  | SqlString _ | SqlText => TText
  | SqlInteger | SqlBigInteger => TInt
  | SqlBoolean => TBool
  | SqlDateTime _ => TTime
  end.

Definition stored_column (c : ddl_column) : column :=
  Col (dc_name c) (stored_type (dc_type c)) (negb (dc_nullable c)).

(** The columns the operations of the store are proved about are the table's. *)
Lemma invocation_columns_declared :
  map stored_column (filter (fun c => dc_primary_key c = false) invocations_table) = invocation_columns.
Proof. reflexivity. Qed.

(** Statements one after the other; [None] when one fails. *)
Fixpoint run_ddl (exec : ddl -> tables -> option tables) (ds : list ddl) (t : tables) : option tables :=
  match ds with
  | [] => Some t
  | d :: ds => match exec d t with Some t => run_ddl exec ds t | None => None end
  end.

(** What SQL says of the two statements, and Alembic of its commands, for a
    directory with one script: a database without a version has the script run on
    it and is then at the script's revision; one at that revision is left alone. *)
Class AlembicLaws `{Alembic} (exec : ddl -> tables -> option tables) := {
  exec_create n cols t : t !! n = None -> exec (CreateTable n cols) t = Some (<[n := cols]> t);
  exec_drop n t : is_Some (t !! n) -> exec (DropTable n) t = Some (delete n t);
  head_of_one r : rv_down r = None -> current_head [r] = Some (rv_id r);
  upgrade_unversioned r c t t' vs :
    rv_down r = None -> vs = None \/ vs = Some [] -> run_ddl exec (rv_upgrade r) t = Some t' ->
    command_upgrade [r] c "head" (MetadataDb t vs) = (Ok tt, MetadataDb t' (Some [rv_id r]));
  upgrade_at_head r c t :
    command_upgrade [r] c "head" (MetadataDb t (Some [rv_id r])) = (Ok tt, MetadataDb t (Some [rv_id r]));
}.

Definition fresh_database (t : tables) : Prop :=
  t !! "dalmatian_invocations" = None /\ t !! "dalmatian_storage_locations" = None.

Definition upgraded (t : tables) : tables :=
  <["dalmatian_storage_locations" := locations_table]>
    (<["dalmatian_invocations" :=
         match upgrade with CreateTable _ cols :: _ => cols | _ => [] end]> t).

Section upgrading.
Context `{L : AlembicLaws}.

Lemma upgrade_runs t : fresh_database t -> run_ddl exec upgrade t = Some (upgraded t).
Proof using L.
  intros [H1 H2]. unfold upgrade. cbn [run_ddl]. rewrite exec_create by done.
  rewrite exec_create by (by rewrite lookup_insert_ne). done.
Qed.

Lemma downgrade_runs t : fresh_database t -> run_ddl exec downgrade (upgraded t) = Some t.
Proof using L.
  intros [H1 H2]. unfold downgrade, upgraded. cbn [run_ddl].
  rewrite exec_drop by (rewrite lookup_insert_eq; by eexists).
  rewrite delete_insert_id by (by rewrite lookup_insert_ne).
  rewrite exec_drop by (rewrite lookup_insert_eq; by eexists). by rewrite delete_insert_id.
Qed.

(** C40: An upgraded database is the store's, and a database that is not upgraded is
    refused.  Take any URL but the empty one, percent signs included, any database
    without the two tables whose version table is missing or empty, and a package
    directory that ConfigParser accepts (no stray percent sign).  Alembic is given
    that very URL; before the upgrade the store and the commands on locations are
    refused with the schema error and touch nothing; metadata-upgrade prints the revision, adds the two tables with the columns the
    store works with, and leaves other tables alone; from then on the store is
    accepted, metadata-current prints the revision and a second upgrade changes
    nothing; and the downgrade's statements give the old tables back. *)
Theorem upgraded_databases_are_accepted location url refer t vs now rows :
  is_ok (before_set location) = true -> url <> "" -> fresh_database t ->
  vs = None \/ vs = Some [] ->
  let db0 := MetadataDb t vs in
  let db1 := MetadataDb (upgraded t) (Some ["0001_metadata"]) in
  let admin := fun cmd db => run_admin location (Some url) cmd now db rows in
  r_bind (_migration_config location url) (get_main_option refer "sqlalchemy.url") = Ok (Some url)
  /\ (exists text, schema_current location url db0 = raise MetadataSchemaError text
       /\ forall cmd, admin (Locations cmd) db0 = (raise MetadataSchemaError text, db0, rows))
  /\ admin MetadataUpgrade db0 = (Ok ["0001_metadata"], db1, rows)
  /\ (exists cols, md_tables db1 !! "dalmatian_invocations" = Some cols
       /\ Forall2 same_column cols invocations_table)
  /\ md_tables db1 !! "dalmatian_storage_locations" = Some locations_table
  /\ (forall n, n <> "dalmatian_invocations" -> n <> "dalmatian_storage_locations" ->
        md_tables db1 !! n = t !! n)
  /\ schema_current location url db1 = Ok tt
  /\ admin MetadataCurrent db1 = (Ok ["0001_metadata"], db1, rows)
  /\ admin MetadataUpgrade db1 = (Ok ["0001_metadata"], db1, rows)
  /\ run_ddl exec downgrade (md_tables db1) = Some t.
Proof using L.
  intros Hloc Hurl Hf Hvs db0 db1 admin.
  pose proof (migration_config_total location url Hloc) as Hcfg.
  destruct (_migration_config location url) as [cfg|e] eqn:Ec; [|done]. clear Hcfg.
  assert (Eh : current_head migrations = Some "0001_metadata") by by apply head_of_one.
  assert (Ecur : current_metadata_revision db0 = Ok None) by by destruct Hvs as [->| ->].
  assert (Eurl : forall A (x y : A), match Some url with None | Some EmptyString => x | Some _ => y end = y)
    by (intros A x y; by destruct url).
  assert (E0 : exists text, schema_current location url db0 = raise MetadataSchemaError text).
  { unfold schema_current. rewrite Ec, Ecur, Eh. cbn. by eexists. }
  assert (E1 : schema_current location url db1 = Ok tt)
    by (unfold schema_current; rewrite Ec, Eh; done).
  assert (Eup : forall db r db', command_upgrade migrations cfg "head" db = (Ok r, db') ->
            current_metadata_revision db' = Ok (Some "0001_metadata") ->
            admin MetadataUpgrade db = (Ok ["0001_metadata"], db', rows)).
  { intros db r db' E Er. unfold admin, run_admin, upgrade_metadata. rewrite Eurl, Ec, E, Er. done. }
  split_and!.
  - by apply (migration_config_url refer location).
  - destruct E0 as [text E0]. exists text. split; [done|]. intros cmd. unfold admin, run_admin.
    by rewrite Eurl, E0.
  - eapply Eup; [|done]. apply upgrade_unversioned; [done|done|by apply upgrade_runs].
  - eexists. split; [unfold db1, upgraded; cbn [md_tables];
      rewrite lookup_insert_ne, lookup_insert_eq by done; reflexivity|]. repeat constructor.
  - unfold db1, upgraded. cbn [md_tables]. by rewrite lookup_insert_eq.
  - intros n H1 H2. unfold db1, upgraded. cbn [md_tables]. by rewrite !lookup_insert_ne.
  - exact E1.
  - unfold admin, run_admin. by rewrite Eurl.
  - eapply Eup; [|done]. apply upgrade_at_head.
  - by apply downgrade_runs.
Qed.
End upgrading.

(** ** The theorem at work *)

Module MigrationDemo.
Definition exec_ddl (d : ddl) (t : tables) : option tables :=
  match d with
  | CreateTable n cols => match t !! n with None => Some (<[n := cols]> t) | Some _ => None end
  | DropTable n => match t !! n with Some _ => Some (delete n t) | None => None end
  end.

(** Scripts in a row, each on top of the one before. *)
#[export] Instance alembic : Alembic := {|
  current_head rs := rv_id <$> last rs;
  command_upgrade rs c target db :=
    match md_versions db with
    | None | Some [] =>
        match run_ddl exec_ddl (concat (map rv_upgrade rs)) (md_tables db) with
        | Some t => (Ok tt, MetadataDb t ((fun r => [rv_id r]) <$> last rs))
        | None => (raise PyOSError "table exists", db)
        end
    | Some _ => (Ok tt, db)
    end;
|}.

#[export] Instance alembic_laws : AlembicLaws exec_ddl.
Proof.
  split.
  - intros n cols t E. cbn. by rewrite E.
  - intros n t [cols E]. cbn. by rewrite E.
  - done.
  - intros r c t t' vs _ Hvs E. cbn. rewrite app_nil_r, E. by destruct Hvs as [->| ->].
  - done.
Qed.
End MigrationDemo.

Lemma upgraded_databases_are_accepted_witness (A := MigrationDemo.alembic) :
  run_admin "/app/migrations" (Some "postgresql://u:p%40ss@db/x") MetadataUpgrade 5
    (MetadataDb ∅ None) empty_database
  = (Ok ["0001_metadata"], MetadataDb (upgraded ∅) (Some ["0001_metadata"]), empty_database).
Proof.
  exact (proj1 (proj2 (proj2 (upgraded_databases_are_accepted (L := MigrationDemo.alembic_laws)
    "/app/migrations" "postgresql://u:p%40ss@db/x" (fun _ => Ok "") ∅ None 5 empty_database
    ltac:(vm_compute; reflexivity) ltac:(discriminate) ltac:(split; reflexivity) (or_introl eq_refl))))).
Defined.
