(* ===== verification/RecordTheorems.v ===== *)
(** * What a synchronous request leaves in the metadata

    [QueryService.execute] of Service.v over the SQL store of Metadata.v, while other
    requests write their own rows: the row of the request tells how it ended. *)

From Stdlib Require Import QArith.
From S2P Require Import Prelude Models Fingerprint Storage Prog Observability Datasets Service Metadata MetadataTheorems.

#[local] Open Scope Z_scope.

Section recording.
Context {R : Type} `{Sha256} {D : Driver} {L : DriverLaws D}.
Context (loads : string -> result exn json) (dump_inline : InlineResult R -> string)
  (dump_request : QueryRequest -> string).

(** The database and the id this request drew. *)
Record books := Books { bk_db : database; bk_id : option string }.

(** Other requests change other rows only: ids are fresh. *)
Definition others_wrote (w w' : books) : Prop :=
  bk_id w' = bk_id w
  /\ forall id, bk_id w = Some id -> invocations (bk_db w') !! id = invocations (bk_db w) !! id.

Definition wrote (w : books) (r : result exn unit * database) : books := Books r.2 (bk_id w).

Definition books_effect {X} (o : sop R X) (w : books) : (X -> books -> Prop) -> Prop :=
  match o in sop _ Y return (Y -> books -> Prop) -> Prop with
  | NewIds => fun Q => forall id attempt,
      invocations (bk_db w) !! id = None -> Q (id, attempt) (Books (bk_db w) (Some id))
  | RecordInvocation id kind request => fun Q => forall now,
      let r := sql_record_invocation loads id kind (dump_request request) now (bk_db w) in
      Q r.1 (wrote w r)
  | UpdateInvocation id status res error error_class => fun Q => forall now,
      let r := sql_update_invocation dump_inline id status res error error_class None now (bk_db w) in
      Q r.1 (wrote w r)
  | TryAcquire => fun Q => forall x w', others_wrote w w' -> Q x w'
  | ReleaseSlot => fun Q => forall x w', others_wrote w w' -> Q x w'
  | Prepare _ _ => fun Q => forall x w', others_wrote w w' -> Q x w'
  | EngineExecute _ _ => fun Q => forall x w', others_wrote w w' -> Q x w'
  | EngineStream _ _ => fun Q => forall x w', others_wrote w w' -> Q x w'
  | NextRow => fun Q => forall x w', others_wrote w w' -> Q x w'
  | EngineExplain _ _ => fun Q => forall x w', others_wrote w w' -> Q x w'
  | EngineInspect _ => fun Q => forall x w', others_wrote w w' -> Q x w'
  | EngineCancel _ => fun Q => forall x w', others_wrote w w' -> Q x w'
  | CacheGet _ => fun Q => forall x w', others_wrote w w' -> Q x w'
  | CacheSet _ _ _ => fun Q => forall x w', others_wrote w w' -> Q x w'
  | CacheAcquire _ _ => fun Q => forall x w', others_wrote w w' -> Q x w'
  | CacheRelease _ _ => fun Q => forall x w', others_wrote w w' -> Q x w'
  | CacheWait _ _ => fun Q => forall x w', others_wrote w w' -> Q x w'
  | Yield _ => fun Q => forall x w', others_wrote w w' -> Q x w'
  | EnginePing | CachePing => fun Q => forall x w', others_wrote w w' -> Q x w'
  | EngineClose | CacheClose => fun Q => forall x w', others_wrote w w' -> Q x w'
  | Measure _ => fun Q => forall x w', others_wrote w w' -> Q x w'
  | InlineBytes _ => fun Q => forall x w', others_wrote w w' -> Q x w'
  end.

Lemma books_effect_mono X (o : sop R X) w (Q1 Q2 : X -> books -> Prop) :
  (forall x w', Q1 x w' -> Q2 x w') -> books_effect o w Q1 -> books_effect o w Q2.
Proof using Type. intros HQ. destruct o; cbn; auto. Qed.

#[local] Instance books_effects : Effects (sop R) books :=
  {| effect := @books_effect; effect_mono := books_effect_mono |}.

Lemma others_trans w1 w2 w3 : others_wrote w1 w2 -> others_wrote w2 w3 -> others_wrote w1 w3.
Proof.
  intros [I1 D1] [I2 D2]. split; [congruence|]. intros id Hid. rewrite D2, D1; congruence.
Qed.

(** The programs inside the slot leave the request's row alone. *)
Definition quiet {A} (p : prog (sop R) A) : Prop := forall w, wp p w (fun _ w' => others_wrote w w').

Lemma quiet_ret {A} (a : A) : quiet (Ret a).
Proof. intros w. by split. Qed.

Lemma quiet_raise {A} e : quiet (Raise e : prog (sop R) A).
Proof. intros w. by split. Qed.

Lemma quiet_lift {A} (r : result exn A) : quiet (lift r).
Proof. intros w. by apply wp_lift. Qed.

Lemma quiet_bind {A B} (p : prog (sop R) A) (f : A -> prog (sop R) B) :
  quiet p -> (forall a, quiet (f a)) -> quiet (bind p f).
Proof.
  intros Hp Hf w. apply wp_bind. eapply wp_mono; [|apply Hp]. intros [a|e] w1 H1; [|done].
  eapply wp_mono; [|apply Hf]. intros r w2. by apply others_trans.
Qed.

Lemma quiet_finally {A} (p : prog (sop R) A) (f : prog (sop R) unit) :
  quiet p -> quiet f -> quiet (try_finally p f).
Proof.
  intros Hp Hf w. apply wp_try_finally. eapply wp_mono; [|apply Hp]. intros r w1 H1.
  eapply wp_mono; [|apply Hf]. intros [u|e] w2 H2; by apply (others_trans _ w1).
Qed.

Definition silent {X} (o : sop R X) : bool :=
  match o with NewIds | RecordInvocation _ _ _ | UpdateInvocation _ _ _ _ _ => false | _ => true end.

Lemma quiet_perform {X} (o : sop R X) : silent o = true -> quiet (perform o).
Proof. intros Ho w. destruct o; first [discriminate Ho|by intros x w']. Qed.

Lemma quiet_invoke {X} (o : sop R (result exn X)) : silent o = true -> quiet (invoke o).
Proof.
  intros Ho. change (invoke o) with (bind (perform o) lift).
  apply quiet_bind; [by apply quiet_perform|]. intros r. apply quiet_lift.
Qed.

Hint Resolve quiet_ret quiet_raise quiet_lift quiet_perform quiet_invoke : core.

Context (normalize : string -> list string -> result exn string) (c : service_cfg).

Ltac quiet_steps := repeat first
  [ progress auto | apply quiet_finally | apply quiet_bind; [|intros ?] | case_match ].

Lemma run_engine_quiet prepared context ttl flight :
  quiet (run_engine (R := R) prepared context ttl flight).
Proof. unfold run_engine. quiet_steps. Qed.

Lemma single_flight_quiet key prepared context ttl :
  quiet (single_flight (R := R) c key prepared context ttl).
Proof. unfold single_flight. quiet_steps; apply run_engine_quiet. Qed.

Lemma admitted_quiet request sql context mode :
  quiet (with_slot (query_timer Measure mode
           (_execute_admitted (R := R) normalize c request sql context))).
Proof.
  unfold with_slot, query_timer, try_acquire, _execute_admitted, _cache_get.
  quiet_steps; first [apply single_flight_quiet|apply run_engine_quiet].
Qed.

(** ** The row of a request *)

(** The row says how the request ended, when, and how long it took. *)
Definition tells {A} (request : QueryRequest) (r : result exn A) (i : row) : Prop :=
  i !! "kind" = Some (VText "sync") /\ i !! "request_json" = Some (VText (dump_request request))
  /\ i !! "status" = Some (VText (if is_ok r then "succeeded" else "failed"))
  /\ i !! "error_message" = match r with Ok _ => None | Err e => Some (VText (exn_text e)) end
  /\ i !! "error_class"
     = match r with Ok _ => None | Err e => Some (VText (class_name (exn_cls e))) end
  /\ exists started finished,
       i !! "started_at" = Some (VTime started) /\ i !! "finished_at" = Some (VTime finished)
       /\ i !! "duration_ms" = Some (VInt (Z.max 0 (Z.quot (finished - started) 1000))).

Definition open_row (request : QueryRequest) (i : row) : Prop :=
  i !! "kind" = Some (VText "sync") /\ i !! "request_json" = Some (VText (dump_request request))
  /\ i !! "error_message" = None /\ i !! "error_class" = None
  /\ exists started, i !! "started_at" = Some (VTime started).

Lemma new_row_open request output now r :
  new_invocation "sync" (dump_request request) output now = Ok r -> open_row request r.
Proof.
  intros (vs & _ & Hw & ->)%new_invocation_inv. unfold open_row.
  rewrite !write_lookup, !written_app, !Hw by listed.
  split_and!; try done. by exists now.
Qed.

(** The output columns take the texts of this output. *)
Definition storable (o : OutputSpec) : Prop :=
  Forall (fun p => is_ok (bind_text p.1 p.2) = true)
    [("output_mode", JStr (delivery_mode_value (out_mode o)));
     ("output_format", JStr (output_format_value (out_format o)));
     ("output_location", j_opt (out_location o)); ("output_path", j_opt (out_path o))].

Lemma storable_binds request kind text now output :
  storable (q_output request) -> dump_output (q_output request) = JObj output ->
  exists r, new_invocation kind text output now = Ok r.
Proof.
  unfold storable. rewrite !Forall_cons. cbn [fst snd]. intros (Hm & Hf & Hl & Hp & _) [= <-].
  unfold new_invocation.
  change (json_get "mode" _) with (Some (JStr (delivery_mode_value (out_mode (q_output request))))).
  change (json_get "format" _) with (Some (JStr (output_format_value (out_format (q_output request))))).
  change (json_get "location" _) with (Some (j_opt (out_location (q_output request)))).
  change (json_get "path" _) with (Some (j_opt (out_path (q_output request)))).
  cbn [default_text bound].
  destruct (bind_text "output_mode" _), (bind_text "output_format" _),
    (bind_text "output_location" _), (bind_text "output_path" _); try discriminate.
  by eexists.
Qed.

(** The last update decides an open row. *)
Lemma close_row {A} request (r : result exn A) res i now :
  open_row request i ->
  tells request r
    (write_values
       (update_values dump_inline (if is_ok r then "succeeded" else "failed") res
          (match r with Ok _ => None | Err e => Some (exn_text e) end)
          (match r with Ok _ => None | Err e => Some (class_name (exn_cls e)) end) None now
        ++ duration (if is_ok r then "succeeded" else "failed") (i !! "started_at") now) i).
Proof.
  intros (Hk & Hr & He & Hc & t & Ht). unfold tells.
  rewrite !write_lookup, !written_identity by (by apply (bool_decide_unpack _)).
  rewrite written_status, written_error, written_error_class, written_started, written_finished,
    written_duration, Ht.
  destruct r as [a|e]; cbn; split_and!; try done; by exists t, now.
Qed.

Definition row_of (w : books) (id : string) (P : row -> Prop) : Prop :=
  bk_id w = Some id /\ exists i, invocations (bk_db w) !! id = Some i /\ P i.

Lemma row_kept w w' id P : others_wrote w w' -> row_of w id P -> row_of w' id P.
Proof.
  intros [Hi Hd] (Hid & i & Hr & HP). split; [congruence|]. exists i. by rewrite Hd.
Qed.

Lemma wp_update_row {A} request (r : result exn A) res w id (Q : result exn unit -> books -> Prop) :
  row_of w id (open_row request) ->
  (forall w', row_of w' id (tells request r) -> Q (Ok tt) w') ->
  wp (_update id (if is_ok r then "succeeded" else "failed") res
        (match r with Ok _ => None | Err e => Some (exn_text e) end)
        (match r with Ok _ => None | Err e => Some (class_name (exn_cls e)) end)) w Q.
Proof.
  intros (Hid & i & Hi & Ho) HQ now. apply HQ. split; [done|].
  unfold sql_update_invocation. rewrite Hi. cbn [snd wrote bk_db invocations].
  rewrite lookup_alter_eq, Hi. eexists. split; [done|]. by apply close_row.
Qed.

Lemma wp_record_row request w id attempt (Q : result exn unit -> books -> Prop) :
  loads (dump_request request) = Ok (dump_request_json request) ->
  storable (q_output request) ->
  bk_id w = Some id -> invocations (bk_db w) !! id = None ->
  (forall w', row_of w' id (open_row request) -> Q (Ok tt) w') ->
  wp (_record (ec_query_id (default_context (id, attempt) 0)) "sync" request) w Q.
Proof.
  intros Hload Hs Hid Hf HQ now. unfold sql_record_invocation, request_output. cbn [ec_query_id default_context fst].
  rewrite Hload. cbn [r_bind dump_request_json].
  change (json_get "output" _) with (Some (dump_output (q_output request))).
  cbn [dump_output r_bind]. edestruct storable_binds as [r Hr]; [exact Hs|done|].
  rewrite Hr, Hf. apply HQ. split; [done|].
  cbn [snd wrote bk_db invocations]. rewrite lookup_insert_eq.
  eexists. split; [done|]. by eapply new_row_open.
Qed.

(** C34: The metadata tells how a synchronous request ended.  Whatever the engine,
    the cache and other requests do, a request that is refused before it gets an
    id writes nothing; every other one leaves, under its fresh id, a row of kind
    "sync" with the request's text that says "succeeded" without an error exactly
    when the caller got a result, and "failed" with the text and the class of the
    very exception the caller got otherwise, with its start, its end and the time
    in between.  (The text pydantic writes for the request reads back as its
    dump, and the database takes the texts of its output in their columns.) *)
Theorem sync_requests_are_recorded request db :
  loads (dump_request request) = Ok (dump_request_json request) ->
  storable (q_output request) ->
  wp (execute (R := R) normalize c request None) (Books db None)
    (fun r w =>
       match bk_id w with
       | None => (exists e, r = Err e) /\ bk_db w = db
       | Some id => exists i, invocations (bk_db w) !! id = Some i /\ tells request r i
       end).
Proof.
  intros Hload Hs. unfold execute. apply wp_bind, wp_lift.
  destruct (_validate normalize c request) as [sql|e]; [|split; [by exists e|done]].
  apply wp_bind. unfold _context. apply wp_bind, wp_lift.
  destruct (_timeout c request) as [timeout|e]; [|split; [by exists e|done]].
  apply wp_bind. intros id attempt Hfresh. cbn [wp].
  change (is_sync (default_context (id, attempt) timeout)) with true. cbv iota.
  apply wp_bind, (wp_record_row request _ id attempt); [done..|]. intros w0 H0.
  apply wp_bind, wp_try_except. eapply wp_mono; [|apply admitted_quiet].
  intros [res|e] w1 H1; apply (row_kept _ _ _ _ H1) in H0.
  - apply wp_bind, (wp_update_row request (Ok res) (Some res)); [done|].
    intros w2 (Hid & Hi). cbn [wp]. rewrite Hid. exact Hi.
  - apply wp_bind, (wp_update_row request (Err e : result exn (QueryResult R)) None); [done|].
    intros w2 (Hid & i & Hi & Ht). cbn [wp]. rewrite Hid. exists i. done.
Qed.
End recording.

(** ** The theorem at work *)

Module RecordDemo.
#[local] Instance sha : Sha256 := {| sha256_hex s := s; sha256_head _ := 0 |}.

Definition request : QueryRequest := MkRequest "select 1" [] default_output None None None.

Definition dump (r : QueryRequest) : string := dumps (dump_request_json r).

Definition loads (text : string) : result exn json :=
  if decide (text = dump request) then Ok (dump_request_json request)
  else raise PyValueError "bad json".

Definition cfg : service_cfg := ServiceCfg 300 3600 10000 4 300 3600 (15 # 1) 120.
End RecordDemo.

#[local] Existing Instances MetadataDemo.sqlite MetadataDemo.sqlite_laws.

Lemma sync_requests_are_recorded_witness (H := RecordDemo.sha) :
  wp (H := books_effects RecordDemo.loads (fun _ : InlineResult string => "{}") RecordDemo.dump)
    (execute (fun sql _ => Ok sql) RecordDemo.cfg RecordDemo.request None)
    (Books empty_database None)
    (fun r w =>
       match bk_id w with
       | None => (exists e, r = Err e) /\ bk_db w = empty_database
       | Some id => exists i, invocations (bk_db w) !! id = Some i
                    /\ tells RecordDemo.dump RecordDemo.request r i
       end).
Proof. apply sync_requests_are_recorded; [by vm_compute|by repeat constructor]. Defined.
