(* ===== verification/Sql.v ===== *)
(** * Validation and normalisation of SQL

    src/src/dalmatian/sql.py.  The parser, sqlglot, is a parameter: absent, or a
    function from a text to the statements it sees, each with the facts the code
    asks for.  Without it the code falls back on regular expressions; each one is
    an executable matcher here, on ASCII texts, with the remaining text after a
    match.  Where Python's [re] backtracks, no shorter repetition can match either:
    the character classes on both sides of each repetition are disjoint. *)

From Stdlib Require Import Ascii.
From S2P Require Import Prelude Models.

#[local] Open Scope Z_scope.

(** ** Characters *)

(** [\s] and [str.strip]. *)
Definition is_space (a : ascii) : bool :=
  let n := nat_of_ascii a in ((9 <=? n) && (n <=? 13) || (28 <=? n) && (n <=? 32))%nat.

(** [\w]. *)
Definition is_word (a : ascii) : bool := is_letter a || is_digit a.

(** [[`\w.]]. *)
Definition table_char (a : ascii) : bool :=
  is_word a || bool_decide (a = "`"%char) || bool_decide (a = "."%char).

(** ** Pieces of matchers *)

Fixpoint drop_spaces (s : string) : string :=
  match s with
  | String a rest => if is_space a then drop_spaces rest else s
  | EmptyString => EmptyString
  end.

Fixpoint rstrip_spaces (s : string) : string :=
  match s with
  | EmptyString => EmptyString
  | String a rest =>
      match rstrip_spaces rest with
      | EmptyString => if is_space a then EmptyString else String a EmptyString
      | r => String a r
      end
  end.

Definition strip_spaces (s : string) : string := rstrip_spaces (drop_spaces s).

(** A word in lower case, in any letter case; the text behind it. *)
Fixpoint keyword (k s : string) : option string :=
  match k, s with
  | EmptyString, _ => Some s
  | String c k, String a rest => if decide (lower_char a = c) then keyword k rest else None
  | String _ _, EmptyString => None
  end.

(** [\b] behind a word character. *)
Definition boundary (s : string) : bool :=
  match s with EmptyString => true | String a _ => negb (is_word a) end.

Definition starts_with_space (s : string) : bool :=
  match s with EmptyString => false | String a _ => is_space a end.

(** The longest prefix of some characters, and the rest. *)
Fixpoint span (p : ascii -> bool) (s : string) : string * string :=
  match s with
  | EmptyString => (EmptyString, EmptyString)
  | String a rest =>
      if p a then let '(x, r) := span p rest in (String a x, r) else (EmptyString, s)
  end.

(** One of the words, up to a boundary. *)
Definition at_word (ks : list string) (s : string) : bool :=
  existsb (fun k => match keyword k s with Some r => boundary r | None => false end) ks.

(** [search] for a word; [prev]: the character before is a word character. *)
Fixpoint search_word (ks : list string) (prev : bool) (s : string) : bool :=
  match s with
  | EmptyString => false
  | String a rest => (negb prev && at_word ks s) || search_word ks (is_word a) rest
  end.

(** [findall] for a matcher that gives the group and the text behind the match,
    which never starts with a word character. *)
Fixpoint findall (here : bool -> string -> option (string * string)) (fuel : nat) (prev : bool)
    (s : string) : list string :=
  match fuel, s with
  | S fuel, String a rest =>
      match here prev s with
      | Some (x, behind) => x :: findall here fuel false behind
      | None => findall here fuel (is_word a) rest
      end
  | _, _ => []
  end.

Definition find_all here (s : string) : list string := findall here (String.length s) false s.

(** ** The three patterns *)

Definition forbidden : list string :=
  ["insert"; "update"; "delete"; "create"; "drop"; "alter"; "merge"; "truncate"; "cache"; "uncache";
   "refresh"; "set"; "use"; "describe"; "show"; "grant"; "revoke"; "call"; "copy"].

Definition _FORBIDDEN (s : string) : bool := search_word forbidden false s.

(** The name behind the keyword, if there is one. *)
Definition table_name (r : string) : option (string * string) :=
  if starts_with_space r then
    match span table_char (drop_spaces r) with
    | (EmptyString, _) => None
    | found => Some found
    end
  else None.

Definition _TABLE (prev : bool) (s : string) : option (string * string) :=
  if prev then None
  else match keyword "from" s with
       | Some r => table_name r
       | None => match keyword "join" s with Some r => table_name r | None => None end
       end.

(** The start of a common table expression: "with", or a comma. *)
Definition cte_head (prev : bool) (s : string) : option string :=
  match (if prev then None else keyword "with" s) with
  | Some r => if boundary r then Some r else None
  | None => match s with String a rest => if decide (a = ","%char) then Some rest else None
                       | EmptyString => None end
  end.

(** [\s+as\s*\(]. *)
Definition cte_as (r : string) : option string :=
  if starts_with_space r then
    match keyword "as" (drop_spaces r) with
    | Some r =>
        match drop_spaces r with
        | String a rest => if decide (a = "("%char) then Some rest else None
        | EmptyString => None
        end
    | None => None
    end
  else None.

Definition _CTE (prev : bool) (s : string) : option (string * string) :=
  match cte_head prev s with
  | Some r =>
      match drop_spaces r with
      | String a _ =>
          if is_letter a then
            let '(name, r) := span is_word (drop_spaces r) in
            match cte_as r with Some rest => Some (name, rest) | None => None end
          else None
      | EmptyString => None
      end
  | None => None
  end.

(** [re.sub(r"\s+", " ", s)]; [b]: the run of spaces has its blank already. *)
Fixpoint squeeze (b : bool) (s : string) : string :=
  match s with
  | EmptyString => EmptyString
  | String a rest =>
      if is_space a then if b then squeeze true rest else String " "%char (squeeze true rest)
      else String a (squeeze false rest)
  end.

(** [raw.strip("`").split(".")[-1]]. *)
Definition source_name (raw : string) : string :=
  default EmptyString (list.last (split_on "."%char (strip "`"%char raw))).

(** ** The fallback *)

Definition undeclared {A} (name : string) : result exn A :=
  raise QueryRejected ("query references undeclared source: " +:+ name).

Fixpoint check_tables (raws allowed : list string) : result exn unit :=
  match raws with
  | [] => Ok tt
  | raw :: raws =>
      if contains "." raw || negb (bool_decide (source_name raw ∈ allowed))
      then undeclared (source_name raw) else check_tables raws allowed
  end.

Definition _fallback (sql : string) (aliases : list string) : result exn string :=
  let value := strip_spaces sql in
  if decide (value = "") then raise QueryRejected "SQL cannot be empty"
  else
    let stripped := strip_spaces (rstrip ";"%char (rstrip_spaces value)) in
    if contains ";" stripped then raise QueryRejected "exactly one SQL statement is required"
    else if negb (at_word ["select"; "with"] stripped)
    then raise QueryRejected "only read-only SELECT queries are allowed"
    else if _FORBIDDEN stripped then raise QueryRejected "only read-only SELECT queries are allowed"
    else
      let ctes := find_all _CTE stripped in
      r_bind (check_tables (find_all _TABLE stripped) (aliases ++ ctes)) (fun _ =>
      Ok (squeeze false stripped)).

(** ** With the parser *)

(** What the code reads of a statement: whether it is a query, the names of its
    common table expressions, its tables as (catalog, database, name), and its
    text in Spark's dialect. *)
Record statement := Statement {
  sm_query : bool;
  sm_ctes : list string;
  sm_tables : list (string * string * string);
  sm_sql : string;
}.

Class Sqlglot := {
  parse_spark : option (string -> result exn (list (option statement)));
}.

Fixpoint check_statement_tables (tables : list (string * string * string)) (allowed : list string)
  : result exn unit :=
  match tables with
  | [] => Ok tt
  | (catalog, db, name) :: tables =>
      if negb (bool_decide (catalog = "")) || negb (bool_decide (db = ""))
      then raise QueryRejected "catalog and database-qualified tables are not allowed"
      else if negb (bool_decide (name ∈ allowed)) then undeclared name
      else check_statement_tables tables allowed
  end.

Definition validate_and_normalize `{Sqlglot} (sql : string) (aliases : list string)
  : result exn string :=
  match parse_spark with
  | None => _fallback sql aliases
  | Some parse =>
      match parse sql with
      | Err e => raise QueryRejected ("invalid SQL: " +:+ exn_text e)
      | Ok [Some st] =>
          if negb (sm_query st)
          then raise QueryRejected "only read-only SELECT queries are allowed"
          else r_bind (check_statement_tables (sm_tables st) (aliases ++ sm_ctes st)) (fun _ =>
               Ok (sm_sql st))
      | Ok _ => raise QueryRejected "exactly one SQL statement is required"
      end
  end.
