(* ===== verification/SqlSpec.v ===== *)
(** * What an accepted text may say

    A specification of the texts the fallback accepts that does not mention its
    patterns: it speaks of every way to cut the text into pieces ([reads_declared]).
    The matchers of Sql.v find every such cut ([search_word_complete],
    [tables_complete]) and invent none ([ctes_sound]). *)

From Stdlib Require Import Ascii.
From S2P Require Import Prelude Models Sql.

#[local] Open Scope Z_scope.

(** ** The specification *)

(** The text ends in a word character; [prev]: the character before it is one. *)
Fixpoint ends_in_word (prev : bool) (s : string) : bool :=
  match s with EmptyString => prev | String a rest => ends_in_word (is_word a) rest end.

(** A word can start behind the text. *)
Definition apart (s : string) : Prop := ends_in_word false s = false.

(** [found] stands as a word of its own between [before] and [behind]. *)
Definition as_word (before behind : string) : Prop := apart before /\ boundary behind = true.

Definition blank (s : string) : Prop := string_forall is_space s = true.
Definition gap (s : string) : Prop := s <> "" /\ blank s.

(** The word [w], in any letter case, stands in the text. *)
Definition has_word (w s : string) : Prop :=
  exists before found behind, s = before +:+ found +:+ behind /\ lower found = w
    /\ as_word before behind.

Definition reading_word (s : string) : Prop := lower s = "from" \/ lower s = "join".

Definition next_is (p : ascii -> bool) (s : string) : bool :=
  match s with EmptyString => false | String a _ => p a end.

(** [name], as long as it goes, is what is read directly behind a "from" or "join". *)
Definition reads (s before name : string) : Prop :=
  exists kw g behind, s = before +:+ kw +:+ g +:+ name +:+ behind /\ reading_word kw
    /\ apart before /\ gap g /\ name <> "" /\ string_forall table_char name = true
    /\ next_is table_char behind = false.

(** What follows the text is (a part of) the name behind an earlier "from" or "join". *)
Definition taken_as_name (s : string) : Prop :=
  exists before kw g t, s = before +:+ kw +:+ g +:+ t /\ reading_word kw /\ apart before
    /\ gap g /\ string_forall table_char t = true.

(** The text defines [name] as a common table expression: "with name as (", or a
    comma and "name as (". *)
Definition defines_cte (s name : string) : Prop :=
  exists before head g1 g2 kw g3 behind,
    s = before +:+ head +:+ g1 +:+ name +:+ g2 +:+ kw +:+ g3 +:+ "(" +:+ behind
    /\ (head = "," \/ lower head = "with" /\ apart before /\ g1 <> "") /\ blank g1
    /\ isidentifier name = true /\ gap g2 /\ lower kw = "as" /\ blank g3.

(** The words no query may have. *)
Definition writing_words : list string :=
  ["insert"; "update"; "delete"; "create"; "drop"; "alter"; "merge"; "truncate"; "cache"; "uncache";
   "refresh"; "set"; "use"; "describe"; "show"; "grant"; "revoke"; "call"; "copy"].

(** One query, without a word that writes, which names only declared sources and its
    own common table expressions directly behind "from" and "join". *)
Record reads_declared (aliases : list string) (s : string) : Prop := {
  rd_one before behind : s <> before +:+ ";" +:+ behind;
  rd_head : exists kw rest, s = kw +:+ rest /\ (lower kw = "select" \/ lower kw = "with")
    /\ boundary rest = true;
  rd_words w : w ∈ writing_words -> ~ has_word w s;
  rd_names before name : reads s before name ->
    contains "." name = false
      /\ (strip "`"%char name ∈ aliases \/ defines_cte s (strip "`"%char name))
    \/ taken_as_name before;
}.

(** ** Characters *)

(** A fact about every character, by computation. *)
Definition every_ascii (p : ascii -> bool) : bool :=
  forallb (fun n => p (ascii_of_nat n)) (seq 0 256).

Lemma by_every_ascii p a : every_ascii p = true -> p a = true.
Proof.
  intros Hp. unfold every_ascii in Hp. rewrite forallb_forall in Hp.
  rewrite <- (ascii_nat_embedding a). apply Hp, in_seq. pose proof (nat_ascii_bounded a). lia.
Qed.

Lemma space_not_table a : is_space a = true -> table_char a = false.
Proof.
  intros Ha. pose proof (by_every_ascii (fun a => implb (is_space a) (negb (table_char a))) a
    ltac:(by vm_compute)) as H. cbn in H. rewrite Ha in H. cbn in H. by destruct (table_char a).
Qed.

Lemma space_not_word a : is_space a = true -> is_word a = false.
Proof.
  intros Ha. apply space_not_table in Ha. unfold table_char in Ha. by destruct (is_word a).
Qed.

Lemma word_lower a : is_word (lower_char a) = true -> is_word a = true.
Proof.
  intros Ha. pose proof (by_every_ascii (fun a => implb (is_word (lower_char a)) (is_word a)) a
    ltac:(by vm_compute)) as H. cbn in H. by rewrite Ha in H.
Qed.

(** ** Texts in pieces *)

Lemma app_split (a b c d : string) :
  a +:+ b = c +:+ d ->
  (exists e, c = a +:+ e /\ b = e +:+ d) \/ (exists e, e <> "" /\ a = c +:+ e /\ d = e +:+ b).
Proof.
  revert c. induction a as [|x a IH]; intros c; [left; by exists c|].
  destruct c as [|y c].
  - cbn. intros Hd. right. exists (String x a). by split.
  - rewrite !string_app_cons. intros [= -> E]. destruct (IH c E) as [(e & -> & ->)|(e & He & -> & ->)].
    + left. by exists e.
    + right. by exists e.
Qed.

Lemma ends_app prev s t :
  ends_in_word prev (s +:+ t) = ends_in_word (ends_in_word prev s) t.
Proof. revert prev. induction s as [|a s IH]; intros prev; [done|]. cbn. apply IH. Qed.

Lemma ends_nonempty p q t : t <> "" -> ends_in_word p t = ends_in_word q t.
Proof. by destruct t. Qed.

Lemma forall_app p s t : string_forall p (s +:+ t) = string_forall p s && string_forall p t.
Proof.
  induction s as [|a s IH]; [done|]. rewrite string_app_cons. cbn [string_forall].
  by rewrite IH, andb_assoc.
Qed.

(** ** Matching a word *)

Lemma keyword_found k s r : keyword k s = Some r <-> exists found, s = found +:+ r /\ lower found = k.
Proof.
  revert s. induction k as [|c k IH]; intros s; cbn [keyword].
  - split; [intros [= ->]; by exists ""|]. by intros ([|a f] & -> & Hf).
  - destruct s as [|a s].
    + split; [done|]. intros ([|b f] & Hs & Hf); [|done]. by destruct r.
    + destruct (decide (lower_char a = c)) as [<-|Hn].
      * rewrite IH. split.
        -- intros (f & -> & <-). by exists (String a f).
        -- intros ([|b f] & Hs & Hf); [done|]. injection Hs as -> ->. injection Hf as Hf. by exists f.
      * split; [done|]. intros ([|b f] & Hs & Hf); [done|]. injection Hs as -> ->.
        injection Hf as Hc _. done.
Qed.

Lemma at_word_found ks s :
  at_word ks s = true <->
  exists found behind, s = found +:+ behind /\ lower found ∈ ks /\ boundary behind = true.
Proof.
  unfold at_word. rewrite existsb_exists. split.
  - intros (k & Hk%list_elem_of_In & Hm). destruct (keyword k s) as [r|] eqn:E; [|done].
    apply keyword_found in E as (f & -> & <-). by exists f, r.
  - intros (f & r & -> & Hk & Hb). exists (lower f). split; [by apply list_elem_of_In|].
    rewrite (proj2 (keyword_found (lower f) (f +:+ r) r)) by (by exists f). done.
Qed.

(** [search] finds every word of the list that stands in the text. *)
Lemma search_word_complete ks prev before found behind :
  lower found ∈ ks -> found <> "" -> ends_in_word prev before = false -> boundary behind = true ->
  search_word ks prev (before +:+ found +:+ behind) = true.
Proof.
  intros Hk Hne. revert prev. induction before as [|a before IH]; intros prev Hp Hb.
  - cbn in Hp. subst prev. assert (Hat : at_word ks (found +:+ behind) = true)
      by (apply at_word_found; by exists found, behind).
    rewrite string_app_nil. destruct found as [|x f]; [done|].
    rewrite string_app_cons in Hat |- *. cbn [search_word]. by rewrite Hat.
  - rewrite string_app_cons. cbn [search_word]. rewrite IH by done. apply orb_true_r.
Qed.

(** ** Cutting a text as the matchers do *)

Lemma drop_cut s : exists g, s = g +:+ drop_spaces s /\ blank g /\ (starts_with_space s = true -> g <> "").
Proof.
  induction s as [|a s (g & E & Hg & _)]; [by exists ""|]. cbn [drop_spaces starts_with_space].
  destruct (is_space a) eqn:Ea; [|by exists ""].
  exists (String a g). rewrite string_app_cons, <- E. split_and!; [done| |done].
  unfold blank. cbn [string_forall]. by rewrite Ea.
Qed.

Lemma drop_blank g s : blank g -> drop_spaces (g +:+ s) = drop_spaces s.
Proof.
  unfold blank. induction g as [|a g IH]; [done|]. cbn [string_forall].
  intros [Ha Hg]%andb_prop. rewrite string_app_cons. cbn [drop_spaces]. rewrite Ha. by apply IH.
Qed.

Lemma span_cut p s :
  s = (span p s).1 +:+ (span p s).2 /\ string_forall p (span p s).1 = true
  /\ next_is p (span p s).2 = false.
Proof.
  induction s as [|a s (E & Hf & Hn)]; [done|]. cbn [span]. destruct (p a) eqn:Ep.
  - destruct (span p s) as [x r]. cbn [fst snd string_forall] in *. rewrite Ep. split_and!; [by rewrite string_app_cons, <- E|done..].
  - cbn. by rewrite Ep.
Qed.

Lemma span_app p x s :
  string_forall p x = true -> next_is p s = false -> span p (x +:+ s) = (x, s).
Proof.
  intros Hx Hs. induction x as [|a x IH].
  - rewrite string_app_nil. destruct s as [|a s]; [done|]. cbn in *. by rewrite Hs.
  - cbn in Hx. apply andb_prop in Hx as [Ha Hx]. rewrite string_app_cons. cbn [span].
    by rewrite Ha, IH.
Qed.

Lemma all_words_end p s : string_forall is_word s = true -> s <> "" -> ends_in_word p s = true.
Proof.
  revert p. induction s as [|a s IH]; intros p; [done|]. cbn. intros [Ha Hs]%andb_prop _.
  destruct s as [|b s]; [exact Ha|]. by apply IH.
Qed.

Lemma reading_words kw : reading_word kw -> string_forall is_word kw = true /\ kw <> "".
Proof.
  assert (Hl : forall s, string_forall is_word (lower s) = true -> string_forall is_word s = true).
  { induction s as [|a s IH]; [done|]. cbn. intros [Ha Hs]%andb_prop.
    rewrite (word_lower a Ha). by apply IH. }
  intros Hk. split.
  - apply Hl. by destruct Hk as [-> | ->].
  - intros ->. by destruct Hk.
Qed.

Lemma word_not_space a : is_word a = true -> is_space a = false.
Proof.
  intros Ha. destruct (is_space a) eqn:E; [|done]. apply space_not_word in E. congruence.
Qed.

Lemma next_word s t : s <> "" -> string_forall is_word s = true -> next_is table_char (s +:+ t) = true.
Proof.
  destruct s as [|a s]; [done|]. intros _. cbn [string_forall]. intros [Ha _]%andb_prop.
  change (table_char a = true). unfold table_char. by rewrite Ha.
Qed.

(** ** The tables *)

Lemma table_at kw g name behind :
  reading_word kw -> gap g -> name <> "" -> string_forall table_char name = true ->
  next_is table_char behind = false ->
  _TABLE false (kw +:+ g +:+ name +:+ behind) = Some (name, behind).
Proof.
  intros Hk [Hg Hb] Hn Hf Hr.
  assert (Ht : table_name (g +:+ name +:+ behind) = Some (name, behind)).
  { unfold table_name. rewrite drop_blank by done.
    assert (starts_with_space (g +:+ name +:+ behind) = true) as ->.
    { destruct g as [|a g]; [done|]. unfold blank in Hb. cbn in *. by apply andb_prop in Hb as [? _]. }
    assert (drop_spaces (name +:+ behind) = name +:+ behind) as ->.
    { destruct name as [|a x]; [done|]. rewrite string_app_cons. cbn [drop_spaces].
      cbn in Hf. apply andb_prop in Hf as [Ha _]. destruct (is_space a) eqn:E; [|done].
      apply space_not_table in E. congruence. }
    rewrite span_app by done. by destruct name. }
  unfold _TABLE. destruct Hk as [Hk|Hk].
  - by rewrite (proj2 (keyword_found "from" _ _)) by (by exists kw).
  - destruct (keyword "from" _) as [r|] eqn:E.
    { apply keyword_found in E as (f & Es & Ef). exfalso.
      destruct kw as [|a kw], f as [|b f]; try done. injection Es as -> _.
      injection Hk as Ha _. injection Ef as Hb' _. congruence. }
    by rewrite (proj2 (keyword_found "join" _ _)) by (by exists kw).
Qed.

Lemma table_cut prev s x b :
  _TABLE prev s = Some (x, b) ->
  prev = false /\ exists kw g, s = kw +:+ g +:+ x +:+ b /\ reading_word kw /\ gap g /\ x <> ""
    /\ string_forall table_char x = true /\ next_is table_char b = false.
Proof.
  assert (Hname : forall r, table_name r = Some (x, b) ->
    exists g, r = g +:+ x +:+ b /\ gap g /\ x <> ""
      /\ string_forall table_char x = true /\ next_is table_char b = false).
  { intros r. unfold table_name. destruct (starts_with_space r) eqn:Es; [|done].
    destruct (drop_cut r) as (g & Er & Hb & Hg).
    destruct (span_cut table_char (drop_spaces r)) as (E & Hf & Hn).
    destruct (span table_char (drop_spaces r)) as [y t]. cbn in E, Hf, Hn.
    destruct y as [|c y]; [done|]. intros [= <- <-]. exists g.
    split_and!; [by rewrite <- E|split; [by apply Hg|done]|done..]. }
  unfold _TABLE. destruct prev; [done|]. split; [done|].
  destruct (keyword "from" s) as [r|] eqn:E.
  - apply keyword_found in E as (kw & -> & Hk). destruct (Hname r H) as (g & -> & Hr).
    exists kw, g. split; [done|]. split; [by left|exact Hr].
  - destruct (keyword "join" s) as [r|] eqn:E'; [|done].
    apply keyword_found in E' as (kw & -> & Hk). destruct (Hname r H) as (g & -> & Hr).
    exists kw, g. split; [done|]. split; [by right|exact Hr].
Qed.

(** The matchers skip [before], or one of them takes what follows it as a name. *)
Definition taken (prev : bool) (before : string) : Prop :=
  exists b kw g t, before = b +:+ kw +:+ g +:+ t /\ reading_word kw /\ ends_in_word prev b = false
    /\ gap g /\ string_forall table_char t = true.

Lemma taken_later prev m b :
  ends_in_word prev m = false \/ next_is is_word b = false -> taken false b -> taken prev (m +:+ b).
Proof.
  intros Hm (b' & kw & g & t & -> & Hk & Hb & Hg & Ht). exists (m +:+ b'), kw, g, t.
  split_and!; [by rewrite string_app_assoc|done| |done..]. rewrite ends_app.
  destruct b' as [|a b']; [|by rewrite (ends_nonempty _ false)]. cbn.
  destruct Hm as [Hm|Hm]; [done|]. exfalso. rewrite string_app_nil in Hm.
  destruct (reading_words kw Hk) as [Hw Hne]. destruct kw as [|a kw]; [done|].
  cbn [string_forall] in Hw. apply andb_prop in Hw as [Ha _]. change (is_word a = false) in Hm.
  congruence.
Qed.

(** What a matcher takes cannot start inside [before] unless it takes the keyword as
    (a part of) its name. *)
Lemma table_overlap prev before rest x r :
  ends_in_word prev before = false -> before <> "" ->
  (forall a t, rest = String a t -> is_word a = true) -> rest <> "" ->
  _TABLE prev (before +:+ rest) = Some (x, r) ->
  taken prev before
  \/ exists m later, before = m +:+ later /\ r = later +:+ rest
       /\ next_is table_char r = false.
Proof.
  intros Hb Hne Hrest Hr (-> & kw & g & Es & Hk & Hg & Hx & Hf & Hn)%table_cut.
  destruct (reading_words kw Hk) as [Hw Hkne].
  destruct (app_split _ _ _ _ Es) as [(e & Ek & _)|(e & He & -> & E1)].
  { exfalso. subst kw. rewrite forall_app in Hw. apply andb_prop in Hw as [Hw _].
    rewrite (all_words_end false before Hw Hne) in Hb. done. }
  destruct (app_split _ _ _ _ E1) as [(e2 & -> & E2)|(e2 & He2 & Eg & E2)].
  - destruct (app_split _ _ _ _ E2) as [(e3 & -> & E3)|(e3 & He3 & -> & E3)].
    + right. exists (kw +:+ g +:+ x), e3. subst r. split_and!; [|done..].
      by rewrite !string_app_assoc.
    + left. exists "", kw, g, e2. split_and!; try done.
      rewrite forall_app in Hf. by apply andb_prop in Hf as [? _].
  - exfalso. destruct Hg as [_ Hg]. unfold blank in Hg. rewrite Eg, forall_app in Hg.
    apply andb_prop in Hg as [_ Hg]. destruct e2 as [|a e2]; [done|].
    cbn [string_forall] in Hg. apply andb_prop in Hg as [Ha _].
    rewrite string_app_cons in E2. specialize (Hrest a _ E2). apply word_not_space in Hrest.
    congruence.
Qed.

Lemma findall_step here f p a s :
  findall here (S f) p (String a s)
  = match here p (String a s) with
    | Some (x, behind) => x :: findall here f false behind
    | None => findall here f (is_word a) s
    end.
Proof. done. Qed.

(** [findall] finds the name behind every "from" and "join" that is not itself
    taken for a name. *)
Lemma tables_complete fuel prev before kw g name behind :
  (String.length (before +:+ kw +:+ g +:+ name +:+ behind) <= fuel)%nat ->
  ends_in_word prev before = false -> reading_word kw -> gap g -> name <> "" ->
  string_forall table_char name = true -> next_is table_char behind = false ->
  name ∈ findall _TABLE fuel prev (before +:+ kw +:+ g +:+ name +:+ behind) \/ taken prev before.
Proof.
  intros Hf Hb Hk Hg Hn Ht Hbe. destruct (reading_words kw Hk) as [Hw Hkne].
  set (rest := kw +:+ g +:+ name +:+ behind) in *.
  assert (Hrest : forall a t, rest = String a t -> is_word a = true).
  { intros a t E. unfold rest in E. destruct kw as [|c kw]; [done|]. injection E as -> _.
    cbn [string_forall] in Hw. by apply andb_prop in Hw as [? _]. }
  assert (Hrne : rest <> "") by (unfold rest; by destruct kw).
  revert prev before Hf Hb. induction fuel as [|fuel IH]; intros prev before Hf Hb.
  { exfalso. destruct before as [|c before]; [rewrite string_app_nil in Hf; by destruct rest; [|cbn in Hf; lia]|].
    rewrite string_app_cons in Hf. cbn in Hf. lia. }
  destruct before as [|a before].
  - left. cbn in Hb. subst prev. rewrite string_app_nil.
    pose proof (table_at kw g name behind Hk Hg Hn Ht Hbe) as E. fold rest in E.
    destruct rest as [|c t]; [done|]. rewrite findall_step, E. by left.
  - pose proof (table_overlap prev (String a before) rest) as Hov.
    rewrite string_app_cons in Hf, Hov |- *. rewrite findall_step.
    destruct (_TABLE prev (String a (before +:+ rest))) as [[x r]|] eqn:E.
    + destruct (Hov x r Hb ltac:(done) Hrest Hrne eq_refl) as [?|(m & later & Em & -> & Hnx)];
        [by right|].
      assert (Hnw : next_is is_word later = false).
      { destruct later as [|c later]; [done|]. change (table_char c = false) in Hnx.
        change (is_word c = false). unfold table_char in Hnx. by destruct (is_word c). }
      destruct (IH false later) as [?|Hta]; [| |left; by right|right].
      * pose proof (table_cut _ _ _ _ E) as (_ & kw0 & g0 & Es & Hk0 & _).
        rewrite Es in Hf. destruct (reading_words kw0 Hk0) as [_ Hne0].
        assert (Hl : forall s t, String.length (s +:+ t) = (String.length s + String.length t)%nat).
        { intros s t. induction s as [|c s IHs]; [done|]. rewrite string_app_cons. cbn. by rewrite IHs. }
        rewrite !Hl in Hf. rewrite Hl. destruct kw0; [done|]. cbn in Hf. lia.
      * rewrite Em, ends_app in Hb. destruct later as [|c later]; [done|].
        by rewrite (ends_nonempty _ (ends_in_word prev m)).
      * rewrite Em. apply taken_later; [by right|done].
    + destruct (IH (is_word a) before) as [?|(b & kw' & g' & t & -> & H)]; [| |by left|right].
      * cbn in Hf. lia.
      * done.
      * exists (String a b), kw', g', t. split; [by rewrite string_app_cons|]. exact H.
Qed.

(** ** Common table expressions *)

(** What [findall] finds stands in the text. *)
Lemma findall_sound here :
  (forall p s x b, here p s = Some (x, b) -> exists m, s = m +:+ b /\ ends_in_word p m = false) ->
  forall fuel prev s x, x ∈ findall here fuel prev s ->
    exists before rest b, s = before +:+ rest /\ here (ends_in_word prev before) rest = Some (x, b).
Proof.
  intros Hcut fuel. induction fuel as [|fuel IH]; intros prev s x; [by destruct s; intros ?%not_elem_of_nil|].
  destruct s as [|a s]; [by intros ?%not_elem_of_nil|]. rewrite findall_step.
  destruct (here prev (String a s)) as [[y b]|] eqn:E.
  - rewrite elem_of_cons. intros [->|Hx]; [by exists "", (String a s), b|].
    destruct (Hcut _ _ _ _ E) as (m & Es & Hm).
    destruct (IH _ _ _ Hx) as (before & rest & b' & -> & Hh).
    exists (m +:+ before), rest, b'. rewrite Es, string_app_assoc, ends_app, Hm. by split.
  - intros Hx. destruct (IH _ _ _ Hx) as (before & rest & b' & -> & Hh).
    by exists (String a before), rest, b'.
Qed.

Lemma cte_as_cut r b :
  cte_as r = Some b ->
  exists g2 kw g3, r = g2 +:+ kw +:+ g3 +:+ "(" +:+ b /\ gap g2 /\ lower kw = "as" /\ blank g3.
Proof.
  unfold cte_as. destruct (starts_with_space r) eqn:Es; [|done].
  destruct (drop_cut r) as (g2 & Er & Hb2 & Hg2).
  destruct (keyword "as" (drop_spaces r)) as [t|] eqn:Ek; [|done].
  apply keyword_found in Ek as (kw & Ek & Hk). destruct (drop_cut t) as (g3 & Et & Hb3 & _).
  destruct (drop_spaces t) as [|a u]; [done|]. case_decide as Ha; [|done]. intros [= ->]. subst a.
  exists g2, kw, g3. split_and!; [|by split; [apply Hg2|]|done|done].
  rewrite Er, Ek, Et at 1. done.
Qed.

Definition cte_piece (prev : bool) (s name b : string) : Prop :=
  exists head g1 g2 kw g3, s = head +:+ g1 +:+ name +:+ g2 +:+ kw +:+ g3 +:+ "(" +:+ b
    /\ (head = "," \/ lower head = "with" /\ prev = false /\ g1 <> "") /\ blank g1
    /\ isidentifier name = true /\ gap g2 /\ lower kw = "as" /\ blank g3.

Lemma cte_cut prev s name b : _CTE prev s = Some (name, b) -> cte_piece prev s name b.
Proof.
  unfold _CTE. destruct (cte_head prev s) as [r|] eqn:Eh; [|done].
  destruct (drop_cut r) as (g1 & Er & Hb1 & _). destruct (drop_spaces r) as [|a u] eqn:Ed; [done|].
  destruct (is_letter a) eqn:Ea; [|done].
  destruct (span_cut is_word (String a u)) as (Esp & Hf & _).
  destruct (span is_word (String a u)) as [n v] eqn:Ev. cbn [fst snd] in Esp, Hf.
  destruct (cte_as v) as [w|] eqn:Ew; [|done]. intros [= -> ->].
  apply cte_as_cut in Ew as (g2 & kw & g3 & -> & Hg2 & Hk & Hb3).
  assert (Hid : isidentifier name = true).
  { cbn [span] in Ev. assert (is_word a = true) as Haw by (unfold is_word; by rewrite Ea).
    rewrite Haw in Ev. destruct (span is_word u) as [y z]. injection Ev as <- _.
    cbn [isidentifier]. rewrite Ea. cbn [string_forall] in Hf. by apply andb_prop in Hf as [_ Hf]. }
  assert (Hr : r = g1 +:+ name +:+ g2 +:+ kw +:+ g3 +:+ "(" +:+ b) by (by rewrite Er, Esp).
  assert (Hh : (exists f, s = f +:+ r /\ lower f = "with" /\ prev = false /\ boundary r = true)
               \/ s = "," +:+ r).
  { unfold cte_head in Eh. destruct (if prev then None else keyword "with" s) as [t|] eqn:Et.
    - destruct (boundary t) eqn:Eb; [|done]. injection Eh as ->. left. destruct prev; [done|].
      apply keyword_found in Et as (f & -> & Hf'). by exists f.
    - destruct s as [|c s]; [done|]. case_decide; [|done]. injection Eh as ->. subst. by right. }
  destruct Hh as [(f & -> & Hf' & Hp & Hbo)|Hs].
  - exists f, g1, g2, kw, g3. split_and!; [by rewrite <- Hr| |done..]. right. split_and!; [done..|].
    intros ->. rewrite Er, string_app_nil in Hbo. cbn [boundary] in Hbo. unfold is_word in Hbo.
    by rewrite Ea in Hbo.
  - exists ",", g1, g2, kw, g3. split_and!; [by rewrite <- Hr|by left|done..].
Qed.

Lemma cte_consumes p s x b : _CTE p s = Some (x, b) -> exists m, s = m +:+ b /\ ends_in_word p m = false.
Proof.
  intros (head & g1 & g2 & kw & g3 & -> & _)%cte_cut.
  exists (head +:+ g1 +:+ x +:+ g2 +:+ kw +:+ g3 +:+ "(").
  rewrite !ends_app. split; [|done]. by rewrite <- !string_app_assoc.
Qed.

Lemma ctes_sound s name : name ∈ find_all _CTE s -> defines_cte s name.
Proof.
  intros (before & rest & b & -> & Hc)%(findall_sound _ cte_consumes).
  apply cte_cut in Hc as (head & g1 & g2 & kw & g3 & -> & Hh & H).
  exists before, head, g1, g2, kw, g3, b. split; [done|]. split; [|exact H].
  destruct Hh as [?|(? & ? & ?)]; [by left|by right].
Qed.

(** ** One character in a text *)

Lemma contains_char c a s :
  contains (String c "") (String a s) = bool_decide (a = c) || contains (String c "") s.
Proof.
  cbn [contains]. f_equal. unfold starts_with. cbn [String.prefix].
  destruct (ascii_dec c a) as [<-|Hn]; [by rewrite bool_decide_true; destruct s|].
  by rewrite bool_decide_false.
Qed.

Lemma contains_cut c before behind :
  contains (String c "") (before +:+ String c "" +:+ behind) = true.
Proof.
  apply contains_app. rewrite string_app_cons, string_app_nil, contains_char.
  by rewrite bool_decide_true.
Qed.

Lemma split_no c s : contains (String c "") s = false -> split_on c s = [s].
Proof.
  induction s as [|a s IH]; [done|]. rewrite contains_char. intros [Ha Hs]%orb_false_elim.
  cbn [split_on]. rewrite IH by done. apply bool_decide_eq_false in Ha. by rewrite decide_False.
Qed.

Lemma contains_lstrip c d s :
  contains (String c "") s = false -> contains (String c "") (lstrip d s) = false.
Proof.
  induction s as [|a s IH]; [done|]. intros H. cbn [lstrip]. case_decide; [|done].
  rewrite contains_char in H. apply orb_false_elim in H as [_ H]. by apply IH.
Qed.

Lemma contains_rstrip c d s :
  contains (String c "") s = false -> contains (String c "") (rstrip d s) = false.
Proof.
  induction s as [|a s IH]; [done|]. rewrite contains_char. intros [Ha Hs]%orb_false_elim.
  specialize (IH Hs). cbn [rstrip]. destruct (rstrip d s) as [|b t].
  - destruct (decide (a = d)); [done|]. by rewrite contains_char, Ha.
  - by rewrite contains_char, Ha.
Qed.

Lemma plain_source_name raw : contains "." raw = false -> source_name raw = strip "`"%char raw.
Proof.
  intros Hd. unfold source_name, strip. rewrite split_no; [done|].
  by apply contains_rstrip, contains_lstrip.
Qed.

(** ** The checks give the specification *)

Lemma checks_specify aliases s :
  contains ";" s = false -> at_word ["select"; "with"] s = true -> _FORBIDDEN s = false ->
  (forall raw, raw ∈ find_all _TABLE s ->
     contains "." raw = false /\ source_name raw ∈ aliases ++ find_all _CTE s) ->
  reads_declared aliases s.
Proof.
  intros H1 H2 H3 H4. split.
  - intros before behind ->. change ";" with (String ";" "") in H1. by rewrite contains_cut in H1.
  - apply at_word_found in H2 as (kw & rest & -> & Hk & Hb). exists kw, rest.
    split_and!; [done| |done]. set_solver.
  - intros w Hw (before & found & behind & -> & <- & Ha & Hb).
    unfold _FORBIDDEN in H3. rewrite search_word_complete in H3; [done|exact Hw| |done|done].
    intros ->. cbn in Hw. set_solver.
  - intros before name (kw & g & behind & -> & Hk & Ha & Hg & Hn & Ht & Hbe).
    destruct (tables_complete _ false before kw g name behind (le_n _) Ha Hk Hg Hn Ht Hbe)
      as [Hin|Hta]; [left|right].
    + destruct (H4 name Hin) as [Hd Hs]. split; [done|]. rewrite (plain_source_name name Hd) in Hs.
      apply elem_of_app in Hs as [?|Hs]; [by left|right]. by apply ctes_sound.
    + destruct Hta as (b & kw' & g' & t & -> & Hk' & Hb' & Hg' & Ht'). by exists b, kw', g', t.
Qed.
