(* ===== verification/SqlTheorems.v ===== *)
(** * What the SQL checks promise

    The matchers do not see how long a run of white space is, so the text that
    the fallback returns passes the same checks and is its own normal form; an
    accepted query names, directly behind "from" and "join", declared sources and
    its own common table expressions only. *)

From Stdlib Require Import Ascii.
From S2P Require Import Prelude Models Sql SqlSpec.

#[local] Open Scope Z_scope.

(** ** Characters *)

(** No keyword, comma or parenthesis has a space. *)
Definition spaceless (k : string) : bool := string_forall (fun c => negb (is_space c)) k.

Lemma space_lower a : is_space a = true -> is_space (lower_char a) = true.
Proof.
  intros Ha. pose proof (by_every_ascii (fun a => implb (is_space a) (is_space (lower_char a))) a
    ltac:(by vm_compute)) as H. cbn in H. rewrite Ha in H. exact H.
Qed.

(** ** Squeezed texts *)

Lemma squeeze_true s : squeeze true s = squeeze false (drop_spaces s).
Proof. induction s as [|a s IH]; cbn; [done|]. by destruct (is_space a) eqn:E; [|cbn; rewrite E]. Qed.

Lemma drop_squeeze s : drop_spaces (squeeze false (drop_spaces s)) = squeeze false (drop_spaces s).
Proof.
  induction s as [|a s IH]; cbn; [done|]. destruct (is_space a) eqn:E; [done|].
  cbn. rewrite E. cbn. by rewrite E.
Qed.

Lemma drop_squeezed s : drop_spaces (squeeze false s) = squeeze false (drop_spaces s).
Proof.
  destruct s as [|a s]; [done|]. cbn. destruct (is_space a) eqn:E.
  - cbn. rewrite squeeze_true. apply drop_squeeze.
  - cbn. by rewrite E.
Qed.

Lemma drop_drop s : drop_spaces (drop_spaces s) = drop_spaces s.
Proof. induction s as [|a s IH]; cbn; [done|]. destruct (is_space a) eqn:E; [done|]. cbn. by rewrite E. Qed.

Lemma keyword_squeeze k s :
  spaceless k = true -> keyword k (squeeze false s) = squeeze false <$> keyword k s.
Proof.
  revert s. induction k as [|c k IH]; intros s Hk; [by destruct s|].
  cbn in Hk. apply andb_prop in Hk as [Hc Hk].
  destruct s as [|a s]; [done|]. cbn [squeeze]. destruct (is_space a) eqn:E.
  - cbn [keyword]. rewrite !decide_False; [done| |].
    + intros Ha. apply space_lower in E. rewrite Ha in E. by rewrite E in Hc.
    + intros Ha. change (lower_char " ") with " "%char in Ha. subst c. done.
  - cbn [keyword]. case_decide; [by apply IH|done].
Qed.

Lemma boundary_squeeze s : boundary (squeeze false s) = boundary s.
Proof.
  destruct s as [|a s]; [done|]. cbn [squeeze boundary]. destruct (is_space a) eqn:E; [|done].
  by rewrite (space_not_word a E).
Qed.

Lemma starts_squeeze s : starts_with_space (squeeze false s) = starts_with_space s.
Proof.
  destruct s as [|a s]; [done|]. cbn [squeeze starts_with_space].
  destruct (is_space a) eqn:E; [done|]. cbn. by rewrite E.
Qed.

Lemma span_squeeze p s :
  (forall a, is_space a = true -> p a = false) ->
  span p (squeeze false s) = ((span p s).1, squeeze false (span p s).2).
Proof.
  intros Hp. induction s as [|a s IH]; [done|]. cbn [squeeze span].
  destruct (is_space a) eqn:E.
  - cbn [span]. rewrite (Hp " "%char) by done. rewrite (Hp a) by done. cbn. by rewrite E.
  - cbn [span]. rewrite IH. destruct (span p s) as [x r]. destruct (p a); [done|]. cbn. by rewrite E.
Qed.

Lemma at_word_squeeze ks s :
  forallb spaceless ks = true -> at_word ks (squeeze false s) = at_word ks s.
Proof.
  induction ks as [|k ks IH]; [done|]. cbn [forallb]. intros [Hk Hks]%andb_prop.
  unfold at_word in *. cbn [existsb]. rewrite IH, keyword_squeeze by done.
  destruct (keyword k s); [cbn; by rewrite boundary_squeeze|done].
Qed.

Lemma at_word_space ks a s : forallb (fun k => spaceless k && negb (bool_decide (k = ""))) ks = true ->
  is_space a = true -> at_word ks (String a s) = false.
Proof.
  intros Hks Ha. induction ks as [|k ks IH]; [done|]. cbn [forallb] in Hks.
  apply andb_prop in Hks as [[Hk He]%andb_prop Hks]. unfold at_word in *. cbn [existsb].
  rewrite IH by done. destruct k as [|c k]; [done|]. cbn [keyword]. rewrite decide_False; [done|].
  intros Hc. cbn in Hk. apply andb_prop in Hk as [Hk _]. apply space_lower in Ha.
  rewrite Hc in Ha. by rewrite Ha in Hk.
Qed.

(** ** Searching *)

Definition good_words (ks : list string) : bool :=
  forallb (fun k => spaceless k && negb (bool_decide (k = ""))) ks.

Lemma good_spaceless ks : good_words ks = true -> forallb spaceless ks = true.
Proof.
  unfold good_words. induction ks as [|k ks IH]; [done|]. cbn.
  intros [[-> _]%andb_prop Hks]%andb_prop. by rewrite IH.
Qed.

Lemma search_drop ks s :
  good_words ks = true -> search_word ks false (drop_spaces s) = search_word ks false s.
Proof.
  intros Hks. induction s as [|a s IH]; [done|]. cbn [drop_spaces]. destruct (is_space a) eqn:E; [|done].
  cbn [search_word]. rewrite at_word_space, (space_not_word a E) by done. exact IH.
Qed.

Lemma search_squeeze ks prev s :
  good_words ks = true -> search_word ks prev (squeeze false s) = search_word ks prev s.
Proof.
  intros Hks. revert prev. induction s as [|a s IH]; intros prev; [done|].
  pose proof (at_word_squeeze ks (String a s) (good_spaceless ks Hks)) as Hat.
  cbn [squeeze] in *. destruct (is_space a) eqn:E.
  - cbn [search_word]. rewrite Hat. rewrite (space_not_word a E).
    rewrite squeeze_true, <- drop_squeezed, search_drop by done. by rewrite IH.
  - cbn [search_word]. by rewrite Hat, IH.
Qed.

(** ** Finding all *)

Lemma length_drop s : (String.length (drop_spaces s) <= String.length s)%nat.
Proof. induction s as [|a s IH]; cbn; [done|]. destruct (is_space a); cbn; lia. Qed.

Lemma length_keyword k s r : keyword k s = Some r -> (String.length r <= String.length s)%nat.
Proof.
  revert s. induction k as [|c k IH]; intros s; [by intros [= ->]|].
  destruct s as [|a s]; cbn; [done|]. case_decide; [|done]. intros Hr. apply IH in Hr. lia.
Qed.

Lemma length_span p s : (String.length (span p s).2 <= String.length s)%nat.
Proof.
  induction s as [|a s IH]; cbn; [done|]. destruct (span p s) as [x r]. destruct (p a); cbn in *; lia.
Qed.

Section matchers.
Context (here : bool -> string -> option (string * string)).
Hypothesis here_shrinks : forall p s x r, here p s = Some (x, r) -> (String.length r < String.length s)%nat.
Hypothesis here_space : forall p a s, is_space a = true -> here p (String a s) = None.
Hypothesis here_squeeze : forall p s,
  here p (squeeze false s) = (fun m => (m.1, squeeze false m.2)) <$> here p s.

(** The fuel is enough: a match shortens the text. *)
Lemma findall_fuel f1 f2 p s :
  (String.length s <= f1)%nat -> (String.length s <= f2)%nat ->
  findall here f1 p s = findall here f2 p s.
Proof using here_shrinks.
  revert f2 p s. induction f1 as [|f1 IH]; intros f2 p [|a s] H1 H2; cbn in H1, H2;
    try lia; try (by destruct f2).
  destruct f2 as [|f2]; [lia|]. cbn [findall].
  destruct (here p (String a s)) as [[x r]|] eqn:E; [|apply IH; lia].
  apply here_shrinks in E. cbn in E. f_equal. apply IH; lia.
Qed.

Lemma findall_drop f s :
  (String.length s <= f)%nat -> findall here f false (drop_spaces s) = findall here f false s.
Proof using here_shrinks here_space.
  revert f. induction s as [|a s IH]; intros f Hf; [done|]. cbn [drop_spaces].
  destruct (is_space a) eqn:E; [|done]. cbn in Hf. destruct f as [|f]; [lia|].
  transitivity (findall here f false s).
  - rewrite <- (IH f) by lia. apply findall_fuel; pose proof (length_drop s); lia.
  - cbn [findall]. by rewrite here_space, (space_not_word a E).
Qed.

Lemma length_squeeze b s : (String.length (squeeze b s) <= String.length s)%nat.
Proof using.
  revert b. induction s as [|a s IH]; intros b; [done|]. cbn.
  destruct (is_space a), b; cbn; pose proof (IH true); pose proof (IH false); lia.
Qed.

Lemma findall_squeeze f p s :
  (String.length s <= f)%nat -> findall here f p (squeeze false s) = findall here f p s.
Proof using here_shrinks here_space here_squeeze.
  revert p s. induction f as [|f IH]; intros p [|a s] Hf; cbn in Hf; [done|lia|done|]. pose proof (here_squeeze p (String a s)) as Hat. cbn [squeeze] in *.
  destruct (is_space a) eqn:E.
  - clear Hat. cbn [findall]. rewrite !here_space by done.
    rewrite (space_not_word a E), squeeze_true, <- drop_squeezed.
    rewrite findall_drop; [apply IH; lia|]. pose proof (length_squeeze false s). lia.
  - cbn [findall]. rewrite Hat. destruct (here p (String a s)) as [[x r]|] eqn:Em; cbn.
    + apply here_shrinks in Em. cbn in Em. f_equal. apply IH. lia.
    + apply IH. lia.
Qed.

Lemma find_all_squeeze s : find_all here (squeeze false s) = find_all here s.
Proof using here_shrinks here_space here_squeeze.
  unfold find_all. rewrite <- (findall_squeeze (String.length s) false s) by done.
  apply findall_fuel; [done|apply length_squeeze].
Qed.
End matchers.

(** ** The patterns *)

Lemma keyword_at_space k a s :
  spaceless k = true -> k <> "" -> is_space a = true -> keyword k (String a s) = None.
Proof.
  intros Hk He Ha. pose proof (at_word_space [k] a s) as H. unfold at_word in H. cbn in H.
  destruct k as [|c k]; [done|]. cbn [keyword]. rewrite decide_False; [done|].
  intros Hc. apply space_lower in Ha. rewrite Hc in Ha. cbn in Hk. by rewrite Ha in Hk.
Qed.

Lemma keyword_shorter k s r : keyword k s = Some r -> k <> "" -> (String.length r < String.length s)%nat.
Proof.
  destruct k as [|c k]; [done|]. destruct s as [|a s]; cbn; [done|]. case_decide; [|done].
  intros Hr%length_keyword _. lia.
Qed.

#[local] Arguments keyword : simpl never.

Definition moved (m : string * string) : string * string := (m.1, squeeze false m.2).

Lemma table_name_squeeze r : table_name (squeeze false r) = moved <$> table_name r.
Proof.
  unfold table_name. rewrite starts_squeeze, drop_squeezed, span_squeeze by apply space_not_table.
  destruct (starts_with_space r); [|done]. by destruct (span table_char (drop_spaces r)) as [[|b x] t].
Qed.

Lemma table_name_length r x t : table_name r = Some (x, t) -> (String.length t <= String.length r)%nat.
Proof.
  unfold table_name. destruct (starts_with_space r); [|done].
  pose proof (length_span table_char (drop_spaces r)) as Hs. pose proof (length_drop r).
  destruct (span table_char (drop_spaces r)) as [[|b y] u]; [done|]. cbn in Hs. intros [= _ <-]. lia.
Qed.

Lemma table_squeeze p s : _TABLE p (squeeze false s) = moved <$> _TABLE p s.
Proof.
  unfold _TABLE. destruct p; [done|]. rewrite !keyword_squeeze by done.
  destruct (keyword "from" s); cbn; [apply table_name_squeeze|].
  destruct (keyword "join" s); cbn; [apply table_name_squeeze|done].
Qed.

Lemma table_shrinks p s x r : _TABLE p s = Some (x, r) -> (String.length r < String.length s)%nat.
Proof.
  unfold _TABLE. destruct p; [done|].
  destruct (keyword "from" s) eqn:E; [|destruct (keyword "join" s) eqn:E'; [|done]];
    intros H%table_name_length.
  - apply keyword_shorter in E; [lia|done].
  - apply keyword_shorter in E'; [lia|done].
Qed.

Lemma table_space p a s : is_space a = true -> _TABLE p (String a s) = None.
Proof. intros Ha. unfold _TABLE. destruct p; [done|]. by rewrite !keyword_at_space. Qed.

Lemma cte_head_squeeze p s : cte_head p (squeeze false s) = squeeze false <$> cte_head p s.
Proof.
  unfold cte_head. rewrite keyword_squeeze by done.
  destruct p, (keyword "with" s) as [r|]; cbn [fmap option_fmap option_map]; try (by rewrite boundary_squeeze; destruct (boundary r)).
  all: destruct s as [|a s]; [done|]; cbn [squeeze]; destruct (is_space a) eqn:E;
    [case_decide; [done|]; case_decide; [by subst|done]|by case_decide].
Qed.

Lemma cte_head_shrinks p s r : cte_head p s = Some r -> (String.length r < String.length s)%nat.
Proof.
  unfold cte_head. destruct p, (keyword "with" s) as [t|] eqn:E; cbn; intros H.
  3: { destruct (boundary t); [|done]. injection H as <-. by apply keyword_shorter in E. }
  all: destruct s as [|a s]; [done|]; case_decide; [|done]; injection H as <-; cbn; lia.
Qed.

Lemma cte_as_squeeze r : cte_as (squeeze false r) = squeeze false <$> cte_as r.
Proof.
  unfold cte_as. rewrite starts_squeeze, drop_squeezed, keyword_squeeze by done.
  destruct (starts_with_space r); [|done]. destruct (keyword "as" (drop_spaces r)) as [t|]; [|done].
  cbn [fmap option_fmap option_map]. rewrite drop_squeezed. pose proof (drop_drop t) as Hd.
  destruct (drop_spaces t) as [|a u]; [done|]. cbn [squeeze]. destruct (is_space a) eqn:E.
  - cbn [drop_spaces] in Hd. rewrite E in Hd. pose proof (length_drop u) as Hl. rewrite Hd in Hl.
    cbn in Hl. lia.
  - by case_decide.
Qed.

Lemma cte_as_length r t : cte_as r = Some t -> (String.length t <= String.length r)%nat.
Proof.
  unfold cte_as. destruct (starts_with_space r); [|done]. pose proof (length_drop r).
  destruct (keyword "as" (drop_spaces r)) as [u|] eqn:E; [|done]. apply length_keyword in E.
  pose proof (length_drop u). destruct (drop_spaces u) as [|a v]; [done|]. case_decide; [|done].
  intros [= <-]. cbn in *. lia.
Qed.

Lemma letter_not_space a : is_letter a = true -> is_space a = false.
Proof.
  intros Ha. destruct (is_space a) eqn:E; [|done]. apply space_not_word in E. unfold is_word in E.
  by rewrite Ha in E.
Qed.

Lemma cte_squeeze p s : _CTE p (squeeze false s) = moved <$> _CTE p s.
Proof.
  unfold _CTE. rewrite cte_head_squeeze. destruct (cte_head p s) as [r|]; [|done].
  cbn [fmap option_fmap option_map]. rewrite drop_squeezed, span_squeeze by apply space_not_word.
  pose proof (drop_drop r) as Hd. destruct (drop_spaces r) as [|a u]; [done|].
  cbn [squeeze]. destruct (is_space a) eqn:E.
  - cbn [drop_spaces] in Hd. rewrite E in Hd. pose proof (length_drop u) as Hl. rewrite Hd in Hl.
    cbn in Hl. lia.
  - destruct (is_letter a); [|done]. destruct (span is_word (String a u)) as [name t]. cbn [fst snd].
    rewrite cte_as_squeeze. by destruct (cte_as t).
Qed.

Lemma cte_shrinks p s x r : _CTE p s = Some (x, r) -> (String.length r < String.length s)%nat.
Proof.
  unfold _CTE. destruct (cte_head p s) as [t|] eqn:E; [|done]. apply cte_head_shrinks in E.
  pose proof (length_drop t). destruct (drop_spaces t) as [|a u] eqn:Et; [done|].
  destruct (is_letter a); [|done]. pose proof (length_span is_word (String a u)) as Hs.
  destruct (span is_word (String a u)) as [name v]. cbn [snd] in Hs.
  destruct (cte_as v) as [w|] eqn:Ev; [|done]. apply cte_as_length in Ev. intros [= _ <-]. lia.
Qed.

Lemma cte_space p a s : is_space a = true -> _CTE p (String a s) = None.
Proof.
  intros Ha. unfold _CTE, cte_head. rewrite keyword_at_space by done.
  rewrite decide_False by (intros ->; done). by destruct p.
Qed.

Lemma tables_squeeze s : find_all _TABLE (squeeze false s) = find_all _TABLE s.
Proof. apply find_all_squeeze; [apply table_shrinks|apply table_space|apply table_squeeze]. Qed.

Lemma ctes_squeeze s : find_all _CTE (squeeze false s) = find_all _CTE s.
Proof. apply find_all_squeeze; [apply cte_shrinks|apply cte_space|apply cte_squeeze]. Qed.

(** ** Stripping *)

Lemma contains_semicolon a s : contains ";" (String a s) = bool_decide (a = ";"%char) || contains ";" s.
Proof.
  cbn [contains]. f_equal. unfold starts_with. cbn [String.prefix].
  destruct (ascii_dec ";" a) as [<-|Hn]; [by destruct s|]. by rewrite bool_decide_false.
Qed.

Lemma semicolon_squeeze b s : contains ";" (squeeze b s) = contains ";" s.
Proof.
  revert b. induction s as [|a s IH]; intros b; [done|]. cbn [squeeze].
  destruct (is_space a) eqn:E; [|by rewrite !contains_semicolon, IH].
  rewrite (contains_semicolon a), bool_decide_false by (intros ->; done).
  destruct b; [apply IH|]. by rewrite contains_semicolon, IH.
Qed.

Lemma no_semicolon_rstrip s : contains ";" s = false -> rstrip ";"%char s = s.
Proof.
  induction s as [|a s IH]; [done|]. rewrite contains_semicolon. intros [Ha Hs]%orb_false_elim.
  cbn [rstrip]. rewrite IH by done. case_bool_decide; [done|]. destruct s; [|done].
  by rewrite decide_False.
Qed.

Lemma rstrip_idem s : rstrip_spaces (rstrip_spaces s) = rstrip_spaces s.
Proof.
  induction s as [|a s IH]; [done|]. cbn [rstrip_spaces]. destruct (rstrip_spaces s) as [|b t].
  - destruct (is_space a) eqn:E; [done|]. cbn. by rewrite E.
  - cbn [rstrip_spaces] in *. by rewrite IH.
Qed.

Lemma squeeze_nonempty b s : squeeze b (rstrip_spaces s) = "" -> rstrip_spaces s = "".
Proof.
  revert b. induction s as [|a s IH]; intros b; [done|]. cbn [rstrip_spaces].
  destruct (rstrip_spaces s) as [|c t].
  - destruct (is_space a) eqn:E; [done|]. cbn. by rewrite E.
  - cbn [squeeze] in *. destruct (is_space a), b; try done. intros H. specialize (IH true H). done.
Qed.

Lemma rstrip_squeeze b s : rstrip_spaces (squeeze b s) = squeeze b (rstrip_spaces s).
Proof.
  revert b. induction s as [|a s IH]; intros b; [done|].
  cbn [rstrip_spaces]. destruct (rstrip_spaces s) as [|c t] eqn:Et.
  - cbn [squeeze]. destruct (is_space a) eqn:E; [destruct b|]; cbn [rstrip_spaces]; rewrite ?IH; cbn;
      rewrite ?E; done.
  - rewrite <- Et in *. cbn [squeeze].
    assert (Hne : forall b, squeeze b (rstrip_spaces s) <> "")
      by (intros b' H%squeeze_nonempty; congruence).
    destruct (is_space a); [destruct b|]; cbn [rstrip_spaces]; rewrite IH; [done| |].
    + specialize (Hne true). by destruct (squeeze true (rstrip_spaces s)).
    + specialize (Hne false). by destruct (squeeze false (rstrip_spaces s)).
Qed.

(** No white space at either end. *)
Definition trimmed (s : string) : Prop := drop_spaces s = s /\ rstrip_spaces s = s.

Lemma rstrip_head s : drop_spaces s = s -> drop_spaces (rstrip_spaces s) = rstrip_spaces s.
Proof.
  destruct s as [|a s]; [done|]. cbn [drop_spaces]. destruct (is_space a) eqn:E.
  - intros H. pose proof (length_drop s) as Hl. rewrite H in Hl. cbn in Hl. lia.
  - intros _. cbn [rstrip_spaces]. rewrite E. destruct (rstrip_spaces s); cbn; by rewrite E.
Qed.

Lemma strip_trimmed s : trimmed (strip_spaces s).
Proof. split; [apply rstrip_head, drop_drop|apply rstrip_idem]. Qed.

Lemma trimmed_strip s : trimmed s -> strip_spaces s = s.
Proof. intros [Hd Hr]. unfold strip_spaces. by rewrite Hd. Qed.

Lemma squeeze_trimmed s : trimmed s -> trimmed (squeeze false s).
Proof. intros [Hd Hr]. split; [by rewrite drop_squeezed, Hd|by rewrite rstrip_squeeze, Hr]. Qed.

Lemma squeeze_idem b b' s : (b = true -> b' = true) -> squeeze b (squeeze b' s) = squeeze b' s.
Proof.
  revert b b'. induction s as [|a s IH]; intros b b' Hb; [done|]. cbn [squeeze].
  destruct (is_space a) eqn:E.
  - destruct b'; [by apply IH|]. cbn [squeeze]. destruct b; [by specialize (Hb eq_refl)|].
    cbn. by rewrite IH.
  - cbn [squeeze]. rewrite E. by rewrite IH.
Qed.

(** ** What the fallback accepts *)

(** The text passes every check of the fallback. *)
Record read_only (aliases : list string) (s : string) : Prop := {
  ro_one : contains ";" s = false;
  ro_head : at_word ["select"; "with"] s = true;
  ro_words : _FORBIDDEN s = false;
  ro_tables : check_tables (find_all _TABLE s) (aliases ++ find_all _CTE s) = Ok tt;
}.

Lemma read_only_squeeze aliases s : read_only aliases s -> read_only aliases (squeeze false s).
Proof.
  intros [H1 H2 H3 H4]. split.
  - by rewrite semicolon_squeeze.
  - by rewrite at_word_squeeze.
  - unfold _FORBIDDEN. by rewrite search_squeeze.
  - by rewrite tables_squeeze, ctes_squeeze.
Qed.

Lemma fallback_accepts sql aliases out :
  _fallback sql aliases = Ok out ->
  exists s, out = squeeze false s /\ trimmed s /\ read_only aliases s.
Proof.
  unfold _fallback. case_decide; [done|]. set (s := strip_spaces (rstrip _ _)).
  destruct (contains ";" s) eqn:E1; [done|]. destruct (at_word _ s) eqn:E2; [|done]. cbn [negb].
  destruct (_FORBIDDEN s) eqn:E3; [done|]. destruct (check_tables _ _) as [[]|] eqn:E4; [|done].
  intros [= <-]. exists s. split_and!; [done|apply strip_trimmed|by split].
Qed.

Lemma fallback_keeps aliases s : trimmed s -> read_only aliases s -> _fallback s aliases = Ok (squeeze false s).
Proof.
  intros Ht [H1 H2 H3 H4]. unfold _fallback. rewrite (trimmed_strip s Ht).
  rewrite decide_False by (by intros ->). destruct Ht as [Hd Hr].
  rewrite Hr, no_semicolon_rstrip, (trimmed_strip s) by done. by rewrite H1, H2, H3, H4.
Qed.

Lemma check_tables_ok raws allowed :
  match check_tables raws allowed with
  | Ok _ => forall raw, raw ∈ raws -> contains "." raw = false /\ source_name raw ∈ allowed
  | Err e => exn_cls e = QueryRejected
  end.
Proof.
  induction raws as [|raw raws IH]; cbn; [by intros raw ?%not_elem_of_nil|].
  destruct (contains "." raw) eqn:Ed; [done|]. cbn [orb]. case_bool_decide as Hn; [|done]. cbn.
  destruct (check_tables raws allowed); [|done].
  intros r [->|Hr]%elem_of_cons; [done|by apply IH].
Qed.

Lemma check_statement_ok tables allowed :
  match check_statement_tables tables allowed with
  | Ok _ => forall t, t ∈ tables -> t.1.1 = "" /\ t.1.2 = "" /\ t.2 ∈ allowed
  | Err e => exn_cls e = QueryRejected
  end.
Proof.
  induction tables as [|[[c d] n] tables IH]; cbn; [by intros t ?%not_elem_of_nil|].
  case_bool_decide; [|done]. case_bool_decide; [|done]. case_bool_decide; [|done]. cbn.
  destruct (check_statement_tables tables allowed); [|done].
  intros t [->|Ht]%elem_of_cons; [done|by apply IH].
Qed.

Lemma fallback_errors sql aliases e : _fallback sql aliases = Err e -> exn_cls e = QueryRejected.
Proof.
  unfold _fallback. case_decide; [by intros [= <-]|]. set (s := strip_spaces (rstrip _ _)).
  destruct (contains ";" s); [by intros [= <-]|]. destruct (at_word _ s); [|by intros [= <-]].
  cbn [negb]. destruct (_FORBIDDEN s); [by intros [= <-]|].
  pose proof (check_tables_ok (find_all _TABLE s) (aliases ++ find_all _CTE s)) as Hc.
  destruct (check_tables _ _); [done|]. by intros [= <-].
Qed.

(** C35: Accepted queries name declared sources.  A query is refused with
    QueryRejected, or the text that will be executed is one statement: with the
    parser, a query every table of which is unqualified and a declared source or one
    of its common table expressions; without it, a text as [reads_declared] says,
    however it is cut into pieces: there is no semicolon, it starts with the word
    "select" or "with", none of the nineteen words that write stands in it as a
    word, in any letter case, and every name that white space sets off from a "from"
    or "join" before it is unqualified and declared, or defined in that text by
    "with" or a comma and "name as (", unless that "from" or "join" is itself (a
    part of) a name so checked.  Names behind a comma, or behind a quote that
    follows the keyword at once, are not looked at ([comma_hides_a_table],
    [quote_hides_a_table]). *)
Theorem accepted_queries_name_declared_sources `{Sqlglot} sql aliases :
  match validate_and_normalize sql aliases, parse_spark with
  | Err e, _ => exn_cls e = QueryRejected
  | Ok out, Some parse =>
      exists st, parse sql = Ok [Some st] /\ sm_query st = true /\ out = sm_sql st
        /\ forall t, t ∈ sm_tables st -> t.1.1 = "" /\ t.1.2 = "" /\ t.2 ∈ aliases ++ sm_ctes st
  | Ok out, None => reads_declared aliases out
  end.
Proof.
  unfold validate_and_normalize. destruct parse_spark as [parse|].
  - destruct (parse sql) as [[|[st|] [|]]|e]; try done. destruct (sm_query st) eqn:Eq; [|done]. cbn.
    pose proof (check_statement_ok (sm_tables st) (aliases ++ sm_ctes st)) as Hc.
    destruct (check_statement_tables _ _); [|done]. by exists st.
  - destruct (_fallback sql aliases) as [out|e] eqn:E; [|by eapply fallback_errors].
    apply fallback_accepts in E as (s & -> & _ & Hs%read_only_squeeze). destruct Hs as [H1 H2 H3 H4].
    apply checks_specify; [done..|]. pose proof (check_tables_ok (find_all _TABLE (squeeze false s))
      (aliases ++ find_all _CTE (squeeze false s))) as Hc. by rewrite H4 in Hc.
Qed.

(** C36: The normal form is normal.  The text the fallback returns is accepted again
    for the same sources and returned unchanged, so a fingerprint taken over the
    normalised text, which validates it once more, is the fingerprint of the
    original.  Every trimmed text in which only the length and the kind of the runs
    of white space differ from it (they squeeze to the same text) has that normal
    form too; white space that is there in one text and missing in another makes
    two normal forms ([spacing_is_told_apart]). *)
Theorem normal_form_is_stable sql aliases out :
  _fallback sql aliases = Ok out ->
  _fallback out aliases = Ok out
  /\ forall other, strip_spaces other = other -> squeeze false other = out ->
     _fallback other aliases = Ok out.
Proof.
  intros (s & -> & Ht & Hs)%fallback_accepts. split.
  - rewrite fallback_keeps; [by rewrite squeeze_idem|by apply squeeze_trimmed|by apply read_only_squeeze].
  - intros other Ho Eo. rewrite fallback_keeps; [by rewrite Eo| |].
    + rewrite <- Ho. apply strip_trimmed.
    + apply read_only_squeeze in Hs. rewrite <- Eo in Hs. destruct Hs as [H1 H2 H3 H4]. split.
      * by rewrite semicolon_squeeze in H1.
      * by rewrite at_word_squeeze in H2.
      * unfold _FORBIDDEN in *. by rewrite search_squeeze in H3.
      * by rewrite tables_squeeze, ctes_squeeze in H4.
Qed.

(** ** The theorems at work *)

(** Only the first table behind "from" is checked: a comma hides the others. *)
Example comma_hides_a_table :
  _fallback "select * from t, secret" ["t"] = Ok "select * from t, secret".
Proof. by vm_compute. Qed.

(** No white space is needed before a quoted name. *)
Example quote_hides_a_table :
  _fallback "select * from`secret`" ["t"] = Ok "select * from`secret`".
Proof. by vm_compute. Qed.

(** A keyword that is taken for a name hides what follows it. *)
Example keyword_as_a_name :
  _fallback "select * from from secret" ["from"] = Ok "select * from from secret".
Proof. by vm_compute. Qed.

Example spacing_is_told_apart :
  _fallback "select a,b from t" ["t"] = Ok "select a,b from t"
  /\ _fallback "select a, b from t" ["t"] = Ok "select a, b from t".
Proof. by vm_compute. Qed.

Example undeclared_table_refused :
  _fallback "select * from secret" ["t"] = undeclared "secret".
Proof. by vm_compute. Qed.

Lemma normal_form_is_stable_witness :
  _fallback "with x as (select  a from t)   select a from x ;" ["t"]
  = Ok "with x as (select a from t) select a from x"
  /\ _fallback "with x as (select a from t) select a from x" ["t"]
     = Ok "with x as (select a from t) select a from x".
Proof.
  assert (E : _fallback "with x as (select  a from t)   select a from x ;" ["t"]
              = Ok "with x as (select a from t) select a from x") by (by vm_compute).
  split; [exact E|]. exact (proj1 (normal_form_is_stable _ _ _ E)).
Defined.
