(* ===== verification/Config.v ===== *)
(** * Settings and what they configure

    src/src/dalmatian/config.py, dependencies.py and the values the worker's [run]
    derives: the settings with the bounds of their [Field] declarations, their
    defaults, and the configuration each component is built with.  Reading them from
    the environment is pydantic's. *)

From Stdlib Require Import QArith Qminmax.
From S2P Require Import Prelude Models QueueState JobQueue Datasets ResultCache Storage Service Spark Worker.

#[local] Open Scope Z_scope.

Record Settings := MkSettings {
  s_spark_master : string;
  s_spark_app_name : string;
  s_spark_packages : string;
  s_spark_config : option (list (string * string));
  s_spark_app_max_cores : Z;
  s_spark_executor_cores : Z;
  s_spark_executor_memory : string;
  s_spark_executor_instances : option Z;
  s_valkey_url : string;
  s_data_root : string;
  s_source_locations : list (string * string);
  s_storage_locations : list (string * string);
  s_output_publication_prefix : string;
  s_metadata_url : option string;
  s_default_cache_ttl_seconds : Z;
  s_max_cache_ttl_seconds : Z;
  s_result_row_limit : Z;
  s_result_cache_max_bytes : Z;
  s_singleflight_wait_seconds : Q;
  s_result_cache_lock_seconds : Z;
  s_dataset_cache_entries : Z;
  s_dataset_cache_ttl_seconds : Z;
  s_max_concurrent_queries : Z;
  s_admission_wait_seconds : Q;
  s_default_query_timeout_seconds : Z;
  s_max_query_timeout_seconds : Z;
  s_max_inline_bytes : Z;
  s_queue_name : string;
  s_job_ttl_seconds : Z;
  s_idempotency_ttl_seconds : Z;
  s_job_lease_seconds : Z;
  s_worker_reserve_timeout_seconds : Z;
  s_worker_reap_interval_seconds : Z;
  s_worker_max_attempts : Z;
  s_worker_retry_base_seconds : Q;
  s_worker_retry_max_seconds : Q;
  s_worker_affinity_shards : Z;
  s_worker_affinity_shard : option Z;
  s_max_queue_depth : Z;
  s_worker_metrics_host : string;
  s_worker_metrics_port : Z;
  s_log_level : string;
}.

Definition default_settings : Settings :=
  MkSettings "local[*]" "dalmatian" "" None 2 2 "2g" None
    "valkey://localhost:6379/0" "data" [] [("local", "file:///exports")] "dalmatian:outputs" None
    300 3600 10000 (4 * 1024 * 1024) 15 120 32 1800 4 (1 # 4) 300 3600 (8 * 1024 * 1024)
    "dalmatian:jobs" 86400 86400 60 2 15 3 2 60 8 None 10000 "0.0.0.0" 9090 "INFO".

(** [None], or within the bound. *)
Definition at_least (n : Z) (o : option Z) : bool := match o with Some z => n <=? z | None => true end.

(** The [ge] and [le] bounds; pydantic refuses a value outside them. *)
Definition settings_ok (s : Settings) : bool :=
  (1 <=? s_spark_app_max_cores s) && (1 <=? s_spark_executor_cores s)
  && at_least 1 (s_spark_executor_instances s)
  && (0 <=? s_default_cache_ttl_seconds s) && (0 <=? s_max_cache_ttl_seconds s)
  && (1 <=? s_result_row_limit s) && (1024 <=? s_result_cache_max_bytes s)
  && Qle_bool (1 # 10) (s_singleflight_wait_seconds s) && (1 <=? s_result_cache_lock_seconds s)
  && (1 <=? s_dataset_cache_entries s) && (1 <=? s_dataset_cache_ttl_seconds s)
  && (1 <=? s_max_concurrent_queries s) && Qle_bool 0 (s_admission_wait_seconds s)
  && (1 <=? s_default_query_timeout_seconds s) && (1 <=? s_max_query_timeout_seconds s)
  && (1024 <=? s_max_inline_bytes s) && (60 <=? s_job_ttl_seconds s)
  && (60 <=? s_idempotency_ttl_seconds s) && (10 <=? s_job_lease_seconds s)
  && (1 <=? s_worker_reserve_timeout_seconds s) && (s_worker_reserve_timeout_seconds s <=? 30)
  && (1 <=? s_worker_reap_interval_seconds s) && (1 <=? s_worker_max_attempts s)
  && Qle_bool (1 # 10) (s_worker_retry_base_seconds s)
  && Qle_bool (1 # 10) (s_worker_retry_max_seconds s)
  && (1 <=? s_worker_affinity_shards s) && (s_worker_affinity_shards s <=? 256)
  && at_least 0 (s_worker_affinity_shard s) && (1 <=? s_max_queue_depth s)
  && (1 <=? s_worker_metrics_port s) && (s_worker_metrics_port s <=? 65535).

(** ** dependencies.py *)

Definition get_job_queue (s : Settings) : client_cfg :=
  ClientCfg
    (make_queue_cfg (s_queue_name s) (s_job_ttl_seconds s) (s_job_lease_seconds s)
       (s_worker_max_attempts s) (Z.to_nat (s_worker_affinity_shards s)) (s_max_queue_depth s)
       (Some (s_idempotency_ttl_seconds s)))
    (s_worker_retry_base_seconds s) (s_worker_retry_max_seconds s).

Definition get_query_service (s : Settings) : service_cfg :=
  ServiceCfg (s_default_cache_ttl_seconds s) (s_max_cache_ttl_seconds s) (s_result_row_limit s)
    (Z.to_nat (s_max_concurrent_queries s)) (s_default_query_timeout_seconds s)
    (s_max_query_timeout_seconds s) (s_singleflight_wait_seconds s) (s_result_cache_lock_seconds s).

Definition get_result_cache (s : Settings) : cache_cfg :=
  CacheCfg "dalmatian:cache" (s_result_cache_max_bytes s).

(** [root_uri] is [data_root.resolve().as_uri()]; [rows] what the metadata store
    answers, if there is one. *)
Definition get_registry (s : Settings) (root_uri : string) (rows : option (gmap string string))
  : result exn StorageRegistry :=
  make_registry (s_storage_locations s) rows (s_source_locations s) (Some root_uri)
    (s_output_publication_prefix s).

Definition get_session (s : Settings) : session_cfg :=
  SessionCfg (s_spark_app_name s) (s_spark_master s) (s_spark_packages s)
    (default [] (s_spark_config s)) (s_spark_app_max_cores s) (s_spark_executor_cores s)
    (s_spark_executor_memory s) (s_spark_executor_instances s).

(** [settings.metadata_url or None]: the empty text is no URL. *)
Definition has_metadata (s : Settings) : bool :=
  match s_metadata_url s with None | Some EmptyString => false | Some _ => true end.

Definition get_dataset_cache (s : Settings) : result exn dataset_cfg :=
  make_dataset_cfg (s_dataset_cache_entries s) (s_dataset_cache_ttl_seconds s).

(** ** worker.py: [run] *)

(** [max(1.0, lease / 3)]. *)
Definition heartbeat_interval (s : Settings) : Q := Qmax 1 (inject_Z (s_job_lease_seconds s) / 3).

Definition get_run_cfg (s : Settings) : run_cfg :=
  RunCfg (s_worker_affinity_shard s) (s_worker_affinity_shards s) (s_worker_reap_interval_seconds s).

Definition worker_shard (hostname : string) (s : Settings) : Z :=
  _worker_shard hostname (s_worker_affinity_shard s) (s_worker_affinity_shards s).
