(* ===== verification/ConfigTheorems.v ===== *)
(** * What validated settings guarantee

    Settings within the bounds of their fields give every component a
    configuration its theorems ask for; they do not relate the defaults to the
    maxima they are checked against. *)

From Stdlib Require Import QArith Qminmax Lqa.
From S2P Require Import Prelude Models QueueState JobQueue Datasets ResultCache Storage Service Spark Worker Config.

#[local] Open Scope Z_scope.

(** Both halves of every test of a conjunction. *)
Ltac bounds H := repeat (apply andb_prop in H as [H ?]);
  repeat match goal with
         | B : (_ <=? _) = true |- _ => apply Z.leb_le in B
         | B : Qle_bool _ _ = true |- _ => apply Qle_bool_iff in B
         end.

Lemma queue_configured s : settings_ok s = true -> queue_cfg_ok (cc_queue (get_job_queue s)).
Proof.
  unfold settings_ok. intros H. bounds H. split; cbn; try lia. case_decide; lia.
Qed.

Lemma datasets_configured s :
  settings_ok s = true ->
  get_dataset_cache s
  = Ok (DatasetCfg (Z.to_nat (s_dataset_cache_entries s)) (inject_Z (s_dataset_cache_ttl_seconds s))).
Proof.
  unfold settings_ok. intros H. bounds H. unfold get_dataset_cache, make_dataset_cfg.
  destruct (Z.ltb_spec (s_dataset_cache_entries s) 1); [lia|].
  by destruct (Z.ltb_spec (s_dataset_cache_ttl_seconds s) 1); [lia|].
Qed.

Lemma heartbeats_per_lease s :
  settings_ok s = true -> (3 * heartbeat_interval s == inject_Z (s_job_lease_seconds s))%Q.
Proof.
  unfold settings_ok. intros H. bounds H. unfold heartbeat_interval.
  assert (Hl : (10 <= inject_Z (s_job_lease_seconds s))%Q)
    by (change 10%Q with (inject_Z 10); by rewrite <- Zle_Qle).
  rewrite Q.max_r; [field|]. apply Qle_shift_div_l; [reflexivity|lra].
Qed.

Lemma shard_configured hostname s :
  settings_ok s = true -> 0 <= worker_shard hostname s < s_worker_affinity_shards s.
Proof.
  unfold settings_ok. intros H. bounds H. unfold worker_shard, _worker_shard.
  destruct (s_worker_affinity_shard s); [apply Z.mod_pos_bound; lia|].
  destruct (trailing_digits hostname); [lia|]. apply Z.mod_pos_bound. lia.
Qed.

(** Valid settings configure every component.  Settings within the declared
    bounds give the queue the bounds its theorems assume, a dataset cache that is
    not refused and has room for an entry, at least one admission slot, three
    heartbeats in every lease, and a worker's shard among the queue's shards.
    The defaults are not compared with the maxima: a request that names no
    timeout, or no time to live, is accepted exactly when the default is within
    the maximum, so settings whose default is above it refuse every such
    request. *)
Theorem settings_configure_the_components s hostname request :
  settings_ok s = true ->
  queue_cfg_ok (cc_queue (get_job_queue s))
  /\ (exists d, get_dataset_cache s = Ok d /\ (1 <= max_entries d)%nat)
  /\ (1 <= max_concurrent_queries (get_query_service s))%nat
  /\ (3 * heartbeat_interval s == inject_Z (lease_seconds (cc_queue (get_job_queue s))))%Q
  /\ 0 <= worker_shard hostname s < Z.of_nat (affinity_shards (cc_queue (get_job_queue s)))
  /\ (q_timeout_seconds request = None ->
      is_ok (_timeout (get_query_service s) request)
      = (s_default_query_timeout_seconds s <=? s_max_query_timeout_seconds s))
  /\ (q_cache_ttl_seconds request = None ->
      is_ok (_ttl (get_query_service s) request)
      = (s_default_cache_ttl_seconds s <=? s_max_cache_ttl_seconds s)).
Proof.
  intros H. pose proof (shard_configured hostname s H) as Hshard.
  pose proof (heartbeats_per_lease s H) as Hbeat. pose proof (datasets_configured s H) as Hd.
  split_and!; [by apply queue_configured| |cbn|done|cbn; lia|cbn; lia| |].
  - eexists. split; [exact Hd|]. unfold settings_ok in H. bounds H. cbn. lia.
  - unfold settings_ok in H. bounds H. lia.
  - intros Ht. unfold _timeout. rewrite Ht. cbn. rewrite Z.leb_antisym.
    by destruct (s_max_query_timeout_seconds s <? s_default_query_timeout_seconds s).
  - intros Ht. unfold _ttl. rewrite Ht. cbn. rewrite Z.leb_antisym.
    by destruct (s_max_cache_ttl_seconds s <? s_default_cache_ttl_seconds s).
Qed.

(** Settings that every field accepts, and that refuse every request without a timeout. *)
Definition short_maximum : Settings :=
  MkSettings "local[*]" "dalmatian" "" None 2 2 "2g" None
    "valkey://localhost:6379/0" "data" [] [("local", "file:///exports")] "dalmatian:outputs" None
    300 3600 10000 (4 * 1024 * 1024) 15 120 32 1800 4 (1 # 4) 300 60 (8 * 1024 * 1024)
    "dalmatian:jobs" 86400 86400 60 2 15 3 2 60 8 None 10000 "0.0.0.0" 9090 "INFO".

Example default_above_maximum :
  settings_ok short_maximum = true
  /\ _timeout (get_query_service short_maximum)
       (MkRequest "select 1" [] default_output None None None)
     = raise QueryRejected "timeout_seconds cannot exceed 60".
Proof. by vm_compute. Qed.

Lemma settings_configure_the_components_witness :
  settings_ok default_settings = true
  /\ queue_cfg_ok (cc_queue (get_job_queue default_settings)).
Proof.
  assert (E : settings_ok default_settings = true) by (by vm_compute). split; [exact E|].
  exact (proj1 (settings_configure_the_components default_settings "dalmatian-worker-1"
                  (MkRequest "select 1" [] default_output None None None) E)).
Defined.
