(* ===== verification/Api.v ===== *)
(** * The HTTP interface

    src/src/dalmatian/api.py: the handlers as programs over the operations of the
    query service and of the job queue, the exception handlers with the look-up
    along the exception's classes, and the validation of request bodies.  The
    framework's own answers (422 for a body that does not validate, 500 for an
    exception no handler takes) are written out; metrics, the documentation pages
    and the serialisation of bodies are left out. *)

From Stdlib Require Import QArith.
From S2P Require Import Prelude Models Fingerprint Storage Prog QueueState JobQueue Datasets Service.

#[local] Open Scope Z_scope.

Record response (B : Type) := Response {
  rp_status : Z;
  rp_headers : list (string * string);
  (* the body, or the text of [{"detail": ...}] *)
  rp_body : result string B;
}.
Arguments Response {B} _ _ _.
Arguments rp_status {B} _.
Arguments rp_headers {B} _.
Arguments rp_body {B} _.

Definition header {B} (name : string) (r : response B) : option string :=
  snd <$> (snd <$> list_find (fun p => p.1 = name) (rp_headers r)).

(** ** Exceptions *)

(** The registered handlers: status and headers. *)
Definition handler (c : exn_class) : option (Z * list (string * string)) :=
  match c with
  | BusyError => Some (429, [("Retry-After", "1")])
  | QueryRejected => Some (400, [])
  | QueryTimeout => Some (408, [])
  | QueryCancelled => Some (409, [])
  | IdempotencyConflict => Some (409, [])
  | _ => None
  end.

(** The first class, from the exception's own up, that has a handler. *)
Fixpoint first_handler (cs : list exn_class) : option (Z * list (string * string)) :=
  match cs with
  | [] => None
  | c :: cs => match handler c with Some h => Some h | None => first_handler cs end
  end.

Definition error_response {B} (e : exn) : response B :=
  match first_handler (mro (exn_cls e)) with
  | Some (status, headers) => Response status headers (Err (exn_text e))
  | None => Response 500 [] (Err "Internal Server Error")
  end.

Definition http_exception {B} (status : Z) (detail : string) : response B :=
  Response status [] (Err detail).

(** A body that does not validate is answered before the handler runs. *)
Definition unprocessable {B} (e : exn) : response B := Response 422 [] (Err (exn_text e)).

Section endpoints.
Context {E : Type -> Type} {B : Type}.

(** What the client gets of a handler. *)
Definition answering (p : prog E (response B)) : prog E (response B) :=
  try_except p (fun e => Ret (error_response e)).

Definition with_request (raw : QueryRequest) (p : QueryRequest -> prog E (response B))
  : prog E (response B) :=
  match build_request raw with
  | Ok request => answering (p request)
  | Err e => Ret (unprocessable e)
  end.
End endpoints.

(** ** Queries *)

Section queries.
Context {R : Type} `{Sha256} (normalize : string -> list string -> result exn string)
  (c : service_cfg).
Local Open Scope prog_scope.

Inductive query_body :=
| QResult (r : QueryResult R)
| QStream (media_type : string).

Definition result_query_id (r : QueryResult R) : string :=
  match r with RInline v => default "" (in_query_id v) | RStored s => st_query_id s end.

Definition disposition (extension : string) : string :=
  "inline; filename=" +:+ dquote +:+ "dalmatian-result." +:+ extension +:+ dquote.

Definition query (request : QueryRequest) : prog (sop R) (response query_body) :=
  let affinity := dataset_affinity_key request in
  if is_stream request then
    s <- stream normalize c request None;;
    let extension := if decide (output_format_value (out_format (q_output request)) = "csv")
                     then "csv" else "jsonl" in
    Ret (Response 200
           [("Content-Disposition", disposition extension);
            ("X-Dalmatian-Query-Id", ec_query_id s.2); ("X-Dalmatian-Result-Cache", "bypass");
            ("X-Dalmatian-Affinity-Key", affinity)] (Ok (QStream s.1)))
  else
    r <- execute normalize c request None;;
    Ret (Response 200
           ([("X-Dalmatian-Query-Id", result_query_id r); ("X-Dalmatian-Affinity-Key", affinity)]
            ++ match r with
               | RInline v => [("X-Dalmatian-Result-Cache", if in_cached v then "hit" else "miss")]
               | RStored _ => []
               end) (Ok (QResult r))).

Definition post_query (raw : QueryRequest) : prog (sop R) (response query_body) :=
  with_request raw query.

Definition query_affinity (raw : QueryRequest) : prog (sop R) (response string) :=
  with_request raw (fun request =>
    key <- lift (affinity_key normalize c request);; Ret (Response 200 [] (Ok key))).

Definition post_explain (raw : QueryRequest) : prog (sop R) (response ExplainResult) :=
  with_request raw (fun request =>
    r <- explain normalize c request;; Ret (Response 200 [] (Ok r))).

Definition inspect_source (raw : SourceSpec) : prog (sop R) (response SourceInspection) :=
  match validate_source raw with
  | Ok source => answering (r <- inspect source;; Ret (Response 200 [] (Ok r)))
  | Err e => Ret (unprocessable e)
  end.
End queries.
Arguments query_body R : clear implicits.

(** ** Locations and readiness *)

Record StorageLocationInfo := LocationInfo { li_name : string; li_uri : string; li_source : string }.

Definition get_storage_locations (r : StorageRegistry) : response (list StorageLocationInfo) :=
  Response 200 [] (Ok (map (fun p => LocationInfo p.1.1 p.1.2 p.2) (locations r))).

(** [service.ready() and queue.ping()], each of which may raise. *)
Definition ready (service queue : result exn bool) : response string :=
  match r_bind service (fun b => if b then queue else Ok false) with
  | Err e => http_exception 503 (exn_text e)
  | Ok false => http_exception 503 "not ready"
  | Ok true => Response 200 [] (Ok "ok")
  end.

(** ** Jobs *)

Section jobs_resource.
Context {QR : Type} `{QueueCodec QR} `{Sha256} (cc : client_cfg).
Local Open Scope prog_scope.

Definition job_uri (id : string) : string := "/v1/jobs/" +:+ id.

Definition create_job (request : QueryRequest) (idempotency_key : option string)
  : prog (qop QR) (response (JobRecord QR)) :=
  if is_stream request
  then Ret (http_exception 400 "async jobs do not support stream output; use inline or store")
  else
    job <- enqueue cc request idempotency_key;;
    Ret (Response 202
           [("Location", job_uri (jr_id job));
            ("X-Dalmatian-Affinity-Key", dataset_affinity_key request)] (Ok job)).

Definition post_job (raw : QueryRequest) (idempotency_key : option string)
  : prog (qop QR) (response (JobRecord QR)) :=
  with_request raw (fun request => create_job request idempotency_key).

Definition found (job : option (JobRecord QR)) : response (JobRecord QR) :=
  match job with
  | Some job => Response 200 [] (Ok job)
  | None => http_exception 404 "job not found"
  end.

Definition get_job (job_id : string) : prog (qop QR) (response (JobRecord QR)) :=
  answering (job <- get job_id;; Ret (found job)).

Definition cancel_job (job_id : string) : prog (qop QR) (response (JobRecord QR)) :=
  answering (job <- request_cancel job_id;; Ret (found job)).
End jobs_resource.
