(* ===== verification/ApiTheorems.v ===== *)
(** * What the HTTP interface promises

    A full service answers 429 without reaching the engine; an answered query tells
    its id and whether it was computed or read from the cache; the job resource
    reports what the queue holds. *)

From Stdlib Require Import QArith.
From S2P Require Import Prelude Models Fingerprint Storage Prog QueueState JobQueue ClientWorld.
From S2P Require Import QueueClient ClientDemo ClientTheorems Observability Datasets Service Sql SqlTheorems Api.

#[local] Open Scope Z_scope.

(** ** Error answers *)

Lemma handled_statuses cs h : first_handler cs = Some h -> h.1 ∈ [400; 408; 409; 429].
Proof.
  induction cs as [|k cs IH]; [done|]. cbn. destruct (handler k) as [h'|] eqn:Ek; [|apply IH].
  intros [= <-]. destruct k; try done; injection Ek as <-; cbn; set_solver.
Qed.

Lemma error_statuses {B} e :
  rp_status (error_response (B := B) e) ∈ [400; 408; 409; 429; 500]
  /\ is_ok (rp_body (error_response (B := B) e)) = false.
Proof.
  unfold error_response. destruct (first_handler _) as [[st hs]|] eqn:Eh; cbn.
  - apply handled_statuses in Eh. cbn in Eh. split; [set_solver|done].
  - split; [set_solver|done].
Qed.

(** ** A full service *)

Section full.
Context {R : Type} `{Sha256} `{Sqlglot} (c : service_cfg).

(** No slot is free; the engine and the cache must not be called. *)
Definition full_effect {X} (o : sop R X) (w : unit) : (X -> unit -> Prop) -> Prop :=
  match o in sop _ Y return (Y -> unit -> Prop) -> Prop with
  | TryAcquire => fun Q => Q false w
  | NewIds => fun Q => forall ids, Q ids w
  | RecordInvocation _ _ _ => fun Q => forall r, Q r w
  | UpdateInvocation _ _ _ _ _ => fun Q => forall r, Q r w
  | _ => fun Q => False
  end.

Lemma full_effect_mono X (o : sop R X) w (Q1 Q2 : X -> unit -> Prop) :
  (forall x w', Q1 x w' -> Q2 x w') -> full_effect o w Q1 -> full_effect o w Q2.
Proof using Type. intros HQ. destruct o; cbn; auto. Qed.

#[local] Instance full_effects : Effects (sop R) unit :=
  {| effect := @full_effect; effect_mono := full_effect_mono |}.

Lemma validation_rejects sql aliases e :
  validate_and_normalize sql aliases = Err e -> exn_cls e = QueryRejected.
Proof using Type.
  unfold validate_and_normalize. destruct parse_spark as [parse|]; [|apply fallback_errors].
  destruct (parse sql) as [[|[st|] [|]]|e']; try by intros [= <-].
  destruct (sm_query st); [|by intros [= <-]]. cbn [negb].
  pose proof (check_statement_ok (sm_tables st) (aliases ++ sm_ctes st)) as Hc.
  destruct (check_statement_tables _ _); [done|]. by intros [= <-].
Qed.

Lemma limits_reject request e :
  (_validate validate_and_normalize c request = Err e -> exn_cls e = QueryRejected).
Proof using Type.
  unfold _validate. destruct (_ && _); [by intros [= <-]|]. apply validation_rejects.
Qed.

Lemma timeout_rejects request e : _timeout c request = Err e -> exn_cls e = QueryRejected.
Proof using Type. unfold _timeout. case_match; by intros [= <-]. Qed.

(** Refused as busy, or earlier as rejected. *)
Definition turned_away (r : exn) : Prop := exn_cls r = BusyError \/ exn_cls r = QueryRejected.

Lemma execute_full request w :
  wp (execute (R := R) validate_and_normalize c request None) w
    (fun r _ => exists e, r = Err e /\ turned_away e
       /\ (is_ok (_validate validate_and_normalize c request) = true ->
           is_ok (_timeout c request) = true -> e = Exn BusyError busy_text)).
Proof using Type.
  unfold execute. apply wp_bind, wp_lift.
  destruct (_validate validate_and_normalize c request) as [sql|e] eqn:Ev.
  2: { exists e. split; [done|]. split; [right; by apply (limits_reject request)|done]. }
  apply wp_bind. unfold _context. apply wp_bind, wp_lift.
  destruct (_timeout c request) as [timeout|e] eqn:Et.
  2: { exists e. split; [done|]. split; [right; by apply (timeout_rejects request)|done]. }
  apply wp_bind. intros ids. cbn [wp].
  change (is_sync (default_context ids timeout)) with true. cbv iota.
  apply wp_bind. intros recorded. cbn [wp]. apply wp_bind, wp_try_except.
  unfold with_slot, try_acquire. apply wp_bind. cbn [wp perform effect full_effects full_effect].
  apply wp_bind. intros updated. cbn [wp]. eexists. split; [done|]. split; [by left|done].
Qed.

Lemma stream_full request w :
  wp (stream (R := R) validate_and_normalize c request None) w
    (fun r _ => exists e, r = Err e /\ turned_away e
       /\ (is_ok (_validate validate_and_normalize c request) = true -> is_stream request = true ->
           is_ok (_timeout c request) = true -> e = Exn BusyError busy_text)).
Proof using Type.
  unfold stream. apply wp_bind, wp_lift.
  destruct (_validate validate_and_normalize c request) as [sql|e] eqn:Ev.
  2: { exists e. split; [done|]. split; [right; by apply (limits_reject request)|done]. }
  destruct (is_stream request); cbn [negb].
  2: { eexists. split; [done|]. split; [by right|done]. }
  apply wp_bind. unfold _context. apply wp_bind, wp_lift.
  destruct (_timeout c request) as [timeout|e] eqn:Et.
  2: { exists e. split; [done|]. split; [right; by apply (timeout_rejects request)|done]. }
  apply wp_bind. intros ids. cbn [wp].
  change (is_sync (default_context ids timeout)) with true. cbv iota.
  apply wp_bind. intros recorded. cbn [wp]. unfold try_acquire. apply wp_bind.
  cbn [wp perform effect full_effects full_effect negb].
  apply wp_bind. intros updated. cbn [wp]. eexists. split; [done|]. split; [by left|done].
Qed.

(** A full service turns queries away.  With every admission slot taken, a
    query is answered without the engine or the result cache being called: 422
    when the body does not validate, 400 when the query or its limits are
    rejected, and otherwise 429 with "Retry-After: 1" and the reason. *)
Theorem full_service_answers_429 raw w :
  wp (post_query (R := R) validate_and_normalize c raw) w
    (fun r _ => exists resp, r = Ok resp /\
       match build_request raw with
       | Err _ => rp_status resp = 422
       | Ok request =>
           (rp_status resp = 400 \/ rp_status resp = 429)
           /\ (is_ok (_validate validate_and_normalize c request) = true ->
               is_ok (_timeout c request) = true ->
               rp_status resp = 429 /\ header "Retry-After" resp = Some "1"
               /\ rp_body resp = Err "query concurrency limit reached")
       end).
Proof using Type.
  unfold post_query, with_request. destruct (build_request raw) as [request|e]; [|by eexists].
  assert (Haway : forall e (B : Type), turned_away e ->
            rp_status (error_response (B := B) e) = 400 \/ rp_status (error_response (B := B) e) = 429).
  { intros e B [He|He]; unfold error_response; rewrite He; cbn; auto. }
  apply wp_try_except. unfold query. destruct (is_stream request) eqn:Es.
  - apply wp_bind. eapply wp_mono; [|apply stream_full].
    intros r w' (e & -> & He & Hb). eexists. split; [done|]. split; [by apply Haway|].
    intros Hv Ht. by rewrite (Hb Hv Es Ht).
  - apply wp_bind. eapply wp_mono; [|apply execute_full].
    intros r w' (e & -> & He & Hb). eexists. split; [done|]. split; [by apply Haway|].
    intros Hv Ht. by rewrite (Hb Hv Ht).
Qed.
End full.

(** ** Where an answer comes from *)

Section origin.
Context {R : Type} `{Sha256} (normalize : string -> list string -> result exn string)
  (c : service_cfg).

(** The id the request drew; whether the engine has run the query for it. *)
Record trail := Trail { t_id : option string; t_ran : bool }.

(** The engine stores results under the id of the context it is given: an assumption
    here, which the Spark engine meets ([SparkTheorems.stored_results_keep_the_id]). *)
Definition keeps_id (context : ExecutionContext) (r : result exn (QueryResult R)) : Prop :=
  match r with Ok (RStored s) => st_query_id s = ec_query_id context | _ => True end.

Definition trail_effect {X} (o : sop R X) (w : trail) : (X -> trail -> Prop) -> Prop :=
  match o in sop _ Y return (Y -> trail -> Prop) -> Prop with
  | NewIds => fun Q => forall ids, Q ids (Trail (Some ids.1) (t_ran w))
  | EngineExecute _ context => fun Q => forall r, keeps_id context r -> Q r (Trail (t_id w) true)
  | TryAcquire => fun Q => forall r, Q r w
  | ReleaseSlot => fun Q => forall r, Q r w
  | RecordInvocation _ _ _ => fun Q => forall r, Q r w
  | UpdateInvocation _ _ _ _ _ => fun Q => forall r, Q r w
  | Prepare _ _ => fun Q => forall r, Q r w
  | EngineStream _ _ => fun Q => forall r, Q r w
  | NextRow => fun Q => forall r, Q r w
  | EngineExplain _ _ => fun Q => forall r, Q r w
  | EngineInspect _ => fun Q => forall r, Q r w
  | EngineCancel _ => fun Q => forall r, Q r w
  | CacheGet _ => fun Q => forall r, Q r w
  | CacheSet _ _ _ => fun Q => forall r, Q r w
  | CacheAcquire _ _ => fun Q => forall r, Q r w
  | CacheRelease _ _ => fun Q => forall r, Q r w
  | CacheWait _ _ => fun Q => forall r, Q r w
  | Yield _ => fun Q => forall r, Q r w
  | EnginePing | CachePing => fun Q => forall r, Q r w
  | EngineClose | CacheClose => fun Q => forall r, Q r w
  | Measure _ => fun Q => Q tt w
  | InlineBytes _ => fun Q => forall n, Q n w
  end.

Lemma trail_effect_mono X (o : sop R X) w (Q1 Q2 : X -> trail -> Prop) :
  (forall x w', Q1 x w' -> Q2 x w') -> trail_effect o w Q1 -> trail_effect o w Q2.
Proof using Type. intros HQ. destruct o; cbn; auto. Qed.

#[local] Instance trail_effects : Effects (sop R) trail :=
  {| effect := @trail_effect; effect_mono := trail_effect_mono |}.

(** The result carries the id, and is marked cached exactly when the engine did not run. *)
Definition good_result (context : ExecutionContext) (w : trail) (v : QueryResult R) : Prop :=
  result_query_id v = ec_query_id context
  /\ match v with RInline i => in_cached i = negb (t_ran w) | RStored _ => t_ran w = true end.

Definition good_end (context : ExecutionContext) (r : result exn (QueryResult R)) (w : trail) : Prop :=
  t_id w = Some (ec_query_id context) /\ forall v, r = Ok v -> good_result context w v.

Lemma good_end_error context e w : t_id w = Some (ec_query_id context) -> good_end context (Err e) w.
Proof using Type. by split. Qed.

Lemma run_engine_good prepared context ttl flight w :
  t_id w = Some (ec_query_id context) ->
  wp (run_engine (R := R) prepared context ttl flight) w (good_end context).
Proof using Type.
  intros Hid. unfold run_engine. apply wp_try_finally.
  assert (Hfin : forall r w', good_end context r w' ->
            wp match flight with Some (key, token) => invoke (CacheRelease key token) | None => Ret tt end w'
               (fun r' w'' => match r' with Ok _ => good_end context r w''
                              | Err e => good_end context (Err e) w'' end)).
  { intros r w' Hr. destruct flight as [[key token]|]; [|done].
    intros x. apply wp_lift. destruct x; [done|]. apply good_end_error, Hr. }
  apply wp_bind. intros x Hx. apply wp_lift. destruct x as [[v|v]|e]; [| |by apply Hfin].
  - apply wp_bind. intros bytes. apply wp_bind.
    destruct flight as [[key token]|]; [|by apply Hfin; split; [|intros ? [= <-]]].
    apply wp_bind. intros stored. apply wp_lift. destruct stored; [|by apply Hfin].
    apply Hfin. split; [done|]. by intros ? [= <-].
  - apply Hfin. split; [done|]. by intros ? [= <-].
Qed.

Lemma single_flight_good key prepared context ttl w :
  t_id w = Some (ec_query_id context) -> t_ran w = false ->
  wp (single_flight (R := R) c key prepared context ttl) w (good_end context).
Proof using Type.
  intros Hid Hran. unfold single_flight. apply wp_bind. intros token. apply wp_lift.
  destruct token as [[token|]|e]; [by apply run_engine_good| |by apply good_end_error].
  apply wp_bind. intros cached. apply wp_lift. destruct cached as [[v|]|e]; [| |by apply good_end_error].
  - apply wp_bind. split; [done|]. intros ? [= <-]. split; [done|]. cbn. by rewrite Hran.
  - apply wp_bind. intros token. apply wp_lift.
    destruct token as [[token|]|e]; [by apply run_engine_good| |]; by apply good_end_error.
Qed.

Lemma admitted_good request sql context w :
  t_id w = Some (ec_query_id context) -> t_ran w = false ->
  wp (_execute_admitted (R := R) normalize c request sql context) w (good_end context).
Proof using Type.
  intros Hid Hran. unfold _execute_admitted. apply wp_bind, wp_lift.
  destruct (_ttl c request) as [ttl|e]; [|by apply good_end_error].
  apply wp_bind. intros prepared. apply wp_lift. destruct prepared as [prepared|e]; [|by apply good_end_error].
  destruct (_ && _ && _); [|by apply run_engine_good]. apply wp_bind, wp_lift.
  destruct (query_fingerprint _ _ _) as [key|e]; [|by apply good_end_error].
  apply wp_bind. unfold _cache_get. apply wp_bind. intros cached. apply wp_lift.
  destruct cached as [[v|]|e]; [|apply wp_bind; by apply single_flight_good|by apply good_end_error].
  apply wp_bind. split; [done|]. intros ? [= <-]. split; [done|]. cbn. by rewrite Hran.
Qed.

(** A slot taken, and given back however the body ends. *)
Lemma with_slot_good context (body : prog (sop R) (QueryResult R)) w :
  t_id w = Some (ec_query_id context) -> wp body w (good_end context) ->
  wp (with_slot body) w (good_end context).
Proof using Type.
  intros Hid Hbody. unfold with_slot, try_acquire. apply wp_bind. intros [|]; [|by apply good_end_error].
  apply wp_try_finally. eapply wp_mono; [|exact Hbody]. intros r w' Hr. by intros u.
Qed.

Lemma timer_good mode context (body : prog (sop R) (QueryResult R)) w :
  wp body w (good_end context) -> wp (query_timer Measure mode body) w (good_end context).
Proof using Type.
  intros Hb. unfold query_timer. apply wp_bind, wp_try_finally.
  eapply wp_mono; [|exact Hb]. by intros [v|e] w' Hr.
Qed.

Lemma execute_origin request :
  wp (execute (R := R) normalize c request None) (Trail None false)
    (fun r w => forall v, r = Ok v ->
       exists id, t_id w = Some id /\ result_query_id v = id
       /\ match v with RInline i => in_cached i = negb (t_ran w) | RStored _ => t_ran w = true end).
Proof using Type.
  unfold execute. apply wp_bind, wp_lift. destruct (_validate _ _ _) as [sql|e]; [|by intros v].
  apply wp_bind. unfold _context. apply wp_bind, wp_lift.
  destruct (_timeout c request) as [timeout|e]; [|by intros v].
  apply wp_bind. intros ids. cbn [wp].
  change (is_sync (default_context ids timeout)) with true. cbv iota.
  apply wp_bind. intros recorded. cbn [wp]. apply wp_bind, wp_try_except.
  eapply wp_mono; [|by apply with_slot_good, timer_good, admitted_good].
  intros [res|e] w' (Hid & Hres).
  - apply wp_bind. intros updated. cbn [wp]. intros v [= <-].
    destruct (Hres res eq_refl) as [Hq Ho]. eexists. split; [exact Hid|]. by split.
  - apply wp_bind. intros updated. cbn [wp]. by intros v.
Qed.

Lemma stream_origin request :
  wp (stream (R := R) normalize c request None) (Trail None false)
    (fun r w => forall s, r = Ok s -> t_id w = Some (ec_query_id s.2)).
Proof using Type.
  unfold stream. apply wp_bind, wp_lift. destruct (_validate _ _ _) as [sql|e]; [|by intros v].
  destruct (negb _); [by intros v|]. apply wp_bind. unfold _context. apply wp_bind, wp_lift.
  destruct (_timeout c request) as [timeout|e]; [|by intros v].
  apply wp_bind. intros ids. cbn [wp].
  change (is_sync (default_context ids timeout)) with true. cbv iota.
  apply wp_bind. intros recorded. cbn [wp]. unfold try_acquire. apply wp_bind. intros [|]; cbn [negb wp].
  2: { apply wp_bind. intros updated. by intros v. }
  apply wp_bind, wp_try_except, wp_bind. intros prepared. apply wp_lift.
  destruct prepared as [prepared|e].
  - intros x. apply wp_lift. destruct x as [m|e]; [by intros s [= <-]|].
    apply wp_bind. intros u. apply wp_bind. intros updated. by intros v.
  - apply wp_bind. intros u. apply wp_bind. intros updated. by intros v.
Qed.

(** What an answer to a query tells. *)
Definition tells_origin (raw : QueryRequest) (w : trail) (resp : response (query_body R)) : Prop :=
  if decide (rp_status resp = 200) then
    exists id request, build_request raw = Ok request /\ t_id w = Some id
    /\ header "X-Dalmatian-Query-Id" resp = Some id
    /\ header "X-Dalmatian-Affinity-Key" resp = Some (dataset_affinity_key request)
    /\ match rp_body resp with
       | Ok (QResult (RInline _)) =>
           header "X-Dalmatian-Result-Cache" resp = Some (if t_ran w then "miss" else "hit")
       | Ok (QResult (RStored _)) =>
           t_ran w = true /\ header "X-Dalmatian-Result-Cache" resp = None
       | Ok (QStream _) => header "X-Dalmatian-Result-Cache" resp = Some "bypass"
       | Err _ => False
       end
  else rp_status resp ∈ [400; 408; 409; 422; 429; 500] /\ is_ok (rp_body resp) = false.

Lemma error_tells raw w e : tells_origin raw w (error_response e).
Proof using Type.
  destruct (error_statuses (B := query_body R) e) as [Hs Hb]. unfold tells_origin.
  case_decide as Hd; [rewrite Hd in Hs; set_solver|]. split; [set_solver|done].
Qed.

(** C37: An answered query tells where its answer comes from.  Every 200 answer to
    a query carries the id the request drew and the affinity key of its sources.  The
    cache header of an inline result says "miss" exactly when the engine ran the
    query for this request and "hit" when it did not; a stored result was always
    computed by the engine and its answer has no such header; a stream's says
    "bypass".  Every other answer is an error text with one of the documented
    statuses or 500.  The engine is assumed to store under the id of the context it
    is given ([keeps_id]). *)
Theorem answers_tell_their_origin raw :
  wp (post_query (R := R) normalize c raw) (Trail None false)
    (fun r w => exists resp, r = Ok resp /\ tells_origin raw w resp).
Proof using Type.
  unfold post_query, with_request. destruct (build_request raw) as [request|e] eqn:Eb.
  2: { eexists. split; [done|]. unfold tells_origin. rewrite decide_False by done.
       split; [cbn; set_solver|done]. }
  apply wp_try_except. unfold query. destruct (is_stream request).
  - apply wp_bind. eapply wp_mono; [|apply stream_origin].
    intros [s|e] w Hs; [|eexists; split; [done|apply error_tells]]. cbn [wp].
    eexists. split; [done|]. unfold tells_origin. rewrite decide_True by done.
    exists (ec_query_id s.2), request. split; [done|]. split; [by apply Hs|done].
  - apply wp_bind. eapply wp_mono; [|apply execute_origin].
    intros [v|e] w Hv; [|eexists; split; [done|apply error_tells]]. cbn [wp].
    eexists. split; [done|]. unfold tells_origin. rewrite decide_True by done.
    destruct (Hv v eq_refl) as (id & Hid & Hq & Ho).
    exists id, request. split; [done|]. split; [done|]. rewrite <- Hq. destruct v as [i|st]; cbn.
    + rewrite Ho. by destruct (t_ran w).
    + done.
Qed.
End origin.

(** ** The job resource *)

#[local] Existing Instance key_ok_dec.

Section jobs_resource.
Context {QR : Type} `{QueueCodec QR} `{Sha256} (cc : client_cfg).
Let c := cc_queue cc.
Hypothesis Hc : queue_cfg_ok c.
(** How the others move. *)
Context (M : world -> world -> Prop).

(** What an answer to a submission tells. *)
Definition submission_told (raw : QueryRequest) (key : option string) (w : world)
    (resp : response (JobRecord QR)) (w' : world) : Prop :=
  match build_request raw with
  | Err _ => rp_status resp = 422 /\ w' = w
  | Ok request =>
      if is_stream request then rp_status resp = 400 /\ w' = w
      else
        match rp_body resp with
        | Ok job => rp_status resp = 202 /\ header "Location" resp = Some (job_uri (jr_id job))
            /\ enqueued_or_idle cc M request key w (Ok job) w'
        | Err _ => rp_status resp ∈ [400; 408; 409; 429; 500] /\ idle M w w'
        end
        /\ (key_ok key \/ rp_status resp = 500)
  end.

(** An accepted key has 1 to 255 characters; other keys raise a ValueError. *)
Lemma bad_key_raises request key w :
  ~ key_ok key ->
  client_wp c M (enqueue (QR := QR) cc request key) w
    (fun r w' => exists text, r = Err (Exn PyValueError text) /\ w' = w).
Proof using Type.
  intros Hk. destruct key as [k|]; [|by destruct Hk]. unfold client_wp, enqueue.
  unfold key_ok in Hk. rewrite bool_decide_false by done. by eexists.
Qed.

Hypothesis HM : forall w w1, M w w1 -> others c w w1.

(** What the queue leaves of a submission is what the answer tells. *)
Lemma submission_wp raw key w :
  client_wp c M (post_job (QR := QR) cc raw key) w
    (fun r w' => exists resp, r = Ok resp /\ submission_told raw key w resp w').
Proof using Hc HM.
  unfold client_wp, post_job, with_request, submission_told.
  destruct (build_request raw) as [request|e]; [|by eexists].
  unfold create_job. destruct (is_stream request); [by eexists|].
  apply wp_try_except, wp_bind. destruct (decide (key_ok key)) as [Hk|Hk].
  - eapply wp_mono; [|by apply (enqueue_wp cc Hc M HM)].
    intros [job|e] w' Hjob; cbn [wp]; eexists; split; try done.
    + cbn. split; [done|by left].
    + destruct (error_statuses (B := JobRecord QR) e) as [Hs Hb].
      destruct (rp_body (error_response e)); [done|].
      split; [done|by left].
  - eapply wp_mono; [|by apply bad_key_raises].
    intros r w' (text & -> & ->). eexists. split; [done|]. cbn.
    split; [split; [set_solver|reflexivity]|by right].
Qed.

Lemma get_wp id w :
  client_wp c M (get_job (QR := QR) id) w
    (fun r w' => M w w' /\ exists resp, r = Ok resp
       /\ match reported (QR := QR) id (w_queue w') with
          | Ok (Some job) => rp_status resp = 200 /\ rp_body resp = Ok job
          | Ok None => rp_status resp = 404
          | Err e => resp = error_response e
          end).
Proof using Hc HM.
  apply wp_try_except, wp_bind, (wp_get c M). intros w1 Hm _.
  destruct (reported id (w_queue w1)) as [[job|]|e] eqn:Er; cbn [wp]; rewrite Er; (split; [done|by eexists]).
Qed.

End jobs_resource.

(** ** The theorems at work *)

Module ApiDemo.
Definition client : client_cfg := ClientDemo.client.

Definition posted :=
  run (@lone string ClientDemo.cfg 2000 1)
    (post_job client (ClientDemo.request "select 2") (Some "k2")) ClientDemo.queued.

Definition got :=
  run (@lone string ClientDemo.cfg 2000 1) (get_job (QR := string) "nobody") ClientDemo.queued.
End ApiDemo.

