(* ===== verification/Wiring.v ===== *)
(** * How the components are put together

    src/src/dalmatian/dependencies.py: the getters that build each component once
    ([functools.lru_cache]) from those it uses, and [shutdown_dependencies]; with
    what the HTTP application does around them (the lifespan, the probes and the
    metrics page of api.py) and the entry point of main.py.  An object is a handle;
    what it is built from decides who is closed before whom. *)

From Stdlib Require Import QArith.
From S2P Require Import Prelude Models Prog Observability QueueState JobQueue Datasets Service Api.

#[local] Open Scope Z_scope.

(** ** Objects *)

(** The objects that hold a connection or a session. *)
Inductive component := CMetadata | CPublications | CEngine | CCache | CQueue.

#[export] Instance component_eq_dec : EqDecision component.
Proof. solve_decision. Defined.

(** What the objects without a connection of their own are made of. *)
Record registry_object := RegistryObject { ro_metadata : nat; ro_publications : nat }.
Record service_object := ServiceObject {
  so_engine : nat;
  so_cache : nat;
  so_storage : registry_object;
  so_metadata : nat;
}.
Record queue_object := QueueObject { qo_client : nat; qo_metadata : nat }.

(** The cached getters and what they return. *)
Inductive getter : Type -> Type :=
| GMetadata : getter nat
| GPublications : getter nat
| GRegistry : getter registry_object
| GService : getter service_object
| GQueue : getter queue_object.

(** ** Operations *)

Inductive dop : Type -> Type :=
(* [get_settings()]: the environment may not validate *)
| GetSettings : dop (result exn unit)
(* the cache of a getter: what it holds, a new entry, [cache_clear] *)
| Held {X : Type} (g : getter X) : dop (option X)
| Hold {X : Type} (g : getter X) (x : X) : dop unit
| CacheClear {X : Type} (g : getter X) : dop unit
(* constructors; [StorageRegistry.__init__] validates the locations *)
| Construct (k : component) : dop (result exn nat)
| ValidateLocations : dop (result exn unit)
| CloseObject (h : nat) : dop (result exn unit).

Section wiring.
Local Open Scope prog_scope.

Abbreviation program := (prog dop).

(** [@lru_cache]: a result is kept, an exception is not; the entry of a caller that
    was faster is left alone. *)
Definition lru_cache {X} (g : getter X) (body : program X) : program X :=
  hit <- perform (Held g);;
  match hit with
  | Some x => Ret x
  | None => x <- body;; perform (Hold g x);; Ret x
  end.

Definition get_metadata_store : program nat :=
  lru_cache GMetadata (invoke GetSettings;; invoke (Construct CMetadata)).

Definition get_output_publication_registry : program nat :=
  lru_cache GPublications (invoke GetSettings;; invoke (Construct CPublications)).

Definition get_storage_registry : program registry_object :=
  lru_cache GRegistry
    (invoke GetSettings;;
     metadata <- get_metadata_store;;
     publications <- get_output_publication_registry;;
     invoke ValidateLocations;;
     Ret (RegistryObject metadata publications)).

Definition get_query_service : program service_object :=
  lru_cache GService
    (invoke GetSettings;;
     storage <- get_storage_registry;;
     engine <- invoke (Construct CEngine);;
     cache <- invoke (Construct CCache);;
     metadata <- get_metadata_store;;
     Ret (ServiceObject engine cache storage metadata)).

Definition get_job_queue : program queue_object :=
  lru_cache GQueue
    (invoke GetSettings;;
     metadata <- get_metadata_store;;
     client <- invoke (Construct CQueue);;
     Ret (QueueObject client metadata)).

(** ** Closing *)

(** [QueryService.close], [ValkeyJobQueue.close], [StorageRegistry.close]. *)
Definition close_service (s : service_object) : program unit :=
  invoke (CloseObject (so_engine s));; invoke (CloseObject (so_cache s)).

Definition close_queue (q : queue_object) : program unit := invoke (CloseObject (qo_client q)).

Definition close_registry (r : registry_object) : program unit :=
  invoke (CloseObject (ro_publications r)).

(** [if get.cache_info().currsize: get().close(); get.cache_clear()]. *)
Definition close_held {X} (g : getter X) (get : program X) (close : X -> program unit)
  : program unit :=
  held <- perform (Held g);;
  match held with
  | Some _ => x <- get;; close x;; perform (CacheClear g)
  | None => Ret tt
  end.

Definition shutdown_dependencies : program unit :=
  close_held GService get_query_service close_service;;
  close_held GQueue get_job_queue close_queue;;
  close_held GRegistry get_storage_registry close_registry;;
  perform (CacheClear GPublications);;
  close_held GMetadata get_metadata_store (fun store => invoke (CloseObject store)).
End wiring.

(** ** The application around them *)

Inductive aop (QR : Type) : Type -> Type :=
| Depend {X : Type} (o : dop X) : aop QR X
| OnQueue {X : Type} (o : qop QR X) : aop QR X
(* [service.ready()], [queue.ping()]; a metric, and all of them as text *)
| ServiceReady (s : service_object) : aop QR (result exn bool)
| QueuePing (q : queue_object) : aop QR (result exn bool)
| MeasureApi (m : metric) : aop QR unit
| GenerateLatest : aop QR string
(* logging set up with the settings' level; the application serves requests;
   uvicorn runs it *)
| ConfigureLog : aop QR (result exn unit)
| Serve : aop QR (result exn unit)
| UvicornRun : aop QR (result exn unit).
Arguments Depend {QR X} o.
Arguments OnQueue {QR X} o.
Arguments ServiceReady {QR} s.
Arguments QueuePing {QR} q.
Arguments MeasureApi {QR} m.
Arguments GenerateLatest {QR}.
Arguments ConfigureLog {QR}.
Arguments Serve {QR}.
Arguments UvicornRun {QR}.

Section application.
Context {QR : Type} (cc : client_cfg).
Local Open Scope prog_scope.

Abbreviation program := (prog (aop QR)).

Definition depends {A} (p : prog dop A) : program A := interp (fun X o => perform (Depend o)) p.

(** Starting and stopping: what [yield] stands for is [Serve].  The shutdown is
    not made when starting up fails. *)
Definition lifespan : program unit :=
  invoke ConfigureLog;; invoke Serve;; depends shutdown_dependencies.

Definition live : program (response string) := Ret (Response 200 [] (Ok "ok")).

(** The components a handler depends on are got first. *)
Definition get_ready : program (response string) :=
  answering
    (service <- depends get_query_service;;
     queue <- depends get_job_queue;;
     alive <- perform (ServiceReady service);;
     match alive with
     | Ok true => pong <- perform (QueuePing queue);; Ret (Api.ready alive pong)
     | _ => Ret (Api.ready alive (Ok false))
     end).

(** Errors are ignored: the page shows the depth last measured. *)
Definition metrics : program (response string) :=
  try_except
    (_ <- depends get_job_queue;;
     waiting <- interp (fun X o => perform (OnQueue o)) (depth cc);;
     perform (MeasureApi (JobQueueDepth waiting)))
    (fun _ => Ret tt);;
  text <- perform GenerateLatest;;
  Ret (Response 200 [] (Ok text)).

(** main.py *)
Definition run_api : program unit := invoke ConfigureLog;; invoke UvicornRun.
End application.
