(* ===== verification/WiringTheorems.v ===== *)
(** * What the wiring promises

    Whatever fails on the way, nothing is built twice while its getter holds it,
    and a shutdown closes what is held in the order of use, nothing twice; when
    nothing fails it closes everything that was built.  Two threads that ask first
    at the same time, however, build two services, one of which is never closed. *)

From Stdlib Require Import QArith.
From S2P Require Import Prelude Models Prog Wiring.

#[local] Open Scope Z_scope.

(** ** The objects of a process *)

Record objects := Objects {
  o_metadata : option nat;
  o_publications : option nat;
  o_registry : option registry_object;
  o_service : option service_object;
  o_queue : option queue_object;
  o_built : list component;   (* by handle *)
  o_closed : list nat;        (* in order *)
  o_failed : bool;            (* something raised *)
}.

Definition nothing : objects := Objects None None None None None [] [] false.

Definition held {X} (g : getter X) (w : objects) : option X :=
  match g in getter Y return option Y with
  | GMetadata => o_metadata w
  | GPublications => o_publications w
  | GRegistry => o_registry w
  | GService => o_service w
  | GQueue => o_queue w
  end.

Definition hold {X} (g : getter X) (w : objects) : option X -> objects :=
  match g in getter Y return option Y -> objects with
  | GMetadata => fun x => Objects x (o_publications w) (o_registry w) (o_service w) (o_queue w)
                            (o_built w) (o_closed w) (o_failed w)
  | GPublications => fun x => Objects (o_metadata w) x (o_registry w) (o_service w) (o_queue w)
                                (o_built w) (o_closed w) (o_failed w)
  | GRegistry => fun x => Objects (o_metadata w) (o_publications w) x (o_service w) (o_queue w)
                            (o_built w) (o_closed w) (o_failed w)
  | GService => fun x => Objects (o_metadata w) (o_publications w) (o_registry w) x (o_queue w)
                           (o_built w) (o_closed w) (o_failed w)
  | GQueue => fun x => Objects (o_metadata w) (o_publications w) (o_registry w) (o_service w) x
                         (o_built w) (o_closed w) (o_failed w)
  end.

(** An entry that is already there stays. *)
Definition remember {X} (g : getter X) (x : X) (w : objects) : objects :=
  match held g w with Some _ => w | None => hold g w (Some x) end.

Definition built (k : component) (w : objects) : objects :=
  Objects (o_metadata w) (o_publications w) (o_registry w) (o_service w) (o_queue w)
    (o_built w ++ [k]) (o_closed w) (o_failed w).
Definition closed (h : nat) (w : objects) : objects :=
  Objects (o_metadata w) (o_publications w) (o_registry w) (o_service w) (o_queue w)
    (o_built w) (o_closed w ++ [h]) (o_failed w).
Definition noting {X} (r : result exn X) (w : objects) : objects :=
  Objects (o_metadata w) (o_publications w) (o_registry w) (o_service w) (o_queue w)
    (o_built w) (o_closed w) (o_failed w || negb (is_ok r)).

(** Anything can raise; a constructed object gets the next handle. *)
Definition wiring_effect {X} (o : dop X) (w : objects) : (X -> objects -> Prop) -> Prop :=
  match o in dop Y return (Y -> objects -> Prop) -> Prop with
  | GetSettings | ValidateLocations => fun Q => forall r, Q r (noting r w)
  | Held g => fun Q => Q (held g w) w
  | Hold g x => fun Q => Q tt (remember g x w)
  | CacheClear g => fun Q => Q tt (hold g w None)
  | Construct k => fun Q =>
      Q (Ok (length (o_built w))) (built k w) /\ forall e, Q (Err e) (noting (X := nat) (Err e) w)
  | CloseObject h => fun Q => forall r, Q r (noting r (closed h w))
  end.

Lemma wiring_effect_mono X (o : dop X) w (Q1 Q2 : X -> objects -> Prop) :
  (forall x w', Q1 x w' -> Q2 x w') -> wiring_effect o w Q1 -> wiring_effect o w Q2.
Proof. intros HQ. destruct o; cbn; naive_solver. Qed.

#[export] Instance wiring_effects : Effects dop objects :=
  {| effect := @wiring_effect; effect_mono := wiring_effect_mono |}.

(** ** The invariant *)

Definition opt_list {A} (f : A -> list nat) (o : option A) : list nat :=
  match o with Some x => f x | None => [] end.

(** What a shutdown would close, in its order. *)
Definition owned (w : objects) : list nat :=
  opt_list (fun s => [so_engine s; so_cache s]) (o_service w)
  ++ opt_list (fun q => [qo_client q]) (o_queue w)
  ++ opt_list (fun p => [p]) (o_publications w) ++ opt_list (fun m => [m]) (o_metadata w).

Definition is_a (k : component) (w : objects) (h : nat) : Prop := o_built w !! h = Some k.

(** Held objects are of their kind, and made of held objects. *)
Record consistent (w : objects) : Prop := {
  co_metadata m : o_metadata w = Some m -> is_a CMetadata w m;
  co_publications p : o_publications w = Some p -> is_a CPublications w p;
  co_registry r : o_registry w = Some r ->
    o_metadata w = Some (ro_metadata r) /\ o_publications w = Some (ro_publications r);
  co_service s : o_service w = Some s ->
    is_a CEngine w (so_engine s) /\ is_a CCache w (so_cache s)
    /\ o_registry w = Some (so_storage s) /\ o_metadata w = Some (so_metadata s);
  co_queue q : o_queue w = Some q ->
    is_a CQueue w (qo_client q) /\ o_metadata w = Some (qo_metadata q);
}.

(** [extra]: objects built but not held yet.  Unless something raised, all that was
    built is held or being made into something. *)
Record tidy (extra : list nat) (w : objects) : Prop := {
  ti_consistent : consistent w;
  ti_open : o_closed w = [];
  ti_all : o_failed w = false -> owned w ++ extra ≡ₚ seq 0 (length (o_built w));
}.

(** ** Steps that keep things tidy *)

Lemma tidy_noting {X} extra (r : result exn X) w : tidy extra w -> tidy extra (noting r w).
Proof.
  intros [Hc Ho Ha]. split; [|done|].
  - destruct Hc. by split.
  - cbn. intros [Hf _]%orb_false_elim. by apply Ha.
Qed.

Lemma consistent_built k w : consistent w -> consistent (built k w).
Proof.
  intros [H1 H2 H3 H4 H5].
  assert (Hk : forall k' h, is_a k' w h -> is_a k' (built k w) h)
    by (intros k' h Hh; unfold is_a; cbn; by apply lookup_app_l_Some).
  split; cbn.
  - intros m Hm. by apply Hk, H1.
  - intros p Hp. by apply Hk, H2.
  - exact H3.
  - intros s (? & ? & ? & ?)%H4. auto.
  - intros q [? ?]%H5. auto.
Qed.

Lemma tidy_built extra k w :
  tidy extra w -> tidy (extra ++ [length (o_built w)]) (built k w)
    /\ is_a k (built k w) (length (o_built w)).
Proof.
  intros [Hc Ho Ha]. split; [split; [by apply consistent_built|done|]|].
  - cbn. intros Hf. rewrite length_app, seq_app, app_assoc. by rewrite (Ha Hf).
  - unfold is_a. cbn. by rewrite lookup_app_r, Nat.sub_diag.
Qed.

(** What an entry adds to what is held. *)
Definition pieces {X} (g : getter X) : X -> list nat :=
  match g in getter Y return Y -> list nat with
  | GMetadata => fun m => [m]
  | GPublications => fun p => [p]
  | GRegistry => fun _ => []
  | GService => fun s => [so_engine s; so_cache s]
  | GQueue => fun q => [qo_client q]
  end.

Lemma tidy_hold {X} (g : getter X) x extra w :
  tidy (extra ++ pieces g x) w -> held g w = None -> consistent (hold g w (Some x)) ->
  tidy extra (remember g x w).
Proof.
  intros [_ Ho Ha] Hn Hc. unfold remember. rewrite Hn. split; [done|by destruct g|].
  intros Hf.
  assert (E : owned (hold g w (Some x)) ≡ₚ owned w ++ pieces g x)
    by (destruct g; unfold owned; cbn in *; rewrite ?Hn; cbn; rewrite ?app_nil_r; solve_Permutation).
  rewrite E, <- app_assoc, (Permutation_app_comm (pieces g x)).
  replace (o_built (hold g w (Some x))) with (o_built w) by by destruct g. apply Ha. by destruct g.
Qed.

Lemma wp_lru {X} (g : getter X) body w (Q : result exn X -> objects -> Prop) :
  (forall x, held g w = Some x -> Q (Ok x) w) ->
  (held g w = None ->
   wp body w (fun r w' => match r with Ok x => Q (Ok x) (remember g x w') | Err e => Q (Err e) w' end)) ->
  wp (lru_cache g body) w Q.
Proof.
  intros Hhit Hmiss. apply wp_bind. change (wp (E := dop) (Ret (held g w)) w (fun r s' =>
    match r with
    | Ok a => wp (match a with Some x => Ret x | None => (x <- body;; perform (Hold g x);; Ret x)%prog end) s' Q
    | Err e => Q (Err e) s' end)). cbn [wp].
  destruct (held g w) as [x|]; [by apply Hhit|]. apply wp_bind.
  eapply wp_mono; [|by apply Hmiss]. intros [x|e] w' HQ; [|done]. by apply wp_bind.
Qed.

(** ** What each getter does *)

(** A getter calls those below it. *)
Definition level {X} (g : getter X) : nat :=
  match g with GMetadata => 0 | GQueue => 1 | GPublications => 2 | GRegistry => 3 | GService => 4 end.

(** From [w] to [w'] no getter above [l] was run, and nothing was let go. *)
Record since (l : nat) (w : objects) (extra : list nat) (w' : objects) : Prop := {
  si_tidy : tidy extra w';
  si_kinds k h : is_a k w h -> is_a k w' h;
  si_held {X} (g : getter X) x : held g w = Some x -> held g w' = Some x;
  si_above {X} (g : getter X) : (l < level g)%nat -> held g w' = held g w;
  si_failed : o_failed w = true -> o_failed w' = true;
}.

Lemma since_refl l w extra : tidy extra w -> since l w extra w.
Proof. by split. Qed.

Lemma since_noting {X} (r : result exn X) l w extra w' :
  since l w extra w' -> since l w extra (noting r w').
Proof.
  intros [T K M A F]. split; [by apply tidy_noting|done|..].
  - intros Y g y Hy. apply M in Hy. by destruct g.
  - intros Y g Hg. rewrite <- A by done. by destruct g.
  - intros Hf. cbn. by rewrite (F Hf).
Qed.

Lemma since_built k l w extra w' :
  since l w extra w' -> since l w (extra ++ [length (o_built w')]) (built k w')
    /\ is_a k (built k w') (length (o_built w')).
Proof.
  intros [T K M A F]. destruct (tidy_built extra k w' T) as [Tb Hk]. split; [split; [done|..|done]|done].
  - intros k' h Hh. unfold is_a. cbn. by apply lookup_app_l_Some, K.
  - intros Y g y Hy. apply M in Hy. by destruct g.
  - intros Y g Hg. rewrite <- A by done. by destruct g.
Qed.

Lemma held_hold {X Y} (g : getter X) (g' : getter Y) x w :
  level g <> level g' -> held g' (hold g w x) = held g' w.
Proof. destruct g, g'; done. Qed.

Lemma held_hold_same {X} (g : getter X) x w : held g (hold g w x) = x.
Proof. by destruct g. Qed.

Lemma since_hold {X} (g : getter X) x l w extra w' :
  since l w (extra ++ pieces g x) w' -> held g w = None -> held g w' = None ->
  (level g <= l)%nat -> consistent (hold g w' (Some x)) ->
  since l w extra (remember g x w').
Proof.
  intros [T K M A F] Hn Hn' Hl Hc. split; [by apply tidy_hold|..]; unfold remember; rewrite Hn'.
  - intros k h Hh. apply K in Hh. by destruct g.
  - intros Y g' y Hy. destruct (decide (level g = level g')) as [E|E].
    + destruct g, g'; cbn in *; congruence || discriminate.
    + rewrite held_hold by done. auto.
  - intros Y g' Hg. rewrite held_hold by lia. by apply A.
  - intros Hf. apply F in Hf. by destruct g.
Qed.

(** What a getter called in [w] leaves behind. *)
Definition got {X} (g : getter X) (w : objects) (extra : list nat) (r : result exn X) (w' : objects)
  : Prop :=
  since (level g) w extra w'
  /\ match r with Ok x => held g w' = Some x | Err _ => o_failed w' = true end.

Lemma wp_getter {X} (g : getter X) body w extra :
  tidy extra w ->
  (held g w = None ->
   wp body w (fun r w' =>
     match r with
     | Ok x => since (level g) w (extra ++ pieces g x) w' /\ held g w' = None
               /\ consistent (hold g w' (Some x))
     | Err e => since (level g) w extra w' /\ o_failed w' = true
     end)) ->
  wp (lru_cache g body) w (got g w extra).
Proof.
  intros Ht Hbody. apply wp_lru.
  - intros x Hx. split; [by apply since_refl|done].
  - intros Hn. eapply wp_mono; [|by apply Hbody]. intros [x|e] w'; [|done].
    intros (Hs & Hn' & Hc). split; [by apply since_hold|].
    unfold remember. rewrite Hn'. apply held_hold_same.
Qed.

Lemma si_consistent l w extra w' : since l w extra w' -> consistent w'.
Proof. by intros [[? _ _] _ _ _ _]. Qed.

(** A step that can raise, at the start of a body. *)
Lemma wp_settings {A} l w w1 extra (p : prog dop A) (Q : result exn A -> objects -> Prop) :
  since l w extra w1 ->
  (forall w2, since l w extra w2 -> (forall Y (g : getter Y), held g w2 = held g w1) -> wp p w2 Q) ->
  (forall e w2, since l w extra w2 -> o_failed w2 = true -> Q (Err e) w2) ->
  wp (bind (invoke GetSettings) (fun _ => p)) w1 Q.
Proof.
  intros Hs Hok Herr. apply wp_bind, wp_invoke. intros r. pose proof (since_noting r _ _ _ _ Hs).
  destruct r as [u|e]; [apply Hok; [done|by intros Y []]|]. apply Herr; [done|]. cbn. by rewrite orb_true_r.
Qed.

(** Once something raised, nothing is claimed of the objects that are not held. *)
Lemma since_failed l w e1 e2 w' : since l w e1 w' -> o_failed w' = true -> since l w e2 w'.
Proof.
  intros [[C O A] K M B F] Hf. split; [split; [done|done|]|done..]. intros Hf'. congruence.
Qed.

Definition constructed (k : component) l w w1 extra (r : result exn nat) (w2 : objects) : Prop :=
  match r with
  | Ok h => since l w (extra ++ [h]) w2 /\ is_a k w2 h
            /\ (forall Y (g : getter Y), held g w2 = held g w1)
            /\ forall k' h', is_a k' w1 h' -> is_a k' w2 h'
  | Err _ => since l w extra w2 /\ o_failed w2 = true
  end.

Lemma wp_construct k l w w1 extra :
  since l w extra w1 -> wp (invoke (Construct k)) w1 (constructed k l w w1 extra).
Proof.
  intros Hs. apply wp_invoke. split.
  - destruct (since_built k _ _ _ _ Hs) as [Hb Hk]. split; [done|]. split; [done|].
    split; [by intros Y []|]. intros k' h' Hh. unfold is_a. cbn. by apply lookup_app_l_Some.
  - intros e. split; [by apply since_noting|]. cbn. by rewrite orb_true_r.
Qed.

Lemma since_under l1 l2 w e1 w1 e2 w2 :
  since l2 w e1 w1 -> since l1 w1 e2 w2 -> (l1 <= l2)%nat -> since l2 w e2 w2.
Proof.
  intros [_ K1 M1 A1 F1] [T2 K2 M2 A2 F2] Hl. split; [done|auto|auto| |auto].
  intros Y g Hg. rewrite A2 by lia. by apply A1.
Qed.

Lemma wp_nested {X A} (g : getter X) (get : prog dop X) l w w1 extra (f : X -> prog dop A)
    (Q : result exn A -> objects -> Prop) :
  wp get w1 (got g w1 extra) -> since l w extra w1 -> (level g <= l)%nat ->
  (forall x w2, since l w extra w2 -> since (level g) w1 extra w2 -> held g w2 = Some x -> wp (f x) w2 Q) ->
  (forall e w2, since l w extra w2 -> o_failed w2 = true -> Q (Err e) w2) ->
  wp (bind get f) w1 Q.
Proof.
  intros Hget Hs Hl Hok Herr. apply wp_bind. eapply wp_mono; [|exact Hget].
  intros [x|e] w2 [Hs2 Hr].
  - apply Hok; [|done..]. by eapply since_under.
  - apply Herr; [|done]. by eapply since_under.
Qed.

Lemma wp_metadata_store w extra : tidy extra w -> wp get_metadata_store w (got GMetadata w extra).
Proof.
  intros Ht. apply wp_getter; [done|]. intros Hn.
  eapply wp_settings; [by apply since_refl| |by intros e w2]. intros w2 Hs2 Eh.
  eapply wp_mono; [|by apply wp_construct]. intros [m|e] w3; [|done]. intros (Hs3 & Hk & Eh3 & _).
  specialize (Eh3 _ GMetadata) as En. rewrite Eh, Hn in En.
  split_and!; [done|done|]. destruct (si_consistent _ _ _ _ Hs3) as [C1 C2 C3 C4 C5].
  cbn in En. split; cbn.
  - by intros m' [= <-].
  - exact C2.
  - intros r [Hr _]%C3. congruence.
  - intros s (_ & _ & _ & Hm)%C4. congruence.
  - intros q [_ Hm]%C5. congruence.
Qed.

Lemma wp_publications w extra :
  tidy extra w -> wp get_output_publication_registry w (got GPublications w extra).
Proof.
  intros Ht. apply wp_getter; [done|]. intros Hn.
  eapply wp_settings; [by apply since_refl| |by intros e w2]. intros w2 Hs2 Eh.
  eapply wp_mono; [|by apply wp_construct]. intros [p|e] w3; [|done]. intros (Hs3 & Hk & Eh3 & _).
  specialize (Eh3 _ GPublications) as En. rewrite Eh, Hn in En.
  split_and!; [done|done|]. destruct (si_consistent _ _ _ _ Hs3) as [C1 C2 C3 C4 C5].
  cbn in En. split; cbn; [exact C1|by intros p' [= <-]| |exact C4|exact C5].
  intros r [_ Hr]%C3. congruence.
Qed.

Lemma wp_storage_registry w extra :
  tidy extra w -> wp get_storage_registry w (got GRegistry w extra).
Proof.
  intros Ht. apply wp_getter; [done|]. intros Hn.
  eapply wp_settings; [by apply since_refl| |by intros e w2]. intros w2 Hs2 Eh.
  eapply wp_nested; [apply wp_metadata_store, Hs2|exact Hs2|cbn; lia| |by intros e w3].
  intros m w3 Hs3 H23 Hm.
  eapply wp_nested; [apply wp_publications, Hs3|exact Hs3|cbn; lia| |by intros e w4].
  intros p w4 Hs4 H34 Hp. apply wp_bind, wp_invoke. intros r.
  pose proof (since_noting r _ _ _ _ Hs4) as Hs5.
  destruct r as [u|e]; [|split; [done|cbn; by rewrite orb_true_r]].
  cbn [wp pieces]. rewrite app_nil_r. split; [done|].
  assert (En : held GRegistry w4 = None).
  { rewrite (si_above _ _ _ _ H34 GRegistry), (si_above _ _ _ _ H23 GRegistry), Eh by (cbn; lia). done. }
  pose proof (si_held _ _ _ _ H34 GMetadata m Hm) as Hm4.
  split; [exact En|]. destruct (si_consistent _ _ _ _ Hs5) as [C1 C2 C3 C4 C5]. cbn in *.
  split; cbn; [exact C1|exact C2|by intros r [= <-]| |exact C5].
  intros s (_ & _ & Hr & _)%C4. congruence.
Qed.

Lemma wp_query_service w extra : tidy extra w -> wp get_query_service w (got GService w extra).
Proof.
  intros Ht. apply wp_getter; [done|]. intros Hn.
  eapply wp_settings; [by apply since_refl| |by intros e w2]. intros w2 Hs2 Eh2.
  eapply wp_nested; [apply wp_storage_registry, Hs2|exact Hs2|cbn; lia| |by intros e w3].
  intros r w3 Hs3 H23 Hr. apply wp_bind. eapply wp_mono; [|exact (wp_construct _ _ _ _ _ Hs3)].
  intros [e|e] w4; [|done]. intros (Hs4 & Hke & Eh4 & _).
  apply wp_bind. eapply wp_mono; [|exact (wp_construct _ _ _ _ _ Hs4)].
  intros [c|err] w5; [|intros [H5 Hf]; split; [by eapply since_failed|done]]. intros (Hs5 & Hkc & Eh5 & K45).
  eapply wp_nested; [apply wp_metadata_store, Hs5|exact Hs5|cbn; lia| |].
  2: { intros err w6 Hs6 Hf. split; [by eapply since_failed|done]. }
  intros m w6 Hs6 H56 Hm. cbn [wp pieces]. rewrite <- app_assoc in Hs6. split; [exact Hs6|].
  assert (En : held GService w6 = None).
  { rewrite (si_above _ _ _ _ H56 GService), Eh5, Eh4, (si_above _ _ _ _ H23 GService), Eh2 by (cbn; lia).
    exact Hn. }
  assert (Er : held GRegistry w6 = Some r) by (apply (si_held _ _ _ _ H56 GRegistry); by rewrite Eh5, Eh4).
  assert (Hke6 : is_a CEngine w6 e).
  { by apply (si_kinds _ _ _ _ H56), K45. }
  split; [exact En|]. pose proof (si_kinds _ _ _ _ H56 _ _ Hkc) as Hkc6.
  destruct (si_consistent _ _ _ _ Hs6) as [C1 C2 C3 C4 C5]. cbn in *.
  split; cbn; [exact C1|exact C2|exact C3| |exact C5]. by intros s [= <-].
Qed.

Lemma wp_job_queue w extra : tidy extra w -> wp get_job_queue w (got GQueue w extra).
Proof.
  intros Ht. apply wp_getter; [done|]. intros Hn.
  eapply wp_settings; [by apply since_refl| |by intros e w2]. intros w2 Hs2 Eh2.
  eapply wp_nested; [apply wp_metadata_store, Hs2|exact Hs2|cbn; lia| |by intros e w3].
  intros m w3 Hs3 H23 Hm. apply wp_bind. eapply wp_mono; [|exact (wp_construct _ _ _ _ _ Hs3)].
  intros [q|e] w4; [|done]. intros (Hs4 & Hk & Eh4 & _).
  cbn [wp pieces]. split; [done|].
  assert (En : held GQueue w4 = None)
    by (rewrite Eh4, (si_above _ _ _ _ H23 GQueue), Eh2 by (cbn; lia); exact Hn).
  split; [exact En|]. pose proof (Eh4 _ GMetadata) as Em. rewrite Hm in Em.
  destruct (si_consistent _ _ _ _ Hs4) as [C1 C2 C3 C4 C5]. cbn in *.
  split; cbn; [exact C1|exact C2|exact C3|exact C4|]. by intros q' [= <-].
Qed.

(** ** Sessions *)

(** Outside the getters, publications are held only below a registry, unless
    something raised. *)
Definition rooted (w : objects) : Prop :=
  o_failed w = false -> o_publications w <> None -> o_registry w <> None.

Definition ready (w : objects) : Prop := tidy [] w /\ rooted w.

(** What a handler of the API asks for; an exception is its answer. *)
Inductive need := NeedService | NeedQueue | NeedRegistry.

Definition request (n : need) : prog dop unit :=
  try_except
    (match n with
     | NeedService => _ <- get_query_service;; Ret tt
     | NeedQueue => _ <- get_job_queue;; Ret tt
     | NeedRegistry => _ <- get_storage_registry;; Ret tt
     end)%prog (fun _ => Ret tt).

Lemma wp_request n w (Q : result exn unit -> objects -> Prop) :
  ready w -> (forall w', ready w' -> Q (Ok tt) w') -> wp (request n) w Q.
Proof.
  intros [Ht Hr] HQ. apply wp_try_except.
  assert (Hend : forall X (g : getter X) (get : prog dop X),
            (forall w extra, tidy extra w -> wp get w (got g w extra)) ->
            (forall r w', got g w [] r w' -> rooted w') ->
            wp (_ <- get;; Ret tt)%prog w (fun r s' =>
              match r with Ok a => Q (Ok a) s' | Err e => wp (Ret tt) s' Q end)).
  { intros X g get Hget Hroot. apply wp_bind. eapply wp_mono; [|by apply Hget].
    intros r w' Hg. assert (ready w') by (split; [apply Hg|by eapply Hroot]).
    destruct r; by apply HQ. }
  destruct n.
  - apply (Hend _ GService); [apply wp_query_service|]. intros [s|e] w' [Hs Hres] Hf _; [|congruence].
    apply (co_service _ (si_consistent _ _ _ _ Hs)) in Hres as (_ & _ & -> & _). done.
  - apply (Hend _ GQueue); [apply wp_job_queue|]. intros r w' [Hs _] Hf Hp.
    pose proof (si_above _ _ _ _ Hs GPublications) as Ep.
    pose proof (si_above _ _ _ _ Hs GRegistry) as Er. cbn in Ep, Er. rewrite Er by lia.
    rewrite Ep in Hp by lia. apply Hr; [|done]. destruct (o_failed w) eqn:E; [|done].
    by rewrite (si_failed _ _ _ _ Hs E) in Hf.
  - apply (Hend _ GRegistry); [apply wp_storage_registry|]. intros [r|e] w' [Hs Hres] Hf _; [|congruence].
    cbn in Hres. by rewrite Hres.
Qed.

(** ** Shutting down *)

(** The handles a shutdown closes, in its order. *)
Definition closing (w : objects) : list nat :=
  opt_list (fun s => [so_engine s; so_cache s]) (o_service w)
  ++ opt_list (fun q => [qo_client q]) (o_queue w)
  ++ opt_list (fun r => [ro_publications r]) (o_registry w)
  ++ opt_list (fun m => [m]) (o_metadata w).

Definition closed_all (l : list nat) (w : objects) : objects :=
  Objects (o_metadata w) (o_publications w) (o_registry w) (o_service w) (o_queue w)
    (o_built w) (o_closed w ++ l) (o_failed w).

(** A getter that holds its object does nothing more. *)
Lemma wp_close_held {X} (g : getter X) body (close : X -> prog dop unit) w
    (Q : result exn unit -> objects -> Prop) :
  match held g w with
  | Some x => wp (close x) w (fun r w' =>
      match r with Ok _ => Q (Ok tt) (hold g w' None) | Err e => Q (Err e) w' end)
  | None => Q (Ok tt) w
  end ->
  wp (close_held g (lru_cache g body) close) w Q.
Proof.
  intros HQ. apply wp_bind.
  change (wp (match held g w with
              | Some _ => (x <- lru_cache g body;; close x;; perform (CacheClear g))%prog
              | None => Ret tt
              end) w Q).
  destruct (held g w) as [x|] eqn:E; [|done]. apply wp_bind, wp_lru; [|congruence].
  intros x' Hx. rewrite E in Hx. injection Hx as <-. apply wp_bind.
  eapply wp_mono; [|exact HQ]. by intros [u|e] w' HQ'.
Qed.

(** What a shutdown does: it closes in order, and lets go of everything unless a
    close raised. *)
Definition shut (w : objects) (r : result exn unit) (w' : objects) : Prop :=
  o_built w' = o_built w
  /\ (exists k, o_closed w' = o_closed w ++ take k (closing w))
  /\ match r with
     | Ok _ => w' = Objects None None None None None (o_built w) (o_closed w ++ closing w) (o_failed w)
     | Err _ => o_failed w' = true
     end.

(** In the middle of a shutdown of [w0]: [before] is closed, [after] is not. *)
Record shutting (w0 : objects) (before after : list nat) (w : objects) : Prop := {
  sh_built : o_built w = o_built w0;
  sh_closed : o_closed w = o_closed w0 ++ before;
  sh_failed : o_failed w = o_failed w0;
  sh_closing : closing w0 = before ++ after;
}.

Lemma shutting_hold {X} (g : getter X) w0 before after w :
  shutting w0 before after w -> shutting w0 before after (hold g w None).
Proof. intros [? ? ? ?]. by destruct g. Qed.

(** A close that raises ends the shutdown there. *)
Lemma wp_close_object h w0 before after w (Q : result exn unit -> objects -> Prop) :
  shutting w0 before (h :: after) w ->
  (shutting w0 (before ++ [h]) after (closed h w) -> Q (Ok tt) (closed h w)) ->
  (forall e w', shut w0 (Err e) w' -> Q (Err e) w') ->
  wp (invoke (CloseObject h)) w Q.
Proof.
  intros [Hb Hc Hf Hl] Hok Herr. apply wp_invoke. intros [[]|e].
  - replace (noting (Ok tt) (closed h w)) with (closed h w)
      by (unfold noting, closed; cbn; by rewrite orb_false_r).
    apply Hok. split; cbn; [done| |done|by rewrite Hl, <- app_assoc]. by rewrite Hc, app_assoc.
  - apply Herr. split; [done|]. split; [|cbn; by rewrite orb_true_r].
    exists (length (before ++ [h])). cbn.
    replace (closing w0) with ((before ++ [h]) ++ after) by (by rewrite Hl, <- app_assoc).
    by rewrite take_app_length, Hc, app_assoc.
Qed.

(** The stages of a shutdown, from the last to the first.  Each finds the entries
    of the later ones as they were in [w0]. *)
Lemma wp_shut_metadata w0 before w :
  shutting w0 before (opt_list (fun m => [m]) (o_metadata w0)) w ->
  o_metadata w = o_metadata w0 -> o_publications w = None -> o_registry w = None ->
  o_service w = None -> o_queue w = None ->
  wp (close_held GMetadata get_metadata_store (fun store => invoke (CloseObject store))) w (shut w0).
Proof.
  intros Hs Em Ep Er Es Eq. apply wp_close_held. cbn [held]. rewrite Em.
  assert (Hend : forall before' w', shutting w0 before' [] w' -> o_metadata w' = None ->
    o_publications w' = None -> o_registry w' = None -> o_service w' = None -> o_queue w' = None ->
    shut w0 (Ok tt) w').
  { intros b w' [Hb Hc Hf Hl] E1 E2 E3 E4 E5. rewrite app_nil_r in Hl. split; [done|]. split.
    - exists (length b). by rewrite Hl, firstn_all.
    - destruct w'. cbn in *. by subst. }
  destruct (o_metadata w0) as [m|]; [|by eapply Hend].
  eapply wp_close_object; [exact Hs| |done]. intros Hs'.
  eapply Hend; [by apply (shutting_hold GMetadata)|done..].
Qed.

Lemma wp_shut_registry w0 before w :
  shutting w0 before (opt_list (fun r => [ro_publications r]) (o_registry w0)
                      ++ opt_list (fun m => [m]) (o_metadata w0)) w ->
  o_metadata w = o_metadata w0 -> o_registry w = o_registry w0 ->
  o_service w = None -> o_queue w = None ->
  wp (close_held GRegistry get_storage_registry close_registry;;
      perform (CacheClear GPublications);;
      close_held GMetadata get_metadata_store (fun store => invoke (CloseObject store)))%prog w (shut w0).
Proof.
  intros Hs Em Er Es Eq.
  assert (Hend : forall before' w', shutting w0 before' (opt_list (fun m => [m]) (o_metadata w0)) w' ->
    o_metadata w' = o_metadata w0 -> o_registry w' = None -> o_service w' = None -> o_queue w' = None ->
    wp (perform (CacheClear GPublications);;
        close_held GMetadata get_metadata_store (fun store => invoke (CloseObject store)))%prog w'
      (shut w0)).
  { intros b w' Hs' E1 E2 E3 E4. apply wp_bind.
    eapply (wp_shut_metadata _ b); [by apply (shutting_hold GPublications)|done..]. }
  apply wp_bind, wp_close_held. cbn [held]. rewrite Er.
  destruct (o_registry w0) as [r|]; [|by eapply Hend].
  eapply wp_close_object; [exact Hs| |done]. intros Hs'.
  eapply Hend; [by apply (shutting_hold GRegistry)|done..].
Qed.

Lemma wp_shutdown w : consistent w -> wp shutdown_dependencies w (shut w).
Proof.
  intros Hc. unfold shutdown_dependencies.
  assert (Hs : shutting w [] (closing w) w) by (split; [done|by rewrite app_nil_r|done|done]).
  assert (Hq : forall before w1,
    shutting w before (opt_list (fun q => [qo_client q]) (o_queue w)
                       ++ opt_list (fun r => [ro_publications r]) (o_registry w)
                       ++ opt_list (fun m => [m]) (o_metadata w)) w1 ->
    o_metadata w1 = o_metadata w -> o_registry w1 = o_registry w -> o_service w1 = None ->
    o_queue w1 = o_queue w ->
    wp (close_held GQueue get_job_queue close_queue;;
        close_held GRegistry get_storage_registry close_registry;;
        perform (CacheClear GPublications);;
        close_held GMetadata get_metadata_store (fun store => invoke (CloseObject store)))%prog w1
      (shut w)).
  { intros b w1 H1 Em Er Es Eq. apply wp_bind, wp_close_held. cbn [held]. rewrite Eq.
    destruct (o_queue w) as [q|]; [|by eapply wp_shut_registry].
    eapply wp_close_object; [exact H1| |done]. intros H2.
    eapply wp_shut_registry; [by apply (shutting_hold GQueue)|done..]. }
  apply wp_bind, wp_close_held. cbn [held]. unfold closing in Hs.
  destruct (o_service w) as [s|] eqn:Es; [|by eapply Hq].
  apply wp_bind. eapply wp_close_object; [exact Hs| |done]. intros H1.
  eapply wp_close_object; [exact H1| |done]. intros H2.
  eapply Hq; [by apply (shutting_hold GService)|done..].
Qed.

(** ** The theorems *)

Definition session (needs : list need) : prog dop unit :=
  (for_each needs tt (fun _ n => request n);; shutdown_dependencies)%prog.

(** Users before what they use. *)
Definition closing_order : list component := [CEngine; CCache; CQueue; CPublications; CMetadata].

Lemma closing_kinds w :
  consistent w ->
  exists ks, Forall2 (fun h k => is_a k w h) (closing w) ks /\ sublist ks closing_order.
Proof.
  intros [C1 C2 C3 C4 C5]. unfold closing, closing_order.
  change [CEngine; CCache; CQueue; CPublications; CMetadata]
    with ([CEngine; CCache] ++ [CQueue] ++ [CPublications] ++ [CMetadata]).
  assert (Hpart : forall l (ks0 : list component) ls ks1,
    (exists ks, Forall2 (fun h k => is_a k w h) l ks /\ sublist ks ks0) ->
    (exists ks, Forall2 (fun h k => is_a k w h) ls ks /\ sublist ks ks1) ->
    exists ks, Forall2 (fun h k => is_a k w h) (l ++ ls) ks /\ sublist ks (ks0 ++ ks1)).
  { intros l ks0 ls ks1 (k0 & F0 & S0) (k1 & F1 & S1). exists (k0 ++ k1).
    split; [by apply Forall2_app|by apply sublist_app]. }
  assert (Hnone : forall ks0 : list component,
    exists ks, Forall2 (fun h k => is_a k w h) [] ks /\ sublist ks ks0)
    by (intros ks0; exists []; split; [done|apply sublist_nil_l]).
  repeat apply Hpart.
  - destruct (o_service w) as [s|]; [|apply Hnone]. destruct (C4 s eq_refl) as (? & ? & _).
    exists [CEngine; CCache]. by repeat constructor.
  - destruct (o_queue w) as [q|]; [|apply Hnone]. destruct (C5 q eq_refl) as [? _].
    exists [CQueue]. by repeat constructor.
  - destruct (o_registry w) as [r|]; [|apply Hnone]. destruct (C3 r eq_refl) as [_ Hp].
    exists [CPublications]. specialize (C2 _ Hp). by repeat constructor.
  - destruct (o_metadata w) as [m|]; [|apply Hnone]. specialize (C1 _ eq_refl).
    exists [CMetadata]. by repeat constructor.
Qed.

(** When nothing raised, what is held is what a shutdown closes. *)
Lemma closing_owned w : ready w -> o_failed w = false -> closing w = owned w.
Proof.
  intros [[Hc _ _] Hr] Hf. unfold closing, owned.
  destruct (o_registry w) as [r|] eqn:Er.
  - destruct (co_registry w Hc r Er) as [_ ->]. done.
  - destruct (o_publications w) eqn:Ep; [|done]. by destruct (Hr Hf); [rewrite Ep|].
Qed.

Lemma nothing_ready : ready nothing.
Proof.
  split; [split; [split; cbn; discriminate|done|]|]; [by intros _|]. intros _ Hn. by destruct Hn.
Qed.

(** C39: A shutdown closes what was built, once, and users before what they use.
    Let a process ask the getters for the query service, the job queue and the
    storage registry, one request after the other, in any order and any number of
    times.  Whatever raises, the shutdown closes no object twice and keeps to the
    order engine, result cache, queue client, publication registry, metadata store,
    so that nothing is closed before what is built on it.  When nothing raised it
    has closed every object that was built, each component was built at most once,
    and the getters hold nothing any more.  (Two first requests at once can build
    two services, [racing_getters_build_two_services]; a publication registry got
    without the storage registry is not closed,
    [publications_leak_without_a_registry].) *)
Theorem shutdown_closes_what_was_built needs :
  wp (session needs) nothing
    (fun r w =>
       (exists ks, Forall2 (fun h k => o_built w !! h = Some k) (o_closed w) ks
          /\ sublist ks closing_order)
       /\ (o_failed w = false ->
             r = Ok tt /\ o_closed w ≡ₚ seq 0 (length (o_built w))
             /\ w = Objects None None None None None (o_built w) (o_closed w) false)).
Proof.
  unfold session. apply wp_bind. eapply (wp_for_each _ _ _ _ (fun _ w => ready w)).
  - apply nothing_ready.
  - intros u n w Hw _. apply wp_request; [done|]. by destruct u.
  - intros u w Hw. pose proof (ti_consistent _ _ (proj1 Hw)) as Hc.
    eapply wp_mono; [|by apply wp_shutdown]. intros r w' (Eb & [k Ek] & Hr).
    rewrite (ti_open _ _ (proj1 Hw)) in *. rewrite app_nil_l in Ek.
    destruct (closing_kinds w Hc) as (ks & Hks & Hsub). split.
    + exists (take k ks). rewrite Ek, Eb. split; [by apply Forall2_take|].
      etrans; [apply sublist_take|done].
    + intros Hf. destruct r as [[]|e]; [|congruence]. split; [done|]. subst w'. cbn in *.
      pose proof (ti_all _ _ (proj1 Hw) Hf) as Hall. rewrite app_nil_r in Hall.
      rewrite closing_owned, Hf by done. done.
Qed.

(** ** Two threads at once *)

(** Nothing raises. *)
Definition smoothly {X} (o : dop X) (w : objects) : X * objects :=
  match o in dop Y return Y * objects with
  | GetSettings | ValidateLocations => (Ok tt, w)
  | Held g => (held g w, w)
  | Hold g x => (tt, remember g x w)
  | CacheClear g => (tt, hold g w None)
  | Construct k => (Ok (length (o_built w)), built k w)
  | CloseObject h => (Ok tt, closed h w)
  end.

(** The kinds of the objects that are built and not closed. *)
Definition still_open (w : objects) : list component :=
  omap (fun h => if decide (h ∈ o_closed w) then None else o_built w !! h)
    (seq 0 (length (o_built w))).

(** Two first requests at once, after the store and the registry are there: both
    find no service and build one, with an engine and a limit on concurrent queries
    each.  The second is used by its request only; the shutdown never closes it. *)
Definition two_first_requests : prog dop service_object * prog dop service_object * objects :=
  let w := (run (@smoothly) get_storage_registry nothing).2 in
  race (@smoothly) (concat (repeat [true; false] 10)) get_query_service get_query_service w.

Example racing_getters_build_two_services :
  let '(p, q, w) := two_first_requests in
  (exists s1 s2, p = Ret s1 /\ q = Ret s2 /\ so_engine s1 <> so_engine s2 /\ o_service w = Some s1)
  /\ still_open (run (@smoothly) shutdown_dependencies w).2 = [CEngine; CCache].
Proof.
  vm_compute. split; [|reflexivity]. eexists _, _. split; [reflexivity|]. split; [reflexivity|].
  split; [discriminate|reflexivity].
Qed.

(** A bad storage location: the publication registry is built first, and stays
    open, since only a storage registry would close it. *)
Example publications_leak_without_a_registry :
  let fails {X} (o : dop X) (w : objects) : X * objects :=
    match o in dop Y return Y * objects with
    | ValidateLocations => (raise PyValueError "unsupported storage scheme for out: http", w)
    | o => smoothly o w
    end in
  still_open (run (@fails) (session [NeedService]) nothing).2 = [CPublications].
Proof. vm_compute. reflexivity. Qed.
